(* ===== verification/_CoqProject ===== *)
-Q . S2P
Prelude.v
Errors.v
Containers.v
Util.v
RaftTypes.v
RaftLog.v
PeerId.v
Membership.v
Merkle.v
MerkleProofs.v
MerkleProps.v
Raft.v
RaftInv.v
RaftStep.v
RaftAppend.v
RaftReceive.v
RaftPublic.v
RaftExamples.v
RaftProps.v
RaftChain.v
RaftControl.v
RaftCluster.v
ClientTypes.v
Db.v
Db2.v
Db2Spec.v
Db2Props.v
Db3.v
Db3Spec.v
Db3Props.v
Base64.v
Minimums.v
GroupClock.v
Timeout.v
Database.v
Db2Database.v
Db3Database.v
Noise.v
Msgs.v
Client.v
Peers.v
PeersInv.v
CoreState.v
Core.v
CoreReplicate.v
CoreHandlers.v
CoreHost.v
CoreHoare.v
CoreApply.v
Replication.v
CoreJoin.v
CoreMembers.v
CoreExamples.v
PeersProps.v
CoreProps.v
HostWire.v
Transport.v
TransportInv.v
TransportProps.v
PeerClient.v
Attest.v
Sev.v
Tpm2.v
Tpm2Snp.v
Nitro.v
AttestProps.v
HostAuth.v
PeerServer.v
HostProg.v
PeerDb.v
Dispatch.v
SocketWrap.v
EnclaveCalls.v
Environments.v
EnvProps.v
Web.v
WebProps.v
Metrics.v
HostLoops.v
