(* ===== verification/Prelude.v ===== *)
(** * Secure Value Recovery 2: a verification library

    SVR2 keeps secrets of users behind a PIN with few guesses.  Replicas of an
    enclave (C++, under enclave/) agree by Raft on a log of client requests and
    apply it to a database; an untrusted host process (Go, under host/) carries
    messages between clients, the enclave and the hosts of other replicas.
    Enclaves talk to each other and to clients only after remote attestation.

    ** The parts and their files

    - Shared: [Prelude] (machine integers, tactics, hint databases, lemmas on
      lists), [Errors] (error.proto), [Containers] (ordered maps and sets),
      [Util] and [Base64] (enclave/util).
    - Raft (enclave/raft): [RaftTypes], [RaftLog] (log.cc), [PeerId],
      [Membership] (membership.cc) and [Raft] (raft.cc) are the code, one
      definition per method; [RaftInv] to [RaftPublic] prove the invariant of a
      replica; [RaftProps], [RaftChain] and [RaftCluster] state its properties,
      the last one (elections, promises, monotone indices, no aborts) for a
      cluster of replicas that run this code and a network that loses, repeats
      and reorders messages; [RaftControl] and [RaftExamples] serve them.
    - Merkle tree (enclave/merkle): [Merkle] is the code, on a store of nodes
      with addresses; [MerkleProofs] and [MerkleProps] prove that it
      implements the class [MerkleSpec], and what follows.
    - Databases (enclave/db): [Db2] (db2.cc) and [Db3] (db3.cc) with what they
      share in [Db] and [ClientTypes]; [Db2Spec] and [Db3Spec] relate them to
      finite maps and are about replication;
      [Database] is the interface the core uses, with [Db2Database] and
      [Db3Database] as instances; [Db2Props], [Db3Props].
    - Group state: [Minimums], [GroupClock], [Timeout].
    - Sessions: [Noise] (noise.cc), [Msgs] (messages), [Client] (client.cc),
      [Peers] (peers.cc) with its invariant in [PeersInv] and [PeersProps].
    - Core (enclave/core): [CoreState] is the state and a monad of state,
      effects and aborts; [Core], [CoreReplicate], [CoreHandlers] and
      [CoreHost] are the handlers of core.cc; [CoreHoare] to
      [CoreMembers] are proofs about them; [CoreExamples], [CoreProps].
    - Host to host (host/peer): [HostWire] (serialize.go, sequence_number.go),
      [Transport] (client.go, server.go: a sender, a receiver and the
      connections between them), [TransportInv], [TransportProps],
      [PeerClient] (client.go: routing, abandoned peers) and [PeerServer]
      (server.go: connections, receivers and their handlers).
    - Host and enclave: [Dispatch] (dispatcher.go); [SocketWrap]
      (enclave/socketwrap, enclave/queue: framing and the double buffer);
      [EnclaveCalls] (enclave/socketmain, enclave/ecalls, host/enclave: both
      ends of the calls into an enclave, with their properties).
    - Attestation (enclave/attestation): [Attest] (parameters), [Sev],
      [Tpm2], [Tpm2Snp], [Nitro]; [AttestProps].
    - Environments (enclave/env): [Environments] (nsm, azuresnp, gcpsnp, sgx,
      socket, the attestation of Open Enclave, host/cmd/svr3gcp);
      [EnvProps], which composes them with the peer manager.
    - Host service: [HostProg] (programs of commands to Redis, the clock and
      the enclave, and nodes that interleave them), [PeerDb] (peerdb.go,
      raftmanager.go, host/util), [HostAuth] (auth.go), [Web] (host/web,
      host/rate, host/health) with [WebProps], [Metrics] (enclave/metrics,
      dispatch/metrics.go), [HostLoops] (host/config, loops of service.go and
      dispatcher.go, user agents).

    ** How code is modelled

    Integers are [Z] with the wrap-around written out; bytes are lists of [Z].
    A failed CHECK, a read out of range, a null dereference and a Go panic are
    [None]; error codes are values.  Locks are left out: a handler is one step.
    Where concurrency matters (the dispatcher, the transport, the server of
    connections, the socket and the calls over it, nodes that share Redis, the
    cluster) the steps interleave in any order.  Host code that waits for
    answers is a tree of commands, run against any answers.  Third-party code is a parameter, a class
    with laws that state documented behaviour: noise-c, BoringSSL, protobuf,
    SipHash, Ristretto255, TinyCBOR, RapidJSON, AMD's report layout, the Open
    Enclave SDK, devices, Redis and JSON.
    Witnesses instantiate the parameters with concrete functions.

    ** What is shown

    - Raft: one leader per term in every reachable cluster; promised entries
      survive; indices advance by quorums; no message of another replica makes
      a replica abort (one that no replica sends can: [forged_promise_aborts]);
      a replica whose Merkle leaves fail moves no index and acknowledges no
      advance.
    - Databases: they refine maps of secrets and of OPRF keys; the guesses at a
      PIN are bounded; a secret needs its PIN; rows are well typed whatever
      other replicas push.
    - Merkle tree: it refines a map from leaves to hashes, and its root binds
      them, up to collisions among the nodes on the path of a leaf.
    - Core: committed entries are applied once and in order; a joining enclave
      ends with the group's log and database; replication ends; a request to
      create a group destroys the group that is there.
    - Sessions: connected peers are attested, and receive in order; on every
      platform but Google Cloud's, genuine hardware vouches for them.  On the
      platforms other than Nitro the check of evidence may end the process,
      and the theorem says on which evidence.
    - Attestation: what the evidence of an accepted peer proves, for SEV-SNP,
      for SEV-SNP with a TPM and for Nitro; parsing ends and stays in range.
    - Host: messages are forwarded in order and at most once; when nothing is
      lost, and the case in which messages are; replies reach their callers,
      and with a worker nobody waits forever; an abandoned peer begins a new
      session; a peer has one handler, and the server panics only on data
      without a message;
      credentials bind their user, and requests reach the enclave only with
      one; a websocket's client is closed once; at most one enclave of a
      deployment creates a group; the member to join is the best one.
    - Socket: the stream is cut into the messages that were written, and every
      call gets the status of its own message.

    ** Fuel

    Loops that are not structural take fuel.  It is the length of the list,
    log or input that every turn shortens (Base64, logs, set differences, the
    group clock, packets, certificate tables, CBOR), the number of nodes for
    walks up the Merkle tree, or 20 for the digits of an [int64].  Loops
    that end only when the outside does (the messages of a websocket, retries,
    the shutdown loop, random devices) take the number of turns; theorems hold
    for every number.  Running out
    is [None], and theorems state that a result is returned.

    ** Not modelled

    Start-up and flags (main of both processes, initmain), files (fs), signal
    handlers and the memory statistics of env/; the environment of tests;
    logging, contexts and locks, which do not influence results; listening,
    dialling and looking up addresses; the texts of HTTP responses and the
    labels of the host's counters; command-line tools and the clients they
    use; test harnesses; embedded root certificates, which are parameters.
    There is no theorem on timing, on the secrecy of what is encrypted, or on
    side channels. *)
From stdpp Require Import prelude gmap sorting.
#[global] Open Scope Z_scope.

(** ** Machine integers

    An unsigned [w]-bit integer of the code is a [Z] between [0] and
    [2^w - 1]; the wrap-around of the C++ arithmetic is written out with the
    functions below wherever the source computes on a value it does not
    control. *)
Definition u8 (z : Z) : Z := z mod 2 ^ 8.
Definition u32 (z : Z) : Z := z mod 2 ^ 32.
Definition u64 (z : Z) : Z := z mod 2 ^ 64.
Definition MAX64 : Z := 2 ^ 64 - 1.

Declare Scope svr_scope.
Delimit Scope svr_scope with svr.
Notation "a ⊕ b" := (u64 (a + b)) (at level 50, left associativity) : svr_scope.
Notation "a ⊖ b" := (u64 (a - b)) (at level 50, left associativity) : svr_scope.
#[global] Open Scope svr_scope.

Definition is_u8 (z : Z) : Prop := 0 <= z < 2 ^ 8.
Definition is_u32 (z : Z) : Prop := 0 <= z < 2 ^ 32.
Definition is_u64 (z : Z) : Prop := 0 <= z < 2 ^ 64.

Lemma u8_small z : is_u8 z -> u8 z = z.
Proof. apply Z.mod_small. Qed.
Lemma u32_small z : is_u32 z -> u32 z = z.
Proof. apply Z.mod_small. Qed.
Lemma u64_small z : is_u64 z -> u64 z = z.
Proof. apply Z.mod_small. Qed.
Lemma u8_range z : is_u8 (u8 z).
Proof. by apply Z.mod_pos_bound. Qed.
Lemma u32_range z : is_u32 (u32 z).
Proof. by apply Z.mod_pos_bound. Qed.
Lemma u64_range z : is_u64 (u64 z).
Proof. by apply Z.mod_pos_bound. Qed.

(** ** Bytes

    [std::string], [bytes] fields of messages and [std::array<uint8_t, N>]
    are lists of byte values. *)
Notation bytes := (list Z).
Definition bytes_ok (b : bytes) : Prop := Forall is_u8 b.
#[global] Instance bytes_ok_dec b : Decision (bytes_ok b).
Proof. apply Forall_dec. intros z. unfold is_u8. apply _. Defined.

(** [size()] of a container. *)
Definition Zlen {A} (l : list A) : Z := Z.of_nat (length l).

(** ** Aborting code

    [CHECK(cond)] of util/log.h aborts the process when [cond] is false.
    Code that contains one returns [option]: [None] is the abort. *)
Definition CHECK {A} (b : bool) (k : option A) : option A := if b then k else None.

Lemma CHECK_Some {A} b (k : option A) x : CHECK b k = Some x <-> b = true /\ k = Some x.
Proof. destruct b; simpl; naive_solver. Qed.
Lemma CHECK_true {A} b (k : option A) : b = true -> CHECK b k = k.
Proof. by intros ->. Qed.

(** ** Tactics and hints *)
Create HintDb svr.
#[export] Hint Resolve u8_range u32_range u64_range : svr.
#[export] Hint Unfold is_u8 is_u32 is_u64 : svr.

(** Arithmetic on machine integers: unfolds the range predicates, and
    replaces [u64 e] by [e] where [lia] shows that [e] does not wrap. *)
Ltac nowrap :=
  repeat match goal with
  | |- context [u64 ?e] => rewrite (u64_small e) by (unfold is_u64 in *; lia)
  | H : context [u64 ?e] |- _ =>
      rewrite (u64_small e) in H by (unfold is_u64 in *; lia)
  end.
Ltac ulia := unfold is_u8, is_u32, is_u64, MAX64 in *; nowrap; lia.

(** Turns the boolean tests in the context into propositions. *)
Ltac btrue :=
  repeat match goal with
  | H : _ && _ = true |- _ => apply andb_true_iff in H as [? ?]
  | H : _ || _ = false |- _ => apply orb_false_iff in H as [? ?]
  | H : negb _ = true |- _ => apply negb_true_iff in H
  | H : negb _ = false |- _ => apply negb_false_iff in H
  | H : bool_decide _ = true |- _ => apply bool_decide_eq_true in H
  | H : bool_decide _ = false |- _ => apply bool_decide_eq_false in H
  end.

(** The same, with the comparisons of integers. *)
Ltac zbool :=
  btrue;
  repeat match goal with
  | H : (_ =? _) = true |- _ => apply Z.eqb_eq in H
  | H : (_ =? _) = false |- _ => apply Z.eqb_neq in H
  | H : (_ <? _) = true |- _ => apply Z.ltb_lt in H
  | H : (_ <? _) = false |- _ => apply Z.ltb_ge in H
  | H : (_ <=? _) = true |- _ => apply Z.leb_le in H
  | H : (_ <=? _) = false |- _ => apply Z.leb_gt in H
  end.

(** Passes the guards of a function that returned no error. *)
Ltac guards H :=
  repeat (match type of H with (if ?b then _ else _) = _ => destruct b eqn:? end; [done|]).

(** Opens every [match]/[if] scrutinee met in the hypothesis [H]. *)
Ltac split_in H :=
  repeat (match type of H with
          | context [match ?x with _ => _ end] => destruct x eqn:?
          end; simplify_eq/=).

(** ** Bit fields *)
Lemma lor_shiftl_low (x b k : Z) :
  0 <= k -> 0 <= b < 2 ^ k -> Z.lor (Z.shiftl x k) b = x * 2 ^ k + b.
Proof.
  intros Hk Hb. rewrite <- Z.shiftl_mul_pow2 by done.
  assert (Hl : Z.land (Z.shiftl x k) b = 0).
  { apply Z.bits_inj'. intros n Hn. rewrite Z.land_spec, Z.bits_0.
    destruct (decide (n < k)); [by rewrite Z.shiftl_spec_low|].
    rewrite <- (Z.mod_small b (2 ^ k)), Z.mod_pow2_bits_high, andb_false_r by lia. done. }
  by rewrite Z.add_nocarry_lxor, Z.lxor_lor.
Qed.

(** ** Lists *)
Lemma Zlen_nil {A} : Zlen (@nil A) = 0.
Proof. done. Qed.
Lemma Zlen_cons {A} (x : A) l : Zlen (x :: l) = Zlen l + 1.
Proof. unfold Zlen. simpl. lia. Qed.
Lemma Zlen_app {A} (l k : list A) : Zlen (l ++ k) = Zlen l + Zlen k.
Proof. unfold Zlen. rewrite length_app. lia. Qed.
Lemma Zlen_nonneg {A} (l : list A) : 0 <= Zlen l.
Proof. unfold Zlen. lia. Qed.
Lemma Zlen_zero {A} (l : list A) : Zlen l = 0 <-> l = [].
Proof. destruct l; rewrite ?Zlen_cons; split; try done. pose proof (Zlen_nonneg l). lia. Qed.
Lemma Zlen_pos {A} (l : list A) : l <> [] -> 1 <= Zlen l.
Proof. intros. pose proof (Zlen_nonneg l). rewrite <- Zlen_zero in *. lia. Qed.
#[export] Hint Resolve Zlen_nonneg : svr.

Section lists.
Context {A : Type}.
Implicit Types l k : list A.

Lemma NoDup_subset_length l k : NoDup l -> l ⊆ k -> (length l <= length k)%nat.
Proof. intros Hl Hs. apply submseteq_length, NoDup_submseteq; auto. Qed.

(** Inclusion-exclusion for duplicate-free sublists of [k]. *)
Lemma NoDup_inter_length `{EqDecision A} l1 l2 k :
  NoDup l1 -> NoDup l2 -> NoDup k -> l1 ⊆ k -> l2 ⊆ k ->
  (length l1 + length l2 <= length k + length (filter (.∈ l2) l1))%nat.
Proof.
  intros H1 H2 Hk S1 S2.
  assert (Hsplit : length l1 = (length (filter (.∈ l2) l1) + length (filter (.∉ l2) l1))%nat).
  { clear H1 S1. induction l1 as [|x l1 IH]; [done|].
    rewrite !filter_cons. destruct (decide (x ∈ l2)), (decide (x ∉ l2)); simpl;
      solve [lia | tauto]. }
  assert (length (filter (.∉ l2) l1 ++ l2) <= length k)%nat; last first.
  { rewrite length_app in H. lia. }
  apply NoDup_subset_length.
  - apply NoDup_app. split; [by apply NoDup_filter|]. split; [|done].
    intros x Hx. by apply list_elem_of_filter in Hx as [? _].
  - intros x [Hx|Hx]%elem_of_app; [|auto]. apply list_elem_of_filter in Hx as [_ ?]. auto.
Qed.

Lemma lookup_take_lt l n i : (i < n)%nat -> take n l !! i = l !! i.
Proof. intros. by apply lookup_take_lt. Qed.

Lemma last_lookup_length l x : last l = Some x -> l !! (length l - 1)%nat = Some x.
Proof. rewrite last_lookup. by rewrite <- Nat.sub_1_r. Qed.
End lists.
