(* ===== verification/Errors.v ===== *)
(** * Error codes

    The [Error] enumeration of shared/proto/error.proto, with its wire codes.
    The [_NS] values only name ranges and are never returned. *)
From stdpp Require Import prelude.
From S2P Require Import Prelude.

Inductive Error :=
  | OK | General_NS | General_Unimplemented | Core_NS | Core_ConfigProtobufParse | Core_ReInit
  | Core_SendSerialize | Core_ReceiveProtobufParse | Core_NoInit | Core_ClientNotFound
  | Core_InitClientDHState | Core_SerializeClientLog | Core_RaftState
  | Core_E2EResponseWithoutCallback | Core_ReceivedEmptyReplicaGroup
  | Core_VotingRequestedForNonMember | Core_VotingRequestedForVotingMember
  | Core_LeaderUnknown | Core_E2ETransactionTimeout | Core_NotEnoughVotingReplicas
  | Core_HostToEnclaveTransactionID | Core_JoinRaftWriteNotCommitted
  | Core_LogTransactionCancelled | Core_RemovedFromRaft
  | Core_TransactionPostconditionsInvalid | Core_InvalidLogLevel
  | Core_RefreshClientAttestationWithoutRaftConfig | Core_BackupIDSecretMismatch
  | Core_ClientSetBackupID | Core_DuplicateMembershipPeer | Core_LeaderRemovingSelf
  | Core_RemoveNonexistentMember | Core_ReplicatedLogSerialization
  | Core_ReplicationOutOfOrder | Core_LogNotFoundAtCommitIndex | Core_DBRRMissing
  | Core_DeserializeHostDatabaseRequest | Core_InvalidLogTransactionHashChain
  | Core_IncorrectE2EResponseType | Core_GroupConfigMismath
  | Core_RaftGroupConfigMinReplicasGreaterThanMaxReplicas
  | Core_RaftGroupConfigMinReplicasTooSmall | Core_DBVersionInvalid
  | Core_RaftGroupConfigAttestationTimeoutTooSmall | Core_SerializeRaftWrite
  | Core_DeserializeRaftWrite | Core_E2ETransactionReset | Env_NS | Env_SerializeCustomClaims
  | Env_GetEvidence | Env_SendMessage | Env_RandomBytes | Env_AttestationFailure | Env_Zero
  | Env_WrongMRENCLAVE | Env_CustomClaimsMissing | Env_CustomClaimsDeserialize
  | Env_AttestationPubkeyMissing | Env_AttestationPubkeyInvalidSize | Env_MissingMRENCLAVE
  | Env_SerializeConfigForEvidence | Env_MallinfoFailure | Env_SerializeMinimumsForEvidence
  | Env_ParseEvidence | Env_ParseEndorsements | Peers_NS | Peers_SendBeforeConnect
  | Peers_RecvBeforeConnect | Peers_NewKey | Peers_NewKeyGenerate | Peers_NewKeyPublic
  | Peers_SendConnect | Peers_ReInit | Peers_NoInit | Peers_HandshakeState | Peers_CopyDHState
  | Peers_SetRemotePublicKey | Peers_HandshakeStart | Peers_ConnectWriteHandshake
  | Peers_ConnectSerializeHandshake | Peers_AcceptParseHandshake | Peers_AcceptReadHandshake
  | Peers_AcceptWriteHandshake | Peers_AcceptSerializeHandshake | Peers_AcceptIDMismatch
  | Peers_AcceptSplit | Peers_InvalidID | Peers_DataNotConnected | Peers_FinishParseHandshake
  | Peers_FinishReadHandshake | Peers_FinishSplit | Peers_Encrypt | Peers_Decrypt
  | Peers_EncryptSerialize | Peers_DecryptParse | Peers_FinishIDMismatch
  | Peers_SynAckNotConnecting | Peers_InvalidMsg | Peers_ResetMissingPeer
  | Peers_AttestationKeyChanged | Raft_NS | Raft_LogOutOfSpace | Raft_LogEntryTooLarge
  | Raft_AllEntriesBeforeLastAppliedTruncated | Raft_AppendEntryNotLeader
  | Raft_CancelingBeforeFirst | Raft_AppendWithoutTerm | Raft_MembershipAlreadyChanging
  | Raft_NoHashChainInAppend | Raft_FollowerNotFound | Raft_SetNextOnNonemptyLog
  | Raft_MsgNotPeer | Raft_MsgWrongGroup | Raft_MsgInvalidType | Raft_MsgHashMismatch
  | Raft_MsgTruncated | Raft_MsgInFuture | Raft_MsgTermPromised | Raft_MsgAppendEntryIndex
  | Raft_MsgLogIndexOrdering | DB2_NS | DB2_ClientRequestCase | DB2_ClientPinSize
  | DB2_ClientTriesTooHigh | DB2_ClientTriesZero | DB2_ClientDataSize | DB2_ClientBackupIDSize
  | DB2_ReplicationInvalidRow | DB2_ReplicationOutOfOrder | DB2_BackupIDSize
  | DB2_LoadedRowsAlreadyInDB | DB2_InvalidRequestType | DB2_ClientTokenSize | Client_NS
  | Client_HandshakeState | Client_CopyDHState | Client_HandshakeStart
  | Client_ExtractPublicKey | Client_DecryptState | Client_EncryptState
  | Client_FinishReadHandshake | Client_FinishWriteHandshake | Client_FinishSplit
  | Client_DecryptParse | Client_EncryptSerialize | Client_TransactionCancelled
  | Client_TransactionInvalid | Client_AlreadyClosed | Config_NS | Config_ElectionTicks
  | Config_HeartbeatVsElectionTicks | Config_ReplicationChunk | Config_ReplicaTimeout
  | Config_E2ETransactionTimeout | Config_ChangeSimulate | Config_BackupIDInvalid
  | Config_LogMaxBytes | Config_ReplicationPipeline | Membership_NS
  | Membership_TooManyMembershipChanges | Membership_NoMembershipChanges
  | Membership_LeaderRemovedFromVoting | Membership_LeaderRemovedFromAll
  | Membership_VotingNotSubset | Membership_EmptySet
  | Membership_DuplicateReplicaInReplicaGroup | Membership_SuperMajorityLost | Replicate_NS
  | Replicate_RaftState | Replicate_GroupMismatch | Replicate_LogIndexMismatch
  | Replicate_MissingCommittedMembership | Replicate_ReplicationID
  | Replicate_ReplicationSequence | Util_NS | Util_ArrayCopyTooBig | Util_HexCharInvalid
  | Util_HexBytesSize | Util_Base64InvalidChar | Util_Base64InvalidPadding | DB3_NS
  | DB3_ScalarMultFailure | DB3_BackupIDSize | DB3_MaxTriesOutOfRange | DB3_BlindedElementSize
  | DB3_ToplevelRequestType | DB3_RequestInvalid | DB3_LogPrivateKeyInvalid
  | DB3_ReplicationInvalidRow | DB3_LoadedRowsAlreadyInDB | DB3_ReplicationOutOfOrder
  | Socket_NS | Socket_ReadEOF | Socket_Read | Socket_Write | Socket_ParseIncoming
  | Socket_WriteTooBig | Socket_ReadTooBig | Socket_WriteNotInitialized | SocketMain_NS
  | SocketMain_SocketCreation | SocketMain_SocketBind | SocketMain_SocketAccept
  | SocketMain_SocketListen | SocketMain_InboundNotInit | SocketMain_InboundMessageParse
  | SocketMain_InboundNotMessage | SocketMain_UnsupportedSockType | SocketMain_SocketSetOpt
  | AttestationNitro_NS | AttestationNitro_CborError | AttestationNitro_CoseFormat
  | AttestationNitro_CoseSignatureEncode | AttestationNitro_AttestationParse
  | AttestationNitro_CertificateDecode | AttestationNitro_CryptoAllocate
  | AttestationNitro_CryptoStoreInit | AttestationNitro_CertificateChainVerify
  | AttestationNitro_CryptoMessageDigest | AttestationNitro_CoseSignatureVerify
  | AttestationNitro_CertificateNotEC | Sev_NS | Sev_ReportIOCTLFailure | Sev_FirmwareError
  | Sev_ReportSizeMismatch | AttestationSEV_NS | AttestationSEV_CertsTableEntryTooLarge
  | AttestationSEV_CertsTableCertTooLarge | AttestationSEV_EvidenceTooSmallForReport
  | AttestationSEV_ParseEndorsements | AttestationSEV_EndorsementBadCert
  | AttestationSEV_UnsupportedReport | AttestationSEV_CryptoAllocate
  | AttestationSEV_SignatureVerify | AttestationSEV_CryptoMessageDigest
  | AttestationSEV_CryptoStoreInit | AttestationSEV_CertificateChainVerify
  | AttestationSEV_HostDataMismatch | AttestationSEV_MeasurementMismatch
  | AttestationSEV_DebugEnabled | AttestationSEV_MigrationAllowed | AttestationSEV_TCBMinimums
  | Merkle_NS | Merkle_VerifyLeaf | Merkle_VerifyNode | Minimums_NS | Minimums_KeyMissing
  | Minimums_LimitDecreased | Minimums_SizeMismatch | Minimums_EntryEmpty | Minimums_KeyEmpty
  | Minimums_ValueTooLow | Minimums_ValueSize | Minimums_ValueEmpty | AttestationTPM2_NS
  | AttestationTPM2_ParseReport | AttestationTPM2_ParsePCRs | AttestationTPM2_ParseSignature
  | AttestationTPM2_CryptoAllocate | AttestationTPM2_CertificateNotRSA
  | AttestationTPM2_SignatureVerify | AttestationTPM2_SignatureDigest
  | AttestationTPM2_PCRDigest | AttestationTPM2_PCRVerify | AzureSNP_NS | AzureSNP_OpenFile
  | AzureSNP_Mkdir | AzureSNP_InvalidAKCert | AzureSNP_InvalidAKCertIntermediate
  | AzureSNP_CryptoAllocate | AzureSNP_AKCertificateChainVerify | AzureSNP_CryptoStoreInit
  | AzureSNP_AzureBufferTooSmall | AzureSNP_ReportDataMismatch | AzureSNP_RuntimeDataJSON
  | AzureSNP_AKCertPubKey | AzureSNP_AKCertMismatch | AzureSNP_PCRMismatch
  | AzureSNP_AttestationDataHashMismatch.

(** The number the enumeration gives each constant. *)
Definition error_code (e : Error) : Z :=
  match e with
  | OK => 0
  | General_NS => 100
  | General_Unimplemented => 101
  | Core_NS => 200
  | Core_ConfigProtobufParse => 201
  | Core_ReInit => 202
  | Core_SendSerialize => 203
  | Core_ReceiveProtobufParse => 204
  | Core_NoInit => 205
  | Core_ClientNotFound => 206
  | Core_InitClientDHState => 207
  | Core_SerializeClientLog => 208
  | Core_RaftState => 209
  | Core_E2EResponseWithoutCallback => 210
  | Core_ReceivedEmptyReplicaGroup => 211
  | Core_VotingRequestedForNonMember => 212
  | Core_VotingRequestedForVotingMember => 213
  | Core_LeaderUnknown => 214
  | Core_E2ETransactionTimeout => 215
  | Core_NotEnoughVotingReplicas => 216
  | Core_HostToEnclaveTransactionID => 217
  | Core_JoinRaftWriteNotCommitted => 218
  | Core_LogTransactionCancelled => 219
  | Core_RemovedFromRaft => 220
  | Core_TransactionPostconditionsInvalid => 221
  | Core_InvalidLogLevel => 222
  | Core_RefreshClientAttestationWithoutRaftConfig => 223
  | Core_BackupIDSecretMismatch => 224
  | Core_ClientSetBackupID => 225
  | Core_DuplicateMembershipPeer => 226
  | Core_LeaderRemovingSelf => 227
  | Core_RemoveNonexistentMember => 228
  | Core_ReplicatedLogSerialization => 229
  | Core_ReplicationOutOfOrder => 230
  | Core_LogNotFoundAtCommitIndex => 231
  | Core_DBRRMissing => 232
  | Core_DeserializeHostDatabaseRequest => 233
  | Core_InvalidLogTransactionHashChain => 234
  | Core_IncorrectE2EResponseType => 235
  | Core_GroupConfigMismath => 236
  | Core_RaftGroupConfigMinReplicasGreaterThanMaxReplicas => 237
  | Core_RaftGroupConfigMinReplicasTooSmall => 238
  | Core_DBVersionInvalid => 239
  | Core_RaftGroupConfigAttestationTimeoutTooSmall => 240
  | Core_SerializeRaftWrite => 241
  | Core_DeserializeRaftWrite => 242
  | Core_E2ETransactionReset => 243
  | Env_NS => 300
  | Env_SerializeCustomClaims => 301
  | Env_GetEvidence => 302
  | Env_SendMessage => 303
  | Env_RandomBytes => 304
  | Env_AttestationFailure => 305
  | Env_Zero => 306
  | Env_WrongMRENCLAVE => 307
  | Env_CustomClaimsMissing => 308
  | Env_CustomClaimsDeserialize => 309
  | Env_AttestationPubkeyMissing => 310
  | Env_AttestationPubkeyInvalidSize => 311
  | Env_MissingMRENCLAVE => 312
  | Env_SerializeConfigForEvidence => 313
  | Env_MallinfoFailure => 314
  | Env_SerializeMinimumsForEvidence => 315
  | Env_ParseEvidence => 316
  | Env_ParseEndorsements => 317
  | Peers_NS => 400
  | Peers_SendBeforeConnect => 401
  | Peers_RecvBeforeConnect => 402
  | Peers_NewKey => 403
  | Peers_NewKeyGenerate => 404
  | Peers_NewKeyPublic => 405
  | Peers_SendConnect => 406
  | Peers_ReInit => 407
  | Peers_NoInit => 408
  | Peers_HandshakeState => 409
  | Peers_CopyDHState => 410
  | Peers_SetRemotePublicKey => 411
  | Peers_HandshakeStart => 412
  | Peers_ConnectWriteHandshake => 413
  | Peers_ConnectSerializeHandshake => 414
  | Peers_AcceptParseHandshake => 415
  | Peers_AcceptReadHandshake => 416
  | Peers_AcceptWriteHandshake => 417
  | Peers_AcceptSerializeHandshake => 418
  | Peers_AcceptIDMismatch => 419
  | Peers_AcceptSplit => 420
  | Peers_InvalidID => 421
  | Peers_DataNotConnected => 422
  | Peers_FinishParseHandshake => 423
  | Peers_FinishReadHandshake => 424
  | Peers_FinishSplit => 425
  | Peers_Encrypt => 426
  | Peers_Decrypt => 427
  | Peers_EncryptSerialize => 428
  | Peers_DecryptParse => 429
  | Peers_FinishIDMismatch => 430
  | Peers_SynAckNotConnecting => 431
  | Peers_InvalidMsg => 432
  | Peers_ResetMissingPeer => 433
  | Peers_AttestationKeyChanged => 434
  | Raft_NS => 500
  | Raft_LogOutOfSpace => 501
  | Raft_LogEntryTooLarge => 502
  | Raft_AllEntriesBeforeLastAppliedTruncated => 503
  | Raft_AppendEntryNotLeader => 504
  | Raft_CancelingBeforeFirst => 505
  | Raft_AppendWithoutTerm => 506
  | Raft_MembershipAlreadyChanging => 507
  | Raft_NoHashChainInAppend => 508
  | Raft_FollowerNotFound => 509
  | Raft_SetNextOnNonemptyLog => 510
  | Raft_MsgNotPeer => 511
  | Raft_MsgWrongGroup => 512
  | Raft_MsgInvalidType => 513
  | Raft_MsgHashMismatch => 514
  | Raft_MsgTruncated => 515
  | Raft_MsgInFuture => 516
  | Raft_MsgTermPromised => 517
  | Raft_MsgAppendEntryIndex => 518
  | Raft_MsgLogIndexOrdering => 519
  | DB2_NS => 600
  | DB2_ClientRequestCase => 601
  | DB2_ClientPinSize => 602
  | DB2_ClientTriesTooHigh => 603
  | DB2_ClientTriesZero => 604
  | DB2_ClientDataSize => 605
  | DB2_ClientBackupIDSize => 606
  | DB2_ReplicationInvalidRow => 607
  | DB2_ReplicationOutOfOrder => 608
  | DB2_BackupIDSize => 609
  | DB2_LoadedRowsAlreadyInDB => 610
  | DB2_InvalidRequestType => 611
  | DB2_ClientTokenSize => 612
  | Client_NS => 700
  | Client_HandshakeState => 701
  | Client_CopyDHState => 702
  | Client_HandshakeStart => 703
  | Client_ExtractPublicKey => 704
  | Client_DecryptState => 705
  | Client_EncryptState => 706
  | Client_FinishReadHandshake => 707
  | Client_FinishWriteHandshake => 708
  | Client_FinishSplit => 709
  | Client_DecryptParse => 710
  | Client_EncryptSerialize => 711
  | Client_TransactionCancelled => 712
  | Client_TransactionInvalid => 713
  | Client_AlreadyClosed => 714
  | Config_NS => 800
  | Config_ElectionTicks => 801
  | Config_HeartbeatVsElectionTicks => 802
  | Config_ReplicationChunk => 803
  | Config_ReplicaTimeout => 804
  | Config_E2ETransactionTimeout => 805
  | Config_ChangeSimulate => 806
  | Config_BackupIDInvalid => 807
  | Config_LogMaxBytes => 808
  | Config_ReplicationPipeline => 809
  | Membership_NS => 900
  | Membership_TooManyMembershipChanges => 901
  | Membership_NoMembershipChanges => 902
  | Membership_LeaderRemovedFromVoting => 903
  | Membership_LeaderRemovedFromAll => 904
  | Membership_VotingNotSubset => 905
  | Membership_EmptySet => 906
  | Membership_DuplicateReplicaInReplicaGroup => 907
  | Membership_SuperMajorityLost => 908
  | Replicate_NS => 1000
  | Replicate_RaftState => 1001
  | Replicate_GroupMismatch => 1002
  | Replicate_LogIndexMismatch => 1003
  | Replicate_MissingCommittedMembership => 1004
  | Replicate_ReplicationID => 1005
  | Replicate_ReplicationSequence => 1006
  | Util_NS => 1100
  | Util_ArrayCopyTooBig => 1101
  | Util_HexCharInvalid => 1102
  | Util_HexBytesSize => 1103
  | Util_Base64InvalidChar => 1104
  | Util_Base64InvalidPadding => 1105
  | DB3_NS => 1200
  | DB3_ScalarMultFailure => 1201
  | DB3_BackupIDSize => 1202
  | DB3_MaxTriesOutOfRange => 1203
  | DB3_BlindedElementSize => 1204
  | DB3_ToplevelRequestType => 1205
  | DB3_RequestInvalid => 1206
  | DB3_LogPrivateKeyInvalid => 1207
  | DB3_ReplicationInvalidRow => 1208
  | DB3_LoadedRowsAlreadyInDB => 1209
  | DB3_ReplicationOutOfOrder => 1210
  | Socket_NS => 1300
  | Socket_ReadEOF => 1301
  | Socket_Read => 1302
  | Socket_Write => 1303
  | Socket_ParseIncoming => 1304
  | Socket_WriteTooBig => 1305
  | Socket_ReadTooBig => 1306
  | Socket_WriteNotInitialized => 1307
  | SocketMain_NS => 1400
  | SocketMain_SocketCreation => 1401
  | SocketMain_SocketBind => 1402
  | SocketMain_SocketAccept => 1403
  | SocketMain_SocketListen => 1404
  | SocketMain_InboundNotInit => 1405
  | SocketMain_InboundMessageParse => 1406
  | SocketMain_InboundNotMessage => 1407
  | SocketMain_UnsupportedSockType => 1408
  | SocketMain_SocketSetOpt => 1409
  | AttestationNitro_NS => 1500
  | AttestationNitro_CborError => 1501
  | AttestationNitro_CoseFormat => 1502
  | AttestationNitro_CoseSignatureEncode => 1503
  | AttestationNitro_AttestationParse => 1504
  | AttestationNitro_CertificateDecode => 1505
  | AttestationNitro_CryptoAllocate => 1506
  | AttestationNitro_CryptoStoreInit => 1507
  | AttestationNitro_CertificateChainVerify => 1508
  | AttestationNitro_CryptoMessageDigest => 1509
  | AttestationNitro_CoseSignatureVerify => 1510
  | AttestationNitro_CertificateNotEC => 1511
  | Sev_NS => 1600
  | Sev_ReportIOCTLFailure => 1601
  | Sev_FirmwareError => 1602
  | Sev_ReportSizeMismatch => 1603
  | AttestationSEV_NS => 1700
  | AttestationSEV_CertsTableEntryTooLarge => 1701
  | AttestationSEV_CertsTableCertTooLarge => 1702
  | AttestationSEV_EvidenceTooSmallForReport => 1703
  | AttestationSEV_ParseEndorsements => 1704
  | AttestationSEV_EndorsementBadCert => 1705
  | AttestationSEV_UnsupportedReport => 1706
  | AttestationSEV_CryptoAllocate => 1707
  | AttestationSEV_SignatureVerify => 1708
  | AttestationSEV_CryptoMessageDigest => 1709
  | AttestationSEV_CryptoStoreInit => 1710
  | AttestationSEV_CertificateChainVerify => 1711
  | AttestationSEV_HostDataMismatch => 1712
  | AttestationSEV_MeasurementMismatch => 1713
  | AttestationSEV_DebugEnabled => 1714
  | AttestationSEV_MigrationAllowed => 1715
  | AttestationSEV_TCBMinimums => 1716
  | Merkle_NS => 1800
  | Merkle_VerifyLeaf => 1801
  | Merkle_VerifyNode => 1802
  | Minimums_NS => 1900
  | Minimums_KeyMissing => 1901
  | Minimums_LimitDecreased => 1902
  | Minimums_SizeMismatch => 1903
  | Minimums_EntryEmpty => 1904
  | Minimums_KeyEmpty => 1905
  | Minimums_ValueTooLow => 1906
  | Minimums_ValueSize => 1907
  | Minimums_ValueEmpty => 1908
  | AttestationTPM2_NS => 2000
  | AttestationTPM2_ParseReport => 2001
  | AttestationTPM2_ParsePCRs => 2002
  | AttestationTPM2_ParseSignature => 2003
  | AttestationTPM2_CryptoAllocate => 2004
  | AttestationTPM2_CertificateNotRSA => 2005
  | AttestationTPM2_SignatureVerify => 2006
  | AttestationTPM2_SignatureDigest => 2007
  | AttestationTPM2_PCRDigest => 2008
  | AttestationTPM2_PCRVerify => 2009
  | AzureSNP_NS => 2100
  | AzureSNP_OpenFile => 2101
  | AzureSNP_Mkdir => 2102
  | AzureSNP_InvalidAKCert => 2103
  | AzureSNP_InvalidAKCertIntermediate => 2104
  | AzureSNP_CryptoAllocate => 2105
  | AzureSNP_AKCertificateChainVerify => 2106
  | AzureSNP_CryptoStoreInit => 2107
  | AzureSNP_AzureBufferTooSmall => 2108
  | AzureSNP_ReportDataMismatch => 2109
  | AzureSNP_RuntimeDataJSON => 2110
  | AzureSNP_AKCertPubKey => 2111
  | AzureSNP_AKCertMismatch => 2112
  | AzureSNP_PCRMismatch => 2113
  | AzureSNP_AttestationDataHashMismatch => 2114
  end.

Definition error_of_code (z : Z) : option Error :=
  match z with
  | 0 => Some OK
  | 100 => Some General_NS
  | 101 => Some General_Unimplemented
  | 200 => Some Core_NS
  | 201 => Some Core_ConfigProtobufParse
  | 202 => Some Core_ReInit
  | 203 => Some Core_SendSerialize
  | 204 => Some Core_ReceiveProtobufParse
  | 205 => Some Core_NoInit
  | 206 => Some Core_ClientNotFound
  | 207 => Some Core_InitClientDHState
  | 208 => Some Core_SerializeClientLog
  | 209 => Some Core_RaftState
  | 210 => Some Core_E2EResponseWithoutCallback
  | 211 => Some Core_ReceivedEmptyReplicaGroup
  | 212 => Some Core_VotingRequestedForNonMember
  | 213 => Some Core_VotingRequestedForVotingMember
  | 214 => Some Core_LeaderUnknown
  | 215 => Some Core_E2ETransactionTimeout
  | 216 => Some Core_NotEnoughVotingReplicas
  | 217 => Some Core_HostToEnclaveTransactionID
  | 218 => Some Core_JoinRaftWriteNotCommitted
  | 219 => Some Core_LogTransactionCancelled
  | 220 => Some Core_RemovedFromRaft
  | 221 => Some Core_TransactionPostconditionsInvalid
  | 222 => Some Core_InvalidLogLevel
  | 223 => Some Core_RefreshClientAttestationWithoutRaftConfig
  | 224 => Some Core_BackupIDSecretMismatch
  | 225 => Some Core_ClientSetBackupID
  | 226 => Some Core_DuplicateMembershipPeer
  | 227 => Some Core_LeaderRemovingSelf
  | 228 => Some Core_RemoveNonexistentMember
  | 229 => Some Core_ReplicatedLogSerialization
  | 230 => Some Core_ReplicationOutOfOrder
  | 231 => Some Core_LogNotFoundAtCommitIndex
  | 232 => Some Core_DBRRMissing
  | 233 => Some Core_DeserializeHostDatabaseRequest
  | 234 => Some Core_InvalidLogTransactionHashChain
  | 235 => Some Core_IncorrectE2EResponseType
  | 236 => Some Core_GroupConfigMismath
  | 237 => Some Core_RaftGroupConfigMinReplicasGreaterThanMaxReplicas
  | 238 => Some Core_RaftGroupConfigMinReplicasTooSmall
  | 239 => Some Core_DBVersionInvalid
  | 240 => Some Core_RaftGroupConfigAttestationTimeoutTooSmall
  | 241 => Some Core_SerializeRaftWrite
  | 242 => Some Core_DeserializeRaftWrite
  | 243 => Some Core_E2ETransactionReset
  | 300 => Some Env_NS
  | 301 => Some Env_SerializeCustomClaims
  | 302 => Some Env_GetEvidence
  | 303 => Some Env_SendMessage
  | 304 => Some Env_RandomBytes
  | 305 => Some Env_AttestationFailure
  | 306 => Some Env_Zero
  | 307 => Some Env_WrongMRENCLAVE
  | 308 => Some Env_CustomClaimsMissing
  | 309 => Some Env_CustomClaimsDeserialize
  | 310 => Some Env_AttestationPubkeyMissing
  | 311 => Some Env_AttestationPubkeyInvalidSize
  | 312 => Some Env_MissingMRENCLAVE
  | 313 => Some Env_SerializeConfigForEvidence
  | 314 => Some Env_MallinfoFailure
  | 315 => Some Env_SerializeMinimumsForEvidence
  | 316 => Some Env_ParseEvidence
  | 317 => Some Env_ParseEndorsements
  | 400 => Some Peers_NS
  | 401 => Some Peers_SendBeforeConnect
  | 402 => Some Peers_RecvBeforeConnect
  | 403 => Some Peers_NewKey
  | 404 => Some Peers_NewKeyGenerate
  | 405 => Some Peers_NewKeyPublic
  | 406 => Some Peers_SendConnect
  | 407 => Some Peers_ReInit
  | 408 => Some Peers_NoInit
  | 409 => Some Peers_HandshakeState
  | 410 => Some Peers_CopyDHState
  | 411 => Some Peers_SetRemotePublicKey
  | 412 => Some Peers_HandshakeStart
  | 413 => Some Peers_ConnectWriteHandshake
  | 414 => Some Peers_ConnectSerializeHandshake
  | 415 => Some Peers_AcceptParseHandshake
  | 416 => Some Peers_AcceptReadHandshake
  | 417 => Some Peers_AcceptWriteHandshake
  | 418 => Some Peers_AcceptSerializeHandshake
  | 419 => Some Peers_AcceptIDMismatch
  | 420 => Some Peers_AcceptSplit
  | 421 => Some Peers_InvalidID
  | 422 => Some Peers_DataNotConnected
  | 423 => Some Peers_FinishParseHandshake
  | 424 => Some Peers_FinishReadHandshake
  | 425 => Some Peers_FinishSplit
  | 426 => Some Peers_Encrypt
  | 427 => Some Peers_Decrypt
  | 428 => Some Peers_EncryptSerialize
  | 429 => Some Peers_DecryptParse
  | 430 => Some Peers_FinishIDMismatch
  | 431 => Some Peers_SynAckNotConnecting
  | 432 => Some Peers_InvalidMsg
  | 433 => Some Peers_ResetMissingPeer
  | 434 => Some Peers_AttestationKeyChanged
  | 500 => Some Raft_NS
  | 501 => Some Raft_LogOutOfSpace
  | 502 => Some Raft_LogEntryTooLarge
  | 503 => Some Raft_AllEntriesBeforeLastAppliedTruncated
  | 504 => Some Raft_AppendEntryNotLeader
  | 505 => Some Raft_CancelingBeforeFirst
  | 506 => Some Raft_AppendWithoutTerm
  | 507 => Some Raft_MembershipAlreadyChanging
  | 508 => Some Raft_NoHashChainInAppend
  | 509 => Some Raft_FollowerNotFound
  | 510 => Some Raft_SetNextOnNonemptyLog
  | 511 => Some Raft_MsgNotPeer
  | 512 => Some Raft_MsgWrongGroup
  | 513 => Some Raft_MsgInvalidType
  | 514 => Some Raft_MsgHashMismatch
  | 515 => Some Raft_MsgTruncated
  | 516 => Some Raft_MsgInFuture
  | 517 => Some Raft_MsgTermPromised
  | 518 => Some Raft_MsgAppendEntryIndex
  | 519 => Some Raft_MsgLogIndexOrdering
  | 600 => Some DB2_NS
  | 601 => Some DB2_ClientRequestCase
  | 602 => Some DB2_ClientPinSize
  | 603 => Some DB2_ClientTriesTooHigh
  | 604 => Some DB2_ClientTriesZero
  | 605 => Some DB2_ClientDataSize
  | 606 => Some DB2_ClientBackupIDSize
  | 607 => Some DB2_ReplicationInvalidRow
  | 608 => Some DB2_ReplicationOutOfOrder
  | 609 => Some DB2_BackupIDSize
  | 610 => Some DB2_LoadedRowsAlreadyInDB
  | 611 => Some DB2_InvalidRequestType
  | 612 => Some DB2_ClientTokenSize
  | 700 => Some Client_NS
  | 701 => Some Client_HandshakeState
  | 702 => Some Client_CopyDHState
  | 703 => Some Client_HandshakeStart
  | 704 => Some Client_ExtractPublicKey
  | 705 => Some Client_DecryptState
  | 706 => Some Client_EncryptState
  | 707 => Some Client_FinishReadHandshake
  | 708 => Some Client_FinishWriteHandshake
  | 709 => Some Client_FinishSplit
  | 710 => Some Client_DecryptParse
  | 711 => Some Client_EncryptSerialize
  | 712 => Some Client_TransactionCancelled
  | 713 => Some Client_TransactionInvalid
  | 714 => Some Client_AlreadyClosed
  | 800 => Some Config_NS
  | 801 => Some Config_ElectionTicks
  | 802 => Some Config_HeartbeatVsElectionTicks
  | 803 => Some Config_ReplicationChunk
  | 804 => Some Config_ReplicaTimeout
  | 805 => Some Config_E2ETransactionTimeout
  | 806 => Some Config_ChangeSimulate
  | 807 => Some Config_BackupIDInvalid
  | 808 => Some Config_LogMaxBytes
  | 809 => Some Config_ReplicationPipeline
  | 900 => Some Membership_NS
  | 901 => Some Membership_TooManyMembershipChanges
  | 902 => Some Membership_NoMembershipChanges
  | 903 => Some Membership_LeaderRemovedFromVoting
  | 904 => Some Membership_LeaderRemovedFromAll
  | 905 => Some Membership_VotingNotSubset
  | 906 => Some Membership_EmptySet
  | 907 => Some Membership_DuplicateReplicaInReplicaGroup
  | 908 => Some Membership_SuperMajorityLost
  | 1000 => Some Replicate_NS
  | 1001 => Some Replicate_RaftState
  | 1002 => Some Replicate_GroupMismatch
  | 1003 => Some Replicate_LogIndexMismatch
  | 1004 => Some Replicate_MissingCommittedMembership
  | 1005 => Some Replicate_ReplicationID
  | 1006 => Some Replicate_ReplicationSequence
  | 1100 => Some Util_NS
  | 1101 => Some Util_ArrayCopyTooBig
  | 1102 => Some Util_HexCharInvalid
  | 1103 => Some Util_HexBytesSize
  | 1104 => Some Util_Base64InvalidChar
  | 1105 => Some Util_Base64InvalidPadding
  | 1200 => Some DB3_NS
  | 1201 => Some DB3_ScalarMultFailure
  | 1202 => Some DB3_BackupIDSize
  | 1203 => Some DB3_MaxTriesOutOfRange
  | 1204 => Some DB3_BlindedElementSize
  | 1205 => Some DB3_ToplevelRequestType
  | 1206 => Some DB3_RequestInvalid
  | 1207 => Some DB3_LogPrivateKeyInvalid
  | 1208 => Some DB3_ReplicationInvalidRow
  | 1209 => Some DB3_LoadedRowsAlreadyInDB
  | 1210 => Some DB3_ReplicationOutOfOrder
  | 1300 => Some Socket_NS
  | 1301 => Some Socket_ReadEOF
  | 1302 => Some Socket_Read
  | 1303 => Some Socket_Write
  | 1304 => Some Socket_ParseIncoming
  | 1305 => Some Socket_WriteTooBig
  | 1306 => Some Socket_ReadTooBig
  | 1307 => Some Socket_WriteNotInitialized
  | 1400 => Some SocketMain_NS
  | 1401 => Some SocketMain_SocketCreation
  | 1402 => Some SocketMain_SocketBind
  | 1403 => Some SocketMain_SocketAccept
  | 1404 => Some SocketMain_SocketListen
  | 1405 => Some SocketMain_InboundNotInit
  | 1406 => Some SocketMain_InboundMessageParse
  | 1407 => Some SocketMain_InboundNotMessage
  | 1408 => Some SocketMain_UnsupportedSockType
  | 1409 => Some SocketMain_SocketSetOpt
  | 1500 => Some AttestationNitro_NS
  | 1501 => Some AttestationNitro_CborError
  | 1502 => Some AttestationNitro_CoseFormat
  | 1503 => Some AttestationNitro_CoseSignatureEncode
  | 1504 => Some AttestationNitro_AttestationParse
  | 1505 => Some AttestationNitro_CertificateDecode
  | 1506 => Some AttestationNitro_CryptoAllocate
  | 1507 => Some AttestationNitro_CryptoStoreInit
  | 1508 => Some AttestationNitro_CertificateChainVerify
  | 1509 => Some AttestationNitro_CryptoMessageDigest
  | 1510 => Some AttestationNitro_CoseSignatureVerify
  | 1511 => Some AttestationNitro_CertificateNotEC
  | 1600 => Some Sev_NS
  | 1601 => Some Sev_ReportIOCTLFailure
  | 1602 => Some Sev_FirmwareError
  | 1603 => Some Sev_ReportSizeMismatch
  | 1700 => Some AttestationSEV_NS
  | 1701 => Some AttestationSEV_CertsTableEntryTooLarge
  | 1702 => Some AttestationSEV_CertsTableCertTooLarge
  | 1703 => Some AttestationSEV_EvidenceTooSmallForReport
  | 1704 => Some AttestationSEV_ParseEndorsements
  | 1705 => Some AttestationSEV_EndorsementBadCert
  | 1706 => Some AttestationSEV_UnsupportedReport
  | 1707 => Some AttestationSEV_CryptoAllocate
  | 1708 => Some AttestationSEV_SignatureVerify
  | 1709 => Some AttestationSEV_CryptoMessageDigest
  | 1710 => Some AttestationSEV_CryptoStoreInit
  | 1711 => Some AttestationSEV_CertificateChainVerify
  | 1712 => Some AttestationSEV_HostDataMismatch
  | 1713 => Some AttestationSEV_MeasurementMismatch
  | 1714 => Some AttestationSEV_DebugEnabled
  | 1715 => Some AttestationSEV_MigrationAllowed
  | 1716 => Some AttestationSEV_TCBMinimums
  | 1800 => Some Merkle_NS
  | 1801 => Some Merkle_VerifyLeaf
  | 1802 => Some Merkle_VerifyNode
  | 1900 => Some Minimums_NS
  | 1901 => Some Minimums_KeyMissing
  | 1902 => Some Minimums_LimitDecreased
  | 1903 => Some Minimums_SizeMismatch
  | 1904 => Some Minimums_EntryEmpty
  | 1905 => Some Minimums_KeyEmpty
  | 1906 => Some Minimums_ValueTooLow
  | 1907 => Some Minimums_ValueSize
  | 1908 => Some Minimums_ValueEmpty
  | 2000 => Some AttestationTPM2_NS
  | 2001 => Some AttestationTPM2_ParseReport
  | 2002 => Some AttestationTPM2_ParsePCRs
  | 2003 => Some AttestationTPM2_ParseSignature
  | 2004 => Some AttestationTPM2_CryptoAllocate
  | 2005 => Some AttestationTPM2_CertificateNotRSA
  | 2006 => Some AttestationTPM2_SignatureVerify
  | 2007 => Some AttestationTPM2_SignatureDigest
  | 2008 => Some AttestationTPM2_PCRDigest
  | 2009 => Some AttestationTPM2_PCRVerify
  | 2100 => Some AzureSNP_NS
  | 2101 => Some AzureSNP_OpenFile
  | 2102 => Some AzureSNP_Mkdir
  | 2103 => Some AzureSNP_InvalidAKCert
  | 2104 => Some AzureSNP_InvalidAKCertIntermediate
  | 2105 => Some AzureSNP_CryptoAllocate
  | 2106 => Some AzureSNP_AKCertificateChainVerify
  | 2107 => Some AzureSNP_CryptoStoreInit
  | 2108 => Some AzureSNP_AzureBufferTooSmall
  | 2109 => Some AzureSNP_ReportDataMismatch
  | 2110 => Some AzureSNP_RuntimeDataJSON
  | 2111 => Some AzureSNP_AKCertPubKey
  | 2112 => Some AzureSNP_AKCertMismatch
  | 2113 => Some AzureSNP_PCRMismatch
  | 2114 => Some AzureSNP_AttestationDataHashMismatch
  | _ => None
  end.

Lemma error_of_code_code e : error_of_code (error_code e) = Some e.
Proof. by destruct e. Qed.

#[export] Instance error_eq_dec : EqDecision Error.
Proof.
  intros e1 e2. destruct (decide (error_code e1 = error_code e2)) as [Heq|Hne].
  - left. apply (f_equal error_of_code) in Heq. rewrite !error_of_code_code in Heq. congruence.
  - right. congruence.
Defined.

(** [err != error::OK]. *)
Definition is_ok (e : Error) : bool := match e with OK => true | _ => false end.

Lemma is_ok_spec e : is_ok e = true <-> e = OK.
Proof. by destruct e. Qed.
Lemma is_ok_false e : e <> OK -> is_ok e = false.
Proof. by destruct e. Qed.
