(* ===== verification/Containers.v ===== *)
(** * Ordered containers

    [std::set<K>] and [std::map<K, V>] are lists sorted strictly by key: the
    order is the iteration order of the container.  [OrdKey] is the key's
    [operator<]; [OrdKeyLaws] what the containers ask of it. *)
From stdpp Require Import prelude gmap sorting.
From S2P Require Import Prelude.

Class OrdKey (K : Type) := key_lt : K -> K -> bool.
Class OrdKeyLaws (K : Type) `{OrdKey K} := {
  key_irrefl : forall a, key_lt a a = false;
  key_trans : forall a b c, key_lt a b = true -> key_lt b c = true -> key_lt a c = true;
  key_total : forall a b, key_lt a b = false -> key_lt b a = false -> a = b }.

#[export] Instance Z_key : OrdKey Z := Z.ltb.
#[export] Instance Z_key_laws : OrdKeyLaws Z.
Proof. split; unfold key_lt, Z_key; lia. Qed.

(** [std::string] and [std::array] compare lexicographically. *)
Fixpoint list_key_lt {K} `{OrdKey K} (a b : list K) : bool :=
  match a, b with
  | [], [] => false
  | [], _ :: _ => true
  | _ :: _, [] => false
  | x :: a', y :: b' => if key_lt x y then true else if key_lt y x then false else list_key_lt a' b'
  end.
#[export] Instance list_key {K} `{OrdKey K} : OrdKey (list K) := list_key_lt.

Section keys.
Context {K : Type} `{OrdKeyLaws K}.

Lemma key_asym (a b : K) : key_lt a b = true -> key_lt b a = false.
Proof.
  intros Hab. destruct (key_lt b a) eqn:Hba; [|done].
  rewrite <- (key_irrefl a). by rewrite (key_trans a b a).
Qed.
Lemma key_lt_neq (a b : K) : key_lt a b = true -> a <> b.
Proof. intros Hab ->. by rewrite key_irrefl in Hab. Qed.
End keys.

#[export] Instance list_key_laws {K} `{OrdKeyLaws K} : OrdKeyLaws (list K).
Proof.
  split; unfold key_lt, list_key.
  - induction a as [|x a IH]; simpl; [done|]. by rewrite key_irrefl.
  - induction a as [|x a IH]; intros [|y b] [|z c]; simpl; try done.
    destruct (key_lt x y) eqn:Hxy; destruct (key_lt y z) eqn:Hyz;
      try (rewrite (key_trans x y z); done).
    + destruct (key_lt z y) eqn:Hzy; [done|]. rewrite <- (key_total y z) by done.
      by rewrite Hxy.
    + destruct (key_lt y x) eqn:Hyx; [done|]. rewrite (key_total x y) by done.
      by rewrite Hyz.
    + destruct (key_lt y x) eqn:Hyx; [done|]. destruct (key_lt z y) eqn:Hzy; [done|].
      rewrite (key_total x y), (key_total y z), key_irrefl by done. eauto.
  - induction a as [|x a IH]; intros [|y b]; simpl; try done.
    destruct (key_lt x y) eqn:Hxy; [done|]. destruct (key_lt y x) eqn:Hyx; [done|].
    rewrite (key_total x y) by done. intros. f_equal. auto.
Qed.

(** ** [std::set] *)
Definition key_eq {K} `{OrdKey K} (a b : K) : bool := negb (key_lt a b) && negb (key_lt b a).

Definition set_count {K} `{OrdKey K} (s : list K) (a : K) : bool := existsb (key_eq a) s.

Fixpoint set_insert {K} `{OrdKey K} (a : K) (s : list K) : list K :=
  match s with
  | [] => [a]
  | b :: s' => if key_lt a b then a :: s else if key_lt b a then b :: set_insert a s' else s
  end.

Definition set_erase {K} `{OrdKey K} (a : K) (s : list K) : list K :=
  List.filter (fun b => negb (key_eq a b)) s.

Definition set_of {K} `{OrdKey K} (l : list K) : list K :=
  foldl (fun s a => set_insert a s) [] l.

Definition key_ltP {K} `{OrdKey K} (a b : K) : Prop := key_lt a b = true.
Definition set_ok {K} `{OrdKey K} (s : list K) : Prop := StronglySorted key_ltP s.

(** ** [std::map] *)
Definition map_key_ltP {K V} `{OrdKey K} (p q : K * V) : Prop := key_lt p.1 q.1 = true.
Definition map_ok {K V} `{OrdKey K} (m : list (K * V)) : Prop := set_ok m.*1.

Definition map_find {K V} `{OrdKey K} (m : list (K * V)) (k : K) : option V :=
  snd <$> List.find (fun p => key_eq k p.1) m.

(** [m[k] = v], and [emplace] of a key that is not there. *)
Fixpoint map_set {K V} `{OrdKey K} (k : K) (v : V) (m : list (K * V)) : list (K * V) :=
  match m with
  | [] => [(k, v)]
  | (k', v') :: m' =>
      if key_lt k k' then (k, v) :: m
      else if key_lt k' k then (k', v') :: map_set k v m' else (k, v) :: m'
  end.

Definition map_erase {K V} `{OrdKey K} (k : K) (m : list (K * V)) : list (K * V) :=
  List.filter (fun p => negb (key_eq k p.1)) m.

(** The elements from [m.upper_bound(k)] on: keys strictly above [k]. *)
Definition map_from_upper {K V} `{OrdKey K} (k : K) (m : list (K * V)) : list (K * V) :=
  List.filter (fun p => key_lt k p.1) m.

Section sets.
Context {K : Type} `{OrdKeyLaws K}.
Implicit Types (s : list K) (a b : K).

Lemma key_eq_spec a b : key_eq a b = true <-> a = b.
Proof.
  unfold key_eq. split.
  - intros [??]%andb_true_iff. btrue. by apply key_total.
  - intros ->. by rewrite key_irrefl.
Qed.

Lemma key_eq_refl a : key_eq a a = true.
Proof. by apply key_eq_spec. Qed.

Lemma key_eq_neq a b : a <> b -> key_eq a b = false.
Proof. intros Hn. destruct (key_eq a b) eqn:E; [|done]. by apply key_eq_spec in E. Qed.

Lemma set_count_spec s a : set_count s a = true <-> a ∈ s.
Proof.
  unfold set_count. rewrite existsb_exists. setoid_rewrite key_eq_spec.
  rewrite list_elem_of_In. naive_solver.
Qed.

Lemma set_count_false s a : set_count s a = false <-> a ∉ s.
Proof. rewrite <- set_count_spec. by destruct (set_count s a). Qed.

Lemma elem_of_set_insert s a b : b ∈ set_insert a s <-> b = a \/ b ∈ s.
Proof.
  induction s as [|c s IH]; simpl; [set_solver|].
  destruct (key_lt a c) eqn:E1; [set_solver|].
  destruct (key_lt c a) eqn:E2; [set_solver|].
  rewrite (key_total a c) by done. set_solver.
Qed.

Lemma set_ok_NoDup s : set_ok s -> NoDup s.
Proof.
  unfold set_ok. induction 1 as [|a s Hs IH Ha]; constructor; [|done].
  intros Hin. rewrite Forall_forall in Ha. specialize (Ha _ Hin).
  unfold key_ltP in Ha. by rewrite key_irrefl in Ha.
Qed.

Lemma set_insert_ok s a : set_ok s -> set_ok (set_insert a s).
Proof.
  unfold set_ok. induction 1 as [|b s Hs IH Hb]; simpl; [repeat constructor|].
  destruct (key_lt a b) eqn:E1.
  { constructor; [by constructor|]. constructor; [done|].
    eapply Forall_impl; [done|]. intros c Hc. by apply (key_trans a b c). }
  destruct (key_lt b a) eqn:E2; [|by constructor].
  constructor; [done|]. apply Forall_forall. intros c [->|Hc]%elem_of_set_insert; [done|].
  by apply (proj1 (Forall_forall _ _) Hb).
Qed.

Lemma elem_of_set_erase s a b : b ∈ set_erase a s <-> b <> a /\ b ∈ s.
Proof.
  unfold set_erase. rewrite !list_elem_of_In, filter_In, negb_true_iff.
  split.
  - intros [Hin Hne]. split; [|done]. intros ->. by rewrite key_eq_refl in Hne.
  - intros [Hne Hin]. split; [done|]. by apply key_eq_neq.
Qed.

Lemma StronglySorted_List_filter {B} (R : relation B) f (l : list B) :
  StronglySorted R l -> StronglySorted R (List.filter f l).
Proof.
  induction 1 as [|x l Hl IH Hx]; simpl; [constructor|].
  destruct (f x); [|done]. constructor; [done|].
  apply Forall_forall. intros y Hy. apply (proj1 (Forall_forall _ _) Hx).
  apply list_elem_of_In in Hy. apply filter_In in Hy as [? _]. by apply list_elem_of_In.
Qed.

Lemma set_erase_ok s a : set_ok s -> set_ok (set_erase a s).
Proof. apply StronglySorted_List_filter. Qed.

Lemma set_of_aux l s :
  set_ok s ->
  set_ok (foldl (fun s a => set_insert a s) s l) /\
  (forall b, b ∈ foldl (fun s a => set_insert a s) s l <-> b ∈ l \/ b ∈ s).
Proof.
  revert s. induction l as [|x l IH]; intros s Hs; simpl; [set_solver|].
  destruct (IH (set_insert x s) (set_insert_ok _ _ Hs)) as [H1 H2].
  split; [done|]. intros b. rewrite H2, elem_of_set_insert. set_solver.
Qed.

Lemma set_of_ok l : set_ok (set_of l).
Proof. apply set_of_aux. constructor. Qed.

Lemma elem_of_set_of l b : b ∈ set_of l <-> b ∈ l.
Proof. unfold set_of. destruct (set_of_aux l []) as [_ ->]; [constructor|set_solver]. Qed.

(** A set has one representation: its elements determine the list. *)
Lemma set_ok_ext s t : set_ok s -> set_ok t -> (forall b, b ∈ s <-> b ∈ t) -> s = t.
Proof.
  intros Hs Ht Hext.
  assert (Hp : s ≡ₚ t) by (apply NoDup_Permutation; auto using set_ok_NoDup).
  eapply (StronglySorted_unique_strong key_ltP); [|done|done|done].
  intros a b Ha Hb Hab Hba. exfalso. unfold key_ltP in *.
  rewrite (key_asym a b) in Hba; done.
Qed.

Lemma set_of_id s : set_ok s -> set_of s = s.
Proof. intros. apply set_ok_ext; auto using set_of_ok, elem_of_set_of. Qed.

End sets.

Section maps.
Context {K V : Type} `{OrdKeyLaws K}.
Implicit Types (m : list (K * V)) (k : K) (v : V).

Lemma map_find_cons k k' v' m :
  map_find ((k', v') :: m) k = if key_eq k k' then Some v' else map_find m k.
Proof. unfold map_find. simpl. by destruct (key_eq k k'). Qed.

Lemma map_find_elem m k v : map_find m k = Some v -> (k, v) ∈ m.
Proof.
  induction m as [|[k' v'] m IH]; [done|]. rewrite map_find_cons.
  destruct (key_eq k k') eqn:E; [|intros; right; auto].
  apply key_eq_spec in E as ->. intros [= ->]. left.
Qed.

Lemma elem_map_find m k v : map_ok m -> (k, v) ∈ m -> map_find m k = Some v.
Proof.
  unfold map_ok. induction m as [|[k' v'] m IH]; [by intros _ ?%elem_of_nil|].
  simpl. intros Hs Hin. apply StronglySorted_inv in Hs as [Hs Hall].
  rewrite map_find_cons. apply elem_of_cons in Hin as [[= -> ->]|Hin].
  - by rewrite key_eq_refl.
  - rewrite key_eq_neq; [auto|]. intros ->.
    apply (key_lt_neq k' k'); [|done]. rewrite Forall_forall in Hall. apply Hall.
    apply list_elem_of_fmap. by exists (k', v).
Qed.

Lemma map_find_None m k : map_find m k = None <-> k ∉ m.*1.
Proof.
  induction m as [|[k' v'] m IH]; simpl; [split; [intros _ ?%elem_of_nil; done|done]|].
  rewrite map_find_cons. destruct (key_eq k k') eqn:E.
  - apply key_eq_spec in E as ->. split; [done|]. intros []. left.
  - rewrite IH, not_elem_of_cons. split; [|tauto]. split; [|done].
    intros ->. by rewrite key_eq_refl in E.
Qed.

Lemma elem_map_set_keys m k v k0 : k0 ∈ (map_set k v m).*1 <-> k0 = k \/ k0 ∈ m.*1.
Proof.
  induction m as [|[k' v'] m IH]; simpl; [set_solver|].
  destruct (key_lt k k') eqn:E1; simpl; [set_solver|].
  destruct (key_lt k' k) eqn:E2; simpl; [set_solver|].
  rewrite (key_total k k') by done. set_solver.
Qed.

Lemma map_set_keys m k v : (map_set k v m).*1 = set_insert k m.*1.
Proof.
  induction m as [|[k' v'] m IH]; csimpl; [done|].
  destruct (key_lt k k') eqn:E1; [done|].
  destruct (key_lt k' k) eqn:E2; csimpl; [by rewrite IH|].
  by rewrite (key_total k k').
Qed.

Lemma Forall_map_set (P : K * V -> Prop) m k v : P (k, v) -> Forall P m -> Forall P (map_set k v m).
Proof.
  intros Hkv. induction 1 as [|[k' v'] m Hk Hm IH]; simpl; [by constructor|].
  destruct (key_lt k k'); [by repeat constructor|].
  destruct (key_lt k' k); by constructor.
Qed.

Lemma map_set_ok m k v : map_ok m -> map_ok (map_set k v m).
Proof. unfold map_ok. rewrite map_set_keys. apply set_insert_ok. Qed.

Lemma map_find_set_eq m k v : map_find (map_set k v m) k = Some v.
Proof.
  induction m as [|[k' v'] m IH]; simpl; [by rewrite map_find_cons, key_eq_refl|].
  destruct (key_lt k k') eqn:E1; [by rewrite map_find_cons, key_eq_refl|].
  destruct (key_lt k' k) eqn:E2; rewrite map_find_cons; [|by rewrite key_eq_refl].
  rewrite key_eq_neq; [done|]. intros ->. by rewrite key_irrefl in E2.
Qed.

Lemma map_find_set_ne m k k' v : k' <> k -> map_find (map_set k v m) k' = map_find m k'.
Proof.
  intros Hne. induction m as [|[k1 v1] m IH]; simpl.
  { by rewrite map_find_cons, key_eq_neq. }
  destruct (key_lt k k1) eqn:E1; [by rewrite map_find_cons, key_eq_neq|].
  destruct (key_lt k1 k) eqn:E2; rewrite !map_find_cons; [by rewrite IH|].
  assert (k = k1) as <- by by apply key_total. by rewrite key_eq_neq.
Qed.

Lemma map_erase_keys m k : (map_erase k m).*1 = set_erase k m.*1.
Proof.
  unfold map_erase, set_erase. induction m as [|[k' v'] m IH]; csimpl; [done|].
  destruct (key_eq k k'); csimpl; by rewrite IH.
Qed.

Lemma map_erase_ok m k : map_ok m -> map_ok (map_erase k m).
Proof. unfold map_ok. rewrite map_erase_keys. apply set_erase_ok. Qed.

Lemma map_find_erase_eq m k : map_find (map_erase k m) k = None.
Proof. apply map_find_None. rewrite map_erase_keys, elem_of_set_erase. tauto. Qed.

Lemma map_find_erase_ne m k k' : k' <> k -> map_find (map_erase k m) k' = map_find m k'.
Proof.
  intros Hne. unfold map_erase. induction m as [|[k1 v1] m IH]; simpl; [done|].
  destruct (key_eq k k1) eqn:E; simpl; rewrite ?map_find_cons, IH; [|done].
  apply key_eq_spec in E as <-. by rewrite key_eq_neq.
Qed.

(** Two maps with the same lookups are the same list. *)
Lemma map_ok_ext m1 m2 :
  map_ok m1 -> map_ok m2 -> (forall k, map_find m1 k = map_find m2 k) -> m1 = m2.
Proof.
  intros H1 H2 Hext.
  assert (Hk : m1.*1 = m2.*1).
  { apply set_ok_ext; [done|done|]. intros k.
    destruct (map_find m1 k) eqn:E1.
    - assert (E2 : map_find m2 k = Some v) by (by rewrite <- Hext).
      apply map_find_elem in E1, E2.
      split; intros _; apply list_elem_of_fmap; by exists (k, v).
    - assert (E2 : map_find m2 k = None) by (by rewrite <- Hext).
      apply map_find_None in E1, E2. tauto. }
  revert m2 H1 H2 Hext Hk. induction m1 as [|[k v] m1 IH]; intros [|[k2 v2] m2]; try done.
  simpl. intros H1 H2 Hext [= -> Hk]. f_equal.
  - specialize (Hext k2). rewrite !map_find_cons, key_eq_refl in Hext. naive_solver.
  - unfold map_ok in *. simpl in *.
    apply StronglySorted_inv in H1 as [H1 H1'], H2 as [H2 H2'].
    apply IH; try done. intros k. specialize (Hext k). rewrite !map_find_cons in Hext.
    destruct (key_eq k k2) eqn:E; [|done]. apply key_eq_spec in E as ->.
    assert (Hn : k2 ∉ m2.*1).
    { intros Hin. rewrite Forall_forall in H2'. by apply (key_lt_neq k2 k2 (H2' _ Hin)). }
    rewrite (proj2 (map_find_None m2 k2)) by done.
    apply map_find_None. assert (m1.*1 = m2.*1) as -> by exact Hk. done.
Qed.
End maps.
