(* ===== verification/Util.v ===== *)
(** * Byte utilities (util/endian.h, util/bytes.h, util/constant.h, util/hex.h, util/hex.cc)

    Integer codecs, copies between strings and fixed arrays, the
    constant-time comparison and hexadecimal. *)
From stdpp Require Import prelude.
From S2P Require Import Prelude Errors.

(** ** util/endian.h *)

(** The [i]-th byte of an array; an index out of range is not used below. *)
Definition byte_at (bs : bytes) (i : nat) : Z := nth i bs 0.

Definition BigEndian64FromBytes (b : bytes) : Z :=
  Z.lor (Z.lor (Z.lor (Z.lor (Z.lor (Z.lor (Z.lor
    (Z.shiftl (byte_at b 0) (8 * 7)) (Z.shiftl (byte_at b 1) (8 * 6)))
    (Z.shiftl (byte_at b 2) (8 * 5))) (Z.shiftl (byte_at b 3) (8 * 4)))
    (Z.shiftl (byte_at b 4) (8 * 3))) (Z.shiftl (byte_at b 5) (8 * 2)))
    (Z.shiftl (byte_at b 6) (8 * 1))) (Z.shiftl (byte_at b 7) (8 * 0)).
Definition BigEndian32FromBytes (b : bytes) : Z :=
  Z.lor (Z.lor (Z.lor (Z.shiftl (byte_at b 0) (8 * 3)) (Z.shiftl (byte_at b 1) (8 * 2)))
    (Z.shiftl (byte_at b 2) (8 * 1))) (Z.shiftl (byte_at b 3) (8 * 0)).
Definition BigEndian16FromBytes (b : bytes) : Z :=
  Z.lor (Z.shiftl (byte_at b 0) (8 * 1)) (Z.shiftl (byte_at b 1) (8 * 0)).

(** Assignment to a [uint8_t] keeps the low byte. *)
Definition BigEndian64Bytes (v : Z) : bytes :=
  [u8 (Z.shiftr v (8 * 7)); u8 (Z.shiftr v (8 * 6)); u8 (Z.shiftr v (8 * 5));
   u8 (Z.shiftr v (8 * 4)); u8 (Z.shiftr v (8 * 3)); u8 (Z.shiftr v (8 * 2));
   u8 (Z.shiftr v (8 * 1)); u8 (Z.shiftr v (8 * 0))].
Definition BigEndian32Bytes (v : Z) : bytes :=
  [u8 (Z.shiftr v (8 * 3)); u8 (Z.shiftr v (8 * 2)); u8 (Z.shiftr v (8 * 1));
   u8 (Z.shiftr v (8 * 0))].
Definition LittleEndian64Bytes (v : Z) : bytes :=
  [u8 (Z.shiftr v (8 * 0)); u8 (Z.shiftr v (8 * 1)); u8 (Z.shiftr v (8 * 2));
   u8 (Z.shiftr v (8 * 3)); u8 (Z.shiftr v (8 * 4)); u8 (Z.shiftr v (8 * 5));
   u8 (Z.shiftr v (8 * 6)); u8 (Z.shiftr v (8 * 7))].

(** ** util/bytes.h *)
Definition ByteArrayToString (a : bytes) : bytes := a.
Definition ByteVectorToString (a : bytes) : bytes := a.

(** [StringToByteArray<N>]: a copy into a zeroed array. *)
Definition StringToByteArray (N : nat) (str : bytes) : bytes * Error :=
  if (Z.of_nat N <? Zlen str) then (replicate N 0, Util_ArrayCopyTooBig)
  else (str ++ replicate (N - length str) 0, OK).

(** ** util/constant.h *)

(** The [while] loop over [size] bytes: [None] reads past an end. *)
Fixpoint constant_time_loop (size : nat) (a b : bytes) (out : Z) : option Z :=
  match size, a, b with
  | O, _, _ => Some out
  | S size', x :: a', y :: b' => constant_time_loop size' a' b' (Z.lor out (Z.lxor x y))
  | _, _, _ => None
  end.
Definition ConstantTimeEqualsBytes (a b : bytes) (size : nat) : option bool :=
  out ← constant_time_loop size a b 0; Some (out =? 0).
Definition ConstantTimeEqualsPrefix (a b : bytes) (prefix_size : nat) : option bool :=
  if (Zlen a <? Z.of_nat prefix_size) || (Zlen b <? Z.of_nat prefix_size) then Some false
  else ConstantTimeEqualsBytes a b prefix_size.
Definition ConstantTimeEquals (a b : bytes) : option bool :=
  if negb (Zlen a =? Zlen b) then Some false else ConstantTimeEqualsPrefix a b (length a).

(** The comparison as its callers use it; [ct_equals_eq] shows that it reads
    no byte out of range and decides equality. *)
Definition ct_equals (a b : bytes) : bool := default false (ConstantTimeEquals a b).

(** ** util/hex.h, util/hex.cc *)

(** ASCII codes: '0' is 48, 'a' 97, 'A' 65. *)
Definition HexCharToNibble (c : Z) : Z :=
  if (48 <=? c) && (c <=? 57) then c - 48
  else if (97 <=? c) && (c <=? 102) then 10 + (c - 97)
  else if (65 <=? c) && (c <=? 70) then 10 + (c - 65)
  else 255.

Definition nibbles : bytes := [48; 49; 50; 51; 52; 53; 54; 55; 56; 57; 97; 98; 99; 100; 101; 102].

Definition BytesToHex (b : bytes) : bytes :=
  b ≫= (fun x => [byte_at nibbles (Z.to_nat (Z.shiftr (Z.land x 240) 4));
                  byte_at nibbles (Z.to_nat (Z.shiftr (Z.land x 15) 0))]).
Definition PrefixToHex (b : bytes) (s : nat) : bytes := BytesToHex (take s b).
Definition ToHex (b : bytes) : bytes := PrefixToHex b (length b).

(** The loop of [HexToBytes], two characters a turn. *)
Fixpoint hex_to_bytes_loop (cs : bytes) (out : bytes) : bytes * Error :=
  match cs with
  | c1 :: c2 :: rest =>
      let n1 := HexCharToNibble c1 in
      let n2 := HexCharToNibble c2 in
      if (n1 =? 255) || (n2 =? 255) then (out, Util_HexCharInvalid)
      else hex_to_bytes_loop rest (out ++ [u8 (Z.lor (Z.shiftl n1 4) n2)])
  | _ => (out, OK)
  end.
Definition HexToBytes (cs : bytes) : bytes * Error :=
  if negb (Zlen cs mod 2 =? 0) then ([], Util_HexBytesSize) else hex_to_bytes_loop cs [].

(** ** Lemmas *)

(** Or-ing in the next lower byte. *)
Lemma lor_byte (x b k : Z) :
  is_u8 b -> 0 <= k -> Z.lor (Z.shiftl x (k + 8)) (Z.shiftl b k) = Z.shiftl (x * 256 + b) k.
Proof.
  intros Hb Hk. replace (Z.shiftl x (k + 8)) with (Z.shiftl (Z.shiftl x 8) k).
  2: { rewrite Z.shiftl_shiftl by lia. f_equal. lia. }
  rewrite <- Z.shiftl_lor, lor_shiftl_low by ulia. done.
Qed.

(** The value of a big-endian byte string. *)
Definition be_value (bs : bytes) : Z := foldl (fun acc b => acc * 256 + b) 0 bs.

Lemma BigEndian64_value bs :
  length bs = 8%nat -> bytes_ok bs -> BigEndian64FromBytes bs = be_value bs.
Proof.
  intros Hl Hok. do 8 (destruct bs as [|? bs]; [done|]). destruct bs; [|done].
  repeat (apply Forall_cons in Hok as [? Hok]). unfold BigEndian64FromBytes, byte_at. simpl nth.
  change (8 * 7) with (8 * 6 + 8). rewrite lor_byte by (done || lia).
  change (8 * 6) with (8 * 5 + 8). rewrite lor_byte by (done || lia).
  change (8 * 5) with (8 * 4 + 8). rewrite lor_byte by (done || lia).
  change (8 * 4) with (8 * 3 + 8). rewrite lor_byte by (done || lia).
  change (8 * 3) with (8 * 2 + 8). rewrite lor_byte by (done || lia).
  change (8 * 2) with (8 * 1 + 8). rewrite lor_byte by (done || lia).
  change (8 * 1) with (8 * 0 + 8). rewrite lor_byte by (done || lia).
  rewrite Z.shiftl_0_r. unfold be_value. simpl. lia.
Qed.

Lemma shiftr_byte v k : 0 <= k -> u8 (Z.shiftr v k) = (v / 2 ^ k) mod 256.
Proof. intros. unfold u8. by rewrite Z.shiftr_div_pow2. Qed.

(** Reading one more byte of [v]. *)
Lemma be_step v k : 0 <= k -> v / 2 ^ (k + 8) * 256 + (v / 2 ^ k) mod 256 = v / 2 ^ k.
Proof.
  intros Hk. rewrite Z.pow_add_r, <- Z.div_div by lia.
  change (2 ^ 8) with 256. pose proof (Z.div_mod (v / 2 ^ k) 256). lia.
Qed.

Lemma BigEndian64Bytes_value v : is_u64 v -> be_value (BigEndian64Bytes v) = v.
Proof.
  intros Hv. unfold be_value, BigEndian64Bytes. cbn [foldl].
  rewrite !shiftr_byte by lia.
  assert (H0 : 0 * 256 + (v / 2 ^ (8 * 7)) mod 256 = v / 2 ^ (8 * 7)).
  { rewrite Z.mod_small; [lia|]. split; [apply Z.div_pos; ulia|].
    apply Z.div_lt_upper_bound; ulia. }
  rewrite H0. change (8 * 7) with (8 * 6 + 8). rewrite be_step by lia.
  change (8 * 6) with (8 * 5 + 8). rewrite be_step by lia.
  change (8 * 5) with (8 * 4 + 8). rewrite be_step by lia.
  change (8 * 4) with (8 * 3 + 8). rewrite be_step by lia.
  change (8 * 3) with (8 * 2 + 8). rewrite be_step by lia.
  change (8 * 2) with (8 * 1 + 8). rewrite be_step by lia.
  change (8 * 1) with (8 * 0 + 8). rewrite be_step by lia.
  change (2 ^ (8 * 0)) with 1. apply Z.div_1_r.
Qed.

Lemma BigEndian64Bytes_ok v : bytes_ok (BigEndian64Bytes v).
Proof. repeat constructor; apply u8_range. Qed.

Lemma BigEndian64_roundtrip v : is_u64 v -> BigEndian64FromBytes (BigEndian64Bytes v) = v.
Proof.
  intros. rewrite BigEndian64_value by (done || apply BigEndian64Bytes_ok).
  by apply BigEndian64Bytes_value.
Qed.

Lemma BigEndian64Bytes_inj v w :
  is_u64 v -> is_u64 w -> BigEndian64Bytes v = BigEndian64Bytes w -> v = w.
Proof.
  intros Hv Hw H. rewrite <- (BigEndian64_roundtrip v), <- (BigEndian64_roundtrip w) by done.
  by rewrite H.
Qed.

Lemma LittleEndian64_rev v : LittleEndian64Bytes v = reverse (BigEndian64Bytes v).
Proof. done. Qed.

(** The loop accumulates zero exactly on equal bytes. *)
Lemma constant_time_loop_spec size a b out :
  (size <= length a)%nat -> (size <= length b)%nat ->
  exists r, constant_time_loop size a b out = Some r /\
    (r = 0 <-> out = 0 /\ take size a = take size b).
Proof.
  revert a b out. induction size as [|size IH]; intros a b out Ha Hb.
  { exists out. simpl. tauto. }
  destruct a as [|x a], b as [|y b]; simpl in *; try lia.
  destruct (IH a b (Z.lor out (Z.lxor x y))) as (r & -> & Hr); [lia..|].
  exists r. split; [done|]. rewrite Hr, Z.lor_eq_0_iff, Z.lxor_eq_0_iff.
  split; [by intros [[? ->] ->]|by intros [? [= -> ->]]].
Qed.

Lemma ConstantTimeEquals_eq a b :
  ConstantTimeEquals a b = Some (bool_decide (a = b)).
Proof.
  unfold ConstantTimeEquals, ConstantTimeEqualsPrefix.
  destruct (Zlen a =? Zlen b) eqn:E; simpl; last first.
  { rewrite bool_decide_eq_false_2; [done|]. intros ->. unfold Zlen in E. lia. }
  unfold Zlen in *. rewrite (proj2 (orb_false_iff _ _)) by (rewrite !Z.ltb_ge; lia).
  unfold ConstantTimeEqualsBytes.
  destruct (constant_time_loop_spec (length a) a b 0) as (r & -> & Hr); [lia..|].
  simpl. f_equal. rewrite (firstn_all a), (take_ge b) in Hr by lia.
  case_bool_decide; [apply Z.eqb_eq; tauto|apply Z.eqb_neq; tauto].
Qed.

Lemma ct_equals_eq a b : ct_equals a b = bool_decide (a = b).
Proof. unfold ct_equals. by rewrite ConstantTimeEquals_eq. Qed.
