(* ===== verification/RaftTypes.v ===== *)
(** * Raft data

    The messages of enclave/proto/raft.proto, the identifiers of
    raft/types.h, and the third-party code Raft is built on ([RaftPlatform]):
    sizes fixed by the compiler and protobuf, protobuf serialisation,
    HMAC-SHA256 and the random number source. *)
From stdpp Require Import prelude gmap.
From S2P Require Import Prelude.

(** raft/types.h: [LogIdx] and [TermId] are [uint64_t]; [GroupId] too.
    peerid/peerid.h: a [PeerID] is 32 bytes. *)
Notation LogIdx := Z.
Notation TermId := Z.
Notation GroupId := Z.
Notation PeerID := bytes.

(** minimums.proto: a [map<string, bytes>]. *)
Notation MinimumLimits := (gmap bytes bytes).

(** [message Replica], [message ReplicaGroup] (one repeated field). *)
Record Replica := { replica_peer_id : bytes; replica_voting : bool }.
Notation ReplicaGroup := (list Replica).
#[export] Instance Replica_eq_dec : EqDecision Replica.
Proof. solve_decision. Defined.

(** The [oneof inner] of [message LogEntry]. *)
Inductive EntryInner :=
  | INNER_NOT_SET
  | kData (data : bytes)
  | kMembershipChange (membership_change : ReplicaGroup)
  | kMinimums (minimums : MinimumLimits).
#[export] Instance EntryInner_eq_dec : EqDecision EntryInner.
Proof. solve_decision. Defined.

Record LogEntry := { entry_term : TermId; entry_inner : EntryInner; hash_chain : bytes }.
#[export] Instance LogEntry_eq_dec : EqDecision LogEntry.
Proof. solve_decision. Defined.
(** A default-constructed protobuf entry. *)
Definition LogEntry_default : LogEntry :=
  {| entry_term := 0; entry_inner := INNER_NOT_SET; hash_chain := [] |}.

Record VoteRequest := {
  vr_last_log_idx : LogIdx; vr_last_log_term : TermId; vr_last_log_hash_chain : bytes }.
Record AppendRequest := {
  ar_prev_log_idx : LogIdx; ar_prev_log_term : TermId; ar_leader_commit : LogIdx;
  ar_entries : list LogEntry; ar_leader_promise : LogIdx; ar_prev_log_hash_chain : bytes }.
Record AppendResponse := {
  as_success : bool; as_match_idx : LogIdx; as_last_log_idx : LogIdx;
  as_promise_idx : LogIdx; as_match_hash_chain : bytes }.

(** The [oneof inner] of [message RaftMessage]. *)
Inductive MessageInner :=
  | MESSAGE_NOT_SET
  | kVoteRequest (m : VoteRequest)
  | kVoteResponse (vote_granted : bool)
  | kAppendRequest (m : AppendRequest)
  | kAppendResponse (m : AppendResponse)
  | kTimeoutNow (timeout_now : bool).
Record RaftMessage := { msg_group : GroupId; msg_term : TermId; msg_inner : MessageInner }.

#[export] Instance VoteRequest_eq_dec : EqDecision VoteRequest.
Proof. solve_decision. Defined.
#[export] Instance AppendRequest_eq_dec : EqDecision AppendRequest.
Proof. solve_decision. Defined.
#[export] Instance AppendResponse_eq_dec : EqDecision AppendResponse.
Proof. solve_decision. Defined.
#[export] Instance MessageInner_eq_dec : EqDecision MessageInner.
Proof. solve_decision. Defined.
#[export] Instance RaftMessage_eq_dec : EqDecision RaftMessage.
Proof. solve_decision. Defined.

(** [message LogLocation]. *)
Record LogLocation := { loc_term : TermId; loc_idx : LogIdx; loc_hash_chain : bytes }.

(** Code that Raft calls and that is not part of this repository. *)
Class RaftPlatform := {
  sizeof_ReplicaGroup : Z;
  sizeof_PeerID : Z;
  sizeof_Replica : Z;
  sizeof_string : Z;
  sizeof_LogEntry : Z;
  (** [MessageLite::ByteSizeLong] of an entry. *)
  ByteSizeLong : LogEntry -> Z;
  (** [MessageLite::SerializeAsString]. *)
  serialize_ReplicaGroup : ReplicaGroup -> bytes;
  serialize_MinimumLimits : MinimumLimits -> bytes;
  (** HMAC-SHA256 of a 32-byte key and a message. *)
  hmac_sha256 : bytes -> bytes -> bytes;
  (** The 32-bit value the n-th call of the random source yields. *)
  random_u32 : nat -> Z }.

(** What that code documents of itself. *)
Class RaftPlatformLaws `{RaftPlatform} := {
  sizeof_nonneg : 0 <= sizeof_ReplicaGroup /\ 0 <= sizeof_PeerID /\ 0 <= sizeof_Replica /\
                  0 <= sizeof_string /\ 0 <= sizeof_LogEntry;
  hmac_length : forall k m, length (hmac_sha256 k m) = 32%nat;
  random_u32_range : forall n, is_u32 (random_u32 n) }.

(** A concrete platform, on which examples are evaluated: sizes of a 64-bit
    build, and a toy stand-in for HMAC that sums its input. *)
Definition toy_hmac (k m : bytes) : bytes :=
  let s := foldl (fun acc b => (acc * 31 + b + 1) mod 2 ^ 256) 7 (k ++ m) in
  (fun i => (s / 256 ^ Z.of_nat i) mod 256) <$> seq 0 32.

Definition toy_platform : RaftPlatform := {|
  sizeof_ReplicaGroup := 40; sizeof_PeerID := 32; sizeof_Replica := 32;
  sizeof_string := 32; sizeof_LogEntry := 48;
  ByteSizeLong := fun e => 2 + Z.of_nat (length (hash_chain e)) +
    match entry_inner e with kData d => Z.of_nat (length d) | _ => 0 end;
  serialize_ReplicaGroup := fun g =>
    g ≫= (fun r => (if replica_voting r then 1 else 0) :: replica_peer_id r);
  serialize_MinimumLimits := fun m => map_to_list m ≫= (fun kv => kv.1 ++ kv.2);
  hmac_sha256 := toy_hmac;
  random_u32 := fun n => u32 (Z.of_nat n * 2654435761) |}.

Lemma toy_platform_laws : @RaftPlatformLaws toy_platform.
Proof.
  split; simpl; [lia| |].
  - intros k m. done.
  - intros n. apply u32_range.
Qed.
