(* ===== verification/RaftLog.v ===== *)
(** * The Raft log (raft/log.h, raft/log.cc)

    A deque of entries, the index of the oldest one, and an estimate of the
    bytes held.  [log_at] is the abstract view clients use: the entry stored
    at an index, if any. *)
From stdpp Require Import prelude gmap.
From S2P Require Import Prelude Errors RaftTypes.

Record Log := {
  entries_ : list LogEntry;
  oldest_stored_idx_ : LogIdx;
  curr_bytes_ : Z;
  max_bytes_ : Z }.

(** [Log::Log(max_bytes)]. *)
Definition Log_new (max_bytes : Z) : Log :=
  {| entries_ := []; oldest_stored_idx_ := 1; curr_bytes_ := 0; max_bytes_ := max_bytes |}.

Section ops.
Context `{RaftPlatform}.

Definition data_size (e : LogEntry) : Z :=
  match entry_inner e with kData d => Zlen d | _ => 0 end.

Definition logentry_bytes_in_log (e : LogEntry) : Z :=
  let mem_change :=
    match entry_inner e with
    | kMembershipChange g => sizeof_ReplicaGroup + Zlen g * (sizeof_PeerID + sizeof_Replica)
    | _ => 0
    end in
  let mem_change :=
    if Zlen (hash_chain e) =? 0 then mem_change
    else mem_change + (Zlen (hash_chain e) + sizeof_string) in
  u64 (mem_change + sizeof_LogEntry + (sizeof_string + data_size e)).

(** [Log::Iterator]: the index into the deque (the log it points to is an
    argument of the operations). *)
Definition At (l : Log) (idx : LogIdx) : Z :=
  if idx <? oldest_stored_idx_ l then Zlen (entries_ l) else idx ⊖ oldest_stored_idx_ l.

Definition iter_Valid (l : Log) (di : Z) : bool := di <? Zlen (entries_ l).
Definition iter_Index (l : Log) (di : Z) : LogIdx :=
  if iter_Valid l di then oldest_stored_idx_ l ⊕ di else 0.
Definition iter_Entry (l : Log) (di : Z) : option LogEntry :=
  if iter_Valid l di then entries_ l !! Z.to_nat di else None.
Definition iter_Term (l : Log) (di : Z) : TermId :=
  match iter_Entry l di with Some e => entry_term e | None => 0 end.
Definition iter_SerializedSize (l : Log) (di : Z) : Z :=
  match iter_Entry l di with Some e => ByteSizeLong e | None => 0 end.
Definition iter_MemSize (l : Log) (di : Z) : Z :=
  match iter_Entry l di with Some e => logentry_bytes_in_log e | None => 0 end.
Definition iter_Next (l : Log) (di : Z) : Z := if iter_Valid l di then di ⊕ 1 else di.
Definition iter_Prev (l : Log) (di : Z) : Z := if iter_Valid l di then di ⊖ 1 else di.

Definition oldest_stored_idx (l : Log) : LogIdx :=
  if Zlen (entries_ l) =? 0 then 0 else oldest_stored_idx_ l.
Definition last_idx (l : Log) : LogIdx :=
  if Zlen (entries_ l) =? 0 then 0 else oldest_stored_idx_ l ⊕ Zlen (entries_ l) ⊖ 1.
Definition next_idx (l : Log) : LogIdx := last_idx l ⊕ 1.
Definition last_term (l : Log) : TermId :=
  if Zlen (entries_ l) =? 0 then 0 else iter_Term l (At l (last_idx l)).
Definition log_data_length_bytes (l : Log) : Z := curr_bytes_ l.
Definition empty (l : Log) : bool := Zlen (entries_ l) =? 0.

(** [entries_.resize(n)]: shrinks, or grows with default entries. *)
Definition resize (es : list LogEntry) (n : nat) : list LogEntry :=
  take n es ++ replicate (n - length es) LogEntry_default.

Definition CancelFrom (l : Log) (from_log_idx : LogIdx) : Log * Error :=
  if from_log_idx <? oldest_stored_idx_ l then (l, Raft_CancelingBeforeFirst)
  else
    let index := from_log_idx ⊖ oldest_stored_idx_ l in
    ({| l with entries_ := resize (entries_ l) (Z.to_nat index) |}, OK).

(** [entries_.front()] of an empty deque is undefined behaviour: [None]. *)
Definition RemoveOldestLogOlderThan (l : Log) (truncate_to : LogIdx) : option (Log * bool) :=
  if truncate_to <=? oldest_stored_idx_ l then Some (l, false)
  else
    match entries_ l with
    | [] => None
    | e :: es =>
        Some ({| l with entries_ := es;
                        oldest_stored_idx_ := oldest_stored_idx_ l ⊕ 1;
                        curr_bytes_ := curr_bytes_ l ⊖ logentry_bytes_in_log e |}, true)
    end.

(** The [while] loop of [Append]: [Some (l, true)] when there is room for
    [mem] bytes, [Some (l, false)] when nothing more may be dropped.  Each
    turn drops an entry, so [S (length entries_)] turns are enough
    ([append_make_room_spec] shows that the fuel never runs out). *)
Fixpoint append_make_room (fuel : nat) (l : Log) (mem : Z) (maybe_truncate_to : LogIdx)
  : option (Log * bool) :=
  match fuel with
  | O => None
  | S fuel' =>
      if max_bytes_ l <? curr_bytes_ l ⊕ mem then
        match RemoveOldestLogOlderThan l maybe_truncate_to with
        | Some (l', true) => append_make_room fuel' l' mem maybe_truncate_to
        | Some (l', false) => Some (l', false)
        | None => None
        end
      else Some (l, true)
  end.

Definition INT_MAX : Z := 2 ^ 31 - 1.

Definition Append (l : Log) (log : LogEntry) (maybe_truncate_to : LogIdx)
  : option (Log * Error) :=
  if entry_term log =? 0 then Some (l, Raft_AppendWithoutTerm)
  else if negb (Zlen (hash_chain log) =? 32) then Some (l, Raft_NoHashChainInAppend)
  else
    let mem := logentry_bytes_in_log log in
    match append_make_room (S (length (entries_ l))) l mem maybe_truncate_to with
    | None => None
    | Some (l1, false) => Some (l1, Raft_LogOutOfSpace)
    | Some (l1, true) =>
        if INT_MAX <? ByteSizeLong log then Some (l1, Raft_LogEntryTooLarge)
        else Some ({| l1 with entries_ := entries_ l1 ++ [log];
                              curr_bytes_ := curr_bytes_ l1 ⊕ mem |}, OK)
    end.

(** The loop of [MostRecentHash]: the hash copied to [out], if any. *)
Fixpoint most_recent_hash_from (fuel : nat) (l : Log) (di : Z) : option bytes :=
  match fuel with
  | O => None
  | S fuel' =>
      match iter_Entry l di with
      | None => None
      | Some e =>
          if Zlen (hash_chain e) =? 32 then Some (hash_chain e)
          else most_recent_hash_from fuel' l (iter_Prev l di)
      end
  end.
Definition MostRecentHash (l : Log) : option bytes :=
  most_recent_hash_from (S (length (entries_ l))) l (At l (last_idx l)).

Definition SetNextIdx (l : Log) (idx : LogIdx) : Log * Error :=
  if negb (Zlen (entries_ l) =? 0) then (l, Raft_SetNextOnNonemptyLog)
  else ({| l with oldest_stored_idx_ := idx |}, OK).

End ops.

(** ** Abstract view and well-formedness *)

(** The entry stored at index [idx]. *)
Definition log_at (l : Log) (idx : LogIdx) : option LogEntry :=
  if idx <? oldest_stored_idx_ l then None
  else entries_ l !! Z.to_nat (idx - oldest_stored_idx_ l).

(** What [Append] demands of an entry. *)
Definition entry_ok (e : LogEntry) : Prop := entry_term e <> 0 /\ length (hash_chain e) = 32%nat.

(** Indices start at 1, stay below [2^64], and an empty log starts at 1. *)
Record log_ok (l : Log) : Prop := {
  log_ok_oldest : 1 <= oldest_stored_idx_ l;
  log_ok_room : oldest_stored_idx_ l + Zlen (entries_ l) < 2 ^ 64;
  log_ok_empty : entries_ l = [] -> oldest_stored_idx_ l = 1;
  log_ok_entries : Forall entry_ok (entries_ l) }.

Section view.
Context `{RaftPlatform}.
Implicit Types l : Log.

Lemma last_idx_eq l :
  log_ok l -> last_idx l = oldest_stored_idx_ l + Zlen (entries_ l) - 1.
Proof.
  intros [Ho Hr He _]. unfold last_idx.
  destruct (Zlen (entries_ l) =? 0) eqn:E.
  - assert (entries_ l = []) as Hn by (apply Zlen_zero; lia).
    specialize (He Hn). lia.
  - pose proof (Zlen_nonneg (entries_ l)). ulia.
Qed.

Lemma last_idx_range l : log_ok l -> 0 <= last_idx l < 2 ^ 64 - 1.
Proof.
  intros Hl. rewrite last_idx_eq by done. destruct Hl.
  pose proof (Zlen_nonneg (entries_ l)). lia.
Qed.

Lemma next_idx_eq l : log_ok l -> next_idx l = last_idx l + 1.
Proof. intros Hl. unfold next_idx. pose proof (last_idx_range l Hl). ulia. Qed.

Lemma oldest_le_next l : log_ok l -> 1 <= oldest_stored_idx_ l <= last_idx l + 1.
Proof.
  intros Hl. rewrite last_idx_eq by done. destruct Hl.
  pose proof (Zlen_nonneg (entries_ l)). lia.
Qed.

(** The iterator at an index dereferences to the abstract view. *)
Lemma iter_Entry_At l idx :
  log_ok l -> is_u64 idx -> iter_Entry l (At l idx) = log_at l idx.
Proof.
  intros [Ho Hr _ _] Hi. unfold iter_Entry, iter_Valid, At, log_at.
  destruct (idx <? oldest_stored_idx_ l) eqn:E; [by rewrite Z.ltb_irrefl|].
  nowrap. destruct (idx - oldest_stored_idx_ l <? Zlen (entries_ l)) eqn:E2; [done|].
  symmetry. apply lookup_ge_None. unfold Zlen in E2. lia.
Qed.

Lemma iter_Valid_At l idx :
  log_ok l -> is_u64 idx -> iter_Valid l (At l idx) = bool_decide (is_Some (log_at l idx)).
Proof.
  intros Hl Hi. rewrite <- iter_Entry_At by done. unfold iter_Entry.
  destruct (iter_Valid l (At l idx)) eqn:E; [|by rewrite bool_decide_eq_false_2; [|intros []]].
  rewrite bool_decide_eq_true_2; [done|]. apply lookup_lt_is_Some.
  unfold iter_Valid, Zlen in E. unfold At in *.
  destruct (idx <? oldest_stored_idx_ l); [unfold Zlen in *; lia|].
  pose proof (u64_range (idx - oldest_stored_idx_ l)). ulia.
Qed.

Lemma iter_Term_At l idx :
  log_ok l -> is_u64 idx ->
  iter_Term l (At l idx) = match log_at l idx with Some e => entry_term e | None => 0 end.
Proof. intros. unfold iter_Term. by rewrite iter_Entry_At. Qed.

Lemma log_at_is_Some l idx :
  log_ok l -> is_Some (log_at l idx) <-> oldest_stored_idx_ l <= idx <= last_idx l.
Proof.
  intros Hl. rewrite last_idx_eq by done. unfold log_at.
  destruct (idx <? oldest_stored_idx_ l) eqn:E.
  - split; [by intros []|lia].
  - rewrite lookup_lt_is_Some. unfold Zlen. lia.
Qed.

Lemma log_at_None l idx :
  log_ok l -> log_at l idx = None <-> (idx < oldest_stored_idx_ l \/ last_idx l < idx).
Proof.
  intros Hl. rewrite eq_None_not_Some, log_at_is_Some by done. lia.
Qed.

Lemma log_at_elem l idx e : log_at l idx = Some e -> e ∈ entries_ l.
Proof.
  unfold log_at. destruct (idx <? oldest_stored_idx_ l); [done|]. apply list_elem_of_lookup_2.
Qed.

Lemma log_at_ok l idx e : log_ok l -> log_at l idx = Some e -> entry_ok e.
Proof. intros Hl He%log_at_elem. by apply (proj1 (Forall_forall _ _) (log_ok_entries _ Hl)). Qed.

Lemma last_term_eq l :
  log_ok l -> last_term l = match log_at l (last_idx l) with Some e => entry_term e | None => 0 end.
Proof.
  intros Hl. pose proof (last_idx_range l Hl). unfold last_term.
  destruct (Zlen (entries_ l) =? 0) eqn:E.
  - destruct (log_at l (last_idx l)) eqn:Ha; [|done].
    apply log_at_elem in Ha. rewrite (proj1 (Zlen_zero (entries_ l))) in Ha by lia.
    by apply elem_of_nil in Ha.
  - by rewrite iter_Term_At by (done || ulia).
Qed.

Lemma MostRecentHash_eq l :
  log_ok l -> MostRecentHash l = hash_chain <$> log_at l (last_idx l).
Proof.
  intros Hl. pose proof (last_idx_range l Hl). unfold MostRecentHash. cbn -[At last_idx].
  rewrite iter_Entry_At by (done || ulia).
  destruct (log_at l (last_idx l)) as [e|] eqn:He; [|done].
  apply log_at_ok in He as [_ Hh]; [|done]. unfold Zlen. by rewrite Hh.
Qed.
End view.

#[export] Hint Resolve last_idx_range : svr.

(** ** The operations, on the view *)

Section specs.
Context `{RaftPlatform}.
Implicit Types l : Log.

(** Estimated bytes of a list of entries. *)
Definition bytes_of (es : list LogEntry) : Z :=
  foldr (fun e acc => logentry_bytes_in_log e + acc) 0 es.

Lemma logentry_bytes_range e : is_u64 (logentry_bytes_in_log e).
Proof. apply u64_range. Qed.

Lemma bytes_of_nonneg es : 0 <= bytes_of es.
Proof. induction es as [|e es IH]; simpl; [done|]. pose proof (logentry_bytes_range e). ulia. Qed.

Lemma bytes_of_app es fs : bytes_of (es ++ fs) = bytes_of es + bytes_of fs.
Proof. induction es as [|e es IH]; simpl; lia. Qed.

Lemma bytes_of_take es n : bytes_of (take n es) <= bytes_of es.
Proof.
  rewrite <- (take_drop n es) at 2. rewrite bytes_of_app.
  pose proof (bytes_of_nonneg (drop n es)). lia.
Qed.

(** [l'] is [l] without its [k] oldest entries. *)
Record truncated (k : nat) (l l' : Log) : Prop := {
  tr_le : (k <= length (entries_ l))%nat;
  tr_entries : entries_ l' = drop k (entries_ l);
  tr_oldest : oldest_stored_idx_ l' = oldest_stored_idx_ l + Z.of_nat k;
  tr_bytes : u64 (curr_bytes_ l') = curr_bytes_ l ⊖ bytes_of (take k (entries_ l));
  tr_u64 : is_u64 (curr_bytes_ l) -> is_u64 (curr_bytes_ l');
  tr_max : max_bytes_ l' = max_bytes_ l }.

Lemma truncated_0 l : truncated 0 l l.
Proof. split; simpl; rewrite ?drop_0, ?Z.sub_0_r; auto with lia. Qed.

Lemma u64_sub_sub a b c : u64 (u64 (a - b) - c) = u64 (a - (b + c)).
Proof. unfold u64. rewrite Zminus_mod_idemp_l. f_equal. lia. Qed.

Lemma truncated_S k l l' e es :
  entries_ l = e :: es -> 0 <= oldest_stored_idx_ l < 2 ^ 64 - 1 ->
  truncated k {| l with entries_ := es; oldest_stored_idx_ := oldest_stored_idx_ l ⊕ 1;
                        curr_bytes_ := curr_bytes_ l ⊖ logentry_bytes_in_log e |} l' ->
  truncated (S k) l l'.
Proof.
  intros He Ho [H1 H2 H3 H4 H5 H6]; simpl in *.
  split; rewrite ?He; simpl; [lia|done|..|done].
  - rewrite H3. ulia.
  - by rewrite H4, u64_sub_sub.
  - intros _. apply H5, u64_range.
Qed.

(** The truncation loop ends, drops a prefix of the log, never goes past
    [maybe_truncate_to], and stops as soon as the new entry fits. *)
Lemma append_make_room_spec fuel l mem t :
  (length (entries_ l) < fuel)%nat ->
  0 <= oldest_stored_idx_ l -> oldest_stored_idx_ l + Zlen (entries_ l) < 2 ^ 64 ->
  t <= oldest_stored_idx_ l + Zlen (entries_ l) ->
  exists k l' b, append_make_room fuel l mem t = Some (l', b) /\ truncated k l l' /\
    (k = 0%nat \/ oldest_stored_idx_ l' <= t) /\
    (b = true -> curr_bytes_ l' ⊕ mem <= max_bytes_ l) /\
    (b = false -> t <= oldest_stored_idx_ l' /\ max_bytes_ l < curr_bytes_ l' ⊕ mem).
Proof.
  revert l. induction fuel as [|fuel IH]; intros l Hf Ho Hr Ht; [lia|]. simpl.
  destruct (max_bytes_ l <? curr_bytes_ l ⊕ mem) eqn:E1; last first.
  { exists 0%nat, l, true. split_and!; auto using truncated_0; lia. }
  unfold RemoveOldestLogOlderThan.
  destruct (t <=? oldest_stored_idx_ l) eqn:E2.
  { exists 0%nat, l, false. split_and!; auto using truncated_0; lia. }
  destruct (entries_ l) as [|e es] eqn:He; [rewrite Zlen_nil in *; lia|].
  rewrite Zlen_cons in *. pose proof (Zlen_nonneg es).
  edestruct (IH {| l with entries_ := es; oldest_stored_idx_ := oldest_stored_idx_ l ⊕ 1;
                     curr_bytes_ := curr_bytes_ l ⊖ logentry_bytes_in_log e |})
    as (k & l' & b & Heq & Htr & Hk & Hb1 & Hb2); simpl in *; try ulia.
  exists (S k), l', b. split_and!; auto.
  - eapply truncated_S; eauto. lia.
  - right. destruct Hk as [->|Hk]; [|done].
    destruct Htr as [_ _ Hto _ _ _]; simpl in Hto. rewrite Hto. ulia.
Qed.

(** What a call of [Append] does to a well-formed log: drops a prefix that
    ends before [t], and adds the entry exactly when it returns [OK]. *)
Lemma Append_spec l e t :
  log_ok l -> t <= last_idx l + 1 ->
  exists k l1 l' err, Append l e t = Some (l', err) /\
    truncated k l l1 /\ (k = 0%nat \/ oldest_stored_idx_ l1 <= t) /\
    ((err = OK /\ entry_ok e /\
      curr_bytes_ l1 ⊕ logentry_bytes_in_log e <= max_bytes_ l /\
      l' = {| l1 with entries_ := entries_ l1 ++ [e];
                      curr_bytes_ := curr_bytes_ l1 ⊕ logentry_bytes_in_log e |})
     \/ (err <> OK /\ l' = l1)).
Proof.
  intros Hl Ht. rewrite last_idx_eq in Ht by done. destruct Hl as [Ho Hr _ _].
  unfold Append.
  destruct (entry_term e =? 0) eqn:E1.
  { exists 0%nat, l, l, Raft_AppendWithoutTerm. split_and!; auto using truncated_0. }
  destruct (negb (Zlen (hash_chain e) =? 32)) eqn:E2.
  { exists 0%nat, l, l, Raft_NoHashChainInAppend. split_and!; auto using truncated_0. }
  destruct (append_make_room_spec (S (length (entries_ l))) l (logentry_bytes_in_log e) t)
    as (k & l1 & b & -> & Htr & Hk & Hb1 & _); [lia..|].
  destruct b.
  2: { exists k, l1, l1, Raft_LogOutOfSpace. split_and!; auto. }
  destruct (INT_MAX <? ByteSizeLong e).
  { exists k, l1, l1, Raft_LogEntryTooLarge. split_and!; auto. }
  eexists k, l1, _, OK. split_and!; [done..|]. left. split_and!; auto.
  btrue. unfold entry_ok, Zlen in *. lia.
Qed.

Lemma truncated_ok k l l1 t :
  log_ok l -> truncated k l l1 -> (k = 0%nat \/ oldest_stored_idx_ l1 <= t) -> t <= last_idx l ->
  log_ok l1 /\ last_idx l1 = last_idx l /\
  oldest_stored_idx_ l <= oldest_stored_idx_ l1 <= Z.max (oldest_stored_idx_ l) t /\
  forall idx, oldest_stored_idx_ l1 <= idx -> log_at l1 idx = log_at l idx.
Proof.
  intros Hl Htr Hk Ht. pose proof (last_idx_eq l Hl) as Hlast.
  pose proof Hl as [Ho Hr He Hf]. destruct Htr as [H1 H2 H3 _ _ _].
  assert (Hlen : Zlen (entries_ l1) = Zlen (entries_ l) - Z.of_nat k)
    by (unfold Zlen; rewrite H2, length_drop; lia).
  assert (Hok : log_ok l1).
  { split; [lia|lia| |].
    - intros Hn. rewrite Hn, Zlen_nil in Hlen. destruct Hk as [->|Hk]; [|lia].
      rewrite H2, drop_0 in Hn. specialize (He Hn). lia.
    - rewrite H2. by apply Forall_drop. }
  split_and!; [done| |lia|lia|].
  - rewrite last_idx_eq by done. lia.
  - intros idx Hi. unfold log_at.
    rewrite (proj2 (Z.ltb_ge idx (oldest_stored_idx_ l1))),
      (proj2 (Z.ltb_ge idx (oldest_stored_idx_ l))) by lia.
    rewrite H2, lookup_drop. f_equal. lia.
Qed.

(** [Append] on the view. *)
Lemma Append_view l e t :
  log_ok l -> t <= last_idx l -> last_idx l + 2 < 2 ^ 64 ->
  exists l' err, Append l e t = Some (l', err) /\ log_ok l' /\
    oldest_stored_idx_ l <= oldest_stored_idx_ l' <= Z.max (oldest_stored_idx_ l) t /\
    (forall idx, oldest_stored_idx_ l' <= idx <= last_idx l -> log_at l' idx = log_at l idx) /\
    (if is_ok err then
       last_idx l' = last_idx l + 1 /\ log_at l' (last_idx l + 1) = Some e /\ entry_ok e
     else last_idx l' = last_idx l).
Proof.
  intros Hl Ht Hroom.
  destruct (Append_spec l e t Hl) as (k & l1 & l' & err & -> & Htr & Hk & Hcase); [lia|].
  destruct (truncated_ok k l l1 t Hl Htr Hk Ht) as (Hok1 & Hlast1 & Ho1 & Hview1).
  exists l', err. split; [done|].
  destruct Hcase as [(-> & He & _ & ->)|[Herr ->]]; last first.
  { rewrite is_ok_false by done.
    split_and!; auto; [lia..|]. intros; apply Hview1; lia. }
  pose proof Hok1 as [Ho Hr _ Hf].
  pose proof (Zlen_nonneg (entries_ l1)). pose proof (last_idx_eq l1 Hok1) as Hlast1'.
  assert (Hok : log_ok {| l1 with entries_ := entries_ l1 ++ [e];
                           curr_bytes_ := curr_bytes_ l1 ⊕ logentry_bytes_in_log e |}).
  { split; simpl; [lia| | |].
    - rewrite Zlen_app, Zlen_cons, Zlen_nil. lia.
    - intros Hn%(f_equal length). rewrite length_app in Hn. simpl in Hn. lia.
    - apply Forall_app. auto. }
  split; [done|]. split; [simpl; lia|]. split; [|simpl; split_and!; [| |done]].
  - intros idx Hi. simpl in Hi. rewrite <- Hview1 by lia. unfold log_at; simpl.
    rewrite (proj2 (Z.ltb_ge idx (oldest_stored_idx_ l1))) by lia.
    apply lookup_app_l. unfold Zlen in *. lia.
  - rewrite last_idx_eq by done. simpl. rewrite Zlen_app, Zlen_cons, Zlen_nil. lia.
  - unfold log_at; simpl.
    rewrite (proj2 (Z.ltb_ge (last_idx l + 1) (oldest_stored_idx_ l1))) by lia.
    apply list_lookup_middle. unfold Zlen in *. lia.
Qed.

(** [CancelFrom] of an index of the log, on the view. *)
Lemma CancelFrom_view l idx :
  log_ok l -> oldest_stored_idx_ l <= idx <= last_idx l ->
  (idx = oldest_stored_idx_ l -> idx = 1) ->
  exists l', CancelFrom l idx = (l', OK) /\ log_ok l' /\
    oldest_stored_idx_ l' = oldest_stored_idx_ l /\ last_idx l' = idx - 1 /\
    forall j, j < idx -> log_at l' j = log_at l j.
Proof.
  intros Hl Hi H1. pose proof (last_idx_eq l Hl) as Hlast. pose proof Hl as [Ho Hr He Hf].
  unfold CancelFrom. rewrite (proj2 (Z.ltb_ge _ _)) by lia.
  assert (Hres : resize (entries_ l) (Z.to_nat (idx ⊖ oldest_stored_idx_ l)) =
                 take (Z.to_nat (idx - oldest_stored_idx_ l)) (entries_ l)).
  { nowrap. unfold resize, Zlen in *.
    replace (_ - length _)%nat with 0%nat by lia. by rewrite app_nil_r. }
  rewrite Hres. eexists. split; [done|].
  assert (Hlen : Zlen (take (Z.to_nat (idx - oldest_stored_idx_ l)) (entries_ l)) =
                 idx - oldest_stored_idx_ l).
  { unfold Zlen in *. rewrite length_take. lia. }
  assert (Hok : log_ok {| l with entries_ :=
      take (Z.to_nat (idx - oldest_stored_idx_ l)) (entries_ l) |}).
  { split; simpl; [lia|lia| |by apply Forall_take].
    intros Hn. rewrite Hn, Zlen_nil in Hlen. lia. }
  split_and!; [done|done| |].
  - rewrite last_idx_eq by done. simpl. lia.
  - intros j Hj. unfold log_at; simpl.
    destruct (j <? oldest_stored_idx_ l) eqn:E; [done|]. apply lookup_take_lt. lia.
Qed.

(** ** Memory accounting *)

(** The estimate covers the stored entries and respects the limit. *)
Definition space_ok (l : Log) : Prop :=
  bytes_of (entries_ l) <= curr_bytes_ l <= max_bytes_ l /\ max_bytes_ l < 2 ^ 64.

Lemma Log_new_ok m : log_ok (Log_new m).
Proof. split; simpl; [lia|done|done|constructor]. Qed.

Lemma truncated_space k l l1 : space_ok l -> truncated k l l1 -> space_ok l1.
Proof.
  intros [[H1 H2] H3] [T1 T2 T3 T4 T5 T6]. unfold space_ok. rewrite T6, T2.
  pose proof (bytes_of_nonneg (entries_ l)).
  rewrite (u64_small (curr_bytes_ l1)) in T4 by (apply T5; ulia).
  pose proof (bytes_of_nonneg (take k (entries_ l))).
  pose proof (bytes_of_nonneg (drop k (entries_ l))).
  assert (bytes_of (entries_ l) = bytes_of (take k (entries_ l)) + bytes_of (drop k (entries_ l))).
  { by rewrite <- bytes_of_app, take_drop. }
  rewrite u64_small in T4 by ulia. lia.
Qed.

Lemma Append_space l e t l' err :
  log_ok l -> t <= last_idx l + 1 -> space_ok l ->
  max_bytes_ l + logentry_bytes_in_log e < 2 ^ 64 ->
  Append l e t = Some (l', err) -> space_ok l'.
Proof.
  intros Hl Ht Hs Hm Heq.
  destruct (Append_spec l e t Hl Ht) as (k & l1 & l2 & err2 & Heq2 & Htr & Hk & Hcase).
  rewrite Heq in Heq2. simplify_eq.
  pose proof (truncated_space k l l1 Hs Htr) as Hs1. pose proof (tr_max _ _ _ Htr) as Hmax.
  destruct Hcase as [(-> & _ & Hfit & ->)|[_ ->]]; [|done].
  destruct Hs1 as [[Hs1 Hs2] Hs3]. pose proof (bytes_of_nonneg (entries_ l1)).
  pose proof (logentry_bytes_range e) as Hr.
  unfold space_ok; simpl. rewrite bytes_of_app. simpl. unfold is_u64 in *.
  rewrite u64_small in Hfit |- * by (unfold is_u64; lia). lia.
Qed.

Lemma CancelFrom_space l idx :
  log_ok l -> oldest_stored_idx_ l <= idx <= last_idx l + 1 -> space_ok l ->
  space_ok (CancelFrom l idx).1.
Proof.
  intros Hl Hi [[H1 H2] H3]. rewrite last_idx_eq in Hi by done. destruct Hl as [Ho Hr _ _].
  unfold CancelFrom. rewrite (proj2 (Z.ltb_ge _ _)) by lia. unfold space_ok, resize; simpl.
  rewrite bytes_of_app. pose proof (bytes_of_take (entries_ l)
    (Z.to_nat (idx ⊖ oldest_stored_idx_ l))).
  replace (Z.to_nat _ - length _)%nat with 0%nat; [simpl; lia|].
  unfold Zlen in *. nowrap. lia.
Qed.
End specs.
