(* ===== verification/PeerId.v ===== *)
(** * Peer identifiers (peerid/peerid.h, peerid/peerid.cc)

    A [PeerID] holds 32 bytes; equality and order are those of
    [std::array<uint8_t, 32>], that is [key_lt] on lists. *)
From stdpp Require Import prelude.
From S2P Require Import Prelude Errors Containers RaftTypes.

Definition zero_id : PeerID := replicate 32 0.
(** [PeerID::PeerID()]. *)
Definition PeerID_default : PeerID := zero_id.

(** [FromString]: the object after the call, and the error. *)
Definition FromString (self : PeerID) (s : bytes) : PeerID * Error :=
  if negb (Zlen s =? Zlen self) then (self, Peers_InvalidID) else (s, OK).

Definition Valid (p : PeerID) : bool := negb (bool_decide (p = zero_id)).

(** [ToString]: [s->resize(32, 0)], then a copy of the 32 bytes. *)
Definition ToString (p : PeerID) : bytes := p.

(** The representation: a 32-byte array. *)
Definition peerid_ok (p : PeerID) : Prop := length p = 32%nat.

Lemma FromString_default s :
  FromString PeerID_default s =
  if bool_decide (length s = 32%nat) then (s, OK) else (PeerID_default, Peers_InvalidID).
Proof.
  unfold FromString, Zlen. case_bool_decide as E.
  - by rewrite E.
  - rewrite (proj2 (Z.eqb_neq _ _)); [done|]. simpl. lia.
Qed.
