(* ===== verification/Membership.v ===== *)
(** * Raft group membership (raft/membership.h, raft/membership.cc)

    The replicas of a group and those of them that vote, their encoding as a
    [ReplicaGroup], the changes a leader accepts, and the quorums of
    [Raft::quorum_size]. *)
From stdpp Require Import prelude gmap sorting.
From S2P Require Import Prelude Errors Containers RaftTypes PeerId.

Record Membership := { all_replicas_ : list PeerID; voting_replicas_ : list PeerID }.

Definition Membership_empty : Membership := {| all_replicas_ := []; voting_replicas_ := [] |}.

(** The loop of [FromProto] over [group.replicas()]. *)
Fixpoint FromProto_loop (out : Membership) (replicas : list Replica) : option Membership * Error :=
  match replicas with
  | [] => (Some out, OK)
  | replica :: rest =>
      let (p, peer_err) := FromString PeerID_default (replica_peer_id replica) in
      if negb (is_ok peer_err) then (None, peer_err)
      else if set_count (all_replicas_ out) p
      then (None, Membership_DuplicateReplicaInReplicaGroup)
      else
        let out := {| out with all_replicas_ := set_insert p (all_replicas_ out) |} in
        let out := if replica_voting replica
                   then {| out with voting_replicas_ := set_insert p (voting_replicas_ out) |}
                   else out in
        FromProto_loop out rest
  end.
Definition FromProto (group : ReplicaGroup) : option Membership * Error :=
  FromProto_loop Membership_empty group.

Definition First (me : PeerID) : Membership :=
  {| voting_replicas_ := set_insert me []; all_replicas_ := set_insert me [] |}.

(** [SetDiffSize]: both iterators as the rest of their sets.  Each turn
    advances one of them, so the sum of the lengths is enough fuel. *)
Fixpoint SetDiffSize_loop (fuel : nat) (a b : list PeerID) (out : Z) : Z :=
  match fuel with
  | O => out
  | S fuel' =>
      match a, b with
      | [], _ => out
      | _ :: a', [] => SetDiffSize_loop fuel' a' b (out + 1)
      | x :: a', y :: b' =>
          if key_lt x y then SetDiffSize_loop fuel' a' b (out + 1)
          else if key_lt y x then SetDiffSize_loop fuel' a b' out
          else SetDiffSize_loop fuel' a' b' out
      end
  end.
Definition SetDiffSize (a b : list PeerID) : Z :=
  SetDiffSize_loop (length a + length b) a b 0.

(** [std::set_difference] of two sorted ranges. *)
Definition set_difference (a b : list PeerID) : list PeerID :=
  List.filter (fun p => negb (set_count b p)) a.
#[global] Arguments set_difference : simpl never.

Definition ValidProgressionForLeader
    (leader : PeerID) (from to : Membership) (super_majority : Z) : Error :=
  if (super_majority <? Zlen (voting_replicas_ from)) &&
     (Zlen (voting_replicas_ to) <=? super_majority)
  then Membership_SuperMajorityLost else
  let voting_additions := SetDiffSize (voting_replicas_ to) (voting_replicas_ from) in
  let voting_removals := set_difference (voting_replicas_ from) (voting_replicas_ to) in
  let all_additions := SetDiffSize (all_replicas_ to) (all_replicas_ from) in
  let all_removals := set_difference (all_replicas_ from) (all_replicas_ to) in
  let all_changes :=
    voting_additions + Zlen voting_removals + all_additions + Zlen all_removals in
  if (Zlen (voting_replicas_ to) =? 0) || (Zlen (all_replicas_ to) =? 0)
  then Membership_EmptySet else
  if negb ((all_changes =? 2) && (Zlen voting_removals =? 1) && (Zlen all_removals =? 1) &&
           bool_decide (voting_removals !! 0%nat = all_removals !! 0%nat)) &&
     (1 <? all_changes)
  then Membership_TooManyMembershipChanges else
  if all_changes =? 0 then Membership_NoMembershipChanges else
  if negb (set_count (voting_replicas_ to) leader) then Membership_LeaderRemovedFromVoting else
  if negb (set_count (all_replicas_ to) leader) then Membership_LeaderRemovedFromAll else
  if negb (SetDiffSize (all_replicas_ to) (voting_replicas_ to) =?
           (Zlen (all_replicas_ to) ⊖ Zlen (voting_replicas_ to)))
  then Membership_VotingNotSubset else OK.

Definition AsProto (m : Membership) : ReplicaGroup :=
  (fun peer => {| replica_peer_id := ToString peer;
                  replica_voting := set_count (voting_replicas_ m) peer |}) <$> all_replicas_ m.

(** [Raft::quorum_size] (raft/raft.cc), on [size_t]. *)
Definition quorum_size (voting_replicas super_majority : Z) : Z :=
  Z.min voting_replicas (u64 (u64 (voting_replicas ⊖ super_majority) / 2 + 1 + super_majority)).

(** ** Well-formedness *)
Record membership_ok (m : Membership) : Prop := {
  mem_all_ok : set_ok (all_replicas_ m);
  mem_voting_ok : set_ok (voting_replicas_ m);
  mem_subset : voting_replicas_ m ⊆ all_replicas_ m;
  mem_ids : Forall peerid_ok (all_replicas_ m) }.

Lemma Membership_empty_ok : membership_ok Membership_empty.
Proof. split; simpl; [constructor..|set_solver|constructor]. Qed.

Lemma First_ok me : peerid_ok me -> membership_ok (First me).
Proof. intros. split; simpl; [repeat constructor..|done|by repeat constructor]. Qed.

Lemma membership_add_ok m p v :
  peerid_ok p -> membership_ok m ->
  membership_ok {| all_replicas_ := set_insert p (all_replicas_ m);
                   voting_replicas_ := if v : bool then set_insert p (voting_replicas_ m)
                                       else voting_replicas_ m |}.
Proof.
  intros Hp [H1 H2 H3 H4]. split; simpl.
  - by apply set_insert_ok.
  - destruct v; [by apply set_insert_ok|done].
  - intros q Hq. apply elem_of_set_insert. destruct v; [|auto].
    apply elem_of_set_insert in Hq as [->|?]; auto.
  - apply Forall_forall. intros q [->|Hq]%elem_of_set_insert; [done|].
    by apply (proj1 (Forall_forall _ _) H4).
Qed.

(** One turn of the loop of [FromProto]. *)
Lemma FromProto_loop_cons out r rest :
  FromProto_loop out (r :: rest) =
  if bool_decide (length (replica_peer_id r) = 32%nat) then
    if set_count (all_replicas_ out) (replica_peer_id r)
    then (None, Membership_DuplicateReplicaInReplicaGroup)
    else FromProto_loop
      {| all_replicas_ := set_insert (replica_peer_id r) (all_replicas_ out);
         voting_replicas_ := if replica_voting r
                             then set_insert (replica_peer_id r) (voting_replicas_ out)
                             else voting_replicas_ out |} rest
  else (None, Peers_InvalidID).
Proof.
  cbn -[FromString]. rewrite FromString_default. case_bool_decide; [|done]. simpl.
  destruct (set_count _ _); [done|]. by destruct (replica_voting r).
Qed.

Lemma FromProto_loop_ok g out m :
  membership_ok out -> FromProto_loop out g = (Some m, OK) -> membership_ok m.
Proof.
  revert out. induction g as [|r g IH]; intros out Hout; [by intros [= <-]|].
  rewrite FromProto_loop_cons. case_bool_decide as Hlen; [|done].
  destruct (set_count _ _); [done|]. apply IH. by apply membership_add_ok.
Qed.

Lemma FromProto_wf g m : FromProto g = (Some m, OK) -> membership_ok m.
Proof. apply FromProto_loop_ok, Membership_empty_ok. Qed.

Lemma FromProto_err_loop g out m e :
  FromProto_loop out g = (m, e) -> e = OK <-> is_Some m.
Proof.
  revert out. induction g as [|r g IH]; intros out.
  { intros [= <- <-]. split; eauto. }
  rewrite FromProto_loop_cons. case_bool_decide; [|intros [= <- <-]; split; [done|by intros []]].
  destruct (set_count _ _); [intros [= <- <-]; split; [done|by intros []]|]. apply IH.
Qed.

Lemma FromProto_err g m e : FromProto g = (m, e) -> e = OK <-> is_Some m.
Proof. apply FromProto_err_loop. Qed.

(** ** [FromProto] inverts [AsProto] *)
Lemma set_insert_snoc (s : list PeerID) p : set_ok (s ++ [p]) -> set_insert p s = s ++ [p].
Proof.
  unfold set_ok. induction s as [|q s IH]; simpl; [done|].
  intros [Hs Hall]%StronglySorted_inv. apply Forall_app in Hall as [_ [Hp _]%Forall_cons_1].
  unfold key_ltP in Hp. rewrite (key_asym q p) by done. rewrite Hp. by rewrite IH.
Qed.

(** Processing [todo] after the prefix [done] of the sorted set of replicas. *)
Lemma FromProto_AsProto_aux m todo pre :
  membership_ok m -> all_replicas_ m = pre ++ todo ->
  FromProto_loop {| all_replicas_ := pre;
                    voting_replicas_ := List.filter (set_count (voting_replicas_ m)) pre |}
    ((fun peer => {| replica_peer_id := ToString peer;
                     replica_voting := set_count (voting_replicas_ m) peer |}) <$> todo)
  = (Some {| all_replicas_ := all_replicas_ m;
             voting_replicas_ := List.filter (set_count (voting_replicas_ m)) (all_replicas_ m) |}, OK).
Proof.
  intros Hm. revert pre. induction todo as [|p todo IH]; intros pre Hall.
  { rewrite app_nil_r in Hall. by rewrite Hall. }
  rewrite fmap_cons, FromProto_loop_cons. cbn -[set_insert set_count].
  change (ToString p) with p.
  assert (Hp : peerid_ok p).
  { apply (proj1 (Forall_forall _ _) (mem_ids _ Hm)). rewrite Hall. set_solver. }
  rewrite bool_decide_eq_true_2 by done.
  assert (Hs : set_ok ((pre ++ [p]) ++ todo)) by (rewrite <- app_assoc; simpl;
    rewrite <- Hall; apply Hm).
  assert (Hpre : set_ok (pre ++ [p])) by (by eapply StronglySorted_app_1_l).
  assert (Hn : p ∉ pre) by (apply set_ok_NoDup, NoDup_app in Hpre as (_ & Hd & _); set_solver).
  rewrite (proj2 (set_count_false pre p)) by done.
  rewrite set_insert_snoc by done.
  specialize (IH (pre ++ [p])). rewrite <- app_assoc in IH. specialize (IH Hall).
  rewrite <- IH. f_equal. f_equal. rewrite List.filter_app. simpl.
  destruct (set_count (voting_replicas_ m) p); [|by rewrite app_nil_r].
  apply set_insert_snoc.
  replace (List.filter _ pre ++ [p]) with (List.filter (fun q => set_count (voting_replicas_ m) q || key_eq q p) (pre ++ [p])).
  { by apply StronglySorted_List_filter. }
  rewrite List.filter_app. simpl. rewrite key_eq_refl, orb_true_r. f_equal.
  apply List.filter_ext_in. intros q Hq%list_elem_of_In.
  rewrite key_eq_neq, orb_false_r; [done|]. by intros ->.
Qed.

Lemma voting_filter m :
  membership_ok m ->
  List.filter (set_count (voting_replicas_ m)) (all_replicas_ m) = voting_replicas_ m.
Proof.
  intros [H1 H2 H3 _]. apply set_ok_ext; [by apply StronglySorted_List_filter|done|].
  intros p. rewrite list_elem_of_In, filter_In, <- list_elem_of_In, set_count_spec. set_solver.
Qed.

(** ** [SetDiffSize] and [set_difference] *)
Lemma set_difference_nil b : set_difference [] b = [].
Proof. done. Qed.
Lemma set_difference_cons x a b :
  set_difference (x :: a) b = if set_count b x then set_difference a b else x :: set_difference a b.
Proof. unfold set_difference. simpl. by destruct (set_count b x). Qed.

Lemma elem_of_set_difference p a b : p ∈ set_difference a b <-> p ∈ a /\ p ∉ b.
Proof.
  unfold set_difference. rewrite list_elem_of_In, filter_In, <- list_elem_of_In, negb_true_iff.
  by rewrite set_count_false.
Qed.

Lemma set_difference_NoDup a b : NoDup a -> NoDup (set_difference a b).
Proof. intros Ha. apply NoDup_ListNoDup. apply List.NoDup_filter. by apply NoDup_ListNoDup. Qed.

Lemma set_difference_le a b : Zlen (set_difference a b) <= Zlen a.
Proof. unfold Zlen, set_difference. pose proof (List.filter_length_le (fun p => negb (set_count b p)) a). lia. Qed.

(** An element below the head of a set is not in it. *)
Lemma set_ok_below (x y : PeerID) s : set_ok (y :: s) -> key_lt x y = true -> x ∉ y :: s.
Proof.
  intros [_ Hall]%StronglySorted_inv Hxy Hin. rewrite Forall_forall in Hall.
  apply elem_of_cons in Hin as [->|Hin]; [by rewrite key_irrefl in Hxy|].
  specialize (Hall _ Hin). unfold key_ltP in Hall. rewrite (key_asym x y) in Hall; done.
Qed.

Lemma set_difference_skip y a b : y ∉ a -> set_difference a (y :: b) = set_difference a b.
Proof.
  intros Hy. unfold set_difference. apply List.filter_ext_in. intros p Hp%list_elem_of_In.
  f_equal. unfold set_count. simpl. rewrite key_eq_neq; [done|]. by intros ->.
Qed.

Lemma SetDiffSize_loop_spec fuel a b out :
  (length a + length b <= fuel)%nat -> set_ok a -> set_ok b ->
  SetDiffSize_loop fuel a b out = out + Zlen (set_difference a b).
Proof.
  revert a b out. induction fuel as [|fuel IH]; intros a b out Hf Ha Hb.
  { destruct a; [|simpl in Hf; lia]. simpl. rewrite set_difference_nil, Zlen_nil. lia. }
  destruct a as [|x a]; [simpl; rewrite set_difference_nil, Zlen_nil; lia|].
  assert (Ha' : set_ok a) by (by apply StronglySorted_inv in Ha as [? _]).
  destruct b as [|y b]; simpl in Hf |- *.
  { rewrite IH by (simpl; auto; lia).
    rewrite set_difference_cons. simpl. rewrite Zlen_cons. lia. }
  assert (Hb' : set_ok b) by (by apply StronglySorted_inv in Hb as [? _]).
  destruct (key_lt x y) eqn:E1; [|destruct (key_lt y x) eqn:E2].
  - rewrite IH by (simpl; auto; lia). rewrite set_difference_cons.
    rewrite (proj2 (set_count_false (y :: b) x)) by (by apply set_ok_below).
    rewrite Zlen_cons. lia.
  - rewrite IH by (simpl; auto; lia). f_equal. f_equal. symmetry.
    apply set_difference_skip. by apply set_ok_below.
  - assert (x = y) as <- by by apply key_total.
    rewrite IH by (simpl; auto; lia). f_equal. f_equal. symmetry.
    rewrite set_difference_cons, (proj2 (set_count_spec (x :: b) x)) by set_solver.
    apply set_difference_skip. apply set_ok_NoDup, NoDup_cons in Ha. tauto.
Qed.

Lemma SetDiffSize_eq a b : set_ok a -> set_ok b -> SetDiffSize a b = Zlen (set_difference a b).
Proof. intros. unfold SetDiffSize. by rewrite SetDiffSize_loop_spec. Qed.

(** Both sides count the union. *)
Lemma diff_length (a b : list PeerID) :
  NoDup a -> NoDup b ->
  Zlen a + Zlen (set_difference b a) = Zlen b + Zlen (set_difference a b).
Proof.
  intros Ha Hb. rewrite <- !Zlen_app. unfold Zlen. f_equal. apply Permutation_length.
  apply NoDup_Permutation.
  - apply NoDup_app. split_and!; [done| |by apply set_difference_NoDup].
    intros x Hx. rewrite elem_of_set_difference. tauto.
  - apply NoDup_app. split_and!; [done| |by apply set_difference_NoDup].
    intros x Hx. rewrite elem_of_set_difference. tauto.
  - intros x. rewrite !elem_of_app, !elem_of_set_difference.
    destruct (decide (x ∈ a)), (decide (x ∈ b)); tauto.
Qed.

(** ** Quorums *)
Lemma quorum_size_eq n s :
  0 <= n < 2 ^ 62 -> 0 <= s < 2 ^ 62 ->
  quorum_size n s = if n <=? s then n else Z.min n ((n - s) / 2 + 1 + s).
Proof.
  intros Hn Hs. unfold quorum_size, u64. rewrite Z.mod_mod by lia.
  destruct (n <=? s) eqn:E.
  - destruct (decide (n = s)) as [->|Hne].
    { rewrite Z.sub_diag, (Z.mod_small 0), Z.div_0_l, Z.mod_small by lia. lia. }
    assert ((n - s) mod 2 ^ 64 = n - s + 2 ^ 64) as ->.
    { symmetry. apply (Z.mod_unique_pos _ _ (-1)); lia. }
    assert (Hq : 2 ^ 62 <= (n - s + 2 ^ 64) / 2 < 2 ^ 63)
      by (Z.to_euclidean_division_equations; lia).
    rewrite Z.mod_small; lia.
  - assert (Hq : 0 <= (n - s) / 2 < 2 ^ 62) by (Z.to_euclidean_division_equations; lia).
    rewrite (Z.mod_small (n - s)), Z.mod_small; lia.
Qed.

Lemma quorum_size_bounds n s :
  1 <= n < 2 ^ 62 -> 0 <= s < 2 ^ 62 -> 1 <= quorum_size n s <= n.
Proof.
  intros Hn Hs. rewrite quorum_size_eq by lia. destruct (n <=? s) eqn:E; [lia|].
  Z.to_euclidean_division_equations; lia.
Qed.

(** Quorums of memberships that differ by at most one voter overlap. *)
Lemma quorum_sum n m s :
  1 <= n < 2 ^ 62 -> 1 <= m < 2 ^ 62 -> 0 <= s < 2 ^ 62 -> Z.abs (n - m) <= 1 ->
  Z.max n m < quorum_size n s + quorum_size m s.
Proof.
  intros Hn Hm Hs Hd. rewrite !quorum_size_eq by lia.
  destruct (n <=? s) eqn:E1, (m <=? s) eqn:E2; Z.to_euclidean_division_equations; lia.
Qed.

(** Two quorums of one membership share [super_majority + 1] members, or all. *)
Lemma quorum_overlap n s :
  1 <= n < 2 ^ 62 -> 0 <= s < 2 ^ 62 ->
  n + Z.min n (s + 1) <= 2 * quorum_size n s.
Proof.
  intros Hn Hs. rewrite quorum_size_eq by lia.
  destruct (n <=? s) eqn:E; Z.to_euclidean_division_equations; lia.
Qed.

Lemma quorums_meet (u q1 q2 : list PeerID) :
  NoDup u -> NoDup q1 -> NoDup q2 -> q1 ⊆ u -> q2 ⊆ u ->
  Zlen u < Zlen q1 + Zlen q2 -> exists p, p ∈ q1 /\ p ∈ q2.
Proof.
  intros Hu H1 H2 S1 S2 Hlt. pose proof (NoDup_inter_length q1 q2 u H1 H2 Hu S1 S2) as Hle.
  unfold Zlen in Hlt. destruct (filter (.∈ q2) q1) as [|p ps] eqn:E; [simpl in Hle; lia|].
  exists p. assert (p ∈ filter (.∈ q2) q1) as Hp by (rewrite E; left).
  apply list_elem_of_filter in Hp. tauto.
Qed.

(** ** Accepted changes *)

(** What [ValidProgressionForLeader] checks, on the sets. *)
Lemma ValidProgression_inv leader from to s :
  membership_ok from -> set_ok (all_replicas_ to) -> set_ok (voting_replicas_ to) ->
  ValidProgressionForLeader leader from to s = OK ->
  leader ∈ voting_replicas_ to /\ leader ∈ all_replicas_ to /\
  Zlen (set_difference (voting_replicas_ to) (voting_replicas_ from)) +
  Zlen (set_difference (voting_replicas_ from) (voting_replicas_ to)) <= 1 /\
  SetDiffSize (all_replicas_ to) (voting_replicas_ to) =
    (Zlen (all_replicas_ to) ⊖ Zlen (voting_replicas_ to)).
Proof.
  intros [Hfa Hfv _ _] Hta Htv. unfold ValidProgressionForLeader.
  rewrite (SetDiffSize_eq (voting_replicas_ to) (voting_replicas_ from)),
    (SetDiffSize_eq (all_replicas_ to) (all_replicas_ from)) by done.
  pose proof (Zlen_nonneg (set_difference (voting_replicas_ to) (voting_replicas_ from))).
  pose proof (Zlen_nonneg (set_difference (voting_replicas_ from) (voting_replicas_ to))).
  pose proof (Zlen_nonneg (set_difference (all_replicas_ to) (all_replicas_ from))).
  pose proof (Zlen_nonneg (set_difference (all_replicas_ from) (all_replicas_ to))).
  intros Hok.
  destruct (_ && _) in Hok; [done|]. destruct (_ || _) in Hok; [done|].
  destruct (negb _ && _) eqn:Emany in Hok; [done|].
  destruct (_ =? 0) in Hok; [done|].
  destruct (set_count (voting_replicas_ to) leader) eqn:E1; simpl in Hok; [|done].
  destruct (set_count (all_replicas_ to) leader) eqn:E2; simpl in Hok; [|done].
  destruct (_ =? _) eqn:E3 in Hok; simpl in Hok; [|done].
  apply set_count_spec in E1, E2. split_and!; [done|done| |lia].
  apply andb_false_iff in Emany as [Hn|Hn]; [|lia]. btrue. lia.
Qed.

(** The last check of [ValidProgressionForLeader] is set inclusion. *)
Lemma voting_subset_check a v :
  set_ok a -> set_ok v -> Zlen v < 2 ^ 63 -> Zlen a < 2 ^ 63 ->
  SetDiffSize a v = (Zlen a ⊖ Zlen v) -> v ⊆ a.
Proof.
  intros Ha Hv Hlv Hla. rewrite SetDiffSize_eq by done. intros Heq.
  pose proof (diff_length a v (set_ok_NoDup _ Ha) (set_ok_NoDup _ Hv)) as Hd.
  pose proof (Zlen_nonneg a). pose proof (Zlen_nonneg v).
  pose proof (Zlen_nonneg (set_difference v a)). pose proof (set_difference_le v a).
  assert (Zlen (set_difference v a) = 0) as Hz%Zlen_zero.
  { destruct (decide (Zlen v <= Zlen a)); [rewrite u64_small in Heq by ulia; lia|].
    assert (Zlen a ⊖ Zlen v = Zlen a - Zlen v + 2 ^ 64) as Hw.
    { symmetry. apply (Z.mod_unique_pos _ _ (-1)); lia. }
    lia. }
  intros p Hp. destruct (decide (p ∈ a)) as [|Hn]; [done|].
  assert (p ∈ set_difference v a) as Hin by (by apply elem_of_set_difference).
  rewrite Hz in Hin. by apply elem_of_nil in Hin.
Qed.

Lemma one_change_quorums_meet vf vt s q1 q2 :
  set_ok vf -> set_ok vt -> vf <> [] -> vt <> [] ->
  Zlen vf < 2 ^ 62 -> Zlen vt < 2 ^ 62 -> 0 <= s < 2 ^ 62 ->
  Zlen (set_difference vt vf) + Zlen (set_difference vf vt) <= 1 ->
  NoDup q1 -> q1 ⊆ vf -> quorum_size (Zlen vf) s <= Zlen q1 ->
  NoDup q2 -> q2 ⊆ vt -> quorum_size (Zlen vt) s <= Zlen q2 ->
  exists p, p ∈ q1 /\ p ∈ q2.
Proof.
  intros Hvf Hvt Hnf Hnt Hlf Hlt Hs Hch N1 S1 L1 N2 S2 L2.
  pose proof (diff_length vf vt (set_ok_NoDup _ Hvf) (set_ok_NoDup _ Hvt)) as Hd.
  pose proof (Zlen_pos vf Hnf). pose proof (Zlen_pos vt Hnt).
  pose proof (Zlen_nonneg (set_difference vt vf)). pose proof (Zlen_nonneg (set_difference vf vt)).
  pose proof (quorum_sum (Zlen vf) (Zlen vt) s) as Hq.
  assert (Hsub : forall a b : list PeerID, Zlen (set_difference a b) = 0 -> a ⊆ b).
  { intros a b Hz%Zlen_zero p Hp. destruct (decide (p ∈ b)) as [|Hn]; [done|].
    assert (p ∈ set_difference a b) as Hin by (by apply elem_of_set_difference).
    rewrite Hz in Hin. by apply elem_of_nil in Hin. }
  destruct (decide (Zlen (set_difference vt vf) = 0)) as [E|E].
  - apply (quorums_meet vf); [by apply set_ok_NoDup|done..| |lia].
    apply Hsub in E. set_solver.
  - apply (quorums_meet vt); [by apply set_ok_NoDup|done|done| |done|lia].
    assert (vf ⊆ vt) by (apply Hsub; lia). set_solver.
Qed.

Lemma FromProto_of_AsProto m : membership_ok m -> FromProto (AsProto m) = (Some m, OK).
Proof.
  intros Hm. unfold FromProto, AsProto.
  pose proof (FromProto_AsProto_aux m (all_replicas_ m) [] Hm eq_refl) as H.
  rewrite voting_filter in H by done. by destruct m.
Qed.

(** ** Properties *)

(** [Membership::FromProto] inverts [Membership::AsProto]: a membership
    sent to another replica as a [ReplicaGroup] is read back as itself. *)
Theorem FromProto_AsProto m : membership_ok m -> FromProto (AsProto m) = (Some m, OK).
Proof. apply FromProto_of_AsProto. Qed.

Definition example_peer (b : Z) : PeerID := b :: replicate 31 0.

Lemma FromProto_AsProto_witness :
  let m := {| all_replicas_ := [example_peer 1; example_peer 2; example_peer 7];
              voting_replicas_ := [example_peer 2] |} in
  FromProto (AsProto m) = (Some m, OK).
Proof.
  intros m. apply (FromProto_AsProto m). split; simpl.
  - repeat constructor.
  - repeat constructor.
  - set_solver.
  - repeat constructor.
Defined.

(** The two-iterator loop of [SetDiffSize] counts the elements of the
    difference of its two sets. *)
Theorem SetDiffSize_correct (a b : list PeerID) :
  set_ok a -> set_ok b ->
  SetDiffSize a b = Z.of_nat (size (list_to_set a ∖ list_to_set b : gset PeerID)).
Proof.
  intros Ha Hb. rewrite SetDiffSize_eq by done. unfold Zlen. f_equal.
  rewrite <- (size_list_to_set (C := gset PeerID) (set_difference a b))
    by (by apply set_difference_NoDup, set_ok_NoDup).
  f_equal. apply set_eq. intros p.
  rewrite elem_of_difference, !elem_of_list_to_set, elem_of_set_difference. done.
Qed.

Lemma SetDiffSize_correct_witness :
  SetDiffSize [example_peer 1; example_peer 3; example_peer 4] [example_peer 0; example_peer 3] = 2.
Proof.
  rewrite (SetDiffSize_correct [example_peer 1; example_peer 3; example_peer 4]
    [example_peer 0; example_peer 3]); [reflexivity|repeat constructor..].
Defined.

(** two quorums of one voting set, as [Raft::quorum_size] counts them,
    have at least [super_majority + 1] members in common, or are both the
    whole set; the unsigned wrap-around for groups smaller than
    [super_majority] does not break this. *)
Theorem quorums_overlap (v q1 q2 : list PeerID) (s : Z) :
  set_ok v -> 1 <= Zlen v < 2 ^ 62 -> 0 <= s < 2 ^ 62 ->
  NoDup q1 -> q1 ⊆ v -> quorum_size (Zlen v) s <= Zlen q1 ->
  NoDup q2 -> q2 ⊆ v -> quorum_size (Zlen v) s <= Zlen q2 ->
  Z.min (Zlen v) (s + 1) <= Zlen (filter (.∈ q2) q1).
Proof.
  intros Hv Hn Hs N1 S1 L1 N2 S2 L2.
  pose proof (NoDup_inter_length q1 q2 v N1 N2 (set_ok_NoDup _ Hv) S1 S2).
  pose proof (quorum_overlap (Zlen v) s Hn Hs). unfold Zlen in *. lia.
Qed.

Lemma quorums_overlap_witness :
  let v := example_peer <$> [1; 2; 3; 4; 5] in
  Z.min 5 2 <= Zlen (filter (.∈ example_peer <$> [2; 3; 4; 5]) (example_peer <$> [1; 2; 3; 4])).
Proof.
  intros v. apply (quorums_overlap v (example_peer <$> [1; 2; 3; 4])
    (example_peer <$> [2; 3; 4; 5]) 1);
    solve [repeat constructor | vm_compute; done | apply (bool_decide_unpack _); vm_compute; done
          | set_solver].
Defined.

(** a membership change that [ValidProgressionForLeader] accepts keeps
    the leader a voter, keeps voters among the replicas, and is safe: every
    quorum of the old voting set meets every quorum of the new one, so no two
    disjoint majorities exist across the change. *)
Theorem ValidProgression_quorums_meet leader from to s q1 q2 :
  membership_ok from -> set_ok (all_replicas_ to) -> set_ok (voting_replicas_ to) ->
  voting_replicas_ from <> [] ->
  Zlen (voting_replicas_ from) < 2 ^ 62 -> Zlen (voting_replicas_ to) < 2 ^ 62 ->
  Zlen (all_replicas_ to) < 2 ^ 62 -> 0 <= s < 2 ^ 62 ->
  ValidProgressionForLeader leader from to s = OK ->
  NoDup q1 -> q1 ⊆ voting_replicas_ from ->
  quorum_size (Zlen (voting_replicas_ from)) s <= Zlen q1 ->
  NoDup q2 -> q2 ⊆ voting_replicas_ to ->
  quorum_size (Zlen (voting_replicas_ to)) s <= Zlen q2 ->
  leader ∈ voting_replicas_ to /\ voting_replicas_ to ⊆ all_replicas_ to /\
  exists p, p ∈ q1 /\ p ∈ q2.
Proof.
  intros Hf Hta Htv Hne Hlf Hlt Hla Hs Hok N1 S1 L1 N2 S2 L2.
  destruct (ValidProgression_inv leader from to s Hf Hta Htv Hok) as (Hl & _ & Hch & Hsub).
  split; [done|]. split; [apply voting_subset_check; done || lia|].
  assert (voting_replicas_ to <> []) by (intros E; rewrite E in Hl; set_solver).
  apply (one_change_quorums_meet (voting_replicas_ from) (voting_replicas_ to) s);
    [by apply mem_voting_ok|done..].
Qed.

Lemma ValidProgression_quorums_meet_witness :
  let ps := example_peer in
  let from := {| all_replicas_ := [ps 1; ps 2; ps 3]; voting_replicas_ := [ps 1; ps 2] |} in
  let to := {| all_replicas_ := [ps 1; ps 2; ps 3]; voting_replicas_ := [ps 1; ps 2; ps 3] |} in
  ps 1 ∈ voting_replicas_ to /\ voting_replicas_ to ⊆ all_replicas_ to /\
  exists p, p ∈ [ps 1; ps 2] /\ p ∈ [ps 2; ps 3].
Proof.
  intros ps from to.
  apply (ValidProgression_quorums_meet (ps 1) from to 0 [ps 1; ps 2] [ps 2; ps 3]);
    try solve [repeat constructor | done | vm_compute; done
              | apply (bool_decide_unpack _); vm_compute; done | simpl; set_solver].
  split; simpl; solve [repeat constructor | set_solver].
Defined.
