(* ===== verification/Merkle.v ===== *)
(** * The Merkle tree (merkle/merkle.h, merkle/merkle.cc)

    The tree is a heap of nodes linked by parent pointers; a part's hash is
    stored in a slot of its parent, reached through its hash pointer.  The
    state is explicit: a map from addresses to nodes, one to leaves, and the
    fields of [Tree].  Following a pointer that does not exist is [None], like
    a failed [CHECK].

    The interface other components use is [MerkleOps] with its contract
    [MerkleSpec]: a leaf is a cell of a finite map from leaves to hashes, and
    [Verify] compares with that cell. *)
From stdpp Require Import prelude gmap.
From S2P Require Import Prelude Errors Util.

Notation Hash := bytes.
Definition MERKLE_HASH_SIZE : nat := 8.
Definition MERKLE_NODE_SIZE : nat := 5.
Definition zero_hash : Hash := replicate MERKLE_HASH_SIZE 0.

(** ** Interface *)
Class MerkleOps (T L : Type) := {
  leaf_new : T -> option (T * L);
  leaf_update : T -> L -> Hash -> option T;
  leaf_verify : T -> L -> Hash -> option Error;
  leaf_move : T -> L -> option (T * L);
  leaf_drop : T -> L -> option T }.

(** The contract.  [tree_ok P t]: [t] is well formed and the leaves of [P]
    have been created but not yet updated.  [tree_view t]: the hash of every
    live leaf. *)
Class MerkleSpec (T L : Type) `{EqDecision L, Countable L} `{MerkleOps T L} := {
  tree_ok : gset L -> T -> Prop;
  tree_view : T -> gmap L Hash;
  leaf_new_spec : forall P t, tree_ok P t ->
    exists t' l, leaf_new t = Some (t', l) /\ tree_view t !! l = None /\
      tree_ok ({[l]} ∪ P) t' /\ tree_view t' = <[l := zero_hash]> (tree_view t);
  leaf_update_spec : forall P t l h0 h, tree_ok P t -> tree_view t !! l = Some h0 ->
    exists t', leaf_update t l h = Some t' /\
      tree_ok (P ∖ {[l]}) t' /\ tree_view t' = <[l := h]> (tree_view t);
  leaf_verify_spec : forall t l h0 h, tree_ok ∅ t -> tree_view t !! l = Some h0 ->
    leaf_verify t l h = Some (if bool_decide (h = h0) then OK else Merkle_VerifyLeaf);
  leaf_move_spec : forall P t l h0, tree_ok P t -> tree_view t !! l = Some h0 -> l ∉ P ->
    exists t' l', leaf_move t l = Some (t', l') /\ tree_view t !! l' = None /\
      tree_ok P t' /\ tree_view t' = <[l' := h0]> (delete l (tree_view t));
  leaf_drop_spec : forall P t l h0, tree_ok P t -> tree_view t !! l = Some h0 -> l ∉ P ->
    exists t', leaf_drop t l = Some t' /\
      tree_ok P t' /\ tree_view t' = delete l (tree_view t) }.

(** SipHash-2-4 with an 8-byte output (third-party), under the random key
    that is fixed for the life of the process. *)
Class SipHash := { sip_hash8 : bytes -> Hash }.

(** ** Data *)

(** [Part*]: a node or a leaf, by its address. *)
Inductive Part := PNode (a : nat) | PLeaf (l : nat).
#[export] Instance Part_eq_dec : EqDecision Part.
Proof. solve_decision. Defined.

(** [Hash*]: [&tree->roothash_] or [&node->hashes_[i]]. *)
Inductive HashPtr := HRoot | HSlot (n i : nat).

Record Node := {
  n_parent : option nat;
  n_hptr : HashPtr;
  children_ : list (option Part);
  hashes_ : list Hash;
  flag_ROOT : bool;
  flag_CURR : bool }.

(** A moved-from leaf has null pointers. *)
Record Leaf := { l_ptrs : option (nat * HashPtr) }.

Record Tree := {
  nodes : gmap nat Node;
  leaves : gmap nat Leaf;
  roothash_ : Hash;
  root_ : nat;
  curr_ : nat;
  next_addr : nat }.

Definition upd_node (t : Tree) (a : nat) (n : Node) : Tree :=
  {| t with nodes := <[a := n]> (nodes t) |}.
Definition set_next_addr (t : Tree) (a : nat) : Tree := {| t with next_addr := a |}.

(** [*hptr] and [*hptr = h]. *)
Definition load (t : Tree) (p : HashPtr) : option Hash :=
  match p with
  | HRoot => Some (roothash_ t)
  | HSlot a i => nd ← nodes t !! a; hashes_ nd !! i
  end.
Definition store (t : Tree) (p : HashPtr) (h : Hash) : option Tree :=
  match p with
  | HRoot => Some {| t with roothash_ := h |}
  | HSlot a i =>
      nd ← nodes t !! a; Some (upd_node t a {| nd with hashes_ := <[i := h]> (hashes_ nd) |})
  end.

Section ops.
Context `{SipHash}.

(** ** Nodes *)
Definition ComputeCurrent (n : Node) : Hash := sip_hash8 (concat (hashes_ n)).

(** [Node::Init]: no children, zero hashes, no flags. *)
Definition Node_Init (parent : option nat) (hptr : HashPtr) : Node := {|
  n_parent := parent; n_hptr := hptr;
  children_ := replicate MERKLE_NODE_SIZE None;
  hashes_ := replicate MERKLE_NODE_SIZE zero_hash;
  flag_ROOT := false; flag_CURR := false |}.

(** [Node::Update], recursive on the parent; the fuel bounds the height. *)
Fixpoint Node_Update (fuel : nat) (t : Tree) (a : nat) : option Tree :=
  match fuel with
  | O => None
  | S fuel' =>
      n ← nodes t !! a;
      t' ← store t (n_hptr n) (ComputeCurrent n);
      match n_parent n with
      | None => Some t'
      | Some p => Node_Update fuel' t' p
      end
  end.

(** The index of the first slot that satisfies the test of the [for] loop. *)
Definition find_slot (f : option Part -> bool) (n : Node) : option nat :=
  fst <$> list_find (fun c => f c = true) (children_ n).

Definition Parts (n : Node) : nat := length (List.filter (fun c => bool_decide (is_Some c)) (children_ n)).
Definition Full (n : Node) : bool := (Parts n =? MERKLE_NODE_SIZE)%nat.
Definition Empty (n : Node) : bool := (Parts n =? 0)%nat.

Definition Node_Remove (fuel : nat) (t : Tree) (a : nat) (part : Part) : option Tree :=
  n ← nodes t !! a;
  i ← find_slot (fun c => bool_decide (c = Some part)) n;
  let n' := {| n with children_ := <[i := None]> (children_ n);
                      hashes_ := <[i := zero_hash]> (hashes_ n) |} in
  Node_Update fuel (upd_node t a n') a.

Definition Node_Replace (t : Tree) (a : nat) (old new : Part) : option (Tree * HashPtr) :=
  n ← nodes t !! a;
  i ← find_slot (fun c => bool_decide (c = Some old)) n;
  Some (upd_node t a {| n with children_ := <[i := Some new]> (children_ n) |}, HSlot a i).

Definition Node_Insert (t : Tree) (a : nat) (part : Part) : option (Tree * HashPtr) :=
  n ← nodes t !! a;
  i ← find_slot (fun c => bool_decide (c = None)) n;
  Some (upd_node t a {| n with children_ := <[i := Some part]> (children_ n) |}, HSlot a i).

(** [new Node(parent)]: [Part(parent)] inserts the new node in its parent,
    then [Init] clears it. *)
Definition Node_new (t : Tree) (parent : nat) : option (Tree * nat) :=
  let a := next_addr t in
  '(t', hptr) ← Node_Insert t parent (PNode a);
  Some (set_next_addr (upd_node t' a (Node_Init (Some parent) hptr)) (S a), a).

(** ** [Tree::CurrentWithSpace] *)

(** The first [for] loop: from [curr_] up to a node with space or the root. *)
Fixpoint climb (fuel : nat) (t : Tree) (i : nat) (a : nat) : option (nat * nat) :=
  match fuel with
  | O => None
  | S fuel' =>
      n ← nodes t !! a;
      if negb (a =? root_ t)%nat && Full n then
        p ← n_parent n; climb fuel' t (S i) p
      else Some (i, a)
  end.

(** The branch for a full root. *)
Definition grow_root (t : Tree) : option (Tree * nat) :=
  let new_root := next_addr t in
  let old_root := root_ t in
  let t := set_next_addr (upd_node t new_root (Node_Init None HRoot)) (S new_root) in
  r ← nodes t !! old_root;
  let t := upd_node t old_root {| r with n_parent := Some new_root |} in
  '(t, hptr) ← Node_Insert t new_root (PNode old_root);
  r ← nodes t !! old_root;
  let t := upd_node t old_root {| r with n_hptr := hptr |} in
  t ← store t hptr (roothash_ t);
  r ← nodes t !! old_root;
  let t := upd_node t old_root {| r with flag_ROOT := false |} in
  let t := {| t with root_ := new_root |} in
  nr ← nodes t !! new_root;
  Some (upd_node t new_root {| nr with flag_ROOT := true |}, new_root).

(** The second [for] loop: a branch of [i] new nodes below [a]. *)
Fixpoint build_down (i : nat) (t : Tree) (a : nat) : option (Tree * nat) :=
  match i with
  | O => Some (t, a)
  | S i' => '(t', a') ← Node_new t a; build_down i' t' a'
  end.

Definition set_curr (t : Tree) (a : nat) : option Tree :=
  if (curr_ t =? a)%nat then Some t else
    c ← nodes t !! curr_ t;
    let t := upd_node t (curr_ t) {| c with flag_CURR := false |} in
    let t := {| t with curr_ := a |} in
    n ← nodes t !! a;
    Some (upd_node t a {| n with flag_CURR := true |}).

Definition CurrentWithSpace (t : Tree) : option (Tree * nat) :=
  '(i, a) ← climb (next_addr t) t 0 (curr_ t);
  n ← nodes t !! a;
  '(t, i, a) ← (if Full n then
                  CHECK (a =? root_ t)%nat ('(t', r) ← grow_root t; Some (t', S i, r))
                else Some (t, i, a));
  '(t, a) ← build_down i t a;
  t ← set_curr t a;
  Some (t, a).

(** ** Leaves *)

(** The constructor that adds a leaf to a tree. *)
Definition Leaf_new (t : Tree) : option (Tree * nat) :=
  '(t, a) ← CurrentWithSpace t;
  let l := next_addr t in
  '(t, hptr) ← Node_Insert t a (PLeaf l);
  Some ({| t with leaves := <[l := {| l_ptrs := Some (a, hptr) |}]> (leaves t);
                  next_addr := S l |}, l).

(** The move constructor. *)
Definition Leaf_move (t : Tree) (from : nat) : option (Tree * nat) :=
  let l := next_addr t in
  lf ← leaves t !! from;
  '(parent, _) ← l_ptrs lf;
  '(t, hptr) ← Node_Replace t parent (PLeaf from) (PLeaf l);
  Some ({| t with leaves := <[from := {| l_ptrs := None |}]>
                              (<[l := {| l_ptrs := Some (parent, hptr) |}]> (leaves t));
                  next_addr := S l |}, l).

Definition Leaf_Update (t : Tree) (l : nat) (new_hash : Hash) : option Tree :=
  lf ← leaves t !! l;
  '(parent, hptr) ← l_ptrs lf;
  t ← store t hptr new_hash;
  Node_Update (next_addr t) t parent.

(** The loop of [Leaf::Verify] over the ancestors. *)
Fixpoint verify_up (fuel : nat) (t : Tree) (a : nat) : option Error :=
  match fuel with
  | O => None
  | S fuel' =>
      n ← nodes t !! a;
      h ← load t (n_hptr n);
      if negb (ct_equals (ComputeCurrent n) h) then Some Merkle_VerifyNode
      else match n_parent n with
           | None => Some OK
           | Some p => verify_up fuel' t p
           end
  end.
Definition Leaf_Verify (t : Tree) (l : nat) (computed : Hash) : option Error :=
  lf ← leaves t !! l;
  '(parent, hptr) ← l_ptrs lf;
  h ← load t hptr;
  if negb (ct_equals computed h) then Some Merkle_VerifyLeaf
  else verify_up (next_addr t) t parent.

(** [Part::~Part]: leaves the parent, and deletes it when it is left empty
    and is neither root nor current. *)
Fixpoint Part_destroy (fuel : nat) (t : Tree) (part : Part) (parent : option nat) : option Tree :=
  match fuel with
  | O => None
  | S fuel' =>
      match parent with
      | None => Some t
      | Some p =>
          t ← Node_Remove (next_addr t) t p part;
          n ← nodes t !! p;
          if Empty n && negb (flag_ROOT n) && negb (flag_CURR n) then
            t ← Part_destroy fuel' t (PNode p) (n_parent n);
            Some {| t with nodes := delete p (nodes t) |}
          else Some t
      end
  end.

Definition Leaf_drop (t : Tree) (l : nat) : option Tree :=
  lf ← leaves t !! l;
  t ← Part_destroy (S (next_addr t)) t (PLeaf l) (fst <$> l_ptrs lf);
  Some {| t with leaves := delete l (leaves t) |}.

(** [Tree::Tree]. *)
Definition Tree_new : Tree :=
  let r := Node_Init None HRoot in
  let r := {| r with flag_ROOT := true; flag_CURR := true |} in
  {| nodes := {[0%nat := r]}; leaves := ∅; roothash_ := ComputeCurrent r;
     root_ := 0; curr_ := 0; next_addr := 1 |}.

#[global] Instance merkle_ops : MerkleOps Tree nat := {|
  leaf_new := Leaf_new; leaf_update := Leaf_Update; leaf_verify := Leaf_Verify;
  leaf_move := Leaf_move; leaf_drop := Leaf_drop |}.
End ops.
