(* ===== verification/MerkleProofs.v ===== *)
(** * The Merkle tree implements its contract

    [shape] is the structural invariant of the heap (parent and hash pointers
    agree with the children arrays, heights, flags); [hashes_ok D] says that
    every node outside [D] has its stored hash equal to the hash of its
    children.  The instance [merkle_spec] at the end discharges [MerkleSpec]. *)
From stdpp Require Import prelude gmap.
From S2P Require Import Prelude Errors Util Merkle.

(** The part in slot [i] of the node at [p]. *)
Definition slot (t : Tree) (p i : nat) : option Part :=
  n ← nodes t !! p; c ← children_ n !! i; c.

(** The pointers of a node. *)
Definition skel (n : Node) := (n_parent n, n_hptr n, children_ n).

(** The hashes of a node: five of them, zero where there is no child. *)
Record hashes_wf (n : Node) : Prop := {
  hw_children : length (children_ n) = MERKLE_NODE_SIZE;
  hw_hashes : length (hashes_ n) = MERKLE_NODE_SIZE;
  hw_zero : forall i, children_ n !! i = Some None -> hashes_ n !! i = Some zero_hash }.

Record shape (h : nat -> nat) (X : Part -> Prop) (t : Tree) : Prop := {
  sh_root : exists r, nodes t !! root_ t = Some r /\ n_parent r = None /\ n_hptr r = HRoot;
  sh_root_att : ~ X (PNode (root_ t));
  sh_curr : is_Some (nodes t !! curr_ t) /\ h (curr_ t) = 0%nat;
  sh_next : (h (root_ t) < next_addr t)%nat;
  sh_node : forall a n, nodes t !! a = Some n ->
    (a < next_addr t)%nat /\ (h a <= h (root_ t))%nat /\ hashes_wf n /\
    (flag_ROOT n = true <-> a = root_ t) /\ (flag_CURR n = true <-> a = curr_ t);
  sh_fresh : forall l lf, leaves t !! l = Some lf -> (l < next_addr t)%nat;
  sh_parent : forall a n, nodes t !! a = Some n -> a <> root_ t -> ~ X (PNode a) ->
    exists p i, n_parent n = Some p /\ n_hptr n = HSlot p i /\
      slot t p i = Some (PNode a) /\ h p = S (h a);
  sh_child_node : forall p i a, slot t p i = Some (PNode a) ->
    ~ X (PNode a) /\
    exists n, nodes t !! a = Some n /\ n_parent n = Some p /\ n_hptr n = HSlot p i;
  sh_child_leaf : forall p i l, slot t p i = Some (PLeaf l) ->
    ~ X (PLeaf l) /\ h p = 0%nat /\ leaves t !! l = Some {| l_ptrs := Some (p, HSlot p i) |};
  sh_leaf : forall l p hp, leaves t !! l = Some {| l_ptrs := Some (p, hp) |} -> ~ X (PLeaf l) ->
    exists i, hp = HSlot p i /\ slot t p i = Some (PLeaf l);
  sh_detached : forall a i, X (PNode a) -> slot t a i = None }.

(** [a] is [b] or above it. *)
Inductive anc (t : Tree) (a : nat) : nat -> Prop :=
  | anc_refl : anc t a a
  | anc_up b n p : nodes t !! b = Some n -> n_parent n = Some p -> anc t a p -> anc t a b.

Lemma sh_hashes h X t a n : shape h X t -> nodes t !! a = Some n -> hashes_wf n.
Proof. intros Hs Hn. by destruct (sh_node _ _ _ Hs _ _ Hn) as (_ & _ & ? & _). Qed.

Definition no_parts (_ : Part) : Prop := False.
Lemma not_no_parts c : ~ no_parts c.
Proof. auto. Qed.
#[local] Hint Resolve not_no_parts : core.

Lemma slot_Some t p i c :
  slot t p i = Some c <-> exists n, nodes t !! p = Some n /\ children_ n !! i = Some (Some c).
Proof.
  unfold slot. split.
  - intros (n & Hn & Hc)%bind_Some. apply bind_Some in Hc as (c' & Hc & ->). eauto.
  - intros (n & -> & Hc). simpl. by rewrite Hc.
Qed.

(** Two trees with the same pointers: they differ in hashes and flags. *)
Record same_skel (t t' : Tree) : Prop := {
  ss_nodes : forall a, skel <$> nodes t !! a = skel <$> nodes t' !! a;
  ss_leaves : leaves t' = leaves t;
  ss_root : root_ t' = root_ t;
  ss_next : next_addr t' = next_addr t }.

Lemma same_skel_refl t : same_skel t t.
Proof. by split. Qed.
Lemma same_skel_trans t1 t2 t3 : same_skel t1 t2 -> same_skel t2 t3 -> same_skel t1 t3.
Proof. intros [] []. split; congruence. Qed.

Section same_skel.
Context {t t' : Tree} (Hss : same_skel t t').

Lemma ss_lookup a n' :
  nodes t' !! a = Some n' -> exists n, nodes t !! a = Some n /\ skel n = skel n'.
Proof.
  intros Hn. pose proof (ss_nodes _ _ Hss a) as H. rewrite Hn in H.
  destruct (nodes t !! a) as [n|]; [|done]. exists n.
  split; [done|]. by apply (inj Some).
Qed.
Lemma ss_lookup_rev a n :
  nodes t !! a = Some n -> exists n', nodes t' !! a = Some n' /\ skel n = skel n'.
Proof.
  intros Hn. pose proof (ss_nodes _ _ Hss a) as H. rewrite Hn in H.
  destruct (nodes t' !! a) as [n'|]; [|done]. exists n'.
  split; [done|]. by apply (inj Some).
Qed.
Lemma ss_slot p i : slot t' p i = slot t p i.
Proof.
  unfold slot. pose proof (ss_nodes _ _ Hss p) as H.
  destruct (nodes t !! p) as [n|], (nodes t' !! p) as [n'|]; try done.
  apply (inj Some) in H. unfold skel in H. simpl in *. congruence.
Qed.
Lemma ss_anc a b : anc t a b <-> anc t' a b.
Proof.
  split; induction 1 as [|b n p Hn Hp _ IH]; try constructor.
  - destruct (ss_lookup_rev _ _ Hn) as (n' & Hn' & Hk). unfold skel in Hk.
    econstructor; eauto; congruence.
  - destruct (ss_lookup _ _ Hn) as (n' & Hn' & Hk). unfold skel in Hk.
    econstructor; eauto; congruence.
Qed.

Lemma shape_same_skel h X :
  shape h X t ->
  (forall a n, nodes t' !! a = Some n ->
     hashes_wf n /\ (flag_ROOT n = true <-> a = root_ t) /\ (flag_CURR n = true <-> a = curr_ t')) ->
  is_Some (nodes t !! curr_ t') -> h (curr_ t') = 0%nat -> shape h X t'.
Proof.
  intros Hs Hw [c Hc] Hch. split.
  - destruct (sh_root _ _ _ Hs) as (r & Hr & Hp & Hh). rewrite (ss_root _ _ Hss).
    destruct (ss_lookup_rev _ _ Hr) as (r' & Hr' & Hk). unfold skel in Hk.
    exists r'. split_and!; congruence.
  - rewrite (ss_root _ _ Hss). apply Hs.
  - destruct (ss_lookup_rev _ _ Hc) as (? & ? & ?). eauto.
  - rewrite (ss_root _ _ Hss), (ss_next _ _ Hss). apply Hs.
  - intros a n' Hn'. destruct (ss_lookup _ _ Hn') as (n & Hn & Hk).
    destruct (sh_node _ _ _ Hs _ _ Hn) as (H1 & H2 & _). destruct (Hw _ _ Hn') as (? & ? & ?).
    rewrite (ss_root _ _ Hss), (ss_next _ _ Hss). done.
  - rewrite (ss_leaves _ _ Hss), (ss_next _ _ Hss). apply Hs.
  - intros a n' Hn' Hr Hx. rewrite (ss_root _ _ Hss) in Hr.
    destruct (ss_lookup _ _ Hn') as (n & Hn & Hk).
    destruct (sh_parent _ _ _ Hs _ _ Hn Hr Hx) as (p & i & ? & ? & ? & ?).
    unfold skel in Hk. exists p, i. rewrite ss_slot. split_and!; congruence.
  - intros p i a. rewrite ss_slot. intros Hcn. apply Hs in Hcn as (Hx & n & Hn & ? & ?).
    destruct (ss_lookup_rev _ _ Hn) as (n' & Hn' & Hk). unfold skel in Hk.
    split; [done|]. exists n'. split_and!; congruence.
  - intros p i l. rewrite ss_slot, (ss_leaves _ _ Hss). apply Hs.
  - intros l p hp. rewrite (ss_leaves _ _ Hss). setoid_rewrite ss_slot. apply Hs.
  - intros a i Hx. rewrite ss_slot. by apply Hs.
Qed.

(** Ancestors, loads and leaves carry over. *)
Lemma ss_grows :
  (forall a n n', nodes t !! a = Some n -> nodes t' !! a = Some n' -> hashes_ n' = hashes_ n) ->
  forall p i v, load t (HSlot p i) = Some v -> load t' (HSlot p i) = Some v.
Proof.
  intros Hh p i v. simpl. intros (n & Hn & Hv)%bind_Some.
  destruct (ss_lookup_rev _ _ Hn) as (n' & Hn' & _). rewrite Hn'. simpl.
  by rewrite (Hh _ _ _ Hn Hn').
Qed.
End same_skel.

(** ** Hash consistency *)
Section hashes.
Context `{SipHash}.

Definition hashes_ok (D : nat -> Prop) (t : Tree) : Prop :=
  forall a n, nodes t !! a = Some n -> ~ D a -> load t (n_hptr n) = Some (ComputeCurrent n).

Lemma hashes_ok_weaken (D E : nat -> Prop) t :
  (forall a, D a -> E a) -> hashes_ok D t -> hashes_ok E t.
Proof. intros HDE Hok a n Hn HE. apply (Hok a n Hn). auto. Qed.

(** The slots that hold no node: [Node::Update] does not write them. *)
Definition same_leaf_slots (t t' : Tree) : Prop :=
  forall p i, (forall a, slot t p i <> Some (PNode a)) ->
    load t' (HSlot p i) = load t (HSlot p i).

Lemma load_upd_ne t p n q i :
  p <> q -> load (upd_node t p n) (HSlot q i) = load t (HSlot q i).
Proof. intros. simpl. by rewrite lookup_insert_ne. Qed.

Lemma skel_upd_same t p n n' a :
  nodes t !! p = Some n -> skel n = skel n' ->
  skel <$> nodes t !! a = skel <$> nodes (upd_node t p n') !! a.
Proof.
  intros Hn Hk. simpl. destruct (decide (a = p)) as [->|].
  - rewrite lookup_insert_eq, Hn. simpl. by rewrite Hk.
  - by rewrite lookup_insert_ne.
Qed.

(** Writing the hash of the child in slot [i]. *)
Lemma store_slot h X t p i nd (hv : Hash) :
  shape h X t -> nodes t !! p = Some nd -> (exists c, children_ nd !! i = Some (Some c)) ->
  exists t', store t (HSlot p i) hv = Some t' /\ same_skel t t' /\ shape h X t' /\
    t' = upd_node t p {| nd with hashes_ := <[i := hv]> (hashes_ nd) |}.
Proof.
  intros Hs Hnd [c Hc]. simpl. rewrite Hnd. simpl. eexists. split; [done|].
  assert (same_skel t (upd_node t p {| nd with hashes_ := <[i := hv]> (hashes_ nd) |})) as Hss.
  { split; try done. intros a. by apply (skel_upd_same t p nd). }
  split_and!; [done| |done]. destruct (sh_curr _ _ _ Hs) as [Hcu Hch].
  apply (shape_same_skel Hss _ _ Hs); [|done..].
  intros a n'. simpl. rewrite lookup_insert_Some. intros [[<- <-]|[_ Hn]].
  - destruct (sh_node _ _ _ Hs _ _ Hnd) as (_ & _ & [W1 W2 W3] & ? & ?).
    split_and!; [|done..]. split; simpl; [done|by rewrite length_insert|]. intros j Hj.
    rewrite list_lookup_insert_ne; [auto|]. intros <-. rewrite Hc in Hj. done.
  - destruct (sh_node _ _ _ Hs _ _ Hn) as (_ & _ & ? & ? & ?). done.
Qed.

(** One step of [Node::Update] at [a]: [a] becomes consistent, its parent may
    stop being so. *)
Lemma Update_step h X D t a n :
  shape h X t -> nodes t !! a = Some n -> ~ X (PNode a) -> (forall b, X (PNode b) -> D b) ->
  hashes_ok D t ->
  exists t', store t (n_hptr n) (ComputeCurrent n) = Some t' /\ same_skel t t' /\ shape h X t' /\
    same_leaf_slots t t' /\
    hashes_ok (fun b => D b /\ b <> a \/ n_parent n = Some b) t'.
Proof.
  intros Hs Hn Hx HXD Hok. destruct (decide (a = root_ t)) as [->|Hroot].
  - destruct (sh_root _ _ _ Hs) as (r & Hr & Hp & Hh). simplify_eq. rewrite Hh. simpl.
    assert (same_skel t {| t with roothash_ := ComputeCurrent n |}) as Hss by done.
    eexists. split_and!; [done|done| |done|].
    { destruct (sh_curr _ _ _ Hs) as [Hcu Hch]. apply (shape_same_skel Hss _ _ Hs); [|done..].
      intros b m Hm. destruct (sh_node _ _ _ Hs _ _ Hm) as (_ & _ & ? & ? & ?). done. }
    intros b m Hm Hnd. simpl in Hm. destruct (decide (b = root_ t)) as [->|Hb].
    { assert (m = n) as -> by congruence. by rewrite Hh. }
    assert (~ D b) as HD by tauto. specialize (Hok _ _ Hm HD).
    destruct (sh_parent _ _ _ Hs _ _ Hm Hb) as (p & i & _ & Hhp & _); [auto|].
    by rewrite Hhp in *.
  - destruct (sh_parent _ _ _ Hs _ _ Hn Hroot Hx) as (p & i & Hp & Hhp & Hsl & _).
    rewrite Hp, Hhp. pose proof Hsl as (nd & Hnd & Hc)%slot_Some.
    destruct (store_slot h X t p i nd (ComputeCurrent n) Hs Hnd (ex_intro _ _ Hc))
      as (t' & Hst & Hss & Hs' & Ht'). exists t'. split_and!; [done..| |].
    + intros q j Hq. rewrite Ht'. destruct (decide (p = q)) as [<-|]; [|by apply load_upd_ne].
      simpl. rewrite lookup_insert_eq, Hnd. simpl. apply list_lookup_insert_ne. intros ->.
      by apply (Hq a).
    + intros b m' Hm' HD.
      assert (p <> b) as Hpb by (intros ->; tauto).
      rewrite Ht' in Hm'. simpl in Hm'. rewrite lookup_insert_ne in Hm' by done.
      destruct (decide (b = a)) as [->|Hba].
      { assert (m' = n) as -> by congruence. rewrite Hhp, Ht'. simpl. rewrite lookup_insert_eq. simpl.
        apply list_lookup_insert_eq. destruct (sh_node _ _ _ Hs _ _ Hnd) as (_ & _ & [W1 W2 _] & _).
        apply lookup_lt_Some in Hc. lia. }
      assert (~ D b) as HDb by tauto. specialize (Hok _ _ Hm' HDb). rewrite <- Hok, Ht'.
      destruct (decide (b = root_ t)) as [->|Hbr].
      { destruct (sh_root _ _ _ Hs) as (r & Hr & _ & Hh).
        assert (m' = r) as -> by congruence. by rewrite Hh. }
      destruct (sh_parent _ _ _ Hs _ _ Hm' Hbr) as (q & j & _ & Hhq & Hslq & _); [auto|].
      rewrite Hhq. destruct (decide (p = q)) as [<-|]; [|by apply load_upd_ne].
      simpl. rewrite lookup_insert_eq, Hnd. simpl. apply list_lookup_insert_ne.
      intros <-. rewrite Hsl in Hslq. congruence.
Qed.

Lemma same_leaf_slots_trans t1 t2 t3 :
  same_skel t1 t2 -> same_leaf_slots t1 t2 -> same_leaf_slots t2 t3 -> same_leaf_slots t1 t3.
Proof.
  intros Hss H12 H23 p i Hp. rewrite (H23 p i), (H12 p i); [done|done|].
  intros a. rewrite (ss_slot Hss). auto.
Qed.

(** A node with a child in place is not detached. *)
Lemma attached_of_slot h X t p i c : shape h X t -> slot t p i = Some c -> ~ X (PNode p).
Proof. intros Hs Hsl Hx. rewrite (sh_detached _ _ _ Hs _ i Hx) in Hsl. done. Qed.

Lemma anc_parent t a n p b :
  nodes t !! a = Some n -> n_parent n = Some p -> (anc t b a <-> b = a \/ anc t b p).
Proof.
  intros Hn Hp. split.
  - inversion 1; simplify_eq; auto.
  - intros [->|Hb]; [constructor|by econstructor].
Qed.

(** [Node::Update] from [a] makes every node on the way up consistent. *)
Lemma Node_Update_spec h X D fuel t a :
  shape h X t -> is_Some (nodes t !! a) -> ~ X (PNode a) -> (forall b, X (PNode b) -> D b) ->
  (h (root_ t) - h a < fuel)%nat ->
  hashes_ok (fun b => D b \/ anc t b a) t ->
  exists t', Node_Update fuel t a = Some t' /\ same_skel t t' /\ shape h X t' /\
    same_leaf_slots t t' /\ hashes_ok (fun b => D b /\ ~ anc t b a) t'.
Proof.
  revert t a D. induction fuel as [|fuel IH]; intros t a D Hs [n Hn] Hx HXD Hf Hok; [lia|].
  simpl. rewrite Hn. simpl.
  destruct (Update_step h X (fun b => D b \/ anc t b a) t a n Hs Hn Hx)
    as (t1 & -> & Hss & Hs1 & Hsl1 & Hok1); [auto|done|]. simpl.
  destruct (n_parent n) as [p|] eqn:Hp.
  - assert (a <> root_ t) as Hroot.
    { intros ->. destruct (sh_root _ _ _ Hs) as (r & ? & ? & ?). simplify_eq. }
    destruct (sh_parent _ _ _ Hs _ _ Hn Hroot Hx) as (p' & i & Hp' & _ & Hsl & Hh).
    rewrite Hp in Hp'. simplify_eq.
    pose proof Hsl as (nd & Hnd & _)%slot_Some.
    destruct (sh_node _ _ _ Hs _ _ Hnd) as (_ & Hle & _).
    destruct (IH t1 p' (fun b => D b /\ b <> a)) as (t2 & -> & Hss2 & Hs2 & Hsl2 & Hok2).
    + done.
    + destruct (ss_lookup_rev Hss _ _ Hnd) as (? & ? & _). eauto.
    + exact (attached_of_slot _ _ _ _ _ _ Hs Hsl).
    + intros b Hb. split; [auto|]. by intros ->.
    + rewrite (ss_root _ _ Hss). lia.
    + eapply hashes_ok_weaken; [|exact Hok1]. intros b Hb. simpl in Hb.
      rewrite <- (ss_anc Hss). rewrite (anc_parent t a n p' b Hn Hp) in Hb.
      destruct Hb as [[[?|[?|?]] ?]|[= <-]]; try tauto. right. constructor.
    + exists t2. split_and!; [done|by eapply same_skel_trans|done|by eapply same_leaf_slots_trans|].
      eapply hashes_ok_weaken; [|exact Hok2]. intros b [[Hb1 Hb2] Hb3].
      rewrite <- (ss_anc Hss) in Hb3. rewrite (anc_parent t a n p' b Hn Hp). tauto.
  - exists t1. split_and!; [done..|]. eapply hashes_ok_weaken; [|exact Hok1].
    intros b [[[Hb|Hb] Hne]|Hb]; [| |done].
    + split; [done|]. inversion 1; simplify_eq.
    + exfalso. inversion Hb; simplify_eq.
Qed.
End hashes.

(** ** The contract's notions for this tree *)

(** [b] is on the way from leaf [l] to the root. *)
Definition above (t : Tree) (b l : nat) : Prop :=
  exists p hp, leaves t !! l = Some {| l_ptrs := Some (p, hp) |} /\ anc t b p.

Definition leaf_hash (t : Tree) (lf : Leaf) : option Hash :=
  '(_, hp) ← l_ptrs lf; load t hp.
Definition Tree_view (t : Tree) : gmap nat Hash := omap (leaf_hash t) (leaves t).

Section spec.
Context `{SipHash}.

Definition Tree_ok (P : gset nat) (t : Tree) : Prop :=
  exists h, shape h no_parts t /\ hashes_ok (fun b => exists l, l ∈ P /\ above t b l) t.

Lemma view_Some t l hv :
  Tree_view t !! l = Some hv <->
  exists p hp, leaves t !! l = Some {| l_ptrs := Some (p, hp) |} /\ load t hp = Some hv.
Proof.
  unfold Tree_view. rewrite lookup_omap. split.
  - intros ([[[p hp]|]] & Hl & Hh)%bind_Some; [|done]. eauto.
  - intros (p & hp & -> & Hh). done.
Qed.

(** Writing the hash of a leaf dirties its parent only. *)
Lemma store_leaf h X D t p i l hv :
  shape h X t -> slot t p i = Some (PLeaf l) -> (forall b, X (PNode b) -> D b) ->
  hashes_ok D t ->
  exists t', store t (HSlot p i) hv = Some t' /\ same_skel t t' /\ shape h X t' /\
    hashes_ok (fun b => D b \/ b = p) t' /\
    load t' (HSlot p i) = Some hv /\
    (forall q j, (q, j) <> (p, i) -> load t' (HSlot q j) = load t (HSlot q j)).
Proof.
  intros Hs Hsl HXD Hok. pose proof Hsl as (nd & Hnd & Hc)%slot_Some.
  destruct (store_slot h X t p i nd hv Hs Hnd (ex_intro _ _ Hc)) as (t' & Hst & Hss & Hs' & Ht').
  assert (Hother : forall q j, (q, j) <> (p, i) -> load t' (HSlot q j) = load t (HSlot q j)).
  { intros q j Hne. rewrite Ht'. destruct (decide (p = q)) as [<-|]; [|by apply load_upd_ne].
    simpl. rewrite lookup_insert_eq, Hnd. simpl. apply list_lookup_insert_ne. congruence. }
  exists t'. split_and!; [done..| | |done].
  - intros b m Hm HD. assert (p <> b) as Hpb by (intros ->; tauto).
    rewrite Ht' in Hm. simpl in Hm. rewrite lookup_insert_ne in Hm by done.
    rewrite <- (Hok b m Hm) by tauto.
    destruct (decide (b = root_ t)) as [->|Hbr].
    { destruct (sh_root _ _ _ Hs) as (r & Hr & _ & Hh).
      assert (m = r) as -> by congruence. rewrite Hh. simpl. by rewrite Ht'. }
    destruct (sh_parent _ _ _ Hs _ _ Hm Hbr) as (q & j & _ & Hhq & Hslq & _).
    { intros Hx. apply HXD in Hx. tauto. }
    rewrite Hhq. apply Hother. congruence.
  - rewrite Ht'. simpl. rewrite lookup_insert_eq. simpl. apply list_lookup_insert_eq.
    destruct (sh_hashes _ _ _ _ _ Hs Hnd) as [W1 W2 _]. apply lookup_lt_Some in Hc. lia.
Qed.

Lemma ss_above t t' b l : same_skel t t' -> above t b l <-> above t' b l.
Proof.
  intros Hss. unfold above. rewrite (ss_leaves _ _ Hss). by setoid_rewrite (ss_anc Hss).
Qed.

Lemma ss_view_lookup t t' l :
  same_skel t t' ->
  (forall p hp, leaves t !! l = Some {| l_ptrs := Some (p, hp) |} -> load t' hp = load t hp) ->
  Tree_view t' !! l = Tree_view t !! l.
Proof.
  intros Hss Hl. unfold Tree_view. rewrite !lookup_omap, (ss_leaves _ _ Hss).
  destruct (leaves t !! l) as [[[[p hp]|]]|] eqn:E; simpl; [|done..].
  unfold leaf_hash. simpl. by eapply Hl.
Qed.

(** The slot of a leaf survives [Node::Update]. *)
Lemma leaf_slot_kept h X t t' l p hp :
  shape h X t -> ~ X (PLeaf l) -> same_leaf_slots t t' ->
  leaves t !! l = Some {| l_ptrs := Some (p, hp) |} -> load t' hp = load t hp.
Proof.
  intros Hs Hx Hsl Hl. destruct (sh_leaf _ _ _ Hs _ _ _ Hl Hx) as (i & -> & Hi).
  apply Hsl. intros a. rewrite Hi. done.
Qed.

Lemma Leaf_Update_spec P t l h0 hv :
  Tree_ok P t -> Tree_view t !! l = Some h0 ->
  exists t', Leaf_Update t l hv = Some t' /\ Tree_ok (P ∖ {[l]}) t' /\
    Tree_view t' = <[l := hv]> (Tree_view t).
Proof.
  intros (h & Hs & Hok) (p & hp & Hl & _)%view_Some.
  unfold Leaf_Update. rewrite Hl. simpl.
  destruct (sh_leaf _ _ _ Hs _ _ _ Hl) as (i & -> & Hi); [done|].
  destruct (store_leaf h no_parts (fun b => exists l, l ∈ P /\ above t b l) t p i l hv Hs Hi)
    as (t1 & Hst & Hss & Hs1 & Hok1 & Hld & Hoth); [by intros ? []|exact Hok|].
  rewrite Hst. cbn -[store].
  pose proof Hi as (nd & Hnd & _)%slot_Some.
  destruct (Node_Update_spec h no_parts (fun b => exists l', l' ∈ P ∖ {[l]} /\ above t b l')
    (next_addr t1) t1 p) as (t2 & -> & Hss2 & Hs2 & Hsl2 & Hok2); [done| |done|by intros ? []| | |].
  - destruct (ss_lookup_rev Hss _ _ Hnd) as (? & ? & _). eauto.
  - pose proof (sh_next _ _ _ Hs1). lia.
  - eapply hashes_ok_weaken; [|exact Hok1]. intros b [(l' & Hl' & Hb)| ->].
    + destruct (decide (l' = l)) as [->|]; [|left; exists l'; set_solver].
      right. rewrite <- (ss_anc Hss). destruct Hb as (p' & hp' & Hl2 & Hb).
      rewrite Hl in Hl2. by simplify_eq.
    + right. constructor.
  - exists t2. assert (same_skel t t2) as Hss' by (by eapply same_skel_trans).
    split; [done|]. split.
    + exists h. split; [done|]. eapply hashes_ok_weaken; [|exact Hok2].
      intros b [(l' & Hl' & Hb) _]. exists l'. split; [done|]. by apply (ss_above _ _ _ _ Hss').
    + apply map_eq. intros l'. destruct (decide (l' = l)) as [->|Hne].
      * rewrite lookup_insert_eq. apply view_Some. exists p, (HSlot p i).
        rewrite (ss_leaves _ _ Hss'). split; [done|]. rewrite <- Hld.
        apply Hsl2. intros a. by rewrite (ss_slot Hss), Hi.
      * rewrite lookup_insert_ne by done. apply ss_view_lookup; [done|].
        intros q hq Hq. destruct (sh_leaf _ _ _ Hs _ _ _ Hq) as (j & -> & Hj); [done|].
        rewrite <- Hoth by congruence. apply Hsl2. intros a. by rewrite (ss_slot Hss), Hj.
Qed.

Lemma verify_up_spec h fuel t a :
  shape h no_parts t -> hashes_ok (fun _ => False) t -> is_Some (nodes t !! a) ->
  (h (root_ t) - h a < fuel)%nat -> verify_up fuel t a = Some OK.
Proof.
  intros Hs Hok. revert a. induction fuel as [|fuel IH]; intros a [n Hn] Hf; [lia|].
  simpl. rewrite Hn. simpl. rewrite (Hok a n Hn) by auto. simpl.
  rewrite ct_equals_eq, bool_decide_eq_true_2 by done. simpl.
  destruct (n_parent n) as [p|] eqn:Hp; [|done].
  assert (a <> root_ t) as Hroot.
  { intros ->. destruct (sh_root _ _ _ Hs) as (r & ? & ? & ?). simplify_eq. }
  destruct (sh_parent _ _ _ Hs _ _ Hn Hroot) as (p' & i & Hp' & _ & Hsl & Hh); [done|].
  rewrite Hp in Hp'. simplify_eq. pose proof Hsl as (nd & Hnd & _)%slot_Some.
  destruct (sh_node _ _ _ Hs _ _ Hnd) as (_ & Hle & _). apply IH; [eauto|lia].
Qed.

Lemma Leaf_Verify_spec t l h0 hv :
  Tree_ok ∅ t -> Tree_view t !! l = Some h0 ->
  Leaf_Verify t l hv = Some (if bool_decide (hv = h0) then OK else Merkle_VerifyLeaf).
Proof.
  intros (h & Hs & Hok) (p & hp & Hl & Hld)%view_Some.
  unfold Leaf_Verify. rewrite Hl. simpl. rewrite Hld. simpl.
  rewrite ct_equals_eq. case_bool_decide; simpl; [|done].
  destruct (sh_leaf _ _ _ Hs _ _ _ Hl) as (i & -> & Hi); [done|].
  pose proof Hi as (nd & Hnd & _)%slot_Some. apply (verify_up_spec h); [done| |eauto|].
  - eapply hashes_ok_weaken; [|exact Hok]. intros b (l' & Hl' & _). set_solver.
  - pose proof (sh_next _ _ _ Hs). lia.
Qed.

(** ** Growing the tree *)

Lemma find_slot_spec f n i :
  find_slot f n = Some i -> exists c, children_ n !! i = Some c /\ f c = true.
Proof.
  unfold find_slot. intros ([j c] & Hf & ->)%fmap_Some.
  apply list_find_Some in Hf as (Hc & Hfc & _). eauto.
Qed.

Lemma find_slot_ex f n i c :
  children_ n !! i = Some c -> f c = true -> exists j, find_slot f n = Some j.
Proof.
  intros Hc Hf. unfold find_slot.
  destruct (list_find_elem_of (fun c => f c = true) (children_ n) c) as [[j d] ->]; [|done|eauto].
  by apply list_elem_of_lookup_2 in Hc.
Qed.

Lemma not_Full_slot n :
  length (children_ n) = MERKLE_NODE_SIZE -> Full n = false ->
  exists i, find_slot (fun c => bool_decide (c = None)) n = Some i /\ children_ n !! i = Some None.
Proof.
  intros Hlen HF.
  assert (exists j, children_ n !! j = Some None) as [j Hj].
  { unfold Full, Parts in HF. rewrite <- Hlen in HF. apply Nat.eqb_neq in HF. clear Hlen.
    induction (children_ n) as [|[c|] cs IH]; simpl in *; [done| |by exists 0%nat].
    destruct IH as [j Hj]; [congruence|by exists (S j)]. }
  destruct (find_slot_ex (fun c => bool_decide (c = None)) n j None Hj) as [i Hi];
    [by apply bool_decide_eq_true|].
  exists i. split; [done|]. apply find_slot_spec in Hi as (c & Hc & Hd).
  apply bool_decide_eq_true in Hd as ->. done.
Qed.

Lemma slot_upd t p n q j :
  slot (upd_node t p n) q j =
  if decide (q = p) then (c ← children_ n !! j; c) else slot t q j.
Proof.
  unfold slot, upd_node. simpl. destruct (decide (q = p)) as [->|].
  - by rewrite lookup_insert_eq.
  - by rewrite lookup_insert_ne.
Qed.

(** Slots after a child was put into slot [i] of [p]. *)
Lemma slot_insert t p n i c q j :
  nodes t !! p = Some n -> (i < length (children_ n))%nat ->
  slot (upd_node t p {| n with children_ := <[i := c]> (children_ n) |}) q j =
  if decide ((q, j) = (p, i)) then c else slot t q j.
Proof.
  intros Hn Hi. rewrite slot_upd. unfold slot.
  destruct (decide (q = p)) as [->|], (decide ((_, j) = (p, i))); simplify_eq/=; [| |done].
  - by rewrite list_lookup_insert_eq.
  - rewrite Hn. simpl. rewrite list_lookup_insert_ne; [done|]. congruence.
Qed.

Definition upd_h (h : nat -> nat) (a k : nat) : nat -> nat := fun x => if decide (x = a) then k else h x.

Lemma upd_h_eq h a k : upd_h h a k a = k.
Proof. unfold upd_h. by rewrite decide_True. Qed.
Lemma upd_h_ne h a k x : x <> a -> upd_h h a k x = h x.
Proof. intros. unfold upd_h. by rewrite decide_False. Qed.

Lemma hashes_wf_insert n i c :
  hashes_wf n -> hashes_wf {| n with children_ := <[i := Some c]> (children_ n) |}.
Proof.
  intros [W1 W2 W3]. split; simpl; [by rewrite length_insert|done|].
  intros j Hj. apply W3. destruct (decide (i = j)) as [<-|].
  - destruct (decide (i < length (children_ n))%nat).
    + by rewrite list_lookup_insert_eq in Hj.
    + by rewrite list_insert_ge in Hj by lia.
  - by rewrite list_lookup_insert_ne in Hj.
Qed.

Lemma hashes_wf_Init p hp : hashes_wf (Node_Init p hp).
Proof.
  split; [done..|]. intros i.
  change (replicate MERKLE_NODE_SIZE (@None Part) !! i = Some None ->
          replicate MERKLE_NODE_SIZE zero_hash !! i = Some zero_hash).
  intros [_ Hi]%lookup_replicate. by apply lookup_replicate.
Qed.

Lemma Node_Init_slot p hp j : (c ← children_ (Node_Init p hp) !! j; c) = None.
Proof.
  change ((c ← replicate MERKLE_NODE_SIZE (@None Part) !! j; c) = None).
  destruct (replicate _ _ !! j) as [c|] eqn:E; [|done]. by apply lookup_replicate in E as [-> _].
Qed.

Lemma slot_fresh h X t a i : shape h X t -> (next_addr t <= a)%nat -> slot t a i = None.
Proof.
  intros Hs Ha. unfold slot. destruct (nodes t !! a) as [n|] eqn:Hn; [|done].
  destruct (sh_node _ _ _ Hs _ _ Hn). lia.
Qed.

(** [new Node(p)] with a free slot [i] in [p]. *)
Definition attach_node (t : Tree) (p i : nat) (n : Node) : Tree :=
  let a := next_addr t in
  set_next_addr (upd_node (upd_node t p {| n with children_ := <[i := Some (PNode a)]> (children_ n) |})
    a (Node_Init (Some p) (HSlot p i))) (S a).

Lemma attach_node_lookup t p i n b m :
  nodes t !! p = Some n -> nodes (attach_node t p i n) !! b = Some m ->
  (b = next_addr t /\ m = Node_Init (Some p) (HSlot p i)) \/
  (b <> next_addr t /\ exists m0, nodes t !! b = Some m0 /\
    n_parent m = n_parent m0 /\ n_hptr m = n_hptr m0 /\ hashes_ m = hashes_ m0 /\
    flag_ROOT m = flag_ROOT m0 /\ flag_CURR m = flag_CURR m0 /\ (hashes_wf m0 -> hashes_wf m)).
Proof.
  intros Hn. simpl. rewrite lookup_insert_Some. intros [[<- <-]|[Hb Hm]]; [by left|].
  right. split; [done|]. apply lookup_insert_Some in Hm as [[<- <-]|[_ Hm]]; [|eauto 10].
  exists n. split_and!; try done. apply hashes_wf_insert.
Qed.

Lemma attach_node_slot t p i n q j :
  nodes t !! p = Some n -> (i < length (children_ n))%nat -> p <> next_addr t ->
  (forall j, slot t (next_addr t) j = None) ->
  slot (attach_node t p i n) q j =
  if decide ((q, j) = (p, i)) then Some (PNode (next_addr t)) else slot t q j.
Proof.
  intros Hn Hi Hp Hfr. unfold attach_node.
  change (slot (set_next_addr ?t ?a)) with (slot t). rewrite slot_upd.
  destruct (decide (q = next_addr t)) as [->|].
  - rewrite decide_False by congruence. rewrite Hfr. apply Node_Init_slot.
  - by apply slot_insert.
Qed.

(** What every step that adds parts preserves. *)
Record grows (t t' : Tree) : Prop := {
  gr_load : forall p i v, load t (HSlot p i) = Some v -> load t' (HSlot p i) = Some v;
  gr_anc : forall b c, anc t b c -> anc t' b c;
  gr_leaves : leaves t' = leaves t }.

Lemma grows_refl t : grows t t.
Proof. by split. Qed.
Lemma grows_trans t1 t2 t3 : grows t1 t2 -> grows t2 t3 -> grows t1 t3.
Proof. intros [] []. split; [eauto..|congruence]. Qed.

(** A step that keeps parents keeps the ancestor relation. *)
Lemma anc_mono t t' b c :
  (forall a n p, nodes t !! a = Some n -> n_parent n = Some p ->
     exists n', nodes t' !! a = Some n' /\ n_parent n' = Some p) ->
  anc t b c -> anc t' b c.
Proof.
  intros Hmono. induction 1 as [|c n p Hn Hp _ IH]; [constructor|].
  destruct (Hmono _ _ _ Hn Hp) as (n' & ? & ?). by econstructor.
Qed.

Lemma attach_node_rev t p i n b m0 :
  nodes t !! p = Some n -> nodes t !! b = Some m0 -> b <> next_addr t ->
  exists m, nodes (attach_node t p i n) !! b = Some m /\ n_parent m = n_parent m0 /\
    n_hptr m = n_hptr m0 /\ hashes_ m = hashes_ m0.
Proof.
  intros Hn Hb Hne. simpl. rewrite lookup_insert_ne by done.
  destruct (decide (b = p)) as [->|].
  - rewrite lookup_insert_eq. simplify_eq. eauto.
  - rewrite lookup_insert_ne by done. eauto.
Qed.

Section attach.
Context {h : nat -> nat} {t : Tree} {p i k : nat} {n : Node}.
Context (Hs : shape h no_parts t) (Hn : nodes t !! p = Some n)
        (Hi : children_ n !! i = Some None) (Hh : h p = S k).
Local Notation a := (next_addr t).

Lemma att_ne b m : nodes t !! b = Some m -> b <> a.
Proof.
  intros Hb ->. destruct (sh_node _ _ _ Hs _ _ Hb) as [Hlt _]. by apply Nat.lt_irrefl in Hlt.
Qed.

Lemma att_slot q j :
  slot (attach_node t p i n) q j = if decide ((q, j) = (p, i)) then Some (PNode a) else slot t q j.
Proof.
  apply attach_node_slot; [done| |by eapply att_ne|].
  - by apply lookup_lt_Some in Hi.
  - intros j'. by eapply slot_fresh.
Qed.

Lemma att_slot_old q j c : slot t q j = Some c -> slot (attach_node t p i n) q j = Some c.
Proof.
  intros Hc. rewrite att_slot. rewrite decide_False; [done|]. intros [= -> ->].
  unfold slot in Hc. rewrite Hn in Hc. simpl in Hc. by rewrite Hi in Hc.
Qed.

Lemma attach_node_shape : shape (upd_h h a k) no_parts (attach_node t p i n).
Proof.
  destruct (sh_root _ _ _ Hs) as (r & Hr & Hrp & Hrh).
  destruct (sh_curr _ _ _ Hs) as ((c & Hc) & Hch).
  destruct (sh_node _ _ _ Hs _ _ Hn) as (Hpa & Hple & _).
  pose proof (att_ne _ _ Hr) as Hra. pose proof (att_ne _ _ Hc) as Hca.
  split.
  - destruct (attach_node_rev t p i n _ _ Hn Hr Hra) as (r' & ? & ? & ? & _).
    exists r'. change (root_ (attach_node t p i n)) with (root_ t). split_and!; congruence.
  - done.
  - destruct (attach_node_rev t p i n _ _ Hn Hc Hca) as (c' & ? & _).
    change (curr_ (attach_node t p i n)) with (curr_ t). rewrite upd_h_ne by done. eauto.
  - simpl. rewrite upd_h_ne by done. pose proof (sh_next _ _ _ Hs). lia.
  - intros b m Hm. simpl. rewrite (upd_h_ne _ _ _ (root_ t)) by done.
    destruct (attach_node_lookup t p i n b m Hn Hm)
      as [[-> ->]|(Hb & m0 & Hm0 & _ & _ & _ & Hf1 & Hf2 & Hw)].
    + rewrite upd_h_eq. split_and!; [lia|lia|apply hashes_wf_Init|..]; simpl; (split; [done|congruence]).
    + rewrite upd_h_ne by done. destruct (sh_node _ _ _ Hs _ _ Hm0) as (? & ? & ? & ? & ?).
      rewrite Hf1, Hf2. split_and!; auto; lia.
  - simpl. intros l lf Hl. apply (sh_fresh _ _ _ Hs) in Hl. lia.
  - intros b m Hm Hbr _. simpl in Hbr.
    destruct (attach_node_lookup t p i n b m Hn Hm)
      as [[-> ->]|(Hb & m0 & Hm0 & Hp0 & Hh0 & _)].
    + exists p, i. rewrite att_slot, decide_True, upd_h_eq by done.
      rewrite upd_h_ne by (by eapply att_ne). done.
    + destruct (sh_parent _ _ _ Hs _ _ Hm0 Hbr) as (q & j & ? & ? & Hsl & Hq); [done|].
      exists q, j. rewrite (att_slot_old _ _ _ Hsl). pose proof Hsl as (nq & Hnq & _)%slot_Some.
      rewrite !upd_h_ne by (done || by eapply att_ne). split_and!; congruence.
  - intros q j b. rewrite att_slot. destruct (decide _) as [[= -> ->]|Hne].
    + intros [= <-]. split; [done|]. exists (Node_Init (Some p) (HSlot p i)). simpl.
      by rewrite lookup_insert_eq.
    + intros (_ & m & Hm & ? & ?)%(sh_child_node _ _ _ Hs). split; [done|].
      destruct (attach_node_rev t p i n _ _ Hn Hm) as (m' & ? & ? & ? & _); [by eapply att_ne|].
      exists m'. split_and!; congruence.
  - intros q j l. rewrite att_slot. destruct (decide _) as [?|Hne]; [done|].
    intros Hsl. pose proof Hsl as (nq & Hnq & _)%slot_Some.
    apply (sh_child_leaf _ _ _ Hs) in Hsl as (_ & ? & ?).
    rewrite upd_h_ne by (by eapply att_ne). done.
  - intros l q hp Hl _. destruct (sh_leaf _ _ _ Hs _ _ _ Hl) as (j & -> & Hj); [done|].
    exists j. split; [done|]. by apply att_slot_old.
  - by intros b j [].
Qed.

Lemma attach_node_grows : grows t (attach_node t p i n).
Proof.
  split; [..|done].
  - intros q j v. simpl. intros (nq & Hq & Hv)%bind_Some.
    destruct (attach_node_rev t p i n _ _ Hn Hq) as (m' & Hm' & _ & _ & Hh'); [by eapply att_ne|].
    simpl in Hm'. rewrite Hm'. simpl. congruence.
  - intros b c. apply anc_mono. intros x nx q Hx Hq.
    destruct (attach_node_rev t p i n _ _ Hn Hx) as (m' & Hm' & ? & _); [by eapply att_ne|].
    exists m'. split; congruence.
Qed.

Lemma attach_node_hashes D :
  hashes_ok D t -> hashes_ok (fun b => D b \/ b = a) (attach_node t p i n).
Proof.
  intros Hok b m Hm HD.
  destruct (attach_node_lookup t p i n b m Hn Hm)
    as [[-> ->]|(Hb & m0 & Hm0 & _ & Hh0 & Hhs & _)]; [tauto|].
  assert (ComputeCurrent m = ComputeCurrent m0) as -> by (unfold ComputeCurrent; congruence).
  rewrite Hh0. assert (Hld : load t (n_hptr m0) = Some (ComputeCurrent m0)) by (apply (Hok _ _ Hm0); tauto).
  destruct (n_hptr m0) as [|q j]; [done|]. by apply attach_node_grows.
Qed.
End attach.

Lemma Node_new_eq t p n :
  nodes t !! p = Some n -> length (children_ n) = MERKLE_NODE_SIZE -> Full n = false ->
  exists i, children_ n !! i = Some None /\ Node_new t p = Some (attach_node t p i n, next_addr t).
Proof.
  intros Hn Hlen HF. destruct (not_Full_slot n Hlen HF) as (i & Hi & Hc).
  exists i. split; [done|]. unfold Node_new, Node_Insert. rewrite Hn. simpl. by rewrite Hi.
Qed.

(** The branch built below a node with space at height [i]. *)
Lemma build_down_spec i h D t a n :
  shape h no_parts t -> nodes t !! a = Some n -> Full n = false -> h a = i ->
  hashes_ok D t ->
  exists h' t' a' n', build_down i t a = Some (t', a') /\ shape h' no_parts t' /\ grows t t' /\
    nodes t' !! a' = Some n' /\ Full n' = false /\ h' a' = 0%nat /\ anc t' a a' /\
    hashes_ok (fun b => D b \/ anc t' b a') t'.
Proof.
  revert h D t a n. induction i as [|k IH]; intros h D t a n Hs Hn HF Hh Hok.
  { exists h, t, a, n. split_and!; auto using grows_refl; [constructor|].
    eapply hashes_ok_weaken; [|exact Hok]. auto. }
  destruct (Node_new_eq t a n Hn) as (i & Hi & Hnew); [by eapply sh_hashes|done|].
  simpl. rewrite Hnew. simpl.
  pose proof (attach_node_shape Hs Hn Hi Hh) as Hs1.
  pose proof (attach_node_grows (i := i) Hs Hn) as Hg1.
  assert (Hnew' : nodes (attach_node t a i n) !! next_addr t = Some (Node_Init (Some a) (HSlot a i))).
  { simpl. by rewrite lookup_insert_eq. }
  destruct (IH _ (fun b => D b \/ b = next_addr t) _ _ _ Hs1 Hnew')
    as (h' & t' & a' & n' & Hbd & Hs' & Hg' & Hn' & HF' & Hh' & Hanc & Hok'); [done| | |].
  { apply upd_h_eq. }
  { by apply (attach_node_hashes Hs Hn). }
  exists h', t', a', n'. split_and!; try done.
  - by eapply grows_trans.
  - (* the node [a] is the parent of the first new node *)
    clear -Hnew' Hg' Hanc. pose proof (gr_anc _ _ Hg' a (next_addr t)) as H1.
    assert (anc (attach_node t a i n) a (next_addr t)) as H2.
    { eapply anc_up; [exact Hnew'|done|constructor]. }
    specialize (H1 H2). clear -H1 Hanc. induction Hanc as [|b n0 p Hb Hp _ IH]; [done|].
    eapply anc_up; eauto.
  - eapply hashes_ok_weaken; [|exact Hok']. intros b [[Hb| ->]|Hb]; auto.
Qed.

(** Moving the [CURR] flag to a node of height 0. *)
Lemma set_curr_skel h t a n c :
  shape h no_parts t -> nodes t !! a = Some n -> nodes t !! curr_ t = Some c -> curr_ t <> a ->
  exists t', set_curr t a = Some t' /\ same_skel t t' /\ curr_ t' = a /\ roothash_ t' = roothash_ t /\
    forall b m m', nodes t !! b = Some m -> nodes t' !! b = Some m' ->
      hashes_ m' = hashes_ m /\ flag_ROOT m' = flag_ROOT m /\ (flag_CURR m' = true <-> b = a).
Proof.
  intros Hs Hn Hc Hne. unfold set_curr. rewrite (proj2 (Nat.eqb_neq _ _)), Hc by done. simpl.
  rewrite lookup_insert_ne, Hn by done. simpl. eexists. split; [done|]. split_and!; [|done|done|].
  - split; try done. intros b. simpl. destruct (decide (b = a)) as [->|].
    { by rewrite lookup_insert_eq, Hn. }
    rewrite lookup_insert_ne by done. destruct (decide (b = curr_ t)) as [->|].
    { by rewrite lookup_insert_eq, Hc. }
    by rewrite lookup_insert_ne.
  - intros b m m' Hm. simpl. rewrite lookup_insert_Some. intros [[<- <-]|[Hb Hm']].
    { simplify_eq. done. }
    apply lookup_insert_Some in Hm' as [[<- <-]|[Hb' Hm']]; [simplify_eq; done|].
    simplify_eq. destruct (sh_node _ _ _ Hs _ _ Hm) as (_ & _ & _ & _ & Hfl).
    split_and!; [done|done|]. split; [intros ?%Hfl; congruence|congruence].
Qed.

Lemma set_curr_spec h D t a :
  shape h no_parts t -> is_Some (nodes t !! a) -> h a = 0%nat -> hashes_ok D t ->
  exists t', set_curr t a = Some t' /\ same_skel t t' /\ shape h no_parts t' /\ grows t t' /\
    hashes_ok D t'.
Proof.
  intros Hs [n Hn] Hh Hok. destruct (decide (curr_ t = a)) as [E|Hne].
  { exists t. unfold set_curr. rewrite (proj2 (Nat.eqb_eq _ _)) by done.
    eauto using same_skel_refl, grows_refl. }
  destruct (sh_curr _ _ _ Hs) as ((c & Hc) & Hch).
  destruct (set_curr_skel h t a n c Hs Hn Hc Hne) as (t' & Heq & Hss & Hcu & Hrh & Hkeep).
  assert (Hload : forall p i v, load t (HSlot p i) = Some v -> load t' (HSlot p i) = Some v).
  { apply (ss_grows Hss). intros b m m' Hm Hm'. by destruct (Hkeep _ _ _ Hm Hm'). }
  exists t'. split_and!; [done|done| | |].
  - apply (shape_same_skel Hss _ _ Hs); [|rewrite Hcu; eauto|by rewrite Hcu].
    intros b m' Hm'. destruct (ss_lookup Hss _ _ Hm') as (m & Hm & Hk).
    destruct (Hkeep _ _ _ Hm Hm') as (Hhs & Hfr & Hfc). rewrite Hcu, Hfr.
    destruct (sh_node _ _ _ Hs _ _ Hm) as (_ & _ & [W1 W2 W3] & ? & _).
    assert (children_ m' = children_ m) as Hcm by (unfold skel in Hk; congruence).
    split_and!; [|done|done]. split; rewrite ?Hhs, ?Hcm; done.
  - split; [done| |by apply Hss]. intros b x. by apply (ss_anc Hss).
  - intros b m' Hm' HD. destruct (ss_lookup Hss _ _ Hm') as (m & Hm & Hk).
    destruct (Hkeep _ _ _ Hm Hm') as (Hhs & _ & _). unfold skel in Hk.
    assert (ComputeCurrent m' = ComputeCurrent m) as -> by (unfold ComputeCurrent; congruence).
    assert (n_hptr m' = n_hptr m) as -> by congruence.
    specialize (Hok _ _ Hm HD). destruct (n_hptr m) as [|q j]; [|by apply Hload].
    simpl in *. by rewrite Hrh.
Qed.

Lemma Node_Init_find p hp : find_slot (fun c => bool_decide (c = None)) (Node_Init p hp) = Some 0%nat.
Proof. done. Qed.

(** The new root and the old one after the root was full. *)
Definition new_root_node (old : nat) (rh : Hash) : Node := {|
  n_parent := None; n_hptr := HRoot;
  children_ := <[0%nat := Some (PNode old)]> (replicate MERKLE_NODE_SIZE None);
  hashes_ := <[0%nat := rh]> (replicate MERKLE_NODE_SIZE zero_hash);
  flag_ROOT := true; flag_CURR := false |}.
Definition old_root_node (r : Node) (new : nat) : Node :=
  {| r with n_parent := Some new; n_hptr := HSlot new 0; flag_ROOT := false |}.

Lemma grow_root_eq t r :
  nodes t !! root_ t = Some r -> root_ t <> next_addr t ->
  exists t', grow_root t = Some (t', next_addr t) /\
    nodes t' = <[next_addr t := new_root_node (root_ t) (roothash_ t)]>
                 (<[root_ t := old_root_node r (next_addr t)]> (nodes t)) /\
    leaves t' = leaves t /\ roothash_ t' = roothash_ t /\ root_ t' = next_addr t /\
    curr_ t' = curr_ t /\ next_addr t' = S (next_addr t).
Proof.
  intros Hr Hne. unfold grow_root, Node_Insert, set_next_addr, upd_node. simpl.
  rewrite lookup_insert_ne, Hr by done. simpl.
  rewrite lookup_insert_ne, lookup_insert_eq by done. simpl.
  rewrite lookup_insert_ne, lookup_insert_eq by done. simpl.
  rewrite lookup_insert_ne, lookup_insert_eq by done. simpl.
  rewrite lookup_insert_ne, lookup_insert_eq by done. simpl.
  rewrite lookup_insert_ne, lookup_insert_eq by done. simpl.
  eexists. split_and!; [done| |done..]. simpl.
  apply map_eq. intros b. destruct (decide (b = next_addr t)) as [->|].
  { by rewrite !lookup_insert_eq. }
  rewrite !(lookup_insert_ne _ (next_addr t) b) by done.
  destruct (decide (b = root_ t)) as [->|]; [by rewrite !lookup_insert_eq|].
  by rewrite !lookup_insert_ne.
Qed.

Section grow.
Context {h : nat -> nat} {t t' : Tree} {r : Node}.
Context (Hs : shape h no_parts t) (Hr : nodes t !! root_ t = Some r)
  (Hnodes : nodes t' = <[next_addr t := new_root_node (root_ t) (roothash_ t)]>
                 (<[root_ t := old_root_node r (next_addr t)]> (nodes t)))
  (Hleaves : leaves t' = leaves t) (Hroot : root_ t' = next_addr t)
  (Hcurr : curr_ t' = curr_ t) (Hnext : next_addr t' = S (next_addr t)).
Local Notation new := (next_addr t).

Lemma grow_ne b m : nodes t !! b = Some m -> b <> new.
Proof.
  intros Hb ->. destruct (sh_node _ _ _ Hs _ _ Hb) as [Hlt _]. by apply Nat.lt_irrefl in Hlt.
Qed.

Lemma grow_new : nodes t' !! new = Some (new_root_node (root_ t) (roothash_ t)).
Proof. rewrite Hnodes. apply lookup_insert_eq. Qed.

Lemma grow_old : nodes t' !! root_ t = Some (old_root_node r new).
Proof.
  rewrite Hnodes, lookup_insert_ne; [apply lookup_insert_eq|]. intros E. by eapply grow_ne.
Qed.

Lemma grow_other b : b <> new -> b <> root_ t -> nodes t' !! b = nodes t !! b.
Proof. intros. rewrite Hnodes. by rewrite !lookup_insert_ne. Qed.

Lemma grow_lookup b m :
  nodes t' !! b = Some m ->
  b = new /\ m = new_root_node (root_ t) (roothash_ t) \/
  b = root_ t /\ m = old_root_node r new \/
  b <> new /\ b <> root_ t /\ nodes t !! b = Some m.
Proof.
  intros Hm. destruct (decide (b = new)) as [->|]; [rewrite grow_new in Hm; naive_solver|].
  destruct (decide (b = root_ t)) as [->|]; [rewrite grow_old in Hm; naive_solver|].
  rewrite grow_other in Hm by done. auto.
Qed.

Lemma grow_slot q j :
  slot t' q j = if decide ((q, j) = (new, 0%nat)) then Some (PNode (root_ t)) else slot t q j.
Proof.
  unfold slot at 1. destruct (decide (q = new)) as [->|Hq].
  - rewrite grow_new. cbn -[replicate]. destruct (decide _) as [[= ->]|Hj]; [done|].
    rewrite (slot_fresh _ _ _ _ _ Hs) by done.
    rewrite list_lookup_insert_ne by congruence.
    apply (Node_Init_slot None HRoot).
  - rewrite decide_False by congruence. destruct (decide (q = root_ t)) as [->|].
    + rewrite grow_old. unfold slot. by rewrite Hr.
    + by rewrite grow_other.
Qed.

Lemma grow_slot_old q j c : slot t q j = Some c -> slot t' q j = Some c.
Proof.
  intros Hc. rewrite grow_slot, decide_False; [done|]. intros [= -> ->].
  by rewrite (slot_fresh _ _ _ _ _ Hs) in Hc.
Qed.

Lemma new_root_wf : hashes_wf (new_root_node (root_ t) (roothash_ t)).
Proof.
  split; [done..|]. intros j. cbn -[replicate].
  destruct (decide (j = 0%nat)) as [->|]; [done|].
  rewrite !list_lookup_insert_ne by done. apply hashes_wf_Init with (p := None) (hp := HRoot).
Qed.

Lemma grow_shape : shape (upd_h h new (S (h (root_ t)))) no_parts t'.
Proof.
  destruct (sh_root _ _ _ Hs) as (r' & Hr' & Hrp & Hrh). assert (r' = r) as -> by congruence.
  destruct (sh_curr _ _ _ Hs) as ((c & Hc) & Hch). pose proof (sh_next _ _ _ Hs) as Hnx.
  assert (Hh : forall b m, nodes t !! b = Some m -> upd_h h new (S (h (root_ t))) b = h b).
  { intros b m Hb. apply upd_h_ne. by eapply grow_ne. }
  split; rewrite ?Hroot, ?Hcurr, ?Hnext.
  - exists (new_root_node (root_ t) (roothash_ t)). by rewrite grow_new.
  - done.
  - rewrite (Hh _ _ Hc). split; [|done]. destruct (decide (curr_ t = root_ t)) as [->|].
    + rewrite grow_old. eauto.
    + rewrite grow_other; eauto. by eapply grow_ne.
  - rewrite upd_h_eq. lia.
  - intros b m Hm. rewrite upd_h_eq.
    destruct (grow_lookup b m Hm) as [[-> ->]|[[-> ->]|(Hb1 & Hb2 & Hm')]].
    + rewrite upd_h_eq. split_and!; [lia|done|apply new_root_wf|done|].
      split; [done|]. intros E. exfalso. apply (grow_ne _ _ Hc). done.
    + rewrite (Hh _ _ Hr). destruct (sh_node _ _ _ Hs _ _ Hr) as (? & _ & [W1 W2 W3] & _ & ?).
      split_and!; [lia|lia|done| |done]. split; [done|].
      intros E. exfalso. apply (grow_ne _ _ Hr). done.
    + rewrite (Hh _ _ Hm'). destruct (sh_node _ _ _ Hs _ _ Hm') as (? & ? & ? & Hfr & ?).
      split_and!; [lia|lia|done| |done]. split; [intros ?%Hfr; done|done].
  - rewrite Hleaves. intros l lf Hl. apply (sh_fresh _ _ _ Hs) in Hl. lia.
  - intros b m Hm Hb _.
    destruct (grow_lookup b m Hm) as [[-> ->]|[[-> ->]|(Hb1 & Hb2 & Hm')]]; [done| |].
    + exists new, 0%nat. rewrite grow_slot, decide_True, upd_h_eq, (Hh _ _ Hr) by done. done.
    + destruct (sh_parent _ _ _ Hs _ _ Hm' Hb2) as (p & i & ? & ? & Hsl & Hp); [done|].
      exists p, i. rewrite (grow_slot_old _ _ _ Hsl), (Hh _ _ Hm').
      pose proof Hsl as (np & Hnp & _)%slot_Some. by rewrite (Hh _ _ Hnp).
  - intros p i b. rewrite grow_slot. destruct (decide _) as [[= -> ->]|Hne].
    + intros [= <-]. split; [done|]. rewrite grow_old. eauto.
    + intros (_ & m & Hm & ? & ?)%(sh_child_node _ _ _ Hs). split; [done|]. exists m.
      rewrite grow_other; [done|by eapply grow_ne|]. intros ->. congruence.
  - intros p i l. rewrite grow_slot, Hleaves. destruct (decide _); [done|]. intros Hsl.
    pose proof Hsl as (np & Hnp & _)%slot_Some. rewrite (Hh _ _ Hnp).
    by apply (sh_child_leaf _ _ _ Hs).
  - rewrite Hleaves. intros l p hp Hl _.
    destruct (sh_leaf _ _ _ Hs _ _ _ Hl) as (i & -> & Hi); [done|]. eauto using grow_slot_old.
  - by intros b j [].
Qed.

Lemma grow_grows : grows t t'.
Proof.
  destruct (sh_root _ _ _ Hs) as (r' & Hr' & Hrp & Hrh). assert (r' = r) as -> by congruence.
  split; [..|done].
  - intros p i v. simpl. intros (n & Hn & Hv)%bind_Some.
    destruct (decide (p = root_ t)) as [->|].
    + rewrite grow_old. simpl. congruence.
    + rewrite grow_other, Hn by (done || by eapply grow_ne). done.
  - intros b c. apply anc_mono. intros x n p Hn Hp. exists n.
    rewrite grow_other; [done|by eapply grow_ne|]. intros ->. congruence.
Qed.

Lemma grow_hashes D :
  roothash_ t' = roothash_ t -> hashes_ok D t -> hashes_ok (fun b => D b \/ b = new) t'.
Proof.
  intros Hrh Hok b m Hm HD.
  destruct (grow_lookup b m Hm) as [[-> ->]|[[-> ->]|(Hb1 & Hb2 & Hm')]]; [tauto| |].
  - simpl. rewrite grow_new. simpl.
    destruct (sh_root _ _ _ Hs) as (r' & Hr' & _ & Hrp).
    assert (HD' : ~ D (root_ t)) by tauto. specialize (Hok _ _ Hr' HD').
    rewrite Hrp in Hok. simpl in Hok. assert (r' = r) as -> by congruence. done.
  - assert (HD' : ~ D b) by tauto. specialize (Hok _ _ Hm' HD').
    destruct (n_hptr m) as [|p i]; [simpl in *; by rewrite Hrh|]. by apply grow_grows.
Qed.
End grow.

Lemma grow_root_spec h D t :
  shape h no_parts t -> hashes_ok D t ->
  exists h' t' n', grow_root t = Some (t', next_addr t) /\ shape h' no_parts t' /\ grows t t' /\
    nodes t' !! next_addr t = Some n' /\ Full n' = false /\ h' (next_addr t) = S (h (root_ t)) /\
    hashes_ok (fun b => D b \/ b = next_addr t) t'.
Proof.
  intros Hs Hok. destruct (sh_root _ _ _ Hs) as (r & Hr & _).
  destruct (grow_root_eq t r Hr) as (t' & Heq & Hn & Hl & Hrh & Hro & Hc & Hnx).
  { intros E. destruct (sh_node _ _ _ Hs _ _ Hr). lia. }
  exists (upd_h h (next_addr t) (S (h (root_ t)))), t', (new_root_node (root_ t) (roothash_ t)).
  split_and!; [done|by eapply grow_shape|by eapply grow_grows|by eapply grow_new|done|by apply upd_h_eq|].
  by eapply grow_hashes.
Qed.

Lemma climb_spec h fuel t i a :
  shape h no_parts t -> is_Some (nodes t !! a) -> (h (root_ t) - h a < fuel)%nat ->
  exists k a' n', climb fuel t i a = Some ((i + k)%nat, a') /\ nodes t !! a' = Some n' /\
    h a' = (h a + k)%nat /\ (Full n' = true -> a' = root_ t).
Proof.
  intros Hs. revert i a. induction fuel as [|fuel IH]; intros i a [n Hn] Hf; [lia|].
  simpl. rewrite Hn. simpl. destruct (negb (a =? root_ t)%nat && Full n) eqn:E.
  - apply andb_true_iff in E as [E1 E2]. apply negb_true_iff, Nat.eqb_neq in E1.
    destruct (sh_parent _ _ _ Hs _ _ Hn E1) as (p & j & Hp & _ & Hsl & Hh); [done|].
    rewrite Hp. simpl. pose proof Hsl as (np & Hnp & _)%slot_Some.
    destruct (sh_node _ _ _ Hs _ _ Hnp) as (_ & Hle & _).
    destruct (IH (S i) p) as (k & a' & n' & -> & Hn' & Hk & HF); [eauto|lia|].
    exists (S k), a', n'. split_and!; [f_equal; f_equal; lia|done|lia|done].
  - exists 0%nat, a, n. split_and!; [f_equal; f_equal; lia|done|lia|].
    intros HF. rewrite HF, andb_true_r in E. apply negb_false_iff, Nat.eqb_eq in E. done.
Qed.

Lemma CurrentWithSpace_spec h D t :
  shape h no_parts t -> hashes_ok D t ->
  exists h' t' a n, CurrentWithSpace t = Some (t', a) /\ shape h' no_parts t' /\ grows t t' /\
    nodes t' !! a = Some n /\ Full n = false /\ h' a = 0%nat /\
    hashes_ok (fun b => D b \/ anc t' b a) t'.
Proof.
  intros Hs Hok. destruct (sh_curr _ _ _ Hs) as [Hc Hch]. pose proof (sh_next _ _ _ Hs) as Hnx.
  unfold CurrentWithSpace.
  destruct (climb_spec h (next_addr t) t 0 (curr_ t) Hs Hc) as (k & a & n & -> & Hn & Hk & HF); [lia|].
  cbn -[build_down]. rewrite Hn. cbn -[build_down].
  (* the tree on which the branch is built *)
  assert (exists h1 t1 a1 n1 i, (if Full n then CHECK (a =? root_ t)%nat
      ('(t', r) ← grow_root t; Some (t', S k, r)) else Some (t, k, a)) = Some (t1, i, a1) /\
    shape h1 no_parts t1 /\ grows t t1 /\ nodes t1 !! a1 = Some n1 /\ Full n1 = false /\
    h1 a1 = i /\ hashes_ok (fun b => D b \/ b = a1) t1)
    as (h1 & t1 & a1 & n1 & i & -> & Hs1 & Hg1 & Hn1 & HF1 & Hi & Hok1).
  { destruct (Full n) eqn:EF.
    - rewrite (HF eq_refl) in *. rewrite Nat.eqb_refl. simpl.
      destruct (grow_root_spec h D t Hs Hok) as (h1 & t1 & n1 & -> & Hs1 & Hg1 & Hn1 & HF1 & Hh1 & Hok1).
      simpl. eexists h1, t1, _, n1, _. split_and!; try done. lia.
    - eexists h, t, a, n, _. split_and!; try done; [lia|].
      eapply hashes_ok_weaken; [|exact Hok]. auto. }
  cbn -[build_down].
  destruct (build_down_spec i h1 _ t1 a1 n1 Hs1 Hn1 HF1 Hi Hok1)
    as (h2 & t2 & a2 & n2 & -> & Hs2 & Hg2 & Hn2 & HF2 & Hh2 & Hanc & Hok2). simpl.
  destruct (set_curr_spec h2 _ t2 a2 Hs2 (ex_intro _ _ Hn2) Hh2 Hok2)
    as (t3 & -> & Hss & Hs3 & Hg3 & Hok3). simpl.
  destruct (ss_lookup_rev Hss _ _ Hn2) as (n3 & Hn3 & Hk3).
  exists h2, t3, a2, n3. split_and!; try done.
  - eauto using grows_trans.
  - unfold Full, Parts in *. unfold skel in Hk3.
    assert (children_ n3 = children_ n2) as -> by congruence. done.
  - eapply hashes_ok_weaken; [|exact Hok3]. intros b [[Hb| ->]|Hb]; [auto|right..];
      by apply (gr_anc _ _ Hg3).
Qed.

(** A tree in which the child in slot [i] of [p] was replaced by [c]. *)
Section put_child.
Context {t t' : Tree} {p i : nat} {n : Node} {c : Part}.
Context (Hn : nodes t !! p = Some n)
  (Hnodes : nodes t' = <[p := {| n with children_ := <[i := Some c]> (children_ n) |}]> (nodes t)).

Lemma put_slot q j :
  (i < length (children_ n))%nat ->
  slot t' q j = if decide ((q, j) = (p, i)) then Some c else slot t q j.
Proof.
  intros Hi. rewrite <- (slot_insert t p n i (Some c) q j Hn Hi). unfold slot. by rewrite Hnodes.
Qed.

Lemma put_lookup b m :
  nodes t' !! b = Some m -> exists m0, nodes t !! b = Some m0 /\
    n_parent m = n_parent m0 /\ n_hptr m = n_hptr m0 /\ hashes_ m = hashes_ m0 /\
    flag_ROOT m = flag_ROOT m0 /\ flag_CURR m = flag_CURR m0 /\ (hashes_wf m0 -> hashes_wf m).
Proof.
  rewrite Hnodes. intros [[<- <-]|[_ Hm]]%lookup_insert_Some; [|eauto 10].
  exists n. split_and!; try done. apply hashes_wf_insert.
Qed.

Lemma put_rev b m0 :
  nodes t !! b = Some m0 -> exists m, nodes t' !! b = Some m /\
    n_parent m = n_parent m0 /\ n_hptr m = n_hptr m0 /\ hashes_ m = hashes_ m0.
Proof.
  intros Hb. rewrite Hnodes. destruct (decide (b = p)) as [->|].
  - rewrite lookup_insert_eq. simplify_eq. eauto.
  - rewrite lookup_insert_ne by done. eauto.
Qed.

Lemma put_load q j : load t' (HSlot q j) = load t (HSlot q j).
Proof.
  simpl. rewrite Hnodes. destruct (decide (q = p)) as [->|].
  - by rewrite lookup_insert_eq, Hn.
  - by rewrite lookup_insert_ne.
Qed.

Lemma put_anc b x : anc t b x -> anc t' b x.
Proof.
  apply anc_mono. intros y m q Hm Hq. destruct (put_rev _ _ Hm) as (m' & ? & ? & _).
  exists m'. split; congruence.
Qed.

Lemma put_hashes D : roothash_ t' = roothash_ t -> hashes_ok D t -> hashes_ok D t'.
Proof.
  intros Hrh Hok b m (m0 & Hm0 & _ & Hhp & Hhs & _)%put_lookup HD.
  assert (ComputeCurrent m = ComputeCurrent m0) as -> by (unfold ComputeCurrent; congruence).
  rewrite Hhp, <- (Hok _ _ Hm0 HD).
  destruct (n_hptr m0) as [|q j]; [simpl; by rewrite Hrh|]. apply put_load.
Qed.
End put_child.

(** The last step of a leaf's construction. *)
Definition attach_leaf (t : Tree) (a i : nat) (n : Node) : Tree :=
  let l := next_addr t in
  let t := upd_node t a {| n with children_ := <[i := Some (PLeaf l)]> (children_ n) |} in
  {| t with leaves := <[l := {| l_ptrs := Some (a, HSlot a i) |}]> (leaves t); next_addr := S l |}.

Lemma leaf_fresh h X t lf : shape h X t -> leaves t !! next_addr t = Some lf -> False.
Proof. intros Hs Hl. apply (sh_fresh _ _ _ Hs) in Hl. lia. Qed.

Section attach_leaf.
Context {h : nat -> nat} {t : Tree} {a i : nat} {n : Node}.
Context (Hs : shape h no_parts t) (Hn : nodes t !! a = Some n)
        (Hi : children_ n !! i = Some None) (Hh : h a = 0%nat).
Local Notation l := (next_addr t).
Local Notation t' := (attach_leaf t a i n).

Lemma al_nodes :
  nodes t' = <[a := {| n with children_ := <[i := Some (PLeaf l)]> (children_ n) |}]> (nodes t).
Proof. done. Qed.

Lemma al_slot q j :
  slot t' q j = if decide ((q, j) = (a, i)) then Some (PLeaf l) else slot t q j.
Proof. apply (put_slot Hn al_nodes). by apply lookup_lt_Some in Hi. Qed.

Lemma al_slot_old q j c : slot t q j = Some c -> slot t' q j = Some c.
Proof.
  intros Hc. rewrite al_slot, decide_False; [done|]. intros [= -> ->].
  unfold slot in Hc. rewrite Hn in Hc. simpl in Hc. by rewrite Hi in Hc.
Qed.

Lemma attach_leaf_shape : shape h no_parts t'.
Proof.
  destruct Hs as [R1 R2 R3 R4 R5 R6 R7 R8 R9 R10 R11]. split.
  - destruct R1 as (r & Hr & ? & ?). destruct ((put_rev Hn al_nodes) _ _ Hr) as (r' & Hr' & ? & ? & _).
    exists r'. split_and!; [exact Hr'|congruence..].
  - done.
  - destruct R3 as [[c Hc] ?]. destruct ((put_rev Hn al_nodes) _ _ Hc) as (c' & Hc' & _).
    split; [by exists c'|done].
  - simpl. lia.
  - intros b m (m0 & Hm0 & _ & _ & _ & Hf1 & Hf2 & Hw)%(put_lookup Hn al_nodes).
    destruct (R5 _ _ Hm0) as (? & ? & ? & ? & ?). rewrite Hf1, Hf2. simpl.
    split_and!; auto; lia.
  - simpl. intros l' lf [[<- _]|[_ Hl]]%lookup_insert_Some; [lia|]. apply R6 in Hl. lia.
  - intros b m (m0 & Hm0 & Hp & Hhp & _)%(put_lookup Hn al_nodes) Hb Hx.
    destruct (R7 _ _ Hm0 Hb Hx) as (p & j & ? & ? & Hsl & ?).
    exists p, j. rewrite (al_slot_old _ _ _ Hsl). split_and!; congruence.
  - intros p j b. rewrite al_slot. destruct (decide _); [done|].
    intros (_ & m & Hm & ? & ?)%R8. split; [done|].
    destruct ((put_rev Hn al_nodes) _ _ Hm) as (m' & Hm' & ? & ? & _). exists m'. split_and!; congruence.
  - intros p j l'. rewrite al_slot. destruct (decide _) as [[= -> ->]|].
    + intros [= <-]. simpl. by rewrite lookup_insert_eq.
    + intros (_ & ? & Hl)%R9. simpl. rewrite lookup_insert_ne; [done|].
      intros <-. by apply (leaf_fresh _ _ _ _ Hs) in Hl.
  - intros l' p hp. simpl. intros [[<- [= <- <-]]|[_ Hl]]%lookup_insert_Some _.
    + exists i. by rewrite al_slot, decide_True.
    + destruct (R10 _ _ _ Hl) as (j & -> & Hj); [done|]. eauto using al_slot_old.
  - by intros b j [].
Qed.

Lemma attach_leaf_view : Tree_view t' = <[l := zero_hash]> (Tree_view t).
Proof.
  apply map_eq. intros l'. unfold Tree_view. rewrite lookup_omap.
  change (leaves t') with (<[l := {| l_ptrs := Some (a, HSlot a i) |}]> (leaves t)).
  destruct (decide (l' = l)) as [->|].
  - rewrite !lookup_insert_eq. cbn -[load]. unfold leaf_hash. cbn -[load]. rewrite (put_load Hn al_nodes). simpl.
    rewrite Hn. simpl. by apply (sh_hashes _ _ _ _ _ Hs Hn).
  - rewrite !lookup_insert_ne, lookup_omap by done.
    destruct (leaves t !! l') as [[[[p [|q j]]|]]|]; [done| |done..]. apply (put_load Hn al_nodes).
Qed.
End attach_leaf.

Lemma slot_load h X t p i c : shape h X t -> slot t p i = Some c -> is_Some (load t (HSlot p i)).
Proof.
  intros Hs (n & Hn & Hc)%slot_Some. simpl. rewrite Hn. simpl. apply lookup_lt_is_Some.
  destruct (sh_hashes _ _ _ _ _ Hs Hn) as [W1 W2 _]. apply lookup_lt_Some in Hc. lia.
Qed.

Lemma grows_view h t t' : shape h no_parts t -> grows t t' -> Tree_view t' = Tree_view t.
Proof.
  intros Hs [Hld _ Hl]. apply map_eq. intros l. unfold Tree_view. rewrite !lookup_omap, Hl.
  destruct (leaves t !! l) as [[[[p hp]|]]|] eqn:E; [|done..].
  destruct (sh_leaf _ _ _ Hs _ _ _ E) as (i & -> & Hi); [done|].
  destruct (slot_load _ _ _ _ _ _ Hs Hi) as [v Hv].
  cbn -[load]. unfold leaf_hash. cbn -[load]. by rewrite (Hld _ _ _ Hv).
Qed.

Lemma view_dom_fresh h t l : shape h no_parts t -> (next_addr t <= l)%nat -> Tree_view t !! l = None.
Proof.
  intros Hs Hl. unfold Tree_view. rewrite lookup_omap.
  destruct (leaves t !! l) eqn:E; [|done]. apply (sh_fresh _ _ _ Hs) in E. lia.
Qed.

Lemma Leaf_new_spec P t :
  Tree_ok P t ->
  exists t' l, Leaf_new t = Some (t', l) /\ Tree_view t !! l = None /\
    Tree_ok ({[l]} ∪ P) t' /\ Tree_view t' = <[l := zero_hash]> (Tree_view t).
Proof.
  intros (h & Hs & Hok). unfold Leaf_new.
  destruct (CurrentWithSpace_spec h _ t Hs Hok)
    as (h1 & t1 & a & n & -> & Hs1 & Hg & Hn & HF & Hh & Hok1). cbn -[find_slot].
  destruct (not_Full_slot n) as (i & Hi & Hc); [by eapply sh_hashes|done|].
  unfold Node_Insert. rewrite Hn. cbn -[find_slot]. rewrite Hi. simpl.
  exists (attach_leaf t1 a i n), (next_addr t1). split_and!; [done|..].
  - rewrite <- (grows_view _ _ _ Hs Hg). by eapply view_dom_fresh.
  - exists h1. split; [by apply attach_leaf_shape|].
    eapply hashes_ok_weaken; [|by eapply (put_hashes Hn al_nodes)].
    intros b [(l & Hl & p & hp & Hlf & Hb)|Hb].
    + exists l. split; [set_solver|]. rewrite <- (gr_leaves _ _ Hg) in Hlf. exists p, hp. split.
      * simpl. rewrite lookup_insert_ne; [done|]. intros <-. by apply (leaf_fresh _ _ _ _ Hs1) in Hlf.
      * apply (put_anc Hn al_nodes). by apply (gr_anc _ _ Hg).
    + exists (next_addr t1). split; [set_solver|]. exists a, (HSlot a i). split.
      * simpl. by rewrite lookup_insert_eq.
      * by apply (put_anc Hn al_nodes).
  - rewrite (attach_leaf_view Hs1 Hn Hc). by rewrite (grows_view _ _ _ Hs Hg).
Qed.

(** ** Moving a leaf *)
Section move.
Context {h : nat -> nat} {t : Tree} {p i from : nat} {n : Node}.
Context (Hs : shape h no_parts t) (Hn : nodes t !! p = Some n)
        (Hi : children_ n !! i = Some (Some (PLeaf from))).
Local Notation l := (next_addr t).
Local Notation t' := {|
  nodes := <[p := {| n with children_ := <[i := Some (PLeaf l)]> (children_ n) |}]> (nodes t);
  leaves := <[from := {| l_ptrs := None |}]>
              (<[l := {| l_ptrs := Some (p, HSlot p i) |}]> (leaves t));
  roothash_ := roothash_ t; root_ := root_ t; curr_ := curr_ t; next_addr := S l |}.

Lemma mv_nodes :
  nodes t' = <[p := {| n with children_ := <[i := Some (PLeaf l)]> (children_ n) |}]> (nodes t).
Proof. done. Qed.

Lemma mv_slot q j :
  slot t' q j = if decide ((q, j) = (p, i)) then Some (PLeaf l) else slot t q j.
Proof. apply (put_slot Hn mv_nodes). by apply lookup_lt_Some in Hi. Qed.

Lemma mv_from : slot t p i = Some (PLeaf from).
Proof. apply slot_Some. eauto. Qed.

Lemma mv_ne : from <> l.
Proof.
  intros E. destruct (sh_child_leaf _ _ _ Hs _ _ _ mv_from) as (_ & _ & Hl).
  rewrite E in Hl. by apply (leaf_fresh _ _ _ _ Hs) in Hl.
Qed.

Lemma mv_leaf l' : l' <> from -> l' <> l -> leaves t' !! l' = leaves t !! l'.
Proof. intros. simpl. by rewrite !lookup_insert_ne. Qed.

Lemma mv_new : leaves t' !! l = Some {| l_ptrs := Some (p, HSlot p i) |}.
Proof. simpl. rewrite lookup_insert_ne by apply mv_ne. by rewrite lookup_insert_eq. Qed.

Lemma move_shape : shape h no_parts t'.
Proof.
  pose proof mv_from as Hfrom. destruct Hs as [R1 R2 R3 R4 R5 R6 R7 R8 R9 R10 R11]. split.
  - destruct R1 as (r & Hr & ? & ?). destruct ((put_rev Hn mv_nodes) _ _ Hr) as (r' & Hr' & ? & ? & _).
    exists r'. split_and!; [exact Hr'|congruence..].
  - done.
  - destruct R3 as [[c Hc] ?]. destruct ((put_rev Hn mv_nodes) _ _ Hc) as (c' & Hc' & _).
    split; [by exists c'|done].
  - simpl. lia.
  - intros b m (m0 & Hm0 & _ & _ & _ & Hf1 & Hf2 & Hw)%(put_lookup Hn mv_nodes).
    destruct (R5 _ _ Hm0) as (? & ? & ? & ? & ?). rewrite Hf1, Hf2. simpl.
    split_and!; auto; lia.
  - simpl. destruct (R9 _ _ _ Hfrom) as (_ & _ & Hlf). apply R6 in Hlf.
    intros l' lf [[<- _]|[_ [[<- _]|[_ Hl]]%lookup_insert_Some]]%lookup_insert_Some; [lia..|].
    apply R6 in Hl. lia.
  - intros b m (m0 & Hm0 & Hp & Hhp & _)%(put_lookup Hn mv_nodes) Hb Hx.
    destruct (R7 _ _ Hm0 Hb Hx) as (q & j & ? & ? & Hsl & ?). exists q, j.
    rewrite mv_slot, decide_False by congruence. split_and!; congruence.
  - intros q j b. rewrite mv_slot. destruct (decide _); [done|].
    intros (_ & m & Hm & ? & ?)%R8. split; [done|].
    destruct ((put_rev Hn mv_nodes) _ _ Hm) as (m' & Hm' & ? & ? & _). exists m'. split_and!; congruence.
  - intros q j l'. rewrite mv_slot. destruct (decide _) as [[= -> ->]|Hne].
    + intros [= <-]. rewrite mv_new. by destruct (R9 _ _ _ Hfrom) as (_ & ? & _).
    + intros (_ & ? & Hl)%R9. rewrite mv_leaf; [done|..].
      * intros ->. destruct (R9 _ _ _ Hfrom) as (_ & _ & Hl2). congruence.
      * intros ->. by apply (leaf_fresh _ _ _ _ Hs) in Hl.
  - intros l' q hp Hl _. destruct (decide (l' = from)) as [->|Hf].
    { simpl in Hl. by rewrite lookup_insert_eq in Hl. }
    destruct (decide (l' = l)) as [->|Hl'].
    + rewrite mv_new in Hl. injection Hl as <- <-. exists i. by rewrite mv_slot, decide_True.
    + rewrite mv_leaf in Hl by done. destruct (R10 _ _ _ Hl) as (j & -> & Hj); [done|].
      exists j. rewrite mv_slot, decide_False by congruence. done.
  - by intros b j [].
Qed.

Lemma move_view hv :
  Tree_view t !! from = Some hv -> Tree_view t' = <[l := hv]> (delete from (Tree_view t)).
Proof.
  intros (p' & hp & Hl & Hld)%view_Some.
  destruct (sh_child_leaf _ _ _ Hs _ _ _ mv_from) as (_ & _ & Hl2).
  rewrite Hl in Hl2. injection Hl2 as -> ->.
  apply map_eq. intros l'. unfold Tree_view at 1. rewrite lookup_omap.
  destruct (decide (l' = l)) as [->|].
  { rewrite mv_new, lookup_insert_eq. by rewrite <- Hld, <- (put_load Hn mv_nodes). }
  rewrite (lookup_insert_ne _ l) by done. destruct (decide (l' = from)) as [->|].
  { simpl. by rewrite lookup_insert_eq, lookup_delete_eq. }
  rewrite mv_leaf, lookup_delete_ne by done. unfold Tree_view. rewrite lookup_omap.
  destruct (leaves t !! l') as [[[[q [|q' j]]|]]|]; [done| |done..]. apply (put_load Hn mv_nodes).
Qed.
End move.

Lemma Leaf_move_spec P t from hv :
  Tree_ok P t -> Tree_view t !! from = Some hv -> from ∉ P ->
  exists t' l, Leaf_move t from = Some (t', l) /\ Tree_view t !! l = None /\
    Tree_ok P t' /\ Tree_view t' = <[l := hv]> (delete from (Tree_view t)).
Proof.
  intros (h & Hs & Hok) Hv HP. pose proof Hv as (p & hp & Hl & Hld)%view_Some.
  destruct (sh_leaf _ _ _ Hs _ _ _ Hl) as (i0 & -> & Hi0); [done|].
  pose proof Hi0 as (n & Hn & Hc0)%slot_Some.
  destruct (find_slot_ex (fun c => bool_decide (c = Some (PLeaf from))) n i0 _ Hc0) as [i Hi];
    [by apply bool_decide_eq_true|].
  pose proof Hi as (c & Hc & Hd%bool_decide_eq_true)%find_slot_spec. subst c.
  unfold Leaf_move. rewrite Hl. simpl. unfold Node_Replace. rewrite Hn. simpl. rewrite Hi. simpl.
  eexists _, _. split; [done|]. split; [by eapply view_dom_fresh|]. split; [|by apply (move_view Hs Hn Hc)].
  exists h. split; [by apply (move_shape Hs Hn Hc)|].
  eapply hashes_ok_weaken; [|by eapply (put_hashes Hn mv_nodes)].
  intros b (l & HlP & q & hq & Hlq & Hb). exists l. split; [done|]. exists q, hq. split.
  - rewrite mv_leaf; [done|congruence|]. intros ->. by apply (leaf_fresh _ _ _ _ Hs) in Hlq.
  - by apply (put_anc Hn mv_nodes).
Qed.
End spec.
