(* ===== verification/MerkleProps.v ===== *)
(** * Destruction of Merkle leaves, the instance of the contract, properties

    [Part::~Part] detaches a part from its parent and deletes parents left
    empty.  While it runs, the parts already detached are still in the heap:
    they are the exceptions [X] of [shape]. *)
From stdpp Require Import prelude gmap.
From S2P Require Import Prelude Errors Util Merkle MerkleProofs.

#[local] Hint Resolve not_no_parts : core.

Definition or_part (X : Part -> Prop) (c : Part) : Part -> Prop := fun c' => X c' \/ c' = c.

Lemma shape_ext h (X Y : Part -> Prop) t : (forall c, X c <-> Y c) -> shape h X t -> shape h Y t.
Proof.
  intros HXY [R1 R2 R3 R4 R5 R6 R7 R8 R9 R10 R11]. split; try done.
  - by rewrite <- HXY.
  - intros a n Hn Hr Hx. apply R7; [done|done|by rewrite HXY].
  - intros p i a Hsl. rewrite <- HXY. by apply R8.
  - intros p i l Hsl. rewrite <- HXY. by apply R9.
  - intros l p hp Hl Hx. apply (R10 l p hp Hl). by rewrite HXY.
  - intros a i Hx. apply R11. by apply HXY.
Qed.

Section destroy.
Context `{SipHash}.

(** ** [Node::Remove] *)

(** Clearing the slot [i] of [p], which holds [c]. *)
Section clear.
Context {h : nat -> nat} {X : Part -> Prop} {t : Tree} {p i : nat} {n : Node} {c : Part}.
Context (Hs : shape h X t) (Hn : nodes t !! p = Some n) (Hi : children_ n !! i = Some (Some c))
  (Hleafless : forall a j, c = PNode a -> slot t a j = None).
Local Notation n' := {| n with children_ := <[i := None]> (children_ n);
                               hashes_ := <[i := zero_hash]> (hashes_ n) |}.
Local Notation t' := (upd_node t p n').

Lemma cl_here : slot t p i = Some c.
Proof. apply slot_Some. eauto. Qed.

Lemma cl_slot q j : slot t' q j = if decide ((q, j) = (p, i)) then None else slot t q j.
Proof.
  rewrite slot_upd. simpl. unfold slot. destruct (decide (q = p)) as [->|].
  - destruct (decide _) as [[= ->]|Hj].
    + rewrite list_lookup_insert_eq; [done|]. by apply lookup_lt_Some in Hi.
    + rewrite list_lookup_insert_ne, Hn by congruence. done.
  - by rewrite decide_False by congruence.
Qed.

(** A part is in one slot only. *)
Lemma cl_unique q j : slot t q j = Some c -> (q, j) = (p, i).
Proof.
  intros Hq. pose proof cl_here as Hp. destruct c as [a|l].
  - destruct (sh_child_node _ _ _ Hs _ _ _ Hq) as (_ & m & Hm & _ & ?).
    destruct (sh_child_node _ _ _ Hs _ _ _ Hp) as (_ & m' & Hm' & _ & ?). congruence.
  - destruct (sh_child_leaf _ _ _ Hs _ _ _ Hq) as (_ & _ & ?).
    destruct (sh_child_leaf _ _ _ Hs _ _ _ Hp) as (_ & _ & ?). congruence.
Qed.

Lemma cl_lookup b m :
  nodes t' !! b = Some m -> exists m0, nodes t !! b = Some m0 /\
    n_parent m = n_parent m0 /\ n_hptr m = n_hptr m0 /\
    flag_ROOT m = flag_ROOT m0 /\ flag_CURR m = flag_CURR m0 /\ hashes_wf m /\
    (b <> p -> m = m0).
Proof.
  simpl. intros [[<- <-]|[Hb Hm]]%lookup_insert_Some.
  - exists n. split_and!; try done. destruct (sh_hashes _ _ _ _ _ Hs Hn) as [W1 W2 W3].
    split; simpl; [by rewrite length_insert..|]. intros j Hj.
    destruct (decide (j = i)) as [->|].
    + apply list_lookup_insert_eq. apply lookup_lt_Some in Hi. lia.
    + rewrite list_lookup_insert_ne in Hj by done. rewrite list_lookup_insert_ne by done. auto.
  - exists m. split_and!; try done. by eapply sh_hashes.
Qed.

Lemma cl_rev b m0 :
  nodes t !! b = Some m0 -> exists m, nodes t' !! b = Some m /\
    n_parent m = n_parent m0 /\ n_hptr m = n_hptr m0.
Proof.
  intros Hb. simpl. destruct (decide (b = p)) as [->|].
  - rewrite lookup_insert_eq. simplify_eq. eauto.
  - rewrite lookup_insert_ne by done. eauto.
Qed.

Lemma clear_shape : shape h (or_part X c) t'.
Proof.
  pose proof cl_here as Hhere. destruct Hs as [R1 R2 R3 R4 R5 R6 R7 R8 R9 R10 R11]. split.
  - destruct R1 as (r & Hr & ? & ?). destruct (cl_rev _ _ Hr) as (r' & Hr' & ? & ?).
    exists r'. split_and!; [exact Hr'|congruence..].
  - intros [Hx|E]; [done|]. rewrite <- E in Hhere.
    destruct R1 as (r & Hr & Hrp & _). simpl in Hhere.
    destruct (R8 _ _ _ Hhere) as (_ & m & Hm & Hmp & _). congruence.
  - destruct R3 as [[x Hx] ?]. destruct (cl_rev _ _ Hx) as (x' & Hx' & _). split; [by exists x'|done].
  - done.
  - intros b m (m0 & Hm0 & _ & _ & Hf1 & Hf2 & Hw & _)%cl_lookup.
    destruct (R5 _ _ Hm0) as (? & ? & _ & ? & ?). rewrite Hf1, Hf2. done.
  - done.
  - intros b m (m0 & Hm0 & Hp & Hhp & _)%cl_lookup Hb Hx.
    destruct (R7 _ _ Hm0 Hb) as (q & j & ? & ? & Hsl & ?); [intros ?; apply Hx; by left|].
    exists q, j. rewrite cl_slot, decide_False; [split_and!; congruence|].
    intros [= -> ->]. apply Hx. right. congruence.
  - intros q j b. rewrite cl_slot. destruct (decide _) as [|Hne]; [done|].
    intros Hsl. pose proof Hsl as (Hx & m & Hm & ? & ?)%R8. split.
    + intros [?|E]; [done|]. apply Hne, cl_unique. by rewrite <- E.
    + destruct (cl_rev _ _ Hm) as (m' & Hm' & ? & ?). exists m'. split_and!; congruence.
  - intros q j l. rewrite cl_slot. destruct (decide _) as [|Hne]; [done|].
    intros Hsl. pose proof Hsl as (Hx & ? & ?)%R9. split_and!; [|done|done].
    intros [?|E]; [done|]. apply Hne, cl_unique. by rewrite <- E.
  - intros l q hp Hl Hx. destruct (R10 l q hp Hl) as (j & -> & Hj); [intros ?; apply Hx; by left|].
    exists j. split; [done|]. rewrite cl_slot, decide_False; [done|].
    intros [= -> ->]. apply Hx. right. congruence.
  - intros a j. rewrite cl_slot. destruct (decide _) as [|Hne]; [done|].
    intros [Hx|E]; [by apply R11|]. by eapply Hleafless.
Qed.

Lemma cl_anc b x : anc t b x <-> anc t' b x.
Proof.
  split; apply anc_mono.
  - intros y m q Hm Hq. destruct (cl_rev _ _ Hm) as (m' & ? & ? & _). exists m'. split; congruence.
  - intros y m q (m0 & ? & ? & _)%cl_lookup Hq. exists m0. split; congruence.
Qed.

Lemma cl_load q j : (q, j) <> (p, i) -> load t' (HSlot q j) = load t (HSlot q j).
Proof.
  intros Hne. destruct (decide (p = q)) as [<-|]; [|by apply load_upd_ne].
  simpl. rewrite lookup_insert_eq, Hn. simpl. apply list_lookup_insert_ne. congruence.
Qed.

Lemma clear_hashes (D : nat -> Prop) :
  (forall b, X (PNode b) -> D b) -> hashes_ok D t ->
  hashes_ok (fun b => D b \/ PNode b = c \/ b = p) t'.
Proof.
  intros HXD Hok b m (m0 & Hm0 & _ & Hhp & _ & _ & _ & Hsame)%cl_lookup HD.
  rewrite Hsame by tauto. rewrite <- (Hok _ _ Hm0) by tauto.
  destruct (decide (b = root_ t)) as [->|Hbr].
  { destruct (sh_root _ _ _ Hs) as (r & Hr & _ & Hh).
    assert (m0 = r) as -> by congruence. by rewrite Hh. }
  destruct (sh_parent _ _ _ Hs _ _ Hm0 Hbr) as (q & j & _ & Hhq & Hslq & _).
  { intros Hx. apply HXD in Hx. tauto. }
  rewrite Hhq. apply cl_load. intros [= -> ->]. pose proof cl_here. apply HD. right. left. congruence.
Qed.
End clear.

Lemma store_curr t hp hv t' : store t hp hv = Some t' -> curr_ t' = curr_ t.
Proof.
  destruct hp as [|q j]; simpl; [by intros [= <-]|]. by intros (nd & _ & [= <-])%bind_Some.
Qed.

Lemma Node_Update_curr fuel t a t' : Node_Update fuel t a = Some t' -> curr_ t' = curr_ t.
Proof.
  revert t a. induction fuel as [|fuel IH]; intros t a; simpl; [done|].
  intros (n & _ & (t1 & Hst & Hup)%bind_Some)%bind_Some.
  rewrite <- (store_curr _ _ _ _ Hst). destruct (n_parent n); [by eapply IH|by simplify_eq].
Qed.

(** The fields of [Tree] that destruction leaves alone. *)
Definition same_frame (t t' : Tree) : Prop :=
  leaves t' = leaves t /\ root_ t' = root_ t /\ curr_ t' = curr_ t /\ next_addr t' = next_addr t.

Lemma same_frame_trans t1 t2 t3 : same_frame t1 t2 -> same_frame t2 t3 -> same_frame t1 t3.
Proof. unfold same_frame. intuition congruence. Qed.

(** The hash of every leaf still in place is kept. *)
Definition leaf_loads (t t' : Tree) : Prop :=
  forall q j l, slot t' q j = Some (PLeaf l) ->
    slot t q j = Some (PLeaf l) /\ load t' (HSlot q j) = load t (HSlot q j).

(** Nodes still in place have the parents they had. *)
Definition parents_kept (t t' : Tree) : Prop :=
  forall b m, nodes t' !! b = Some m -> exists m0, nodes t !! b = Some m0 /\ n_parent m0 = n_parent m.

Lemma parents_kept_trans t1 t2 t3 : parents_kept t1 t2 -> parents_kept t2 t3 -> parents_kept t1 t3.
Proof. intros H12 H23 b m (m2 & Hm2 & E2)%H23. destruct (H12 _ _ Hm2) as (m1 & Hm1 & E1). exists m1. split; congruence. Qed.

Lemma Node_Remove_spec h X D t p i c :
  shape h X t -> slot t p i = Some c -> (forall a j, c = PNode a -> slot t a j = None) ->
  hashes_ok (fun b => X (PNode b) \/ D b) t ->
  exists t', Node_Remove (next_addr t) t p c = Some t' /\ shape h (or_part X c) t' /\
    hashes_ok (fun b => or_part X c (PNode b) \/ D b) t' /\ same_frame t t' /\ leaf_loads t t' /\
    parents_kept t t' /\ is_Some (nodes t' !! p).
Proof.
  intros Hs Hsl Hleafless Hok. pose proof Hsl as (n & Hn & Hc)%slot_Some.
  destruct (find_slot_ex (fun x => bool_decide (x = Some c)) n i _ Hc) as [k Hk];
    [by apply bool_decide_eq_true|].
  pose proof Hk as (x & Hx & Hd%bool_decide_eq_true)%find_slot_spec. subst x.
  unfold Node_Remove. rewrite Hn. cbn -[find_slot Node_Update]. rewrite Hk. cbn -[Node_Update].
  set (t1 := upd_node t p _).
  assert (Hs1 : shape h (or_part X c) t1) by exact (clear_shape Hs Hn Hx Hleafless).
  assert (Hn1 : is_Some (nodes t1 !! p)) by (simpl; rewrite lookup_insert_eq; eauto).
  assert (Hp1 : ~ or_part X c (PNode p)).
  { intros [Hxp|E]; [by apply (attached_of_slot _ _ _ _ _ _ Hs Hsl)|].
    rewrite (Hleafless p i) in Hsl by done. done. }
  destruct (Node_Update_spec h (or_part X c) (fun b => or_part X c (PNode b) \/ D b) (next_addr t) t1 p)
    as (t2 & Hup & Hss & Hs2 & Hsl2 & Hok2); [done|done|done|by left| | |].
  - pose proof (sh_next _ _ _ Hs). simpl. lia.
  - eapply hashes_ok_weaken; [|exact (clear_hashes Hs Hn Hx (fun b => X (PNode b) \/ D b) (fun _ x => or_introl x) Hok)].
    intros b [[Hb|Hb]|[Hb| ->]]; [left; left; by left|left; by right|left; left; by right|right; constructor].
  - exists t2. split_and!; [done|done| | | | |].
    + eapply hashes_ok_weaken; [|exact Hok2]. by intros b [? _].
    + unfold same_frame. rewrite (ss_leaves _ _ Hss), (ss_root _ _ Hss), (ss_next _ _ Hss).
      rewrite (Node_Update_curr _ _ _ _ Hup). done.
    + intros q j l Hq. rewrite (ss_slot Hss) in Hq.
      pose proof Hq as Hq'. unfold t1 in Hq'. rewrite (cl_slot Hn Hx) in Hq'.
      destruct (decide _) as [|Hne]; [done|]. split; [done|].
      rewrite (Hsl2 q j) by (by rewrite Hq). by apply (cl_load Hn).
    + intros b m Hm. destruct (ss_lookup Hss _ _ Hm) as (m1 & Hm1 & [= E1 _ _]).
      destruct (cl_lookup Hs Hn Hx _ _ Hm1) as (m0 & Hm0 & E0 & _). exists m0. split; congruence.
    + destruct Hn1 as [n1 Hn1]. destruct (ss_lookup_rev Hss _ _ Hn1) as (? & ? & _). eauto.
Qed.

(** Freeing a detached node. *)
Lemma free_shape h X t p :
  shape h (or_part X (PNode p)) t -> p <> root_ t -> p <> curr_ t ->
  shape h X {| t with nodes := delete p (nodes t) |}.
Proof.
  intros [R1 R2 R3 R4 R5 R6 R7 R8 R9 R10 R11] Hr Hc.
  assert (Hsl : forall q j, slot {| t with nodes := delete p (nodes t) |} q j = slot t q j).
  { intros q j. unfold slot. simpl. destruct (decide (p = q)) as [<-|].
    - rewrite lookup_delete_eq. pose proof (R11 p j) as E. unfold slot in E. rewrite E; [done|by right].
    - by rewrite lookup_delete_ne. }
  split; simpl.
  - destruct R1 as (r & ? & ?). exists r. by rewrite lookup_delete_ne.
  - intros Hx. apply R2. by left.
  - by rewrite lookup_delete_ne.
  - done.
  - intros a n [_ Hn]%lookup_delete_Some. by apply R5.
  - done.
  - intros a n [Hap Hn]%lookup_delete_Some Har Hx.
    destruct (R7 a n Hn Har) as (q & j & ? & ? & Hq & ?); [by intros [?|[= ->]]|].
    exists q, j. by rewrite Hsl.
  - intros q j a. rewrite Hsl. intros (Hx & m & Hm & ? & ?)%R8. split; [intros ?; apply Hx; by left|].
    exists m. rewrite lookup_delete_ne; [done|]. intros <-. apply Hx. by right.
  - intros q j l. rewrite Hsl. intros (Hx & ? & ?)%R9. split_and!; [|done..]. intros ?. apply Hx. by left.
  - intros l q hp Hl Hx. destruct (R10 l q hp Hl) as (j & -> & Hj); [by intros [?|?]|].
    exists j. by rewrite Hsl.
  - intros a j Hx. rewrite Hsl. apply R11. by left.
Qed.

Lemma free_load h X t p q j c :
  shape h (or_part X (PNode p)) t -> slot t q j = Some c ->
  load {| t with nodes := delete p (nodes t) |} (HSlot q j) = load t (HSlot q j).
Proof.
  intros Hs Hq. simpl. rewrite lookup_delete_ne; [done|]. intros <-.
  rewrite (sh_detached _ _ _ Hs p j) in Hq; [done|by right].
Qed.

Lemma free_hashes h X D t p :
  shape h (or_part X (PNode p)) t -> hashes_ok (fun b => or_part X (PNode p) (PNode b) \/ D b) t ->
  hashes_ok (fun b => X (PNode b) \/ D b) {| t with nodes := delete p (nodes t) |}.
Proof.
  intros Hs Hok b m Hm HD. cbn [nodes] in Hm. apply lookup_delete_Some in Hm as [Hbp Hm].
  assert (Hatt : ~ or_part X (PNode p) (PNode b)) by (intros [?|[= ->]]; tauto).
  rewrite <- (Hok b m Hm) by tauto. destruct (decide (b = root_ t)) as [->|Hbr].
  { destruct (sh_root _ _ _ Hs) as (r & Hr & _ & Hh).
    assert (m = r) as -> by congruence. by rewrite Hh. }
  destruct (sh_parent _ _ _ Hs _ _ Hm Hbr Hatt) as (q & j & _ & -> & Hsl & _).
  by eapply free_load.
Qed.

Lemma Empty_slots t p n j : nodes t !! p = Some n -> Empty n = true -> slot t p j = None.
Proof.
  intros Hn HE%Nat.eqb_eq%nil_length_inv. unfold slot. rewrite Hn. simpl.
  destruct (children_ n !! j) as [[c|]|] eqn:E; [|done..].
  apply list_elem_of_lookup_2, list_elem_of_In in E.
  assert (In (Some c) []) as []. rewrite <- HE. apply filter_In. by rewrite bool_decide_eq_true_2.
Qed.

(** [Part::~Part] of an attached part without children. *)
Lemma Part_destroy_spec h fuel X D t p i c :
  shape h X t -> slot t p i = Some c -> (forall a j, c = PNode a -> slot t a j = None) ->
  hashes_ok (fun b => X (PNode b) \/ D b) t -> (h (root_ t) - h p < fuel)%nat ->
  exists t', Part_destroy fuel t c (Some p) = Some t' /\ shape h (or_part X c) t' /\
    hashes_ok (fun b => or_part X c (PNode b) \/ D b) t' /\ same_frame t t' /\ leaf_loads t t' /\ parents_kept t t'.
Proof.
  revert X t p i c. induction fuel as [|fuel IH]; intros X t p i c Hs Hsl Hleafless Hok Hf; [lia|].
  simpl. destruct (Node_Remove_spec h X D t p i c Hs Hsl Hleafless Hok)
    as (t1 & -> & Hs1 & Hok1 & Hfr1 & Hll1 & Hpk1 & [n1 Hn1]). simpl. rewrite Hn1. simpl.
  destruct (Empty n1 && negb (flag_ROOT n1) && negb (flag_CURR n1)) eqn:E; [|eauto 10].
  apply andb_true_iff in E as [[HE HR%negb_true_iff]%andb_true_iff HC%negb_true_iff].
  destruct (sh_node _ _ _ Hs1 _ _ Hn1) as (_ & _ & _ & HfR & HfC).
  assert (Hroot : p <> root_ t1) by (intros E; apply HfR in E; congruence).
  assert (Hcurr : p <> curr_ t1) by (intros E; apply HfC in E; congruence).
  assert (Hp1 : ~ or_part X c (PNode p)).
  { intros [Hxp|E]; [by apply (attached_of_slot _ _ _ _ _ _ Hs Hsl)|].
    rewrite (Hleafless p i) in Hsl by done. done. }
  destruct (sh_parent _ _ _ Hs1 _ _ Hn1 Hroot Hp1) as (q & j & -> & _ & Hslq & Hh).
  pose proof Hslq as (nq & Hnq & _)%slot_Some. destruct (sh_node _ _ _ Hs1 _ _ Hnq) as (_ & Hle & _).
  destruct (IH (or_part X c) t1 q j (PNode p)) as (t2 & -> & Hs2 & Hok2 & Hfr2 & Hll2 & Hpk2); [done|done| |done| |].
  { intros a j' [= <-]. by eapply Empty_slots. }
  { destruct Hfr1 as (_ & Hr1 & _). rewrite Hr1 in *. lia. }
  simpl. destruct Hfr2 as (Hl2 & Hr2 & Hc2 & Hx2).
  eexists. split; [done|]. split_and!.
  - apply free_shape; [done|congruence..].
  - by eapply free_hashes.
  - eapply same_frame_trans; [done|]. by split_and!.
  - intros q' j' l Hq.
    assert (slot t2 q' j' = Some (PLeaf l)) as Hq2.
    { apply slot_Some in Hq as (m & Hm & Hcm). cbn [nodes] in Hm. apply lookup_delete_Some in Hm as [_ Hm].
      apply slot_Some. eauto. }
    destruct (Hll2 _ _ _ Hq2) as [Hq1 Hld1]. destruct (Hll1 _ _ _ Hq1) as [Hq0 Hld0].
    split; [done|]. rewrite <- Hld0, <- Hld1. by eapply free_load.
  - apply (parents_kept_trans _ _ _ Hpk1). intros b m Hm. cbn [nodes] in Hm.
    apply lookup_delete_Some in Hm as [_ Hm]. by apply Hpk2.
Qed.

(** What was above a node that is still in place still is. *)
Lemma anc_kept h X t t' b a m :
  shape h X t' -> (forall x, ~ X (PNode x)) -> parents_kept t t' -> root_ t' = root_ t ->
  (forall r, nodes t !! root_ t = Some r -> n_parent r = None) ->
  nodes t' !! a = Some m -> anc t b a -> anc t' b a.
Proof.
  intros Hs HX Hpk Hroot Hr Hm Hb. revert m Hm. induction Hb as [|a n q Hn Hq _ IH]; intros m Hm; [constructor|].
  destruct (Hpk _ _ Hm) as (m0 & Hm0 & E). assert (m0 = n) as -> by congruence.
  assert (a <> root_ t') as Hne by (intros ->; rewrite Hroot in Hn; specialize (Hr _ Hn); congruence).
  destruct (sh_parent _ _ _ Hs _ _ Hm Hne (HX a)) as (q' & i & Hq' & _ & (nq & Hnq & _)%slot_Some & _).
  assert (q' = q) as -> by congruence. eapply anc_up; [exact Hm|exact Hq'|]. by eapply IH.
Qed.

(** Forgetting a leaf that has been detached. *)
Lemma forget_leaf_shape h t l :
  shape h (or_part no_parts (PLeaf l)) t ->
  shape h no_parts {| t with leaves := delete l (leaves t) |}.
Proof.
  intros [R1 R2 R3 R4 R5 R6 R7 R8 R9 R10 R11]. split; simpl; try done.
  - intros l' lf [_ Hl]%lookup_delete_Some. by eapply R6.
  - intros a n Hn Hr _. apply R7; [done|done|]. by intros [[]|?].
  - intros p i a (_ & ?)%R8. done.
  - intros p i l' (Hx & ? & ?)%R9. rewrite lookup_delete_ne; [done|]. intros <-. apply Hx. by right.
  - intros l' p hp [Hne Hl]%lookup_delete_Some _. apply (R10 l' p hp Hl). intros [[]|[= ->]]. done.
Qed.

(** After a leaf is dropped the nodes that need not be consistent are those
    above the pending leaves. *)
Lemma drop_hashes (P : gset nat) h t t1 l :
  shape h no_parts t -> l ∉ P ->
  shape h (or_part no_parts (PLeaf l)) t1 -> leaves t1 = leaves t -> root_ t1 = root_ t -> parents_kept t t1 ->
  hashes_ok (fun b => or_part no_parts (PLeaf l) (PNode b) \/ exists l', l' ∈ P /\ above t b l') t1 ->
  (forall l' q hq, l' <> l -> leaves t !! l' = Some {| l_ptrs := Some (q, hq) |} -> load t1 hq = load t hq /\ is_Some (nodes t1 !! q)) ->
  hashes_ok (fun b => exists l', l' ∈ P /\ above {| t1 with leaves := delete l (leaves t1) |} b l')
    {| t1 with leaves := delete l (leaves t1) |}.
Proof.
  intros Hs HlP Hs1 Hl1 Hr1 Hpk Hok Hother.
  apply (hashes_ok_weaken (fun b => or_part no_parts (PLeaf l) (PNode b) \/ exists l', l' ∈ P /\ above t b l')); [|exact Hok].
  intros b [[[]|?]|(l' & Hl' & q & hq & Hq & Hb)]; [done|]. exists l'. split; [done|].
  assert (l' <> l) as Hne by (by intros ->). destruct (Hother l' q hq Hne Hq) as [_ [m Hm]].
  exists q, hq. simpl. rewrite lookup_delete_ne, Hl1 by done. split; [done|].
  assert (anc t1 b q) as Hb1.
  { apply (anc_kept h (or_part no_parts (PLeaf l)) t t1 b q m); try done; [by intros x [[]|?]|].
    destruct (sh_root _ _ _ Hs) as (r & Hr & Hp & _). intros r' Hr'. congruence. }
  revert Hb1. apply anc_mono. intros a n p Hn Hp. by exists n.
Qed.

Lemma Leaf_drop_spec P t l hv :
  Tree_ok P t -> Tree_view t !! l = Some hv -> l ∉ P ->
  exists t', Leaf_drop t l = Some t' /\ Tree_ok P t' /\ Tree_view t' = delete l (Tree_view t).
Proof.
  intros (h & Hs & Hok) (p & hp & Hl & _)%view_Some HlP.
  destruct (sh_leaf _ _ _ Hs _ _ _ Hl) as (i & -> & Hi); [done|].
  unfold Leaf_drop. rewrite Hl. cbn -[Part_destroy].
  destruct (Part_destroy_spec h (S (next_addr t)) no_parts (fun b => exists l', l' ∈ P /\ above t b l') t p i (PLeaf l) Hs Hi)
    as (t1 & Hd & Hs1 & Hok1 & (Hl1 & Hr1 & _) & Hll & Hpk); [done| | |].
  - eapply hashes_ok_weaken; [|exact Hok]. by right.
  - pose proof (sh_next _ _ _ Hs). lia.
  - rewrite Hd. simpl. eexists. split; [done|].
    assert (Hother : forall l' q hq, l' <> l -> leaves t !! l' = Some {| l_ptrs := Some (q, hq) |} ->
      load t1 hq = load t hq /\ is_Some (nodes t1 !! q)).
    { intros l' q hq Hne E. rewrite <- Hl1 in E.
      destruct (sh_leaf _ _ _ Hs1 _ _ _ E) as (j & -> & Hj); [by intros [[]|[= ->]]|].
      destruct (Hll _ _ _ Hj) as [_ Hld]. split; [exact Hld|]. apply slot_Some in Hj as (nq & Hnq & _). eauto. }
    split.
    + exists h. split; [by apply forget_leaf_shape|]. by eapply drop_hashes.
    + apply map_eq. intros l'. unfold Tree_view. rewrite lookup_omap. simpl. rewrite Hl1.
      destruct (decide (l' = l)) as [->|Hne]; [by rewrite !lookup_delete_eq|].
      rewrite !lookup_delete_ne, lookup_omap by done.
      destruct (leaves t !! l') as [[[[q hq]|]]|] eqn:E; [|done..].
      by destruct (Hother _ _ _ Hne E).
Qed.

Lemma Tree_new_ok : Tree_ok ∅ Tree_new.
Proof.
  set (r := {| n_parent := None; n_hptr := HRoot; children_ := replicate MERKLE_NODE_SIZE None;
     hashes_ := replicate MERKLE_NODE_SIZE zero_hash; flag_ROOT := true; flag_CURR := true |}).
  assert (Hn : forall a n, nodes Tree_new !! a = Some n -> a = 0%nat /\ n = r).
  { intros a n Hn. cbn [nodes Tree_new] in Hn. by apply lookup_singleton_Some in Hn as [<- <-]. }
  assert (Hsl : forall p i, slot Tree_new p i = None).
  { intros p i. unfold slot. destruct (nodes Tree_new !! p) as [n|] eqn:E; [|done].
    apply Hn in E as [-> ->]. apply (Node_Init_slot None HRoot). }
  exists (fun _ => 0%nat). split.
  - split; try done.
    + exists r. done.
    + simpl. lia.
    + intros a n [-> ->]%Hn. split_and!; [simpl; lia|done|by destruct (hashes_wf_Init None HRoot); split|done|done].
    + by intros a n [-> ->]%Hn.
    + intros p i a. by rewrite Hsl.
    + intros p i l. by rewrite Hsl.
  - by intros a n [-> ->]%Hn _.
Qed.

#[global] Instance merkle_spec : MerkleSpec Tree nat := {|
  tree_ok := Tree_ok; tree_view := Tree_view;
  leaf_new_spec := Leaf_new_spec;
  leaf_update_spec := fun P t l h0 h => Leaf_Update_spec P t l h0 h;
  leaf_verify_spec := fun t l h0 h => Leaf_Verify_spec t l h0 h;
  leaf_move_spec := Leaf_move_spec;
  leaf_drop_spec := Leaf_drop_spec |}.
End destroy.

(** * Properties of the Merkle tree

    Refinement of a finite map by the operations the database and Raft use,
    and binding: a leaf that verifies under an unchanged root hash has an
    unchanged hash, or nodes of the two trees collide under SipHash. *)

(** ** The operations as commands *)

(** What clients do with leaves: create and update at once (as merkle.h
    demands), update, move, destroy. *)
Inductive Cmd :=
  | AddLeaf (hv : Hash)
  | UpdateLeaf (l : nat) (hv : Hash)
  | MoveLeaf (l : nat)
  | DropLeaf (l : nat).

Definition exec `{SipHash} (c : Cmd) (t : Tree) : option Tree :=
  match c with
  | AddLeaf hv => '(t, l) ← Leaf_new t; Leaf_Update t l hv
  | UpdateLeaf l hv => Leaf_Update t l hv
  | MoveLeaf l => '(t, _) ← Leaf_move t l; Some t
  | DropLeaf l => Leaf_drop t l
  end.

(** The abstract effect on the map from leaves to hashes. *)
Inductive abs_step : Cmd -> gmap nat Hash -> gmap nat Hash -> Prop :=
  | abs_add hv l m : m !! l = None -> abs_step (AddLeaf hv) m (<[l := hv]> m)
  | abs_update l hv m : is_Some (m !! l) -> abs_step (UpdateLeaf l hv) m (<[l := hv]> m)
  | abs_move l l' hv m : m !! l = Some hv -> m !! l' = None ->
      abs_step (MoveLeaf l) m (<[l' := hv]> (delete l m))
  | abs_drop l m : is_Some (m !! l) -> abs_step (DropLeaf l) m (delete l m).

(** A command uses live leaves only. *)
Definition cmd_live (c : Cmd) (m : gmap nat Hash) : Prop :=
  match c with
  | AddLeaf _ => True
  | UpdateLeaf l _ | MoveLeaf l | DropLeaf l => is_Some (m !! l)
  end.

Definition toy_sip : SipHash := {|
  sip_hash8 := fun b =>
    let s := foldl (fun acc x => (acc * 131 + x + 1) mod 2 ^ 64) 5 b in
    (fun i => (s / 256 ^ Z.of_nat i) mod 256) <$> seq 0 8 |}.

Lemma exec_refines `{SipHash} t c :
  Tree_ok ∅ t -> cmd_live c (Tree_view t) ->
  exists t', exec c t = Some t' /\ Tree_ok ∅ t' /\ abs_step c (Tree_view t) (Tree_view t').
Proof.
  intros Ht Hlive. destruct c as [hv|l hv|l|l]; simpl in *.
  - destruct (Leaf_new_spec ∅ t Ht) as (t1 & l & -> & Hfr & Hok1 & Hv1). simpl.
    destruct (Leaf_Update_spec ({[l]} ∪ ∅) t1 l zero_hash hv Hok1) as (t2 & -> & Hok2 & Hv2).
    { by rewrite Hv1, lookup_insert_eq. }
    exists t2. split; [done|]. split; [by replace (({[l]} ∪ ∅) ∖ {[l]}) with (∅ : gset nat) in Hok2
      by set_solver|].
    rewrite Hv2, Hv1, insert_insert_eq. by constructor.
  - destruct Hlive as [h0 H0]. destruct (Leaf_Update_spec ∅ t l h0 hv Ht H0) as (t2 & -> & Hok2 & Hv2).
    exists t2. split; [done|]. split; [by replace (∅ ∖ {[l]}) with (∅ : gset nat) in Hok2 by set_solver|].
    rewrite Hv2. constructor. eauto.
  - destruct Hlive as [h0 H0]. destruct (Leaf_move_spec ∅ t l h0 Ht H0) as (t2 & l' & -> & Hfr & Hok2 & Hv2);
      [set_solver|]. exists t2. split_and!; [done..|]. rewrite Hv2. by constructor.
  - destruct Hlive as [h0 H0]. destruct (Leaf_drop_spec ∅ t l h0 Ht H0) as (t2 & -> & Hok2 & Hv2); [set_solver|].
    exists t2. split_and!; [done..|]. rewrite Hv2. constructor. eauto.
Qed.

(** C37: the tree refines a finite map from leaves to hashes.  Every command
    on live leaves succeeds (no [CHECK] fails, no dangling pointer is
    followed, the loops end), has exactly the map's effect, keeps the tree
    well formed, and afterwards [Leaf::Verify] returns [OK] for the hash the
    map holds and [Merkle_VerifyLeaf] for any other, for every live leaf. *)
Theorem merkle_refines_map `{SipHash} t c :
  Tree_ok ∅ t -> cmd_live c (Tree_view t) ->
  exists t', exec c t = Some t' /\ Tree_ok ∅ t' /\ abs_step c (Tree_view t) (Tree_view t') /\
    forall l h0 hv, Tree_view t' !! l = Some h0 ->
      Leaf_Verify t' l hv = Some (if bool_decide (hv = h0) then OK else Merkle_VerifyLeaf).
Proof.
  intros Ht Hlive. destruct (exec_refines t c Ht Hlive) as (t' & Heq & Hok & Habs).
  exists t'. split_and!; [done..|]. intros. by apply Leaf_Verify_spec.
Qed.

Lemma merkle_refines_map_witness :
  let H := toy_sip in
  exists t', exec (AddLeaf (replicate 8 7)) Tree_new = Some t' /\ Tree_ok ∅ t' /\
    abs_step (AddLeaf (replicate 8 7)) (Tree_view Tree_new) (Tree_view t') /\
    forall l h0 hv, Tree_view t' !! l = Some h0 ->
      Leaf_Verify t' l hv = Some (if bool_decide (hv = h0) then OK else Merkle_VerifyLeaf).
Proof.
  intros H. apply (merkle_refines_map Tree_new (AddLeaf (replicate 8 7))); [apply Tree_new_ok|done].
Defined.

(** Adding and removing leaves grows and prunes the tree as merkle.h
    describes: 26 leaves (more than the 25 of a two-level tree) need a third
    level, every leaf still verifies, and after dropping all of them the tree
    works with the remaining branch. *)
Example merkle_growth_run :
  let H := toy_sip in
  let hv (i : nat) : Hash := Z.of_nat i :: replicate 7 0 in
  (t ← foldl (fun ot i => t ← ot; exec (AddLeaf (hv i)) t) (Some Tree_new) (seq 0 26);
   let ls := (map_to_list (Tree_view t)).*1 in
   vs ← mapM (fun l => h ← Tree_view t !! l; Leaf_Verify t l h) ls;
   t2 ← foldl (fun ot l => t ← ot; exec (DropLeaf l) t) (Some t) ls;
   Some (length ls, forallb is_ok vs, size (nodes t), size (nodes t2), size (leaves t2)))
  = Some (26%nat, true, 9%nat, 3%nat, 0%nat).
Proof. vm_compute. reflexivity. Qed.

(** ** Binding *)

(** The slot indices from node [a] up to the root. *)
Inductive path (t : Tree) : nat -> list nat -> Prop :=
  | path_root a n : nodes t !! a = Some n -> n_parent n = None -> n_hptr n = HRoot -> path t a []
  | path_up a n p i ixs : nodes t !! a = Some n -> n_parent n = Some p -> n_hptr n = HSlot p i ->
      path t p ixs -> path t a (i :: ixs).

(** [hashes_] is an array of [MERKLE_NODE_SIZE] arrays of [MERKLE_HASH_SIZE] bytes. *)
Definition arrays_ok (t : Tree) : Prop :=
  map_Forall (fun _ n => length (hashes_ n) = MERKLE_NODE_SIZE /\
    Forall (fun h => length h = MERKLE_HASH_SIZE) (hashes_ n)) (nodes t).

(** The node [k] levels above [a]. *)
Fixpoint ancestor (t : Tree) (k a : nat) : option Node :=
  match k with
  | O => nodes t !! a
  | S k => n ← nodes t !! a; p ← n_parent n; ancestor t k p
  end.

(** Two verified nodes at the same height above [a] and [a'] whose child hashes
    differ while SipHash maps them to the same hash. *)
Definition collision_at `{SipHash} (t t' : Tree) (a a' : nat) : Prop :=
  exists k n n', ancestor t k a = Some n /\ ancestor t' k a' = Some n' /\
    concat (hashes_ n) <> concat (hashes_ n') /\ sip_hash8 (concat (hashes_ n)) = sip_hash8 (concat (hashes_ n')).

Lemma concat_blocks_inj (k : nat) (l1 l2 : list Hash) :
  length l1 = length l2 -> Forall (fun h => length h = k) l1 -> Forall (fun h => length h = k) l2 ->
  concat l1 = concat l2 -> l1 = l2.
Proof.
  revert l2. induction l1 as [|x l1 IH]; intros [|y l2]; try done. simpl.
  intros [= Hlen] [Hx H1]%Forall_cons [Hy H2]%Forall_cons Heq.
  apply app_inj_1 in Heq as [-> Heq]; [|congruence]. f_equal. auto.
Qed.

Lemma verify_up_step `{SipHash} fuel t a n :
  nodes t !! a = Some n -> verify_up fuel t a = Some OK ->
  load t (n_hptr n) = Some (ComputeCurrent n) /\
  forall p, n_parent n = Some p -> exists fuel', verify_up fuel' t p = Some OK.
Proof.
  intros Hn. destruct fuel as [|fuel]; simpl; [done|]. rewrite Hn. simpl.
  intros (hv & Hld & Hv)%bind_Some. rewrite ct_equals_eq in Hv.
  destruct (bool_decide _) eqn:E in Hv; simpl in Hv; [|done].
  apply bool_decide_eq_true in E. split; [by rewrite E|]. intros p Hp. rewrite Hp in Hv. eauto.
Qed.

(** Two verified nodes in the same position under the same root hash have
    the same children's hashes. *)
Lemma path_binding `{SipHash} t t' ixs a a' n n' fuel fuel' :
  arrays_ok t -> arrays_ok t' -> roothash_ t = roothash_ t' ->
  path t a ixs -> path t' a' ixs ->
  verify_up fuel t a = Some OK -> verify_up fuel' t' a' = Some OK ->
  nodes t !! a = Some n -> nodes t' !! a' = Some n' ->
  hashes_ n = hashes_ n' \/ collision_at t t' a a'.
Proof.
  intros HA HA' Hrh. revert a a' n n' fuel fuel'.
  induction ixs as [|i ixs IH]; intros a a' n n' fuel fuel' Hp Hp' Hv Hv' Hn Hn';
    inversion Hp as [? m|? m p ? ? Hm Hmp Hmh Hpp]; inversion Hp' as [? m'|? m' p' ? ? Hm' Hmp' Hmh' Hpp'];
    simplify_eq.
  all: destruct (verify_up_step _ _ _ _ Hn Hv) as [Hld Hup];
       destruct (verify_up_step _ _ _ _ Hn' Hv') as [Hld' Hup'].
  - assert (Heq : ComputeCurrent n = ComputeCurrent n').
    { repeat match goal with E : n_hptr _ = _ |- _ => rewrite E in * end. simpl in *. congruence. }
    destruct (decide (concat (hashes_ n) = concat (hashes_ n'))) as [E|E]; [left|right].
    + destruct (HA _ _ Hn), (HA' _ _ Hn'). eapply (concat_blocks_inj MERKLE_HASH_SIZE); eauto. congruence.
    + by exists 0%nat, n, n'.
  - destruct (Hup _ Hmp) as [f Hf]. destruct (Hup' _ Hmp') as [f' Hf'].
    rewrite Hmh in Hld. rewrite Hmh' in Hld'. simpl in Hld, Hld'.
    apply bind_Some in Hld as (np & Hnp & Hip). apply bind_Some in Hld' as (np' & Hnp' & Hip').
    destruct (IH _ _ _ _ _ _ Hpp Hpp' Hf Hf' Hnp Hnp') as [E|(k & m & m' & Hk & Hk' & Hcol)].
    2: { right. exists (S k), m, m'. cbn [ancestor]. rewrite Hn, Hn'. cbn [mbind option_bind]. by rewrite Hmp, Hmp'. }
    rewrite E in Hip. assert (Heq : ComputeCurrent n = ComputeCurrent n') by congruence.
    destruct (decide (concat (hashes_ n) = concat (hashes_ n'))) as [Ec|Ec]; [left|right].
    + destruct (HA _ _ Hn), (HA' _ _ Hn'). eapply (concat_blocks_inj MERKLE_HASH_SIZE); eauto. congruence.
    + by exists 0%nat, n, n'.
Qed.

(** C38: binding.  Let memory change arbitrarily (from [t] to [t']) except for
    the tree's root hash and the sizes of the arrays.  If a leaf in the same
    position (the same slots up to the root) verifies in both for [hv] and
    [hv'], then [hv = hv'], or two of the nodes the verifications went through,
    at the same height, have different contents with the same SipHash: unless
    SipHash collides on contents of the two trees, rolling back pages that do
    not include the root hash is detected. *)
Theorem merkle_binding `{SipHash} t t' l l' hv hv' p p' i ixs :
  arrays_ok t -> arrays_ok t' -> roothash_ t = roothash_ t' ->
  leaves t !! l = Some {| l_ptrs := Some (p, HSlot p i) |} -> path t p ixs ->
  leaves t' !! l' = Some {| l_ptrs := Some (p', HSlot p' i) |} -> path t' p' ixs ->
  Leaf_Verify t l hv = Some OK -> Leaf_Verify t' l' hv' = Some OK ->
  hv = hv' \/ collision_at t t' p p'.
Proof.
  intros HA HA' Hrh Hl Hp Hl' Hp' Hv Hv'. unfold Leaf_Verify in *.
  rewrite Hl in Hv. rewrite Hl' in Hv'. simpl in Hv, Hv'.
  apply bind_Some in Hv as (x & (n & Hn & Hi)%bind_Some & Hv).
  apply bind_Some in Hv' as (x' & (n' & Hn' & Hi')%bind_Some & Hv').
  rewrite ct_equals_eq in Hv, Hv'. destruct (bool_decide (hv = x)) eqn:E; simpl in Hv; [|done].
  destruct (bool_decide (hv' = x')) eqn:E'; simpl in Hv'; [|done].
  btrue. subst x x'.
  destruct (path_binding t t' ixs p p' n n' _ _ HA HA' Hrh Hp Hp' Hv Hv' Hn Hn') as [Eh|?]; [|by right].
  left. rewrite Eh in Hi. congruence.
Qed.

(** ** Examples *)

(** Six leaves, in two levels below the root; leaf 1 is the first added. *)
Definition six_leaves `{SipHash} : Tree :=
  default Tree_new (foldl (fun ot i => t ← ot; exec (AddLeaf (replicate 8 (Z.of_nat i))) t) (Some Tree_new) (seq 1 6)).
(** The memory behind leaf [l] is overwritten: its slot gets another hash. *)
Definition tamper (t : Tree) (l : nat) (hv : Hash) : Tree :=
  default t (lf ← leaves t !! l; '(_, hp) ← l_ptrs lf; store t hp hv).
(** A hash function that maps everything to one value. *)
Definition constant_sip : SipHash := {| sip_hash8 := fun _ => replicate 8 9 |}.

Lemma arrays_ok_decide t :
  bool_decide (map_Forall (fun _ n => length (hashes_ n) = MERKLE_NODE_SIZE /\
    Forall (fun h => length h = MERKLE_HASH_SIZE) (hashes_ n)) (nodes t)) = true -> arrays_ok t.
Proof. by intros ?%bool_decide_eq_true_1. Qed.

(** With a hash function that does not collide on it, the change is detected,
    at the leaf or at the node. *)
Example tampering_detected :
  let H := toy_sip in
  let t := six_leaves in let t' := tamper t 1 (replicate 8 77) in
  (Leaf_Verify t 1 (replicate 8 1), Leaf_Verify t' 1 (replicate 8 1), Leaf_Verify t' 1 (replicate 8 77))
  = (Some OK, Some Merkle_VerifyLeaf, Some Merkle_VerifyNode).
Proof. vm_compute. reflexivity. Qed.

(** With the constant one, the changed leaf verifies, and the binding theorem
    finds the nodes that collide. *)
Lemma merkle_binding_witness :
  let H := constant_sip in
  let t := six_leaves in let t' := tamper t 1 (replicate 8 77) in
  Leaf_Verify t 1 (replicate 8 1) = Some OK /\ Leaf_Verify t' 1 (replicate 8 77) = Some OK /\ collision_at t t' 0 0.
Proof.
  intros H t t'.
  assert (V : Leaf_Verify t 1 (replicate 8 1) = Some OK) by (vm_compute; reflexivity).
  assert (V' : Leaf_Verify t' 1 (replicate 8 77) = Some OK) by (vm_compute; reflexivity).
  split; [exact V|]. split; [exact V'|].
  destruct (@merkle_binding H t t' 1 1 (replicate 8 1) (replicate 8 77) 0 0 0 [0%nat]) as [E|E].
  - apply arrays_ok_decide. vm_compute. reflexivity.
  - apply arrays_ok_decide. vm_compute. reflexivity.
  - vm_compute. reflexivity.
  - vm_compute. reflexivity.
  - eapply path_up; [vm_compute; reflexivity..|]. eapply path_root; vm_compute; reflexivity.
  - vm_compute. reflexivity.
  - eapply path_up; [vm_compute; reflexivity..|]. eapply path_root; vm_compute; reflexivity.
  - exact V.
  - exact V'.
  - discriminate E.
  - exact E.
Defined.
