(* ===== verification/Raft.v ===== *)
(** * Raft (raft/raft.h, raft/raft.cc, raft/internal.h)

    The state of a replica and every operation of [class Raft], as functions
    from states to states.  [None] is an aborted process (a failed [CHECK], an
    out-of-range read).  Metrics and log lines are left out; the random source
    is the sequence [random_u32], of which [rand_calls_] counts the draws; the
    Merkle tree the object points to is the field [merkle_].

    [RaftPlatform] stands for protobuf, HMAC and [rand()]; [MerkleOps] is the
    interface of the Merkle tree. *)
From stdpp Require Import prelude gmap.
From S2P Require Import Prelude Errors Containers Util RaftTypes RaftLog PeerId Membership Merkle.

(** ** raft/internal.h *)
Record ReplicationState := {
  rs_next_idx : LogIdx; rs_match_idx : LogIdx; rs_promise_idx : LogIdx;
  rs_inflight : option LogIdx; rs_send_probe : bool; rs_send_heartbeat : bool;
  rs_last_seen_ticks : Z }.
Inductive Role := FOLLOWER | CANDIDATE | LEADER.
#[export] Instance Role_eq_dec : EqDecision Role.
Proof. solve_decision. Defined.
Record FollowerState := { f_leader : option PeerID; f_election : Z }.
Record CandidateState := { c_votes_granted : list PeerID; c_election : Z }.
Record LeaderState := {
  l_followers : list (PeerID * ReplicationState); l_heartbeat : Z; l_relinquishing : bool }.
Definition FollowerState_zero := {| f_leader := None; f_election := 0 |}.
Definition CandidateState_zero := {| c_votes_granted := []; c_election := 0 |}.
Definition LeaderState_zero := {| l_followers := []; l_heartbeat := 0; l_relinquishing := false |}.

(** [enclaveconfig.RaftConfig]. *)
Record RaftConfig := {
  election_ticks : Z; heartbeat_ticks : Z; replication_chunk_bytes : Z;
  replica_voting_timeout_ticks : Z; replica_membership_timeout_ticks : Z;
  log_max_bytes : Z; replication_pipeline : Z }.

(** [SendableRaftMessage]: no recipient is a broadcast. *)
Record SendableRaftMessage := { sm_message : RaftMessage; sm_to : option PeerID }.
Definition Broadcast (m : RaftMessage) := {| sm_message := m; sm_to := None |}.
Definition Reply (to : PeerID) (m : RaftMessage) := {| sm_message := m; sm_to := Some to |}.

Definition InvalidTicks : Z := 2 ^ 63 - 1.

(** ** [class Raft] *)
Record Raft {T L : Type} := {
  group_ : GroupId;
  me_ : PeerID;
  merkle_ : T;
  membership_ : Membership;
  uncommitted_memberships_ : list (LogIdx * Membership);
  config_ : RaftConfig;
  last_applied_ : LogIdx;
  current_term_ : TermId;
  voted_for_ : option PeerID;
  role_ : Role;
  follower_ : FollowerState;
  candidate_ : CandidateState;
  leader_ : LeaderState;
  log_ : Log;
  commit_leaf_ : L;
  commit_idx_ : LogIdx;
  promise_leaf_ : L;
  promise_idx_ : LogIdx;
  sendable_messages_ : list SendableRaftMessage;
  super_majority_ : Z;
  rand_calls_ : nat }.
Arguments Raft : clear implicits.

Section raft.
Context {T L : Type} {MO : MerkleOps T L} {RP : RaftPlatform}.
Notation Raft := (Raft T L).

(** *** Accessors *)
Definition membership (r : Raft) : Membership :=
  match last (uncommitted_memberships_ r) with
  | Some (_, m) => m
  | None => membership_ r
  end.
Definition voting (r : Raft) : bool := set_count (voting_replicas_ (membership r)) (me_ r).
Definition peers (r : Raft) : list PeerID := set_erase (me_ r) (all_replicas_ (membership r)).
Definition membership_quorum_size (r : Raft) : Z :=
  quorum_size (Zlen (voting_replicas_ (membership r))) (super_majority_ r).
Definition is_leader (r : Raft) : bool := bool_decide (role_ r = LEADER).
Definition leader (r : Raft) : option PeerID :=
  match role_ r with
  | FOLLOWER => f_leader (follower_ r)
  | CANDIDATE => None
  | LEADER => Some (me_ r)
  end.
Definition last_seen_ticks (r : Raft) (follower : PeerID) : Z :=
  if negb (bool_decide (role_ r = LEADER)) then InvalidTicks
  else match map_find (l_followers (leader_ r)) follower with
       | None => InvalidTicks
       | Some f => rs_last_seen_ticks f
       end.

(** [FollowerReplicationStatus]: next, match and in-flight indices and the
    probe flag; [Some None] leaves the status untouched. *)
Definition FollowerReplicationStatus (r : Raft) (follower : PeerID)
  : option (option (LogIdx * LogIdx * option LogIdx * bool)) :=
  CHECK (bool_decide (role_ r = LEADER))
    (Some (match map_find (l_followers (leader_ r)) follower with
           | None => None
           | Some f => Some (rs_next_idx f, rs_match_idx f, rs_inflight f, rs_send_probe f)
           end)).

(** [uint32_t] arithmetic; a zero [election_ticks] divides by zero. *)
Definition RandomElectionTimeout (r : Raft) : option (Z * Raft) :=
  let et := election_ticks (config_ r) in
  if et =? 0 then None
  else Some (u32 (et + random_u32 (rand_calls_ r) mod et), {| r with rand_calls_ := S (rand_calls_ r) |}).

Definition SetRole (r : Raft) (role : Role) : Raft :=
  {| r with role_ := role; leader_ := LeaderState_zero; follower_ := FollowerState_zero;
            candidate_ := CandidateState_zero |}.

Definition AddSendableMessage (r : Raft) (msg : SendableRaftMessage) : option Raft :=
  let push := {| r with sendable_messages_ := sendable_messages_ r ++ [msg] |} in
  match sm_to msg with
  | Some to => CHECK (negb (bool_decide (to = me_ r))) (Some push)
  | None =>
      if (Zlen (all_replicas_ (membership r)) =? 1) &&
         set_count (all_replicas_ (membership r)) (me_ r)
      then Some r else Some push
  end.

(** [SendableMessages()] moves the queue out. *)
Definition SendableMessages (r : Raft) : Raft * list SendableRaftMessage :=
  ({| r with sendable_messages_ := [] |}, sendable_messages_ r).

(** *** Merkle leaves of the commit and promise indices *)
Definition MerkleHashFromLogIter (l : Log) (di : Z) : option Hash :=
  match iter_Entry l di with
  | None => Some zero_hash
  | Some e => CHECK (Z.of_nat MERKLE_HASH_SIZE <=? Zlen (hash_chain e))
                    (Some (take MERKLE_HASH_SIZE (hash_chain e)))
  end.

Definition UpdateMerkleTree (r : Raft) : option Raft :=
  h ← MerkleHashFromLogIter (log_ r) (At (log_ r) (commit_idx_ r));
  t ← leaf_update (merkle_ r) (commit_leaf_ r) h;
  h ← MerkleHashFromLogIter (log_ r) (At (log_ r) (promise_idx_ r));
  t ← leaf_update t (promise_leaf_ r) h;
  Some {| r with merkle_ := t |}.

Definition VerifyMerkleTree (r : Raft) : option Error :=
  h ← MerkleHashFromLogIter (log_ r) (At (log_ r) (commit_idx_ r));
  err ← leaf_verify (merkle_ r) (commit_leaf_ r) h;
  if negb (is_ok err) then Some err else
  h ← MerkleHashFromLogIter (log_ r) (At (log_ r) (promise_idx_ r));
  leaf_verify (merkle_ r) (promise_leaf_ r) h.

(** *** Applying the log *)
Definition TakeCommittedLog (r : Raft) : option (Raft * (LogIdx * LogEntry)) :=
  if commit_idx_ r <=? last_applied_ r then Some (r, (0, LogEntry_default))
  else
    let r := {| r with last_applied_ := last_applied_ r ⊕ 1 |} in
    match iter_Entry (log_ r) (At (log_ r) (last_applied_ r)) with
    | Some e => Some (r, (last_applied_ r, e))
    | None => None
    end.

(** *** Timeouts and configuration *)
Definition set_election_timeout (r : Raft) (t : Z) : Raft :=
  let c := config_ r in let f := follower_ r in let d := candidate_ r in
  {| r with config_ := {| c with election_ticks := u32 t |};
            follower_ := {| f with f_election := Z.min t (f_election f) |};
            candidate_ := {| d with c_election := Z.min t (c_election d) |} |}.
Definition set_heartbeat_timeout (r : Raft) (t : Z) : Raft :=
  let c := config_ r in let l := leader_ r in
  {| r with config_ := {| c with heartbeat_ticks := u32 t |};
            leader_ := {| l with l_heartbeat := t |} |}.
Definition Reconfigure (r : Raft) (config : RaftConfig) : Raft :=
  let r := {| r with config_ := config |} in
  let r := set_election_timeout r (election_ticks (config_ r)) in
  set_heartbeat_timeout r (heartbeat_ticks config).

(** *** Membership bookkeeping *)

(** [leader_.followers[peer] = state]. *)
Definition set_followers (r : Raft) (fs : list (PeerID * ReplicationState)) : Raft :=
  let l := leader_ r in {| r with leader_ := {| l with l_followers := fs |} |}.

Definition new_follower (r : Raft) : ReplicationState :=
  {| rs_next_idx := next_idx (log_ r); rs_match_idx := 0; rs_promise_idx := 0;
     rs_inflight := None; rs_send_probe := true; rs_send_heartbeat := true;
     rs_last_seen_ticks := election_ticks (config_ r) |}.

Definition HandleMembershipChange (r : Raft) : Raft :=
  if bool_decide (role_ r = LEADER) then
    let all := all_replicas_ (membership r) in
    let fs := foldl (fun fs peer =>
      if negb (bool_decide (peer = me_ r)) && negb (bool_decide (is_Some (map_find fs peer)))
      then map_set peer (new_follower r) fs else fs) (l_followers (leader_ r)) all in
    set_followers r (List.filter (fun pf => set_count all pf.1) fs)
  else r.

Definition AddUncommittedMembership (r : Raft) (idx : LogIdx) (m : Membership) : option Raft :=
  CHECK (match last (uncommitted_memberships_ r) with None => true | Some (i, _) => i <? idx end)
    (Some (HandleMembershipChange
       {| r with uncommitted_memberships_ := uncommitted_memberships_ r ++ [(idx, m)] |})).

(** The two [while] loops of [MaybeChangeUncommittedMembershipsBasedOnLog]:
    from the front, and from the back (on the reversed list). *)
Fixpoint promote_committed (commit : LogIdx) (m : Membership) (us : list (LogIdx * Membership))
    (changed : bool) : Membership * list (LogIdx * Membership) * bool :=
  match us with
  | (i, m') :: us' => if i <=? commit then promote_committed commit m' us' true else (m, us, changed)
  | [] => (m, us, changed)
  end.
Fixpoint discard_rolled_back (last : LogIdx) (rus : list (LogIdx * Membership)) (changed : bool)
  : list (LogIdx * Membership) * bool :=
  match rus with
  | (i, _) :: rus' => if last <? i then discard_rolled_back last rus' true else (rus, changed)
  | [] => (rus, changed)
  end.

Definition MaybeChangeUncommittedMembershipsBasedOnLog (r : Raft) : Raft :=
  let '(m, us, changed) :=
    promote_committed (commit_idx_ r) (membership_ r) (uncommitted_memberships_ r) false in
  let '(rus, changed) := discard_rolled_back (last_idx (log_ r)) (reverse us) changed in
  let r := {| r with membership_ := m; uncommitted_memberships_ := reverse rus |} in
  if changed then HandleMembershipChange r else r.

(** *** Appending to the log *)
Definition LogLocation_default : LogLocation := {| loc_term := 0; loc_idx := 0; loc_hash_chain := [] |}.

Definition LogAppend (r : Raft) (entry : LogEntry) : option (Raft * (LogLocation * Error)) :=
  let '(new_uncommitted_membership, merr) :=
    match entry_inner entry with
    | kMembershipChange g => FromProto g
    | _ => (None, OK)
    end in
  if negb (is_ok merr) then Some (r, (LogLocation_default, merr)) else
  '(l, err) ← Append (log_ r) entry (last_applied_ r);
  let r := {| r with log_ := l |} in
  if negb (is_ok err) then Some (r, (LogLocation_default, err)) else
  let loc := {| loc_term := current_term_ r; loc_idx := last_idx (log_ r);
                loc_hash_chain := hash_chain entry |} in
  r ← match new_uncommitted_membership with
      | Some m => AddUncommittedMembership r (loc_idx loc) m
      | None => Some r
      end;
  Some (r, (loc, OK)).

(** The bytes fed to HMAC for an entry at [idx], after the previous hash. *)
Definition hash_input (idx : LogIdx) (e : LogEntry) : bytes :=
  let idx_term := BigEndian64Bytes idx ++ BigEndian64Bytes (entry_term e) in
  match entry_inner e with
  | kData d => [1] ++ idx_term ++ d
  | kMembershipChange g => [2] ++ idx_term ++ serialize_ReplicaGroup g
  | kMinimums m => [4] ++ idx_term ++ serialize_MinimumLimits m
  | INNER_NOT_SET => [3] ++ idx_term
  end.

Definition NextHash (r : Raft) (next_entry : LogEntry) : bytes :=
  let previous_hash := default (replicate 32 0) (MostRecentHash (log_ r)) in
  hmac_sha256 previous_hash (hash_input (next_idx (log_ r)) next_entry).

Definition ClientRequestInternal (r : Raft) (entry : LogEntry)
  : option (Raft * (LogLocation * Error)) :=
  let entry := {| entry with entry_term := current_term_ r |} in
  let entry := {| entry with hash_chain := NextHash r entry |} in
  if negb (bool_decide (role_ r = LEADER)) || l_relinquishing (leader_ r)
  then Some (r, (LogLocation_default, Raft_AppendEntryNotLeader))
  else LogAppend r entry.

(** *** Elections *)
Definition RequestVoteMessage (r : Raft) : option RaftMessage :=
  CHECK (bool_decide (role_ r = CANDIDATE))
    (Some {| msg_group := group_ r; msg_term := current_term_ r;
             msg_inner := kVoteRequest {|
               vr_last_log_term := last_term (log_ r);
               vr_last_log_idx := last_idx (log_ r);
               vr_last_log_hash_chain :=
                 match iter_Entry (log_ r) (At (log_ r) (last_idx (log_ r))) with
                 | Some e => hash_chain e
                 | None => []
                 end |} |}).

Definition ElectionTimeout (r : Raft) : option Raft :=
  if negb (voting r) then
    '(t, r) ← RandomElectionTimeout r;
    let f := follower_ r in Some {| r with follower_ := {| f with f_election := t |} |}
  else
    match role_ r with
    | CANDIDATE | FOLLOWER =>
        let r := {| r with current_term_ := current_term_ r ⊕ 1; voted_for_ := Some (me_ r) |} in
        let r := SetRole r CANDIDATE in
        '(t, r) ← RandomElectionTimeout r;
        let r := {| r with candidate_ :=
          {| c_votes_granted := set_insert (me_ r) []; c_election := t |} |} in
        m ← RequestVoteMessage r;
        AddSendableMessage r (Broadcast m)
    | LEADER => Some r
    end.

Definition MaybeBecomeLeader (r : Raft) : option Raft :=
  if negb (bool_decide (role_ r = CANDIDATE)) then Some r
  else if Zlen (c_votes_granted (candidate_ r)) <? membership_quorum_size r then Some r
  else
    let r := SetRole r LEADER in
    let fs := foldl (fun fs peer =>
      if bool_decide (peer = me_ r) then fs
      else map_set peer {| rs_next_idx := next_idx (log_ r); rs_match_idx := 0; rs_promise_idx := 0;
             rs_inflight := None; rs_send_probe := false; rs_send_heartbeat := false;
             rs_last_seen_ticks := 0 |} fs) [] (all_replicas_ (membership r)) in
    let r := {| r with leader_ := {| l_followers := fs; l_heartbeat := 0; l_relinquishing := false |} |} in
    '(r, _) ← ClientRequestInternal r LogEntry_default;
    Some r.

(** *** Replication *)

(** The loop of [AppendEntries] over at most [n] indices from [entry_idx]. *)
Fixpoint collect_entries (n : nat) (l : Log) (entry_idx : LogIdx) (total_entries_size max_entries_size : Z)
  : list LogEntry :=
  match n with
  | O => []
  | S n' =>
      match iter_Entry l (At l entry_idx) with
      | None => []
      | Some e =>
          let total := total_entries_size ⊕ ByteSizeLong e in
          e :: (if max_entries_size <=? total then []
                else collect_entries n' l (entry_idx ⊕ 1) total max_entries_size)
      end
  end.

Definition AppendEntries (r : Raft) (peer : PeerID) : option Raft :=
  if negb (bool_decide (role_ r = LEADER)) then Some r else
  match map_find (l_followers (leader_ r)) peer with
  | None => Some r
  | Some replication =>
      let last_log_idx := last_idx (log_ r) in
      let next_idx := rs_next_idx replication in
      let send_entries := (next_idx <=? last_log_idx) && negb (rs_send_probe replication) in
      if negb send_entries && negb (rs_send_heartbeat replication) && negb (rs_send_probe replication)
      then Some r else
      if bool_decide (is_Some (rs_inflight replication)) then Some r else
      let prev_log_idx := next_idx ⊖ 1 in
      let prev := At (log_ r) prev_log_idx in
      let prev_log_term := if prev_log_idx =? 0 then 0 else iter_Term (log_ r) prev in
      let prev_log_hash_chain :=
        if prev_log_idx =? 0 then [] else
        match iter_Entry (log_ r) prev with None => [] | Some e => hash_chain e end in
      if (prev_log_term =? 0) && negb (prev_log_idx =? 0) then Some r else
      let entries :=
        if send_entries then
          collect_entries (Z.to_nat ((last_log_idx ⊕ 1) - next_idx)) (log_ r) next_idx 0
            (replication_chunk_bytes (config_ r))
        else [] in
      let last_entry := if send_entries then prev_log_idx ⊕ Zlen entries else prev_log_idx in
      let msg := {| msg_group := group_ r; msg_term := current_term_ r;
        msg_inner := kAppendRequest {|
          ar_prev_log_idx := prev_log_idx; ar_prev_log_term := prev_log_term;
          ar_prev_log_hash_chain := prev_log_hash_chain; ar_entries := entries;
          ar_leader_commit := Z.min (commit_idx_ r) last_entry;
          ar_leader_promise := Z.min (promise_idx_ r) last_entry |} |} in
      let replication := {| replication with rs_send_heartbeat := false; rs_inflight := Some last_entry |} in
      AddSendableMessage (set_followers r (map_set peer replication (l_followers (leader_ r))))
        (Reply peer msg)
  end.

(** [std::sort] with a greater-than comparison. *)
Fixpoint insert_desc (x : Z) (l : list Z) : list Z :=
  match l with
  | [] => [x]
  | y :: l' => if y <? x then x :: l else y :: insert_desc x l'
  end.
Definition sort_desc (l : list Z) : list Z := foldr insert_desc [] l.

Definition MaybeAdvanceCommitIndex (r : Raft) : option Raft :=
  if negb (bool_decide (role_ r = LEADER)) then Some r else
  let voters := List.filter (fun pf => set_count (voting_replicas_ (membership r)) pf.1)
                  (l_followers (leader_ r)) in
  let stored := (rs_match_idx ∘ snd <$> voters) ++ [last_idx (log_ r)] in
  new_promise ← sort_desc stored !! Z.to_nat (membership_quorum_size r ⊖ 1);
  let promised_changed := promise_idx_ r <? new_promise in
  let r := if promised_changed then {| r with promise_idx_ := new_promise |} else r in
  let promised := (rs_promise_idx ∘ snd <$> voters) ++ [promise_idx_ r] in
  new_commit ← sort_desc promised !! Z.to_nat (membership_quorum_size r ⊖ 1);
  let commit_changed := commit_idx_ r <? new_commit in
  let r := if commit_changed
           then MaybeChangeUncommittedMembershipsBasedOnLog {| r with commit_idx_ := new_commit |}
           else r in
  if promised_changed || commit_changed then
    Some (set_followers r
      (prod_map id (fun f => {| f with rs_send_heartbeat := true |}) <$> l_followers (leader_ r)))
  else Some r.

Definition TryToRelinquishLeadership (r : Raft) : option Raft :=
  let worthy peer :=
    negb (bool_decide (peer = me_ r)) &&
    match map_find (l_followers (leader_ r)) peer with
    | None => false
    | Some state => rs_match_idx state =? last_idx (log_ r)
    end in
  match List.find worthy (voting_replicas_ (membership r)) with
  | None => Some r
  | Some next =>
      r ← AddSendableMessage r (Reply next
        {| msg_group := group_ r; msg_term := current_term_ r; msg_inner := kTimeoutNow true |});
      let r := SetRole r FOLLOWER in
      '(t, r) ← RandomElectionTimeout r;
      Some {| r with follower_ := {| f_leader := None; f_election := t |} |}
  end.

(** The [for] loop over peers, each skipped when it is this replica. *)
Fixpoint append_entries_to (r : Raft) (ps : list PeerID) : option Raft :=
  match ps with
  | [] => Some r
  | peer :: ps' =>
      r ← (if bool_decide (peer = me_ r) then Some r else AppendEntries r peer);
      append_entries_to r ps'
  end.

Definition MaybeChangeStateAndSendMessages (r : Raft) : option Raft :=
  r ← MaybeBecomeLeader r;
  err ← VerifyMerkleTree r;
  r ← (if is_ok err then r ← MaybeAdvanceCommitIndex r; UpdateMerkleTree r else Some r);
  r ← append_entries_to r (all_replicas_ (membership r));
  if bool_decide (role_ r = LEADER) && l_relinquishing (leader_ r)
  then TryToRelinquishLeadership r else Some r.

(** *** Message handlers *)
Definition HandleVoteRequest (r : Raft) (msg_term : TermId) (msg : VoteRequest) (from : PeerID)
  : option Raft :=
  let last_log_idx := last_idx (log_ r) in
  let last_log_term := last_term (log_ r) in
  let log_ok := (last_log_term <? vr_last_log_term msg) ||
    ((vr_last_log_term msg =? last_log_term) && (last_log_idx <=? vr_last_log_idx msg)) in
  let grant := (msg_term =? current_term_ r) && log_ok &&
    match voted_for_ r with None => true | Some v => bool_decide (v = from) end in
  if current_term_ r <? msg_term then Some r else
  r ← (if grant then
         '(t, r) ← RandomElectionTimeout {| r with voted_for_ := Some from |};
         let f := follower_ r in Some {| r with follower_ := {| f with f_election := t |} |}
       else Some r);
  AddSendableMessage r (Reply from
    {| msg_group := group_ r; msg_term := current_term_ r; msg_inner := kVoteResponse grant |}).

Definition HandleVoteResponse (r : Raft) (msg_term : TermId) (vote_granted : bool) (from : PeerID)
  : Raft :=
  if negb (msg_term =? current_term_ r) then r else
  if negb (bool_decide (role_ r = CANDIDATE)) then r else
  if vote_granted && set_count (voting_replicas_ (membership r)) from then
    let c := candidate_ r in
    {| r with candidate_ := {| c with c_votes_granted := set_insert from (c_votes_granted c) |} |}
  else r.

(** The loop of [HandleAppendRequest] over the message's entries, the first
    of which is for index [idx]; a [break] returns. *)
Fixpoint append_request_entries (r : Raft) (idx last_processed_idx : LogIdx) (entries : list LogEntry)
  : option (Raft * LogIdx) :=
  match entries with
  | [] => Some (r, last_processed_idx)
  | msg_entry :: rest =>
      let our_idx_term := iter_Term (log_ r) (At (log_ r) idx) in
      let conflict := negb (our_idx_term =? 0) && negb (our_idx_term =? entry_term msg_entry) in
      if conflict && ((idx <=? commit_idx_ r) || (idx <=? promise_idx_ r)) then Some (r, last_processed_idx)
      else
        let '(l, cerr) := if conflict then CancelFrom (log_ r) idx else (log_ r, OK) in
        if negb (is_ok cerr) then Some (r, last_processed_idx) else
        let r := if conflict
                 then MaybeChangeUncommittedMembershipsBasedOnLog {| r with log_ := l |} else r in
        if idx =? last_idx (log_ r) ⊕ 1 then
          if negb (ct_equals (NextHash r msg_entry) (hash_chain msg_entry))
          then Some (r, last_processed_idx)
          else
            '(r, (_, err)) ← LogAppend r msg_entry;
            if negb (is_ok err) then Some (r, last_processed_idx)
            else append_request_entries r (idx ⊕ 1) idx rest
        else append_request_entries r (idx ⊕ 1) idx rest
  end.

(** Advancing the indices of a follower, with the Merkle leaves. *)
Definition follower_advance (r : Raft) (leader_commit leader_promise : LogIdx) : option (Raft * bool) :=
  let update_merkle := (commit_idx_ r <? leader_commit) || (promise_idx_ r <? leader_promise) in
  err ← (if update_merkle then VerifyMerkleTree r else Some OK);
  if negb (is_ok err) then Some (r, false) else
  let r := if commit_idx_ r <? leader_commit
           then MaybeChangeUncommittedMembershipsBasedOnLog {| r with commit_idx_ := leader_commit |}
           else r in
  let r := if promise_idx_ r <? leader_promise then {| r with promise_idx_ := leader_promise |} else r in
  r ← (if update_merkle then UpdateMerkleTree r else Some r);
  Some (r, true).

(** The [switch (role_)] for a message of the current term; [false] is the
    [return] of a leader. *)
Definition append_request_role (r : Raft) (from : PeerID) : option (Raft * bool) :=
  match role_ r with
  | CANDIDATE =>
      let r := SetRole r FOLLOWER in
      '(t, r) ← RandomElectionTimeout r;
      Some ({| r with follower_ := {| f_leader := Some from; f_election := t |} |}, true)
  | FOLLOWER =>
      '(t, r) ← RandomElectionTimeout r;
      Some ({| r with follower_ := {| f_leader := Some from; f_election := t |} |}, true)
  | LEADER => Some (r, false)
  end.

Definition hash_at (l : Log) (idx : LogIdx) : bytes :=
  match iter_Entry l (At l idx) with Some e => hash_chain e | None => [] end.

Definition HandleAppendRequest (r : Raft) (msg_term : TermId) (msg : AppendRequest) (from : PeerID)
  : option Raft :=
  let prev_log_idx := ar_prev_log_idx msg in
  let our_prev_log := At (log_ r) prev_log_idx in
  let our_prev_log_term := iter_Term (log_ r) our_prev_log in
  let log_ok := (prev_log_idx =? 0) ||
    (iter_Valid (log_ r) our_prev_log && (ar_prev_log_term msg =? our_prev_log_term)) in
  if current_term_ r <? msg_term then Some r else
  '(r, go) ← (if msg_term =? current_term_ r then append_request_role r from else Some (r, true));
  if negb go then Some r else
  if (msg_term <? current_term_ r) ||
     ((msg_term =? current_term_ r) && bool_decide (role_ r = FOLLOWER) && negb log_ok)
  then
    AddSendableMessage r (Reply from
      {| msg_group := group_ r; msg_term := current_term_ r;
         msg_inner := kAppendResponse {|
           as_success := false; as_match_idx := commit_idx_ r;
           as_match_hash_chain := hash_at (log_ r) (commit_idx_ r);
           as_last_log_idx := last_idx (log_ r); as_promise_idx := promise_idx_ r |} |})
  else
  CHECK (msg_term =? current_term_ r) (CHECK (bool_decide (role_ r = FOLLOWER)) (CHECK log_ok (
  '(r, last_processed_idx) ←
     append_request_entries r (prev_log_idx ⊕ 1) prev_log_idx (ar_entries msg);
  let leader_commit := Z.min (ar_leader_commit msg) last_processed_idx in
  let leader_promise := Z.min (ar_leader_promise msg) last_processed_idx in
  '(r, go) ← follower_advance r leader_commit leader_promise;
  if negb go then Some r else
  AddSendableMessage r (Reply from
    {| msg_group := group_ r; msg_term := current_term_ r;
       msg_inner := kAppendResponse {|
         as_success := true; as_match_idx := last_processed_idx;
         as_match_hash_chain := hash_at (log_ r) last_processed_idx;
         as_promise_idx := Z.min (promise_idx_ r) last_processed_idx;
         as_last_log_idx := last_idx (log_ r) |} |})))).

(** The [for] loop at the end of [HandleAppendResponse]; [n] is
    [next_idx - match_idx], which is 0 when the loop breaks. *)
Fixpoint back_off (n : nat) (l : Log) (match_idx chunk_size_remaining : Z) (replication_next_idx : LogIdx)
  : LogIdx :=
  match n with
  | O => replication_next_idx
  | S n' =>
      let next_idx := match_idx + Z.of_nat n in
      let log_entry_size := iter_SerializedSize l (At l replication_next_idx) in
      if chunk_size_remaining <? log_entry_size then replication_next_idx
      else back_off n' l match_idx (chunk_size_remaining - log_entry_size) next_idx
  end.

Definition HandleAppendResponse (r : Raft) (msg_term : TermId) (msg : AppendResponse) (from : PeerID)
  : option Raft :=
  if negb (msg_term =? current_term_ r) then Some r else
  if negb (bool_decide (role_ r = LEADER)) then Some r else
  match map_find (l_followers (leader_ r)) from with
  | None => Some r
  | Some replication =>
      if as_success msg then
        let inflight :=
          match rs_inflight replication with
          | Some i => if i <=? as_match_idx msg then None else Some i
          | None => None
          end in
        let put f := set_followers r (map_set from f (l_followers (leader_ r))) in
        CHECK (match iter_Entry (log_ r) (At (log_ r) (as_match_idx msg)) with
               | Some e => ct_equals (as_match_hash_chain msg) (hash_chain e)
               | None => as_match_idx msg <=? last_idx (log_ r)
               end)
          (Some (put {| replication with
             rs_inflight := inflight;
             rs_next_idx := if rs_next_idx replication <? as_match_idx msg ⊕ 1
                            then as_match_idx msg ⊕ 1 else rs_next_idx replication;
             rs_match_idx := if rs_match_idx replication <? as_match_idx msg
                             then as_match_idx msg else rs_match_idx replication;
             rs_promise_idx := if rs_promise_idx replication <? as_promise_idx msg
                               then as_promise_idx msg else rs_promise_idx replication;
             rs_send_probe := false |}))
      else
        let next := Z.max (as_match_idx msg ⊕ 1)
                      (Z.min (rs_next_idx replication ⊖ 1) (as_last_log_idx msg ⊕ 1)) in
        let start := next ⊖ 1 in
        let n := if start =? MAX64 then O else Z.to_nat (start - as_match_idx msg) in
        let next := back_off n (log_ r) (as_match_idx msg) (replication_chunk_bytes (config_ r)) next in
        Some (set_followers r (map_set from
          {| replication with rs_next_idx := next; rs_send_probe := true; rs_inflight := None |}
          (l_followers (leader_ r))))
  end.

Definition UpdateTerm (r : Raft) (msg : RaftMessage) : option Raft :=
  if msg_term msg <=? current_term_ r then Some r else
  let r := {| r with current_term_ := msg_term msg |} in
  '(new_election_ticks, r) ←
    match role_ r with
    | FOLLOWER => Some (f_election (follower_ r), r)
    | CANDIDATE => Some (c_election (candidate_ r), r)
    | LEADER => RandomElectionTimeout r
    end;
  let r := SetRole r FOLLOWER in
  Some {| r with follower_ := {| f_leader := None; f_election := new_election_ticks |};
                 voted_for_ := None |}.

Definition ShouldDropResponseDueToStaleTerm (r : Raft) (msg : RaftMessage) : bool :=
  msg_term msg <? current_term_ r.

(** *** Validation *)
Definition CheckLogHash (r : Raft) (idx : LogIdx) (term : TermId) (hash : bytes) (allow_future : bool)
  : option Error :=
  let log := log_ r in
  if idx =? 0 then Some OK
  else if idx <? oldest_stored_idx log then Some Raft_MsgTruncated
  else if last_idx log <? idx then Some (if allow_future then OK else Raft_MsgInFuture)
  else
    match iter_Entry log (At log idx) with
    | None => None
    | Some e =>
        if negb (term =? 0) && (entry_term e <? term) then
          Some (if promise_idx_ r <? idx then OK else Raft_MsgTermPromised)
        else if negb (term =? 0) && (term <? entry_term e) then Some OK
        else if negb (ct_equals hash (hash_chain e)) then Some Raft_MsgHashMismatch else Some OK
    end.

Fixpoint check_entries (r : Raft) (idx : LogIdx) (entries : list LogEntry) : option Error :=
  match entries with
  | [] => Some OK
  | e :: rest =>
      err ← CheckLogHash r idx (entry_term e) (hash_chain e) true;
      if negb (is_ok err) then Some err else check_entries r (idx ⊕ 1) rest
  end.

Definition ValidateReceivedMessage (r : Raft) (msg : RaftMessage) (from : PeerID) : option Error :=
  if negb (msg_group msg =? group_ r) then Some Raft_MsgWrongGroup
  else if negb (set_count (all_replicas_ (membership r)) from) then Some Raft_MsgNotPeer
  else
    match msg_inner msg with
    | kVoteRequest m =>
        CheckLogHash r (vr_last_log_idx m) (vr_last_log_term m) (vr_last_log_hash_chain m) true
    | kVoteResponse _ => Some OK
    | kAppendRequest m =>
        err ← CheckLogHash r (ar_prev_log_idx m) (ar_prev_log_term m) (ar_prev_log_hash_chain m) true;
        if negb (is_ok err) then Some err else
        let end_idx := ar_prev_log_idx m ⊕ Zlen (ar_entries m) in
        if end_idx <? ar_leader_commit m then Some Raft_MsgAppendEntryIndex else
        if end_idx <? ar_leader_promise m then Some Raft_MsgAppendEntryIndex else
        if ar_leader_promise m <? ar_leader_commit m then Some Raft_MsgLogIndexOrdering else
        check_entries r (ar_prev_log_idx m ⊕ 1) (ar_entries m)
    | kAppendResponse m =>
        err ← CheckLogHash r (as_match_idx m) 0 (as_match_hash_chain m) false;
        if negb (is_ok err) then Some err else
        if (as_last_log_idx m <? as_match_idx m) || (as_last_log_idx m <? as_promise_idx m)
        then Some Raft_MsgLogIndexOrdering else Some OK
    | kTimeoutNow _ => Some OK
    | MESSAGE_NOT_SET => Some Raft_MsgInvalidType
    end.

(** *** Entry points *)

(** [leader_.followers[from].last_seen_ticks = 0]. *)
Definition mark_seen (r : Raft) (from : PeerID) : Raft :=
  if bool_decide (role_ r = LEADER) then
    match map_find (l_followers (leader_ r)) from with
    | Some f => set_followers r (map_set from {| f with rs_last_seen_ticks := 0 |} (l_followers (leader_ r)))
    | None => r
    end
  else r.

Definition dispatch (r : Raft) (msg : RaftMessage) (from : PeerID) : option Raft :=
  match msg_inner msg with
  | kVoteRequest m => HandleVoteRequest r (msg_term msg) m from
  | kVoteResponse g =>
      if ShouldDropResponseDueToStaleTerm r msg then Some r
      else Some (HandleVoteResponse r (msg_term msg) g from)
  | kAppendRequest m => HandleAppendRequest r (msg_term msg) m from
  | kAppendResponse m =>
      if ShouldDropResponseDueToStaleTerm r msg then Some r
      else HandleAppendResponse r (msg_term msg) m from
  | kTimeoutNow _ => if ShouldDropResponseDueToStaleTerm r msg then Some r else ElectionTimeout r
  | MESSAGE_NOT_SET => Some r
  end.

Definition Receive (r : Raft) (msg : RaftMessage) (from : PeerID) : option Raft :=
  err ← ValidateReceivedMessage r msg from;
  if negb (is_ok err) then Some r else
  r ← UpdateTerm r msg;
  let r := mark_seen r from in
  r ← dispatch r msg from;
  MaybeChangeStateAndSendMessages r.

Definition TimerTick (r : Raft) : option Raft :=
  r ← match role_ r with
      | FOLLOWER =>
          let f := follower_ r in
          let r := {| r with follower_ := {| f with f_election := f_election f - 1 |} |} in
          if f_election (follower_ r) <=? 0 then ElectionTimeout r else Some r
      | CANDIDATE =>
          let c := candidate_ r in
          let r := {| r with candidate_ := {| c with c_election := c_election c - 1 |} |} in
          if c_election (candidate_ r) <=? 0 then ElectionTimeout r else Some r
      | LEADER =>
          let tick f := if rs_last_seen_ticks f =? InvalidTicks then f
                        else {| f with rs_last_seen_ticks := rs_last_seen_ticks f + 1 |} in
          let fs := prod_map id tick <$> l_followers (leader_ r) in
          let l := leader_ r in
          if l_heartbeat l - 1 <=? 0 then
            Some {| r with leader_ := {| l with
              l_followers := prod_map id (fun f => {| f with rs_send_heartbeat := true |}) <$> fs;
              l_heartbeat := heartbeat_ticks (config_ r) |} |}
          else Some {| r with leader_ := {| l with l_followers := fs; l_heartbeat := l_heartbeat l - 1 |} |}
      end;
  MaybeChangeStateAndSendMessages r.

Definition ResetPeer (r : Raft) (id : PeerID) : option Raft :=
  if negb (set_count (all_replicas_ (membership r)) id) then Some r else
  match role_ r with
  | FOLLOWER => Some r
  | CANDIDATE => m ← RequestVoteMessage r; AddSendableMessage r (Reply id m)
  | LEADER =>
      match map_find (l_followers (leader_ r)) id with
      | None => Some r
      | Some state =>
          Some (set_followers r (map_set id
            {| state with rs_next_idx := last_idx (log_ r) ⊕ 1; rs_send_probe := true;
                          rs_send_heartbeat := true; rs_inflight := None |}
            (l_followers (leader_ r))))
      end
  end.

Definition RelinquishLeadership (r : Raft) : option Raft :=
  if negb (bool_decide (role_ r = LEADER)) || l_relinquishing (leader_ r) then Some r else
  '(r, _) ← ClientRequestInternal r LogEntry_default;
  let l := leader_ r in
  MaybeChangeStateAndSendMessages {| r with leader_ := {| l with l_relinquishing := true |} |}.

(** The checks of [LogRequest] for a membership change. *)
Definition log_request_check (r : Raft) (log : LogEntry) : Error :=
  match entry_inner log with
  | kMembershipChange g =>
      if negb (bool_decide (role_ r = LEADER)) || l_relinquishing (leader_ r)
      then Raft_AppendEntryNotLeader
      else if negb (Zlen (uncommitted_memberships_ r) =? 0) then Raft_MembershipAlreadyChanging
      else match FromProto g with
           | (Some next, OK) => ValidProgressionForLeader (me_ r) (membership_ r) next (super_majority_ r)
           | (_, err) => err
           end
  | _ => OK
  end.

Definition LogRequest (r : Raft) (log : LogEntry) : option (Raft * (LogLocation * Error)) :=
  let err := log_request_check r log in
  if negb (is_ok err) then Some (r, (LogLocation_default, err)) else
  '(r, out) ← ClientRequestInternal r log;
  r ← MaybeChangeStateAndSendMessages r;
  Some (r, out).

(** The constructor. *)
Definition Raft_new (group : GroupId) (me : PeerID) (merk : T) (mem : Membership) (log : Log)
    (config : RaftConfig) (committed_log : bool) (super_majority : Z) : option Raft :=
  let idx := if committed_log then last_idx log else 0 in
  '(merk, commit_leaf) ← leaf_new merk;
  '(merk, promise_leaf) ← leaf_new merk;
  let r := {| group_ := group; me_ := me; merkle_ := merk; membership_ := mem;
    uncommitted_memberships_ := []; config_ := config; last_applied_ := idx; current_term_ := 0;
    voted_for_ := None; role_ := FOLLOWER; follower_ := FollowerState_zero;
    candidate_ := CandidateState_zero; leader_ := LeaderState_zero; log_ := log;
    commit_leaf_ := commit_leaf; commit_idx_ := idx; promise_leaf_ := promise_leaf;
    promise_idx_ := idx; sendable_messages_ := []; super_majority_ := super_majority;
    rand_calls_ := 0 |} in
  let r := SetRole r FOLLOWER in
  '(t, r) ← RandomElectionTimeout r;
  let r := {| r with follower_ := {| f_leader := None; f_election := t |} |} in
  r ← UpdateMerkleTree r;
  if voting r && (Zlen (voting_replicas_ (membership r)) =? 1) then
    r ← ElectionTimeout r;
    r ← MaybeChangeStateAndSendMessages r;
    CHECK (Zlen (sendable_messages_ r) =? 0) (Some r)
  else Some r.
End raft.

(** Calls are reasoned about through their lemmas, not by unfolding. *)
#[global] Arguments RandomElectionTimeout : simpl never.
#[global] Arguments AddSendableMessage : simpl never.
#[global] Arguments MerkleHashFromLogIter : simpl never.
#[global] Arguments UpdateMerkleTree : simpl never.
#[global] Arguments VerifyMerkleTree : simpl never.
#[global] Arguments HandleMembershipChange : simpl never.
#[global] Arguments AddUncommittedMembership : simpl never.
#[global] Arguments MaybeChangeUncommittedMembershipsBasedOnLog : simpl never.
#[global] Arguments LogAppend : simpl never.
#[global] Arguments NextHash : simpl never.
#[global] Arguments ClientRequestInternal : simpl never.
#[global] Arguments RequestVoteMessage : simpl never.
#[global] Arguments ElectionTimeout : simpl never.
#[global] Arguments MaybeBecomeLeader : simpl never.
#[global] Arguments AppendEntries : simpl never.
#[global] Arguments MaybeAdvanceCommitIndex : simpl never.
#[global] Arguments TryToRelinquishLeadership : simpl never.
#[global] Arguments MaybeChangeStateAndSendMessages : simpl never.
#[global] Arguments UpdateTerm : simpl never.
#[global] Arguments last_idx : simpl never.
#[global] Arguments next_idx : simpl never.
#[global] Arguments last_term : simpl never.
#[global] Arguments At : simpl never.
#[global] Arguments iter_Entry : simpl never.
#[global] Arguments iter_Term : simpl never.
#[global] Arguments iter_Valid : simpl never.
#[global] Arguments u64 : simpl never.
#[global] Arguments Append : simpl never.
#[global] Arguments CancelFrom : simpl never.
#[global] Arguments membership : simpl never.
#[global] Arguments membership_quorum_size : simpl never.
#[global] Arguments map_find : simpl never.
#[global] Arguments set_count : simpl never.
#[global] Arguments ct_equals : simpl never.
