(* ===== verification/RaftInv.v ===== *)
(** * The invariant of a Raft replica

    [inv] collects what holds between calls; [step] what a call may do to the
    state (indices and terms grow, votes and promised entries stay).  The
    lemmas below give, for every helper of raft.cc, that it does not abort,
    keeps the invariant and is a [step]. *)
From stdpp Require Import prelude gmap sorting.
From S2P Require Import Prelude Errors Containers Util RaftTypes RaftLog PeerId Membership Merkle Raft.

(** ** Order statistics of [std::sort] with greater-than *)
Definition count_ge (x : Z) (l : list Z) : nat := length (List.filter (Z.leb x) l).

Lemma count_ge_cons x y l : count_ge x (y :: l) = ((if (x <=? y)%Z then 1 else 0) + count_ge x l)%nat.
Proof. unfold count_ge. simpl. by destruct (x <=? y). Qed.

Lemma count_ge_app x l k : count_ge x (l ++ k) = (count_ge x l + count_ge x k)%nat.
Proof. unfold count_ge. by rewrite List.filter_app, length_app. Qed.

Lemma insert_desc_perm x l : insert_desc x l ≡ₚ x :: l.
Proof.
  induction l as [|y l IH]; simpl; [done|]. destruct (y <? x); [done|].
  rewrite IH. constructor.
Qed.

Lemma sort_desc_perm l : sort_desc l ≡ₚ l.
Proof. induction l as [|x l IH]; simpl; [done|]. by rewrite insert_desc_perm, IH. Qed.

Lemma insert_desc_sorted x l :
  StronglySorted (fun a b => b <= a) l -> StronglySorted (fun a b => b <= a) (insert_desc x l).
Proof.
  induction 1 as [|y l Hl IH Hy]; simpl; [repeat constructor|].
  destruct (y <? x) eqn:E.
  - constructor; [by constructor|]. constructor; [lia|].
    eapply Forall_impl; [exact Hy|]. simpl. lia.
  - constructor; [done|]. rewrite insert_desc_perm. constructor; [lia|done].
Qed.

Lemma sort_desc_sorted l : StronglySorted (fun a b => b <= a) (sort_desc l).
Proof. induction l as [|x l IH]; simpl; [constructor|]. by apply insert_desc_sorted. Qed.

Lemma count_ge_perm x l k : l ≡ₚ k -> count_ge x l = count_ge x k.
Proof.
  induction 1; rewrite ?count_ge_cons; simpl; [done|by f_equal|lia|congruence].
Qed.

Lemma sorted_count l (k : nat) x :
  StronglySorted (fun a b => b <= a) l -> l !! k = Some x ->
  (k < count_ge x l)%nat /\ forall y, (k < count_ge y l)%nat -> y <= x.
Proof.
  intros Hl. revert k. induction Hl as [|a l Hl IH Ha]; intros k Hk; [done|].
  assert (Hmax : forall y, a < y -> count_ge y l = 0%nat).
  { intros y Hy. unfold count_ge. clear -Hy Ha. induction l as [|b l IHl]; [done|].
    apply Forall_cons in Ha as [Hb Ha]. simpl. destruct (y <=? b) eqn:E; [lia|auto]. }
  destruct k as [|k]; simpl in Hk.
  - simplify_eq. rewrite count_ge_cons, Z.leb_refl. split; [lia|].
    intros y. rewrite count_ge_cons. destruct (y <=? x) eqn:E; [lia|]. rewrite Hmax by lia. lia.
  - destruct (IH _ Hk) as [H1 H2]. rewrite count_ge_cons.
    assert (x <= a).
    { rewrite Forall_forall in Ha. apply Ha. by apply list_elem_of_lookup_2 in Hk. }
    rewrite (proj2 (Z.leb_le x a)) by done. split; [lia|].
    intros y. rewrite count_ge_cons. destruct (y <=? a) eqn:E; [|rewrite Hmax by lia; lia].
    intros. apply H2. lia.
Qed.

(** The element [sort_desc l !! k]: at least [k + 1] elements reach it, and
    no larger value is reached by as many. *)
Lemma sort_desc_nth l (k : nat) x :
  sort_desc l !! k = Some x ->
  (k < count_ge x l)%nat /\ (forall y, (k < count_ge y l)%nat -> y <= x) /\ x ∈ l.
Proof.
  intros Hk. pose proof (sort_desc_perm l) as Hp.
  destruct (sorted_count _ _ _ (sort_desc_sorted l) Hk) as [H1 H2].
  rewrite (count_ge_perm _ _ _ Hp) in H1. split_and!; [done| |].
  - intros y Hy. apply H2. by rewrite (count_ge_perm _ _ _ Hp).
  - rewrite <- Hp. by apply list_elem_of_lookup_2 in Hk.
Qed.

Lemma count_ge_pointwise {A} (f g : A -> Z) x (l : list A) :
  Forall (fun a => f a <= g a) l -> (count_ge x (f <$> l) <= count_ge x (g <$> l))%nat.
Proof.
  induction 1 as [|a l Ha _ IH]; [done|]. rewrite !fmap_cons, !count_ge_cons.
  destruct (x <=? f a) eqn:E1, (x <=? g a) eqn:E2; lia.
Qed.

(** ** The invariant *)
Section inv.
Context {T L : Type} `{!EqDecision L, !Countable L} {MO : MerkleOps T L} {MS : MerkleSpec T L}.
Context {RP : RaftPlatform} {RPL : RaftPlatformLaws}.
Notation Raft := (Raft T L).
Implicit Types r : Raft.

(** A membership that can elect: well formed, with a voter. *)
Record membership_good (m : Membership) : Prop := {
  mg_ok : membership_ok m;
  mg_voters : voting_replicas_ m <> [];
  mg_size : Zlen (all_replicas_ m) < 2 ^ 62 }.

(** Entries of a log or message: their term is a [uint64], and a membership
    they carry is one a leader may have proposed. *)
Definition entry_wf (e : LogEntry) : Prop :=
  is_u64 (entry_term e) /\
  match entry_inner e with
  | kMembershipChange g => forall m, FromProto g = (Some m, OK) -> membership_good m
  | _ => True
  end.

(** Messages as replicas produce them: every message in flight in a reachable
    cluster satisfies this ([cl_net] in RaftCluster).  It is more than
    [ValidateReceivedMessage] checks: that compares the promise index of a
    response with the sender's last index only, and does not look into the
    entries of an append request. *)
Definition message_wf (m : RaftMessage) : Prop :=
  is_u64 (msg_term m) /\ msg_term m < 2 ^ 64 - 1 /\
  match msg_inner m with
  | kVoteRequest v => is_u64 (vr_last_log_idx v)
  | kAppendRequest a => is_u64 (ar_prev_log_idx a) /\ Forall entry_wf (ar_entries a)
  | kAppendResponse a =>
      is_u64 (as_match_idx a) /\ is_u64 (as_last_log_idx a) /\ is_u64 (as_promise_idx a) /\
      (as_success a = true -> as_promise_idx a <= as_match_idx a)
  | _ => True
  end.

(** Every stored hash is the HMAC of its entry under the previous hash. *)
Record chain_ok (l : Log) : Prop := {
  ch_first : forall e, log_at l 1 = Some e ->
    hash_chain e = hmac_sha256 (replicate 32 0) (hash_input 1 e);
  ch_next : forall i e0 e, log_at l i = Some e0 -> log_at l (i + 1) = Some e ->
    hash_chain e = hmac_sha256 (hash_chain e0) (hash_input (i + 1) e) }.

Lemma chain_ok_sub l l' :
  (forall i e, log_at l' i = Some e -> log_at l i = Some e) -> chain_ok l -> chain_ok l'.
Proof. intros Hs [H1 H2]. split; eauto. Qed.

(** The log and the four indices. *)
Record idx_inv (l : Log) (applied commit promise : LogIdx) : Prop := {
  ii_log : log_ok l;
  ii_applied : 0 <= applied;
  ii_commit : applied <= commit;
  ii_promise : commit <= promise;
  ii_last : promise <= last_idx l;
  ii_oldest : oldest_stored_idx_ l <= Z.max 1 applied;
  ii_entries : Forall entry_wf (entries_ l);
  ii_chain : chain_ok l }.

(** The committed membership and those of uncommitted entries, in order. *)
Record members_inv (m : Membership) (us : list (LogIdx * Membership)) (last : LogIdx) (sm : Z) : Prop := {
  mi_good : membership_good m;
  mi_goods : Forall (fun u => membership_good u.2) us;
  mi_sorted : StronglySorted (fun u v => u.1 < v.1) us;
  mi_last : Forall (fun u => 0 < u.1 <= last) us;
  mi_super : 0 <= sm < 2 ^ 62 }.

(** What a leader knows of a follower. *)
Record follower_ok (last : LogIdx) (f : ReplicationState) : Prop := {
  fo_next : 1 <= rs_next_idx f <= last + 1;
  fo_promise : 0 <= rs_promise_idx f <= rs_match_idx f;
  fo_match : rs_match_idx f <= last }.

(** A leader tracks exactly the other replicas. *)
Record followers_inv (me : PeerID) (all : list PeerID) (last : LogIdx)
    (fs : list (PeerID * ReplicationState)) : Prop := {
  fi_ok : map_ok fs;
  fi_keys : forall p, p ∈ fs.*1 <-> p ∈ all /\ p <> me;
  fi_all : Forall (fun pf => follower_ok last pf.2) fs }.

(** The first eight bytes of the hash chain at an index. *)
Definition hash8 (l : Log) (idx : LogIdx) : Hash :=
  match log_at l idx with Some e => take MERKLE_HASH_SIZE (hash_chain e) | None => zero_hash end.

(** The Merkle leaves exist; [merkle_sync]: they hold the current indices' hashes. *)
Record merkle_live r : Prop := {
  ml_tree : tree_ok ∅ (merkle_ r);
  ml_ne : commit_leaf_ r <> promise_leaf_ r;
  ml_commit : is_Some (tree_view (merkle_ r) !! commit_leaf_ r);
  ml_promise : is_Some (tree_view (merkle_ r) !! promise_leaf_ r) }.
Record merkle_sync r : Prop := {
  ms_live : merkle_live r;
  ms_commit : tree_view (merkle_ r) !! commit_leaf_ r = Some (hash8 (log_ r) (commit_idx_ r));
  ms_promise : tree_view (merkle_ r) !! promise_leaf_ r = Some (hash8 (log_ r) (promise_idx_ r)) }.

(** A candidate has voted for itself and collected votes of voters; a leader
    has too, and tracks the other replicas. *)
Definition role_inv r : Prop :=
  match role_ r with
  | FOLLOWER => True
  | CANDIDATE =>
      voted_for_ r = Some (me_ r) /\ me_ r ∈ voting_replicas_ (membership r) /\
      set_ok (c_votes_granted (candidate_ r)) /\
      c_votes_granted (candidate_ r) ⊆ voting_replicas_ (membership r)
  | LEADER =>
      voted_for_ r = Some (me_ r) /\ me_ r ∈ voting_replicas_ (membership r) /\
      followers_inv (me_ r) (all_replicas_ (membership r)) (last_idx (log_ r))
        (l_followers (leader_ r))
  end.

Record core_inv r : Prop := {
  ci_idx : idx_inv (log_ r) (last_applied_ r) (commit_idx_ r) (promise_idx_ r);
  ci_mem : members_inv (membership_ r) (uncommitted_memberships_ r) (last_idx (log_ r)) (super_majority_ r);
  ci_term : 0 <= current_term_ r < 2 ^ 64 - 1;
  ci_config : 0 < election_ticks (config_ r);
  ci_role : role_inv r }.

Lemma ci_followers r : core_inv r -> role_ r = LEADER ->
  followers_inv (me_ r) (all_replicas_ (membership r)) (last_idx (log_ r)) (l_followers (leader_ r)).
Proof. intros [_ _ _ _ H] Hr. unfold role_inv in H. rewrite Hr in H. apply H. Qed.

Record inv r : Prop := {
  inv_core : core_inv r;
  inv_sync : merkle_sync r;
  inv_msgs : Forall (fun m => message_wf (sm_message m)) (sendable_messages_ r) }.

(** ** What a call may do *)
Record step r r' : Prop := {
  st_me : me_ r' = me_ r;
  st_group : group_ r' = group_ r;
  st_super : super_majority_ r' = super_majority_ r;
  st_leaves : commit_leaf_ r' = commit_leaf_ r /\ promise_leaf_ r' = promise_leaf_ r;
  st_term : current_term_ r <= current_term_ r';
  st_vote : current_term_ r' = current_term_ r -> forall v, voted_for_ r = Some v -> voted_for_ r' = Some v;
  st_applied : last_applied_ r' = last_applied_ r;
  st_commit : commit_idx_ r <= commit_idx_ r';
  st_promise : promise_idx_ r <= promise_idx_ r';
  st_oldest : oldest_stored_idx_ (log_ r) <= oldest_stored_idx_ (log_ r');
  st_log : forall idx, oldest_stored_idx_ (log_ r') <= idx <= promise_idx_ r ->
             log_at (log_ r') idx = log_at (log_ r) idx;
  st_tree : forall l, l <> commit_leaf_ r -> l <> promise_leaf_ r ->
              tree_view (merkle_ r') !! l = tree_view (merkle_ r) !! l }.

Lemma step_refl r : step r r.
Proof. by split. Qed.

Lemma step_trans r1 r2 r3 : step r1 r2 -> step r2 r3 -> step r1 r3.
Proof.
  intros [A1 A2 A3 A4 A5 A6 A7 A8 A9 A10 A11 A12] [B1 B2 B3 B4 B5 B6 B7 B8 B9 B10 B11 B12].
  split; try congruence; try lia.
  - intuition congruence.
  - intros Ht v Hv. apply B6; [lia|]. apply A6; [lia|done].
  - intros idx Hi. rewrite B11, A11 by lia. done.
  - intros l H1 H2. destruct A4 as [A4 A4']. rewrite B12, A12; congruence.
Qed.

(** Nothing but role, term, vote, timers, messages changes. *)
Definition data (r : Raft) :=
  (me_ r, group_ r, merkle_ r, membership_ r, uncommitted_memberships_ r, last_applied_ r, log_ r,
   commit_leaf_ r, commit_idx_ r, promise_leaf_ r, promise_idx_ r, super_majority_ r).

Lemma step_same_data r r' :
  data r' = data r -> current_term_ r <= current_term_ r' ->
  (current_term_ r' = current_term_ r -> forall v, voted_for_ r = Some v -> voted_for_ r' = Some v) ->
  step r r'.
Proof.
  unfold data. intros E Ht Hv. injection E as E1 E2 E3 E4 E5 E6 E7 E8 E9 E10 E11 E12.
  split; rewrite ?E7, ?E9, ?E11; try done; congruence.
Qed.

Lemma membership_same_data r r' : data r' = data r -> membership r' = membership r.
Proof.
  unfold data. intros E. injection E as E1 E2 E3 E4 E5 E6 E7 E8 E9 E10 E11 E12.
  unfold membership. by rewrite E4, E5.
Qed.

Lemma sync_same_data r r' : data r' = data r -> merkle_sync r -> merkle_sync r'.
Proof.
  unfold data. intros E [[H1 H2 H3 H4] H5 H6].
  injection E as E1 E2 E3 E4 E5 E6 E7 E8 E9 E10 E11 E12.
  split; [split|..]; congruence.
Qed.

(** The core invariant after a change of role, term, vote, timers. *)
Lemma core_same_data r r' :
  data r' = data r -> core_inv r -> 0 <= current_term_ r' < 2 ^ 64 - 1 ->
  0 < election_ticks (config_ r') -> role_inv r' -> core_inv r'.
Proof.
  intros E [H1 H2 H3 H4 H5] Ht Hc Hf.
  unfold data in E. injection E as E1 E2 E3 E4 E5 E6 E7 E8 E9 E10 E11 E12.
  split; [congruence|congruence|done|done|done].
Qed.

(** ** Calls that leave the data alone *)
Record light r r' : Prop := {
  li_data : data r' = data r;
  li_core : core_inv r';
  li_step : step r r';
  li_msgs : Forall (fun m => message_wf (sm_message m)) (sendable_messages_ r') }.

Lemma light_refl r : inv r -> light r r.
Proof. intros []. split; auto using step_refl. Qed.
Lemma light_trans r1 r2 r3 : light r1 r2 -> light r2 r3 -> light r1 r3.
Proof. intros [] []. split; [congruence|done|by eapply step_trans|done]. Qed.
Lemma light_inv r r' : inv r -> light r r' -> inv r'.
Proof. intros [] []. split; [done|by eapply sync_same_data|done]. Qed.

(** The control state that a message being queued does not touch. *)
Definition ctrl (r : Raft) :=
  (current_term_ r, voted_for_ r, role_ r, follower_ r, candidate_ r, leader_ r, config_ r).

Lemma core_same_ctrl r r' : data r' = data r -> ctrl r' = ctrl r -> core_inv r -> core_inv r'.
Proof.
  intros Ed Ec Hc. unfold ctrl in Ec. injection Ec as C1 C2 C3 C4 C5 C6 C7.
  pose proof (membership_same_data _ _ Ed) as Em.
  eapply core_same_data; [done|done|..]; destruct Hc as [_ _ ? ? Hr]; [congruence|congruence|].
  unfold data in Ed. injection Ed as E1 E2 E3 E4 E5 E6 E7 E8 E9 E10 E11 E12.
  unfold role_inv in *. by rewrite C2, C3, C5, C6, Em, E1, E7.
Qed.

Lemma step_same_ctrl r r' : data r' = data r -> ctrl r' = ctrl r -> step r r'.
Proof.
  intros Ed Ec. unfold ctrl in Ec. injection Ec as C1 C2 C3 C4 C5 C6 C7.
  apply step_same_data; [done|lia|]. congruence.
Qed.

Lemma AddSendableMessage_spec r m :
  (forall p, sm_to m = Some p -> p <> me_ r) ->
  exists r', AddSendableMessage r m = Some r' /\ data r' = data r /\ ctrl r' = ctrl r /\
    (sendable_messages_ r' = sendable_messages_ r \/
     sendable_messages_ r' = sendable_messages_ r ++ [m]).
Proof.
  intros Hto. unfold AddSendableMessage. destruct (sm_to m) as [to|].
  - rewrite bool_decide_eq_false_2 by (by apply Hto). simpl. eauto 10.
  - destruct (_ && _); eauto 10.
Qed.

Lemma AddSendableMessage_light r0 r m :
  light r0 r -> message_wf (sm_message m) -> (forall p, sm_to m = Some p -> p <> me_ r) ->
  exists r', AddSendableMessage r m = Some r' /\ light r0 r' /\ ctrl r' = ctrl r.
Proof.
  intros Hl Hm Hto. destruct (AddSendableMessage_spec r m Hto) as (r' & -> & Hd & Hc & Hs).
  exists r'. split_and!; [done| |done]. eapply light_trans; [done|]. destruct Hl.
  split; [done|by eapply core_same_ctrl|by apply step_same_ctrl|].
  destruct Hs as [->| ->]; [done|]. apply Forall_app. auto.
Qed.

Lemma RandomElectionTimeout_eq r :
  0 < election_ticks (config_ r) ->
  exists t, RandomElectionTimeout r = Some (t, {| r with rand_calls_ := S (rand_calls_ r) |}).
Proof. intros Hc. unfold RandomElectionTimeout. rewrite (proj2 (Z.eqb_neq _ _)) by lia. eauto. Qed.

(** A light step that changes role, term or vote. *)
Lemma light_demote r r' :
  inv r -> data r' = data r -> role_inv r' ->
  current_term_ r <= current_term_ r' < 2 ^ 64 - 1 ->
  (current_term_ r' = current_term_ r -> forall v, voted_for_ r = Some v -> voted_for_ r' = Some v) ->
  config_ r' = config_ r -> sendable_messages_ r' = sendable_messages_ r -> light r r'.
Proof.
  intros [Hc Hs Hm] Hd Hr Ht Hv Hcf Hms. pose proof (ci_term _ Hc). pose proof (ci_config _ Hc).
  split; [done| |apply step_same_data; auto; lia|by rewrite Hms].
  eapply core_same_data; eauto; [lia|by rewrite Hcf].
Qed.

(** A light step that keeps term and vote. *)
Lemma light_keep r r' :
  inv r -> data r' = data r -> current_term_ r' = current_term_ r ->
  voted_for_ r' = voted_for_ r -> 0 < election_ticks (config_ r') ->
  sendable_messages_ r' = sendable_messages_ r -> role_inv r' -> light r r'.
Proof.
  intros [Hc Hs Hm] Hd Ht Hv Hcf Hms Hr. pose proof (ci_term _ Hc).
  split; [done| |apply step_same_data; [done|lia|congruence]|by rewrite Hms].
  eapply core_same_data; eauto. congruence.
Qed.

Lemma last_idx_inv r : inv r -> log_ok (log_ r).
Proof. intros [[[] _ _ _ _] _ _]. done. Qed.

Lemma log_index_u64 l : log_ok l -> is_u64 (last_idx l).
Proof. intros Hl. pose proof (last_idx_range l Hl). ulia. Qed.

Lemma candidate_role_inv r t :
  me_ r ∈ voting_replicas_ (membership r) -> role_ r = CANDIDATE -> voted_for_ r = Some (me_ r) ->
  candidate_ r = {| c_votes_granted := [me_ r]; c_election := t |} -> role_inv r.
Proof.
  intros Hm Hr Hv Hc. unfold role_inv. rewrite Hr, Hc. simpl.
  split_and!; [done|done|repeat constructor|set_solver].
Qed.

Lemma ElectionTimeout_light r :
  inv r -> current_term_ r < 2 ^ 64 - 2 ->
  exists r', ElectionTimeout r = Some r' /\ light r r'.
Proof.
  intros Hi Ht. pose proof Hi as [Hc _ _]. pose proof (ci_term _ Hc). pose proof (ci_config _ Hc).
  unfold ElectionTimeout. destruct (voting r) eqn:Hv; simpl.
  - destruct (role_ r) eqn:Hr; [| |eexists; split; [done|by apply light_refl]].
    all: set (r1 := SetRole _ CANDIDATE).
    all: destruct (RandomElectionTimeout_eq r1) as [t ->]; [done|]; simpl.
    all: edestruct AddSendableMessage_light as (r' & -> & Hl & _); [| | |by eauto].
    all: try (apply light_demote; [done|done|eapply candidate_role_inv; [by apply set_count_spec|done..]
      |simpl; ulia|simpl; ulia|done|done]).
    all: try done.
    all: split; [simpl; ulia|]; split; [simpl; ulia|]; apply log_index_u64; by apply last_idx_inv.
  - destruct (RandomElectionTimeout_eq r) as [t ->]; [done|]. simpl. eexists. split; [done|].
    apply light_keep; try done. apply Hc.
Qed.

Lemma pick_election_ticks r :
  0 < election_ticks (config_ r) ->
  exists t r', match role_ r with
    | FOLLOWER => Some (f_election (follower_ r), r)
    | CANDIDATE => Some (c_election (candidate_ r), r)
    | LEADER => RandomElectionTimeout r
    end = Some (t, r') /\ data r' = data r /\ current_term_ r' = current_term_ r /\
      config_ r' = config_ r /\ sendable_messages_ r' = sendable_messages_ r.
Proof.
  intros Hc. destruct (role_ r); [eauto 10..|].
  destruct (RandomElectionTimeout_eq r Hc) as [t ->]. eauto 10.
Qed.

Lemma UpdateTerm_light r msg :
  inv r -> message_wf msg -> exists r', UpdateTerm r msg = Some r' /\ light r r' /\
    msg_term msg <= current_term_ r'.
Proof.
  intros Hi (Hm & Hm1 & _). pose proof Hi as [Hc _ _]. pose proof (ci_config _ Hc).
  unfold UpdateTerm. destruct (msg_term msg <=? current_term_ r) eqn:E.
  { exists r. split_and!; [done|by apply light_refl|lia]. }
  destruct (pick_election_ticks {| r with current_term_ := msg_term msg |})
    as (t & r1 & -> & Hd & Ht & Hcf & Hms); [done|].
  simpl in *. eexists. split; [done|]. simpl.
  split; [|lia]. apply light_demote; simpl; try done; [ulia|lia].
Qed.

(** ** The leader's table of followers *)
Lemma followers_set me all last fs p f f' :
  followers_inv me all last fs -> map_find fs p = Some f -> follower_ok last f' ->
  followers_inv me all last (map_set p f' fs).
Proof.
  intros [H1 H2 H3] Hf Hf'. split; [by apply map_set_ok| |by apply Forall_map_set].
  intros q. rewrite <- H2, elem_map_set_keys. split; [|by right].
  intros [->|Hq]; [|done]. apply map_find_elem in Hf. by apply (list_elem_of_fmap_2 fst _ (p, f)).
Qed.

Lemma followers_fmap me all last fs g :
  (forall f, follower_ok last f -> follower_ok last (g f)) ->
  followers_inv me all last fs -> followers_inv me all last (prod_map id g <$> fs).
Proof.
  intros Hg [H1 H2 H3].
  assert (E : (prod_map id g <$> fs).*1 = fs.*1).
  { rewrite <- list_fmap_compose. by apply list_fmap_ext. }
  split; [unfold map_ok; by rewrite E|by rewrite E|].
  apply Forall_fmap. eapply Forall_impl; [exact H3|]. intros [q f]. simpl. auto.
Qed.

Lemma followers_find me all last fs p f :
  followers_inv me all last fs -> map_find fs p = Some f ->
  follower_ok last f /\ p ∈ all /\ p <> me.
Proof.
  intros [H1 H2 H3] Hf%map_find_elem. rewrite Forall_forall in H3. split; [by apply (H3 _ Hf)|].
  apply H2. by apply (list_elem_of_fmap_2 fst _ (p, f)).
Qed.

Lemma follower_ok_seen last f t :
  follower_ok last f -> follower_ok last {| f with rs_last_seen_ticks := t |}.
Proof. by intros []. Qed.
Lemma follower_ok_heartbeat last f b :
  follower_ok last f -> follower_ok last {| f with rs_send_heartbeat := b |}.
Proof. by intros []. Qed.

Lemma role_inv_set_followers r fs :
  role_inv r ->
  (role_ r = LEADER ->
   followers_inv (me_ r) (all_replicas_ (membership r)) (last_idx (log_ r)) fs) ->
  role_inv (set_followers r fs).
Proof.
  unfold role_inv. intros H Hf. simpl. destruct (role_ r) eqn:Hr; [done|done|].
  destruct H as (H1 & H2 & _). split_and!; [done|done|by apply Hf].
Qed.

(** Changing one follower's state. *)
Lemma set_follower_light r p f f' :
  inv r -> role_ r = LEADER -> map_find (l_followers (leader_ r)) p = Some f ->
  follower_ok (last_idx (log_ r)) f' ->
  light r (set_followers r (map_set p f' (l_followers (leader_ r)))).
Proof.
  intros Hi Hr Hf Hf'. pose proof Hi as [Hc _ _]. apply light_keep; try done; [apply Hc|].
  apply role_inv_set_followers; [apply Hc|]. intros _. eapply followers_set; [by apply ci_followers|done|done].
Qed.

Lemma mark_seen_light r from : inv r -> light r (mark_seen r from).
Proof.
  intros Hi. unfold mark_seen. case_bool_decide as Hr; [|by apply light_refl].
  destruct (map_find _ from) as [f|] eqn:Hf; [|by apply light_refl].
  eapply set_follower_light; [done|done|done|]. apply follower_ok_seen.
  pose proof Hi as [Hc _ _]. by eapply followers_find in Hf as [? _]; [|by apply ci_followers].
Qed.

Lemma mark_seen_ctrl r from :
  current_term_ (mark_seen r from) = current_term_ r /\ me_ (mark_seen r from) = me_ r.
Proof. unfold mark_seen. case_bool_decide; [|done]. by destruct (map_find _ from). Qed.

(** ** Handlers *)
Lemma HandleVoteResponse_light r t g from : inv r -> light r (HandleVoteResponse r t g from).
Proof.
  intros Hi. unfold HandleVoteResponse.
  destruct (negb _); [by apply light_refl|].
  case_bool_decide as Hr; simpl; [|by apply light_refl].
  destruct (_ && _) eqn:E; [|by apply light_refl]. btrue.
  pose proof Hi as [Hc _ _]. apply light_keep; try done; [apply Hc|].
  destruct Hc as [_ _ _ _ Hc]. unfold role_inv in *. simpl. rewrite Hr in *.
  destruct Hc as (H1 & H2 & H3 & H4). split_and!; [done|done|by apply set_insert_ok|].
  intros p [->|Hp]%elem_of_set_insert; [by apply set_count_spec|auto].
Qed.

Lemma HandleVoteRequest_light r t m from :
  inv r -> from <> me_ r ->
  exists r', HandleVoteRequest r t m from = Some r' /\ light r r'.
Proof.
  intros Hi Hfrom. pose proof Hi as [Hc _ _].
  pose proof (ci_config _ Hc). pose proof (ci_term _ Hc).
  unfold HandleVoteRequest. destruct (current_term_ r <? t); [eauto using light_refl|].
  match goal with |- context [kVoteResponse ?g] => set (grant := g) end.
  assert (exists r1, (if grant then
      '(t, r) ← RandomElectionTimeout {| r with voted_for_ := Some from |};
      Some (let f := follower_ r in {| r with follower_ := {| f with f_election := t |} |})
    else Some r) = Some r1 /\ light r r1 /\ current_term_ r1 = current_term_ r) as (r1 & Heq & Hl & Ht).
  { destruct grant eqn:Hg; [|eauto using light_refl].
    destruct (RandomElectionTimeout_eq {| r with voted_for_ := Some from |}) as [t' ->]; [done|].
    simpl. eexists. split; [done|]. split; [|done]. unfold grant in Hg.
    apply andb_true_iff in Hg as [_ Hv].
    split; [done| |apply step_same_data; [done|simpl; lia|]|by apply Hi].
    - eapply (core_same_data r); try done. destruct Hc as [_ _ _ _ Hr].
      unfold role_inv in *. simpl. destruct (role_ r); [done|..].
      all: destruct Hr as [Hr ?]; rewrite Hr in Hv; apply bool_decide_eq_true in Hv; congruence.
    - intros _ v Hv'. simpl. rewrite Hv' in Hv. by apply bool_decide_eq_true in Hv as ->. }
  simpl in Heq. rewrite Heq. simpl.
  destruct (AddSendableMessage_light r r1 (Reply from {| msg_group := group_ r1;
    msg_term := current_term_ r1; msg_inner := kVoteResponse grant |}))
    as (r' & -> & Hl' & _); [done| | |eauto].
  - split; [simpl; ulia|]. simpl. split; [lia|done].
  - intros p [= <-]. by rewrite (st_me _ _ (li_step _ _ Hl)).
Qed.

Lemma append_request_role_light r from :
  inv r -> exists r' go, append_request_role r from = Some (r', go) /\ light r r' /\
    current_term_ r' = current_term_ r /\ (go = true -> role_ r' = FOLLOWER) /\
    (go = false -> role_ r' = LEADER).
Proof.
  intros Hi. pose proof Hi as [Hc _ _]. pose proof (ci_config _ Hc). pose proof (ci_term _ Hc).
  unfold append_request_role. destruct (role_ r) eqn:Hr.
  - destruct (RandomElectionTimeout_eq r) as [t ->]; [done|]. simpl. eexists _, _. split; [done|].
    split_and!; [|done|done|done]. apply light_demote; simpl; try done; [by rewrite Hr|lia].
  - destruct (RandomElectionTimeout_eq (SetRole r FOLLOWER)) as [t ->]; [done|]. simpl.
    eexists _, _. split; [done|].
    split_and!; [|done|done|done]. apply light_demote; simpl; try done. lia.
  - eexists _, _. split; [done|]. split_and!; auto using light_refl. done.
Qed.

(** ** Validation *)

(** What an accepted position in the log means. *)
Definition position_ok r (idx : LogIdx) (term : TermId) (hash : bytes) (fut : bool) : Prop :=
  idx = 0 \/ (last_idx (log_ r) < idx /\ fut = true) \/
  exists e, log_at (log_ r) idx = Some e /\
    (term = 0 \/ term = entry_term e -> hash = hash_chain e) /\
    (term <> 0 -> entry_term e < term -> promise_idx_ r < idx).

Lemma CheckLogHash_spec r idx term hash fut :
  log_ok (log_ r) -> is_u64 idx ->
  exists err, CheckLogHash r idx term hash fut = Some err /\
    (err = OK -> position_ok r idx term hash fut).
Proof.
  intros Hl Hi. unfold CheckLogHash, position_ok.
  destruct (idx =? 0) eqn:E0; [eexists; split; [done|lia]|].
  destruct (idx <? oldest_stored_idx (log_ r)) eqn:E1; [eexists; split; [done|done]|].
  destruct (last_idx (log_ r) <? idx) eqn:E2.
  { eexists. split; [done|]. destruct fut; [intros _; right; left; lia|done]. }
  rewrite iter_Entry_At by done.
  assert (is_Some (log_at (log_ r) idx)) as [e He].
  { apply log_at_is_Some; [done|]. unfold oldest_stored_idx in E1.
    destruct (Zlen (entries_ (log_ r)) =? 0) eqn:E3; [|lia].
    unfold last_idx in E2. rewrite E3 in E2. unfold is_u64 in Hi. lia. }
  rewrite He. rewrite ct_equals_eq.
  destruct (negb (term =? 0) && (entry_term e <? term)) eqn:Ea.
  { eexists. split; [done|]. destruct (promise_idx_ r <? idx) eqn:Ep; [|done].
    intros _. right. right. exists e. split_and!; [done| |lia]. intros. lia. }
  destruct (negb (term =? 0) && (term <? entry_term e)) eqn:Eb.
  { eexists. split; [done|]. intros _. right. right. exists e. split_and!; [done|lia|lia]. }
  case_bool_decide; simpl; eexists; (split; [done|]); [|done].
  intros _. right. right. exists e. split_and!; [done|done|lia].
Qed.

Lemma check_entries_spec r idx es :
  log_ok (log_ r) -> is_u64 idx -> exists err, check_entries r idx es = Some err.
Proof.
  intros Hl. revert idx. induction es as [|e es IH]; intros idx Hi; simpl; [eauto|].
  destruct (CheckLogHash_spec r idx (entry_term e) (hash_chain e) true Hl Hi) as (err & -> & _).
  simpl. destruct (is_ok err); simpl; [|eauto]. apply IH, u64_range.
Qed.

(** Validation never aborts; what it guarantees of an accepted message. *)
Lemma ValidateReceivedMessage_spec r msg from :
  inv r -> message_wf msg ->
  exists err, ValidateReceivedMessage r msg from = Some err /\
    (err = OK -> msg_group msg = group_ r /\ from ∈ all_replicas_ (membership r) /\
       match msg_inner msg with
       | kAppendRequest m =>
           position_ok r (ar_prev_log_idx m) (ar_prev_log_term m) (ar_prev_log_hash_chain m) true /\
           ar_leader_commit m <= ar_leader_promise m
       | kAppendResponse m =>
           position_ok r (as_match_idx m) 0 (as_match_hash_chain m) false
       | _ => True
       end).
Proof.
  intros Hi (_ & _ & Hm). pose proof (last_idx_inv _ Hi) as Hl.
  unfold ValidateReceivedMessage. destruct (msg_group msg =? group_ r) eqn:Eg; simpl; [|by eexists].
  destruct (set_count _ from) eqn:Ef; simpl; [|by eexists]. apply set_count_spec in Ef.
  assert (msg_group msg = group_ r) by lia. destruct (msg_inner msg) as [|v|g|a|a|b].
  - by eexists.
  - edestruct (CheckLogHash_spec r) as (err & -> & _); [done|exact Hm|]. eauto.
  - by eexists.
  - destruct Hm as [Hp _].
    edestruct (CheckLogHash_spec r) as (err & -> & Hpos); [done|exact Hp|]. simpl.
    destruct (is_ok err) eqn:Eo; simpl; [|eexists; split; [done|by intros ->]].
    apply is_ok_spec in Eo. specialize (Hpos Eo).
    destruct (_ <? _); [by eexists|]. destruct (_ <? _); [by eexists|].
    destruct (ar_leader_promise a <? ar_leader_commit a) eqn:E; [by eexists|].
    destruct (check_entries_spec r (ar_prev_log_idx a ⊕ 1) (ar_entries a) Hl) as [err2 ->];
      [apply u64_range|]. eexists. split; [done|]. intros _. split_and!; [done..|lia].
  - destruct Hm as [Hp _].
    edestruct (CheckLogHash_spec r) as (err & -> & Hpos); [done|exact Hp|]. simpl.
    destruct (is_ok err) eqn:Eo; simpl; [|eexists; split; [done|by intros ->]].
    apply is_ok_spec in Eo. specialize (Hpos Eo).
    destruct (_ || _); by eexists.
  - by eexists.
Qed.

(** ** [HandleAppendResponse] *)
Lemma back_off_range n l m chunk next lo hi :
  0 <= m -> lo <= next <= hi -> lo <= m + 1 -> m + Z.of_nat n <= hi ->
  lo <= back_off n l m chunk next <= hi.
Proof.
  revert chunk next. induction n as [|n IH]; intros chunk next Hm Hnx Hlo Hhi; simpl; [done|].
  destruct (_ <? _); [done|]. apply IH; lia.
Qed.

Lemma HandleAppendResponse_light r t m from :
  inv r -> is_u64 (as_match_idx m) -> is_u64 (as_last_log_idx m) -> is_u64 (as_promise_idx m) ->
  (as_success m = true -> as_promise_idx m <= as_match_idx m) ->
  position_ok r (as_match_idx m) 0 (as_match_hash_chain m) false ->
  exists r', HandleAppendResponse r t m from = Some r' /\ light r r'.
Proof.
  intros Hi Hmu Hlu Hpu Hps Hpos. pose proof (last_idx_inv _ Hi) as Hl.
  pose proof (last_idx_range _ Hl) as Hlast. pose proof (oldest_le_next _ Hl).
  assert (Hm : 0 <= as_match_idx m <= last_idx (log_ r)).
  { split; [apply Hmu|]. destruct Hpos as [->|[[_ ?]|(e & He & _)]]; [lia|done|].
    assert (is_Some (log_at (log_ r) (as_match_idx m))) as Hs by eauto.
    apply log_at_is_Some in Hs; [lia|done]. }
  unfold HandleAppendResponse.
  destruct (negb _); [eauto using light_refl|]. case_bool_decide as Hr; [|eauto using light_refl]. simpl.
  destruct (map_find _ from) as [f|] eqn:Hf; [|eauto using light_refl].
  pose proof Hi as [Hc _ _].
  destruct (followers_find _ _ _ _ _ _ (ci_followers _ Hc Hr) Hf) as ([F1 F2 F3] & _).
  destruct (as_success m) eqn:Hsu.
  - specialize (Hps eq_refl). rewrite CHECK_true; last first.
    { rewrite iter_Entry_At by done. destruct Hpos as [E|[[_ ?]|(e & -> & He & _)]]; [|done|].
      - rewrite (proj2 (log_at_None _ _ Hl)) by lia. apply Z.leb_le. lia.
      - rewrite ct_equals_eq. apply bool_decide_eq_true. auto. }
    eexists. split; [done|]. eapply set_follower_light; [done|done|done|].
    split; simpl; nowrap; repeat case_match; unfold is_u64 in *; lia.
  - eexists. split; [done|]. eapply set_follower_light; [done|done|done|].
    pose proof (u64_range (as_last_log_idx m + 1)). unfold is_u64 in *.
    match goal with |- context [back_off ?n _ _ _ ?x] => set (k := n); set (nx := x) end.
    assert (Hnx : as_match_idx m + 1 <= nx <= last_idx (log_ r) + 1) by (unfold nx; nowrap; lia).
    assert (Hk : Z.of_nat k <= last_idx (log_ r) - as_match_idx m).
    { unfold k. destruct (_ =? _); [lia|]. nowrap. lia. }
    assert (1 <= back_off k (log_ r) (as_match_idx m) (replication_chunk_bytes (config_ r)) nx
              <= last_idx (log_ r) + 1) by (apply back_off_range; lia).
    split; cbn [rs_next_idx rs_match_idx rs_promise_idx]; lia.
Qed.
End inv.
