(* ===== verification/RaftStep.v ===== *)
(** * The steps of a Raft replica

    Sending (which leaves the data alone), appending to the log, membership
    bookkeeping, the Merkle leaves and the advance of the commit and promise
    indices: each keeps the invariant of RaftInv and is a [step]. *)
From stdpp Require Import prelude gmap sorting.
From S2P Require Import Prelude Errors Containers Util RaftTypes RaftLog PeerId Membership Merkle Raft RaftInv.

Section steps.
Context {T L : Type} `{!EqDecision L, !Countable L} {MO : MerkleOps T L} {MS : MerkleSpec T L}.
Context {RP : RaftPlatform} {RPL : RaftPlatformLaws}.
Notation Raft := (Raft T L).
Implicit Types r : Raft.

(** ** Sending *)
Lemma collect_entries_wf n l idx tot mx :
  log_ok l -> is_u64 idx -> Forall entry_wf (entries_ l) -> Forall entry_wf (collect_entries n l idx tot mx).
Proof.
  intros Hl Hi Hw. revert idx tot Hi. induction n as [|n IH]; intros idx tot Hi; simpl; [done|].
  rewrite iter_Entry_At by done. destruct (log_at l idx) as [e|] eqn:He; [|done].
  constructor.
  - rewrite Forall_forall in Hw. by eapply Hw, log_at_elem.
  - destruct (_ <=? _); [done|]. apply IH, u64_range.
Qed.

Lemma follower_ok_sent last f b i :
  follower_ok last f -> follower_ok last {| f with rs_send_heartbeat := b; rs_inflight := i |}.
Proof. by intros []. Qed.

Lemma AppendEntries_light r peer :
  inv r -> exists r', AppendEntries r peer = Some r' /\ light r r' /\
    role_ r' = role_ r /\ l_relinquishing (leader_ r') = l_relinquishing (leader_ r).
Proof.
  intros Hi. pose proof Hi as [Hc _ _]. pose proof (light_refl r Hi) as Hrefl.
  unfold AppendEntries. case_bool_decide as Hr; simpl; [|by eauto].
  destruct (map_find _ peer) as [f|] eqn:Hf; [|by eauto].
  destruct (followers_find _ _ _ _ _ _ (ci_followers _ Hc Hr) Hf) as (Hfo & Hall & Hme).
  destruct (_ && _ && _); [by eauto|]. case_bool_decide; [by eauto|]. destruct (_ && negb _); [by eauto|].
  match goal with |- context [Reply peer ?m] => set (msg := m) end.
  match goal with |- context [map_set peer ?g _] => set (f' := g) end.
  pose proof (set_follower_light r peer f f' Hi Hr Hf (follower_ok_sent _ _ _ _ Hfo)) as Hl.
  edestruct (AddSendableMessage_light r _ (Reply peer msg) Hl) as (r' & -> & Hl' & Hct).
  - pose proof (ci_term _ Hc) as Ht. split; [|split]; simpl; [unfold is_u64; lia|lia|].
    split; [apply u64_range|]. destruct (_ && _); [|constructor].
    apply collect_entries_wf; [apply Hc| |apply Hc].
    destruct Hfo as [Hn _ _]. pose proof (last_idx_range _ (last_idx_inv _ Hi)). unfold is_u64. lia.
  - by intros p [= <-].
  - exists r'. unfold ctrl in Hct. injection Hct as _ _ E1 _ _ E2 _.
    split_and!; [done|done|done|]. by rewrite E2.
Qed.

Lemma append_entries_to_light r ps :
  inv r -> exists r', append_entries_to r ps = Some r' /\ light r r'.
Proof.
  revert r. induction ps as [|p ps IH]; intros r Hi; simpl; [eauto using light_refl|].
  case_bool_decide; simpl; [by apply IH|].
  destruct (AppendEntries_light r p Hi) as (r1 & -> & Hl & _). simpl.
  destruct (IH r1 (light_inv _ _ Hi Hl)) as (r2 & -> & Hl2). eauto using light_trans.
Qed.

Lemma follower_role_inv r : role_ r = FOLLOWER -> role_inv r.
Proof. intros Hr. unfold role_inv. by rewrite Hr. Qed.

Lemma TryToRelinquishLeadership_light r :
  inv r -> exists r', TryToRelinquishLeadership r = Some r' /\ light r r'.
Proof.
  intros Hi. pose proof Hi as [Hc _ _]. pose proof (ci_term _ Hc). pose proof (ci_config _ Hc).
  unfold TryToRelinquishLeadership. destruct (List.find _ _) as [next|] eqn:Hn; [|eauto using light_refl].
  apply List.find_some in Hn as [_ [Hne _]%andb_true_iff]. btrue.
  destruct (AddSendableMessage_light r r (Reply next {| msg_group := group_ r;
    msg_term := current_term_ r; msg_inner := kTimeoutNow true |}) (light_refl r Hi))
    as (r1 & -> & Hl & Hct).
  { split; [|split]; simpl; [unfold is_u64; lia|lia|done]. }
  { by intros p [= <-]. }
  simpl. unfold ctrl in Hct. injection Hct as C1 C2 C3 C4 C5 C6 C7.
  destruct (RandomElectionTimeout_eq (SetRole r1 FOLLOWER)) as [t ->]; [simpl; by rewrite C7|].
  simpl. eexists. split; [done|]. eapply light_trans; [exact Hl|].
  apply light_demote; [by eapply light_inv|done|by apply follower_role_inv| |done|done|done].
  simpl. lia.
Qed.

(** ** The Merkle leaves *)
Lemma MerkleHashFromLogIter_eq l idx :
  log_ok l -> is_u64 idx -> MerkleHashFromLogIter l (At l idx) = Some (hash8 l idx).
Proof.
  intros Hl Hi. unfold MerkleHashFromLogIter, hash8. rewrite iter_Entry_At by done.
  destruct (log_at l idx) as [e|] eqn:He; [|done].
  apply log_at_ok in He as [_ He]; [|done]. rewrite CHECK_true; [done|].
  apply Z.leb_le. unfold Zlen. rewrite He. done.
Qed.

Lemma idx_u64 l a c p : idx_inv l a c p -> is_u64 a /\ is_u64 c /\ is_u64 p.
Proof. intros []. pose proof (last_idx_range l ii_log). unfold is_u64. lia. Qed.

Lemma VerifyMerkleTree_OK r : core_inv r -> merkle_sync r -> VerifyMerkleTree r = Some OK.
Proof.
  intros Hc [[Ht Hne _ _] H1 H2]. pose proof (ci_idx _ Hc) as Hx.
  destruct (idx_u64 _ _ _ _ Hx) as (_ & Uc & Up). destruct Hx as [Hl _ _ _ _ _ _ _].
  unfold VerifyMerkleTree. rewrite !MerkleHashFromLogIter_eq by done. simpl.
  rewrite (leaf_verify_spec _ _ _ _ Ht H1), bool_decide_eq_true_2 by done. simpl.
  by rewrite (leaf_verify_spec _ _ _ _ Ht H2), bool_decide_eq_true_2.
Qed.

(** Also for leaves that have not been updated since their creation. *)
Lemma UpdateMerkleTree_fresh r (P : gset L) :
  log_ok (log_ r) -> is_u64 (commit_idx_ r) -> is_u64 (promise_idx_ r) ->
  tree_ok P (merkle_ r) -> P ⊆ {[commit_leaf_ r; promise_leaf_ r]} -> commit_leaf_ r <> promise_leaf_ r ->
  is_Some (tree_view (merkle_ r) !! commit_leaf_ r) -> is_Some (tree_view (merkle_ r) !! promise_leaf_ r) ->
  exists t, UpdateMerkleTree r = Some {| r with merkle_ := t |} /\ merkle_sync {| r with merkle_ := t |} /\
    forall l, l <> commit_leaf_ r -> l <> promise_leaf_ r -> tree_view t !! l = tree_view (merkle_ r) !! l.
Proof.
  intros Hl Uc Up Ht HP Hne [hc Hvc] [hp Hvp].
  unfold UpdateMerkleTree. rewrite !MerkleHashFromLogIter_eq by done. simpl.
  destruct (leaf_update_spec _ _ _ _ (hash8 (log_ r) (commit_idx_ r)) Ht Hvc) as (t1 & -> & Ht1 & Hv1).
  simpl.
  destruct (leaf_update_spec _ t1 (promise_leaf_ r) hp (hash8 (log_ r) (promise_idx_ r)) Ht1)
    as (t2 & -> & Ht2 & Hv2).
  { by rewrite Hv1, lookup_insert_ne. }
  replace (P ∖ {[commit_leaf_ r]} ∖ {[promise_leaf_ r]}) with (∅ : gset L) in Ht2 by set_solver.
  exists t2. split; [done|].
  assert (Ec : tree_view t2 !! commit_leaf_ r = Some (hash8 (log_ r) (commit_idx_ r)))
    by (by rewrite Hv2, lookup_insert_ne, Hv1, lookup_insert_eq).
  assert (Ep : tree_view t2 !! promise_leaf_ r = Some (hash8 (log_ r) (promise_idx_ r)))
    by (by rewrite Hv2, lookup_insert_eq).
  split; [split; simpl; [split; simpl; eauto|done|done]|].
  intros l Hlc Hlp. by rewrite Hv2, lookup_insert_ne, Hv1, lookup_insert_ne.
Qed.

Lemma UpdateMerkleTree_spec r :
  log_ok (log_ r) -> is_u64 (commit_idx_ r) -> is_u64 (promise_idx_ r) -> merkle_live r ->
  exists t, UpdateMerkleTree r = Some {| r with merkle_ := t |} /\ merkle_sync {| r with merkle_ := t |} /\
    forall l, l <> commit_leaf_ r -> l <> promise_leaf_ r -> tree_view t !! l = tree_view (merkle_ r) !! l.
Proof. intros Hl Uc Up [Ht Hne Hc Hp]. eapply UpdateMerkleTree_fresh; try done. Qed.

(** ** Followers after a membership change *)
Definition followers_all (last : LogIdx) (fs : list (PeerID * ReplicationState)) : Prop :=
  map_ok fs /\ Forall (fun pf => follower_ok last pf.2) fs.

Lemma foldl_followers me last (g : list (PeerID * ReplicationState) -> PeerID -> _) ps fs :
  (forall fs p, followers_all last fs -> followers_all last (g fs p) /\
     forall q, q ∈ (g fs p).*1 <-> q ∈ fs.*1 \/ (q = p /\ p <> me)) ->
  followers_all last fs ->
  followers_all last (foldl g fs ps) /\
  forall q, q ∈ (foldl g fs ps).*1 <-> q ∈ fs.*1 \/ (q ∈ ps /\ q <> me).
Proof.
  intros Hg. revert fs. induction ps as [|p ps IH]; intros fs Hfs; simpl; [set_solver|].
  destruct (Hg fs p Hfs) as [H1 H2]. destruct (IH _ H1) as [H3 H4]. split; [done|].
  intros q. rewrite H4, H2. set_solver.
Qed.

Lemma map_set_all last p f fs :
  followers_all last fs -> follower_ok last f -> followers_all last (map_set p f fs).
Proof. intros [H1 H2] Hf. split; [by apply map_set_ok|by apply Forall_map_set]. Qed.

Lemma fresh_follower_ok r b1 b2 t :
  log_ok (log_ r) ->
  follower_ok (last_idx (log_ r)) {| rs_next_idx := next_idx (log_ r); rs_match_idx := 0;
    rs_promise_idx := 0; rs_inflight := None; rs_send_probe := b1; rs_send_heartbeat := b2;
    rs_last_seen_ticks := t |}.
Proof.
  intros Hl. pose proof (last_idx_range _ Hl). pose proof (next_idx_eq _ Hl).
  split; simpl; lia.
Qed.

Lemma filter_keys (f : PeerID -> bool) (fs : list (PeerID * ReplicationState)) :
  (List.filter (fun pf => f pf.1) fs).*1 = List.filter f fs.*1.
Proof. induction fs as [|[p x] fs IH]; csimpl; [done|]. destruct (f p); csimpl; by rewrite IH. Qed.

Lemma set_followers_id r : set_followers r (l_followers (leader_ r)) = r.
Proof. by destruct r as [????????????[] ????????]. Qed.

(** A leader follows exactly the other members of the new membership. *)
Lemma HandleMembershipChange_spec r :
  log_ok (log_ r) ->
  (role_ r = LEADER -> followers_all (last_idx (log_ r)) (l_followers (leader_ r)) /\
     me_ r ∉ (l_followers (leader_ r)).*1) ->
  exists fs, HandleMembershipChange r = set_followers r fs /\
    (role_ r = LEADER ->
     followers_inv (me_ r) (all_replicas_ (membership r)) (last_idx (log_ r)) fs).
Proof.
  intros Hl Hf. unfold HandleMembershipChange. case_bool_decide as Hr; last first.
  { exists (l_followers (leader_ r)). by rewrite set_followers_id. }
  destruct (Hf Hr) as [Hall Hme]. eexists. split; [done|]. intros _.
  match goal with |- context [foldl ?g ?fs ?ps] =>
    destruct (foldl_followers (me_ r) (last_idx (log_ r)) g ps fs) as [[H1 H2] H3]; [|done|] end.
  - intros fs p Hfs. destruct (bool_decide (p = me_ r)) eqn:E1; btrue; simpl.
    { split; [done|]. set_solver. }
    destruct (map_find fs p) as [f|] eqn:E2; simpl.
    { split; [done|]. apply map_find_elem in E2. apply (list_elem_of_fmap_2 fst) in E2. set_solver. }
    split; [by apply map_set_all, fresh_follower_ok|]. intros q. rewrite elem_map_set_keys. set_solver.
  - split.
    + unfold map_ok. rewrite filter_keys. by apply StronglySorted_List_filter.
    + intros q. rewrite filter_keys, list_elem_of_In, filter_In, <- list_elem_of_In, H3, set_count_spec.
      split; [|tauto]. intros [[Hq|[Hq Hq']] Ha]; [|done]. split; [done|]. by intros ->.
    + apply Forall_forall. intros x Hx. rewrite list_elem_of_In, filter_In, <- list_elem_of_In in Hx.
      rewrite Forall_forall in H2. apply H2, Hx.
Qed.

(** ** Uncommitted memberships *)
Definition current (m : Membership) (us : list (LogIdx * Membership)) : Membership :=
  match last us with Some (_, m') => m' | None => m end.

Lemma promote_committed_spec c m us b :
  exists m' us' k, promote_committed c m us b = (m', us', b || negb (bool_decide (k = []))) /\
    us = k ++ us' /\ (k = [] -> m' = m) /\ (k <> [] -> exists i, (i, m') ∈ k) /\
    current m' us' = current m us.
Proof.
  revert m b. induction us as [|[i m1] us IH]; intros m b; simpl.
  { exists m, [], []. rewrite orb_false_r. by split_and!. }
  destruct (i <=? c).
  - destruct (IH m1 true) as (m' & us' & k & -> & -> & H1 & H2 & H3).
    exists m', us', ((i, m1) :: k). simpl. rewrite orb_true_r. split_and!; [done|done|done| |].
    + intros _. destruct k as [|x k]; [exists i; rewrite H1 by done; left|].
      destruct H2 as [j Hj]; [done|]. exists j. by right.
    + rewrite H3. unfold current. rewrite last_cons. by destruct (last (k ++ us')) as [[]|].
  - exists m, ((i, m1) :: us), []. rewrite orb_false_r. by split_and!.
Qed.

Lemma discard_rolled_back_spec lst us b :
  exists us' k, discard_rolled_back lst (reverse us) b = (reverse us', b || negb (bool_decide (k = []))) /\
    us = us' ++ k /\ Forall (fun u => lst < u.1) k /\
    (forall u, last us' = Some u -> u.1 <= lst).
Proof.
  revert b. induction us as [|[i m] us IH] using rev_ind; intros b; simpl.
  { exists [], []. rewrite orb_false_r. by split_and!. }
  rewrite reverse_app. simpl. destruct (lst <? i) eqn:E.
  - destruct (IH true) as (us' & k & -> & -> & H1 & H2).
    exists us', (k ++ [(i, m)]). rewrite (bool_decide_eq_false_2 (k ++ _ = [])) by (by destruct k).
    simpl. rewrite orb_true_r. split_and!; [done|by rewrite app_assoc| |done].
    apply Forall_app. split; [done|]. constructor; [simpl; lia|done].
  - exists (us ++ [(i, m)]), []. rewrite orb_false_r, reverse_app, app_nil_r. simpl.
    split_and!; [done|done|done|]. intros u. rewrite last_snoc. intros [= <-]. simpl. lia.
Qed.

Lemma sorted_last_le us (lst : Z) :
  StronglySorted (fun u v : LogIdx * Membership => u.1 < v.1) us ->
  (forall u, last us = Some u -> u.1 <= lst) -> Forall (fun u => u.1 <= lst) us.
Proof.
  induction us as [|u us IH] using rev_ind; intros Hs Hl; [done|].
  rewrite last_snoc in Hl. specialize (Hl u eq_refl). apply Forall_app. split; [|by constructor].
  apply Forall_forall. intros v Hv.
  assert (v.1 < u.1); [|lia].
  apply (StronglySorted_app_1_elem_of (fun u v : LogIdx * Membership => u.1 < v.1) us [u]); [done|done|left].
Qed.

(** What the bookkeeping of the log and memberships does not touch. *)
Definition frame (r : Raft) :=
  (me_ r, group_ r, merkle_ r, last_applied_ r, commit_leaf_ r, promise_leaf_ r,
   super_majority_ r, config_ r, current_term_ r, voted_for_ r, role_ r,
   follower_ r, candidate_ r, sendable_messages_ r, rand_calls_ r, l_relinquishing (leader_ r)).
Definition side (r : Raft) := (frame r, commit_idx_ r, promise_idx_ r).

Lemma membership_current r : membership r = current (membership_ r) (uncommitted_memberships_ r).
Proof. done. Qed.

Lemma members_inv_promote m us hi sm c :
  members_inv m us hi sm ->
  let '(m', us', _) := promote_committed c m us false in
  members_inv m' us' hi sm /\ current m' us' = current m us.
Proof.
  intros [H1 H2 H3 H4 H5].
  destruct (promote_committed_spec c m us false) as (m' & us' & k & -> & -> & K1 & K2 & K3).
  split; [|done]. apply Forall_app in H2 as [H2 H2'], H4 as [_ H4]. split; [|done| |done|done].
  - destruct (decide (k = [])) as [->|Hk]; [by rewrite K1|].
    destruct (K2 Hk) as [i Hi]. rewrite Forall_forall in H2. by apply (H2 _ Hi).
  - by apply StronglySorted_app_1_r in H3.
Qed.

(** The bookkeeping keeps the invariant of the memberships, for the log's
    present end; only a rolled back entry changes the current membership. *)
Lemma MaybeChange_spec r hi :
  log_ok (log_ r) ->
  members_inv (membership_ r) (uncommitted_memberships_ r) hi (super_majority_ r) -> role_inv r ->
  (role_ r <> FOLLOWER -> hi = last_idx (log_ r)) ->
  let r' := MaybeChangeUncommittedMembershipsBasedOnLog r in
  side r' = side r /\ log_ r' = log_ r /\ role_inv r' /\
  members_inv (membership_ r') (uncommitted_memberships_ r') (last_idx (log_ r)) (super_majority_ r') /\
  (role_ r <> FOLLOWER -> membership r' = membership r).
Proof.
  intros Hl Hm Hr Hhi. unfold MaybeChangeUncommittedMembershipsBasedOnLog.
  pose proof (members_inv_promote _ _ _ _ (commit_idx_ r) Hm) as Hp.
  destruct (promote_committed_spec (commit_idx_ r) (membership_ r) (uncommitted_memberships_ r) false)
    as (m' & us' & k & Hpe & Hus & K1 & K2 & K3).
  rewrite Hpe in Hp |- *. destruct Hp as [Hp Hcur].
  destruct (discard_rolled_back_spec (last_idx (log_ r)) us' (false || negb (bool_decide (k = []))))
    as (us2 & k2 & -> & -> & D1 & D2).
  rewrite reverse_involutive. set (r1 := {| r with membership_ := m'; uncommitted_memberships_ := us2 |}).
  destruct Hp as [P1 P2 P3 P4 P5].
  assert (Hmi : members_inv m' us2 (last_idx (log_ r)) (super_majority_ r)).
  { apply Forall_app in P2 as [P2 _], P4 as [P4 _]. apply StronglySorted_app_1_l in P3.
    pose proof (sorted_last_le _ _ P3 D2) as D3.
    split; [done|done|done| |done]. apply Forall_forall. intros u Hu.
    rewrite Forall_forall in P4, D3. specialize (P4 u Hu). specialize (D3 u Hu). simpl in *. lia. }
  assert (Hsame : role_ r <> FOLLOWER -> membership r1 = membership r).
  { intros Hn. specialize (Hhi Hn). assert (k2 = []) as ->.
    { destruct k2 as [|u k2]; [done|]. apply Forall_cons in D1 as [D1 _].
      rewrite Forall_app, Forall_cons in P4. simpl in *. lia. }
    rewrite !membership_current, <- Hcur. simpl. by rewrite app_nil_r. }
  assert (Hfol : role_inv r1).
  { unfold role_inv in *. change (role_ r1) with (role_ r). destruct (role_ r) eqn:E; [done|..];
      rewrite Hsame by done; exact Hr. }
  match goal with |- context [if ?b then _ else _] => destruct b end;
    [|split_and!; [done|done|exact Hfol|exact Hmi|exact Hsame]].
  destruct (HandleMembershipChange_spec r1 Hl) as (fs & -> & Hfs).
  { intros Hlead. unfold role_inv in Hfol. rewrite Hlead in Hfol. destruct Hfol as (_ & _ & [F1 F2 F3]).
    split; [done|]. intros Hin%F2. tauto. }
  split_and!; [done|done|by apply role_inv_set_followers|exact Hmi|exact Hsame].
Qed.
End steps.

(** ** Sending leaves the data alone, in any state *)
Section sending.
Context {T L : Type} {MO : MerkleOps T L} {RP : RaftPlatform}.
Notation Raft := (Raft T L).
Implicit Types r : Raft.

Lemma AddSendableMessage_data r m r' : AddSendableMessage r m = Some r' -> data r' = data r.
Proof.
  unfold AddSendableMessage. destruct (sm_to m).
  - intros [_ [= <-]]%CHECK_Some. done.
  - destruct (_ && _); by intros [= <-].
Qed.

Lemma AppendEntries_data r p r' : AppendEntries r p = Some r' -> data r' = data r.
Proof.
  unfold AppendEntries. destruct (negb _); [by intros [= <-]|].
  destruct (map_find _ p); [|by intros [= <-]]. destruct (_ && _ && _); [by intros [= <-]|].
  case_bool_decide; [by intros [= <-]|]. destruct (_ && negb _); [by intros [= <-]|].
  intros Heq%AddSendableMessage_data. done.
Qed.

Lemma append_entries_to_data r ps r' : append_entries_to r ps = Some r' -> data r' = data r.
Proof.
  revert r. induction ps as [|p ps IH]; intros r; simpl; [by intros [= <-]|].
  intros (r1 & H1 & H2%IH)%bind_Some. rewrite H2. case_bool_decide; [by injection H1 as <-|].
  by eapply AppendEntries_data.
Qed.

Lemma TryToRelinquishLeadership_data r r' : TryToRelinquishLeadership r = Some r' -> data r' = data r.
Proof.
  unfold TryToRelinquishLeadership. destruct (List.find _ _); [|by intros [= <-]].
  intros (r1 & H1%AddSendableMessage_data & ([t r2] & H2 & [= <-])%bind_Some)%bind_Some.
  unfold RandomElectionTimeout in H2. destruct (_ =? 0); [done|]. injection H2 as <- <-. done.
Qed.
End sending.

(** The equations in hypotheses [frame r' = frame r] and [side r' = side r]. *)
Ltac frame_eqs H :=
  unfold frame in H;
  injection H as Eme Egr Emk Eap Ecl Epl Esm Ecf Ect Evf Ero Efo Eca Ese Era Ere.
Ltac side_eqs H :=
  unfold side, frame in H;
  injection H as Eme Egr Emk Eap Ecl Epl Esm Ecf Ect Evf Ero Efo Eca Ese Era Ere Eci Epi.
