(* ===== verification/RaftAppend.v ===== *)
(** * Growing the log of a Raft replica

    [LogAppend], [ClientRequestInternal], [MaybeBecomeLeader] and the loop of
    [HandleAppendRequest]: the log changes only beyond the promised index,
    and the memberships and the leader's followers keep up with it. *)
From stdpp Require Import prelude gmap sorting.
From S2P Require Import Prelude Errors Containers Util RaftTypes RaftLog PeerId Membership Merkle Raft RaftInv RaftStep.

Section append.
Context {T L : Type} `{!EqDecision L, !Countable L} {MO : MerkleOps T L} {MS : MerkleSpec T L}.
Context {RP : RaftPlatform} {RPL : RaftPlatformLaws}.
Notation Raft := (Raft T L).
Implicit Types r : Raft.

(** Only the log beyond the promise, the memberships and the followers of a
    leader change. *)
Record grown r r' : Prop := {
  gr_side : side r' = side r;
  gr_core : core_inv r';
  gr_oldest : oldest_stored_idx_ (log_ r) <= oldest_stored_idx_ (log_ r');
  gr_log : forall idx, oldest_stored_idx_ (log_ r') <= idx <= promise_idx_ r ->
             log_at (log_ r') idx = log_at (log_ r) idx }.

Lemma grown_refl r : core_inv r -> grown r r.
Proof. by split. Qed.

Lemma grown_trans r1 r2 r3 : grown r1 r2 -> grown r2 r3 -> grown r1 r3.
Proof.
  intros [A1 A2 A3 A4] [B1 B2 B3 B4]. split; [congruence|done|lia|].
  intros idx Hi. assert (promise_idx_ r2 = promise_idx_ r1) as E by (side_eqs A1; done).
  rewrite B4, A4 by lia. done.
Qed.

Lemma grown_step r r' : grown r r' -> step r r'.
Proof.
  intros [A1 A2 A3 A4]. side_eqs A1. split; try done; try lia; try congruence.
Qed.

Lemma hash8_stable l l' a c p idx :
  idx_inv l' a c p -> oldest_stored_idx_ l <= oldest_stored_idx_ l' -> log_ok l ->
  a <= idx -> 0 <= idx -> (forall i, oldest_stored_idx_ l' <= i <= idx -> log_at l' i = log_at l i) ->
  hash8 l' idx = hash8 l idx.
Proof.
  intros [H1 H2 H3 H4 H5 H6 _ _] Ho [Hl _ _ _] Ha Hi Hv. unfold hash8.
  destruct (decide (idx = 0)) as [->|]; [|by rewrite Hv by lia].
  destruct H1 as [Hl' _ _ _]. unfold log_at.
  by rewrite !(proj2 (Z.ltb_lt _ _)) by lia.
Qed.

Lemma grown_sync r r' : core_inv r -> grown r r' -> merkle_sync r -> merkle_sync r'.
Proof.
  intros Hc [A1 A2 A3 A4] [[M1 M2 M3 M4] M5 M6]. side_eqs A1.
  pose proof (ci_idx _ Hc) as [I1 I2 I3 I4 I5 I6 _ _]. pose proof (ci_idx _ A2) as Hx.
  assert (hash8 (log_ r') (commit_idx_ r') = hash8 (log_ r) (commit_idx_ r)) as Ec.
  { rewrite Eci. eapply hash8_stable; [exact Hx|done|done|congruence|lia|]. intros. apply A4. lia. }
  assert (hash8 (log_ r') (promise_idx_ r') = hash8 (log_ r) (promise_idx_ r)) as Ep.
  { rewrite Epi. eapply hash8_stable; [exact Hx|done|done|rewrite Eap; lia|lia|]. intros. apply A4. lia. }
  split; [split|..]; rewrite ?Ecl, ?Epl, ?Ec, ?Ep, ?Emk; done.
Qed.

Lemma grown_inv r r' : inv r -> grown r r' -> inv r'.
Proof.
  intros [Hc Hs Hm] Hg. split; [apply Hg|by eapply grown_sync|].
  destruct Hg as [E _ _ _]. side_eqs E. by rewrite Ese.
Qed.

(** ** A longer log *)
Lemma followers_inv_mono me all last last' fs :
  last <= last' -> followers_inv me all last fs -> followers_inv me all last' fs.
Proof.
  intros Hle [H1 H2 H3]. split; [done|done|]. eapply Forall_impl; [exact H3|].
  intros [p f] [? ? ?]. split; lia.
Qed.

Lemma members_inv_mono m us last last' sm :
  last <= last' -> members_inv m us last sm -> members_inv m us last' sm.
Proof.
  intros Hle [H1 H2 H3 H4 H5]. split; try done. eapply Forall_impl; [exact H4|]. simpl. lia.
Qed.

Lemma Forall_log_at (P : LogEntry -> Prop) l :
  Forall P (entries_ l) <-> forall idx e, log_at l idx = Some e -> P e.
Proof.
  rewrite Forall_forall. split; [intros H idx e He%log_at_elem; auto|].
  intros H e [i Hi]%list_elem_of_lookup_1. apply (H (oldest_stored_idx_ l + Z.of_nat i)).
  unfold log_at. rewrite (proj2 (Z.ltb_ge _ _)) by lia. by replace (Z.to_nat _) with i by lia.
Qed.

(** Replacing the log by one that keeps what is promised. *)
Lemma core_set_log r l :
  core_inv r -> log_ok l -> last_idx (log_ r) <= last_idx l ->
  oldest_stored_idx_ l <= Z.max 1 (last_applied_ r) -> Forall entry_wf (entries_ l) -> chain_ok l ->
  core_inv {| r with log_ := l |}.
Proof.
  intros [[I1 I2 I3 I4 I5 I6 I7 I8] Hm Ht Hc Hr] Hl Hlast Ho Hw Hch.
  split; simpl; [split; done || lia|by eapply members_inv_mono|done|done|].
  unfold role_inv in *. simpl. change (membership {| r with log_ := l |}) with (membership r).
  destruct (role_ r); [done|done|]. destruct Hr as (R1 & R2 & R3).
  split_and!; [done|done|by eapply followers_inv_mono].
Qed.

(** ** The hash chain *)
Lemma NextHash_eq r e :
  log_ok (log_ r) ->
  NextHash r e = hmac_sha256 (default (replicate 32 0) (hash_chain <$> log_at (log_ r) (last_idx (log_ r))))
    (hash_input (last_idx (log_ r) + 1) e).
Proof. intros Hl. unfold NextHash. by rewrite MostRecentHash_eq, next_idx_eq. Qed.

Lemma chain_ok_append r l e :
  chain_ok (log_ r) -> log_ok (log_ r) -> log_ok l ->
  (forall i x, log_at l i = Some x -> i <= last_idx (log_ r) -> log_at (log_ r) i = Some x) ->
  (last_idx l = last_idx (log_ r) \/
   last_idx l = last_idx (log_ r) + 1 /\ log_at l (last_idx (log_ r) + 1) = Some e /\
     hash_chain e = NextHash r e) ->
  chain_ok l.
Proof.
  intros [C1 C2] Hl Hl' Hsub Hcase.
  assert (Hrange : forall i x, log_at l i = Some x -> 1 <= i <= last_idx l).
  { intros i x Hx. assert (is_Some (log_at l i)) as Hs by eauto.
    apply log_at_is_Some in Hs; [|done]. pose proof (log_ok_oldest _ Hl'). lia. }
  destruct Hcase as [Heq|(Heq & He & Hh)].
  { apply (chain_ok_sub (log_ r)); [|done]. intros i x Hx. apply Hsub; [done|].
    apply Hrange in Hx. lia. }
  rewrite NextHash_eq in Hh by done. split.
  - intros x Hx. destruct (decide (last_idx (log_ r) = 0)) as [E|E].
    + rewrite E in He. change (0 + 1) with 1 in He. rewrite He in Hx. injection Hx as <-.
      rewrite Hh, E. rewrite (proj2 (log_at_None _ 0 Hl)); [done|]. pose proof (log_ok_oldest _ Hl). lia.
    + apply C1, Hsub; [done|]. pose proof (last_idx_range _ Hl). lia.
  - intros i x0 x Hx0 Hx. pose proof (Hrange _ _ Hx) as Hi.
    destruct (decide (i + 1 <= last_idx (log_ r))).
    + apply (C2 i); apply Hsub; auto; lia.
    + assert (i = last_idx (log_ r)) as -> by lia. rewrite He in Hx. injection Hx as <-.
      rewrite Hh. by rewrite (Hsub _ _ Hx0) by lia.
Qed.

Definition is_membership (e : LogEntry) : bool :=
  match entry_inner e with kMembershipChange _ => true | _ => false end.

(** A membership entry a replica may append in its present role. *)
Definition entry_fits r (e : LogEntry) : Prop :=
  match entry_inner e with
  | kMembershipChange g =>
      role_ r = FOLLOWER \/
      (role_ r = LEADER /\ forall m, FromProto g = (Some m, OK) -> me_ r ∈ voting_replicas_ m)
  | _ => True
  end.

Lemma AddUncommittedMembership_spec r idx m :
  core_inv r -> membership_good m -> 0 < idx -> idx = last_idx (log_ r) ->
  Forall (fun u => u.1 < idx) (uncommitted_memberships_ r) ->
  (role_ r = FOLLOWER \/ role_ r = LEADER /\ me_ r ∈ voting_replicas_ m) ->
  exists r', AddUncommittedMembership r idx m = Some r' /\ side r' = side r /\
    log_ r' = log_ r /\ core_inv r'.
Proof.
  intros Hc Hm Hi Hidx Hlt Hrole. unfold AddUncommittedMembership. rewrite CHECK_true; last first.
  { destruct (last _) as [[i m']|] eqn:El; [|done]. apply last_Some_elem_of in El.
    rewrite Forall_forall in Hlt. specialize (Hlt _ El). simpl in Hlt. lia. }
  set (r1 := {| r with uncommitted_memberships_ := uncommitted_memberships_ r ++ [(idx, m)] |}).
  assert (Hcur : membership r1 = m).
  { rewrite membership_current. unfold current, r1. simpl. by rewrite last_snoc. }
  destruct Hc as [Hx [M1 M2 M3 M4 M5] Ht Hcf Hr].
  destruct (HandleMembershipChange_spec r1) as (fs & -> & Hfs); [apply Hx| |].
  { intros Hlead. change (role_ r1) with (role_ r) in Hlead. unfold role_inv in Hr.
    rewrite Hlead in Hr. destruct Hr as (_ & _ & [F1 F2 F3]). split; [done|]. intros Hin%F2. tauto. }
  eexists. split; [done|]. split_and!; [done|done|]. split; [done| |done|done|].
  - split; simpl; [done| | | |done].
    + apply Forall_app. by split; [|constructor].
    + apply StronglySorted_app_2; [|done|repeat constructor].
      intros u v Hu ->%list_elem_of_singleton. rewrite Forall_forall in Hlt. by apply Hlt.
    + apply Forall_app. split; [done|]. constructor; [simpl; lia|done].
  - unfold role_inv. change (membership (set_followers r1 fs)) with (membership r1). simpl.
    destruct Hrole as [Hf|[Hlead Hin]]; [by rewrite Hf|]. rewrite Hlead.
    unfold role_inv in Hr. rewrite Hlead in Hr. destruct Hr as (V & _ & _).
    split_and!; [done|by rewrite Hcur|by apply Hfs].
Qed.

Lemma LogAppend_spec r e :
  core_inv r -> last_idx (log_ r) + 2 < 2 ^ 64 -> entry_wf e -> entry_fits r e ->
  hash_chain e = NextHash r e ->
  exists r' loc err, LogAppend r e = Some (r', (loc, err)) /\ grown r r' /\
    (if is_membership e then True else membership r' = membership r) /\
    (forall idx, oldest_stored_idx_ (log_ r') <= idx <= last_idx (log_ r) ->
       log_at (log_ r') idx = log_at (log_ r) idx) /\
    (if is_ok err then
       last_idx (log_ r') = last_idx (log_ r) + 1 /\ log_at (log_ r') (last_idx (log_ r) + 1) = Some e /\
       loc = {| loc_term := current_term_ r; loc_idx := last_idx (log_ r) + 1;
                loc_hash_chain := hash_chain e |}
     else last_idx (log_ r') = last_idx (log_ r)).
Proof.
  intros Hc Hroom [Hw1 Hw2] Hfit Hhash. pose proof (ci_idx _ Hc) as [I1 I2 I3 I4 I5 I6 I7 I8].
  unfold LogAppend. unfold entry_fits in Hfit.
  assert (exists om merr, match entry_inner e with kMembershipChange g => FromProto g | _ => (None, OK) end
    = (om, merr) /\ (is_membership e = false -> om = None) /\ (merr = OK -> forall m, om = Some m -> membership_good m /\
       (role_ r = FOLLOWER \/ role_ r = LEADER /\ me_ r ∈ voting_replicas_ m))) as (om & merr & -> & Hnm & Hom).
  { unfold is_membership. destruct (entry_inner e) as [|d|g|mm]; [by eexists _, _..| |by eexists _, _].
    destruct (FromProto g) as [om merr] eqn:Eg. eexists _, _. split; [done|]. split; [done|]. intros -> m ->.
    split; [by apply Hw2|]. destruct Hfit as [|[? Hf]]; [by left|right]. auto. }
  destruct (is_ok merr) eqn:Em; simpl; last first.
  { eexists _, _, _. split; [done|]. rewrite Em. by destruct (is_membership e); auto using grown_refl. }
  apply is_ok_spec in Em as ->. specialize (Hom eq_refl).
  destruct (Append_view (log_ r) e (last_applied_ r) I1) as (l & err & -> & Hl & Ho & Hv & Hres); [lia..|].
  simpl. set (r1 := {| r with log_ := l |}).
  assert (Hlast : last_idx (log_ r) <= last_idx l) by (destruct (is_ok err); lia).
  assert (Hwf : Forall entry_wf (entries_ l)).
  { apply Forall_log_at. intros idx x Hx.
    assert (oldest_stored_idx_ l <= idx <= last_idx l) as Hr by (apply log_at_is_Some; eauto).
    destruct (decide (idx <= last_idx (log_ r))).
    - rewrite Hv in Hx by lia. by eapply (proj1 (Forall_log_at _ _)) in Hx.
    - destruct (is_ok err); [|lia]. destruct Hres as (R1 & R2 & _).
      assert (idx = last_idx (log_ r) + 1) as -> by lia. rewrite R2 in Hx. by injection Hx as <-. }
  assert (Hch : chain_ok l).
  { apply (chain_ok_append r l e); [done|done|done| |].
    - intros i x Hx Hi. rewrite <- Hv; [done|]. split; [|lia].
      apply (log_at_is_Some l i Hl). eauto.
    - destruct (is_ok err); [right; destruct Hres as (R1 & R2 & _); auto|by left]. }
  assert (Hc1 : core_inv r1) by (apply core_set_log; [done|done|done|lia|done|exact Hch]).
  assert (Hg : grown r r1) by (split; [done|done|simpl; lia|simpl; intros; apply Hv; lia]).
  destruct (is_ok err) eqn:Ee; simpl; last first.
  { eexists _, _, _. split; [done|]. rewrite Ee. by destruct (is_membership e); auto. }
  destruct Hres as (R1 & R2 & R3).
  destruct om as [m|]; simpl.
  2: { eexists _, _, _. split; [done|]. simpl. split_and!; [done|by destruct (is_membership e)|auto|done|done|].
       by rewrite R1. }
  destruct (Hom m eq_refl) as [Hmg Hrole].
  destruct (AddUncommittedMembership_spec r1 (last_idx l) m) as (r2 & -> & Hs2 & Hl2 & Hc2); try done.
  { pose proof (last_idx_range _ I1). lia. }
  { pose proof (mi_last _ _ _ _ (ci_mem _ Hc)) as Hmi. eapply Forall_impl; [exact Hmi|]. simpl. lia. }
  simpl. eexists _, _, _. split; [done|]. simpl. rewrite Hl2. simpl.
  split_and!; [|by destruct (is_membership e); [|specialize (Hnm eq_refl)]|auto|done|done|by rewrite R1].
  split; [by rewrite Hs2|done|rewrite Hl2; simpl; lia|]. rewrite Hl2. simpl. intros. apply Hv. lia.
Qed.

(** ** Requests of the leader itself *)

(** The entry as [ClientRequestInternal] completes it. *)
Definition stamped r (e : LogEntry) : LogEntry :=
  let e1 := {| e with entry_term := current_term_ r |} in
  {| e1 with hash_chain := NextHash r e1 |}.

Lemma ClientRequestInternal_spec r e :
  core_inv r -> last_idx (log_ r) + 2 < 2 ^ 64 -> entry_wf e ->
  (role_ r = LEADER -> entry_fits r e) ->
  exists r' loc err, ClientRequestInternal r e = Some (r', (loc, err)) /\ grown r r' /\
    (if is_membership e then True else membership r' = membership r) /\
    (forall idx, oldest_stored_idx_ (log_ r') <= idx <= last_idx (log_ r) ->
       log_at (log_ r') idx = log_at (log_ r) idx) /\
    (if is_ok err then
       role_ r = LEADER /\ last_idx (log_ r') = last_idx (log_ r) + 1 /\
       log_at (log_ r') (last_idx (log_ r) + 1) = Some (stamped r e) /\
       loc = {| loc_term := current_term_ r; loc_idx := last_idx (log_ r) + 1;
                loc_hash_chain := hash_chain (stamped r e) |}
     else last_idx (log_ r') = last_idx (log_ r)).
Proof.
  intros Hc Hroom [_ Hw] Hfit. unfold ClientRequestInternal.
  case_bool_decide as Hr; simpl.
  2: { eexists _, _, _. split; [done|]. by split_and!; [apply grown_refl|destruct (is_membership e)|..]. }
  destruct (l_relinquishing (leader_ r)).
  { eexists _, _, _. split; [done|]. by split_and!; [apply grown_refl|destruct (is_membership e)|..]. }
  destruct (LogAppend_spec r (stamped r e) Hc Hroom) as (r' & loc & err & Heq & Hg & Hme & Hv & Hres).
  { split; [simpl; pose proof (ci_term _ Hc); unfold is_u64; lia|exact Hw]. }
  { by apply Hfit. } { done. }
  exists r', loc, err. split_and!; [exact Heq|done|exact Hme|done|]. destruct (is_ok err); [|done]. tauto.
Qed.

Lemma entry_wf_default : entry_wf LogEntry_default.
Proof. done. Qed.

(** The followers of a new leader. *)
Lemma new_leader_followers r b1 b2 t :
  log_ok (log_ r) ->
  followers_inv (me_ r) (all_replicas_ (membership r)) (last_idx (log_ r))
    (foldl (fun fs peer => if bool_decide (peer = me_ r) then fs
       else map_set peer {| rs_next_idx := next_idx (log_ r); rs_match_idx := 0; rs_promise_idx := 0;
              rs_inflight := None; rs_send_probe := b1; rs_send_heartbeat := b2;
              rs_last_seen_ticks := t |} fs) [] (all_replicas_ (membership r))).
Proof.
  intros Hl.
  match goal with |- context [foldl ?g ?fs ?ps] =>
    destruct (foldl_followers (me_ r) (last_idx (log_ r)) g ps fs) as [[H1 H2] H3] end.
  - intros fs p Hfs. case_bool_decide; [split; [done|set_solver]|].
    split; [by apply map_set_all, fresh_follower_ok|]. intros q. rewrite elem_map_set_keys. set_solver.
  - split; constructor.
  - split; [done| |done]. intros p. rewrite H3. simpl. set_solver.
Qed.

Lemma MaybeBecomeLeader_spec r :
  inv r -> last_idx (log_ r) + 2 < 2 ^ 64 ->
  exists r', MaybeBecomeLeader r = Some r' /\ inv r' /\ step r r' /\
    last_idx (log_ r) <= last_idx (log_ r') <= last_idx (log_ r) + 1 /\
    current_term_ r' = current_term_ r /\ voted_for_ r' = voted_for_ r /\
    sendable_messages_ r' = sendable_messages_ r /\ membership r' = membership r /\
    (r' = r /\ (role_ r = CANDIDATE -> Zlen (c_votes_granted (candidate_ r)) < membership_quorum_size r) \/
     role_ r = CANDIDATE /\ role_ r' = LEADER /\ l_relinquishing (leader_ r') = false /\
       membership_quorum_size r <= Zlen (c_votes_granted (candidate_ r))).
Proof.
  intros Hi Hroom. pose proof Hi as [Hc _ _]. unfold MaybeBecomeLeader.
  assert (Hself : inv r /\ step r r /\ last_idx (log_ r) <= last_idx (log_ r) <= last_idx (log_ r) + 1)
    by (split_and!; [done|apply step_refl|lia|lia]).
  case_bool_decide as Hr; simpl; [|exists r; tauto].
  destruct (_ <? _) eqn:Eq; [exists r; apply Z.ltb_lt in Eq; tauto|].
  match goal with |- context [ClientRequestInternal ?x _] => set (r1 := x) end.
  assert (Hl1 : light r r1).
  { pose proof (ci_term _ Hc). apply light_demote; [done|done| |simpl; lia|done|done|done].
    destruct Hc as [Hx _ _ _ Hr1]. unfold role_inv in *. rewrite Hr in Hr1. simpl.
    destruct Hr1 as (V1 & V2 & _). split_and!; [done|done|].
    apply (new_leader_followers {| r with role_ := LEADER |}), Hx. }
  destruct (ClientRequestInternal_spec r1 LogEntry_default) as (r' & loc & err & -> & Hg & Hme & _ & Hres).
  { apply Hl1. } { done. } { done. } { done. }
  simpl. exists r'. split; [done|]. split; [eapply grown_inv; [eapply light_inv; done|done]|].
  split; [eapply step_trans; [apply Hl1|by apply grown_step]|].
  pose proof (gr_side _ _ Hg) as E. side_eqs E. simpl in *.
  split_and!; [destruct (is_ok err); lia|destruct (is_ok err); lia|done|done|done|done|].
  right. split_and!; [done|done|done|lia].
Qed.

(** What is new in the log of a new leader is an empty entry. *)
Lemma MaybeBecomeLeader_log r r' :
  inv r -> last_idx (log_ r) + 2 < 2 ^ 64 -> MaybeBecomeLeader r = Some r' ->
  forall i e, log_at (log_ r') i = Some e -> log_at (log_ r) i = Some e \/ entry_inner e = INNER_NOT_SET.
Proof.
  intros Hi Hroom. pose proof Hi as [Hc _ _]. unfold MaybeBecomeLeader.
  case_bool_decide as Hr; simpl; [|intros [= <-]; auto]. destruct (_ <? _); [intros [= <-]; auto|].
  match goal with |- context [ClientRequestInternal ?x _] => set (r1 := x) end.
  assert (Hl1 : light r r1).
  { pose proof (ci_term _ Hc). apply light_demote; [done|done| |simpl; lia|done|done|done].
    destruct Hc as [Hx _ _ _ Hr1]. unfold role_inv in *. rewrite Hr in Hr1. simpl.
    destruct Hr1 as (V1 & V2 & _). split_and!; [done|done|].
    apply (new_leader_followers {| r with role_ := LEADER |}), Hx. }
  destruct (ClientRequestInternal_spec r1 LogEntry_default) as (r2 & loc & err & -> & Hg & _ & Hv & Hres).
  { apply Hl1. } { done. } { done. } { done. }
  simpl. intros [= <-] i e He. change (log_ r1) with (log_ r) in *.
  pose proof (proj1 (log_at_is_Some _ i (ii_log _ _ _ _ (ci_idx _ (gr_core _ _ Hg)))) (ex_intro _ _ He)) as Hrange.
  destruct (decide (i <= last_idx (log_ r))) as [Hle|Hgt]; [rewrite Hv in He by lia; by left|].
  destruct (is_ok err); [|lia]. destruct Hres as (_ & Hlast & Hat & _).
  replace i with (last_idx (log_ r) + 1) in He by lia. rewrite Hat in He. injection He as <-. by right.
Qed.

(** ** Entries of the leader *)

(** Rolling back entries that are not promised. *)
Lemma cancel_grown r idx :
  core_inv r -> role_ r = FOLLOWER -> promise_idx_ r < idx <= last_idx (log_ r) ->
  exists l, CancelFrom (log_ r) idx = (l, OK) /\
    let r1 := MaybeChangeUncommittedMembershipsBasedOnLog {| r with log_ := l |} in
    grown r r1 /\ log_ r1 = l /\ last_idx l = idx - 1 /\
    oldest_stored_idx_ l = oldest_stored_idx_ (log_ r) /\
    forall j, j < idx -> log_at l j = log_at (log_ r) j.
Proof.
  intros [[I1 I2 I3 I4 I5 I6 I7 I8] Hm Ht Hcf Hr] Hrole Hidx.
  destruct (CancelFrom_view (log_ r) idx I1) as (l & Heq & Hl & Ho & Hlast & Hv); [lia|lia|].
  exists l. split; [done|]. set (r0 := {| r with log_ := l |}).
  destruct (MaybeChange_spec r0 (last_idx (log_ r)) Hl Hm) as (S1 & S2 & S3 & S4 & _).
  { by apply follower_role_inv. } { done. }
  intros r1. change (MaybeChangeUncommittedMembershipsBasedOnLog r0) with r1 in S1, S2, S3, S4.
  assert (log_ r1 = l) as El by done.
  split_and!; [|done|done|done|done].
  pose proof S1 as S1'. side_eqs S1'. simpl in *. split; [done| |rewrite El; lia|].
  - split; [|by rewrite El|lia|by rewrite Ecf|done].
    assert (Hsub : forall j e, log_at l j = Some e -> log_at (log_ r) j = Some e).
    { intros j e He. rewrite <- Hv; [done|]. 
      assert (oldest_stored_idx_ l <= j <= last_idx l) as Hj by (apply log_at_is_Some; eauto). lia. }
    rewrite El, Eap, Eci, Epi. split; simpl; try done; try lia; [|by eapply chain_ok_sub].
    apply Forall_log_at. intros j e He%Hsub. by eapply (proj1 (Forall_log_at _ _)) in He.
  - rewrite El. intros j Hj. apply Hv. lia.
Qed.

(** What the loop of [HandleAppendRequest] achieves from index [lp + 1] on:
    it stops at [lp'], nothing at or below [lp] changes, and every processed
    index that is still stored holds an entry of the leader's term; also of
    the leader's hash, if entries of equal terms had equal hashes before. *)
Definition agree r (lp : LogIdx) (es : list LogEntry) : Prop :=
  forall (i : nat) e e0, es !! i = Some e -> log_at (log_ r) (lp + 1 + Z.of_nat i) = Some e0 ->
    entry_term e0 = entry_term e -> hash_chain e0 = hash_chain e.

Record entries_taken r (lp : LogIdx) (es : list LogEntry) r' (lp' : LogIdx) : Prop := {
  et_grown : grown r r';
  et_lp : lp <= lp' <= last_idx (log_ r');
  et_len : lp' <= lp + Zlen es;
  et_last : last_idx (log_ r') <= last_idx (log_ r) + Zlen es;
  et_below : forall j, oldest_stored_idx_ (log_ r') <= j <= lp ->
               log_at (log_ r') j = log_at (log_ r) j;
  et_terms : forall (i : nat) e, es !! i = Some e -> lp + 1 + Z.of_nat i <= lp' ->
               oldest_stored_idx_ (log_ r') <= lp + 1 + Z.of_nat i ->
               exists e', log_at (log_ r') (lp + 1 + Z.of_nat i) = Some e' /\
                          entry_term e' = entry_term e /\
                          (agree r lp es -> hash_chain e' = hash_chain e) }.

Lemma entries_taken_stop r lp es r' :
  grown r r' -> lp <= last_idx (log_ r') -> last_idx (log_ r') <= last_idx (log_ r) ->
  (forall j, oldest_stored_idx_ (log_ r') <= j <= lp -> log_at (log_ r') j = log_at (log_ r) j) ->
  entries_taken r lp es r' lp.
Proof. intros Hg H1 H2 H3. pose proof (Zlen_nonneg es). split; try done; try lia. Qed.

Lemma entries_taken_cons r lp e es r1 r' lp' :
  grown r r1 -> last_idx (log_ r1) <= last_idx (log_ r) + 1 ->
  (forall j, oldest_stored_idx_ (log_ r1) <= j <= lp -> log_at (log_ r1) j = log_at (log_ r) j) ->
  (oldest_stored_idx_ (log_ r1) <= lp + 1 ->
     exists e', log_at (log_ r1) (lp + 1) = Some e' /\ entry_term e' = entry_term e /\
       (agree r lp (e :: es) -> hash_chain e' = hash_chain e)) ->
  (forall j x, lp + 1 < j -> log_at (log_ r1) j = Some x -> log_at (log_ r) j = Some x) ->
  entries_taken r1 (lp + 1) es r' lp' -> entries_taken r lp (e :: es) r' lp'.
Proof.
  intros Hg Hlast Hbelow Hterm Habove [E1 E2 E3 E4 E5 E6]. pose proof (gr_oldest _ _ E1).
  split; rewrite ?Zlen_cons; [by eapply grown_trans|lia|lia|lia| |].
  - intros j Hj. rewrite E5, Hbelow by lia. done.
  - intros [|i] x Hx; simpl in Hx.
    + injection Hx as <-. replace (lp + 1 + Z.of_nat 0) with (lp + 1) by lia. intros Hle Ho.
      rewrite E5 by lia. apply Hterm. lia.
    + intros Hle Ho. replace (lp + 1 + Z.of_nat (S i)) with (lp + 1 + 1 + Z.of_nat i) in * by lia.
      destruct (E6 i x Hx Hle Ho) as (e' & H1 & H2 & H3). exists e'. split_and!; [done|done|].
      intros Hag. apply H3. intros k y y0 Hy Hy0 Ht. apply (Hag (S k) y y0 Hy); [|done].
      apply Habove; [lia|]. by replace (lp + 1 + Z.of_nat (S k)) with (lp + 1 + 1 + Z.of_nat k) by lia.
Qed.

(** The state the loop has before it looks at appending: conflicting entries
    are gone, or there were none. *)
Lemma resolve_conflict r idx t :
  core_inv r -> role_ r = FOLLOWER -> 1 <= idx <= last_idx (log_ r) + 1 ->
  let ours := iter_Term (log_ r) (At (log_ r) idx) in
  let conflict := negb (ours =? 0) && negb (ours =? t) in
  conflict && ((idx <=? commit_idx_ r) || (idx <=? promise_idx_ r)) = false ->
  exists l, (if conflict then CancelFrom (log_ r) idx else (log_ r, OK)) = (l, OK) /\
    let r1 := if conflict then MaybeChangeUncommittedMembershipsBasedOnLog {| r with log_ := l |}
              else r in
    grown r r1 /\ role_ r1 = FOLLOWER /\ last_idx (log_ r1) <= last_idx (log_ r) /\
    idx - 1 <= last_idx (log_ r1) /\
    (forall j, oldest_stored_idx_ (log_ r1) <= j < idx -> log_at (log_ r1) j = log_at (log_ r) j) /\
    (forall j x, log_at (log_ r1) j = Some x -> log_at (log_ r) j = Some x) /\
    (idx <= last_idx (log_ r1) -> oldest_stored_idx_ (log_ r1) <= idx ->
       exists e', log_at (log_ r1) idx = Some e' /\ entry_term e' = t).
Proof.
  intros Hc Hrole Hidx ours conflict Hno. pose proof (ci_idx _ Hc) as [I1 I2 I3 I4 I5 I6 I7 I8].
  pose proof (last_idx_range _ I1) as Hlr.
  assert (Hours : ours = match log_at (log_ r) idx with Some e => entry_term e | None => 0 end).
  { apply iter_Term_At; [done|]. unfold is_u64. lia. }
  destruct conflict eqn:Ec; unfold conflict in Ec; simpl in Hno.
  - btrue. assert (is_Some (log_at (log_ r) idx)) as Hs.
    { destruct (log_at (log_ r) idx); [done|]. rewrite Hours in *. done. }
    apply log_at_is_Some in Hs; [|done].
    destruct (cancel_grown r idx Hc Hrole) as (l & -> & Hg & El & Hlast & Ho & Hv); [lia|].
    exists l. split; [done|]. simpl in *. rewrite El.
    pose proof (gr_side _ _ Hg) as E. side_eqs E.
    assert (Hl : log_ok l) by (rewrite <- El; apply (gr_core _ _ Hg)).
    split_and!; [done|congruence|lia|lia|intros; apply Hv; lia| |lia].
    intros j x Hx. rewrite <- Hv; [done|].
    assert (oldest_stored_idx_ l <= j <= last_idx l) as Hj by (apply log_at_is_Some; eauto). lia.
  - exists (log_ r). split; [done|]. split_and!; [by apply grown_refl|done|lia|lia|done|done|].
    intros H1 H2. assert (is_Some (log_at (log_ r) idx)) as [e He] by (apply log_at_is_Some; [done|lia]).
    exists e. split; [done|]. rewrite He in Hours. destruct (log_at_ok _ _ _ I1 He) as [Hnz _]. lia.
Qed.

Lemma append_request_entries_spec es r lp :
  core_inv r -> role_ r = FOLLOWER -> 0 <= lp <= last_idx (log_ r) ->
  last_idx (log_ r) + Zlen es + 2 < 2 ^ 64 -> Forall entry_wf es ->
  exists r' lp', append_request_entries r (lp + 1) lp es = Some (r', lp') /\
    entries_taken r lp es r' lp'.
Proof.
  revert r lp. induction es as [|e es IH]; intros r lp Hc Hrole Hlp Hroom Hwf.
  { eexists _, _. split; [done|]. apply entries_taken_stop; [by apply grown_refl|lia|lia|done]. }
  apply Forall_cons in Hwf as [He Hwf]. rewrite Zlen_cons in Hroom. pose proof (Zlen_nonneg es).
  simpl. pose proof (last_idx_range _ (ii_log _ _ _ _ (ci_idx _ Hc))) as Hlr.
  destruct (_ && (_ || _)) eqn:Hno.
  { eexists _, _. split; [done|]. apply entries_taken_stop; [by apply grown_refl|lia|lia|done]. }
  destruct (resolve_conflict r (lp + 1) (entry_term e) Hc Hrole ltac:(lia) Hno)
    as (l & -> & Hg & Hrole1 & Hl1 & Hl2 & Hbelow & Hsub & Hterm). simpl.
  match goal with |- context [last_idx (log_ ?x)] => set (r1 := x) in *; clearbody r1 end.
  pose proof (gr_core _ _ Hg) as Hc1. rewrite !(u64_small (_ + 1)) by (unfold is_u64; lia).
  assert (Hbelow' : forall j, oldest_stored_idx_ (log_ r1) <= j <= lp ->
    log_at (log_ r1) j = log_at (log_ r) j) by (intros; apply Hbelow; lia).
  clear Hno.  destruct (_ =? _) eqn:Eend; last first.
  { destruct (IH r1 (lp + 1) Hc1 Hrole1 ltac:(lia) ltac:(lia) Hwf) as (r' & lp' & -> & Ht).
    eexists _, _. split; [done|].
    eapply entries_taken_cons; [done|lia|done| |auto|done].
    intros Ho. destruct Hterm as (e' & H1 & H2); [lia|done|]. exists e'. split_and!; [done|done|].
    intros Hag. apply (Hag 0%nat e e'); [done| |done].
    replace (lp + 1 + Z.of_nat 0) with (lp + 1) by lia. auto. }
  destruct (ct_equals _ _) eqn:Eh; simpl; last first.
  { eexists _, _. split; [done|]. apply entries_taken_stop; [done|lia|lia|done]. }
  destruct (LogAppend_spec r1 e Hc1) as (r2 & loc & err & -> & Hg2 & _ & Hv2 & Hres); [lia|done| | |].
  { unfold entry_fits. destruct (entry_inner e); auto. }
  { symmetry. rewrite ct_equals_eq in Eh. by apply bool_decide_eq_true in Eh. }
  simpl. pose proof (gr_oldest _ _ Hg2). pose proof (gr_side _ _ Hg2) as E. side_eqs E.
  assert (Hg' : grown r r2) by (by eapply grown_trans).
  assert (Hbelow2 : forall j, oldest_stored_idx_ (log_ r2) <= j <= lp ->
    log_at (log_ r2) j = log_at (log_ r) j) by (intros; rewrite Hv2, Hbelow by lia; done).
  destruct (is_ok err) eqn:Ee; simpl; last first.
  { eexists _, _. split; [done|]. apply entries_taken_stop; [done|lia|lia|done]. }
  destruct Hres as (R1 & R2 & _).
  destruct (IH r2 (lp + 1) (gr_core _ _ Hg2) ltac:(congruence) ltac:(lia) ltac:(lia) Hwf)
    as (r' & lp' & -> & Ht).
  eexists _, _. split; [done|]. eapply entries_taken_cons; [done|lia|done| | |done].
  - intros _. exists e. split_and!; [|done|done]. rewrite <- R2. f_equal. lia.
  - intros j x Hj Hx. assert (is_Some (log_at (log_ r2) j)) as Hs by eauto.
    apply log_at_is_Some in Hs; [lia|apply (gr_core _ _ Hg2)].
Qed.
End append.
