(* ===== verification/RaftReceive.v ===== *)
(** * Advancing the promise and commit indices, and the entry points

    A follower follows its leader's indices; a leader takes the highest
    index that a quorum of the voters reached. *)
From stdpp Require Import prelude gmap sorting.
From S2P Require Import Prelude Errors Containers Util RaftTypes RaftLog PeerId Membership Merkle Raft RaftInv RaftStep RaftAppend.

Section commit.
Context {T L : Type} `{!EqDecision L, !Countable L} {MO : MerkleOps T L} {MS : MerkleSpec T L}.
Context {RP : RaftPlatform} {RPL : RaftPlatformLaws}.
Notation Raft := (Raft T L).
Implicit Types r : Raft.

(** [r1] is [r] with larger indices and, in consequence, other memberships
    and followers; its Merkle leaves are still those of [r]. *)
Record advanced r r1 : Prop := {
  ad_frame : frame r1 = frame r;
  ad_log : log_ r1 = log_ r;
  ad_mem : members_inv (membership_ r1) (uncommitted_memberships_ r1) (last_idx (log_ r)) (super_majority_ r);
  ad_role : role_inv r1;
  ad_commit : commit_idx_ r <= commit_idx_ r1 <= promise_idx_ r1;
  ad_promise : promise_idx_ r <= promise_idx_ r1 <= last_idx (log_ r);
  ad_membership : role_ r <> FOLLOWER -> membership r1 = membership r }.

Lemma advanced_refl r : core_inv r -> advanced r r.
Proof. intros [[] ? ? ? ?]. by split. Qed.

(** Once the leaves are updated, all is well. *)
Lemma advanced_update r r1 :
  inv r -> advanced r r1 ->
  exists t, UpdateMerkleTree r1 = Some {| r1 with merkle_ := t |} /\
    inv {| r1 with merkle_ := t |} /\ step r {| r1 with merkle_ := t |}.
Proof.
  intros [Hc [Hlive _ _] Hmsg] [A1 A2 A3 A4 A5 A6 A7]. frame_eqs A1. simpl in *.
  destruct Hc as [[I1 I2 I3 I4 I5 I6 I7 I8] Hm Ht Hcf Hr].
  pose proof (last_idx_range _ I1).
  destruct (UpdateMerkleTree_spec r1) as (t & Heq & Hsync & Hrest).
  { by rewrite A2. } { unfold is_u64. lia. } { unfold is_u64. lia. }
  { destruct Hlive. split; congruence. }
  exists t. split; [done|]. split.
  - split; [|done|simpl; by rewrite Ese].
    split; simpl; [|by rewrite A2, Esm|by rewrite Ect|by rewrite Ecf|exact A4].
    rewrite A2, Eap. split; simpl; try done; lia.
  - split; simpl; try congruence; try lia; rewrite ?A2; try done.
    intros l H1 H2. rewrite Hrest; congruence.
Qed.

Lemma follower_advance_spec r lc lp :
  inv r -> lc <= lp <= last_idx (log_ r) ->
  exists r', follower_advance r lc lp = Some (r', true) /\ inv r' /\ step r r' /\
    log_ r' = log_ r /\ commit_idx_ r' = Z.max (commit_idx_ r) lc /\
    promise_idx_ r' = Z.max (promise_idx_ r) lp /\
    current_term_ r' = current_term_ r /\ role_ r' = role_ r /\
    sendable_messages_ r' = sendable_messages_ r.
Proof.
  intros Hi Hle. pose proof Hi as [Hc Hs _]. pose proof (ci_idx _ Hc) as [I1 I2 I3 I4 I5 I6 I7 I8].
  unfold follower_advance.
  destruct ((commit_idx_ r <? lc) || (promise_idx_ r <? lp)) eqn:Eup; last first.
  { apply orb_false_iff in Eup as [E1 E2]. simpl. rewrite E1, E2. exists r.
    split_and!; try done; try lia; apply step_refl. }
  rewrite VerifyMerkleTree_OK by done. simpl.
  set (r1 := if commit_idx_ r <? lc then _ else r).
  assert (Ha : advanced r {| r1 with commit_idx_ := Z.max (commit_idx_ r) lc;
                                     promise_idx_ := Z.max (promise_idx_ r) lp |} /\
    commit_idx_ r1 = Z.max (commit_idx_ r) lc /\ promise_idx_ r1 = promise_idx_ r).
  { unfold r1. destruct (commit_idx_ r <? lc) eqn:E1.
    - destruct (MaybeChange_spec {| r with commit_idx_ := lc |} (last_idx (log_ r)))
        as (S1 & S2 & S3 & S4 & S5); [done|apply Hc|apply Hc|done|].
      pose proof S1 as S1'. side_eqs S1'. simpl in *. split; [|split; [rewrite Eci; lia|done]].
      split; simpl; [|done|congruence|exact S3|lia|lia|exact S5].
      by apply (f_equal (fun x => x.1.1)) in S1.
    - split; [|split; [lia|done]].
      split; simpl; [done|done|apply Hc|apply Hc|lia|lia|done]. }
  destruct Ha as (Ha & Ec & Ep). clearbody r1.
  set (r2 := if promise_idx_ r1 <? lp then _ else r1).
  assert (r2 = {| r1 with commit_idx_ := Z.max (commit_idx_ r) lc;
                          promise_idx_ := Z.max (promise_idx_ r) lp |}) as ->.
  { unfold r2. rewrite <- Ec, Ep. destruct (promise_idx_ r <? lp) eqn:E.
    - rewrite Z.max_r by lia. by destruct r1.
    - rewrite Z.max_l, <- Ep by lia. by destruct r1. }
  destruct (advanced_update _ _ Hi Ha) as (t & -> & Hi' & Hst). simpl.
  eexists. split; [done|]. destruct Ha as [A1 A2 _ _ _ _ _]. frame_eqs A1. simpl in *.
  by split_and!.
Qed.

(** ** Counting *)
Lemma NoDup_fmap_filter {A B} (g : A -> B) (f : A -> bool) (l : list A) :
  NoDup (g <$> l) -> NoDup (g <$> List.filter f l).
Proof.
  induction l as [|a l IH]; csimpl; [done|]. intros [Ha Hl]%NoDup_cons.
  destruct (f a); csimpl; [|auto]. constructor; [|auto].
  intros (b & Hb & Hin)%list_elem_of_fmap. apply Ha. rewrite Hb. apply list_elem_of_fmap_2.
  apply list_elem_of_In in Hin. apply filter_In in Hin as [Hin _]. by apply list_elem_of_In.
Qed.

Lemma count_ge_fmap {A} (f : A -> Z) x (l : list A) :
  count_ge x (f <$> l) = length (List.filter (fun a => x <=? f a) l).
Proof.
  induction l as [|a l IH]; [done|]. rewrite fmap_cons, count_ge_cons, IH. simpl.
  by destruct (x <=? f a).
Qed.

Lemma quorum_size_u64 n s : 1 <= quorum_size n s -> is_u64 (quorum_size n s - 1).
Proof.
  intros Hq. unfold quorum_size in *.
  pose proof (u64_range (u64 (n ⊖ s) / 2 + 1 + s)). unfold is_u64 in *. lia.
Qed.

(** ** The leader's quorums *)

(** The voting followers, as [MaybeAdvanceCommitIndex] collects them. *)
Definition voters r : list (PeerID * ReplicationState) :=
  List.filter (fun pf => set_count (voting_replicas_ (membership r)) pf.1) (l_followers (leader_ r)).

(** A quorum of voters reached [x]: this replica by [own], a follower by [f]. *)
Definition quorum_reached r (f : ReplicationState -> LogIdx) (own x : LogIdx) : Prop :=
  exists q, NoDup q /\ q ⊆ voting_replicas_ (membership r) /\ membership_quorum_size r <= Zlen q /\
    forall p, p ∈ q -> (p = me_ r /\ x <= own) \/
      exists s, map_find (l_followers (leader_ r)) p = Some s /\ x <= f s.

Lemma elem_of_voters r p s :
  (p, s) ∈ voters r <-> (p, s) ∈ l_followers (leader_ r) /\ p ∈ voting_replicas_ (membership r).
Proof.
  unfold voters. rewrite list_elem_of_In, filter_In, <- list_elem_of_In. simpl.
  by rewrite set_count_spec.
Qed.

Section leader.
Context (r : Raft) (Hc : core_inv r) (Hlead : role_ r = LEADER).

Lemma leader_facts :
  me_ r ∈ voting_replicas_ (membership r) /\
  followers_inv (me_ r) (all_replicas_ (membership r)) (last_idx (log_ r)) (l_followers (leader_ r)).
Proof.
  destruct Hc as [_ _ _ _ Hr]. unfold role_inv in Hr. rewrite Hlead in Hr. tauto.
Qed.

Lemma membership_is_good : membership_good (membership r).
Proof.
  destruct Hc as [_ [M1 M2 _ _ _] _ _ _]. rewrite membership_current. unfold current.
  destruct (last _) as [[i m]|] eqn:El; [|done]. apply last_Some_elem_of in El.
  rewrite Forall_forall in M2. by apply (M2 _ El).
Qed.

Lemma voters_keys_NoDup : NoDup (voters r).*1.
Proof.
  destruct leader_facts as [_ [F1 _ _]]. unfold voters. rewrite filter_keys.
  apply NoDup_ListNoDup, List.NoDup_filter, NoDup_ListNoDup. by apply set_ok_NoDup.
Qed.

Lemma voters_keys p : p ∈ (voters r).*1 <-> p ∈ voting_replicas_ (membership r) /\ p <> me_ r.
Proof.
  destruct leader_facts as [_ [F1 F2 _]]. unfold voters.
  rewrite filter_keys, list_elem_of_In, filter_In, <- list_elem_of_In, F2, set_count_spec.
  pose proof (mem_subset _ (mg_ok _ membership_is_good) p). tauto.
Qed.

(** With this replica, the voters are all accounted for. *)
Lemma voters_length : Zlen (voters r) + 1 = Zlen (voting_replicas_ (membership r)).
Proof.
  assert (me_ r :: (voters r).*1 ≡ₚ voting_replicas_ (membership r)) as Hp.
  { apply NoDup_Permutation.
    - constructor; [rewrite voters_keys; tauto|apply voters_keys_NoDup].
    - apply set_ok_NoDup, mem_voting_ok, membership_is_good.
    - intros p. rewrite elem_of_cons, voters_keys. destruct leader_facts as [Hme _].
      destruct (decide (p = me_ r)) as [->|]; tauto. }
  apply Permutation_length in Hp. simpl in Hp. rewrite length_fmap in Hp. unfold Zlen. lia.
Qed.

Lemma quorum_index_range (f : ReplicationState -> LogIdx) own :
  1 <= membership_quorum_size r /\
  exists x, sort_desc ((f ∘ snd <$> voters r) ++ [own]) !! Z.to_nat (membership_quorum_size r ⊖ 1) = Some x.
Proof.
  pose proof membership_is_good as [Mok Mv Msz]. pose proof voters_length as Hv.
  assert (Hsz : Zlen (voting_replicas_ (membership r)) <= Zlen (all_replicas_ (membership r))).
  { unfold Zlen. apply inj_le. apply NoDup_subset_length; [apply set_ok_NoDup, Mok|apply Mok]. }
  pose proof (Zlen_pos _ Mv).
  destruct (quorum_size_bounds (Zlen (voting_replicas_ (membership r))) (super_majority_ r)) as [Q1 Q2].
  { lia. } { apply Hc. }
  fold (membership_quorum_size r) in Q1, Q2. split; [done|].
  apply lookup_lt_is_Some. rewrite (Permutation_length (sort_desc_perm _)), length_app, length_fmap.
  unfold Zlen in *. simpl. nowrap. lia.
Qed.

Lemma quorum_of_index (f : ReplicationState -> LogIdx) own x :
  sort_desc ((f ∘ snd <$> voters r) ++ [own]) !! Z.to_nat (membership_quorum_size r ⊖ 1) = Some x ->
  quorum_reached r f own x.
Proof.
  intros (Hcount & _ & _)%sort_desc_nth. destruct (quorum_index_range f own) as [Hq _].
  destruct leader_facts as [Hme [F1 _ _]].
  set (reached := List.filter (fun pf => x <=? (f ∘ snd) pf) (voters r)).
  rewrite count_ge_app, count_ge_fmap in Hcount. change (List.filter _ _) with reached in Hcount.
  assert (Hkey : forall p, p ∈ reached.*1 -> exists s, (p, s) ∈ voters r /\ x <= f s).
  { intros p ([p' s] & -> & Hp)%list_elem_of_fmap. exists s. unfold reached in Hp.
    rewrite list_elem_of_In, filter_In, <- list_elem_of_In in Hp. destruct Hp as [? Hp].
    split; [done|]. by apply Z.leb_le in Hp. }
  assert (Hvot : forall p s, (p, s) ∈ voters r -> p ∈ voting_replicas_ (membership r) /\ p <> me_ r).
  { intros p s Hp. apply voters_keys. by apply (list_elem_of_fmap_2 fst) in Hp. }
  exists ((if x <=? own then [me_ r] else []) ++ reached.*1). split_and!.
  - apply NoDup_app. split_and!; [destruct (_ <=? _); repeat constructor; set_solver| |].
    + intros p Hp Hp2. apply Hkey in Hp2 as (s & Hs & _). apply Hvot in Hs as [_ Hs].
      destruct (_ <=? _); set_solver.
    + apply NoDup_fmap_filter, voters_keys_NoDup.
  - intros p [Hp|Hp]%elem_of_app; [destruct (_ <=? _); set_solver|].
    apply Hkey in Hp as (s & Hs & _). by apply Hvot in Hs as [? _].
  - rewrite Zlen_app. rewrite u64_small in Hcount by (by apply quorum_size_u64).
    unfold Zlen. rewrite length_fmap, count_ge_cons in *. unfold count_ge in Hcount. simpl in Hcount.
    destruct (x <=? own); simpl in *; lia.
  - intros p [Hp|Hp]%elem_of_app.
    + destruct (x <=? own) eqn:E; [|by apply elem_of_nil in Hp]. left. split; [set_solver|lia].
    + right. apply Hkey in Hp as (s & Hs & Hx). exists s. split; [|done].
      apply elem_of_voters in Hs as [Hs _]. by apply elem_map_find.
Qed.
End leader.

(** A value above everything this replica promised counts the voters only,
    whose promises do not exceed what they store. *)
Lemma commit_below_promise r new_promise own_promise new_commit :
  core_inv r -> role_ r = LEADER ->
  sort_desc ((rs_match_idx ∘ snd <$> voters r) ++ [last_idx (log_ r)])
    !! Z.to_nat (membership_quorum_size r ⊖ 1) = Some new_promise ->
  sort_desc ((rs_promise_idx ∘ snd <$> voters r) ++ [own_promise])
    !! Z.to_nat (membership_quorum_size r ⊖ 1) = Some new_commit ->
  new_promise <= own_promise -> new_commit <= own_promise.
Proof.
  intros Hc Hr (_ & Hmax & _)%sort_desc_nth (Hcnt & _ & _)%sort_desc_nth Hle.
  destruct (decide (new_commit <= own_promise)) as [|Hgt]; [done|].
  assert (new_commit <= new_promise); [|lia]. apply Hmax.
  rewrite count_ge_app, count_ge_cons in Hcnt. rewrite (proj2 (Z.leb_gt _ _)) in Hcnt by lia.
  unfold count_ge in Hcnt at 2. simpl in Hcnt. rewrite count_ge_app.
  eapply Nat.lt_le_trans; [exact Hcnt|]. rewrite Nat.add_0_r.
  etrans; [apply (count_ge_pointwise (rs_promise_idx ∘ snd) (rs_match_idx ∘ snd))|lia].
  apply Forall_forall. intros [p f] [Hp _]%elem_of_voters.
  destruct (leader_facts r Hc Hr) as [_ [_ _ F]]. rewrite Forall_forall in F.
  destruct (F _ Hp) as [_ ? _]. simpl in *. lia.
Qed.

Lemma new_promise_range r new_promise :
  core_inv r -> role_ r = LEADER ->
  sort_desc ((rs_match_idx ∘ snd <$> voters r) ++ [last_idx (log_ r)])
    !! Z.to_nat (membership_quorum_size r ⊖ 1) = Some new_promise ->
  new_promise <= last_idx (log_ r).
Proof.
  intros Hc Hr (_ & _ & Hin)%sort_desc_nth.
  apply elem_of_app in Hin as [Hin|Hin]; [|apply list_elem_of_singleton in Hin; lia].
  apply list_elem_of_fmap in Hin as ([p f] & -> & [Hp _]%elem_of_voters).
  destruct (leader_facts r Hc Hr) as [_ [_ _ F]]. rewrite Forall_forall in F.
  by destruct (F _ Hp) as [_ _ ?].
Qed.

Lemma heartbeats_advanced r r1 :
  advanced r r1 ->
  advanced r (set_followers r1 (prod_map id (fun f => {| f with rs_send_heartbeat := true |}) <$>
                                l_followers (leader_ r1))).
Proof.
  intros [A1 A2 A3 A4 A5 A6 A7]. split; try done. apply role_inv_set_followers; [done|].
  intros Hlead. apply followers_fmap; [intros; by apply follower_ok_heartbeat|].
  unfold role_inv in A4. rewrite Hlead in A4. apply A4.
Qed.

(** The leader's promise is an index a quorum of voters stores, its commit
    index one that a quorum promised. *)
Lemma MaybeAdvanceCommitIndex_spec r :
  inv r ->
  exists r1, MaybeAdvanceCommitIndex r = Some r1 /\ advanced r r1 /\
    (promise_idx_ r < promise_idx_ r1 ->
     role_ r = LEADER /\ quorum_reached r rs_match_idx (last_idx (log_ r)) (promise_idx_ r1)) /\
    (commit_idx_ r < commit_idx_ r1 ->
     role_ r = LEADER /\ quorum_reached r rs_promise_idx (promise_idx_ r1) (commit_idx_ r1)).
Proof.
  intros [Hc _ _]. unfold MaybeAdvanceCommitIndex. case_bool_decide as Hr; simpl.
  2: { exists r. split; [done|]. split; [by apply advanced_refl|lia]. }
  fold (voters r). pose proof (ci_idx _ Hc) as [I1 I2 I3 I4 I5 I6 I7 I8].
  destruct (quorum_index_range r Hc Hr rs_match_idx (last_idx (log_ r))) as [Hq [np Hnp]].
  rewrite Hnp. simpl. pose proof (new_promise_range r np Hc Hr Hnp) as Hnpl.
  set (r1 := if promise_idx_ r <? np then _ else r).
  assert (Hp1 : promise_idx_ r1 = Z.max (promise_idx_ r) np).
  { unfold r1. destruct (promise_idx_ r <? np) eqn:E; simpl; lia. }
  assert (E1 : membership_quorum_size r1 = membership_quorum_size r /\ commit_idx_ r1 = commit_idx_ r /\
    advanced r r1).
  { unfold r1. destruct (promise_idx_ r <? np) eqn:E; [|auto using advanced_refl].
    split_and!; [done|done|]. split; simpl; try apply Hc; done || lia. }
  destruct E1 as (-> & Ec1 & Ha1).
  destruct (quorum_index_range r Hc Hr rs_promise_idx (promise_idx_ r1)) as [_ [nc Hnc]].
  rewrite Hnc. simpl. pose proof (commit_below_promise r np _ nc Hc Hr Hnp Hnc ltac:(lia)) as Hcp.
  set (r2 := if commit_idx_ r1 <? nc then _ else r1).
  assert (E2 : commit_idx_ r2 = Z.max (commit_idx_ r) nc /\ promise_idx_ r2 = promise_idx_ r1 /\
    advanced r r2).
  { unfold r2. destruct (commit_idx_ r1 <? nc) eqn:E; [|split_and!; [lia|done|done]].
    pose proof Ha1 as [A1 A2 A3 A4 A5 A6 A7].
    assert (super_majority_ r1 = super_majority_ r) as Esm1 by (frame_eqs A1; done).
    assert (role_ r1 = role_ r) as Hr1 by (frame_eqs A1; done).
    destruct (MaybeChange_spec {| r1 with commit_idx_ := nc |} (last_idx (log_ r)))
      as (S1 & S2 & S3 & S4 & S5); simpl; [by rewrite A2|by rewrite Esm1|exact A4|by rewrite A2|].
    pose proof S1 as S1'. unfold side in S1'. apply pair_eq in S1' as [S1' Sp]. apply pair_eq in S1' as [Sf Sc].
    simpl in *. split_and!; [rewrite Sc; lia|done|].
    split; [rewrite Sf; exact (ad_frame _ _ Ha1)|congruence| |exact S3|lia|lia|].
    2: { intros Hn. rewrite S5; [by apply A7|]. rewrite Hr1. done. }
    rewrite A2 in S4. frame_eqs Sf. simpl in *. congruence. }
  destruct E2 as (Ec2 & Ep2 & Ha2). clearbody r2 r1.
  assert (Hq1 : promise_idx_ r < promise_idx_ r2 ->
    role_ r = LEADER /\ quorum_reached r rs_match_idx (last_idx (log_ r)) (promise_idx_ r2)).
  { intros Hlt. split; [done|]. rewrite Ep2, Hp1, Z.max_r by lia. by apply quorum_of_index. }
  assert (Hq2 : commit_idx_ r < commit_idx_ r2 ->
    role_ r = LEADER /\ quorum_reached r rs_promise_idx (promise_idx_ r2) (commit_idx_ r2)).
  { intros Hlt. split; [done|]. rewrite Ec2, Ep2, Z.max_r by lia. by apply quorum_of_index. }
  destruct (_ || _); eexists; (split; [done|]); split_and!; eauto using heartbeats_advanced.
Qed.
End commit.

(** * The entry points of a Raft replica

    Every public operation of [class Raft] succeeds on a state that satisfies
    the invariant (no [CHECK] fails, no index is out of range), keeps the
    invariant and is a [step]. *)

Section receive.
Context {T L : Type} `{!EqDecision L, !Countable L} {MO : MerkleOps T L} {MS : MerkleSpec T L}.
Context {RP : RaftPlatform} {RPL : RaftPlatformLaws}.
Notation Raft := (Raft T L).
Implicit Types r : Raft.

(** A call that succeeds and adds at most [n] entries. *)
Record good (n : Z) r r' : Prop := {
  gd_inv : inv r';
  gd_step : step r r';
  gd_last : last_idx (log_ r') <= last_idx (log_ r) + n }.

Lemma good_trans n m r1 r2 r3 : good n r1 r2 -> good m r2 r3 -> good (n + m) r1 r3.
Proof. intros [] []. split; [done|by eapply step_trans|lia]. Qed.

Lemma good_weaken n m r r' : n <= m -> good n r r' -> good m r r'.
Proof. intros Hle []. split; [done|done|lia]. Qed.

Lemma light_good r r' : inv r -> light r r' -> good 0 r r'.
Proof.
  intros Hi Hl. split; [by eapply light_inv|apply Hl|].
  destruct Hl as [E _ _ _]. unfold data in E. injection E as E1 E2 E3 E4 E5 E6 E7 E8 E9 E10 E11 E12.
  rewrite E7. lia.
Qed.

Lemma grown_good n r r' :
  inv r -> grown r r' -> last_idx (log_ r') <= last_idx (log_ r) + n -> good n r r'.
Proof. intros. split; [by eapply grown_inv|by apply grown_step|done]. Qed.

(** ** [HandleAppendRequest] *)
Lemma reply_good n r0 r from inner :
  good n r0 r -> from <> me_ r0 ->
  message_wf {| msg_group := group_ r; msg_term := current_term_ r; msg_inner := inner |} ->
  exists r', AddSendableMessage r (Reply from
    {| msg_group := group_ r; msg_term := current_term_ r; msg_inner := inner |}) = Some r' /\
    good n r0 r'.
Proof.
  intros Hg Hme Hwf. pose proof (gd_inv _ _ _ Hg) as Hi.
  destruct (AddSendableMessage_light r r (Reply from
    {| msg_group := group_ r; msg_term := current_term_ r; msg_inner := inner |}) (light_refl r Hi))
    as (r' & -> & Hl & _); [done| |].
  { intros p [= <-]. by rewrite (st_me _ _ (gd_step _ _ _ Hg)). }
  exists r'. split; [done|]. replace n with (n + 0) by lia.
  eapply good_trans; [done|]. by apply light_good.
Qed.

Lemma term_u64 r : core_inv r -> is_u64 (current_term_ r) /\ current_term_ r < 2 ^ 64 - 1.
Proof. intros [_ _ ? _ _]. unfold is_u64. lia. Qed.

Lemma index_u64s r : inv r ->
  is_u64 (commit_idx_ r) /\ is_u64 (promise_idx_ r) /\ is_u64 (last_idx (log_ r)).
Proof.
  intros [Hc _ _]. destruct (idx_u64 _ _ _ _ (ci_idx _ Hc)) as (_ & ? & ?).
  split_and!; [done|done|]. apply log_index_u64, Hc.
Qed.

(** The accepting half: the entries, the indices, the reply. *)
Lemma accept_good r m from :
  inv r -> role_ r = FOLLOWER -> from <> me_ r ->
  0 <= ar_prev_log_idx m <= last_idx (log_ r) -> Forall entry_wf (ar_entries m) ->
  ar_leader_commit m <= ar_leader_promise m ->
  last_idx (log_ r) + Zlen (ar_entries m) + 2 < 2 ^ 64 ->
  exists r', ('(r, last_processed_idx) ←
     append_request_entries r (ar_prev_log_idx m ⊕ 1) (ar_prev_log_idx m) (ar_entries m);
   '(r, go) ← follower_advance r (Z.min (ar_leader_commit m) last_processed_idx)
                (Z.min (ar_leader_promise m) last_processed_idx);
   if negb go then Some r else
   AddSendableMessage r (Reply from
    {| msg_group := group_ r; msg_term := current_term_ r;
       msg_inner := kAppendResponse {|
         as_success := true; as_match_idx := last_processed_idx;
         as_match_hash_chain := hash_at (log_ r) last_processed_idx;
         as_promise_idx := Z.min (promise_idx_ r) last_processed_idx;
         as_last_log_idx := last_idx (log_ r) |} |})) = Some r' /\
    good (Zlen (ar_entries m)) r r'.
Proof.
  intros Hi Hr Hme Hprev Hwf Hord Hroom. pose proof Hi as [Hc _ _].
  pose proof (last_idx_range _ (last_idx_inv _ Hi)) as Hlr.
  rewrite (u64_small (_ + 1)) by (unfold is_u64; lia).
  destruct (append_request_entries_spec (ar_entries m) r (ar_prev_log_idx m))
    as (r1 & lp & -> & [T1 T2 T3 T4 _ _]); [done..|]. simpl.
  pose proof (grown_good (Zlen (ar_entries m)) _ _ Hi T1 T4) as Hg1.
  destruct (follower_advance_spec r1 (Z.min (ar_leader_commit m) lp) (Z.min (ar_leader_promise m) lp))
    as (r2 & -> & Hi2 & Hst2 & El & Ec & Ep & Et & _); [apply Hg1|lia|]. simpl.
  apply reply_good; [|done|].
  - destruct Hg1. split; [done|by eapply step_trans|by rewrite El].
  - destruct (term_u64 r2 (inv_core _ Hi2)). destruct (index_u64s r2 Hi2) as (U1 & U2 & U3).
    rewrite El in U3. unfold is_u64 in *. split; [done|]. split; [done|]. simpl.
    rewrite El. unfold is_u64. split_and!; lia.
Qed.

Lemma HandleAppendRequest_good r t m from :
  inv r -> from <> me_ r -> is_u64 (ar_prev_log_idx m) -> Forall entry_wf (ar_entries m) ->
  ar_leader_commit m <= ar_leader_promise m ->
  last_idx (log_ r) + Zlen (ar_entries m) + 2 < 2 ^ 64 ->
  exists r', HandleAppendRequest r t m from = Some r' /\ good (Zlen (ar_entries m)) r r'.
Proof.
  intros Hi Hme Hu Hwf Hord Hroom. pose proof (last_idx_inv _ Hi) as Hlog.
  unfold HandleAppendRequest. pose proof (light_good _ _ Hi (light_refl r Hi)) as Hself.
  pose proof (Zlen_nonneg (ar_entries m)) as Hn.
  assert (Hself' : good (Zlen (ar_entries m)) r r) by (by eapply good_weaken; [|done]).
  destruct (current_term_ r <? t) eqn:Et; [eauto|].
  assert (exists r1 go, (if t =? current_term_ r then append_request_role r from else Some (r, true))
    = Some (r1, go) /\ light r r1 /\ current_term_ r1 = current_term_ r /\
      (t = current_term_ r -> go = true -> role_ r1 = FOLLOWER)) as (r1 & go & -> & Hl & Et1 & Hgo).
  { destruct (t =? current_term_ r) eqn:E; [|exists r, true; split_and!; [done|by apply light_refl|done|intros; lia]].
    destruct (append_request_role_light r from Hi) as (r1 & go & -> & H1 & H2 & H3 & _).
    exists r1, go. split_and!; auto. }
  simpl. pose proof (good_weaken 0 _ _ _ Hn (light_good _ _ Hi Hl)) as Hg1.
  destruct go; simpl; [|eauto].
  pose proof (gd_inv _ _ _ Hg1) as Hi1.
  assert (log_ r1 = log_ r) as El.
  { destruct Hl as [E _ _ _]. by injection E. }
  assert (me_ r1 = me_ r) as Em by apply Hl.
  destruct (_ || _) eqn:Erej.
  { apply reply_good; [done|done|].
    destruct (term_u64 r1 (inv_core _ Hi1)). destruct (index_u64s r1 Hi1) as (U1 & U2 & U3).
    split; [done|]. split; [done|]. simpl. by split_and!. }
  apply orb_false_iff in Erej as [Elt Elog].
  rewrite Et1 in Elt |- *. assert (t = current_term_ r) as Heq by lia.
  rewrite Heq, Et1, Z.eqb_refl, bool_decide_eq_true_2 in Elog by (by apply Hgo).
  simpl in Elog. apply negb_false_iff in Elog. rewrite Elog.
  rewrite Heq, Z.eqb_refl, bool_decide_eq_true_2 by (by apply Hgo). simpl.
  assert (Hp : 0 <= ar_prev_log_idx m <= last_idx (log_ r)).
  { pose proof (last_idx_range _ Hlog). unfold is_u64 in Hu.
    apply orb_true_iff in Elog as [E|[E _]%andb_true_iff]; [lia|].
    rewrite iter_Valid_At in E by done. btrue. apply log_at_is_Some in E; [lia|done]. }
  destruct (accept_good r1 m from Hi1) as (r' & Heq' & Hg'); rewrite ?El, ?Em; auto.
  exists r'. split; [exact Heq'|].
  replace (Zlen (ar_entries m)) with (0 + Zlen (ar_entries m)) by lia.
  eapply good_trans; [by apply light_good|done].
Qed.

(** ** After every event *)
Lemma MaybeChangeStateAndSendMessages_good r :
  inv r -> last_idx (log_ r) + 2 < 2 ^ 64 ->
  exists r', MaybeChangeStateAndSendMessages r = Some r' /\ good 1 r r'.
Proof.
  intros Hi Hroom. unfold MaybeChangeStateAndSendMessages.
  destruct (MaybeBecomeLeader_spec r Hi Hroom) as (r1 & -> & Hi1 & Hst1 & Hl1 & _). simpl.
  rewrite VerifyMerkleTree_OK by apply Hi1. simpl.
  destruct (MaybeAdvanceCommitIndex_spec r1 Hi1) as (r2 & -> & Ha & _). simpl.
  destruct (advanced_update _ _ Hi1 Ha) as (t & -> & Hi2 & Hst2). simpl.
  pose proof (ad_log _ _ Ha) as El.
  match goal with |- context [append_entries_to ?x _] => set (r2' := x) in * end.
  destruct (append_entries_to_light r2' (all_replicas_ (membership r2')) Hi2) as (r3 & -> & Hl3). simpl.
  pose proof (light_good _ _ Hi2 Hl3) as Hg3.
  assert (Hg : good 1 r r3).
  { replace 1 with (1 + 0) by lia. eapply good_trans; [|exact Hg3].
    split; [done|by eapply step_trans|]. simpl. rewrite El. lia. }
  destruct (_ && _); [|eauto].
  destruct (TryToRelinquishLeadership_light r3 (gd_inv _ _ _ Hg)) as (r4 & -> & Hl4).
  exists r4. split; [done|]. replace 1 with (1 + 0) by lia.
  eapply good_trans; [done|]. apply light_good; [apply Hg|done].
Qed.

(** Doing something that is [good], then the above. *)
Lemma then_messages n r r1 :
  good n r r1 -> last_idx (log_ r) + n + 2 < 2 ^ 64 ->
  exists r', MaybeChangeStateAndSendMessages r1 = Some r' /\ good (n + 1) r r'.
Proof.
  intros Hg Hroom. pose proof (gd_last _ _ _ Hg).
  destruct (MaybeChangeStateAndSendMessages_good r1 (gd_inv _ _ _ Hg)) as (r' & -> & Hg'); [lia|].
  eauto using good_trans.
Qed.

(** ** [Receive] *)
Lemma position_ok_data r r' idx term hash fut :
  data r' = data r -> position_ok r idx term hash fut -> position_ok r' idx term hash fut.
Proof.
  intros E. unfold data in E. injection E as E1 E2 E3 E4 E5 E6 E7 E8 E9 E10 E11 E12.
  unfold position_ok. by rewrite E7, E11.
Qed.

(** The entries a message may add. *)
Definition msg_entries (msg : RaftMessage) : Z :=
  match msg_inner msg with kAppendRequest m => Zlen (ar_entries m) | _ => 0 end.

Lemma msg_entries_nonneg msg : 0 <= msg_entries msg.
Proof. unfold msg_entries. destruct (msg_inner msg); auto using Zlen_nonneg with lia. Qed.

(** What [ValidateReceivedMessage] checked. *)
Definition validated r (msg : RaftMessage) : Prop :=
  match msg_inner msg with
  | kAppendRequest m =>
      position_ok r (ar_prev_log_idx m) (ar_prev_log_term m) (ar_prev_log_hash_chain m) true /\
      ar_leader_commit m <= ar_leader_promise m
  | kAppendResponse m => position_ok r (as_match_idx m) 0 (as_match_hash_chain m) false
  | _ => True
  end.

Lemma dispatch_good r msg from :
  inv r -> message_wf msg -> from <> me_ r -> validated r msg ->
  current_term_ r < 2 ^ 64 - 2 -> last_idx (log_ r) + msg_entries msg + 2 < 2 ^ 64 ->
  exists r', dispatch r msg from = Some r' /\ good (msg_entries msg) r r'.
Proof.
  intros Hi (_ & _ & Hwf) Hme Hval Hterm Hroom. unfold dispatch.
  pose proof (light_good _ _ Hi (light_refl r Hi)) as Hself.
  unfold validated, msg_entries in *. destruct (msg_inner msg) as [|v|g|a|a|b].
  - eauto.
  - destruct (HandleVoteRequest_light r (msg_term msg) v from Hi Hme) as (r' & -> & Hl).
    eauto using light_good.
  - destruct (ShouldDropResponseDueToStaleTerm r msg); [by eauto|].
    eexists. split; [done|]. by apply light_good, HandleVoteResponse_light.
  - destruct Hwf as [Hu Hes]. apply HandleAppendRequest_good; [done|done|done|done|apply Hval|done].
  - destruct (ShouldDropResponseDueToStaleTerm r msg); [by eauto|].
    destruct Hwf as (U1 & U2 & U3 & Hs).
    destruct (HandleAppendResponse_light r (msg_term msg) a from Hi U1 U2 U3 Hs Hval) as (r' & -> & Hl).
    eauto using light_good.
  - destruct (ShouldDropResponseDueToStaleTerm r msg); [by eauto|].
    destruct (ElectionTimeout_light r Hi Hterm) as (r' & -> & Hl). eauto using light_good.
Qed.

Lemma UpdateTerm_term r msg r' :
  UpdateTerm r msg = Some r' -> current_term_ r' = Z.max (current_term_ r) (msg_term msg).
Proof.
  unfold UpdateTerm. destruct (_ <=? _) eqn:E; [intros [= <-]; lia|].
  intros ([t r1] & H1 & H2)%bind_Some. injection H2 as <-. simpl.
  assert (current_term_ r1 = msg_term msg); [|lia].
  destruct (role_ _) in H1; [by injection H1 as <- <-..|].
  unfold RandomElectionTimeout in H1. destruct (_ =? 0) in H1; [done|]. by injection H1 as <- <-.
Qed.

(** The stages of [Receive] before the replica reacts. *)
Lemma Receive_stages r msg from :
  inv r -> message_wf msg -> from <> me_ r ->
  current_term_ r < 2 ^ 64 - 2 -> msg_term msg < 2 ^ 64 - 2 ->
  last_idx (log_ r) + msg_entries msg + 2 < 2 ^ 64 ->
  Receive r msg from = Some r \/
  exists r1 r2, UpdateTerm r msg = Some r1 /\ dispatch (mark_seen r1 from) msg from = Some r2 /\
    Receive r msg from = MaybeChangeStateAndSendMessages r2 /\ good (msg_entries msg) r r2.
Proof.
  intros Hi Hwf Hme Ht Hmt Hroom. unfold Receive.
  destruct (ValidateReceivedMessage_spec r msg from Hi Hwf) as (err & -> & Hval). simpl.
  destruct (is_ok err) eqn:Eo; simpl; [right|by left].
  apply is_ok_spec in Eo. destruct (Hval Eo) as (_ & _ & Hv).
  destruct (UpdateTerm_light r msg Hi Hwf) as (r1 & Eu & Hl1 & _). rewrite Eu. simpl.
  pose proof (UpdateTerm_term _ _ _ Eu) as Et.
  pose proof (light_inv _ _ Hi Hl1) as Hi1. pose proof (mark_seen_light r1 from Hi1) as Hl2.
  destruct (mark_seen_ctrl r1 from) as [Et2 Em2].
  pose proof (light_trans _ _ _ Hl1 Hl2) as Hl. pose proof (light_inv _ _ Hi Hl) as Hi2.
  pose proof (light_good _ _ Hi Hl) as Hg. pose proof (gd_last _ _ _ Hg).
  destruct (dispatch_good (mark_seen r1 from) msg from Hi2 Hwf) as (r3 & Ed & Hg3).
  { rewrite Em2. by rewrite (st_me _ _ (li_step _ _ Hl1)). }
  { unfold validated. destruct (msg_inner msg); auto.
    - split; [|apply Hv]. eapply position_ok_data; [apply Hl|apply Hv].
    - eapply position_ok_data; [apply Hl|exact Hv]. }
  { lia. } { lia. }
  exists r1, r3. split_and!; [done|done|by rewrite Ed|].
  replace (msg_entries msg) with (0 + msg_entries msg) by lia. by eapply good_trans.
Qed.

Lemma Receive_good r msg from :
  inv r -> message_wf msg -> from <> me_ r ->
  current_term_ r < 2 ^ 64 - 2 -> msg_term msg < 2 ^ 64 - 2 ->
  last_idx (log_ r) + msg_entries msg + 2 < 2 ^ 64 ->
  exists r', Receive r msg from = Some r' /\ good (msg_entries msg + 1) r r'.
Proof.
  intros Hi Hwf Hme Ht Hmt Hroom. pose proof (msg_entries_nonneg msg) as Hn.
  destruct (Receive_stages r msg from Hi Hwf Hme Ht Hmt Hroom) as [->|(r1 & r2 & _ & _ & -> & Hg)].
  - exists r. split; [done|]. apply (good_weaken 0); [lia|]. by apply light_good, light_refl.
  - by apply then_messages.
Qed.
End receive.
