(* ===== verification/RaftPublic.v ===== *)
(** * Timers, requests, construction and events of a Raft replica

    The last entry points, and sequences of calls of all of them. *)
From stdpp Require Import prelude gmap sorting.
From S2P Require Import Prelude Errors Containers Util RaftTypes RaftLog PeerId Membership Merkle Raft RaftInv RaftStep RaftAppend RaftReceive.

Section public.
Context {T L : Type} `{!EqDecision L, !Countable L} {MO : MerkleOps T L} {MS : MerkleSpec T L}.
Context {RP : RaftPlatform} {RPL : RaftPlatformLaws}.
Notation Raft := (Raft T L).
Implicit Types r : Raft.

(** ** [TimerTick] *)
Lemma then_election r r1 :
  inv r -> light r r1 -> current_term_ r1 < 2 ^ 64 - 2 ->
  exists r', ElectionTimeout r1 = Some r' /\ light r r'.
Proof.
  intros Hi Hl Ht. destruct (ElectionTimeout_light r1 (light_inv _ _ Hi Hl) Ht) as (r' & -> & Hl').
  eauto using light_trans.
Qed.

(** A leader's timers. *)
Lemma leader_tick_light r fs h :
  inv r -> role_ r = LEADER ->
  followers_inv (me_ r) (all_replicas_ (membership r)) (last_idx (log_ r)) fs ->
  light r (let l := leader_ r in {| r with leader_ := {| l with l_followers := fs; l_heartbeat := h |} |}).
Proof.
  intros Hi Hr Hfs. pose proof Hi as [Hc _ _]. apply light_keep; try done; [apply Hc|].
  unfold role_inv. simpl. rewrite Hr. destruct (leader_facts r Hc Hr) as [Hm _].
  destruct Hc as [_ _ _ _ Hro]. unfold role_inv in Hro. rewrite Hr in Hro.
  destruct Hro as (V & _). by split_and!.
Qed.

Definition tick_followers r : list (PeerID * ReplicationState) :=
  prod_map id (fun f => if rs_last_seen_ticks f =? InvalidTicks then f
    else {| f with rs_last_seen_ticks := rs_last_seen_ticks f + 1 |}) <$> l_followers (leader_ r).

Lemma leader_tick r :
  inv r -> role_ r = LEADER ->
  light r (let l := leader_ r in {| r with leader_ := {| l with
    l_followers := prod_map id (fun f => {| f with rs_send_heartbeat := true |}) <$> tick_followers r;
    l_heartbeat := heartbeat_ticks (config_ r) |} |}) /\
  light r (let l := leader_ r in {| r with leader_ := {| l with
    l_followers := tick_followers r; l_heartbeat := l_heartbeat l - 1 |} |}).
Proof.
  intros Hi Hr. pose proof Hi as [Hc _ _]. destruct (leader_facts r Hc Hr) as [_ Hf].
  assert (Hf1 : followers_inv (me_ r) (all_replicas_ (membership r)) (last_idx (log_ r)) (tick_followers r)).
  { apply followers_fmap; [|done]. intros f Hfo. by destruct (_ =? _); [|apply follower_ok_seen]. }
  split; [|by apply (leader_tick_light r _ _ Hi Hr)].
  apply (leader_tick_light r _ (heartbeat_ticks (config_ r)) Hi Hr).
  apply followers_fmap; [|done]. intros. by apply follower_ok_heartbeat.
Qed.

Lemma TimerTick_good r :
  inv r -> current_term_ r < 2 ^ 64 - 2 -> last_idx (log_ r) + 2 < 2 ^ 64 ->
  exists r', TimerTick r = Some r' /\ good 1 r r'.
Proof.
  intros Hi Ht Hroom. pose proof Hi as [Hc _ _]. unfold TimerTick.
  assert (Hthen : forall r1, light r r1 ->
    exists r', MaybeChangeStateAndSendMessages r1 = Some r' /\ good 1 r r').
  { intros r1 Hl. destruct (then_messages 0 r r1) as (r' & -> & Hg); [by apply light_good|lia|].
    eauto. }
  destruct (role_ r) eqn:Hr.
  - match goal with |- context [ElectionTimeout ?x] => set (r1 := x) end.
    assert (Hl : light r r1).
    { apply light_keep; try done. apply Hc. }
    destruct (_ <=? _); [|by apply Hthen].
    destruct (then_election r r1 Hi Hl Ht) as (r2 & -> & Hl2). simpl. by apply Hthen.
  - match goal with |- context [ElectionTimeout ?x] => set (r1 := x) end.
    assert (Hl : light r r1).
    { apply light_keep; try done; [apply Hc|]. destruct Hc as [_ _ _ _ Hro].
      unfold role_inv in *. simpl. by rewrite Hr in *. }
    destruct (_ <=? _); [|by apply Hthen].
    destruct (then_election r r1 Hi Hl Ht) as (r2 & -> & Hl2). simpl. by apply Hthen.
  - destruct (leader_tick r Hi Hr) as [L1 L2].
    destruct (_ <=? 0); simpl; apply Hthen; rewrite <- Hr; done.
Qed.

(** ** [ResetPeer], [Reconfigure] *)
Lemma ResetPeer_good r id :
  inv r -> id <> me_ r -> exists r', ResetPeer r id = Some r' /\ good 0 r r'.
Proof.
  intros Hi Hne. pose proof Hi as [Hc _ _]. pose proof (light_good _ _ Hi (light_refl r Hi)) as Hself.
  unfold ResetPeer. destruct (set_count _ _); simpl; [|eauto]. destruct (role_ r) eqn:Hr; [eauto|..].
  - unfold RequestVoteMessage. rewrite bool_decide_eq_true_2 by done. simpl.
    apply reply_good; [done|done|]. destruct (term_u64 r Hc). destruct (index_u64s r Hi) as (U1 & U2 & U3).
    by split_and!.
  - destruct (map_find _ id) as [f|] eqn:Hf; [|eauto]. eexists. split; [done|].
    apply light_good; [done|]. eapply set_follower_light; [done|done|done|].
    destruct (leader_facts r Hc Hr) as [_ Hfo].
    destruct (followers_find _ _ _ _ _ _ Hfo Hf) as [[F1 F2 F3] _].
    pose proof (last_idx_range _ (last_idx_inv _ Hi)). split; simpl; nowrap; lia.
Qed.

Lemma Reconfigure_good r c :
  inv r -> 0 < election_ticks c < 2 ^ 32 -> good 0 r (Reconfigure r c).
Proof.
  intros Hi Hcf. pose proof Hi as [Hc _ _]. apply light_good; [done|].
  apply light_keep; try done.
  - simpl. rewrite u32_small; [lia|unfold is_u32; lia].
  - destruct Hc as [_ _ _ _ Hro]. unfold role_inv in *. simpl.
    change (membership (Reconfigure r c)) with (membership r). by destruct (role_ r).
Qed.

(** ** Requests *)
Lemma relinquish_light r :
  inv r -> light r (let l := leader_ r in {| r with leader_ := {| l with l_relinquishing := true |} |}).
Proof.
  intros Hi. pose proof Hi as [Hc _ _]. apply light_keep; try done; [apply Hc|].
  destruct Hc as [_ _ _ _ Hro]. unfold role_inv in *. simpl. by destruct (role_ r).
Qed.

Lemma RelinquishLeadership_good r :
  inv r -> last_idx (log_ r) + 3 < 2 ^ 64 ->
  exists r', RelinquishLeadership r = Some r' /\ good 2 r r'.
Proof.
  intros Hi Hroom. pose proof Hi as [Hc _ _]. unfold RelinquishLeadership.
  destruct (_ || _) eqn:E.
  { exists r. split; [done|]. apply (good_weaken 0); [lia|]. by apply light_good, light_refl. }
  destruct (ClientRequestInternal_spec r LogEntry_default Hc) as (r1 & loc & err & -> & Hg & _ & _ & Hres);
    [lia|done|done|]. simpl.
  assert (Hg1 : good 1 r r1) by (apply grown_good; [done|done|destruct (is_ok err); lia]).
  apply (then_messages 1); [|lia]. replace 1 with (1 + 0) by lia. eapply good_trans; [exact Hg1|].
  apply light_good; [apply Hg1|apply relinquish_light, Hg1].
Qed.

(** What a caller may ask to log: a membership change of sane size. *)
Definition request_wf (e : LogEntry) : Prop :=
  match entry_inner e with kMembershipChange g => Zlen g < 2 ^ 62 | _ => True end.

Lemma FromProto_loop_size g out m :
  FromProto_loop out g = (Some m, OK) -> (length (all_replicas_ m) <= length (all_replicas_ out) + length g)%nat.
Proof.
  revert out. induction g as [|x g IH]; intros out; [intros [= <-]; simpl; lia|].
  rewrite FromProto_loop_cons. case_bool_decide; [|done]. destruct (set_count _ _); [done|].
  intros Hm%IH. simpl in *.
  assert (forall s, length (set_insert (replica_peer_id x) s) <= S (length s))%nat as Hs.
  { induction s as [|a s IHs]; simpl; [lia|]. destruct (key_lt _ a); simpl; [lia|].
    destruct (key_lt a _); simpl; lia. }
  specialize (Hs (all_replicas_ out)). lia.
Qed.

Lemma log_request_check_fits r e :
  core_inv r -> request_wf e -> is_u64 (entry_term e) -> log_request_check r e = OK ->
  entry_wf e /\ (role_ r = LEADER -> entry_fits r e).
Proof.
  intros Hc Hw Ht. unfold log_request_check, entry_wf, entry_fits, request_wf in *.
  destruct (entry_inner e) as [|d|g|mm]; [done|done| |done].
  case_bool_decide as Hr; simpl; [|done]. destruct (l_relinquishing _); [done|].
  destruct (_ =? 0); simpl; [|done].
  destruct (FromProto g) as [[m|] err] eqn:Eg.
  2: { intros ->. apply FromProto_err in Eg as [H _]. by destruct (H eq_refl). }
  assert (err = OK) as -> by (apply FromProto_err in Eg as [_ H]; eauto).
  intros Hv. pose proof (FromProto_wf _ _ Eg) as Hok.
  destruct Hc as [_ [Mg _ _ _ _] _ _ _].
  destruct (ValidProgression_inv _ _ _ _ (mg_ok _ Mg) (mem_all_ok _ Hok) (mem_voting_ok _ Hok) Hv)
    as (Hin & _).
  pose proof (FromProto_loop_size _ _ _ Eg) as Hsz. simpl in Hsz.
  split; [split; [done|]|intros _; right; split; [done|]].
  - intros m' [= <-]. split; [done| |unfold Zlen in *; lia]. intros Hnil. rewrite Hnil in Hin.
    by apply elem_of_nil in Hin.
  - by intros m' [= <-].
Qed.

(** A request is refused, or becomes the last entry of the log. *)
Lemma LogRequest_good r e :
  inv r -> request_wf e -> is_u64 (entry_term e) -> last_idx (log_ r) + 3 < 2 ^ 64 ->
  exists r' loc err, LogRequest r e = Some (r', (loc, err)) /\ good 2 r r' /\
    (err = OK -> role_ r = LEADER /\ log_request_check r e = OK /\
       loc = {| loc_term := current_term_ r; loc_idx := last_idx (log_ r) + 1;
                loc_hash_chain := hash_chain (stamped r e) |}).
Proof.
  intros Hi Hw Ht Hroom. pose proof Hi as [Hc _ _]. unfold LogRequest.
  destruct (is_ok (log_request_check r e)) eqn:Eo; simpl.
  2: { eexists r, _, _. split; [done|]. split; [|intros Heq; by rewrite Heq in Eo].
       apply (good_weaken 0); [lia|]. by apply light_good, light_refl. }
  apply is_ok_spec in Eo. destruct (log_request_check_fits r e Hc Hw Ht Eo) as [Hwf Hfit].
  destruct (ClientRequestInternal_spec r e Hc) as (r1 & loc & err & -> & Hg & _ & _ & Hres); [lia|done|done|].
  simpl. assert (Hg1 : good 1 r r1) by (apply grown_good; [done|done|destruct (is_ok err); lia]).
  destruct (then_messages 1 r r1 Hg1) as (r2 & -> & Hg2); [lia|]. simpl.
  eexists r2, loc, err. split; [done|]. split; [done|]. intros ->. simpl in Hres.
  destruct Hres as (Hr & _ & _ & Hloc). auto.
Qed.

(** ** Applying committed entries *)
Lemma TakeCommittedLog_spec r :
  inv r ->
  if commit_idx_ r <=? last_applied_ r
  then TakeCommittedLog r = Some (r, (0, LogEntry_default))
  else exists e, log_at (log_ r) (last_applied_ r + 1) = Some e /\
    let r' := {| r with last_applied_ := last_applied_ r + 1 |} in
    TakeCommittedLog r = Some (r', (last_applied_ r + 1, e)) /\ inv r'.
Proof.
  intros Hi. pose proof Hi as [Hc Hs Hm]. pose proof (ci_idx _ Hc) as [I1 I2 I3 I4 I5 I6 I7 I8].
  pose proof (last_idx_range _ I1). unfold TakeCommittedLog. destruct (_ <=? _) eqn:E; [done|].
  assert (is_Some (log_at (log_ r) (last_applied_ r + 1))) as [e He] by (apply log_at_is_Some; [done|lia]).
  exists e. split; [done|]. rewrite u64_small by (unfold is_u64; lia). simpl.
  rewrite iter_Entry_At, He by (done || unfold is_u64; lia). split; [done|].
  split; [|by destruct Hs as [[] ? ?]|done]. destruct Hc as [_ Hme Ht Hcf Hro].
  split; [|done|done|done|done]. split; simpl; try done; lia.
Qed.

(** ** Construction *)

(** What the caller passes to the constructor. *)
Record new_wf (me : PeerID) (merk : T) (mem : Membership) (log : Log) (config : RaftConfig)
    (committed_log : bool) (super_majority : Z) : Prop := {
  nw_tree : tree_ok ∅ merk;
  nw_mem : membership_good mem;
  nw_log : log_ok log;
  nw_entries : Forall entry_wf (entries_ log);
  nw_chain : chain_ok log;
  nw_room : last_idx log + 2 < 2 ^ 64;
  nw_oldest : committed_log = true \/ oldest_stored_idx_ log = 1;
  nw_config : 0 < election_ticks config;
  nw_super : 0 <= super_majority < 2 ^ 62;
  nw_single : voting_replicas_ mem = [me] -> all_replicas_ mem = [me] }.

(** The state before a sole voter elects itself. *)
Lemma fresh_inv me merk mem log config cl sm (r : Raft) :
  new_wf me merk mem log config cl sm ->
  log_ r = log -> membership_ r = mem -> uncommitted_memberships_ r = [] -> super_majority_ r = sm ->
  config_ r = config -> last_applied_ r = (if cl then last_idx log else 0) ->
  commit_idx_ r = last_applied_ r -> promise_idx_ r = last_applied_ r -> current_term_ r = 0 ->
  role_ r = FOLLOWER -> sendable_messages_ r = [] -> merkle_sync r -> inv r.
Proof.
  intros [N1 N2 N3 N4 Nc N5 N6 N7 N8 _] E1 E2 E3 E4 E5 E6 E7 E8 E9 E10 E11 Hs.
  pose proof (last_idx_range _ N3). pose proof (oldest_le_next _ N3).
  assert (oldest_stored_idx_ log <= Z.max 1 (last_applied_ r)) as Ho.
  { rewrite E6. destruct cl; [|destruct N6; [done|lia]]. pose proof (last_idx_eq _ N3).
    destruct (decide (entries_ log = [])) as [Hn|Hn]; [rewrite (log_ok_empty _ N3 Hn); lia|].
    pose proof (Zlen_pos _ Hn). lia. }
  split; [|done|by rewrite E11]. split; [| |lia|by rewrite E5|by apply follower_role_inv].
  - rewrite E1, E7, E8. split; try done; try lia; rewrite E6; destruct cl; lia.
  - rewrite E1, E2, E3, E4. split; [done|constructor..|done].
Qed.

(** A sole replica wins its election at once and sends nothing. *)
Lemma ElectionTimeout_sole r :
  inv r -> role_ r = FOLLOWER -> current_term_ r < 2 ^ 64 - 2 ->
  voting_replicas_ (membership r) = [me_ r] -> all_replicas_ (membership r) = [me_ r] ->
  exists r', ElectionTimeout r = Some r' /\ light r r' /\ membership r' = membership r /\
    sendable_messages_ r' = sendable_messages_ r /\ role_ r' = CANDIDATE /\
    c_votes_granted (candidate_ r') = [me_ r].
Proof.
  intros Hi Hr Ht Hv Ha. destruct (ElectionTimeout_light r Hi Ht) as (r' & Heq & Hl).
  exists r'. split; [done|]. split; [done|]. split; [apply membership_same_data, Hl|].
  revert Heq. unfold ElectionTimeout, voting. rewrite Hv.
  rewrite (proj2 (set_count_spec [me_ r] (me_ r))) by left. simpl. rewrite Hr.
  match goal with |- context [RandomElectionTimeout ?x] =>
    destruct (RandomElectionTimeout_eq x) as [t ->]; [apply Hi|] end. simpl.
  unfold AddSendableMessage. simpl. change (membership _) with (membership r). rewrite Ha. simpl.
  rewrite (proj2 (set_count_spec [me_ r] (me_ r))) by left. by intros [= <-].
Qed.

Lemma MaybeChangeStateAndSendMessages_sole r :
  inv r -> role_ r = CANDIDATE -> last_idx (log_ r) + 2 < 2 ^ 64 ->
  voting_replicas_ (membership r) = [me_ r] -> all_replicas_ (membership r) = [me_ r] ->
  c_votes_granted (candidate_ r) = [me_ r] ->
  exists r', MaybeChangeStateAndSendMessages r = Some r' /\ good 1 r r' /\ role_ r' = LEADER /\
    sendable_messages_ r' = sendable_messages_ r /\ membership r' = membership r /\
    forall i e, log_at (log_ r') i = Some e -> log_at (log_ r) i = Some e \/ entry_inner e = INNER_NOT_SET.
Proof.
  intros Hi Hr Hroom Hv Ha Hvotes. pose proof Hi as [Hc _ _].
  destruct (MaybeChangeStateAndSendMessages_good r Hi Hroom) as (r' & Heq & Hg).
  exists r'. split; [done|]. split; [done|]. revert Heq. unfold MaybeChangeStateAndSendMessages.
  destruct (MaybeBecomeLeader_spec r Hi Hroom)
    as (r1 & Hbl & Hi1 & Hst1 & _ & _ & _ & Hms1 & Hme1 & Hcase).
  pose proof (MaybeBecomeLeader_log r r1 Hi Hroom Hbl) as Hlog. rewrite Hbl. simpl.
  destruct Hcase as [[-> Hlt]|(_ & Hlead & Hrel & _)].
  { specialize (Hlt Hr). rewrite Hvotes in Hlt. unfold membership_quorum_size in Hlt. rewrite Hv in Hlt.
    destruct (quorum_size_bounds (Zlen [me_ r]) (super_majority_ r)); [done|apply Hc|]. lia. }
  rewrite VerifyMerkleTree_OK by apply Hi1. simpl.
  destruct (MaybeAdvanceCommitIndex_spec r1 Hi1) as (r2 & -> & Had & _). simpl.
  destruct (advanced_update _ _ Hi1 Had) as (t & -> & Hi2 & Hst2). simpl.
  destruct Had as [A1 A2 A3 A4 A5 A6 A7]. frame_eqs A1.
  assert (membership r2 = membership r) as Hm2 by (rewrite A7; [done|by rewrite Hlead]).
  match goal with |- context [membership ?x] => change (membership x) with (membership r2) end.
  rewrite Hm2, Ha. simpl. rewrite bool_decide_eq_true_2.
  2: { simpl. rewrite Eme. symmetry. apply Hst1. }
  simpl. rewrite Ere, Hrel, andb_false_r. intros [= <-]. simpl. split_and!; [congruence|congruence|exact Hm2|by rewrite A2].
Qed.

(** What the constructor leaves alone, and where it starts. *)
Record new_frame (me : PeerID) (merk : T) (mem : Membership) (log : Log) (cl : bool) (r : Raft) : Prop := {
  nf_commit : tree_view merk !! commit_leaf_ r = None;
  nf_promise : tree_view merk !! promise_leaf_ r = None;
  nf_tree : forall l h, tree_view merk !! l = Some h -> tree_view (merkle_ r) !! l = Some h;
  nf_applied : last_applied_ r = if cl then last_idx log else 0;
  nf_last : last_idx (log_ r) <= last_idx log + 1;
  nf_empty : forall i e, log_at (log_ r) i = Some e -> log_at log i = Some e \/ entry_inner e = INNER_NOT_SET;
  nf_joining : voting_replicas_ mem <> [me] -> log_ r = log /\ commit_idx_ r = last_applied_ r }.

(** The constructor succeeds on what it documents, and a sole voter is
    leader from the start. *)
Lemma Raft_new_full group me merk mem log config cl sm :
  new_wf me merk mem log config cl sm ->
  exists r, Raft_new group me merk mem log config cl sm = Some r /\ inv r /\
    me_ r = me /\ group_ r = group /\ super_majority_ r = sm /\ membership r = mem /\
    sendable_messages_ r = [] /\ role_ r <> CANDIDATE /\
    (role_ r = LEADER <-> voting_replicas_ mem = [me]) /\ new_frame me merk mem log cl r.
Proof.
  intros Hn. pose proof Hn as [N1 N2 N3 N4 Nc N5 N6 N7 N8 N9]. unfold Raft_new.
  destruct (leaf_new_spec ∅ merk N1) as (t1 & lc & -> & F1 & K1 & V1). simpl.
  destruct (leaf_new_spec _ t1 K1) as (t2 & lp & -> & F2 & K2 & V2). simpl.
  assert (lc <> lp) as Hne by (intros ->; by rewrite V1, lookup_insert_eq in F2).
  match goal with |- context [RandomElectionTimeout ?x] => set (r0 := x) end.
  destruct (RandomElectionTimeout_eq r0) as [t ->]; [done|]. simpl.
  match goal with |- context [UpdateMerkleTree ?x] => set (r1 := x) end.
  pose proof (last_idx_range _ N3).
  destruct (UpdateMerkleTree_fresh r1 ({[lp]} ∪ ({[lc]} ∪ ∅))) as (t3 & -> & Hs & Hfr); simpl; try done.
  { unfold is_u64. destruct cl; lia. } { unfold is_u64. destruct cl; lia. } { set_solver. }
  { rewrite V2, lookup_insert_ne, V1, lookup_insert_eq; eauto. }
  { rewrite V2, lookup_insert_eq; eauto. }
  match goal with |- context [voting ?x] => set (r2 := x) in * end.
  assert (Hi : inv r2) by (by eapply fresh_inv).
  assert (Hleaf : tree_view merk !! lc = None /\ tree_view merk !! lp = None /\
    forall l h, tree_view merk !! l = Some h -> l <> lc /\ l <> lp /\ tree_view t3 !! l = Some h).
  { rewrite V1, lookup_insert_ne in F2 by done. split_and!; [done|done|]. intros l h Hl.
    assert (l <> lc /\ l <> lp) as [N1' N2'] by (split; intros ->; congruence). split_and!; [done|done|].
    rewrite Hfr by done. simpl. by rewrite V2, lookup_insert_ne, V1, lookup_insert_ne. }
  destruct Hleaf as (Hlc & Hlp & Hkeep).
  assert (Hnf : forall r', step r2 r' -> last_idx (log_ r') <= last_idx log + 1 ->
    (forall i e, log_at (log_ r') i = Some e -> log_at log i = Some e \/ entry_inner e = INNER_NOT_SET) -> (voting_replicas_ mem <> [me] -> r' = r2) ->
    new_frame me merk mem log cl r').
  { intros r' Hst Hlast Hlog Hsame. destruct (st_leaves _ _ Hst) as [E1 E2]. split.
    - by rewrite E1. - by rewrite E2.
    - intros l h Hl. destruct (Hkeep l h Hl) as (? & ? & ?). by rewrite (st_tree _ _ Hst).
    - by rewrite (st_applied _ _ Hst).
    - done. - done.
    - intros Hv. by rewrite (Hsame Hv). }
  change (membership r2) with mem. unfold voting. change (membership r2) with mem.
  change (me_ r2) with me.
  destruct (set_count (voting_replicas_ mem) me && (Zlen (voting_replicas_ mem) =? 1)) eqn:Esole; last first.
  { exists r2. split_and!; try done; [|apply Hnf; [apply step_refl|simpl; lia|by left|done]]. split; [done|]. intros Hv. rewrite Hv in Esole.
    by rewrite (proj2 (set_count_spec [me] me)) in Esole by left. }
  apply andb_true_iff in Esole as [Hin%set_count_spec Hlen].
  assert (Hv : voting_replicas_ mem = [me]).
  { destruct (voting_replicas_ mem) as [|p [|q l]]; [by apply elem_of_nil in Hin| |].
    - apply list_elem_of_singleton in Hin as ->. done.
    - rewrite !Zlen_cons in Hlen. pose proof (Zlen_nonneg l). lia. }
  destruct (ElectionTimeout_sole r2 Hi) as (r3 & -> & Hl3 & Hm3 & Hs3 & Hr3 & Hc3);
    [done|done|done|by apply N9|].
  pose proof (li_step _ _ Hl3) as Hst3. pose proof (st_me _ _ Hst3) as Em3.
  pose proof (li_data _ _ Hl3) as Ed3. simpl.
  destruct (MaybeChangeStateAndSendMessages_sole r3) as (r4 & -> & Hg4 & Hr4 & Hs4 & Hm4 & Hlog4).
  { by eapply light_inv. } { done. } { by injection Ed3 as _ _ _ _ _ _ -> _ _ _ _ _. }
  { by rewrite Hm3, Em3. } { rewrite Hm3, Em3. by apply N9. } { by rewrite Em3. }
  simpl. rewrite Hs4, Hs3. simpl. exists r4. pose proof (gd_step _ _ _ Hg4) as Hst4.
  split_and!; [done|apply Hg4| | | |by rewrite Hm4, Hm3|by rewrite Hs4, Hs3|congruence|done|].
  - rewrite (st_me _ _ Hst4), Em3. done.
  - rewrite (st_group _ _ Hst4), (st_group _ _ Hst3). done.
  - rewrite (st_super _ _ Hst4), (st_super _ _ Hst3). done.
  - pose proof (gd_last _ _ _ Hg4) as Hl4.
    assert (log_ r3 = log) as E3 by (by injection Ed3 as _ _ _ _ _ _ -> _ _ _ _ _). rewrite E3 in Hl4, Hlog4.
    apply Hnf; [by eapply step_trans|done|done|done].
Qed.

Lemma Raft_new_spec group me merk mem log config cl sm :
  new_wf me merk mem log config cl sm ->
  exists r, Raft_new group me merk mem log config cl sm = Some r /\ inv r /\
    me_ r = me /\ group_ r = group /\ super_majority_ r = sm /\ membership r = mem /\
    sendable_messages_ r = [] /\ role_ r <> CANDIDATE /\
    (role_ r = LEADER <-> voting_replicas_ mem = [me]).
Proof.
  intros Hn. destruct (Raft_new_full group me merk mem log config cl sm Hn) as (r & H1 & H2 & H3 & H4 & H5 & H6 & H7 & H8 & H9 & _).
  exists r. by split_and!.
Qed.
End public.

(** * Events of a Raft replica

    A replica is driven by a sequence of events, the calls of its public
    operations.  Every event on a state that satisfies the invariant
    succeeds and keeps it, whatever the peers send, as long as the arguments
    are in range ([event_ok]). *)

Inductive Event :=
  | EvReceive (msg : RaftMessage) (from : PeerID)
  | EvTimerTick
  | EvResetPeer (id : PeerID)
  | EvReconfigure (config : RaftConfig)
  | EvRelinquishLeadership
  | EvLogRequest (log : LogEntry)
  | EvTakeCommittedLog
  | EvSendableMessages.

Section events.
Context {T L : Type} `{!EqDecision L, !Countable L} {MO : MerkleOps T L} {MS : MerkleSpec T L}.
Context {RP : RaftPlatform}.
Notation Raft := (Raft T L).
Implicit Types r : Raft.

Definition handle r (ev : Event) : option Raft :=
  match ev with
  | EvReceive msg from => Receive r msg from
  | EvTimerTick => TimerTick r
  | EvResetPeer id => ResetPeer r id
  | EvReconfigure config => Some (Reconfigure r config)
  | EvRelinquishLeadership => RelinquishLeadership r
  | EvLogRequest log => fst <$> LogRequest r log
  | EvTakeCommittedLog => fst <$> TakeCommittedLog r
  | EvSendableMessages => Some (SendableMessages r).1
  end.

Fixpoint run r (evs : list Event) : option Raft :=
  match evs with
  | [] => Some r
  | ev :: evs => r ← handle r ev; run r evs
  end.

(** Arguments in range: messages decoded from protobuf, from other replicas;
    indices and terms that have not used up 64 bits. *)
Definition event_ok r (ev : Event) : Prop :=
  match ev with
  | EvReceive msg from =>
      message_wf msg /\ from <> me_ r /\ current_term_ r < 2 ^ 64 - 2 /\ msg_term msg < 2 ^ 64 - 2 /\
      last_idx (log_ r) + msg_entries msg + 2 < 2 ^ 64
  | EvTimerTick => current_term_ r < 2 ^ 64 - 2 /\ last_idx (log_ r) + 2 < 2 ^ 64
  | EvResetPeer id => id <> me_ r
  | EvReconfigure config => 0 < election_ticks config < 2 ^ 32
  | EvRelinquishLeadership => last_idx (log_ r) + 3 < 2 ^ 64
  | EvLogRequest log => request_wf log /\ is_u64 (entry_term log) /\ last_idx (log_ r) + 3 < 2 ^ 64
  | EvTakeCommittedLog | EvSendableMessages => True
  end.

Fixpoint run_ok r (evs : list Event) : Prop :=
  match evs with
  | [] => True
  | ev :: evs => event_ok r ev /\ forall r', handle r ev = Some r' -> run_ok r' evs
  end.

(** What no event takes back. *)
Record durable r r' : Prop := {
  du_me : me_ r' = me_ r;
  du_super : super_majority_ r' = super_majority_ r;
  du_term : current_term_ r <= current_term_ r';
  du_vote : current_term_ r' = current_term_ r ->
              forall v, voted_for_ r = Some v -> voted_for_ r' = Some v;
  du_applied : last_applied_ r <= last_applied_ r';
  du_commit : commit_idx_ r <= commit_idx_ r';
  du_promise : promise_idx_ r <= promise_idx_ r';
  du_oldest : oldest_stored_idx_ (log_ r) <= oldest_stored_idx_ (log_ r');
  du_log : forall idx, oldest_stored_idx_ (log_ r') <= idx <= promise_idx_ r ->
             log_at (log_ r') idx = log_at (log_ r) idx;
  du_leaves : commit_leaf_ r' = commit_leaf_ r /\ promise_leaf_ r' = promise_leaf_ r;
  du_tree : forall l, l <> commit_leaf_ r -> l <> promise_leaf_ r ->
              tree_view (merkle_ r') !! l = tree_view (merkle_ r) !! l }.

Lemma durable_refl r : durable r r.
Proof. by split. Qed.

Lemma durable_trans r1 r2 r3 : durable r1 r2 -> durable r2 r3 -> durable r1 r3.
Proof.
  intros [A1 A0 A2 A3 A4 A5 A6 A7 A8 A9 A10] [B1 B0 B2 B3 B4 B5 B6 B7 B8 B9 B10].
  split; try congruence; try lia.
  - intros Ht v Hv. apply B3; [lia|]. apply A3; [lia|done].
  - intros idx Hi. rewrite B8, A8 by lia. done.
  - intuition congruence.
  - intros l H1 H2. destruct A9 as [A9 A9']. rewrite B10, A10; congruence.
Qed.
End events.

Section handling.
Context {T L : Type} `{!EqDecision L, !Countable L} {MO : MerkleOps T L} {MS : MerkleSpec T L}.
Context {RP : RaftPlatform} {RPL : RaftPlatformLaws}.
Notation Raft := (Raft T L).
Implicit Types r : Raft.

Lemma step_durable r r' : step r r' -> durable r r'.
Proof. intros []. split; try done. lia. Qed.

Lemma handle_spec r ev :
  inv r -> event_ok r ev -> exists r', handle r ev = Some r' /\ inv r' /\ durable r r'.
Proof.
  intros Hi Hok.
  assert (Hgood : forall n o, (exists r', o = Some r' /\ good n r r') ->
    exists r', o = Some r' /\ inv r' /\ durable r r').
  { intros n o (r' & -> & []). eauto using step_durable. }
  destruct ev as [msg from| |id|c| |e| |]; simpl in *.
  - destruct Hok as (H1 & H2 & H3 & H4 & H5). eapply Hgood. by apply Receive_good.
  - destruct Hok as [H1 H2]. eapply Hgood. by apply TimerTick_good.
  - eapply Hgood. by apply ResetPeer_good.
  - eapply (Hgood 0). eexists. split; [done|]. by apply Reconfigure_good.
  - eapply Hgood. by apply RelinquishLeadership_good.
  - destruct Hok as (H1 & H2 & H3).
    destruct (LogRequest_good r e Hi H1 H2 H3) as (r' & loc & err & -> & Hg & _). simpl. eauto.
  - pose proof (TakeCommittedLog_spec r Hi) as Ht. destruct (_ <=? _).
    + rewrite Ht. simpl. eauto using durable_refl.
    + destruct Ht as (e & He & -> & Hi'). simpl. eexists. split_and!; [done|done|].
      split; simpl; done || lia.
  - eexists. split; [done|]. split; [|by split]. destruct Hi as [Hc [[] ? ?] Hm].
    split; [by destruct Hc as [? ? ? ? Hr]|by split|constructor].
Qed.

Lemma run_spec evs r :
  inv r -> run_ok r evs -> exists r', run r evs = Some r' /\ inv r' /\ durable r r'.
Proof.
  revert r. induction evs as [|ev evs IH]; intros r Hi Hok; simpl.
  { eauto using durable_refl. }
  destruct Hok as [Hev Hok]. destruct (handle_spec r ev Hi Hev) as (r1 & Heq & Hi1 & Hd1).
  rewrite Heq. simpl. destruct (IH r1 Hi1 (Hok _ Heq)) as (r2 & -> & Hi2 & Hd2).
  eauto using durable_trans.
Qed.
End handling.
