(* ===== verification/RaftExamples.v ===== *)
(** * Concrete Raft replicas

    A group of one and a follower in a group of three, over the concrete
    Merkle tree and stand-ins for SipHash and HMAC; the examples of the
    properties run on them. *)
From stdpp Require Import prelude gmap sorting.
From S2P Require Import Prelude Errors Containers Util RaftTypes RaftLog PeerId Membership Merkle MerkleProofs MerkleProps Raft RaftInv RaftStep RaftAppend RaftReceive RaftPublic.

#[export] Existing Instance toy_sip.
#[export] Existing Instance toy_platform.
#[export] Existing Instance toy_platform_laws.

Notation ExRaft := (Raft Tree nat).

Definition ex_config : RaftConfig :=
  {| election_ticks := 10; heartbeat_ticks := 3; replication_chunk_bytes := 1000;
     replica_voting_timeout_ticks := 20; replica_membership_timeout_ticks := 30;
     log_max_bytes := 1000000; replication_pipeline := 4 |}.
Definition ex_three : Membership :=
  {| all_replicas_ := [example_peer 1; example_peer 2; example_peer 3];
     voting_replicas_ := [example_peer 1; example_peer 2; example_peer 3] |}.
Definition ex_data (d : bytes) : LogEntry :=
  {| entry_term := 0; entry_inner := kData d; hash_chain := [] |}.

(** The replica of a group of one, and a replica of a group of three. *)
Definition ex_sole : option ExRaft :=
  Raft_new 7 (example_peer 1) Tree_new (First (example_peer 1)) (Log_new 100000) ex_config false 0.
Definition ex_follower : option ExRaft :=
  Raft_new 7 (example_peer 1) Tree_new ex_three (Log_new 100000) ex_config false 0.

Lemma Log_new_chain m : chain_ok (Log_new m).
Proof. split; [done|]. intros i e0 e. unfold log_at. simpl. by destruct (i <? 1). Qed.

Lemma ex_first_good p : length p = 32%nat -> membership_good (First p).
Proof. intros Hp. split; [by apply First_ok|done|done]. Qed.

Lemma ex_three_good : membership_good ex_three.
Proof.
  split; [|done|done]. split; simpl; [repeat constructor..|done|repeat constructor].
Qed.

Lemma ex_new_wf me mem :
  membership_good mem -> (voting_replicas_ mem = [me] -> all_replicas_ mem = [me]) ->
  new_wf me Tree_new mem (Log_new 100000) ex_config false 0.
Proof.
  intros Hm Hs. split; [apply Tree_new_ok|done|apply Log_new_ok|constructor|apply Log_new_chain|done|by right|done..].
Qed.

Lemma ex_sole_inv : exists r, ex_sole = Some r /\ inv r.
Proof.
  destruct (Raft_new_spec 7 (example_peer 1) Tree_new (First (example_peer 1)) (Log_new 100000)
    ex_config false 0) as (r & Heq & Hi & _); [|eauto].
  by apply ex_new_wf; [apply ex_first_good|].
Qed.

Lemma ex_follower_inv : exists r, ex_follower = Some r /\ inv r.
Proof.
  destruct (Raft_new_spec 7 (example_peer 1) Tree_new ex_three (Log_new 100000)
    ex_config false 0) as (r & Heq & Hi & _); [|eauto].
  by apply ex_new_wf; [apply ex_three_good|].
Qed.

(** The sole replica logs two entries and applies one. *)
Definition ex_events : list Event :=
  [EvTimerTick; EvLogRequest (ex_data [1; 2; 3]); EvLogRequest (ex_data [4]); EvTakeCommittedLog;
   EvSendableMessages].

Lemma ex_run_ok r : ex_sole = Some r -> run_ok r ex_events.
Proof.
  intros Heq. vm_compute in Heq. injection Heq as <-. unfold ex_events.
  repeat (cbn [run_ok]; split; [vm_compute; done|];
    let r' := fresh "r" in let H := fresh "H" in
    intros r' H; vm_compute in H; injection H as <-).
  done.
Qed.
