(* ===== verification/RaftProps.v ===== *)
(** * Properties of a Raft replica

    A leader's indices are backed by quorums, committed entries are applied
    once and in order, a new replica starts well. *)
From stdpp Require Import prelude gmap sorting.
From S2P Require Import Prelude Errors Containers Util RaftTypes RaftLog PeerId Membership Merkle MerkleProofs MerkleProps Raft RaftInv RaftStep RaftAppend RaftReceive RaftPublic RaftExamples.

Section props.
Context {T L : Type} `{!EqDecision L, !Countable L} {MO : MerkleOps T L} {MS : MerkleSpec T L}.
Context {RP : RaftPlatform} {RPL : RaftPlatformLaws}.
Notation Raft := (Raft T L).
Implicit Types r : Raft.

(** C6: a leader's indices rest on quorums.  When [MaybeAdvanceCommitIndex]
    raises the promise index, a quorum of the voters (this replica among them
    or not) stores the log up to it; when it raises the commit index, a quorum
    has promised it; and commit <= promise <= last index holds again. *)
Theorem leader_indices_by_quorum r :
  inv r ->
  exists r', MaybeAdvanceCommitIndex r = Some r' /\
    commit_idx_ r <= commit_idx_ r' <= promise_idx_ r' /\
    promise_idx_ r <= promise_idx_ r' <= last_idx (log_ r') /\
    (promise_idx_ r < promise_idx_ r' ->
     role_ r = LEADER /\ quorum_reached r rs_match_idx (last_idx (log_ r)) (promise_idx_ r')) /\
    (commit_idx_ r < commit_idx_ r' ->
     role_ r = LEADER /\ quorum_reached r rs_promise_idx (promise_idx_ r') (commit_idx_ r')).
Proof.
  intros Hi. destruct (MaybeAdvanceCommitIndex_spec r Hi) as (r' & -> & [A1 A2 A3 A4 A5 A6 A7] & Hp & Hq).
  exists r'. rewrite A2. split_and!; done || lia.
Qed.

(** ** Applying *)

(** The next [n] calls of [TakeCommittedLog]. *)
Fixpoint take_committed (n : nat) r : option (Raft * list (LogIdx * LogEntry)) :=
  match n with
  | O => Some (r, [])
  | S n => '(r, x) ← TakeCommittedLog r; '(r, xs) ← take_committed n r; Some (r, x :: xs)
  end.

Lemma take_committed_spec n r :
  inv r -> last_applied_ r + Z.of_nat n <= commit_idx_ r ->
  exists r' es, take_committed n r = Some (r', es) /\ inv r' /\
    r' = {| r with last_applied_ := last_applied_ r + Z.of_nat n |} /\ length es = n /\
    forall i x, es !! i = Some x ->
      x.1 = last_applied_ r + 1 + Z.of_nat i /\ log_at (log_ r) x.1 = Some x.2.
Proof.
  revert r. induction n as [|n IH]; intros r Hi Hle; simpl.
  { exists r, []. split_and!; try done. rewrite Z.add_0_r. by destruct r. }
  pose proof (TakeCommittedLog_spec r Hi) as Ht. rewrite (proj2 (Z.leb_gt _ _)) in Ht by lia.
  destruct Ht as (e & He & -> & Hi1). simpl.
  destruct (IH _ Hi1) as (r' & es & -> & Hi' & -> & Hlen & Hes); [simpl; lia|]. simpl in *.
  eexists _, _. split; [done|]. split_and!; [done|f_equal; lia|simpl; congruence|].
  intros [|i] x Hx; simpl in Hx.
  - injection Hx as <-. simpl. split; [lia|done].
  - destruct (Hes i x Hx) as [-> ?]. split; [lia|done].
Qed.

(** committed entries are applied once, in order.  Calling
    [TakeCommittedLog] as often as there are committed entries not yet applied
    returns exactly the entries of the log from [last_applied_ + 1] to the
    commit index, in order; the next call returns index 0 and changes nothing. *)
Theorem committed_applied_in_order r :
  inv r ->
  exists r' es, take_committed (Z.to_nat (commit_idx_ r - last_applied_ r)) r = Some (r', es) /\
    Zlen es = commit_idx_ r - last_applied_ r /\
    (forall i x, es !! i = Some x ->
       x.1 = last_applied_ r + 1 + Z.of_nat i /\ log_at (log_ r) x.1 = Some x.2) /\
    last_applied_ r' = commit_idx_ r /\
    TakeCommittedLog r' = Some (r', (0, LogEntry_default)).
Proof.
  intros Hi. pose proof Hi as [[[_ I2 I3 _ _ _ _ _] _ _ _ _] _ _].
  destruct (take_committed_spec (Z.to_nat (commit_idx_ r - last_applied_ r)) r Hi)
    as (r' & es & -> & Hi' & -> & Hlen & Hes); [lia|].
  eexists _, es. split; [done|]. simpl in *. split_and!; [unfold Zlen; lia|done|lia|].
  pose proof (TakeCommittedLog_spec _ Hi') as Ht. simpl in Ht.
  by rewrite (proj2 (Z.leb_le _ _)) in Ht by lia.
Qed.

(** a new replica starts well.  On what the caller is documented to pass,
    the constructor succeeds, the invariant holds, nothing is queued to be
    sent, and the replica is leader at once exactly if it is the only voter. *)
Theorem new_replica_ok group me merk mem log config cl sm :
  new_wf me merk mem log config cl sm ->
  exists r, Raft_new group me merk mem log config cl sm = Some r /\ inv r /\
    sendable_messages_ r = [] /\ (role_ r = LEADER <-> voting_replicas_ mem = [me]).
Proof.
  intros Hn. destruct (Raft_new_spec group me merk mem log config cl sm Hn)
    as (r & -> & Hi & _ & _ & _ & _ & Hs & _ & Hr). eauto.
Qed.

(** Election timeouts are drawn from [[election_ticks, 2 * election_ticks)]
    as raft.h says, as long as [election_ticks] is below [2^31] (the sum is a
    32-bit one). *)
Theorem election_timeout_range r t r' :
  0 < election_ticks (config_ r) < 2 ^ 31 ->
  RandomElectionTimeout r = Some (t, r') ->
  election_ticks (config_ r) <= t < 2 * election_ticks (config_ r).
Proof.
  intros Hc. unfold RandomElectionTimeout. rewrite (proj2 (Z.eqb_neq _ _)) by lia. intros [= <- <-].
  pose proof (Z.mod_pos_bound (random_u32 (rand_calls_ r)) (election_ticks (config_ r))).
  rewrite u32_small; unfold is_u32; lia.
Qed.
End props.

(** ** Witnesses *)
Lemma leader_indices_by_quorum_witness :
  exists r r', ex_sole = Some r /\ MaybeAdvanceCommitIndex r = Some r' /\ promise_idx_ r <= promise_idx_ r'.
Proof.
  destruct ex_sole_inv as (r & Heq & Hi). exists r.
  destruct (leader_indices_by_quorum r Hi) as (r' & H1 & _ & H2 & _). exists r'. split_and!; [exact Heq|exact H1|apply H2..].
Defined.

Lemma committed_applied_in_order_witness :
  exists r r' es, ex_sole = Some r /\
    take_committed (Z.to_nat (commit_idx_ r - last_applied_ r)) r = Some (r', es) /\
    last_applied_ r' = commit_idx_ r.
Proof.
  destruct ex_sole_inv as (r & Heq & Hi). exists r.
  destruct (committed_applied_in_order r Hi) as (r' & es & H1 & _ & _ & H2 & _).
  exists r', es. split_and!; [exact Heq|exact H1|exact H2].
Defined.

Lemma new_replica_ok_witness : exists r, ex_sole = Some r /\ inv r /\ role_ r = LEADER.
Proof.
  destruct (new_replica_ok 7 (example_peer 1) Tree_new (First (example_peer 1)) (Log_new 100000)
    ex_config false 0 (ex_new_wf _ _ (ex_first_good (example_peer 1) eq_refl) (fun _ => eq_refl)))
    as (r & H1 & H2 & _ & H3).
  exists r. split_and!; [exact H1|exact H2|]. apply H3. reflexivity.
Defined.

Lemma election_timeout_range_witness :
  exists r t r', ex_sole = Some r /\ RandomElectionTimeout r = Some (t, r') /\ 10 <= t < 20.
Proof.
  destruct ex_sole_inv as (r & Heq & Hi). exists r.
  assert (exists t r', RandomElectionTimeout r = Some (t, r') /\ election_ticks (config_ r) = 10)
    as (t & r' & H1 & H2).
  { vm_compute in Heq. injection Heq as <-. eexists _, _. split; vm_compute; reflexivity. }
  exists t, r'. split_and!; [exact Heq|exact H1| |].
  - assert (0 < election_ticks (config_ r) < 2 ^ 31) as Hc by lia.
    pose proof (election_timeout_range r t r' Hc H1). lia.
  - assert (0 < election_ticks (config_ r) < 2 ^ 31) as Hc by lia.
    pose proof (election_timeout_range r t r' Hc H1). lia.
Defined.
