(* ===== verification/RaftChain.v ===== *)
(** * The hash chain

    Every entry's hash binds the entry and all its predecessors; followers
    take over only entries whose hashes fit.  And the Merkle leaves: once they
    do not verify, the indices of a replica stop. *)
From stdpp Require Import prelude gmap sorting.
From S2P Require Import Prelude Errors Containers Util RaftTypes RaftLog PeerId Membership Merkle MerkleProofs MerkleProps Raft RaftInv RaftStep RaftAppend RaftReceive RaftPublic RaftExamples.

Section chain.
Context {RP : RaftPlatform}.

(** The hash that the entry at an index is chained to. *)
Definition chained_to (l : Log) (k : LogIdx) (h : bytes) : Prop :=
  (k = 1 /\ h = replicate 32 0) \/ exists p, log_at l (k - 1) = Some p /\ hash_chain p = h.

(** Between [j] and [i] the two logs store entries whose hashes are equal and
    come from different inputs of HMAC. *)
Definition hmac_collision (l1 l2 : Log) (j i : LogIdx) : Prop :=
  exists k y1 y2 h1 h2, j <= k <= i /\ log_at l1 k = Some y1 /\ log_at l2 k = Some y2 /\
    chained_to l1 k h1 /\ chained_to l2 k h2 /\
    (h1, hash_input k y1) <> (h2, hash_input k y2) /\ hmac_sha256 h1 (hash_input k y1) = hmac_sha256 h2 (hash_input k y2).

(** Entries with the same authenticated content. *)
Definition same_content (e1 e2 : LogEntry) : Prop :=
  entry_term e1 = entry_term e2 /\
  match entry_inner e1, entry_inner e2 with
  | INNER_NOT_SET, INNER_NOT_SET => True
  | kData d1, kData d2 => d1 = d2
  | kMembershipChange g1, kMembershipChange g2 => serialize_ReplicaGroup g1 = serialize_ReplicaGroup g2
  | kMinimums m1, kMinimums m2 => serialize_MinimumLimits m1 = serialize_MinimumLimits m2
  | _, _ => False
  end.

Lemma framed_inj (x : Z) (a b1 b2 p1 p2 : bytes) :
  length b1 = length b2 -> x :: a ++ b1 ++ p1 = x :: a ++ b2 ++ p2 -> b1 = b2 /\ p1 = p2.
Proof. intros Hlen [= Heq]. apply app_inv_head in Heq. by apply app_inj_1 in Heq. Qed.

Lemma hash_input_header (x : Z) idx t1 t2 (p1 p2 : bytes) :
  is_u64 t1 -> is_u64 t2 ->
  x :: BigEndian64Bytes idx ++ BigEndian64Bytes t1 ++ p1 =
  x :: BigEndian64Bytes idx ++ BigEndian64Bytes t2 ++ p2 -> t1 = t2 /\ p1 = p2.
Proof.
  intros H1 H2 Heq. apply framed_inj in Heq as [Heq ->]; [|done].
  split; [by apply BigEndian64Bytes_inj|done].
Qed.

Lemma hash_input_inj idx e1 e2 :
  is_u64 (entry_term e1) -> is_u64 (entry_term e2) ->
  hash_input idx e1 = hash_input idx e2 -> same_content e1 e2.
Proof.
  intros H1 H2. unfold hash_input, same_content.
  destruct (entry_inner e1) as [|d1|g1|m1], (entry_inner e2) as [|d2|g2|m2]; simpl; try done.
  all: rewrite <- ?app_assoc; rewrite <- 1?(app_nil_r (BigEndian64Bytes (entry_term e1))).
  all: rewrite <- 1?(app_nil_r (BigEndian64Bytes (entry_term e2))).
  all: intros Heq; apply hash_input_header in Heq as [-> Heq]; auto.
Qed.

Section binding.
Context (l1 l2 : Log) (Hc1 : chain_ok l1) (Hc2 : chain_ok l2).

(** One link: equal hashes at [j + 1] come from equal hashes at [j] and
    equal inputs. *)
Lemma chain_link j x1 x2 y1 y2 :
  log_at l1 j = Some x1 -> log_at l2 j = Some x2 ->
  log_at l1 (j + 1) = Some y1 -> log_at l2 (j + 1) = Some y2 ->
  hash_chain y1 = hash_chain y2 ->
  (hash_chain x1 = hash_chain x2 /\ hash_input (j + 1) y1 = hash_input (j + 1) y2) \/ hmac_collision l1 l2 (j + 1) (j + 1).
Proof.
  intros X1 X2 Y1 Y2 Heq. pose proof (ch_next _ Hc1 _ _ _ X1 Y1) as E1.
  pose proof (ch_next _ Hc2 _ _ _ X2 Y2) as E2.
  destruct (decide ((hash_chain x1, hash_input (j + 1) y1) = (hash_chain x2, hash_input (j + 1) y2)))
    as [[= -> ->]|Hne]; [by left|].
  right. exists (j + 1), y1, y2, (hash_chain x1), (hash_chain x2). unfold chained_to. rewrite !Z.add_simpl_r.
  split_and!; [lia|lia|done|done|by eauto|by eauto|done|]. congruence.
Qed.

Lemma collision_within j i j' i' : hmac_collision l1 l2 j i -> j' <= j -> i <= i' -> hmac_collision l1 l2 j' i'.
Proof. intros (k & y1 & y2 & h1 & h2 & Hk & H) Hj Hi. exists k, y1, y2, h1, h2. split; [lia|exact H]. Qed.

(** Going down from [i] by [n] indices stored in both logs. *)
Lemma chain_down (n : nat) i e1 e2 :
  log_ok l1 -> log_ok l2 ->
  log_at l1 i = Some e1 -> log_at l2 i = Some e2 -> hash_chain e1 = hash_chain e2 ->
  is_Some (log_at l1 (i - Z.of_nat n)) -> is_Some (log_at l2 (i - Z.of_nat n)) ->
  (exists x1 x2, log_at l1 (i - Z.of_nat n) = Some x1 /\ log_at l2 (i - Z.of_nat n) = Some x2 /\
     hash_chain x1 = hash_chain x2) \/ hmac_collision l1 l2 (i - Z.of_nat n + 1) i.
Proof.
  intros Hl1 Hl2 H1 H2 Heq. induction n as [|n IH]; intros S1 S2.
  { left. exists e1, e2. by rewrite Z.sub_0_r. }
  assert (is_Some (log_at l1 (i - Z.of_nat n))) as T1.
  { apply log_at_is_Some in S1; [|done]. apply log_at_is_Some; [done|].
    assert (is_Some (log_at l1 i)) as U by eauto. apply log_at_is_Some in U; [lia|done]. }
  assert (is_Some (log_at l2 (i - Z.of_nat n))) as T2.
  { apply log_at_is_Some in S2; [|done]. apply log_at_is_Some; [done|].
    assert (is_Some (log_at l2 i)) as U by eauto. apply log_at_is_Some in U; [lia|done]. }
  destruct (IH T1 T2) as [(y1 & y2 & Y1 & Y2 & Hy)|Hcol]; [|right; eapply collision_within; [exact Hcol|lia|lia]].
  destruct S1 as [x1 X1], S2 as [x2 X2].
  destruct (chain_link (i - Z.of_nat (S n)) x1 x2 y1 y2) as [[Hh _]|Hcol]; auto.
  - replace (i - Z.of_nat (S n) + 1) with (i - Z.of_nat n) by lia. done.
  - replace (i - Z.of_nat (S n) + 1) with (i - Z.of_nat n) by lia. done.
  - left. eauto.
  - right. eapply collision_within; [exact Hcol|lia|lia].
Qed.
End binding.

(** C8: the hash chain binds the log.  If two logs whose chains are right
    (two replicas', say) have equal hashes at index [i], then at every index
    [j <= i] that both store together with its predecessor (or that is the
    first), the entries have equal hashes, terms and contents; or between [j]
    and [i] the logs hold two entries of one index whose hashes are an HMAC
    collision. *)
Theorem hash_chain_binds_log l1 l2 i e1 e2 j y1 y2 :
  log_ok l1 -> log_ok l2 -> chain_ok l1 -> chain_ok l2 ->
  Forall (fun e => is_u64 (entry_term e)) (entries_ l1) ->
  Forall (fun e => is_u64 (entry_term e)) (entries_ l2) ->
  log_at l1 i = Some e1 -> log_at l2 i = Some e2 -> hash_chain e1 = hash_chain e2 ->
  j <= i -> log_at l1 j = Some y1 -> log_at l2 j = Some y2 ->
  j = 1 \/ (is_Some (log_at l1 (j - 1)) /\ is_Some (log_at l2 (j - 1))) ->
  (hash_chain y1 = hash_chain y2 /\ same_content y1 y2) \/ hmac_collision l1 l2 j i.
Proof.
  intros Hl1 Hl2 Hc1 Hc2 Hu1 Hu2 He1 He2 Heq Hj Y1 Y2 Hpred.
  assert (Hij : i - Z.of_nat (Z.to_nat (i - j)) = j) by lia.
  destruct (chain_down l1 l2 Hc1 Hc2 (Z.to_nat (i - j)) i e1 e2) as [(x1 & x2 & X1 & X2 & Hx)|Hcol];
    rewrite ?Hij in *; eauto; [|right; eapply collision_within; [exact Hcol|lia|lia]].
  assert (x1 = y1) as -> by congruence. assert (x2 = y2) as -> by congruence.
  rewrite Forall_forall in Hu1, Hu2.
  pose proof (Hu1 _ (log_at_elem _ _ _ Y1)) as U1. pose proof (Hu2 _ (log_at_elem _ _ _ Y2)) as U2.
  destruct Hpred as [->|[[p1 P1] [p2 P2]]].
  - pose proof (ch_first _ Hc1 _ Y1) as E1. pose proof (ch_first _ Hc2 _ Y2) as E2.
    destruct (decide (hash_input 1 y1 = hash_input 1 y2)) as [Hi|Hi].
    + left. split; [done|]. by eapply hash_input_inj.
    + right. exists 1, y1, y2, (replicate 32 0), (replicate 32 0). unfold chained_to. split_and!; auto; lia || congruence.
  - destruct (chain_link l1 l2 Hc1 Hc2 (j - 1) p1 p2 y1 y2) as [[_ Hi]|Hcol]; rewrite ?Z.sub_add in *; auto.
    + left. split; [done|]. by eapply hash_input_inj.
    + right. eapply collision_within; [exact Hcol|lia|lia].
Qed.
End chain.

Section follower.
Context {T L : Type} `{!EqDecision L, !Countable L} {MO : MerkleOps T L} {MS : MerkleSpec T L}.
Context {RP : RaftPlatform} {RPL : RaftPlatformLaws}.
Notation Raft := (Raft T L).
Implicit Types r : Raft.

(** Validated entries agree with stored ones of the same term. *)
Lemma check_entries_agree r lp es :
  log_ok (log_ r) -> 0 <= lp -> lp + Zlen es < 2 ^ 64 - 1 ->
  Forall entry_wf es -> Forall (fun e => entry_term e <> 0) es ->
  check_entries r (lp + 1) es = Some OK -> agree r lp es.
Proof.
  intros Hl. revert lp. induction es as [|e es IH]; intros lp Hlp Hsz Hwf Hnz; [done|].
  apply Forall_cons in Hwf as [He Hwf], Hnz as [Hn Hnz]. rewrite Zlen_cons in Hsz.
  pose proof (Zlen_nonneg es). simpl.
  assert (is_u64 (lp + 1)) as Hu by (unfold is_u64; lia).
  destruct (CheckLogHash_spec r (lp + 1) (entry_term e) (hash_chain e) true Hl Hu) as (err & -> & Hpos).
  simpl. destruct (is_ok err) eqn:Eo; simpl; [|by intros [= ->]].
  apply is_ok_spec in Eo. specialize (Hpos Eo). rewrite (u64_small (lp + 1 + 1)) by (unfold is_u64; lia).
  intros Hch. specialize (IH (lp + 1) ltac:(lia) ltac:(lia) Hwf Hnz Hch).
  intros [|i] x x0 Hx Hx0 Ht; simpl in Hx.
  - injection Hx as <-. replace (lp + 1 + Z.of_nat 0) with (lp + 1) in Hx0 by lia.
    destruct Hpos as [?|[[Hlt _]|(e' & He' & Hh & _)]]; [lia| |].
    + assert (is_Some (log_at (log_ r) (lp + 1))) as Hs by eauto. apply log_at_is_Some in Hs; [lia|done].
    + assert (e' = x0) as -> by congruence. symmetry. apply Hh. right. congruence.
  - apply (IH i x x0 Hx); [|done].
    by replace (lp + 1 + 1 + Z.of_nat i) with (lp + 1 + Z.of_nat (S i)) by lia.
Qed.

(** a follower takes over what the leader sent.  When a validated
    AppendRequest whose predecessor the follower has is processed, the loop
    ends at some index [lp] between the predecessor and the last entry sent;
    every index up to [lp] that is still stored holds an entry with the term
    and the hash the leader sent; and nothing at or below the predecessor or
    the promise index changes. *)
Theorem follower_takes_over r msg from m :
  inv r -> role_ r = FOLLOWER -> message_wf msg -> msg_inner msg = kAppendRequest m ->
  ValidateReceivedMessage r msg from = Some OK -> Forall (fun e => entry_term e <> 0) (ar_entries m) ->
  ar_prev_log_idx m <= last_idx (log_ r) -> last_idx (log_ r) + Zlen (ar_entries m) + 2 < 2 ^ 64 ->
  exists r' lp, append_request_entries r (ar_prev_log_idx m ⊕ 1) (ar_prev_log_idx m) (ar_entries m)
      = Some (r', lp) /\
    inv r' /\ ar_prev_log_idx m <= lp <= last_idx (log_ r') /\
    lp <= ar_prev_log_idx m + Zlen (ar_entries m) /\
    (forall (i : nat) e, ar_entries m !! i = Some e ->
       let idx := ar_prev_log_idx m + 1 + Z.of_nat i in
       idx <= lp -> oldest_stored_idx_ (log_ r') <= idx ->
       exists e', log_at (log_ r') idx = Some e' /\
         entry_term e' = entry_term e /\ hash_chain e' = hash_chain e) /\
    (forall idx, oldest_stored_idx_ (log_ r') <= idx <= Z.max (ar_prev_log_idx m) (promise_idx_ r) ->
       log_at (log_ r') idx = log_at (log_ r) idx).
Proof.
  intros Hi Hr Hwf Hm Hval Hnz Hprev Hroom. pose proof Hi as [Hc _ _].
  pose proof (last_idx_range _ (last_idx_inv _ Hi)). pose proof (Zlen_nonneg (ar_entries m)).
  destruct Hwf as (_ & _ & Hwf). rewrite Hm in Hwf. destruct Hwf as [Hu Hes]. unfold is_u64 in Hu.
  rewrite u64_small by (unfold is_u64; lia).
  destruct (append_request_entries_spec (ar_entries m) r (ar_prev_log_idx m) Hc Hr)
    as (r' & lp & -> & [T1 T2 T3 T4 T5 T6]); [lia|done|done|].
  exists r', lp. split; [done|]. split; [by eapply grown_inv|]. split_and!; [lia|lia|lia| |].
  - intros i e He idx Hle Ho. destruct (T6 i e He Hle Ho) as (e' & E1 & E2 & E3).
    exists e'. split_and!; [done|done|]. apply E3. revert Hval. unfold ValidateReceivedMessage.
    destruct (negb _); [done|]. destruct (negb _); [done|]. rewrite Hm.
    intros (err & _ & Hrest)%bind_Some.
    destruct (is_ok err) eqn:Eo; simpl in Hrest; [|by injection Hrest as ->].
    repeat (destruct (_ <? _) in Hrest; [done|]).
    rewrite u64_small in Hrest by (unfold is_u64; lia).
    eapply check_entries_agree; eauto; [apply last_idx_inv, Hi|lia|lia].
  - intros idx Hidx. destruct (decide (idx <= ar_prev_log_idx m)); [apply T5; lia|].
    apply (gr_log _ _ T1). lia.
Qed.
End follower.

Section detection.
Context {T L : Type} `{!EqDecision L, !Countable L} {MO : MerkleOps T L} {MS : MerkleSpec T L}.
Context {RP : RaftPlatform} {RPL : RaftPlatformLaws}.
Notation Raft := (Raft T L).
Implicit Types r : Raft.

(** What a replica that found tampering still does with an AppendRequest: its
    indices stay, its tree still fails, and the message it may add to the
    queue reports success only if it asks for neither index to advance. *)
Record stopped r (m : AppendRequest) r' : Prop := {
  sp_commit : commit_idx_ r' = commit_idx_ r;
  sp_promise : promise_idx_ r' = promise_idx_ r;
  sp_verify : VerifyMerkleTree r' = VerifyMerkleTree r;
  sp_log : forall idx, oldest_stored_idx_ (log_ r') <= idx <= promise_idx_ r -> log_at (log_ r') idx = log_at (log_ r) idx;
  sp_replies : exists replies, sendable_messages_ r' = sendable_messages_ r ++ replies /\
    forall x a, x ∈ replies -> msg_inner (sm_message x) = kAppendResponse a -> as_success a = true ->
      Z.min (ar_leader_commit m) (as_match_idx a) <= commit_idx_ r /\
      Z.min (ar_leader_promise m) (as_match_idx a) <= promise_idx_ r /\ as_promise_idx a <= promise_idx_ r }.

Lemma verify_data r r' : data r' = data r -> VerifyMerkleTree r' = VerifyMerkleTree r.
Proof. unfold data. intros [= _ _ E1 _ _ _ E2 E3 E4 E5 E6 _]. unfold VerifyMerkleTree. by rewrite E1, E2, E3, E4, E5, E6. Qed.

Lemma grown_verify r r' : core_inv r -> grown r r' -> VerifyMerkleTree r' = VerifyMerkleTree r.
Proof.
  intros Hc [A1 A2 A3 A4]. side_eqs A1. pose proof (ci_idx _ Hc) as Hi. pose proof (ci_idx _ A2) as Hx.
  destruct (idx_u64 _ _ _ _ Hi) as (_ & Uc & Up). destruct (idx_u64 _ _ _ _ Hx) as (_ & Uc' & Up'). destruct Hi as [I1 I2 I3 I4 I5 I6 _ _].
  unfold VerifyMerkleTree. rewrite !MerkleHashFromLogIter_eq by (done || apply Hx). rewrite Eci, Epi, Ecl, Epl, Emk.
  rewrite (hash8_stable (log_ r) (log_ r') _ _ _ (commit_idx_ r) Hx), (hash8_stable (log_ r) (log_ r') _ _ _ (promise_idx_ r) Hx); try done.
  all: try (intros; apply A4); lia.
Qed.

Lemma append_request_role_kept r from : core_inv r ->
  exists r' go, append_request_role r from = Some (r', go) /\ core_inv r' /\ data r' = data r /\
    sendable_messages_ r' = sendable_messages_ r /\ current_term_ r' = current_term_ r /\ (go = true -> role_ r' = FOLLOWER).
Proof.
  intros [I1 I2 I3 I4 I5]. unfold append_request_role. destruct (role_ r) eqn:Hr.
  - destruct (RandomElectionTimeout_eq r I4) as [t ->]. simpl. eexists _, _. split_and!; [done| |done..].
    split; [done..|]. apply follower_role_inv. exact Hr.
  - destruct (RandomElectionTimeout_eq (SetRole r FOLLOWER) I4) as [t ->]. simpl. eexists _, _. by split_and!; [|split|..].
  - eexists _, _. by split_and!; [|split|..].
Qed.

(** Where the tree fails an advance is refused, and nothing else happens. *)
Lemma advance_refused r err lc lp : VerifyMerkleTree r = Some err -> is_ok err = false ->
  exists go, follower_advance r lc lp = Some (r, go) /\ (go = true -> lc <= commit_idx_ r /\ lp <= promise_idx_ r).
Proof.
  intros Hv He. unfold follower_advance. destruct (_ || _) eqn:E; simpl.
  - rewrite Hv. simpl. rewrite He. by exists false.
  - apply orb_false_iff in E as [E1 E2]. rewrite E1, E2. simpl. exists true. split; [done|]. lia.
Qed.

(** A reply is added to the queue. *)
Lemma stopped_reply r r1 m to a : stopped r m r1 -> to <> me_ r1 -> sendable_messages_ r1 = sendable_messages_ r ->
  (as_success a = true -> Z.min (ar_leader_commit m) (as_match_idx a) <= commit_idx_ r /\
     Z.min (ar_leader_promise m) (as_match_idx a) <= promise_idx_ r /\ as_promise_idx a <= promise_idx_ r) ->
  exists r', AddSendableMessage r1 (Reply to {| msg_group := group_ r1; msg_term := current_term_ r1; msg_inner := kAppendResponse a |})
    = Some r' /\ stopped r m r'.
Proof.
  intros [H1 H2 H3 H4 _] Hto Hs Ha. unfold AddSendableMessage. simpl. rewrite bool_decide_eq_false_2 by done. simpl.
  eexists. split; [done|]. split; try done. simpl. rewrite Hs. eexists. split; [done|].
  intros x a' Hx%list_elem_of_singleton. subst x. simpl. intros [= <-]. exact Ha.
Qed.

Lemma stopped_accept r0 r m from err :
  core_inv r -> role_ r = FOLLOWER -> from <> me_ r -> VerifyMerkleTree r = Some err -> is_ok err = false ->
  0 <= ar_prev_log_idx m <= last_idx (log_ r) -> Forall entry_wf (ar_entries m) ->
  last_idx (log_ r) + Zlen (ar_entries m) + 2 < 2 ^ 64 ->
  data r = data r0 -> sendable_messages_ r = sendable_messages_ r0 ->
  exists r', ('(r, last_processed_idx) ←
     append_request_entries r (ar_prev_log_idx m ⊕ 1) (ar_prev_log_idx m) (ar_entries m);
   '(r, go) ← follower_advance r (Z.min (ar_leader_commit m) last_processed_idx)
                (Z.min (ar_leader_promise m) last_processed_idx);
   if negb go then Some r else
   AddSendableMessage r (Reply from
    {| msg_group := group_ r; msg_term := current_term_ r;
       msg_inner := kAppendResponse {|
         as_success := true; as_match_idx := last_processed_idx;
         as_match_hash_chain := hash_at (log_ r) last_processed_idx;
         as_promise_idx := Z.min (promise_idx_ r) last_processed_idx;
         as_last_log_idx := last_idx (log_ r) |} |})) = Some r' /\ stopped r0 m r'.
Proof.
  intros Hc Hr Hme Hv He Hprev Hwf Hroom Ed Es. pose proof (verify_data _ _ Ed) as Hv0.
  pose proof (last_idx_range _ (ii_log _ _ _ _ (ci_idx _ Hc))). pose proof (Zlen_nonneg (ar_entries m)).
  rewrite (u64_small (_ + 1)) by (unfold is_u64; lia).
  destruct (append_request_entries_spec (ar_entries m) r (ar_prev_log_idx m)) as (r1 & lp & -> & [Hg _ _ _ _ _]); [done..|]. simpl.
  pose proof (grown_verify _ _ Hc Hg) as Hv1. destruct Hg as [Hs _ _ Hlog]. side_eqs Hs.
  unfold data in Ed. injection Ed as _ _ _ _ _ _ E1 _ E2 _ E3 _.
  assert (Hst : stopped r0 m r1).
  { split; [congruence..|intros idx Hidx; rewrite <- E1; apply Hlog; by rewrite E3|].
    exists []. rewrite app_nil_r. split; [congruence|]. by intros x a ?%not_elem_of_nil. }
  rewrite Hv in Hv1. destruct (advance_refused r1 err (Z.min (ar_leader_commit m) lp) (Z.min (ar_leader_promise m) lp) Hv1 He) as (go & -> & Hgo).
  simpl. destruct go; simpl; [|eauto]. apply stopped_reply; [done|congruence|congruence|].
  intros _. simpl. destruct (Hgo eq_refl). split_and!; lia.
Qed.

Lemma HandleAppendRequest_stopped r t m from err :
  core_inv r -> VerifyMerkleTree r = Some err -> is_ok err = false ->
  from <> me_ r -> is_u64 (ar_prev_log_idx m) -> Forall entry_wf (ar_entries m) ->
  last_idx (log_ r) + Zlen (ar_entries m) + 2 < 2 ^ 64 ->
  exists r', HandleAppendRequest r t m from = Some r' /\ stopped r m r'.
Proof.
  intros Hc Hv He Hme Hu Hwf Hroom. pose proof (ii_log _ _ _ _ (ci_idx _ Hc)) as Hlog.
  assert (Hsame : forall r1, data r1 = data r -> sendable_messages_ r1 = sendable_messages_ r -> stopped r m r1).
  { intros r1 Ed Es. pose proof (verify_data _ _ Ed). unfold data in Ed. injection Ed as _ _ _ _ _ _ E1 _ E2 _ E3 _. split; try congruence.
    exists []. rewrite app_nil_r. split; [done|]. by intros x a ?%not_elem_of_nil. }
  unfold HandleAppendRequest. destruct (current_term_ r <? t) eqn:Et; [eauto|].
  assert (exists r1 go, (if t =? current_term_ r then append_request_role r from else Some (r, true)) = Some (r1, go) /\
    core_inv r1 /\ data r1 = data r /\ sendable_messages_ r1 = sendable_messages_ r /\ current_term_ r1 = current_term_ r /\
    (t = current_term_ r -> go = true -> role_ r1 = FOLLOWER)) as (r1 & go & -> & Hc1 & Hd & Hs & Et1 & Hgo).
  { destruct (t =? current_term_ r) eqn:E; [|exists r, true; split_and!; try done; intros; lia].
    destruct (append_request_role_kept r from Hc) as (r1 & go & -> & ? & ? & ? & ? & ?). exists r1, go. by split_and!; auto. }
  simpl. destruct go; simpl; [|eauto].
  pose proof (Hsame r1 Hd Hs) as Hst. pose proof (verify_data _ _ Hd) as Hv1. rewrite Hv in Hv1.
  assert (log_ r1 = log_ r /\ me_ r1 = me_ r) as [El Em] by (unfold data in Hd; by injection Hd).
  destruct (_ || _) eqn:Erej; [apply stopped_reply; [done|congruence|done|done]|].
  apply orb_false_iff in Erej as [Elt Elog]. rewrite Et1 in Elt |- *. assert (t = current_term_ r) as Heq by lia.
  rewrite Heq, Et1, Z.eqb_refl, bool_decide_eq_true_2 in Elog by (by apply Hgo).
  simpl in Elog. apply negb_false_iff in Elog. rewrite Elog, Heq, Z.eqb_refl, bool_decide_eq_true_2 by (by apply Hgo). simpl.
  apply (stopped_accept r r1 m from err); try done; [by apply Hgo|congruence| |by rewrite El].
  rewrite El. pose proof (last_idx_range _ Hlog). unfold is_u64 in Hu. apply orb_true_iff in Elog as [E|[E _]%andb_true_iff]; [lia|].
  rewrite iter_Valid_At in E by done. btrue. apply log_at_is_Some in E; [lia|done].
Qed.

(** The leader's side: what it sends does not depend on the tree. *)
Lemma AppendEntries_core r peer : core_inv r -> exists r', AppendEntries r peer = Some r' /\ core_inv r'.
Proof.
  intros Hc. unfold AppendEntries. case_bool_decide as Hr; simpl; [|by eauto].
  destruct (map_find _ peer) as [f|] eqn:Hf; [|by eauto].
  destruct (followers_find _ _ _ _ _ _ (ci_followers _ Hc Hr) Hf) as (Hfo & _ & Hme).
  destruct (_ && _ && _); [by eauto|]. case_bool_decide; [by eauto|]. destruct (_ && negb _); [by eauto|].
  match goal with |- context [map_set peer ?g _] => set (f' := g) end.
  assert (core_inv (set_followers r (map_set peer f' (l_followers (leader_ r))))) as Hs.
  { eapply core_same_data; [|exact Hc|apply Hc|apply Hc|]; [done|]. apply role_inv_set_followers; [apply Hc|].
    intros _. eapply followers_set; [by apply ci_followers|exact Hf|]. by apply follower_ok_sent. }
  match goal with |- context [Reply peer ?m] => set (msg := m) end.
  destruct (AddSendableMessage_spec (set_followers r (map_set peer f' (l_followers (leader_ r)))) (Reply peer msg))
    as (r' & -> & Hd & Hct & _); [by intros p [= <-]|].
  exists r'. split; [done|]. by eapply core_same_ctrl.
Qed.

Lemma append_entries_to_core r ps : core_inv r -> exists r', append_entries_to r ps = Some r' /\ core_inv r'.
Proof.
  revert r. induction ps as [|p ps IH]; intros r Hc; simpl; [eauto|]. case_bool_decide; simpl; [by apply IH|].
  destruct (AppendEntries_core r p Hc) as (r1 & -> & Hc1). simpl. by apply IH.
Qed.

Lemma TryToRelinquishLeadership_core r : core_inv r -> is_Some (TryToRelinquishLeadership r).
Proof.
  intros Hc. unfold TryToRelinquishLeadership. destruct (List.find _ _) as [next|] eqn:Hn; [|by eauto].
  apply List.find_some in Hn as [_ [Hne _]%andb_true_iff]. btrue.
  match goal with |- context [Reply next ?m] => destruct (AddSendableMessage_spec r (Reply next m)) as (r1 & -> & _ & Hct & _) end;
    [by intros p [= <-]|]. simpl.
  unfold ctrl in Hct. injection Hct as C1 C2 C3 C4 C5 C6 C7.
  destruct (RandomElectionTimeout_eq (SetRole r1 FOLLOWER)) as [t ->]; [simpl; rewrite C7; apply Hc|]. by eexists.
Qed.

Lemma leader_stopped r err : core_inv r -> VerifyMerkleTree r = Some err -> is_ok err = false -> role_ r = LEADER ->
  exists r', MaybeChangeStateAndSendMessages r = Some r' /\ data r' = data r.
Proof.
  intros Hc Hv He Hr. unfold MaybeChangeStateAndSendMessages, MaybeBecomeLeader.
  rewrite bool_decide_eq_false_2 by (by rewrite Hr). simpl. rewrite Hv. simpl. rewrite He. simpl.
  destruct (append_entries_to_core r (all_replicas_ (membership r)) Hc) as (r1 & E1 & Hc1). rewrite E1. simpl.
  apply append_entries_to_data in E1. destruct (_ && _); [|by eauto].
  destruct (TryToRelinquishLeadership_core r1 Hc1) as [r2 E2]. rewrite E2. exists r2. split; [done|].
  apply TryToRelinquishLeadership_data in E2. congruence.
Qed.

(** C36: tampering stops a replica.  If the Merkle leaves of the commit and
    promise indices do not verify (the stored log hashes or the tree were
    rolled back or changed), no AppendRequest, whatever its entries and
    indices, moves the follower's commit or promise index or changes an entry
    up to the promise; the tree keeps failing; and the reply, if one is sent,
    reports success only if the request asks for no advance of either index.
    A leader sends its messages without moving either index, its log or the
    tree. *)
Theorem tampering_stops_indices r err :
  core_inv r -> VerifyMerkleTree r = Some err -> err <> OK ->
  (forall term m from, from <> me_ r -> is_u64 (ar_prev_log_idx m) -> Forall entry_wf (ar_entries m) ->
     last_idx (log_ r) + Zlen (ar_entries m) + 2 < 2 ^ 64 ->
     exists r', HandleAppendRequest r term m from = Some r' /\ stopped r m r') /\
  (role_ r = LEADER -> exists r', MaybeChangeStateAndSendMessages r = Some r' /\
     commit_idx_ r' = commit_idx_ r /\ promise_idx_ r' = promise_idx_ r /\ log_ r' = log_ r /\ merkle_ r' = merkle_ r).
Proof.
  intros Hc Hv Hne. apply is_ok_false in Hne as He. split.
  - intros term m from Hme Hu Hwf Hroom. by eapply HandleAppendRequest_stopped.
  - intros Hr. destruct (leader_stopped r err Hc Hv He Hr) as (r' & -> & Ed). exists r'.
    unfold data in Ed. injection Ed as E1 E2 E3 E4 E5 E6 E7 E8 E9 E10 E11 E12. done.
Qed.
End detection.

(** ** Witnesses *)

(** The first entry of the leader of term 1. *)
Definition ex_entry : LogEntry :=
  let e := {| entry_term := 1; entry_inner := kData [5; 6]; hash_chain := [] |} in
  {| e with hash_chain := hmac_sha256 (replicate 32 0) (hash_input 1 e) |}.
Definition ex_append : AppendRequest :=
  {| ar_prev_log_idx := 0; ar_prev_log_term := 0; ar_leader_commit := 0; ar_entries := [ex_entry];
     ar_leader_promise := 1; ar_prev_log_hash_chain := [] |}.
Definition ex_message : RaftMessage :=
  {| msg_group := 7; msg_term := 1; msg_inner := kAppendRequest ex_append |}.

Lemma ex_append_entries_wf : Forall entry_wf (ar_entries ex_append).
Proof. constructor; [split; [vm_compute; done|exact I]|constructor]. Qed.
Lemma ex_message_wf : message_wf ex_message.
Proof. split; [vm_compute; done|]. split; [vm_compute; done|]. split; [vm_compute; done|exact ex_append_entries_wf]. Qed.

Lemma ex_follower_facts r :
  ex_follower = Some r ->
  role_ r = FOLLOWER /\ ValidateReceivedMessage r ex_message (example_peer 2) = Some OK /\
  0 <= last_idx (log_ r) /\ last_idx (log_ r) + Zlen (ar_entries ex_append) + 2 < 2 ^ 64.
Proof.
  intros Heq. vm_compute in Heq. injection Heq as <-. split_and!; vm_compute; done.
Qed.

Lemma follower_takes_over_witness :
  exists r r' lp, ex_follower = Some r /\
    append_request_entries r (0 ⊕ 1) 0 [ex_entry] = Some (r', lp) /\ inv r'.
Proof.
  destruct ex_follower_inv as (r & Heq & Hi).
  destruct (ex_follower_facts r Heq) as (H1 & H2 & H3 & H4).
  assert (H5 : Forall (fun e => entry_term e <> 0) [ex_entry]) by (constructor; [done|constructor]).
  destruct (follower_takes_over r ex_message (example_peer 2) ex_append Hi H1 ex_message_wf eq_refl H2 H5 H3 H4)
    as (r' & lp & E1 & E2 & _).
  exists r, r', lp. split_and!; [exact Heq|exact E1|exact E2].
Defined.

(** The logs of the sole replica before and after its second request. *)
Lemma ex_logs :
  exists l1 l2 e, log_ok l1 /\ log_ok l2 /\ chain_ok l1 /\ chain_ok l2 /\
    Forall (fun e => is_u64 (entry_term e)) (entries_ l1) /\
    Forall (fun e => is_u64 (entry_term e)) (entries_ l2) /\
    log_at l1 2 = Some e /\ log_at l2 2 = Some e /\ l1 <> l2 /\
    exists y, log_at l1 1 = Some y /\ log_at l2 1 = Some y.
Proof.
  destruct ex_sole_inv as (r & Heq & Hi). pose proof (ex_run_ok r Heq) as Hok.
  destruct Hok as [K1 Hok]. destruct (handle_spec r _ Hi K1) as (r1 & E1 & Hi1 & _).
  destruct (Hok r1 E1) as [K2 Hok2]. destruct (handle_spec r1 _ Hi1 K2) as (r2 & E2 & Hi2 & _).
  destruct (Hok2 r2 E2) as [K3 Hok3]. destruct (handle_spec r2 _ Hi2 K3) as (r3 & E3 & Hi3 & _).
  assert (Hu : forall x : ExRaft, inv x -> Forall (fun e => is_u64 (entry_term e)) (entries_ (log_ x))).
  { intros x [[[_ _ _ _ _ _ Hw _] _ _ _ _] _ _]. eapply Forall_impl; [exact Hw|]. by intros e [? _]. }
  assert (exists e y, log_at (log_ r2) 2 = Some e /\ log_at (log_ r3) 2 = Some e /\
    log_at (log_ r2) 1 = Some y /\ log_at (log_ r3) 1 = Some y /\ last_idx (log_ r2) <> last_idx (log_ r3))
    as (e & y & F1 & F2 & F3 & F4 & F5).
  { clear -Heq E1 E2 E3. vm_compute in Heq. injection Heq as <-. vm_compute in E1. injection E1 as <-.
    vm_compute in E2. injection E2 as <-. vm_compute in E3. injection E3 as <-.
    eexists _, _. split_and!; [vm_compute; reflexivity..|vm_compute; done]. }
  exists (log_ r2), (log_ r3), e.
  split_and!; [apply Hi2|apply Hi3|apply Hi2|apply Hi3|apply Hu, Hi2|apply Hu, Hi3|exact F1|exact F2| |].
  - intros Hl. apply F5. rewrite Hl. reflexivity.
  - exists y. exact (conj F3 F4).
Qed.

Lemma hash_chain_binds_log_witness :
  exists l1 l2 y1 y2, l1 <> l2 /\ log_at l1 1 = Some y1 /\ log_at l2 1 = Some y2 /\
    ((hash_chain y1 = hash_chain y2 /\ same_content y1 y2) \/ hmac_collision l1 l2 1 2).
Proof.
  destruct ex_logs as (l1 & l2 & e & H1 & H2 & H3 & H4 & H5 & H6 & H7 & H8 & H9 & y & H10 & H11).
  exists l1, l2, y, y. split_and!; [exact H9|exact H10|exact H11|].
  apply (hash_chain_binds_log l1 l2 2 e e 1 y y H1 H2 H3 H4 H5 H6 H7 H8 eq_refl); [lia|exact H10|exact H11|left; reflexivity].
Defined.

(** A follower whose promise leaf was overwritten. *)
Definition ex_tampered : option ExRaft :=
  r ← ex_follower; t ← leaf_update (merkle_ r) (promise_leaf_ r) (replicate 8 9); Some {| r with merkle_ := t |}.

Lemma ex_tampered_core : exists r, ex_tampered = Some r /\ core_inv r.
Proof.
  destruct ex_follower_inv as (r & Heq & Hi). destruct (inv_core _ Hi) as [I1 I2 I3 I4 I5]. unfold ex_tampered.
  destruct (r ← ex_follower; t ← leaf_update (merkle_ r) (promise_leaf_ r) (replicate 8 9); Some {| r with merkle_ := t |}) as [r'|] eqn:E;
    [|exfalso; vm_compute in E; discriminate E].
  exists r'. split; [reflexivity|]. rewrite Heq in E. cbn [mbind option_bind] in E. apply bind_Some in E as (t & _ & [= <-]).
  by split.
Qed.

(** What is left of a replica that takes the request: the lengths of its log
    and of its queue, and its promise. *)
Definition ex_taken (r : option ExRaft) : option (Z * nat * LogIdx) :=
  r ← r; r ← HandleAppendRequest r 0 ex_append (example_peer 2);
  Some (last_idx (log_ r), length (sendable_messages_ r), promise_idx_ r).

Lemma tampering_stops_indices_witness :
  ex_taken ex_follower = Some (1, 1%nat, 1) /\ ex_taken ex_tampered = Some (1, 0%nat, 0) /\
  exists r r', ex_tampered = Some r /\ HandleAppendRequest r 0 ex_append (example_peer 2) = Some r' /\ stopped r ex_append r'.
Proof.
  split; [vm_compute; reflexivity|]. split; [vm_compute; reflexivity|].
  destruct ex_tampered_core as (r & Heq & Hc).
  assert (option_map VerifyMerkleTree ex_tampered = Some (Some Merkle_VerifyLeaf) /\
    option_map (fun r => bool_decide (me_ r = example_peer 2)) ex_tampered = Some false /\
    option_map (fun r => last_idx (log_ r)) ex_tampered = Some 0) as (Hv & Hm & Hl) by (split_and!; vm_compute; reflexivity).
  rewrite Heq in Hv, Hm, Hl. injection Hv as Hv. injection Hm as Hm. injection Hl as Hl. apply bool_decide_eq_false in Hm.
  destruct (tampering_stops_indices r Merkle_VerifyLeaf Hc Hv ltac:(discriminate)) as [H _].
  destruct (H 0 ex_append (example_peer 2)) as (r' & Hr' & Hs).
  - intros E. apply Hm. symmetry. exact E.
  - vm_compute. split; congruence.
  - exact ex_append_entries_wf.
  - rewrite Hl. vm_compute. reflexivity.
  - exists r, r'. split; [exact Heq|]. split; [exact Hr'|exact Hs].
Defined.
