(* ===== verification/RaftControl.v ===== *)
(** * Roles, votes and messages of one event

    What an event may do to the role, the vote and the votes received, and
    which votes it may send: the facts election safety needs of one replica. *)
From stdpp Require Import prelude gmap sorting.
From S2P Require Import Prelude Errors Containers Util RaftTypes RaftLog PeerId Membership Merkle Raft RaftInv RaftStep RaftAppend RaftReceive RaftPublic.

(** A message that grants a vote. *)
Definition granted (m : SendableRaftMessage) : bool :=
  match msg_inner (sm_message m) with kVoteResponse true => true | _ => false end.

Section control.
Context {T L : Type} {MO : MerkleOps T L} {RP : RaftPlatform}.
Notation Raft := (Raft T L).
Implicit Types r : Raft.

(** Role, term, vote, votes received and the queue of messages. *)
Definition pub r :=
  (me_ r, super_majority_ r, current_term_ r, voted_for_ r, role_ r,
   c_votes_granted (candidate_ r), sendable_messages_ r).
Definition ctl r :=
  (me_ r, super_majority_ r, current_term_ r, voted_for_ r, role_ r,
   c_votes_granted (candidate_ r)).

(** No vote is sent. *)
Definition quiet r r' : Prop :=
  exists new, sendable_messages_ r' = sendable_messages_ r ++ new /\ Forall (fun m => granted m = false) new.

Lemma quiet_refl r r' : sendable_messages_ r' = sendable_messages_ r -> quiet r r'.
Proof. intros E. exists []. by rewrite app_nil_r. Qed.

Lemma quiet_trans r1 r2 r3 : quiet r1 r2 -> quiet r2 r3 -> quiet r1 r3.
Proof.
  intros (n1 & E1 & F1) (n2 & E2 & F2). exists (n1 ++ n2). split; [by rewrite E2, E1, app_assoc|].
  by apply Forall_app.
Qed.

Lemma AddSendableMessage_ctl r m r' :
  AddSendableMessage r m = Some r' -> granted m = false -> ctl r' = ctl r /\ quiet r r'.
Proof.
  unfold AddSendableMessage. intros Hadd Hg.
  assert (quiet r {| r with sendable_messages_ := sendable_messages_ r ++ [m] |}) as Hq.
  { exists [m]. split; [done|by constructor]. }
  destruct (sm_to m).
  - apply CHECK_Some in Hadd as [_ [= <-]]. done.
  - destruct (_ && _); injection Hadd as <-; [|done]. auto using quiet_refl.
Qed.

(** ** Calls that only touch the log, the memberships and the indices *)
Lemma HandleMembershipChange_pub r : pub (HandleMembershipChange r) = pub r.
Proof. unfold HandleMembershipChange. by case_bool_decide. Qed.

Lemma MaybeChange_pub r : pub (MaybeChangeUncommittedMembershipsBasedOnLog r) = pub r.
Proof.
  unfold MaybeChangeUncommittedMembershipsBasedOnLog. destruct (promote_committed _ _ _ _) as [[m us] b].
  destruct (discard_rolled_back _ _ _) as [rus c]. destruct c; [|done]. by rewrite HandleMembershipChange_pub.
Qed.

Lemma LogAppend_pub r e r' x : LogAppend r e = Some (r', x) -> pub r' = pub r.
Proof.
  unfold LogAppend. destruct (match entry_inner e with kMembershipChange g => _ | _ => _ end) as [om merr].
  destruct (negb _); [by intros [= <- <-]|]. intros ([l err] & _ & H)%bind_Some.
  destruct (negb _) in H; [by injection H as <- <-|].
  apply bind_Some in H as (r2 & H2 & H3). injection H3 as <- <-. destruct om as [m|]; [|by injection H2 as <-].
  unfold AddUncommittedMembership in H2. apply CHECK_Some in H2 as [_ H2]. injection H2 as <-.
  by rewrite HandleMembershipChange_pub.
Qed.

Lemma ClientRequestInternal_pub r e r' x : ClientRequestInternal r e = Some (r', x) -> pub r' = pub r.
Proof. unfold ClientRequestInternal. destruct (_ || _); [by intros [= <- <-]|apply LogAppend_pub]. Qed.

Lemma append_request_entries_pub es r idx lp r' lp' :
  append_request_entries r idx lp es = Some (r', lp') -> pub r' = pub r.
Proof.
  revert r idx lp. induction es as [|e es IH]; intros r idx lp; simpl; [by intros [= <- <-]|].
  destruct (_ && (_ || _)); [by intros [= <- <-]|].
  match goal with |- context [if ?c then CancelFrom _ _ else _] => destruct c end.
  - destruct (CancelFrom _ _) as [l cerr]. destruct (negb _); [by intros [= <- <-]|].
    destruct (_ =? _).
    + destruct (negb _); [intros [= <- <-]; by rewrite MaybeChange_pub|].
      intros ([r2 [loc err]] & H2%LogAppend_pub & H3)%bind_Some. rewrite MaybeChange_pub in H2.
      destruct (negb _) in H3; [injection H3 as <- <-|apply IH in H3; rewrite H3]; exact H2.
    + intros H%IH. rewrite H. by rewrite MaybeChange_pub.
  - simpl. destruct (_ =? _); [|apply IH].
    destruct (negb _); [by intros [= <- <-]|].
    intros ([r2 [loc err]] & H2%LogAppend_pub & H3)%bind_Some.
    destruct (negb _) in H3; [injection H3 as <- <-|apply IH in H3; rewrite H3]; exact H2.
Qed.

Lemma UpdateMerkleTree_pub r r' : UpdateMerkleTree r = Some r' -> pub r' = pub r.
Proof.
  unfold UpdateMerkleTree. intros (h1 & _ & (t1 & _ & (h2 & _ & (t2 & _ & [= <-])%bind_Some)%bind_Some)%bind_Some)%bind_Some.
  done.
Qed.

Lemma follower_advance_pub r lc lp r' go : follower_advance r lc lp = Some (r', go) -> pub r' = pub r.
Proof.
  unfold follower_advance. intros (err & _ & H)%bind_Some. destruct (negb _) in H; [by injection H as <- <-|].
  apply bind_Some in H as (r2 & H2 & H3). injection H3 as <- <-.
  assert (forall x : Raft, pub (if promise_idx_ x <? lp then {| x with promise_idx_ := lp |} else x) = pub x) as Hp
    by (intros x; by destruct (promise_idx_ x <? lp)).
  destruct (_ || _) in H2; [apply UpdateMerkleTree_pub in H2; rewrite H2|injection H2 as <-]; rewrite Hp;
    (destruct (commit_idx_ r <? lc); [by rewrite MaybeChange_pub|done]).
Qed.

Lemma MaybeAdvanceCommitIndex_pub r r' : MaybeAdvanceCommitIndex r = Some r' -> pub r' = pub r.
Proof.
  unfold MaybeAdvanceCommitIndex. destruct (negb _); [by intros [= <-]|].
  intros (np & _ & (nc & _ & H)%bind_Some)%bind_Some.
  set (r1 := if promise_idx_ r <? np then _ else r) in H.
  assert (pub r1 = pub r) as H1 by (unfold r1; by destruct (promise_idx_ r <? np)).
  set (r2 := if commit_idx_ r1 <? nc then _ else r1) in H.
  assert (pub r2 = pub r) as H2.
  { unfold r2. destruct (commit_idx_ r1 <? nc); [|done]. by rewrite MaybeChange_pub. }
  clearbody r1 r2. by destruct (_ || _); injection H as <-.
Qed.

(** ** Sending *)
Lemma AppendEntries_ctl r p r' : AppendEntries r p = Some r' -> ctl r' = ctl r /\ quiet r r'.
Proof.
  assert (ctl r = ctl r /\ quiet r r) as Hself by auto using quiet_refl.
  unfold AppendEntries. destruct (negb _); [by intros [= <-]|].
  destruct (map_find _ p); [|by intros [= <-]]. destruct (_ && _ && _); [by intros [= <-]|].
  case_bool_decide; [by intros [= <-]|]. destruct (_ && negb _); [by intros [= <-]|].
  intros Heq. by apply AddSendableMessage_ctl in Heq.
Qed.

Lemma append_entries_to_ctl r ps r' : append_entries_to r ps = Some r' -> ctl r' = ctl r /\ quiet r r'.
Proof.
  revert r. induction ps as [|p ps IH]; intros r; simpl; [intros [= <-]; auto using quiet_refl|].
  intros (r1 & H1 & [H2 H3]%IH)%bind_Some.
  assert (ctl r1 = ctl r /\ quiet r r1) as [H4 H5].
  { case_bool_decide; [injection H1 as <-; auto using quiet_refl|by eapply AppendEntries_ctl]. }
  split; [congruence|by eapply quiet_trans].
Qed.

Lemma TryToRelinquishLeadership_ctl r r' :
  TryToRelinquishLeadership r = Some r' -> quiet r r' /\ (r' = r \/ role_ r' = FOLLOWER) /\
    me_ r' = me_ r /\ current_term_ r' = current_term_ r /\ voted_for_ r' = voted_for_ r /\
    super_majority_ r' = super_majority_ r.
Proof.
  unfold TryToRelinquishLeadership. destruct (List.find _ _).
  2: { intros [= <-]. split_and!; auto using quiet_refl. }
  intros (r1 & [H1 H1']%AddSendableMessage_ctl & ([t r2] & H2 & [= <-])%bind_Some)%bind_Some; [|done].
  unfold RandomElectionTimeout in H2. destruct (_ =? 0); [done|]. injection H2 as <- <-. simpl.
  unfold ctl in H1. injection H1 as E1 E2 E3 E4 E5 E6. split_and!; auto.
Qed.
End control.

Section outcome.
Context {T L : Type} `{!EqDecision L, !Countable L} {MO : MerkleOps T L} {MS : MerkleSpec T L}.
Context {RP : RaftPlatform} {RPL : RaftPlatformLaws}.
Notation Raft := (Raft T L).
Implicit Types r : Raft.

(** [v] voted for this candidate before the event, or the event delivered
    its vote [d] (voter and term). *)
Definition old_vote r r' (d : option (PeerID * TermId)) (v : PeerID) : Prop :=
  (current_term_ r' = current_term_ r /\ role_ r = CANDIDATE /\ v ∈ c_votes_granted (candidate_ r)) \/
  d = Some (v, current_term_ r').

(** Votes sent in the event are those of the replica's present term. *)
Definition votes_sent r r' : Prop :=
  exists new, sendable_messages_ r' = sendable_messages_ r ++ new /\
    Forall (fun m => granted m = true ->
      msg_term (sm_message m) = current_term_ r' /\ exists q, sm_to m = Some q /\ voted_for_ r' = Some q) new.

(** Before the replica looks at its own votes. *)
Record pre r r' (d : option (PeerID * TermId)) : Prop := {
  pr_sent : votes_sent r r';
  pr_cand : role_ r' = CANDIDATE -> forall v, v ∈ c_votes_granted (candidate_ r') ->
    v = me_ r' \/ old_vote r r' d v;
  pr_lead : role_ r' = LEADER -> role_ r = LEADER /\ current_term_ r' = current_term_ r }.

(** After the event. *)
Record outcome r r' (d : option (PeerID * TermId)) : Prop := {
  oc_sent : votes_sent r r';
  oc_cand : role_ r' = CANDIDATE -> forall v, v ∈ c_votes_granted (candidate_ r') ->
    v = me_ r' \/ old_vote r r' d v;
  oc_lead : role_ r' = LEADER ->
    (role_ r = LEADER /\ current_term_ r' = current_term_ r) \/
    exists vs, NoDup vs /\ vs ⊆ voting_replicas_ (membership r') /\
      membership_quorum_size r' <= Zlen vs /\ forall v, v ∈ vs -> v = me_ r' \/ old_vote r r' d v }.

Lemma pre_outcome r r' d : pre r r' d -> outcome r r' d.
Proof. intros []. split; auto. Qed.

Lemma quiet_sent r r1 r2 :
  votes_sent r r1 -> quiet r1 r2 -> current_term_ r2 = current_term_ r1 -> voted_for_ r2 = voted_for_ r1 ->
  votes_sent r r2.
Proof.
  intros (n1 & E1 & F1) (n2 & E2 & F2) Et Ev. exists (n1 ++ n2).
  split; [by rewrite E2, E1, app_assoc|]. apply Forall_app. rewrite Et, Ev. split; [done|].
  eapply Forall_impl; [exact F2|]. simpl. congruence.
Qed.

Lemma quiet_votes_sent r r' : quiet r r' -> votes_sent r r'.
Proof.
  intros (n & E & F). exists n. split; [done|]. eapply Forall_impl; [exact F|]. simpl. congruence.
Qed.

Lemma quorum_size_membership r1 r2 :
  membership r1 = membership r2 -> super_majority_ r1 = super_majority_ r2 ->
  membership_quorum_size r1 = membership_quorum_size r2.
Proof. intros E1 E2. unfold membership_quorum_size. by rewrite E1, E2. Qed.

(** Counting the votes and sending. *)
Lemma MaybeChangeStateAndSendMessages_ctl r r' :
  inv r -> last_idx (log_ r) + 2 < 2 ^ 64 -> MaybeChangeStateAndSendMessages r = Some r' ->
  quiet r r' /\ me_ r' = me_ r /\ current_term_ r' = current_term_ r /\ voted_for_ r' = voted_for_ r /\
  (role_ r' = CANDIDATE -> role_ r = CANDIDATE /\
     c_votes_granted (candidate_ r') = c_votes_granted (candidate_ r)) /\
  (role_ r' = LEADER -> role_ r = LEADER \/
     role_ r = CANDIDATE /\ membership r' = membership r /\
     membership_quorum_size r' <= Zlen (c_votes_granted (candidate_ r))).
Proof.
  intros Hi Hroom. unfold MaybeChangeStateAndSendMessages.
  destruct (MaybeBecomeLeader_spec r Hi Hroom)
    as (r1 & -> & Hi1 & Hst1 & _ & Et1 & Ev1 & Es1 & Em1 & Hcase). simpl.
  rewrite VerifyMerkleTree_OK by apply Hi1. simpl.
  destruct (MaybeAdvanceCommitIndex_spec r1 Hi1) as (r2 & Ead & Had & _). rewrite Ead. simpl.
  apply MaybeAdvanceCommitIndex_pub in Ead. pose proof (ad_membership _ _ Had) as Am.
  destruct (advanced_update _ _ Hi1 Had) as (t & Eup & _). rewrite Eup. simpl.
  set (r3 := {| r2 with merkle_ := t |}).
  assert (pub r3 = pub r1) as Hpub by exact Ead.
  intros (r4 & Eae & Htry)%bind_Some.
  pose proof (append_entries_to_data _ _ _ Eae) as Ed4. apply append_entries_to_ctl in Eae as [Ec4 Eq4].
  assert (membership r4 = membership r3) as Em4 by (by apply membership_same_data).
  unfold pub in Hpub. injection Hpub as P1 P2 P3 P4 P5 P6 P7.
  unfold ctl in Ec4. injection Ec4 as C1 C2 C3 C4 C5 C6.
  assert (quiet r r4) as Hq4.
  { eapply quiet_trans; [|exact Eq4]. apply quiet_refl. simpl. congruence. }
  assert (H4 : me_ r4 = me_ r /\ current_term_ r4 = current_term_ r /\ voted_for_ r4 = voted_for_ r /\
    role_ r4 = role_ r1 /\ c_votes_granted (candidate_ r4) = c_votes_granted (candidate_ r1) /\
    super_majority_ r4 = super_majority_ r).
  { pose proof (st_me _ _ Hst1). pose proof (st_super _ _ Hst1). split_and!; simpl in *; congruence. }
  destruct H4 as (M4 & T4 & V4 & R4 & K4 & S4).
  assert (Hlead : role_ r4 = LEADER -> role_ r = LEADER \/ role_ r = CANDIDATE /\ membership r4 = membership r /\
    membership_quorum_size r4 <= Zlen (c_votes_granted (candidate_ r))).
  { intros Hl. destruct Hcase as [[-> _]|(Hc & Hr1 & _ & Hq)]; [left; congruence|]. right.
    assert (membership r4 = membership r) as Em.
    { rewrite Em4. change (membership r3) with (membership r2). rewrite Am; [done|]. by rewrite Hr1. }
    split_and!; [done|done|]. by rewrite (quorum_size_membership r4 r). }
  assert (Hcand : role_ r4 = CANDIDATE -> role_ r = CANDIDATE /\
    c_votes_granted (candidate_ r4) = c_votes_granted (candidate_ r)).
  { intros Hc4. destruct Hcase as [[-> _]|(_ & Hr1 & _)]; [split; congruence|congruence]. }
  destruct (_ && _); [|by injection Htry as <-].
  apply TryToRelinquishLeadership_ctl in Htry as (Q & [->|Hf] & M & Tm & V & _); [done|].
  split_and!; [by eapply quiet_trans|congruence|congruence|congruence|congruence|congruence].
Qed.

Lemma then_outcome r r1 r' d :
  inv r1 -> last_idx (log_ r1) + 2 < 2 ^ 64 -> pre r r1 d ->
  MaybeChangeStateAndSendMessages r1 = Some r' -> outcome r r' d.
Proof.
  intros Hi Hroom [P1 P2 P3] Heq.
  destruct (MaybeChangeStateAndSendMessages_ctl r1 r' Hi Hroom Heq) as (Q & M & Tm & V & Hc & Hl).
  assert (Hold : forall v, v = me_ r1 \/ old_vote r r1 d v -> v = me_ r' \/ old_vote r r' d v).
  { unfold old_vote. rewrite M, Tm. tauto. }
  split.
  - by eapply quiet_sent.
  - intros Hc' v Hv. destruct (Hc Hc') as [Hc1 Hk]. rewrite Hk in Hv. apply Hold, P2; done.
  - intros Hl'. destruct (Hl Hl') as [Hl1|(Hc1 & Em & Hq)].
    + left. destruct (P3 Hl1) as [? ?]. split; [done|congruence].
    + right. exists (c_votes_granted (candidate_ r1)).
      destruct (inv_core _ Hi) as [_ _ _ _ Hro]. unfold role_inv in Hro. rewrite Hc1 in Hro.
      destruct Hro as (_ & _ & Hs & Hsub). rewrite Em.
      split_and!; [by apply set_ok_NoDup|done|done|]. intros v Hv. by apply Hold, P2.
Qed.

(** ** Handlers *)
Lemma pre_same r r' d : ctl r' = ctl r -> quiet r r' -> pre r r' d.
Proof.
  intros E Q. unfold ctl in E. injection E as E1 E2 E3 E4 E5 E6.
  split; [by apply quiet_votes_sent| |by rewrite E5, E3].
  intros Hc v Hv. right. left. rewrite E6 in Hv. split_and!; congruence.
Qed.

Lemma pub_ctl r r' : pub r' = pub r -> ctl r' = ctl r /\ quiet r r'.
Proof.
  intros E. unfold pub in E. injection E as E1 E2 E3 E4 E5 E6 E7.
  split; [unfold ctl; congruence|by apply quiet_refl].
Qed.

Lemma pre_pub r r' d : pub r' = pub r -> pre r r' d.
Proof. intros [? ?]%pub_ctl. by apply pre_same. Qed.

Lemma pre_follower r r' d : role_ r' = FOLLOWER -> votes_sent r r' -> pre r r' d.
Proof. intros E Q. split; [done|congruence|congruence]. Qed.

(** After [UpdateTerm] the replica is as before, or a follower. *)
Lemma pre_after r r2 r3 d :
  pub r2 = pub r \/ (role_ r2 = FOLLOWER /\ sendable_messages_ r2 = sendable_messages_ r) ->
  pre r2 r3 d -> pre r r3 d.
Proof.
  intros Hcase [P1 P2 P3]. assert (sendable_messages_ r2 = sendable_messages_ r) as Es.
  { destruct Hcase as [E|[_ E]]; [unfold pub in E; by injection E|done]. }
  split.
  - destruct P1 as (new & E & F). exists new. by rewrite E, Es.
  - intros Hc v Hv. destruct (P2 Hc v Hv) as [?|Ho]; [by left|right].
    destruct Hcase as [E|[E _]].
    + unfold pub in E. injection E as E1 E2 E3 E4 E5 E6 E7. unfold old_vote in *.
      by rewrite <- E3, <- E5, <- E6.
    + destruct Ho as [(_ & Hr & _)|Hd]; [congruence|by right].
  - intros Hl. destruct (P3 Hl) as [R2 T2].
    destruct Hcase as [E|[E _]]; [|congruence]. unfold pub in E. injection E as E1 E2 E3 E4 E5 E6 E7.
    split; congruence.
Qed.

Lemma RandomElectionTimeout_pub r t r' : RandomElectionTimeout r = Some (t, r') -> pub r' = pub r.
Proof. unfold RandomElectionTimeout. destruct (_ =? 0); [done|]. by intros [= <- <-]. Qed.

Lemma UpdateTerm_ctl r msg r' :
  UpdateTerm r msg = Some r' ->
  pub r' = pub r \/ (role_ r' = FOLLOWER /\ sendable_messages_ r' = sendable_messages_ r).
Proof.
  unfold UpdateTerm. destruct (_ <=? _); [intros [= <-]; by left|].
  intros ([t r1] & H1 & [= <-])%bind_Some. right. split; [done|]. simpl.
  destruct (role_ _) in H1; [by injection H1 as <- <-..|].
  apply RandomElectionTimeout_pub in H1. unfold pub in H1. by injection H1.
Qed.

Lemma mark_seen_pub r from : pub (mark_seen r from) = pub r.
Proof. unfold mark_seen. case_bool_decide; [|done]. by destruct (map_find _ from). Qed.

Lemma HandleVoteRequest_pre r t m from r' d : HandleVoteRequest r t m from = Some r' -> pre r r' d.
Proof.
  unfold HandleVoteRequest. destruct (_ <? _); [intros [= <-]; by apply pre_pub|].
  match goal with |- context [kVoteResponse ?g] => set (grant := g) end.
  intros (r1 & H1 & Hadd)%bind_Some.
  assert (grant = false /\ pub r1 = pub r \/ grant = true /\ pub r1 = pub {| r with voted_for_ := Some from |})
    as Hr1.
  { destruct grant; [right|left; by injection H1 as <-]. split; [done|].
    apply bind_Some in H1 as ([t' r2] & H2%RandomElectionTimeout_pub & [= <-]). exact H2. }
  unfold AddSendableMessage in Hadd. simpl in Hadd. apply CHECK_Some in Hadd as [_ [= <-]].
  clearbody grant. clear H1.
  destruct Hr1 as [[-> E]|[-> E]]; unfold pub in E; injection E as E1 E2 E3 E4 E5 E6 E7;
    (split; simpl in *; [eexists; split; [by rewrite E7|]| |]).
  - by constructor.
  - intros Hc v Hv. rewrite E6 in Hv. right. left. split_and!; simpl; [congruence..|done].
  - intros Hl. split; congruence.
  - constructor; [|done]. intros _. split; [done|]. by exists from.
  - intros Hc v Hv. rewrite E6 in Hv. right. left. split_and!; simpl; [congruence..|done].
  - intros Hl. split; congruence.
Qed.

Lemma HandleVoteResponse_pre r t g from :
  pre r (HandleVoteResponse r t g from) (if g then Some (from, t) else None).
Proof.
  unfold HandleVoteResponse. destruct (t =? current_term_ r) eqn:Et; simpl; [|by apply pre_pub].
  case_bool_decide as Hr; simpl; [|by apply pre_pub].
  destruct g; simpl; [|by apply pre_pub]. destruct (set_count _ from); [|by apply pre_pub].
  split; simpl; [by apply quiet_votes_sent, quiet_refl| |congruence].
  intros _ v [->|Hv]%elem_of_set_insert; right.
  - right. simpl. repeat f_equal. lia.
  - left. simpl. done.
Qed.

Lemma HandleAppendRequest_pre r t m from r' d : HandleAppendRequest r t m from = Some r' -> pre r r' d.
Proof.
  unfold HandleAppendRequest. destruct (_ <? _); [intros [= <-]; by apply pre_pub|].
  intros ([r1 go] & H1 & H2)%bind_Some.
  assert (pub r1 = pub r \/ (role_ r1 = FOLLOWER /\ sendable_messages_ r1 = sendable_messages_ r)) as Hr1.
  { destruct (_ =? _) in H1; [|injection H1 as <- <-; by left]. unfold append_request_role in H1.
    destruct (role_ r) eqn:Hrr; [..|injection H1 as <- <-; by left].
    all: apply bind_Some in H1 as ([t' r2] & H3%RandomElectionTimeout_pub & [= <- <-]).
    all: unfold pub in H3; injection H3 as E1 E2 E3 E4 E5 E6 E7; right; simpl in *; split; congruence. }
  apply (pre_after r r1); [done|].
  assert (Hadd : forall x y, AddSendableMessage x y = Some r' -> granted y = false -> pub x = pub r1 ->
    pre r1 r' d).
  { intros x y Ha Hg Hx. destruct (AddSendableMessage_ctl _ _ _ Ha Hg) as [A1 A2]. apply pub_ctl in Hx as [B1 B2].
    apply pre_same; [congruence|by eapply quiet_trans]. }
  destruct go; simpl in H2; [|injection H2 as <-; by apply pre_pub].
  destruct (_ || _) in H2; [by eapply Hadd|].
  apply CHECK_Some in H2 as [_ [_ [_ H2]%CHECK_Some]%CHECK_Some].
  apply bind_Some in H2 as ([r2 lp] & E2%append_request_entries_pub & H2).
  apply bind_Some in H2 as ([r3 go'] & E3%follower_advance_pub & H2).
  destruct go'; simpl in H2; [|injection H2 as <-; apply pre_pub; congruence].
  eapply Hadd; [done|done|congruence].
Qed.

Lemma HandleAppendResponse_pre r t m from r' d : HandleAppendResponse r t m from = Some r' -> pre r r' d.
Proof.
  intros H. apply pre_pub. revert H. unfold HandleAppendResponse.
  destruct (negb _); [by intros [= <-]|]. destruct (negb _); [by intros [= <-]|].
  destruct (map_find _ from); [|by intros [= <-]]. destruct (as_success m).
  - by intros [_ [= <-]]%CHECK_Some.
  - by intros [= <-].
Qed.

Lemma ElectionTimeout_pre r r' d : ElectionTimeout r = Some r' -> pre r r' d.
Proof.
  unfold ElectionTimeout. destruct (voting r); simpl.
  2: { intros ([t r1] & E%RandomElectionTimeout_pub & [= <-])%bind_Some. by apply pre_pub. }
  assert (Hel : forall r1, sendable_messages_ r1 = sendable_messages_ r ->
    ('(t, r2) ← RandomElectionTimeout (SetRole r1 CANDIDATE);
     let r3 := {| r2 with candidate_ := {| c_votes_granted := set_insert (me_ r2) []; c_election := t |} |} in
     m ← RequestVoteMessage r3; AddSendableMessage r3 (Broadcast m)) = Some r' -> pre r r' d).
  { intros r1 Es ([t r2] & E%RandomElectionTimeout_pub & (m & Hm & Ha)%bind_Some)%bind_Some.
    unfold pub in E. injection E as E1 E2 E3 E4 E5 E6 E7. simpl in *.
    apply AddSendableMessage_ctl in Ha as [A1 A2].
    2: { unfold RequestVoteMessage in Hm. apply CHECK_Some in Hm as [_ [= <-]]. done. }
    unfold ctl in A1. injection A1 as C1 C2 C3 C4 C5 C6. simpl in *. split.
    - apply quiet_votes_sent. eapply quiet_trans; [|exact A2]. apply quiet_refl. simpl. congruence.
    - intros _ v. rewrite C6. simpl. intros ->%list_elem_of_singleton. left. congruence.
    - congruence. }
  destruct (role_ r) eqn:Hr; [by apply Hel..|]. intros [= <-]. by apply pre_pub.
Qed.

(** The vote an event delivers. *)
Definition delivered (ev : Event) : option (PeerID * TermId) :=
  match ev with
  | EvReceive msg from =>
      match msg_inner msg with kVoteResponse true => Some (from, msg_term msg) | _ => None end
  | _ => None
  end.

Lemma dispatch_pre r msg from r' :
  dispatch r msg from = Some r' -> pre r r' (delivered (EvReceive msg from)).
Proof.
  unfold dispatch, delivered. destruct (msg_inner msg) as [|v|g|a|a|b].
  - intros [= <-]. by apply pre_pub.
  - apply HandleVoteRequest_pre.
  - destruct (ShouldDropResponseDueToStaleTerm r msg); [intros [= <-]; by apply pre_pub|].
    intros [= <-]. apply HandleVoteResponse_pre.
  - apply HandleAppendRequest_pre.
  - destruct (ShouldDropResponseDueToStaleTerm r msg); [intros [= <-]; by apply pre_pub|].
    apply HandleAppendResponse_pre.
  - destruct (ShouldDropResponseDueToStaleTerm r msg); [intros [= <-]; by apply pre_pub|].
    apply ElectionTimeout_pre.
Qed.

Lemma outcome_pub r r' d : pub r' = pub r -> outcome r r' d.
Proof. intros. by apply pre_outcome, pre_pub. Qed.

Lemma TimerTick_outcome r r' :
  inv r -> current_term_ r < 2 ^ 64 - 2 -> last_idx (log_ r) + 2 < 2 ^ 64 ->
  TimerTick r = Some r' -> outcome r r' None.
Proof.
  intros Hi Ht Hroom Heq.
  assert (exists r1, MaybeChangeStateAndSendMessages r1 = Some r' /\ light r r1 /\ pre r r1 None)
    as (r1 & Hr1 & Hl & Hp).
  { revert Heq. unfold TimerTick. intros (r1 & H1 & H2)%bind_Some. exists r1. split; [done|].
    assert (Hel : forall r0, light r r0 -> pub r0 = pub r -> ElectionTimeout r0 = Some r1 ->
      light r r1 /\ pre r r1 None).
    { intros r0 Hl0 Hp0 He. split.
      - destruct (then_election r r0 Hi Hl0) as (x & Ex & Hx); [|congruence].
        unfold pub in Hp0. injection Hp0 as _ _ -> _ _ _ _. done.
      - apply (pre_after r r0); [by left|]. by apply ElectionTimeout_pre. }
    pose proof Hi as [Hc _ _]. destruct (role_ r) eqn:Hr.
    - match type of H1 with context [ElectionTimeout ?x] => set (r0 := x) in H1 end.
      assert (Hl0 : light r r0) by (apply light_keep; try done; apply Hc).
      assert (pub r0 = pub r) by (unfold pub; simpl; by rewrite Hr).
      destruct (_ <=? 0); [by apply (Hel r0)|]. injection H1 as <-. split; [done|by apply pre_pub].
    - match type of H1 with context [ElectionTimeout ?x] => set (r0 := x) in H1 end.
      assert (Hl0 : light r r0).
      { apply light_keep; try done; [apply Hc|]. destruct Hc as [_ _ _ _ Hro].
        unfold role_inv in *. simpl. by rewrite Hr in *. }
      assert (pub r0 = pub r) by (unfold pub; simpl; by rewrite Hr).
      destruct (_ <=? 0); [by apply (Hel r0)|]. injection H1 as <-. split; [done|by apply pre_pub].
    - destruct (leader_tick r Hi Hr) as [L1 L2]. rewrite <- Hr in H1.
      destruct (_ <=? 0); injection H1 as <-; (split; [done|by apply pre_pub]). }
  eapply then_outcome; [| |exact Hp|exact Hr1]; [by eapply light_inv|].
  pose proof (gd_last _ _ _ (light_good _ _ Hi Hl)). lia.
Qed.

Lemma Receive_outcome r msg from r' :
  inv r -> event_ok r (EvReceive msg from) -> Receive r msg from = Some r' ->
  outcome r r' (delivered (EvReceive msg from)).
Proof.
  intros Hi (H1 & H2 & H3 & H4 & H5) Heq.
  destruct (Receive_stages r msg from Hi H1 H2 H3 H4 H5) as [E|(r1 & r2 & Eu & Ed & E & Hg)];
    rewrite E in Heq.
  - injection Heq as <-. by apply outcome_pub.
  - eapply then_outcome; [apply Hg| | |exact Heq]; [pose proof (gd_last _ _ _ Hg); lia|].
    apply (pre_after r (mark_seen r1 from)); [|by apply dispatch_pre].
    pose proof (mark_seen_pub r1 from) as Em. apply UpdateTerm_ctl in Eu as [Eu|[Eu1 Eu2]].
    + left. congruence.
    + right. unfold pub in Em. injection Em as E1 E2 E3 E4 E5 E6 E7. split; congruence.
Qed.

Lemma ResetPeer_outcome r id r' : ResetPeer r id = Some r' -> outcome r r' None.
Proof.
  unfold ResetPeer. destruct (negb _); [intros [= <-]; by apply outcome_pub|].
  destruct (role_ r); [intros [= <-]; by apply outcome_pub| |].
  - intros (m & Hm & Ha)%bind_Some. unfold RequestVoteMessage in Hm. apply CHECK_Some in Hm as [_ [= <-]].
    apply AddSendableMessage_ctl in Ha as [A1 A2]; [|done]. by apply pre_outcome, pre_same.
  - destruct (map_find _ id); intros [= <-]; by apply outcome_pub.
Qed.

Lemma RelinquishLeadership_outcome r r' :
  inv r -> last_idx (log_ r) + 3 < 2 ^ 64 -> RelinquishLeadership r = Some r' -> outcome r r' None.
Proof.
  intros Hi Hroom. unfold RelinquishLeadership. destruct (_ || _); [intros [= <-]; by apply outcome_pub|].
  destruct (ClientRequestInternal_spec r LogEntry_default (inv_core _ Hi))
    as (r1 & loc & err & Ec & Hg & _ & _ & Hres); [lia|done|done|].
  rewrite Ec. simpl. apply ClientRequestInternal_pub in Ec.
  pose proof (relinquish_light r1 (grown_inv _ _ Hi Hg)) as Hl.
  apply then_outcome; [by eapply light_inv; [eapply grown_inv|]| |by apply pre_pub].
  simpl. destruct (is_ok err); lia.
Qed.

Lemma LogRequest_outcome r e r' x :
  inv r -> event_ok r (EvLogRequest e) -> LogRequest r e = Some (r', x) -> outcome r r' None.
Proof.
  intros Hi (H1 & H2 & H3) Heq. revert Heq. unfold LogRequest.
  destruct (is_ok (log_request_check r e)) eqn:Eo; simpl; [|intros [= <- <-]; by apply outcome_pub].
  apply is_ok_spec in Eo. destruct (log_request_check_fits r e (inv_core _ Hi) H1 H2 Eo) as [Hwf Hfit].
  destruct (ClientRequestInternal_spec r e (inv_core _ Hi))
    as (r1 & loc & err & Ec & Hg & _ & _ & Hres); [lia|done|done|].
  rewrite Ec. simpl. apply ClientRequestInternal_pub in Ec.
  intros (r2 & E2 & [= <- <-])%bind_Some. revert E2.
  apply then_outcome; [by eapply grown_inv| |by apply pre_pub]. destruct (is_ok err); lia.
Qed.

Lemma handle_outcome r ev r' :
  inv r -> event_ok r ev -> ev <> EvSendableMessages -> handle r ev = Some r' ->
  outcome r r' (delivered ev).
Proof.
  intros Hi Hok Hne. destruct ev as [msg from| |id|c| |e| |]; simpl.
  - by apply Receive_outcome.
  - destruct Hok. by apply TimerTick_outcome.
  - apply ResetPeer_outcome.
  - intros [= <-]. by apply outcome_pub.
  - by apply RelinquishLeadership_outcome.
  - intros ([r1 x] & E & ->)%fmap_Some. by eapply LogRequest_outcome.
  - intros ([r1 x] & E & ->)%fmap_Some. apply outcome_pub. revert E. unfold TakeCommittedLog.
    destruct (_ <=? _); [by intros [= <- <-]|]. destruct (iter_Entry _ _); [|done]. by intros [= <- <-].
  - done.
Qed.
End outcome.
