(* ===== verification/RaftCluster.v ===== *)
(** * Clusters of replicas

    A cluster of replicas that exchange messages over an authenticated
    network: a message is delivered to the replica it is addressed to (or to
    anyone, for a broadcast), as coming from the replica that sent it, any
    number of times, in any order, or never.  Replicas join at any time and
    memberships change.  Two history variables record every vote cast and
    every election won; in one term, elections won under memberships whose
    quorums meet were won by one replica.  No replica of such a cluster aborts,
    what it promised survives, and its term and indices only grow. *)
From stdpp Require Import prelude gmap sorting.
From S2P Require Import Prelude Errors Containers Util RaftTypes RaftLog PeerId Membership Merkle MerkleProofs MerkleProps Raft RaftInv RaftStep RaftAppend RaftReceive RaftPublic RaftControl RaftExamples.

Section cluster.
Context {T L : Type} `{!EqDecision L, !Countable L} {MO : MerkleOps T L} {MS : MerkleSpec T L}.
Context {RP : RaftPlatform} {RPL : RaftPlatformLaws}.
Context (sm : Z).
Notation Raft := (Raft T L).
Implicit Types r : Raft.

Record Cluster := {
  replicas : gmap PeerID Raft;
  net : list (PeerID * SendableRaftMessage);
  votes : list (PeerID * TermId * PeerID);
  won : list (TermId * PeerID * Membership) }.
Implicit Types c : Cluster.

Definition cluster_empty : Cluster := {| replicas := ∅; net := []; votes := []; won := [] |}.

Definition vote_of (p : PeerID) r : list (PeerID * TermId * PeerID) :=
  match voted_for_ r with Some v => [(p, current_term_ r, v)] | None => [] end.

(** Whether [r'] has just won an election. *)
Definition still_leader (old : option Raft) r' : bool :=
  match old with
  | Some r => bool_decide (role_ r = LEADER) && (current_term_ r' =? current_term_ r)
  | None => false
  end.
Definition win_of (p : PeerID) (old : option Raft) r' : list (TermId * PeerID * Membership) :=
  if bool_decide (role_ r' = LEADER) && negb (still_leader old r')
  then [(current_term_ r', p, membership r')] else [].

(** The cluster after replica [p] has become [r']: its messages are sent. *)
Definition observe c (p : PeerID) r' : Cluster := {|
  replicas := <[p := (SendableMessages r').1]> (replicas c);
  net := net c ++ (pair p <$> (SendableMessages r').2);
  votes := vote_of p r' ++ votes c;
  won := win_of p (replicas c !! p) r' ++ won c |}.

Definition local_event (ev : Event) : Prop :=
  match ev with EvReceive _ _ | EvSendableMessages => False | _ => True end.

Inductive cstep c : Cluster -> Prop :=
  | cs_new p group merk mem log config cl r :
      replicas c !! p = None -> new_wf p merk mem log config cl sm ->
      Raft_new group p merk mem log config cl sm = Some r -> cstep c (observe c p r)
  | cs_event p r ev r' :
      replicas c !! p = Some r -> local_event ev -> event_ok r ev -> handle r ev = Some r' ->
      cstep c (observe c p r')
  | cs_receive p r from m r' :
      replicas c !! p = Some r -> (from, m) ∈ net c -> from <> p -> sm_to m = None \/ sm_to m = Some p ->
      current_term_ r < 2 ^ 64 - 2 -> msg_term (sm_message m) < 2 ^ 64 - 2 ->
      last_idx (log_ r) + msg_entries (sm_message m) + 2 < 2 ^ 64 ->
      Receive r (sm_message m) from = Some r' -> cstep c (observe c p r').

Inductive reachable : Cluster -> Prop :=
  | reach_empty : reachable cluster_empty
  | reach_step c c' : reachable c -> cstep c c' -> reachable c'.

(** ** The invariant *)
Record replica_ok (p : PeerID) r : Prop := {
  ro_inv : inv r;
  ro_me : me_ r = p;
  ro_super : super_majority_ r = sm;
  ro_sent : sendable_messages_ r = [] }.

(** A set of voters of [m] that is a quorum. *)
Definition is_quorum (m : Membership) (q : list PeerID) : Prop :=
  NoDup q /\ q ⊆ voting_replicas_ m /\ quorum_size (Zlen (voting_replicas_ m)) sm <= Zlen q.

Record cluster_inv c : Prop := {
  cl_replicas : forall p r, replicas c !! p = Some r -> replica_ok p r;
  cl_past : forall p t v, (p, t, v) ∈ votes c -> exists r, replicas c !! p = Some r /\
    (t < current_term_ r \/ t = current_term_ r /\ voted_for_ r = Some v);
  cl_present : forall p r v, replicas c !! p = Some r -> voted_for_ r = Some v ->
    (p, current_term_ r, v) ∈ votes c;
  cl_once : forall p t v1 v2, (p, t, v1) ∈ votes c -> (p, t, v2) ∈ votes c -> v1 = v2;
  cl_net : forall p m, (p, m) ∈ net c -> message_wf (sm_message m) /\
    (granted m = true -> exists q, sm_to m = Some q /\ (p, msg_term (sm_message m), q) ∈ votes c);
  cl_cand : forall p r v, replicas c !! p = Some r -> role_ r = CANDIDATE ->
    v ∈ c_votes_granted (candidate_ r) -> (v, current_term_ r, p) ∈ votes c;
  cl_won : forall t p m, (t, p, m) ∈ won c -> membership_good m /\
    exists q, is_quorum m q /\ forall v, v ∈ q -> (v, t, p) ∈ votes c;
  cl_leader : forall p r, replicas c !! p = Some r -> role_ r = LEADER ->
    exists m, (current_term_ r, p, m) ∈ won c }.

(** What a step of replica [p] to [r'] has to provide. *)
Record move c (p : PeerID) r' : Prop := {
  mv_inv : inv r';
  mv_me : me_ r' = p;
  mv_super : super_majority_ r' = sm;
  mv_durable : forall r, replicas c !! p = Some r -> durable r r';
  mv_sent : Forall (fun m => granted m = true ->
    msg_term (sm_message m) = current_term_ r' /\ exists q, sm_to m = Some q /\ voted_for_ r' = Some q)
    (sendable_messages_ r');
  mv_cand : role_ r' = CANDIDATE -> forall v, v ∈ c_votes_granted (candidate_ r') ->
    v = p \/ (v, current_term_ r', p) ∈ votes c;
  mv_lead : role_ r' = LEADER -> still_leader (replicas c !! p) r' = true \/
    exists q, is_quorum (membership r') q /\ forall v, v ∈ q -> v = p \/ (v, current_term_ r', p) ∈ votes c }.

Lemma flush_inv r : inv r -> inv (SendableMessages r).1.
Proof.
  intros [[? ? ? ? Hr] [[] ? ?] Hm]. split; [by split|by split|constructor].
Qed.

Lemma elem_of_vote_of p r q t v :
  (q, t, v) ∈ vote_of p r <-> q = p /\ t = current_term_ r /\ voted_for_ r = Some v.
Proof.
  unfold vote_of. destruct (voted_for_ r) as [w|]; [|split; [by intros ?%elem_of_nil|by intros (_ & _ & ?)]].
  rewrite list_elem_of_singleton. split; [by intros [= -> -> ->]|]. by intros (-> & -> & [= ->]).
Qed.

Lemma own_vote r p : inv r -> me_ r = p -> role_ r <> FOLLOWER -> voted_for_ r = Some p.
Proof.
  intros [[_ _ _ _ Hr] _ _] <- Hne. unfold role_inv in Hr. destruct (role_ r); [done|tauto|tauto].
Qed.

Section step.
Context (c : Cluster) (p : PeerID) (r' : Raft) (Hc : cluster_inv c) (Hm : move c p r').

Lemma votes_kept q t v : (q, t, v) ∈ votes c -> (q, t, v) ∈ votes (observe c p r').
Proof. intros. apply elem_of_app. by right. Qed.

Lemma own_new_vote v : voted_for_ r' = Some v -> (p, current_term_ r', v) ∈ votes (observe c p r').
Proof. intros Hv. apply elem_of_app. left. by apply elem_of_vote_of. Qed.

Lemma self_vote : role_ r' <> FOLLOWER -> (p, current_term_ r', p) ∈ votes (observe c p r').
Proof. intros Hr. apply own_new_vote, own_vote; [apply Hm|apply Hm|done]. Qed.

(** A vote [p] cast before is older than its present one, or the same. *)
Lemma old_own_vote t v :
  (p, t, v) ∈ votes c -> t < current_term_ r' \/ t = current_term_ r' /\ voted_for_ r' = Some v.
Proof.
  intros Hv. destruct (cl_past _ Hc _ _ _ Hv) as (r & Hr & Hcase).
  destruct (mv_durable _ _ _ Hm _ Hr) as [_ _ D1 D2 _ _ _ _ _].
  destruct Hcase as [?|[-> Hvf]]; [left; lia|].
  destruct (decide (current_term_ r' = current_term_ r)) as [E|]; [|left; lia].
  right. split; [done|]. by apply D2.
Qed.

Lemma step_past q t v :
  (q, t, v) ∈ votes (observe c p r') -> exists r, replicas (observe c p r') !! q = Some r /\
    (t < current_term_ r \/ t = current_term_ r /\ voted_for_ r = Some v).
Proof.
  intros [(-> & -> & Hv)%elem_of_vote_of|Hv]%elem_of_app; simpl.
  - rewrite lookup_insert_eq. eauto.
  - destruct (decide (q = p)) as [->|Hne]; [|rewrite lookup_insert_ne by done; by apply Hc].
    rewrite lookup_insert_eq. eexists. split; [done|]. simpl. by apply old_own_vote.
Qed.

Lemma step_once q t v1 v2 :
  (q, t, v1) ∈ votes (observe c p r') -> (q, t, v2) ∈ votes (observe c p r') -> v1 = v2.
Proof.
  intros [(-> & -> & H1)%elem_of_vote_of|H1]%elem_of_app [(E & Et & H2)%elem_of_vote_of|H2]%elem_of_app.
  - congruence.
  - apply old_own_vote in H2 as [?|[_ H2]]; [lia|congruence].
  - subst q t. apply old_own_vote in H1 as [?|[_ H1]]; [lia|congruence].
  - by eapply cl_once.
Qed.

Lemma step_net q m :
  (q, m) ∈ net (observe c p r') -> message_wf (sm_message m) /\
    (granted m = true -> exists x, sm_to m = Some x /\
       (q, msg_term (sm_message m), x) ∈ votes (observe c p r')).
Proof.
  intros [Hin|Hin]%elem_of_app.
  - destruct (cl_net _ Hc _ _ Hin) as [Hw Hg]. split; [done|]. intros (x & H1 & H2)%Hg.
    exists x. split; [done|by apply votes_kept].
  - apply list_elem_of_fmap in Hin as (m' & [= -> ->] & Hin). simpl in Hin. split.
    + pose proof (inv_msgs _ (mv_inv _ _ _ Hm)) as F. rewrite Forall_forall in F. by apply F.
    + pose proof (mv_sent _ _ _ Hm) as F. rewrite Forall_forall in F.
      intros (-> & x & H1 & H2)%(F _ Hin). exists x. split; [done|by apply own_new_vote].
Qed.

Lemma step_won t q m :
  (t, q, m) ∈ won (observe c p r') -> membership_good m /\
    exists x, is_quorum m x /\ forall v, v ∈ x -> (v, t, q) ∈ votes (observe c p r').
Proof.
  intros [Hin|Hin]%elem_of_app.
  - unfold win_of in Hin. destruct (_ && _) eqn:E; [|by apply elem_of_nil in Hin]. btrue.
    apply list_elem_of_singleton in Hin as [= -> -> ->]. split; [by apply membership_is_good, Hm|].
    destruct (mv_lead _ _ _ Hm) as [?|(x & Hx & Hv)]; [done|congruence|].
    exists x. split; [done|]. intros v [->|Hin]%Hv; [|by apply votes_kept].
    apply self_vote. congruence.
  - destruct (cl_won _ Hc _ _ _ Hin) as (Hg & x & Hx & Hv). split; [done|].
    exists x. split; [done|]. intros v Hin'. by apply votes_kept, Hv.
Qed.

Lemma step_leader q r :
  replicas (observe c p r') !! q = Some r -> role_ r = LEADER ->
  exists m, (current_term_ r, q, m) ∈ won (observe c p r').
Proof.
  simpl. destruct (decide (q = p)) as [->|Hne].
  - rewrite lookup_insert_eq. intros [= <-] Hl. simpl in *. unfold win_of. rewrite bool_decide_eq_true_2 by done.
    destruct (still_leader (replicas c !! p) r') eqn:E; simpl; [|eexists; left].
    unfold still_leader in E. destruct (replicas c !! p) as [r|] eqn:Hr; [|done]. btrue.
    destruct (cl_leader _ Hc _ _ Hr) as [m Hin]; [done|]. exists m. by replace (current_term_ r') with (current_term_ r) by lia.
  - rewrite lookup_insert_ne by done. intros Hr Hl. destruct (cl_leader _ Hc _ _ Hr Hl) as [m Hin].
    exists m. apply elem_of_app. by right.
Qed.

Lemma move_inv : cluster_inv (observe c p r').
Proof.
  split; [|exact step_past| |exact step_once|exact step_net| |exact step_won|exact step_leader].
  - intros q r. simpl. destruct (decide (q = p)) as [->|Hne].
    + rewrite lookup_insert_eq. intros [= <-]. split; [apply flush_inv, Hm|apply Hm|apply Hm|done].
    + rewrite lookup_insert_ne by done. apply Hc.
  - intros q r v. simpl. destruct (decide (q = p)) as [->|Hne].
    + rewrite lookup_insert_eq. intros [= <-]. apply own_new_vote.
    + rewrite lookup_insert_ne by done. intros. by apply votes_kept, Hc.
  - intros q r v. simpl. destruct (decide (q = p)) as [->|Hne].
    + rewrite lookup_insert_eq. intros [= <-]. simpl. intros Hr [->|Hin]%(mv_cand _ _ _ Hm Hr).
      * apply self_vote. congruence.
      * by apply votes_kept.
    + rewrite lookup_insert_ne by done. intros. apply votes_kept. by eapply cl_cand.
Qed.
End step.

(** ** Steps are moves *)
Lemma new_move c p group merk mem log config cl r :
  replicas c !! p = None -> new_wf p merk mem log config cl sm ->
  Raft_new group p merk mem log config cl sm = Some r -> move c p r.
Proof.
  intros Hn Hw Heq.
  destruct (Raft_new_spec group p merk mem log config cl sm Hw)
    as (r' & Heq' & Hi & Hme & _ & Hsm & Hmem & Hs & Hnc & Hlead).
  assert (r' = r) as -> by congruence. split; [done|done|done| | |done|].
  - intros r0 Hr0. congruence.
  - by rewrite Hs.
  - intros Hl. right. exists [p]. rewrite Hmem. apply Hlead in Hl. unfold is_quorum. rewrite Hl.
    split; [|intros v ->%list_elem_of_singleton; by left].
    split_and!; [apply NoDup_singleton|done|].
    destruct (quorum_size_bounds (Zlen [p]) sm); [done|apply Hw|lia].
Qed.

Lemma event_move c p r ev r' :
  cluster_inv c -> replicas c !! p = Some r -> event_ok r ev -> ev <> EvSendableMessages ->
  (forall v t, delivered ev = Some (v, t) -> (v, t, p) ∈ votes c) ->
  handle r ev = Some r' -> move c p r'.
Proof.
  intros Hc Hr Hok Hne Hd Heq. pose proof (cl_replicas _ Hc _ _ Hr) as [Hi Hme Hsm Hs].
  destruct (handle_spec r ev Hi Hok) as (r1 & Heq1 & Hi' & Hdu).
  assert (r1 = r') as -> by congruence.
  destruct (handle_outcome r ev r' Hi Hok Hne Heq) as [(new & Esent & Fsent) Hcand Hlead].
  assert (Hold : forall v, v = me_ r' \/ old_vote r r' (delivered ev) v ->
    v = p \/ (v, current_term_ r', p) ∈ votes c).
  { intros v [->|[(Et & Hrc & Hv)|Hdv]].
    - left. rewrite (du_me _ _ Hdu). done.
    - right. rewrite Et. by eapply cl_cand.
    - right. by apply Hd. }
  split; [done|by rewrite (du_me _ _ Hdu)|by rewrite (du_super _ _ Hdu)| | | |].
  - intros r0 Hr0. by assert (r0 = r) as -> by congruence.
  - by rewrite Esent, Hs.
  - auto.
  - intros Hl. destruct (Hlead Hl) as [[Hl0 Et]|(vs & V1 & V2 & V3 & V4)].
    + left. unfold still_leader. rewrite Hr, bool_decide_eq_true_2, Et by done. apply Z.eqb_refl.
    + right. exists vs. split; [|auto]. unfold membership_quorum_size in V3.
      rewrite (du_super _ _ Hdu), Hsm in V3. by split_and!.
Qed.

(** ** One replica over a run of the cluster *)
Lemma durable_flush r r' : durable r r' -> durable r (SendableMessages r').1.
Proof. by intros []. Qed.

Lemma observe_durable c p r' q r :
  move c p r' -> replicas c !! q = Some r ->
  exists r2, replicas (observe c p r') !! q = Some r2 /\ durable r r2.
Proof.
  intros Hm Hr. simpl. destruct (decide (q = p)) as [->|Hne].
  - rewrite lookup_insert_eq. eexists. split; [done|]. by apply durable_flush, (mv_durable _ _ _ Hm).
  - rewrite lookup_insert_ne by done. eauto using durable_refl.
Qed.

Lemma cstep_move c c' : cluster_inv c -> cstep c c' -> exists p r', c' = observe c p r' /\ move c p r'.
Proof.
  intros Hc [p group merk mem log config cl r Hn Hw Heq
            |p r ev r' Hr Hloc Hok Heq
            |p r from m r' Hr Hin Hne Hto Ht Hmt Hroom Heq].
  - exists p, r. split; [done|]. by eapply new_move.
  - exists p, r'. split; [done|]. eapply event_move; [done|done|done| | |done]; by destruct ev.
  - destruct (cl_net _ Hc _ _ Hin) as [Hw Hg]. pose proof (cl_replicas _ Hc _ _ Hr) as [Hi Hme _ _].
    exists p, r'. split; [done|].
    apply (event_move c p r (EvReceive (sm_message m) from)); [done|done| |done| |done].
    + simpl. split_and!; [done|congruence|done|done|done].
    + intros v t Hd. simpl in Hd. destruct (msg_inner (sm_message m)) as [| |[]| | |] eqn:Em; [done..| |done|done|done|done].
      injection Hd as -> <-. destruct Hg as (q & Hq & Hv); [unfold granted; by rewrite Em|].
      assert (q = p) as -> by (destruct Hto; congruence). done.
Qed.

Lemma cstep_inv c c' : cluster_inv c -> cstep c c' -> cluster_inv c'.
Proof. intros Hc Hs. destruct (cstep_move c c' Hc Hs) as (p & r' & -> & Hm). by apply move_inv. Qed.

Lemma reachable_inv c : reachable c -> cluster_inv c.
Proof.
  induction 1 as [|c c' _ IH Hs]; [|by eapply cstep_inv].
  split; simpl; try (intros * ?%elem_of_nil; done); by intros *; rewrite lookup_empty.
Qed.

(** Replicas stay, and keep what is durable. *)
Lemma run_durable c c' p r :
  rtc cstep c c' -> cluster_inv c -> replicas c !! p = Some r ->
  exists r', replicas c' !! p = Some r' /\ inv r' /\ durable r r'.
Proof.
  intros Hrun. revert r. induction Hrun as [c|c1 c2 c3 Hs _ IH]; intros r Hc Hr.
  - exists r. split_and!; [done|by apply (cl_replicas _ Hc _ _ Hr)|apply durable_refl].
  - destruct (cstep_move c1 c2 Hc Hs) as (q & r2 & -> & Hm).
    destruct (observe_durable c1 q r2 p r Hm Hr) as (r1 & Hr1 & Hd1).
    destruct (IH r1 (move_inv c1 q r2 Hc Hm) Hr1) as (r' & Hr' & Hi & Hd). eauto using durable_trans.
Qed.

(** Memberships whose quorums meet: the same, or one an accepted successor of
    the other. *)
Definition related (m1 m2 : Membership) : Prop :=
  m1 = m2 \/ (exists l, ValidProgressionForLeader l m1 m2 sm = OK) \/
  (exists l, ValidProgressionForLeader l m2 m1 sm = OK).

Lemma good_size m : membership_good m -> Zlen (voting_replicas_ m) < 2 ^ 62.
Proof.
  intros [[H1 H2 H3 _] _ Hs].
  assert (Zlen (voting_replicas_ m) <= Zlen (all_replicas_ m)); [|lia].
  unfold Zlen. apply inj_le. apply NoDup_subset_length; [by apply set_ok_NoDup|done].
Qed.

Lemma progression_meet l m1 m2 q1 q2 :
  0 <= sm < 2 ^ 62 -> membership_good m1 -> membership_good m2 ->
  ValidProgressionForLeader l m1 m2 sm = OK -> is_quorum m1 q1 -> is_quorum m2 q2 ->
  exists p, p ∈ q1 /\ p ∈ q2.
Proof.
  intros Hs G1 G2 Hv (N1 & S1 & L1) (N2 & S2 & L2).
  pose proof (good_size _ G1). pose proof (good_size _ G2). destruct G1 as [K1 V1 _], G2 as [K2 V2 _].
  destruct (ValidProgression_inv l m1 m2 sm K1 (mem_all_ok _ K2) (mem_voting_ok _ K2) Hv) as (_ & _ & Hd & _).
  eapply (one_change_quorums_meet (voting_replicas_ m1) (voting_replicas_ m2)); eauto;
    [apply K1|apply K2].
Qed.

Lemma related_meet m1 m2 q1 q2 :
  0 <= sm < 2 ^ 62 -> membership_good m1 -> membership_good m2 -> related m1 m2 ->
  is_quorum m1 q1 -> is_quorum m2 q2 -> exists p, p ∈ q1 /\ p ∈ q2.
Proof.
  intros Hs G1 G2 [->|[[l Hv]|[l Hv]]] Q1 Q2.
  - destruct Q1 as (N1 & S1 & L1), Q2 as (N2 & S2 & L2). pose proof (good_size _ G2).
    destruct G2 as [[_ K _ _] V _]. pose proof (Zlen_pos _ V).
    pose proof (quorum_overlap (Zlen (voting_replicas_ m2)) sm).
    apply (quorums_meet (voting_replicas_ m2)); [by apply set_ok_NoDup|done..|lia].
  - exact (progression_meet l m1 m2 q1 q2 Hs G1 G2 Hv Q1 Q2).
  - destruct (progression_meet l m2 m1 q2 q1 Hs G2 G1 Hv Q2 Q1) as (p & ? & ?). eauto.
Qed.
End cluster.

(** ** An executable schedule *)
Inductive Action :=
  | ANew (p : PeerID)
  | ATick (p : PeerID)
  | ALog (p : PeerID) (d : bytes)
  | ATake (p : PeerID)
  | ADeliver (p : PeerID) (i : nat).

Notation ExCluster := (Cluster (T := Tree) (L := nat)).

Definition exec (c : ExCluster) (a : Action) : option ExCluster :=
  match a with
  | ANew p =>
      if replicas c !! p is None then
        r ← Raft_new 7 p Tree_new ex_three (Log_new 100000) ex_config false 0; Some (observe c p r)
      else None
  | ATick p =>
      r ← replicas c !! p;
      if (current_term_ r <? 2 ^ 64 - 2) && (last_idx (log_ r) + 2 <? 2 ^ 64)
      then r' ← TimerTick r; Some (observe c p r') else None
  | ALog p d =>
      r ← replicas c !! p;
      if last_idx (log_ r) + 3 <? 2 ^ 64
      then r' ← handle r (EvLogRequest (ex_data d)); Some (observe c p r') else None
  | ATake p => r ← replicas c !! p; r' ← handle r EvTakeCommittedLog; Some (observe c p r')
  | ADeliver p i =>
      r ← replicas c !! p; '(from, m) ← net c !! i;
      if bool_decide (from <> p) && bool_decide (sm_to m = None \/ sm_to m = Some p) &&
         ((current_term_ r <? 2 ^ 64 - 2) && (msg_term (sm_message m) <? 2 ^ 64 - 2) &&
          (last_idx (log_ r) + msg_entries (sm_message m) + 2 <? 2 ^ 64))
      then r' ← Receive r (sm_message m) from; Some (observe c p r') else None
  end.

Fixpoint exec_all (c : ExCluster) (acts : list Action) : option ExCluster :=
  match acts with [] => Some c | a :: rest => c' ← exec c a; exec_all c' rest end.

Lemma exec_cstep c a c' : exec c a = Some c' -> cstep 0 c c'.
Proof.
  destruct a as [p|p|p d|p|p i]; cbn [exec].
  - destruct (replicas c !! p) eqn:E; [done|].
    intros (r & Hr & [= <-])%bind_Some. eapply cs_new; [done| |exact Hr].
    by apply ex_new_wf; [apply ex_three_good|].
  - intros (r & Hr & H)%bind_Some. destruct (_ && _) eqn:E; [|done].
    apply andb_true_iff in E as [E1%Z.ltb_lt E2%Z.ltb_lt].
    apply bind_Some in H as (r' & Ht & [= <-]).
    by apply (cs_event 0 c p r EvTimerTick r').
  - intros (r & Hr & H)%bind_Some. destruct (_ <? _) eqn:E; [|done]. apply Z.ltb_lt in E.
    apply bind_Some in H as (r' & Ht & [= <-]).
    by apply (cs_event 0 c p r (EvLogRequest (ex_data d)) r').
  - intros (r & Hr & (r' & Ht & [= <-])%bind_Some)%bind_Some.
    by apply (cs_event 0 c p r EvTakeCommittedLog r').
  - intros (r & Hr & ([from m] & Hm & H)%bind_Some)%bind_Some. destruct (_ && _) eqn:E; [|done].
    repeat (apply andb_true_iff in E as [? E] || apply andb_true_iff in H0 as [? H0]).
    apply bind_Some in H as (r' & Ht & [= <-]).
    repeat match goal with
    | H : bool_decide _ = true |- _ => apply bool_decide_eq_true in H
    | H : (_ <? _) = true |- _ => apply Z.ltb_lt in H
    | H : _ && _ = true |- _ => apply andb_true_iff in H as [? ?]
    end.
    eapply cs_receive; [exact Hr|by eapply list_elem_of_lookup_2|done..].
Qed.

Lemma exec_all_reachable acts c c' : reachable 0 c -> exec_all c acts = Some c' -> reachable 0 c'.
Proof.
  revert c. induction acts as [|a acts IH]; simpl; intros c Hc; [by intros [= <-]|].
  intros (c1 & H1 & H2)%bind_Some. eapply IH; [|exact H2]. eapply reach_step; [done|by apply exec_cstep in H1].
Qed.

(** Replica 1 times out, replica 2 gives it its vote, the vote arrives. *)
Definition ex_schedule : list Action :=
  [ANew (example_peer 1); ANew (example_peer 2)] ++ replicate 20 (ATick (example_peer 1)) ++
  [ADeliver (example_peer 2) 0; ADeliver (example_peer 1) 1].

Lemma exec_all_run acts c c' : exec_all c acts = Some c' -> rtc (cstep 0) c c'.
Proof.
  revert c. induction acts as [|a acts IH]; simpl; intros c; [by intros [= <-]|].
  intros (c1 & H1 & H2)%bind_Some. eapply rtc_l; [by apply exec_cstep in H1|by apply IH].
Qed.

(** Replica 1 logs an entry and replicates it to replica 2, which promises it
    ([ex_promising]); then the leader commits it, an old request is delivered
    again, the commit reaches replica 2, and it applies the entry
    ([ex_committing]). *)
Definition ex_promising : list Action :=
  ex_schedule ++
  [ALog (example_peer 1) [5]; ADeliver (example_peer 2) 2; ADeliver (example_peer 1) 4;
   ADeliver (example_peer 2) 5; ADeliver (example_peer 1) 6; ADeliver (example_peer 2) 7].
Definition ex_committing : list Action :=
  [ADeliver (example_peer 1) 8; ADeliver (example_peer 2) 5; ADeliver (example_peer 2) 9;
   ATake (example_peer 2); ATake (example_peer 2)].

Definition indices (r : ExRaft) : Role * list Z :=
  (role_ r, [current_term_ r; last_idx (log_ r); promise_idx_ r; commit_idx_ r; last_applied_ r]).

Definition ex_cluster (acts : list Action) : ExCluster := default cluster_empty (exec_all cluster_empty acts).
Definition ex_replica (n : Z) (acts : list Action) : option ExRaft := replicas (ex_cluster acts) !! example_peer n.

Lemma ex_cluster_reachable acts : reachable 0 (ex_cluster acts).
Proof.
  unfold ex_cluster. destruct (exec_all cluster_empty acts) as [c|] eqn:E; [|apply reach_empty].
  exact (exec_all_reachable acts _ c (reach_empty 0) E).
Qed.

Lemma exec_all_app acts1 acts2 c : exec_all c (acts1 ++ acts2) = c' ← exec_all c acts1; exec_all c' acts2.
Proof.
  revert c. induction acts1 as [|a acts1 IH]; intros c; [done|]. cbn [app exec_all].
  destruct (exec c a) as [c1|]; [|done]. apply IH.
Qed.

Lemma ex_promised :
  bool_decide (is_Some (exec_all cluster_empty (ex_promising ++ ex_committing))) = true /\
  indices <$> ex_replica 2 ex_promising = Some (FOLLOWER, [1; 2; 2; 1; 0]) /\
  (r ← ex_replica 2 ex_promising; entry_inner <$> log_at (log_ r) 2) = Some (kData [5]) /\
  indices <$> ex_replica 2 (ex_promising ++ ex_committing) = Some (FOLLOWER, [1; 2; 2; 2; 2]).
Proof. split_and!; vm_compute; reflexivity. Qed.

Lemma ex_commits : rtc (cstep 0) (ex_cluster ex_promising) (ex_cluster (ex_promising ++ ex_committing)).
Proof.
  destruct ex_promised as [[c Hc]%bool_decide_eq_true_1 _]. unfold ex_cluster at 2. rewrite Hc.
  rewrite exec_all_app in Hc. unfold ex_cluster. apply bind_Some in Hc as (c1 & -> & Hc). by apply exec_all_run in Hc.
Qed.

(** A response no replica sends: it claims a promise beyond its match.
    [ValidateReceivedMessage] accepts it from voters, and two of them take the
    leader's commit index beyond its log, so that its third
    [TakeCommittedLog] aborts. *)
Definition forged (r : ExRaft) : RaftMessage := {|
  msg_group := group_ r; msg_term := current_term_ r;
  msg_inner := kAppendResponse {|
    as_success := true; as_match_idx := 1; as_last_log_idx := 9; as_promise_idx := 9;
    as_match_hash_chain := default [] (hash_chain <$> log_at (log_ r) 1) |} |}.
Definition ex_forged : option ExRaft :=
  r ← ex_replica 1 ex_promising; r' ← Receive r (forged r) (example_peer 2);
  r' ← Receive r' (forged r) (example_peer 3); r' ← handle r' EvTakeCommittedLog; handle r' EvTakeCommittedLog.

Lemma forged_promise_aborts :
  (r ← ex_replica 1 ex_promising; ValidateReceivedMessage r (forged r) (example_peer 2)) = Some OK /\
  indices <$> ex_forged = Some (LEADER, [1; 2; 2; 9; 2]) /\
  (r ← ex_forged; indices <$> handle r EvTakeCommittedLog) = None.
Proof. split_and!; vm_compute; reflexivity. Qed.

Lemma ex_elected :
  exists c, exec_all cluster_empty ex_schedule = Some c /\ won c = [(1, example_peer 1, ex_three)].
Proof. eexists. split; vm_compute; reflexivity. Qed.

(** ** Properties *)

(** C1: Election safety.  In every cluster that can be reached, by any
    interleaving of ticks, requests, membership changes and deliveries of
    messages (delayed, duplicated, reordered or lost), two elections of the
    same term won under the same membership, or under memberships of which one
    is an accepted successor of the other, were won by the same replica; and
    every replica in the leader role has won an election in its term. *)
Theorem election_safety {T L : Type} `{!EqDecision L, !Countable L} {MO : MerkleOps T L}
    {MS : MerkleSpec T L} {RP : RaftPlatform} {RPL : RaftPlatformLaws} (sm : Z)
    (c : Cluster (T := T) (L := L)) :
  0 <= sm < 2 ^ 62 -> reachable sm c ->
  (forall t p1 m1 p2 m2, (t, p1, m1) ∈ won c -> (t, p2, m2) ∈ won c -> related sm m1 m2 -> p1 = p2) /\
  (forall p r, replicas c !! p = Some r -> role_ r = LEADER -> exists m, (current_term_ r, p, m) ∈ won c).
Proof.
  intros Hs Hr%reachable_inv. split; [|apply Hr].
  intros t p1 m1 p2 m2 H1 H2 Hm.
  destruct (cl_won _ _ Hr _ _ _ H1) as (G1 & q1 & Q1 & V1).
  destruct (cl_won _ _ Hr _ _ _ H2) as (G2 & q2 & Q2 & V2).
  destruct (related_meet sm m1 m2 q1 q2 Hs G1 G2 Hm Q1 Q2) as (v & I1 & I2).
  by eapply (cl_once _ _ Hr v t); [apply V1|apply V2].
Qed.

Lemma election_safety_witness :
  exists c : ExCluster, won c = [(1, example_peer 1, ex_three)] /\
    (forall p m, (1, p, m) ∈ won c -> related 0 ex_three m -> example_peer 1 = p).
Proof.
  destruct ex_elected as (c & Hc & Hw). exists c. split; [exact Hw|]. intros p m Hp Hm.
  refine (proj1 (election_safety 0 c _ (exec_all_reachable ex_schedule _ c (reach_empty 0) Hc))
    1 (example_peer 1) ex_three p m _ Hp Hm); [lia|]. rewrite Hw. left.
Defined.

(** A message that is on its way to [p] from another replica. *)
Definition deliverable {T L : Type} (c : Cluster (T := T) (L := L)) (p from : PeerID) (m : SendableRaftMessage) : Prop :=
  (from, m) ∈ net c /\ from <> p /\ (sm_to m = None \/ sm_to m = Some p).
(** Room for the message's term and entries in 64 bits. *)
Definition message_fits {T L : Type} (r : Raft T L) (m : RaftMessage) : Prop :=
  current_term_ r < 2 ^ 64 - 2 /\ msg_term m < 2 ^ 64 - 2 /\ last_idx (log_ r) + msg_entries m + 2 < 2 ^ 64.

(** C5: replicas never abort.  In every cluster that can be reached by replicas
    that run this code, each replica can take every message another replica
    has sent to it (delayed, repeated, reordered) and every call of the core
    whose arguments are in range, as long as terms and indices fit 64 bits:
    no [CHECK] fails and no read is out of range, its invariant holds again,
    and the cluster it leads to is reachable. *)
Theorem raft_never_aborts {T L : Type} `{!EqDecision L, !Countable L} {MO : MerkleOps T L}
    {MS : MerkleSpec T L} {RP : RaftPlatform} {RPL : RaftPlatformLaws} (sm : Z)
    (c : Cluster (T := T) (L := L)) p r :
  reachable sm c -> replicas c !! p = Some r ->
  inv r /\
  (forall from m, deliverable c p from m -> message_fits r (sm_message m) ->
     exists r', Receive r (sm_message m) from = Some r' /\ inv r' /\ reachable sm (observe c p r')) /\
  (forall ev, local_event ev -> event_ok r ev ->
     exists r', handle r ev = Some r' /\ inv r' /\ reachable sm (observe c p r')).
Proof.
  intros Hc Hr. pose proof (reachable_inv sm c Hc) as Hinv. destruct (cl_replicas _ _ Hinv _ _ Hr) as [Hi Hme _ _].
  split; [done|]. split.
  - intros from m (Hin & Hne & Hto) (F1 & F2 & F3). destruct (cl_net _ _ Hinv _ _ Hin) as [Hw _].
    destruct (handle_spec r (EvReceive (sm_message m) from) Hi) as (r' & Heq & Hi' & _); [by split_and!; congruence || done|].
    exists r'. split_and!; [done|done|]. eapply reach_step; [done|]. by eapply cs_receive.
  - intros ev Hl Hok. destruct (handle_spec r ev Hi Hok) as (r' & Heq & Hi' & _).
    exists r'. split_and!; [done|done|]. eapply reach_step; [done|]. by eapply cs_event.
Qed.

(** C2: promised entries survive.  In a cluster that can be reached, an entry
    that a replica stores at or below its promise index is still there,
    unchanged, however the cluster goes on (calls, elections, membership
    changes, and deliveries of messages in any order and number), or the
    replica has applied an entry behind it (and may have dropped it). *)
Theorem promised_entries_survive {T L : Type} `{!EqDecision L, !Countable L} {MO : MerkleOps T L}
    {MS : MerkleSpec T L} {RP : RaftPlatform} {RPL : RaftPlatformLaws} (sm : Z)
    (c c' : Cluster (T := T) (L := L)) p r idx e :
  reachable sm c -> rtc (cstep sm) c c' -> replicas c !! p = Some r ->
  log_at (log_ r) idx = Some e -> idx <= promise_idx_ r ->
  exists r', replicas c' !! p = Some r' /\ (log_at (log_ r') idx = Some e \/ idx < last_applied_ r').
Proof.
  intros Hc Hrun Hr He Hidx. pose proof (reachable_inv sm c Hc) as Hinv.
  pose proof (ro_inv _ _ _ (cl_replicas _ _ Hinv _ _ Hr)) as Hi.
  destruct (run_durable sm c c' p r Hrun Hinv Hr) as (r' & Hr' & Hi' & Hd). exists r'. split; [done|].
  assert (1 <= idx).
  { assert (is_Some (log_at (log_ r) idx)) as Hs by eauto.
    apply log_at_is_Some in Hs; [|by apply last_idx_inv].
    pose proof (log_ok_oldest _ (last_idx_inv _ Hi)). lia. }
  destruct (decide (oldest_stored_idx_ (log_ r') <= idx)).
  - left. rewrite (du_log _ _ Hd) by lia. done.
  - right. destruct Hi' as [[[_ _ _ _ _ Ho _ _] _ _ _ _] _ _]. lia.
Qed.

(** C15: term, vote and indices only go forward.  However a cluster that can
    be reached goes on, the term and the applied, commit and promise indices
    of each replica never decrease and keep their order, and within a term
    its vote never changes. *)
Theorem raft_monotone {T L : Type} `{!EqDecision L, !Countable L} {MO : MerkleOps T L}
    {MS : MerkleSpec T L} {RP : RaftPlatform} {RPL : RaftPlatformLaws} (sm : Z)
    (c c' : Cluster (T := T) (L := L)) p r :
  reachable sm c -> rtc (cstep sm) c c' -> replicas c !! p = Some r ->
  exists r', replicas c' !! p = Some r' /\
    current_term_ r <= current_term_ r' /\ last_applied_ r <= last_applied_ r' /\
    commit_idx_ r <= commit_idx_ r' /\ promise_idx_ r <= promise_idx_ r' /\
    last_applied_ r' <= commit_idx_ r' <= promise_idx_ r' /\ promise_idx_ r' <= last_idx (log_ r') /\
    (current_term_ r' = current_term_ r -> forall v, voted_for_ r = Some v -> voted_for_ r' = Some v).
Proof.
  intros Hc Hrun Hr. destruct (run_durable sm c c' p r Hrun (reachable_inv sm c Hc) Hr) as (r' & Hr' & Hi & [D1 D0 D2 D3 D4 D5 D6 D7 D8]).
  exists r'. destruct Hi as [[[I1 I2 I3 I4 I5 _ _ _] _ _ _ _] _ _]. split_and!; done.
Qed.

(** ** Examples *)

(** Replica 2 takes an append request for the second time. *)
Lemma raft_never_aborts_witness :
  exists r from m r', ex_replica 2 ex_promising = Some r /\
    net (ex_cluster ex_promising) !! 5%nat = Some (from, m) /\ from = example_peer 1 /\ msg_entries (sm_message m) = 1 /\
    Receive r (sm_message m) from = Some r' /\ inv r' /\ (exists r2, handle r EvTimerTick = Some r2 /\ inv r2).
Proof.
  assert (Er : indices <$> ex_replica 2 ex_promising = Some (FOLLOWER, [1; 2; 2; 1; 0])) by (destruct ex_promised as (_ & H & _); exact H).
  assert (Em : (fun x => (x.1, sm_to x.2, msg_term (sm_message x.2), msg_entries (sm_message x.2))) <$> net (ex_cluster ex_promising) !! 5%nat
    = Some (example_peer 1, Some (example_peer 2), 1, 1)) by (vm_compute; reflexivity).
  destruct (ex_replica 2 ex_promising) as [r|] eqn:Hr; [|discriminate Er]. injection Er as _ Ht Hl _ _ _.
  destruct (net (ex_cluster ex_promising) !! 5%nat) as [[from m]|] eqn:Hm; [|discriminate Em]. injection Em as -> Hto Hmt Hme.
  destruct (raft_never_aborts 0 (ex_cluster ex_promising) (example_peer 2) r (ex_cluster_reachable _) Hr) as (_ & Hrec & Hev).
  destruct (Hrec (example_peer 1) m) as (r' & H1 & H2 & _).
  { split; [exact (list_elem_of_lookup_2 _ _ _ Hm)|]. split; [discriminate|right; exact Hto]. }
  { unfold message_fits. rewrite Ht, Hl, Hmt, Hme. repeat split. }
  destruct (Hev EvTimerTick) as (r2 & H3 & H4 & _); [exact I|cbn [event_ok]; rewrite Ht, Hl; repeat split|].
  exists r, (example_peer 1), m, r'. split; [reflexivity|]. split; [reflexivity|]. split; [reflexivity|]. split; [exact Hme|].
  split; [exact H1|]. split; [exact H2|]. exists r2. split; [exact H3|exact H4].
Defined.

Lemma promised_entries_survive_witness :
  exists r1 r2 e, ex_replica 2 ex_promising = Some r1 /\ commit_idx_ r1 = 1 /\
    log_at (log_ r1) 2 = Some e /\ entry_inner e = kData [5] /\
    ex_replica 2 (ex_promising ++ ex_committing) = Some r2 /\ last_applied_ r2 = 2 /\ log_at (log_ r2) 2 = Some e.
Proof.
  destruct ex_promised as (_ & H1 & He & H2). pose proof ex_commits as Hrun.
  destruct (ex_replica 2 ex_promising) as [r1|] eqn:Hr1; [|discriminate H1]. injection H1 as _ _ _ Hp Hc _.
  cbn [mbind option_bind] in He. destruct (log_at (log_ r1) 2) as [e|] eqn:Hl; [|discriminate He]. injection He as He.
  destruct (promised_entries_survive 0 (ex_cluster ex_promising) (ex_cluster (ex_promising ++ ex_committing)) (example_peer 2) r1 2 e
    (ex_cluster_reachable _) Hrun Hr1 Hl) as (r2 & Hr2 & Hcase); [rewrite Hp; discriminate|].
  unfold ex_replica in H2. rewrite Hr2 in H2. injection H2 as _ _ _ _ _ Ha.
  exists r1, r2, e. split; [reflexivity|]. split; [exact Hc|]. split; [exact Hl|]. split; [exact He|].
  split; [exact Hr2|]. split; [exact Ha|].
  destruct Hcase as [Hcase|Hlt]; [exact Hcase|]. rewrite Ha in Hlt. discriminate Hlt.
Defined.

Lemma raft_monotone_witness :
  exists r1 r2, ex_replica 2 ex_promising = Some r1 /\ ex_replica 2 (ex_promising ++ ex_committing) = Some r2 /\
    commit_idx_ r1 < commit_idx_ r2 /\ current_term_ r1 = current_term_ r2 /\
    (forall v, voted_for_ r1 = Some v -> voted_for_ r2 = Some v).
Proof.
  destruct ex_promised as (_ & H1 & _ & H2). pose proof ex_commits as Hrun.
  destruct (ex_replica 2 ex_promising) as [r1|] eqn:Hr1; [|discriminate H1]. injection H1 as _ Ht1 _ _ Hc1 _.
  destruct (raft_monotone 0 (ex_cluster ex_promising) (ex_cluster (ex_promising ++ ex_committing)) (example_peer 2) r1
    (ex_cluster_reachable _) Hrun Hr1) as (r2 & Hr2 & _ & _ & _ & _ & _ & _ & Hv).
  unfold ex_replica in H2. rewrite Hr2 in H2. injection H2 as _ Ht2 _ _ Hc2 _.
  exists r1, r2. split; [reflexivity|]. split; [exact Hr2|]. rewrite Hc1, Hc2, Ht1, Ht2 in *.
  split; [reflexivity|]. split; [reflexivity|]. apply Hv. reflexivity.
Defined.
