(* ===== verification/ClientTypes.v ===== *)
(** * Client requests, responses and logs (client.proto, client3.proto,
    clientlog.proto, and the row states of e2e.proto)

    A [oneof] is an inductive type whose first constructor is the unset case;
    an enum of a response has its constructors; the open enum
    [DB2RowState.State] is its number. *)
From stdpp Require Import prelude.
From S2P Require Import Prelude.

(** ** SVR2 requests *)
Record BackupRequest := { backup_data : bytes; backup_pin : bytes; backup_max_tries : Z }.
Record RestoreRequest := { restore_pin : bytes }.
Record ExposeRequest := { expose_data : bytes }.
Inductive Request :=
  | Request_NOT_SET
  | kBackup (r : BackupRequest)
  | kExpose (r : ExposeRequest)
  | kRestore (r : RestoreRequest)
  | kDelete
  | kTries.

(** ** SVR2 responses *)
Inductive BackupStatus := Backup_UNSET | Backup_OK.
Inductive RestoreStatus := Restore_UNSET | Restore_OK | Restore_MISSING | Restore_PIN_MISMATCH | Restore_ERROR.
Inductive ExposeStatus := Expose_UNSET | Expose_OK | Expose_ERROR.
Inductive TriesStatus := Tries_UNSET | Tries_OK | Tries_MISSING.
Record RestoreResponse := { restore_status : RestoreStatus; restore_data : bytes; restore_tries : Z }.
Record TriesResponse := { tries_status : TriesStatus; tries_tries : Z; tries_exposed : bool }.
Inductive Response :=
  | Response_NOT_SET
  | rBackup (s : BackupStatus)
  | rExpose (s : ExposeStatus)
  | rRestore (r : RestoreResponse)
  | rDelete
  | rTries (r : TriesResponse).

(** ** SVR3 requests and responses *)
Record CreateRequest := { create_max_tries : Z; create_blinded_element : bytes }.
Record EvaluateRequest := { evaluate_blinded_element : bytes }.
Inductive Request3 :=
  | Request3_NOT_SET
  | kCreate (r : CreateRequest)
  | kEvaluate (r : EvaluateRequest)
  | kRemove
  | kQuery.
Inductive CreateStatus := Create_UNSET | Create_OK | Create_INVALID_REQUEST | Create_ERROR.
Inductive EvaluateStatus :=
  Evaluate_UNSET | Evaluate_OK | Evaluate_MISSING | Evaluate_INVALID_REQUEST | Evaluate_ERROR.
Inductive QueryStatus := Query_UNSET | Query_OK | Query_MISSING.
Record CreateResponse := { create_status : CreateStatus; create_evaluated : bytes }.
Record EvaluateResponse := {
  evaluate_status : EvaluateStatus; evaluate_evaluated : bytes; evaluate_tries_remaining : Z }.
Record QueryResponse := { query_status : QueryStatus; query_tries_remaining : Z }.
Inductive Response3 :=
  | Response3_NOT_SET
  | rCreate (r : CreateResponse)
  | rEvaluate (r : EvaluateResponse)
  | rRemove
  | rQuery (r : QueryResponse).

(** ** Logs *)
Record Log2 := { log2_backup_id : bytes; log2_req : Request }.
Record Log3 := { log3_backup_id : bytes; log3_req : Request3; log3_create_privkey : bytes }.

(** [DB::Request], [DB::Log] and [DB::Response] are [MessageLite], the base
    class of all messages; a [dynamic_cast] is a match. *)
Inductive MessageLite :=
  | MRequest (r : Request)
  | MLog2 (l : Log2)
  | MResponse (r : Response)
  | MRequest3 (r : Request3)
  | MLog3 (l : Log3)
  | MResponse3 (r : Response3).

(** ** Database rows as sent between replicas *)
Record DB2RowState := {
  row2_backup_id : bytes; row2_tries : Z; row2_data : bytes; row2_pin : bytes; row2_state : Z }.
Definition UNINITIATED : Z := 0.
Definition POPULATED : Z := 1.
Definition AVAILABLE : Z := 2.
Record DB3RowState := { row3_backup_id : bytes; row3_priv : bytes; row3_tries : Z }.
