(* ===== verification/Db.v ===== *)
(** * What the databases share (db/db.h, merkle/merkle.h, third-party code)

    [DbPlatform]: the primitives of libsodium, SipHash and protobuf the
    databases call, as parameters, with the laws their documentation gives.
    Also the copies into fixed arrays and the prefix of a row's hash that the
    Merkle tree stores, and what holds of rows and their leaves in both. *)
From stdpp Require Import prelude gmap sorting.
From S2P Require Import Prelude Errors Containers Util Merkle ClientTypes.

Class DbPlatform := {
  sip_hash16 : bytes -> bytes;                    (* sip::FullZero.Hash16 *)
  sha256 : bytes -> bytes;                        (* crypto_hash_sha256 over all updates *)
  SerializeRow2 : DB2RowState -> option bytes;    (* SerializeToString *)
  ParseRow2 : bytes -> option DB2RowState;        (* ParseFromString *)
  SerializeRow3 : DB3RowState -> option bytes;
  ParseRow3 : bytes -> option DB3RowState;
  scalarmult_ristretto255 : bytes -> bytes -> option bytes;  (* None: a non-zero return *)
  ristretto255_scalar_random : nat -> bytes }.    (* by number of earlier calls *)

(** [SerializeToString] writes a message that [ParseFromString] reads back,
    for fields in the range of their types; SipHash and ristretto255 fill
    their outputs. *)
Definition row2_fields (r : DB2RowState) : Prop := is_u32 (row2_tries r) /\ - 2 ^ 31 <= row2_state r < 2 ^ 31.
Definition row3_fields (r : DB3RowState) : Prop := is_u32 (row3_tries r).
Class DbPlatformLaws `{DbPlatform} := {
  sip_hash16_length : forall b, length (sip_hash16 b) = 16%nat;
  row2_roundtrip : forall r, row2_fields r -> exists b, SerializeRow2 r = Some b /\ ParseRow2 b = Some r;
  row3_roundtrip : forall r, row3_fields r -> exists b, SerializeRow3 r = Some b /\ ParseRow3 b = Some r;
  scalarmult_length : forall k e x, scalarmult_ristretto255 k e = Some x -> length x = 32%nat;
  scalar_random_length : forall n, length (ristretto255_scalar_random n) = 32%nat }.

(** [BackupID]: 16 bytes, ordered lexicographically. *)
Notation BackupID := bytes.
Definition BACKUP_ID_SIZE : nat := 16.

(** [std::copy(src.begin(), src.end(), dst.begin())] into an array: [None]
    writes past its end. *)
Definition copy_into (src dst : bytes) : option bytes :=
  if Zlen src <=? Zlen dst then Some (src ++ drop (length src) dst) else None.

(** [merkle::HashFrom]: the prefix the Merkle tree stores. *)
Definition HashFrom (h : bytes) : option Hash :=
  CHECK (Z.of_nat MERKLE_HASH_SIZE <=? Zlen h) (Some (take MERKLE_HASH_SIZE h)).

(** [rows_.rbegin()->first], where [rows_] is not empty. *)
Definition last_key {V} (m : list (BackupID * V)) : option BackupID := fst <$> last m.

(** ** A stand-in for the parameters *)
Definition toy_mix (b : bytes) : Z := foldl (fun acc x => (acc * 131 + x + 1) mod 2 ^ 64) 5 b.
Definition toy_row2 (r : DB2RowState) : bytes :=
  [Zlen (row2_backup_id r); Zlen (row2_data r); row2_tries r; row2_state r] ++
  row2_backup_id r ++ row2_data r ++ row2_pin r.
Definition toy_parse2 (b : bytes) : option DB2RowState :=
  match b with
  | i :: d :: t :: s :: rest =>
      let i := Z.to_nat i in let d := Z.to_nat d in
      Some {| row2_backup_id := take i rest; row2_tries := t; row2_data := take d (drop i rest);
              row2_pin := drop (i + d) rest; row2_state := s |}
  | _ => None
  end.
Definition toy_row3 (r : DB3RowState) : bytes :=
  [Zlen (row3_backup_id r); row3_tries r] ++ row3_backup_id r ++ row3_priv r.
Definition toy_parse3 (b : bytes) : option DB3RowState :=
  match b with
  | i :: t :: rest =>
      let i := Z.to_nat i in
      Some {| row3_backup_id := take i rest; row3_tries := t; row3_priv := drop i rest |}
  | _ => None
  end.
Definition toy_expand (n : nat) (z : Z) : bytes := (fun i => (z / 3 ^ Z.of_nat i) mod 256) <$> seq 0 n.

#[local] Instance toy_db : DbPlatform := {
  sip_hash16 b := toy_expand 16 (toy_mix b);
  sha256 b := toy_expand 32 (toy_mix b);
  SerializeRow2 r := Some (toy_row2 r);
  ParseRow2 := toy_parse2;
  SerializeRow3 r := Some (toy_row3 r);
  ParseRow3 := toy_parse3;
  scalarmult_ristretto255 k e :=
    if bool_decide (e = replicate 32 0) then None else Some (toy_expand 32 (toy_mix (k ++ e)));
  ristretto255_scalar_random n := toy_expand 32 (toy_mix [Z.of_nat n]) }.

#[local] Instance toy_db_laws : DbPlatformLaws.
Proof.
  split.
  - done.
  - intros [i t d p s] _. eexists. split; [done|]. simpl. unfold Zlen. rewrite !Nat2Z.id.
    rewrite take_app_length, drop_app_length, take_app_length, drop_app_add, drop_app_length. done.
  - intros [i p t] _. eexists. split; [done|]. simpl. unfold Zlen. rewrite !Nat2Z.id.
    rewrite take_app_length, drop_app_length. done.
  - intros k e x. simpl. by case_bool_decide; intros [= <-].
  - done.
Qed.

(** ** Lemmas *)
Lemma copy_into_exact src dst : length src = length dst -> copy_into src dst = Some src.
Proof.
  intros E. unfold copy_into, Zlen. rewrite E, (proj2 (Z.leb_le _ _)) by lia.
  by rewrite drop_ge, app_nil_r by lia.
Qed.

Lemma copy_into_zeros src n :
  (length src <= n)%nat -> copy_into src (replicate n 0) = Some (src ++ replicate (n - length src) 0).
Proof.
  intros E. unfold copy_into, Zlen. rewrite length_replicate, (proj2 (Z.leb_le _ _)) by lia.
  by rewrite drop_replicate.
Qed.

Lemma HashFrom_Some h : length h = 16%nat -> HashFrom h = Some (take 8 h).
Proof. intros E. unfold HashFrom, Zlen. by rewrite E. Qed.

(** * Rows and their Merkle leaves

    Both databases keep an ordered map of rows, each with a leaf of the shared
    Merkle tree that holds the row's hash.  The invariant and the effect of
    each change of a row are proved once, for any type of rows. *)

Section rows.
Context {T L : Type} `{!EqDecision L, !Countable L} {MO : MerkleOps T L} {MS : MerkleSpec T L}.
Context {V : Type} (leaf : V -> L) (hash : BackupID -> V -> option Hash) (ok : BackupID -> V -> Prop).
Notation Rows := (list (BackupID * V)).
Implicit Types (t : T) (rows : Rows) (id : BackupID) (v : V).

(** A leaf of some row. *)
Definition owns rows (l : L) : Prop := exists id v, map_find rows id = Some v /\ leaf v = l.

Record rows_inv t rows : Prop := {
  ri_tree : tree_ok ∅ t;
  ri_map : map_ok rows;
  ri_ok : forall id v, map_find rows id = Some v -> ok id v;
  ri_hash : forall id v, map_find rows id = Some v ->
    exists h, hash id v = Some h /\ tree_view t !! leaf v = Some h;
  ri_leaf : forall id1 v1 id2 v2, map_find rows id1 = Some v1 -> map_find rows id2 = Some v2 ->
    leaf v1 = leaf v2 -> id1 = id2 }.

(** The leaves of others keep their hashes. *)
Definition others t rows t' rows' : Prop :=
  forall l h, tree_view t !! l = Some h -> ~ owns rows l -> tree_view t' !! l = Some h /\ ~ owns rows' l.

Lemma others_refl t rows : others t rows t rows.
Proof. by intros l h. Qed.
Lemma others_trans t1 r1 t2 r2 t3 r3 : others t1 r1 t2 r2 -> others t2 r2 t3 r3 -> others t1 r1 t3 r3.
Proof. intros H1 H2 l h Hl Hn. destruct (H1 l h Hl Hn) as [? ?]. by apply H2. Qed.

Lemma rows_verify t rows id v h :
  rows_inv t rows -> map_find rows id = Some v -> hash id v = Some h -> leaf_verify t (leaf v) h = Some OK.
Proof.
  intros Hi Hv Hh. destruct (ri_hash _ _ Hi _ _ Hv) as (h' & Hh' & Hl).
  assert (h' = h) as -> by congruence.
  by rewrite (leaf_verify_spec t _ h h (ri_tree _ _ Hi) Hl), bool_decide_eq_true_2.
Qed.

Lemma map_find_set rows id id' v v' :
  map_find (map_set id v rows) id' = Some v' ->
  (id' = id /\ v' = v) \/ (id' <> id /\ map_find rows id' = Some v').
Proof.
  destruct (decide (id' = id)) as [->|Hne]; [rewrite map_find_set_eq; intros [= <-]; by left|].
  rewrite map_find_set_ne by done. by right.
Qed.

(** A row gets the leaf [leaf v] with its hash. *)
Lemma rows_set t t' rows id v h (others_kept : forall l, l <> leaf v ->
    (forall v0, map_find rows id = Some v0 -> l <> leaf v0) -> tree_view t' !! l = tree_view t !! l) :
  rows_inv t rows -> tree_ok ∅ t' -> tree_view t' !! leaf v = Some h -> hash id v = Some h -> ok id v ->
  (forall id' v', id' <> id -> map_find rows id' = Some v' -> leaf v' <> leaf v) ->
  rows_inv t' (map_set id v rows).
Proof.
  intros Hi Ht Hl Hh Hok Hfresh.
  assert (Hne : forall id' v', id' <> id -> map_find rows id' = Some v' ->
    tree_view t' !! leaf v' = tree_view t !! leaf v').
  { intros id' v' Hid Hv. apply others_kept; [by eapply Hfresh|].
    intros v0 Hv0 E. apply Hid. exact (ri_leaf _ _ Hi _ _ _ _ Hv Hv0 E). }
  split; [done|by apply map_set_ok, Hi|..].
  - intros id' v' [[-> ->]|[Hid Hv]]%map_find_set; [done|by apply (ri_ok _ _ Hi)].
  - intros id' v' [[-> ->]|[Hid Hv]]%map_find_set; [eauto|].
    rewrite (Hne id' v' Hid Hv). by apply (ri_hash _ _ Hi).
  - intros id1 v1 id2 v2 [[-> ->]|[Hn1 H1]]%map_find_set [[-> ->]|[Hn2 H2]]%map_find_set E; [done|..].
    + by destruct (Hfresh id2 v2 Hn2 H2).
    + by destruct (Hfresh id1 v1 Hn1 H1).
    + by eapply (ri_leaf _ _ Hi).
Qed.

Lemma rows_update t rows id v v' h :
  rows_inv t rows -> map_find rows id = Some v -> leaf v' = leaf v -> hash id v' = Some h -> ok id v' ->
  exists t', leaf_update t (leaf v') h = Some t' /\ rows_inv t' (map_set id v' rows) /\
    others t rows t' (map_set id v' rows).
Proof.
  intros Hi Hv El Hh Hok. destruct (ri_hash _ _ Hi _ _ Hv) as (h0 & _ & Hl0).
  destruct (leaf_update_spec ∅ t (leaf v') h0 h (ri_tree _ _ Hi)) as (t' & -> & Ht & Hview);
    [by rewrite El|]. replace (∅ ∖ {[leaf v']}) with (∅ : gset L) in Ht by set_solver.
  exists t'. split; [done|]. split.
  - eapply (rows_set t); eauto; rewrite ?Hview, ?lookup_insert_eq; [|done|].
    + intros l Hne _. by rewrite lookup_insert_ne.
    + intros id' w Hid Hw E. apply Hid. eapply (ri_leaf _ _ Hi); [done|exact Hv|congruence].
  - intros l hl Hl Hno. assert (l <> leaf v) by (intros ->; apply Hno; by exists id, v).
    rewrite Hview, lookup_insert_ne by congruence. split; [done|].
    intros (id' & w & [[-> ->]|[Hid Hw]]%map_find_set & <-); [congruence|]. apply Hno. by exists id', w.
Qed.

(** A leaf outside the tree belongs to no row. *)
Lemma fresh_leaf t rows l : rows_inv t rows -> tree_view t !! l = None -> ~ owns rows l.
Proof.
  intros Hi Hn (id & v & Hv & <-). destruct (ri_hash _ _ Hi _ _ Hv) as (h & _ & ?). congruence.
Qed.

Lemma rows_insert t t' rows id v h :
  rows_inv t rows -> map_find rows id = None -> tree_view t !! leaf v = None ->
  tree_ok ∅ t' -> tree_view t' = <[leaf v := h]> (tree_view t) -> hash id v = Some h -> ok id v ->
  rows_inv t' (map_set id v rows) /\ others t rows t' (map_set id v rows).
Proof.
  intros Hi Hnone Hfr Ht Hview Hh Hok. pose proof (fresh_leaf _ _ _ Hi Hfr) as Hno. split.
  - eapply (rows_set t); eauto; rewrite ?Hview, ?lookup_insert_eq; [|done|].
    + intros l Hne _. by rewrite lookup_insert_ne.
    + intros id' w Hid Hw E. apply Hno. by exists id', w.
  - intros l hl Hl Hnl. assert (l <> leaf v) by congruence.
    rewrite Hview, lookup_insert_ne by done. split; [done|].
    intros (id' & w & [[-> ->]|[Hid Hw]]%map_find_set & <-); [done|]. apply Hnl. by exists id', w.
Qed.

(** A new leaf, updated at once. *)
Lemma rows_add t rows :
  rows_inv t rows ->
  exists t1 l, leaf_new t = Some (t1, l) /\ tree_view t !! l = None /\
    forall id v h, map_find rows id = None -> leaf v = l -> hash id v = Some h -> ok id v ->
    exists t', leaf_update t1 l h = Some t' /\ rows_inv t' (map_set id v rows) /\
      others t rows t' (map_set id v rows).
Proof.
  intros Hi. destruct (leaf_new_spec ∅ t (ri_tree _ _ Hi)) as (t1 & l & -> & Hfr & Ht1 & Hv1).
  exists t1, l. split_and!; [done..|]. intros id v h Hnone <- Hh Hok.
  destruct (leaf_update_spec _ t1 (leaf v) zero_hash h Ht1) as (t' & -> & Ht & Hview);
    [by rewrite Hv1, lookup_insert_eq|].
  replace (({[leaf v]} ∪ ∅) ∖ {[leaf v]}) with (∅ : gset L) in Ht by set_solver.
  exists t'. split; [done|]. eapply rows_insert; eauto. by rewrite Hview, Hv1, insert_insert_eq.
Qed.

(** A new leaf, updated and then moved into the map. *)
Lemma rows_load t rows :
  rows_inv t rows ->
  exists t1 l, leaf_new t = Some (t1, l) /\
    forall h, exists t2, leaf_update t1 l h = Some t2 /\
    exists t3 l', leaf_move t2 l = Some (t3, l') /\
    forall id v, map_find rows id = None -> leaf v = l' -> hash id v = Some h -> ok id v ->
      rows_inv t3 (map_set id v rows) /\ others t rows t3 (map_set id v rows).
Proof.
  intros Hi. destruct (leaf_new_spec ∅ t (ri_tree _ _ Hi)) as (t1 & l & -> & Hfr & Ht1 & Hv1).
  exists t1, l. split; [done|]. intros h.
  destruct (leaf_update_spec _ t1 l zero_hash h Ht1) as (t2 & -> & Ht2 & Hv2);
    [by rewrite Hv1, lookup_insert_eq|].
  replace (({[l]} ∪ ∅) ∖ {[l]}) with (∅ : gset L) in Ht2 by set_solver.
  rewrite Hv1, insert_insert_eq in Hv2. exists t2. split; [done|].
  destruct (leaf_move_spec ∅ t2 l h Ht2) as (t3 & l' & -> & Hfr' & Ht3 & Hv3);
    [by rewrite Hv2, lookup_insert_eq|set_solver|].
  rewrite Hv2, lookup_insert_None in Hfr'. destruct Hfr' as [Hfr' Hne].
  rewrite Hv2, delete_insert_id in Hv3 by done.
  exists t3, l'. split; [done|]. intros id v Hnone <- Hh Hok. by eapply rows_insert.
Qed.

Lemma rows_drop t rows id v :
  rows_inv t rows -> map_find rows id = Some v ->
  exists t', leaf_drop t (leaf v) = Some t' /\ rows_inv t' (map_erase id rows) /\
    others t rows t' (map_erase id rows).
Proof.
  intros Hi Hv. destruct (ri_hash _ _ Hi _ _ Hv) as (h0 & _ & Hl0).
  destruct (leaf_drop_spec ∅ t (leaf v) h0 (ri_tree _ _ Hi) Hl0) as (t' & -> & Ht & Hview); [set_solver|].
  assert (Hf : forall id' v', map_find (map_erase id rows) id' = Some v' ->
    id' <> id /\ map_find rows id' = Some v').
  { intros id' v'. destruct (decide (id' = id)) as [->|Hne]; [by rewrite map_find_erase_eq|].
    by rewrite map_find_erase_ne. }
  exists t'. split; [done|]. split.
  - split; [done|by apply map_erase_ok, Hi|..].
    + intros id' v' [_ H]%Hf. by apply (ri_ok _ _ Hi).
    + intros id' v' [Hne H]%Hf. destruct (ri_hash _ _ Hi _ _ H) as (h & Hh & Hl).
      exists h. split; [done|]. rewrite Hview, lookup_delete_ne; [done|].
      intros E. apply Hne. by eapply (ri_leaf _ _ Hi).
    + intros id1 v1 id2 v2 [_ H1]%Hf [_ H2]%Hf. by eapply (ri_leaf _ _ Hi).
  - intros l h Hl Hno. assert (leaf v <> l) by (intros <-; apply Hno; by exists id, v).
    rewrite Hview, lookup_delete_ne by done. split; [done|].
    intros (id' & w & [_ Hw]%Hf & <-). apply Hno. by exists id', w.
Qed.

(** A key above every key of the map goes to its end. *)
Lemma map_set_last rows id v :
  map_ok rows -> (forall k, last_key rows = Some k -> key_lt k id = true) ->
  map_set id v rows = rows ++ [(id, v)] /\ map_find rows id = None.
Proof.
  intros Hok Hlast. assert (Hall : forall k, k ∈ rows.*1 -> key_lt k id = true).
  { intros k Hk. destruct rows as [|p rows'] using rev_ind; [by apply elem_of_nil in Hk|].
    unfold last_key in Hlast. rewrite last_snoc in Hlast. specialize (Hlast p.1 eq_refl).
    unfold map_ok, set_ok in Hok. rewrite fmap_app in Hk, Hok.
    apply elem_of_app in Hk as [Hk|Hk%list_elem_of_singleton]; [|by subst].
    eapply key_trans; [|exact Hlast]. refine (StronglySorted_app_1_elem_of key_ltP _ _ k p.1 Hok Hk _). by left. }
  split.
  - clear Hlast Hok. induction rows as [|[k w] rows IH]; [done|]. simpl in *.
    assert (key_lt k id = true) as Hk by (apply Hall; left).
    rewrite (key_asym _ _ Hk), Hk, IH; [done|]. intros k' Hk'. apply Hall. by right.
  - apply map_find_None. intros Hin%Hall. by rewrite key_irrefl in Hin.
Qed.

(** In an ordered map, a key is above those before it. *)
Lemma above_last rows src id v k :
  map_ok (rows ++ (id, v) :: src) -> last_key rows = Some k -> key_lt k id = true.
Proof.
  intros Hord Hk. unfold last_key in Hk. apply fmap_Some in Hk as (p & Hl & ->).
  unfold map_ok, set_ok in Hord. rewrite fmap_app in Hord.
  refine (StronglySorted_app_1_elem_of key_ltP _ _ p.1 id Hord _ _); [|by left].
  apply list_elem_of_fmap_2. by apply last_Some_elem_of.
Qed.
End rows.

(** ** The view of the rows as a finite map *)
Section view.
Context {V R : Type} (view_row : V -> R).
Notation Rows := (list (BackupID * V)).

Definition rows_view (rows : Rows) : gmap BackupID R := list_to_map (prod_map id view_row <$> rows).

Lemma rows_view_lookup rows k : rows_view rows !! k = view_row <$> map_find rows k.
Proof.
  induction rows as [|[k' row] rows IH]; [done|]. rewrite map_find_cons.
  unfold rows_view in *. simpl. destruct (key_eq k k') eqn:E.
  - apply key_eq_spec in E as ->. by rewrite lookup_insert_eq.
  - rewrite lookup_insert_ne; [done|]. intros ->. by rewrite key_eq_refl in E.
Qed.

Lemma rows_view_set rows k row : rows_view (map_set k row rows) = <[k := view_row row]> (rows_view rows).
Proof.
  apply map_eq. intros k'. rewrite rows_view_lookup. destruct (decide (k' = k)) as [->|Hne].
  - by rewrite map_find_set_eq, lookup_insert_eq.
  - by rewrite map_find_set_ne, lookup_insert_ne, rows_view_lookup.
Qed.

Lemma rows_view_erase rows k : rows_view (map_erase k rows) = delete k (rows_view rows).
Proof.
  apply map_eq. intros k'. rewrite rows_view_lookup. destruct (decide (k' = k)) as [->|Hne].
  - by rewrite map_find_erase_eq, lookup_delete_eq.
  - by rewrite map_find_erase_ne, lookup_delete_ne, rows_view_lookup.
Qed.
End view.
