(* ===== verification/Db2.v ===== *)
(** * The SVR2 database (db/db2.h, db/db2.cc)

    [rows_] is an ordered map from backup IDs to rows; every row owns a leaf
    of the Merkle tree, which the database shares with Raft, so the tree is
    threaded through the operations.  [None] is a failed [CHECK], a copy past
    the end of an array or a dangling pointer. *)
From stdpp Require Import prelude gmap.
From S2P Require Import Prelude Errors Containers Util Merkle ClientTypes Db.

Definition MIN_DATA_SIZE : nat := 16.
Definition MAX_DATA_SIZE : nat := 48.
Definition PIN_SIZE : nat := 32.
Definition MAX_ALLOWED_MAX_TRIES : Z := 255.
Definition MIN_ALLOWED_MAX_TRIES : Z := 1.

(** ** Protocol *)
Definition SMALL_BYTES_FIELD_EXTRA_PROTO_METADATA : Z := 2.
Definition U16_AS_VARINT_MAX_SIZE : Z := 3.
Definition MaxRowSerializedSize : Z :=
  Z.of_nat BACKUP_ID_SIZE + SMALL_BYTES_FIELD_EXTRA_PROTO_METADATA +
  Z.of_nat MAX_DATA_SIZE + SMALL_BYTES_FIELD_EXTRA_PROTO_METADATA +
  Z.of_nat PIN_SIZE + SMALL_BYTES_FIELD_EXTRA_PROTO_METADATA +
  U16_AS_VARINT_MAX_SIZE.

Definition RequestPB : MessageLite := MRequest Request_NOT_SET.
Definition LogPB : MessageLite := MLog2 {| log2_backup_id := []; log2_req := Request_NOT_SET |}.

Definition LogPBFromRequest (request : MessageLite) (authenticated_id : bytes) : option MessageLite * Error :=
  match request with
  | MRequest r =>
      if negb (Zlen authenticated_id =? Z.of_nat BACKUP_ID_SIZE) then (None, DB2_ClientBackupIDSize)
      else (Some (MLog2 {| log2_backup_id := authenticated_id; log2_req := r |}), OK)
  | _ => (None, DB2_InvalidRequestType)
  end.

Definition LogKey (req : MessageLite) : option bytes :=
  match req with MLog2 r => Some (log2_backup_id r) | _ => None end.

Definition ValidateClientLog (req_pb : MessageLite) : Error :=
  match req_pb with
  | MLog2 log =>
      if negb (Zlen (log2_backup_id log) =? Z.of_nat BACKUP_ID_SIZE) then DB2_ClientBackupIDSize else
      match log2_req log with
      | kBackup r =>
          if negb (Zlen (backup_pin r) =? Z.of_nat PIN_SIZE) then DB2_ClientPinSize
          else if Z.of_nat MAX_DATA_SIZE <? Zlen (backup_data r) then DB2_ClientDataSize
          else if Zlen (backup_data r) <? Z.of_nat MIN_DATA_SIZE then DB2_ClientDataSize
          else if MAX_ALLOWED_MAX_TRIES <? backup_max_tries r then DB2_ClientTriesTooHigh
          else if backup_max_tries r <? MIN_ALLOWED_MAX_TRIES then DB2_ClientTriesZero
          else OK
      | kRestore r =>
          if negb (Zlen (restore_pin r) =? Z.of_nat PIN_SIZE) then DB2_ClientPinSize else OK
      | kExpose r =>
          if Z.of_nat MAX_DATA_SIZE <? Zlen (expose_data r) then DB2_ClientDataSize
          else if Zlen (expose_data r) <? Z.of_nat MIN_DATA_SIZE then DB2_ClientDataSize
          else OK
      | kTries | kDelete => OK
      | Request_NOT_SET => DB2_ClientRequestCase
      end
  | _ => DB2_InvalidRequestType
  end.

(** ** Rows *)
Record Row {L : Type} := {
  state : Z;
  tries : Z;
  data_size : Z;
  data : bytes;
  pin : bytes;
  merkle_leaf_ : L }.
Arguments Row : clear implicits.

Definition BackupIDFromString (s : bytes) : BackupID * Error :=
  if negb (Zlen s =? Z.of_nat BACKUP_ID_SIZE) then (replicate BACKUP_ID_SIZE 0, DB2_BackupIDSize)
  else (s, OK).

Section db2.
Context {T L : Type} {MO : MerkleOps T L} {DP : DbPlatform}.
Notation Row := (Row L).
Notation Rows := (list (BackupID * Row)).

Definition Row_new (t : T) : option (T * Row) :=
  '(t, l) ← leaf_new t;
  Some (t, {| state := UNINITIATED; tries := 0; data_size := 0; data := replicate MAX_DATA_SIZE 0;
              pin := replicate PIN_SIZE 0; merkle_leaf_ := l |}).

Definition Clear (row : Row) (s : Z) : Row :=
  {| row with data := replicate (length (data row)) 0; pin := replicate (length (pin row)) 0;
     tries := 0; data_size := 0; state := s |}.

(** The scratch buffer is zero where [data_size] bytes do not reach. *)
Definition HashRow (id : BackupID) (row : Row) : option bytes :=
  if (data_size row <=? Z.of_nat MAX_DATA_SIZE) && (data_size row <=? Zlen (data row)) then
    let n := Z.to_nat (data_size row) in
    Some (sip_hash16 (id ++ BigEndian32Bytes (u32 (state row)) ++ BigEndian32Bytes (tries row) ++
      BigEndian32Bytes (data_size row) ++ (take n (data row) ++ replicate (MAX_DATA_SIZE - n) 0) ++ pin row))
  else None.

(** [merkle::HashFrom(HashRow(id, *row))]. *)
Definition merkle_hash (id : BackupID) (row : Row) : option Hash := h ← HashRow id row; HashFrom h.

(** ** Operations *)
Definition Backup (t : T) (rows : Rows) (id : BackupID) (req : BackupRequest) : option (T * Rows * BackupStatus) :=
  '(t, row) ← match map_find rows id with
              | Some row => Some (t, row)
              | None => Row_new t
              end;
  let row := Clear row POPULATED in
  d ← copy_into (backup_data req) (data row);
  p ← copy_into (backup_pin req) (pin row);
  let row := {| row with data := d; data_size := u8 (Zlen (backup_data req));
                tries := u8 (backup_max_tries req); pin := p |} in
  h ← merkle_hash id row;
  t ← leaf_update t (merkle_leaf_ row) h;
  Some (t, map_set id row rows, Backup_OK).

Definition restore_response (s : RestoreStatus) : RestoreResponse :=
  {| restore_status := s; restore_data := []; restore_tries := 0 |}.

Definition Restore (t : T) (rows : Rows) (id : BackupID) (req : RestoreRequest) : option (T * Rows * RestoreResponse) :=
  match map_find rows id with
  | None => Some (t, rows, restore_response Restore_MISSING)
  | Some row =>
      if negb (state row =? AVAILABLE) then Some (t, rows, restore_response Restore_MISSING) else
      h ← merkle_hash id row;
      err ← leaf_verify t (merkle_leaf_ row) h;
      if negb (is_ok err) then Some (t, rows, restore_response Restore_ERROR) else
      eq ← ConstantTimeEquals (restore_pin req) (pin row);
      if eq : bool then
        Some (t, rows, {| restore_status := Restore_OK; restore_tries := tries row;
                          restore_data := take (Z.to_nat (data_size row)) (data row) |})
      else
        let row := {| row with tries := u8 (tries row - 1) |} in
        if tries row =? 0 then
          (* the row is cleared and destroyed with its leaf *)
          let row := Clear row UNINITIATED in
          t ← leaf_drop t (merkle_leaf_ row);
          Some (t, map_erase id rows, restore_response Restore_MISSING)
        else
          h ← merkle_hash id row;
          t ← leaf_update t (merkle_leaf_ row) h;
          Some (t, map_set id row rows,
                {| restore_status := Restore_PIN_MISMATCH; restore_data := []; restore_tries := tries row |})
  end.

Definition Delete (t : T) (rows : Rows) (id : BackupID) : option (T * Rows) :=
  match map_find rows id with
  | None => Some (t, rows)
  | Some row =>
      let row := Clear row UNINITIATED in
      t ← leaf_drop t (merkle_leaf_ row);
      Some (t, map_erase id rows)
  end.

Definition Expose (t : T) (rows : Rows) (id : BackupID) (req : ExposeRequest) : option (T * Rows * ExposeStatus) :=
  match map_find rows id with
  | None => Some (t, rows, Expose_ERROR)
  | Some row =>
      h ← merkle_hash id row;
      err ← leaf_verify t (merkle_leaf_ row) h;
      if negb (is_ok err) then Some (t, rows, Expose_ERROR) else
      eq ← ConstantTimeEqualsPrefix (data row) (expose_data req) (Z.to_nat (data_size row));
      if negb eq then Some (t, rows, Expose_ERROR) else
      if (state row =? POPULATED) || (state row =? AVAILABLE) then
        let row := {| row with state := AVAILABLE |} in
        h ← merkle_hash id row;
        t ← leaf_update t (merkle_leaf_ row) h;
        Some (t, map_set id row rows, Expose_OK)
      else Some (t, rows, Expose_ERROR)
  end.

Definition Tries (rows : Rows) (id : BackupID) : TriesResponse :=
  match map_find rows id with
  | None => {| tries_status := Tries_MISSING; tries_tries := 0; tries_exposed := false |}
  | Some row => {| tries_status := Tries_OK; tries_exposed := (state row =? AVAILABLE); tries_tries := tries row |}
  end.

Definition Run (t : T) (rows : Rows) (log_pb : MessageLite) : option (T * Rows * MessageLite) :=
  CHECK (is_ok (ValidateClientLog log_pb))
  match log_pb with
  | MLog2 log =>
      let id := log2_backup_id log in
      CHECK (Zlen id =? Z.of_nat BACKUP_ID_SIZE)
      ('(t, rows, resp) ←
        match log2_req log with
        | kBackup r => '(t, rows, s) ← Backup t rows id r; Some (t, rows, rBackup s)
        | kRestore r => '(t, rows, s) ← Restore t rows id r; Some (t, rows, rRestore s)
        | kDelete => '(t, rows) ← Delete t rows id; Some (t, rows, rDelete)
        | kExpose r => '(t, rows, s) ← Expose t rows id r; Some (t, rows, rExpose s)
        | kTries => Some (t, rows, rTries (Tries rows id))
        | Request_NOT_SET => Some (t, rows, Response_NOT_SET)
        end;
      Some (t, rows, MResponse resp))
  | _ => None
  end.

Definition row_count (rows : Rows) : Z := Zlen rows.

(** ** Replication *)
Definition row_state (id : BackupID) (row : Row) : DB2RowState := {|
  row2_backup_id := id; row2_data := take (Z.to_nat (data_size row)) (data row);
  row2_pin := pin row; row2_tries := tries row; row2_state := state row |}.

(** The [for] loop over [iter]; [i] counts up to [size]. *)
Fixpoint rows_loop (iter : Rows) (i size : Z) (last_id : bytes) (out : list bytes) : list bytes * (bytes * Error) :=
  match iter with
  | [] => (out, (last_id, OK))
  | (id, row) :: iter' =>
      if negb (i <? size) then (out, (last_id, OK)) else
      match SerializeRow2 (row_state id row) with
      | None => (out ++ [[]], ([], DB2_ReplicationInvalidRow))
      | Some s => rows_loop iter' (i + 1) size id (out ++ [s])
      end
  end.

Definition RowsAsProtos (rows : Rows) (exclusive_start : bytes) (size : Z) : list bytes * (bytes * Error) :=
  if bool_decide (exclusive_start = []) then rows_loop rows 0 size [] []
  else
    let '(id, err) := BackupIDFromString exclusive_start in
    if negb (is_ok err) then ([], ([], err)) else rows_loop (map_from_upper id rows) 0 size [] [].

(** One row received.  [rows_.emplace_hint(end, key, std::move(r))] moves the
    row, and with it its leaf, into the map; the moved-from leaf's destructor
    does nothing. *)
Definition load_row (t : T) (rows : Rows) (row : DB2RowState) : option (T * Rows * Error) :=
  if (MAX_ALLOWED_MAX_TRIES <? row2_tries row) || negb (Zlen (row2_pin row) =? Z.of_nat PIN_SIZE) ||
     (Zlen (row2_data row) <? Z.of_nat MIN_DATA_SIZE) || (Z.of_nat MAX_DATA_SIZE <? Zlen (row2_data row))
  then Some (t, rows, DB2_ReplicationInvalidRow) else
  let '(key, err) := BackupIDFromString (row2_backup_id row) in
  if negb (is_ok err) then Some (t, rows, err) else
  if match last_key rows with Some k => negb (key_lt k key) | None => false end
  then Some (t, rows, DB2_ReplicationOutOfOrder) else
  '(t, r) ← Row_new t;
  p ← copy_into (row2_pin row) (pin r);
  d ← copy_into (row2_data row) (data r);
  let r := {| r with state := row2_state row; pin := p; data := d; data_size := u8 (Zlen (row2_data row));
              tries := u8 (row2_tries row) |} in
  h ← merkle_hash key r;
  t ← leaf_update t (merkle_leaf_ r) h;
  '(t, l) ← leaf_move t (merkle_leaf_ r);
  Some (t, map_set key {| r with merkle_leaf_ := l |} rows, OK).

Fixpoint load_rows_loop (t : T) (rows : Rows) (protos : list bytes) (last_id : bytes) :
    option (T * Rows * (bytes * Error)) :=
  match protos with
  | [] => Some (t, rows, (last_id, OK))
  | s :: protos' =>
      match ParseRow2 s with
      | None => Some (t, rows, ([], DB2_ReplicationInvalidRow))
      | Some row =>
          '(t, rows, err) ← load_row t rows row;
          if negb (is_ok err) then Some (t, rows, ([], err))
          else load_rows_loop t rows protos' (row2_backup_id row)
      end
  end.

Definition LoadRowsFromProtos (t : T) (rows : Rows) (protos : list bytes) : option (T * Rows * (bytes * Error)) :=
  CHECK (negb (bool_decide (protos = [])))
  ('(t, rows', (last_id, err)) ← load_rows_loop t rows protos [];
   if negb (is_ok err) then Some (t, rows', ([], err))
   else if negb (Zlen rows' =? Zlen rows + Zlen protos) then Some (t, rows', ([], DB2_LoadedRowsAlreadyInDB))
   else Some (t, rows', (last_id, OK))).

(** SHA-256 of the number of rows and the hash of each, in order. *)
Definition DB_Hash (rows : Rows) : option bytes :=
  hs ← mapM (fun '(id, row) => HashRow id row) rows;
  Some (sha256 (BigEndian64Bytes (Zlen rows) ++ concat hs)).
End db2.
