(* ===== verification/Db2Spec.v ===== *)
(** * The SVR2 database implements a finite map of secrets

    The abstract database: a map from backup IDs to secrets with a PIN and a
    number of tries.  Every operation on well-formed rows succeeds, keeps
    them well formed and in step with the Merkle tree, and has exactly the
    effect and the response of the abstract one.  Rows that one replica
    serialises are those another one loads. *)
From stdpp Require Import prelude gmap sorting.
From S2P Require Import Prelude Errors Containers Util Merkle ClientTypes Db Db2.

(** ** The abstract database *)
Record Secret := { s_state : Z; s_tries : Z; s_data : bytes; s_pin : bytes }.
Notation Secrets := (gmap BackupID Secret).
Implicit Types m : Secrets.

Definition restore_reply (s : RestoreStatus) (d : bytes) (n : Z) : Response :=
  rRestore {| restore_status := s; restore_data := d; restore_tries := n |}.

Definition spec_backup m (id : BackupID) (r : BackupRequest) : Secrets * Response :=
  (<[id := {| s_state := POPULATED; s_tries := backup_max_tries r;
              s_data := backup_data r; s_pin := backup_pin r |}]> m, rBackup Backup_OK).

Definition spec_restore m (id : BackupID) (r : RestoreRequest) : Secrets * Response :=
  match m !! id with
  | Some s =>
      if negb (s_state s =? AVAILABLE) then (m, restore_reply Restore_MISSING [] 0)
      else if bool_decide (restore_pin r = s_pin s) then (m, restore_reply Restore_OK (s_data s) (s_tries s))
      else if s_tries s =? 1 then (delete id m, restore_reply Restore_MISSING [] 0)
      else (<[id := {| s with s_tries := u8 (s_tries s - 1) |}]> m,
            restore_reply Restore_PIN_MISMATCH [] (u8 (s_tries s - 1)))
  | None => (m, restore_reply Restore_MISSING [] 0)
  end.

Definition spec_expose m (id : BackupID) (r : ExposeRequest) : Secrets * Response :=
  match m !! id with
  | Some s =>
      if bool_decide (s_data s `prefix_of` expose_data r) && ((s_state s =? POPULATED) || (s_state s =? AVAILABLE))
      then (<[id := {| s with s_state := AVAILABLE |}]> m, rExpose Expose_OK)
      else (m, rExpose Expose_ERROR)
  | None => (m, rExpose Expose_ERROR)
  end.

Definition spec_tries m (id : BackupID) : Response :=
  match m !! id with
  | Some s => rTries {| tries_status := Tries_OK; tries_tries := s_tries s; tries_exposed := (s_state s =? AVAILABLE) |}
  | None => rTries {| tries_status := Tries_MISSING; tries_tries := 0; tries_exposed := false |}
  end.

Definition spec_run m (log : Log2) : Secrets * Response :=
  let id := log2_backup_id log in
  match log2_req log with
  | kBackup r => spec_backup m id r
  | kRestore r => spec_restore m id r
  | kExpose r => spec_expose m id r
  | kDelete => (delete id m, rDelete)
  | kTries => (m, spec_tries m id)
  | Request_NOT_SET => (m, Response_NOT_SET)
  end.

(** ** The view of the rows *)
Definition view_row {L} (row : Row L) : Secret := {|
  s_state := state row; s_tries := tries row;
  s_data := take (Z.to_nat (data_size row)) (data row); s_pin := pin row |}.
Definition view {L} (rows : list (BackupID * Row L)) : Secrets := rows_view view_row rows.

Lemma view_lookup {L} (rows : list (BackupID * Row L)) k : view rows !! k = view_row <$> map_find rows k.
Proof. apply rows_view_lookup. Qed.
Lemma view_set {L} (rows : list (BackupID * Row L)) k row :
  view (map_set k row rows) = <[k := view_row row]> (view rows).
Proof. apply rows_view_set. Qed.
Lemma view_erase {L} (rows : list (BackupID * Row L)) k : view (map_erase k rows) = delete k (view rows).
Proof. apply rows_view_erase. Qed.

(** ** The invariant *)
Record row_ok {L} (id : BackupID) (row : Row L) : Prop := {
  rk_id : length id = BACKUP_ID_SIZE;
  rk_state : - 2 ^ 31 <= state row < 2 ^ 31;
  rk_tries : is_u8 (tries row);
  rk_size : 16 <= data_size row <= 48;
  rk_data : length (data row) = MAX_DATA_SIZE;
  rk_pin : length (pin row) = PIN_SIZE }.

Section refine.
Context {T L : Type} `{!EqDecision L, !Countable L} {MO : MerkleOps T L} {MS : MerkleSpec T L}.
Context {DP : DbPlatform} {DPL : DbPlatformLaws}.
Notation Rows := (list (BackupID * Row L)).
Implicit Types (t : T) (rows : Rows) (row : Row L).

Definition db_inv t rows : Prop := rows_inv merkle_leaf_ merkle_hash row_ok t rows.
Notation others := (others merkle_leaf_).

Lemma merkle_hash_Some id row : row_ok id row -> exists h, merkle_hash id row = Some h.
Proof.
  intros [_ _ _ Hs Hd _]. unfold merkle_hash, HashRow, Zlen. rewrite Hd.
  rewrite (proj2 (andb_true_iff _ _)) by (rewrite !Z.leb_le; unfold MAX_DATA_SIZE; lia).
  simpl. rewrite HashFrom_Some by apply sip_hash16_length. eauto.
Qed.

(** The row after [Backup] filled it. *)
Definition filled_row (req : BackupRequest) (l : L) : Row L := {|
  state := POPULATED; tries := u8 (backup_max_tries req); data_size := u8 (Zlen (backup_data req));
  data := backup_data req ++ replicate (MAX_DATA_SIZE - length (backup_data req)) 0;
  pin := backup_pin req; merkle_leaf_ := l |}.

Definition backup_valid (req : BackupRequest) : Prop :=
  Zlen (backup_pin req) = 32 /\ 16 <= Zlen (backup_data req) <= 48 /\ 1 <= backup_max_tries req <= 255.

Lemma filled_row_ok id req l :
  length id = BACKUP_ID_SIZE -> backup_valid req -> row_ok id (filled_row req l).
Proof.
  intros Hid (Hp & Hd & Ht). unfold Zlen in *. split; simpl; [done|unfold POPULATED; lia|apply u8_range| | |].
  - unfold Zlen. rewrite u8_small by ulia. lia.
  - rewrite length_app, length_replicate. unfold MAX_DATA_SIZE. lia.
  - unfold PIN_SIZE. lia.
Qed.

Lemma filled_row_view req l : backup_valid req ->
  view_row (filled_row req l) = {| s_state := POPULATED; s_tries := backup_max_tries req;
    s_data := backup_data req; s_pin := backup_pin req |}.
Proof.
  intros (Hp & Hd & Ht). unfold view_row. simpl. rewrite !u8_small by (unfold Zlen in *; ulia).
  unfold Zlen. by rewrite Nat2Z.id, take_app_length.
Qed.

Lemma fill_row req row {A} (k : bytes -> bytes -> option A) :
  backup_valid req -> length (data row) = MAX_DATA_SIZE -> length (pin row) = PIN_SIZE ->
  (d ← copy_into (backup_data req) (data (Clear row POPULATED));
   p ← copy_into (backup_pin req) (pin (Clear row POPULATED)); k d p) =
  k (backup_data req ++ replicate (MAX_DATA_SIZE - length (backup_data req)) 0) (backup_pin req).
Proof.
  intros (Hp & Hd & _) Hd0 Hp0. unfold Zlen in *. unfold Clear; cbn [data pin]. rewrite Hd0, Hp0.
  rewrite (copy_into_zeros (backup_data req) MAX_DATA_SIZE) by (unfold MAX_DATA_SIZE; lia). cbn [mbind option_bind].
  rewrite (copy_into_exact (backup_pin req)) by (rewrite length_replicate; unfold PIN_SIZE; lia). done.
Qed.

Lemma Backup_spec t rows id req :
  db_inv t rows -> length id = BACKUP_ID_SIZE -> backup_valid req ->
  exists t' rows', Backup t rows id req = Some (t', rows', Backup_OK) /\
    db_inv t' rows' /\ others t rows t' rows' /\ view rows' = (spec_backup (view rows) id req).1.
Proof.
  intros Hi Hid Hv. unfold Backup, spec_backup. destruct (map_find rows id) as [row|] eqn:E; cbn [mbind option_bind].
  - pose proof (ri_ok _ _ _ _ _ Hi _ _ E) as Hrow.
    rewrite fill_row by (done || apply Hrow).
    pose proof (filled_row_ok id req (merkle_leaf_ row) Hid Hv) as Hok.
    destruct (merkle_hash_Some _ _ Hok) as [h Hh].
    destruct (rows_update _ _ _ t rows id row (filled_row req (merkle_leaf_ row)) h Hi E eq_refl Hh Hok)
      as (t' & Et & Hi' & Ho).
    eexists t', _. split; [|split_and!; [exact Hi'|exact Ho|by rewrite view_set, filled_row_view]].
    unfold filled_row in Hh, Et. cbn in Hh, Et |- *. rewrite Hh. cbn. by rewrite Et.
  - destruct (rows_add _ _ _ t rows Hi) as (t1 & l & Hn & Hfr & Hadd). unfold Row_new. rewrite Hn.
    cbn [mbind option_bind]. rewrite fill_row by done.
    pose proof (filled_row_ok id req l Hid Hv) as Hok.
    destruct (merkle_hash_Some _ _ Hok) as [h Hh].
    destruct (Hadd id (filled_row req l) h E eq_refl Hh Hok) as (t' & Et & Hi' & Ho).
    eexists t', _. split; [|split_and!; [exact Hi'|exact Ho|by rewrite view_set, filled_row_view]].
    unfold filled_row in Hh. cbn in Hh |- *. rewrite Hh. cbn. by rewrite Et.
Qed.

(** A row of the database verifies. *)
Lemma verified t rows id row :
  db_inv t rows -> map_find rows id = Some row ->
  row_ok id row /\ exists h, merkle_hash id row = Some h /\ leaf_verify t (merkle_leaf_ row) h = Some OK.
Proof.
  intros Hi E. pose proof (ri_ok _ _ _ _ _ Hi _ _ E) as Hok. split; [done|].
  destruct (merkle_hash_Some _ _ Hok) as [h Hh]. exists h. split; [done|]. by eapply rows_verify.
Qed.

(** A row with the leaf of the row it replaces. *)
Lemma replaced t rows id row row' {A} (k : T -> option A) :
  db_inv t rows -> map_find rows id = Some row -> merkle_leaf_ row' = merkle_leaf_ row -> row_ok id row' ->
  exists t', (h ← merkle_hash id row'; t' ← leaf_update t (merkle_leaf_ row') h; k t') = k t' /\
    db_inv t' (map_set id row' rows) /\ others t rows t' (map_set id row' rows) /\
    view (map_set id row' rows) = <[id := view_row row']> (view rows).
Proof.
  intros Hi E El Hok. destruct (merkle_hash_Some _ _ Hok) as [h Hh].
  destruct (rows_update _ _ _ t rows id row row' h Hi E El Hh Hok) as (t' & Et & Hi' & Ho).
  exists t'. rewrite Hh. cbn. rewrite Et. split_and!; [done|exact Hi'|exact Ho|apply view_set].
Qed.

Lemma set_tries_ok id row n : row_ok id row -> is_u8 n -> row_ok id {| row with tries := n |}.
Proof. by intros [] ?. Qed.
Lemma set_state_ok id row n : row_ok id row -> - 2 ^ 31 <= n < 2 ^ 31 -> row_ok id {| row with state := n |}.
Proof. by intros [] ?. Qed.

Lemma last_try n : is_u8 n -> (u8 (n - 1) =? 0) = (n =? 1).
Proof.
  intros Hn. destruct (Z.eq_dec n 0) as [->|Hne]; [done|]. rewrite u8_small by ulia.
  destruct (Z.eqb_spec n 1), (Z.eqb_spec (n - 1) 0); lia.
Qed.

Lemma Restore_spec t rows id req :
  db_inv t rows ->
  exists t' rows' resp, Restore t rows id req = Some (t', rows', resp) /\
    db_inv t' rows' /\ others t rows t' rows' /\ (view rows', rRestore resp) = spec_restore (view rows) id req.
Proof.
  intros Hi. unfold Restore, spec_restore. rewrite view_lookup.
  destruct (map_find rows id) as [row|] eqn:E; cbn [fmap option_fmap option_map];
    [|eexists _, _, _; split_and!; [done|exact Hi|apply others_refl|done]].
  change (s_state (view_row row)) with (state row).
  destruct (negb (state row =? AVAILABLE)) eqn:Es;
    [eexists _, _, _; split_and!; [done|exact Hi|apply others_refl|done]|].
  destruct (verified _ _ _ _ Hi E) as (Hok & h & -> & Hv). cbn [mbind option_bind]. rewrite Hv. cbn [mbind option_bind is_ok negb].
  rewrite ConstantTimeEquals_eq. cbn [mbind option_bind]. change (s_pin (view_row row)) with (pin row).
  destruct (bool_decide (restore_pin req = pin row));
    [eexists _, _, _; split_and!; [done|exact Hi|apply others_refl|done]|].
  cbn [tries merkle_leaf_]. rewrite (last_try (tries row)) by apply Hok.
  change (s_tries (view_row row)) with (tries row). destruct (tries row =? 1).
  - destruct (rows_drop _ _ _ t rows id row Hi E) as (t' & Et & Hi' & Ho). cbn [Clear merkle_leaf_]. rewrite Et.
    eexists _, _, _. split_and!; [done|exact Hi'|exact Ho|]. by rewrite view_erase.
  - destruct (replaced t rows id row {| row with tries := u8 (tries row - 1) |}
      (fun t => Some (t, map_set id {| row with tries := u8 (tries row - 1) |} rows,
         {| restore_status := Restore_PIN_MISMATCH; restore_data := []; restore_tries := u8 (tries row - 1) |}))
      Hi E eq_refl) as (t' & Et & Hi' & Ho & Hview); [apply set_tries_ok; [done|apply u8_range]|].
    cbn [merkle_leaf_] in Et. rewrite Et.
    eexists _, _, _. split_and!; [done|exact Hi'|exact Ho|]. by rewrite Hview.
Qed.

Lemma Delete_spec t rows id :
  db_inv t rows ->
  exists t' rows', Delete t rows id = Some (t', rows') /\
    db_inv t' rows' /\ others t rows t' rows' /\ view rows' = delete id (view rows).
Proof.
  intros Hi. unfold Delete. destruct (map_find rows id) as [row|] eqn:E.
  - destruct (rows_drop _ _ _ t rows id row Hi E) as (t' & Et & Hi' & Ho). cbn [Clear merkle_leaf_]. rewrite Et.
    eexists _, _. split_and!; [done|exact Hi'|exact Ho|]. by rewrite view_erase.
  - eexists _, _. split_and!; [done|exact Hi|apply others_refl|].
    by rewrite delete_id by (rewrite view_lookup, E; done).
Qed.

Lemma prefix_compare row (d : bytes) :
  0 <= data_size row <= Zlen (data row) ->
  ConstantTimeEqualsPrefix (data row) d (Z.to_nat (data_size row)) =
  Some (bool_decide (s_data (view_row row) `prefix_of` d)).
Proof.
  intros Hs. unfold ConstantTimeEqualsPrefix, Zlen in *. rewrite Z2Nat.id by lia.
  rewrite (proj2 (Z.ltb_ge _ _)) by lia. cbn [orb view_row s_data].
  set (n := Z.to_nat (data_size row)).
  destruct (Z.of_nat (length d) <? data_size row) eqn:El.
  - apply Z.ltb_lt in El. rewrite bool_decide_eq_false_2; [done|].
    intros Hp%prefix_length. rewrite length_take in Hp. lia.
  - apply Z.ltb_ge in El. unfold ConstantTimeEqualsBytes.
    destruct (constant_time_loop_spec n (data row) d 0) as (r & -> & Hr); [lia..|].
    cbn. f_equal. assert (take n (data row) `prefix_of` d <-> take n (data row) = take n d) as Hiff.
    { split; [|intros ->; apply prefix_take].
      intros [k ->]. rewrite take_app_le, (take_ge (take n _)); [done|..]; rewrite length_take; lia. }
    case_bool_decide as Hc; [apply Z.eqb_eq|apply Z.eqb_neq]; tauto.
Qed.

Lemma Expose_spec t rows id req :
  db_inv t rows ->
  exists t' rows' s, Expose t rows id req = Some (t', rows', s) /\
    db_inv t' rows' /\ others t rows t' rows' /\ (view rows', rExpose s) = spec_expose (view rows) id req.
Proof.
  intros Hi. unfold Expose, spec_expose. rewrite view_lookup.
  destruct (map_find rows id) as [row|] eqn:E; cbn [fmap option_fmap option_map];
    [|eexists _, _, _; split_and!; [done|exact Hi|apply others_refl|done]].
  destruct (verified _ _ _ _ Hi E) as (Hok & h & -> & Hv). cbn [mbind option_bind]. rewrite Hv. cbn [mbind option_bind is_ok negb].
  rewrite prefix_compare by (unfold Zlen; destruct Hok as [_ _ _ Hs -> _]; unfold MAX_DATA_SIZE; lia).
  cbn [mbind option_bind]. change (s_state (view_row row)) with (state row).
  destruct (bool_decide _); cbn [negb andb]; [|eexists _, _, _; split_and!; [done|exact Hi|apply others_refl|done]].
  destruct (_ || _); [|eexists _, _, _; split_and!; [done|exact Hi|apply others_refl|done]].
  destruct (replaced t rows id row {| row with state := AVAILABLE |}
      (fun t => Some (t, map_set id {| row with state := AVAILABLE |} rows, Expose_OK))
      Hi E eq_refl) as (t' & Et & Hi' & Ho & Hview); [apply set_state_ok; [done|unfold AVAILABLE; lia]|].
  cbn [merkle_leaf_] in Et |- *. rewrite Et.
  eexists _, _, _. split_and!; [done|exact Hi'|exact Ho|]. by rewrite Hview.
Qed.

Lemma Tries_spec rows id : rTries (Tries rows id) = spec_tries (view rows) id.
Proof. unfold Tries, spec_tries. rewrite view_lookup. by destruct (map_find rows id). Qed.

Lemma validate_backup_id log : ValidateClientLog (MLog2 log) = OK -> Zlen (log2_backup_id log) = 16.
Proof. simpl. destruct (Zlen (log2_backup_id log) =? _) eqn:E; [|done]. intros _. by apply Z.eqb_eq in E. Qed.

Lemma validate_backup log req :
  ValidateClientLog (MLog2 log) = OK -> log2_req log = kBackup req -> backup_valid req.
Proof.
  simpl. intros H E. rewrite E in H. unfold MAX_ALLOWED_MAX_TRIES, MIN_ALLOWED_MAX_TRIES in H.
  guards H. zbool.
  unfold backup_valid, MIN_DATA_SIZE, MAX_DATA_SIZE, PIN_SIZE in *. lia.
Qed.

(** Every validated log runs, as the abstract database. *)
Lemma Run_refines t rows log :
  db_inv t rows -> ValidateClientLog (MLog2 log) = OK ->
  exists t' rows' resp, Run t rows (MLog2 log) = Some (t', rows', MResponse resp) /\
    db_inv t' rows' /\ others t rows t' rows' /\ (view rows', resp) = spec_run (view rows) log.
Proof.
  intros Hi Hv. pose proof (validate_backup_id _ Hv) as Hid. unfold Run, spec_run. rewrite Hv.
  rewrite CHECK_true by done. rewrite CHECK_true by (by apply Z.eqb_eq). unfold Zlen in Hid.
  assert (length (log2_backup_id log) = BACKUP_ID_SIZE) as Hlen by (unfold BACKUP_ID_SIZE; lia).
  destruct (log2_req log) as [|r|r|r| |] eqn:Er.
  - simpl in Hv. rewrite Er in Hv. destruct (negb _) in Hv; done.
  - destruct (Backup_spec t rows _ r Hi Hlen (validate_backup _ _ Hv Er)) as (t' & rows' & -> & Hi' & Ho & Hview).
    eexists _, _, _. split_and!; [done|exact Hi'|exact Ho|]. by rewrite Hview.
  - destruct (Expose_spec t rows (log2_backup_id log) r Hi) as (t' & rows' & s & -> & Hi' & Ho & Hview).
    eexists _, _, _. split_and!; [done|exact Hi'|exact Ho|done].
  - destruct (Restore_spec t rows (log2_backup_id log) r Hi) as (t' & rows' & s & -> & Hi' & Ho & Hview).
    eexists _, _, _. split_and!; [done|exact Hi'|exact Ho|done].
  - destruct (Delete_spec t rows (log2_backup_id log) Hi) as (t' & rows' & -> & Hi' & Ho & Hview).
    eexists _, _, _. split_and!; [done|exact Hi'|exact Ho|]. by rewrite Hview.
  - eexists _, _, _. split_and!; [done|exact Hi|apply others_refl|]. by rewrite Tries_spec.
Qed.
End refine.

(** * Replication of the SVR2 database

    The rows one replica serialises are the rows the other one loads. *)

Section repl.
Context {T L : Type} `{!EqDecision L, !Countable L} {MO : MerkleOps T L} {MS : MerkleSpec T L}.
Context {DP : DbPlatform} {DPL : DbPlatformLaws}.
Notation Rows := (list (BackupID * Row L)).
Implicit Types (t : T) (rows : Rows) (row : Row L).
Notation others := (others merkle_leaf_).

(** Serialised rows, read back as they were. *)
Definition serialized rows (out : list bytes) : Prop :=
  Forall2 (fun p s => SerializeRow2 (row_state p.1 p.2) = Some s /\ ParseRow2 s = Some (row_state p.1 p.2)) rows out.

(** The same rows, but for their leaves and the bytes behind the data. *)
Definition copied (p q : BackupID * Row L) : Prop := q.1 = p.1 /\ view_row q.2 = view_row p.2 /\ row_ok q.1 q.2.

Lemma row_state_fields id row : row_ok id row -> row2_fields (row_state id row).
Proof. intros [_ Hs Ht _ _ _]. split; simpl; [unfold is_u8, is_u32 in *; lia|done]. Qed.

Lemma rows_loop_spec rows i size last_id out :
  0 <= i -> Forall (fun p => row_ok p.1 p.2) rows ->
  exists out', serialized (take (Z.to_nat (size - i)) rows) out' /\
    rows_loop rows i size last_id out =
    (out ++ out', (default last_id (last_key (take (Z.to_nat (size - i)) rows)), OK)).
Proof.
  intros Hi Hr. revert i last_id out Hi. induction Hr as [|[id row] rows Hok Hr IH]; intros i last_id out Hi.
  { exists []. rewrite take_nil, app_nil_r. by repeat constructor. }
  simpl. destruct (Z.ltb_spec i size); simpl.
  - destruct (row2_roundtrip (row_state id row)) as (s & Hs & Hp); [by apply row_state_fields|]. rewrite Hs.
    destruct (IH (i + 1) id (out ++ [s])) as (out' & Hser & ->); [lia|].
    replace (Z.to_nat (size - i)) with (S (Z.to_nat (size - (i + 1)))) by lia. simpl.
    exists (s :: out'). rewrite <- app_assoc. split; [by constructor|].
    unfold last_key. rewrite last_cons. by destruct (last _).
  - exists []. replace (Z.to_nat (size - i)) with 0%nat by lia. rewrite take_0, app_nil_r. by repeat constructor.
Qed.

(** The rows that [RowsAsProtos] starts from. *)
Definition rows_after rows (start : bytes) : Rows :=
  if bool_decide (start = []) then rows else map_from_upper start rows.

Lemma rows_all_ok t rows : db_inv t rows -> Forall (fun p => row_ok p.1 p.2) rows.
Proof.
  intros Hi. apply Forall_forall. intros [id row] Hin. apply (ri_ok _ _ _ _ _ Hi).
  by apply elem_map_find; [apply Hi|].
Qed.

Lemma RowsAsProtos_spec t rows start size :
  db_inv t rows -> start = [] \/ length start = BACKUP_ID_SIZE ->
  exists out, serialized (take (Z.to_nat size) (rows_after rows start)) out /\
    RowsAsProtos rows start size = (out, (default [] (last_key (take (Z.to_nat size) (rows_after rows start))), OK)).
Proof.
  intros Hi Hst. unfold RowsAsProtos, rows_after. pose proof (rows_all_ok _ _ Hi) as Hall.
  case_bool_decide as Hb.
  - destruct (rows_loop_spec rows 0 size [] []) as (out & Hs & ->); [done..|]. rewrite Z.sub_0_r in *. eauto.
  - destruct Hst as [?|Hlen]; [done|]. unfold BackupIDFromString, Zlen. rewrite Hlen. simpl.
    destruct (rows_loop_spec (map_from_upper start rows) 0 size [] []) as (out & Hs & ->); [done| |].
    + unfold map_from_upper. apply Forall_forall. intros p Hp. apply list_elem_of_In, filter_In in Hp as [Hp _].
      apply list_elem_of_In in Hp. rewrite Forall_forall in Hall. by apply Hall.
    + rewrite Z.sub_0_r in *. eauto.
Qed.

(** ** Loading *)
Definition loaded_row (r : DB2RowState) (l : L) : Row L := {|
  state := row2_state r; tries := u8 (row2_tries r); data_size := u8 (Zlen (row2_data r));
  data := row2_data r ++ replicate (MAX_DATA_SIZE - length (row2_data r)) 0; pin := row2_pin r; merkle_leaf_ := l |}.

(** A row state the checks let pass; a row with no tries left is one. *)
Record loadable (r : DB2RowState) : Prop := {
  lo_id : length (row2_backup_id r) = BACKUP_ID_SIZE;
  lo_tries : 0 <= row2_tries r <= 255;
  lo_state : - 2 ^ 31 <= row2_state r < 2 ^ 31;
  lo_data : 16 <= Zlen (row2_data r) <= 48;
  lo_pin : length (row2_pin r) = PIN_SIZE }.

Lemma loaded_row_ok r l : loadable r -> row_ok (row2_backup_id r) (loaded_row r l).
Proof.
  intros [H1 H2 H3 H4 H5]. unfold Zlen in H4. split; simpl; [done|done|apply u8_range| | |done].
  - unfold Zlen. rewrite u8_small by ulia. lia.
  - rewrite length_app, length_replicate. unfold MAX_DATA_SIZE. lia.
Qed.

Lemma loaded_row_view r l : loadable r ->
  view_row (loaded_row r l) = {| s_state := row2_state r; s_tries := row2_tries r;
    s_data := row2_data r; s_pin := row2_pin r |}.
Proof.
  intros [H1 H2 H3 H4 H5]. unfold view_row. simpl. rewrite !u8_small by (unfold Zlen in *; ulia).
  unfold Zlen. by rewrite Nat2Z.id, take_app_length.
Qed.

Lemma load_row_spec t rows r :
  db_inv t rows -> loadable r -> (forall k, last_key rows = Some k -> key_lt k (row2_backup_id r) = true) ->
  exists t' l, load_row t rows r = Some (t', rows ++ [(row2_backup_id r, loaded_row r l)], OK) /\
    db_inv t' (rows ++ [(row2_backup_id r, loaded_row r l)]) /\
    others t rows t' (rows ++ [(row2_backup_id r, loaded_row r l)]).
Proof.
  intros Hi Hlo Hlast. pose proof Hlo as [H1 H2 H3 H4 H5]. unfold Zlen in H4. unfold load_row.
  rewrite (proj2 (Z.ltb_ge MAX_ALLOWED_MAX_TRIES _)) by (unfold MAX_ALLOWED_MAX_TRIES; lia).
  unfold Zlen. rewrite H5, Z.eqb_refl.
  rewrite (proj2 (Z.ltb_ge (Z.of_nat (length (row2_data r))) _)) by (unfold MIN_DATA_SIZE; lia).
  rewrite (proj2 (Z.ltb_ge (Z.of_nat MAX_DATA_SIZE) _)) by (unfold MAX_DATA_SIZE; lia). cbn [orb negb].
  unfold BackupIDFromString, Zlen. rewrite H1, Z.eqb_refl. cbn [negb is_ok].
  assert (match last_key rows with Some k => negb (key_lt k (row2_backup_id r)) | None => false end = false) as ->.
  { destruct (last_key rows) as [k|]; [|done]. by rewrite (Hlast k eq_refl). }
  destruct (rows_load _ _ _ t rows Hi) as (t1 & l & Hn & Hload). unfold Row_new. rewrite Hn. cbn [mbind option_bind pin data].
  rewrite (copy_into_exact (row2_pin r) (replicate PIN_SIZE 0)) by (rewrite length_replicate; exact H5).
  rewrite (copy_into_zeros (row2_data r) MAX_DATA_SIZE) by (unfold MAX_DATA_SIZE; lia). cbn [mbind option_bind merkle_leaf_].
  destruct (merkle_hash_Some _ _ (loaded_row_ok r l Hlo)) as [h Hh].
  destruct (Hload h) as (t2 & Hu & t3 & l' & Hm & Hrest). clear Hload.
  destruct (map_set_last rows (row2_backup_id r) (loaded_row r l') (ri_map _ _ _ _ _ Hi) Hlast) as [Hset Hnone].
  destruct (Hrest (row2_backup_id r) (loaded_row r l') Hnone eq_refl Hh (loaded_row_ok r l' Hlo)) as [Hi' Ho].
  exists t3, l'. rewrite Hset in Hi', Ho. split; [|by split].
  unfold loaded_row in Hh, Hset. unfold Zlen in Hh, Hset. rewrite Hh. cbn [mbind option_bind merkle_leaf_].
  rewrite Hu. cbn [mbind option_bind]. rewrite Hm. cbn [mbind option_bind].
  unfold loaded_row, Zlen. cbn [state tries data_size data pin]. by rewrite Hset.
Qed.

Lemma row_state_loadable id row : row_ok id row -> loadable (row_state id row).
Proof.
  intros [H1 H2 H3 H4 H5 H6]. split; simpl; try done; [unfold is_u8 in H3; lia|].
  unfold Zlen. rewrite length_take, H5. unfold MAX_DATA_SIZE. lia.
Qed.

Lemma load_rows_loop_spec t rows src out last_id :
  db_inv t rows -> Forall (fun p => row_ok p.1 p.2) src -> serialized src out ->
  map_ok (rows ++ src) ->
  exists t' new, load_rows_loop t rows out last_id =
      Some (t', rows ++ new, (default last_id (last_key src), OK)) /\
    Forall2 copied src new /\ db_inv t' (rows ++ new) /\ others t rows t' (rows ++ new).
Proof.
  intros Hi Hall Hser. revert t rows last_id Hi. induction Hser as [|[id row] s src out [Hs Hp] Hser IH];
    intros t rows last_id Hi Hord.
  { exists t, []. rewrite app_nil_r. split_and!; [done|constructor|done|apply others_refl]. }
  apply Forall_cons in Hall as [Hok Hall]. simpl in Hp, Hok.
  pose proof (row_state_loadable _ _ Hok) as Hlo.
  destruct (load_row_spec t rows (row_state id row) Hi Hlo) as (t1 & l & E1 & Hi1 & Ho1); [intros k Hk; exact (above_last _ _ _ _ _ Hord Hk)|].
  destruct (IH Hall t1 (rows ++ [(id, loaded_row (row_state id row) l)]) id Hi1) as (t2 & new & E2 & Hc & Hi2 & Ho2).
  { unfold map_ok in *. rewrite !fmap_app in *. simpl in *. by rewrite <- app_assoc. }
  rewrite <- app_assoc in E2, Hi2, Ho2. exists t2, ((id, loaded_row (row_state id row) l) :: new).
  simpl. rewrite Hp. simpl. rewrite E1. simpl. rewrite E2. split; [|split_and!; [|done|by eapply others_trans]].
  - unfold last_key. rewrite last_cons. by destruct (last _).
  - constructor; [|done]. split_and!; [done| |by apply (loaded_row_ok (row_state id row))].
    simpl. rewrite loaded_row_view by done. done.
Qed.

Lemma LoadRowsFromProtos_spec t rows src out :
  db_inv t rows -> Forall (fun p => row_ok p.1 p.2) src -> serialized src out -> map_ok (rows ++ src) -> src <> [] ->
  exists t' new, LoadRowsFromProtos t rows out = Some (t', rows ++ new, (default [] (last_key src), OK)) /\
    Forall2 copied src new /\ db_inv t' (rows ++ new) /\ others t rows t' (rows ++ new).
Proof.
  intros Hi Hall Hser Hord Hne. unfold LoadRowsFromProtos.
  pose proof (Forall2_length _ _ _ Hser) as Hlen.
  rewrite CHECK_true by (rewrite bool_decide_eq_false_2; [done|]; intros ->; by destruct src).
  destruct (load_rows_loop_spec t rows src out [] Hi Hall Hser Hord) as (t' & new & E & Hc & Hi' & Ho).
  rewrite E. simpl. rewrite (proj2 (Z.eqb_eq _ _)).
  - simpl. eexists _, _. split_and!; done.
  - pose proof (Forall2_length _ _ _ Hc). rewrite Zlen_app. unfold Zlen. lia.
Qed.

(** ** Copies have the same hash *)
Lemma HashRow_view id row row' :
  row_ok id row -> row_ok id row' -> view_row row' = view_row row -> HashRow id row' = HashRow id row.
Proof.
  intros [_ _ _ H1 H2 _] [_ _ _ H1' H2' _] Hv. unfold view_row in Hv. injection Hv as Es Et Ed Ep.
  assert (data_size row' = data_size row) as Esz.
  { apply (f_equal length) in Ed. rewrite !length_take, H2, H2' in Ed. unfold MAX_DATA_SIZE in *. lia. }
  unfold HashRow, Zlen. by rewrite H2, H2', Es, Et, Esz, Ep, <- Ed, Esz.
Qed.

Lemma DB_Hash_copied rows new :
  Forall (fun p => row_ok p.1 p.2) rows -> Forall2 copied rows new -> DB_Hash new = DB_Hash rows.
Proof.
  intros Hall Hc. unfold DB_Hash, Zlen. rewrite <- (Forall2_length _ _ _ Hc).
  replace (mapM (fun '(id, row) => HashRow id row) new) with (mapM (fun '(id, row) => HashRow id row) rows); [done|].
  induction Hc as [|[id row] [id' row'] rows new (E1 & E2 & E3) Hc IH]; [done|]. simpl in *.
  apply Forall_cons in Hall as [H1 Hall]. rewrite (IH Hall), E1. rewrite E1 in E3.
  by rewrite (HashRow_view id row row').
Qed.
End repl.
