(* ===== verification/Db2Props.v ===== *)
(** * Properties of the SVR2 database

    What a client, or whoever controls the requests, can get out of the
    database: a secret only with its PIN, a bounded number of wrong guesses,
    and nothing from a backup that was not exposed by someone who knows it.
    Every reachable database is well typed. *)
From stdpp Require Import prelude gmap sorting.
From S2P Require Import Prelude Errors Containers Util Merkle MerkleProofs MerkleProps ClientTypes Db Db2 Db2Spec.

(** ** Sequences of logs *)
Definition logs_ok (logs : list Log2) : Prop := Forall (fun log => ValidateClientLog (MLog2 log) = OK) logs.

Fixpoint spec_logs (m : Secrets) (logs : list Log2) : Secrets * list Response :=
  match logs with
  | [] => (m, [])
  | log :: logs' =>
      let '(m, resp) := spec_run m log in let '(m, resps) := spec_logs m logs' in (m, resp :: resps)
  end.

Section props.
Context {T L : Type} `{!EqDecision L, !Countable L} {MO : MerkleOps T L} {MS : MerkleSpec T L}.
Context {DP : DbPlatform} {DPL : DbPlatformLaws}.
Notation Rows := (list (BackupID * Row L)).
Implicit Types (t : T) (rows : Rows).

Fixpoint run_logs t rows (logs : list Log2) : option (T * Rows * list Response) :=
  match logs with
  | [] => Some (t, rows, [])
  | log :: logs' =>
      '(t, rows, msg) ← Run t rows (MLog2 log);
      resp ← (match msg with MResponse resp => Some resp | _ => None end);
      '(t, rows, resps) ← run_logs t rows logs'; Some (t, rows, resp :: resps)
  end.

Lemma run_logs_refines t rows logs :
  db_inv t rows -> logs_ok logs ->
  exists t' rows' resps, run_logs t rows logs = Some (t', rows', resps) /\ db_inv t' rows' /\
    others merkle_leaf_ t rows t' rows' /\ (view rows', resps) = spec_logs (view rows) logs.
Proof.
  intros Hi Hl. revert t rows Hi. induction Hl as [|log logs Hv Hl IH]; intros t rows Hi.
  { eexists _, _, _. split_and!; [done|done|apply others_refl|done]. }
  destruct (Run_refines t rows log Hi Hv) as (t1 & rows1 & resp & E1 & Hi1 & Ho1 & Hs1).
  destruct (IH t1 rows1 Hi1) as (t2 & rows2 & resps & E2 & Hi2 & Ho2 & Hs2).
  exists t2, rows2, (resp :: resps). simpl. rewrite E1. simpl. rewrite E2. simpl.
  split_and!; [done|done|by eapply others_trans|]. rewrite <- Hs1, <- Hs2. done.
Qed.
End props.

(** ** What the abstract database does to one backup *)

(** A [Restore] of [id] with the wrong PIN, on an exposed backup. *)
Definition wrong_guess (id : BackupID) (m : Secrets) (log : Log2) : bool :=
  bool_decide (log2_backup_id log = id) &&
  match log2_req log, m !! id with
  | kRestore r, Some s => (s_state s =? AVAILABLE) && negb (bool_decide (restore_pin r = s_pin s))
  | _, _ => false
  end.
Fixpoint wrong_guesses (id : BackupID) (m : Secrets) (logs : list Log2) : Z :=
  match logs with
  | [] => 0
  | log :: logs' => (if wrong_guess id m log then 1 else 0) + wrong_guesses id (spec_run m log).1 logs'
  end.

Definition no_backup (id : BackupID) (logs : list Log2) : Prop :=
  Forall (fun log => log2_backup_id log = id -> match log2_req log with kBackup _ => False | _ => True end) logs.

(** Everyone else's requests leave a backup alone. *)
Lemma spec_run_other m log id : log2_backup_id log <> id -> (spec_run m log).1 !! id = m !! id.
Proof.
  intros Hne. unfold spec_run. destruct (log2_req log) as [|r|r|r| |]; simpl; [done|..].
  - by rewrite lookup_insert_ne.
  - unfold spec_expose. destruct (m !! _); [|done]. case_match; [|done]. simpl. by rewrite lookup_insert_ne.
  - unfold spec_restore. destruct (m !! _); [|done]. repeat case_match; simpl; try done;
      by rewrite ?lookup_insert_ne, ?lookup_delete_ne.
  - by rewrite lookup_delete_ne.
  - done.
Qed.

(** A request for a backup, other than [Backup], removes it or keeps its
    secret; its tries go down by one exactly on a wrong guess. *)
Lemma spec_run_one m log id s :
  m !! id = Some s -> 1 <= s_tries s <= 255 ->
  (log2_backup_id log = id -> match log2_req log with kBackup _ => False | _ => True end) ->
  let w := if wrong_guess id m log then 1 else 0 in
  match (spec_run m log).1 !! id with
  | Some s' => s_data s' = s_data s /\ s_pin s' = s_pin s /\ s_tries s' = s_tries s - w /\ 1 <= s_tries s' /\
      (s_state s' = s_state s \/ s_state s' = AVAILABLE /\ exists r, log2_backup_id log = id /\
        log2_req log = kExpose r /\ s_data s `prefix_of` expose_data r)
  | None => w <= s_tries s
  end.
Proof.
  intros Hs Ht Hnb w. destruct (decide (log2_backup_id log = id)) as [He|Hne]; last first.
  { rewrite spec_run_other by done. subst w. unfold wrong_guess. rewrite bool_decide_eq_false_2, Hs by done.
    simpl. split_and!; [done|done|lia|lia|by left]. }
  specialize (Hnb He). subst w. unfold wrong_guess, spec_run. rewrite bool_decide_eq_true_2, He by done.
  destruct (log2_req log) as [|r|r|r| |]; cbn [andb fst]; rewrite ?Hs, ?lookup_delete_eq; try done;
    try (split_and!; [done|done|lia|lia|by left]).
  - unfold spec_expose. rewrite Hs. destruct (bool_decide _) eqn:E; simpl; [|rewrite Hs; split_and!; [done|done|lia|lia|by left]].
    destruct (_ || _); simpl; [|rewrite Hs; split_and!; [done|done|lia|lia|by left]].
    rewrite lookup_insert_eq. simpl. btrue. split_and!; [done|done|lia|lia|right; eauto].
  - unfold spec_restore. rewrite Hs. destruct (s_state s =? AVAILABLE); simpl; [|rewrite Hs; split_and!; [done|done|lia|lia|by left]].
    destruct (bool_decide _); simpl; [rewrite Hs; split_and!; [done|done|lia|lia|by left]|].
    destruct (Z.eqb_spec (s_tries s) 1); simpl; [rewrite lookup_delete_eq; lia|].
    rewrite lookup_insert_eq. simpl. rewrite u8_small by ulia. split_and!; [done|done|lia|lia|by left].
  - lia.
Qed.

(** A backup that is gone stays gone. *)
Lemma spec_run_gone m log id :
  m !! id = None -> (log2_backup_id log = id -> match log2_req log with kBackup _ => False | _ => True end) ->
  (spec_run m log).1 !! id = None /\ wrong_guess id m log = false.
Proof.
  intros Hs Hnb. split; last first.
  { unfold wrong_guess. rewrite Hs. destruct (bool_decide _); [|done]. by destruct (log2_req log). }
  destruct (decide (log2_backup_id log = id)) as [He|Hne]; [|by rewrite spec_run_other].
  specialize (Hnb He). unfold spec_run. rewrite He.
  destruct (log2_req log); try done; simpl; rewrite ?lookup_delete_eq; try done.
  - unfold spec_expose. by rewrite Hs.
  - unfold spec_restore. by rewrite Hs.
Qed.

Lemma wrong_guesses_gone m logs id : m !! id = None -> no_backup id logs ->
  wrong_guesses id m logs = 0 /\ (spec_logs m logs).1 !! id = None.
Proof.
  intros Hs Hn. revert m Hs. induction Hn as [|log logs Hnb Hn IH]; intros m Hs; [done|]. simpl.
  destruct (spec_run_gone m log id Hs Hnb) as [Hg ->]. destruct (spec_run m log) as [m1 resp].
  simpl in *. destruct (IH m1 Hg) as [-> H]. by destruct (spec_logs m1 logs).
Qed.

Lemma wrong_guesses_bound m logs id s :
  m !! id = Some s -> 1 <= s_tries s <= 255 -> no_backup id logs ->
  match (spec_logs m logs).1 !! id with
  | Some s' => s_data s' = s_data s /\ s_pin s' = s_pin s /\
      s_tries s' = s_tries s - wrong_guesses id m logs /\ 1 <= s_tries s'
  | None => wrong_guesses id m logs <= s_tries s
  end.
Proof.
  intros Hs Ht Hn. revert m s Hs Ht. induction Hn as [|log logs Hnb Hn IH]; intros m s Hs Ht.
  { simpl. rewrite Hs. split_and!; [done|done|lia|lia]. }
  pose proof (spec_run_one m log id s Hs Ht Hnb) as H1. simpl in *.
  destruct (spec_run m log) as [m1 resp]. simpl in *. destruct (m1 !! id) as [s1|] eqn:E.
  - destruct H1 as (D1 & P1 & T1 & G1 & _). specialize (IH m1 s1 E). destruct (spec_logs m1 logs) as [m2 resps].
    simpl in *. assert (1 <= s_tries s1 <= 255) as Ht1 by (destruct (wrong_guess id m log); lia).
    specialize (IH Ht1). destruct (m2 !! id) as [s2|]; [|lia].
    destruct IH as (? & ? & ? & ?). split_and!; [congruence|congruence|lia|lia].
  - destruct (wrong_guesses_gone m1 logs id E Hn) as [-> H2].
    destruct (spec_logs m1 logs) as [m2 resps]. simpl in *. rewrite H2. destruct (wrong_guess id m log); lia.
Qed.

(** ** A backup that was not exposed *)
Definition hidden (id : BackupID) (d : bytes) (m : Secrets) : Prop :=
  forall s, m !! id = Some s -> s_state s = POPULATED /\ s_data s = d /\ 1 <= s_tries s <= 255.

Definition no_expose (id : BackupID) (d : bytes) (logs : list Log2) : Prop :=
  Forall (fun log => log2_backup_id log = id -> forall r, log2_req log = kExpose r -> ~ d `prefix_of` expose_data r) logs.

(** The response to a [Restore] of [id] reveals nothing. *)
Definition reveals_nothing (id : BackupID) (log : Log2) (resp : Response) : Prop :=
  log2_backup_id log = id -> forall r, log2_req log = kRestore r -> resp = restore_reply Restore_MISSING [] 0.

Lemma hidden_step id d m log :
  hidden id d m -> no_backup id [log] -> no_expose id d [log] ->
  hidden id d (spec_run m log).1 /\ reveals_nothing id log (spec_run m log).2.
Proof.
  intros Hh Hnb Hne. unfold no_backup in Hnb. unfold no_expose in Hne.
  rewrite Forall_singleton in Hnb. rewrite Forall_singleton in Hne. split.
  - intros s' Hs'. destruct (m !! id) as [s|] eqn:E; last first.
    { destruct (spec_run_gone m log id E Hnb). congruence. }
    destruct (Hh s E) as (H1 & H2 & H3). pose proof (spec_run_one m log id s E H3 Hnb) as H. simpl in H.
    rewrite Hs' in H. destruct H as (-> & _ & Et & Hg & [->|[_ (r & Hid & Hr & Hp)]]).
    + split_and!; [done|done|lia|]. destruct (wrong_guess id m log); lia.
    + rewrite H2 in Hp. by destruct (Hne Hid r Hr).
  - intros <- r Hr. unfold spec_run, spec_restore. rewrite Hr. destruct (m !! _) as [s|] eqn:E; [|done].
    by destruct (Hh s E) as (-> & _).
Qed.

Lemma hidden_logs id d m logs :
  hidden id d m -> no_backup id logs -> no_expose id d logs ->
  hidden id d (spec_logs m logs).1 /\ Forall2 (reveals_nothing id) logs (spec_logs m logs).2.
Proof.
  revert m. induction logs as [|log logs IH]; intros m Hh Hnb Hne; [by split|].
  apply Forall_cons in Hnb as [Hnb1 Hnb]. apply Forall_cons in Hne as [Hne1 Hne].
  destruct (hidden_step id d m log Hh) as [H1 H2]; [by constructor..|]. simpl.
  destruct (spec_run m log) as [m1 resp]. simpl in *. destruct (IH m1 H1 Hnb Hne) as [H3 H4].
  destruct (spec_logs m1 logs) as [m2 resps]. simpl in *. auto.
Qed.

Lemma db_inv_empty {T L} `{!EqDecision L, !Countable L} {MO : MerkleOps T L} {MS : MerkleSpec T L}
    {DP : DbPlatform} (t : T) : tree_ok ∅ t -> db_inv t ([] : list (BackupID * Row L)).
Proof. intros Ht. split; [done|constructor|done..]. Qed.

(** ** Properties *)
Section theorems.
Context {T L : Type} `{!EqDecision L, !Countable L} {MO : MerkleOps T L} {MS : MerkleSpec T L}.
Context {DP : DbPlatform} {DPL : DbPlatformLaws}.
Notation Rows := (list (BackupID * Row L)).
Implicit Types (t : T) (rows : Rows).

(** C4: The database refines the abstract map of secrets.  On well-formed rows
    in step with the Merkle tree every sequence of validated logs runs (no
    [CHECK] fails, no array is overrun, no Merkle verification fails), with
    the responses and the final secrets of the abstract database; the rows
    stay well formed and in step, and leaves that belong to others (Raft's)
    keep their hashes. *)
Theorem db2_refines_secrets t rows logs :
  db_inv t rows -> logs_ok logs ->
  exists t' rows' resps, run_logs t rows logs = Some (t', rows', resps) /\ db_inv t' rows' /\
    others merkle_leaf_ t rows t' rows' /\ (view rows', resps) = spec_logs (view rows) logs.
Proof. apply run_logs_refines. Qed.

(** C3: Limited guessing.  Between two [Backup]s of an ID, whatever is asked
    in whatever order, at most as many wrong PINs are evaluated as the backup
    has tries; while the backup exists its PIN and secret are unchanged and
    its tries are exactly those not yet spent, and once they are all spent it
    is gone. *)
Theorem pin_guesses_bounded t rows logs t' rows' resps id row :
  db_inv t rows -> logs_ok logs -> run_logs t rows logs = Some (t', rows', resps) ->
  map_find rows id = Some row -> 1 <= tries row -> no_backup id logs ->
  let w := wrong_guesses id (view rows) logs in
  w <= tries row /\
  (forall row', map_find rows' id = Some row' ->
     view_row row' = {| s_state := state row'; s_tries := tries row - w;
       s_data := s_data (view_row row); s_pin := pin row |} /\ 1 <= tries row') /\
  (w = tries row -> map_find rows' id = None).
Proof.
  intros Hi Hl Hr Hf Ht Hn w. destruct (run_logs_refines t rows logs Hi Hl) as (t1 & rows1 & resps1 & E & _ & _ & Hs).
  assert (rows1 = rows') as -> by congruence.
  assert (view rows !! id = Some (view_row row)) as Hv by (by rewrite view_lookup, Hf).
  pose proof (rk_tries _ _ (ri_ok _ _ _ _ _ Hi _ _ Hf)) as Hu.
  pose proof (wrong_guesses_bound (view rows) logs id (view_row row) Hv) as Hb.
  rewrite <- Hs in Hb. cbn [fst] in Hb. rewrite view_lookup in Hb. fold w in Hb.
  change (s_tries (view_row row)) with (tries row) in Hb. specialize (Hb ltac:(unfold is_u8 in Hu; lia) Hn).
  destruct (map_find rows' id) as [row'|] eqn:Hf'; simpl in Hb.
  - destruct Hb as (Hd & Hp & Htr & Hge). split_and!; [lia| |lia].
    intros ? [= <-]. split; [|done]. unfold view_row at 1. by rewrite Hd, Hp, Htr.
  - split_and!; [lia|done|done].
Qed.

(** C10: A secret is returned only for its PIN: if a log gets a response to
    [Restore] that carries data, or the status [OK], the backup exists, was
    exposed, the request's PIN is its PIN, and the data is its secret. *)
Theorem secret_needs_pin t rows log t' rows' resp :
  db_inv t rows -> Run t rows (MLog2 log) = Some (t', rows', MResponse (rRestore resp)) ->
  restore_data resp <> [] \/ restore_status resp = Restore_OK ->
  exists r row, log2_req log = kRestore r /\ map_find rows (log2_backup_id log) = Some row /\
    state row = AVAILABLE /\ restore_pin r = pin row /\ restore_status resp = Restore_OK /\
    restore_data resp = take (Z.to_nat (data_size row)) (data row) /\ rows' = rows /\ t' = t.
Proof.
  intros Hi Hrun Hd. assert (ValidateClientLog (MLog2 log) = OK) as Hv.
  { unfold Run in Hrun. apply CHECK_Some in Hrun as [Hv _]. by destruct (ValidateClientLog _). }
  assert (exists r, log2_req log = kRestore r /\
    Restore t rows (log2_backup_id log) r = Some (t', rows', resp)) as (r & Hr & Hres).
  { unfold Run in Hrun. apply CHECK_Some in Hrun as [_ Hrun]. apply CHECK_Some in Hrun as [_ Hrun].
    apply bind_Some in Hrun as ([[t1 rows1] resp1] & Hrun & Heq). injection Heq as -> -> ->.
    destruct (log2_req log) as [|r|r|r| |]; try done;
      try (apply bind_Some in Hrun as ([[? ?] ?] & ? & ?); by simplify_eq).
    - apply bind_Some in Hrun as ([[? ?] ?] & ? & ?). simplify_eq. eauto.
    - apply bind_Some in Hrun as ([? ?] & ? & ?). by simplify_eq. }
  exists r. unfold Restore in Hres. destruct (map_find rows _) as [row|] eqn:Hf; [|destruct Hd; by simplify_eq].
  exists row. destruct (state row =? AVAILABLE) eqn:Es; simpl in Hres; [|destruct Hd; by simplify_eq].
  destruct (verified _ _ _ _ Hi Hf) as (_ & h & Hh & Hver). rewrite Hh in Hres. simpl in Hres.
  rewrite Hver in Hres. simpl in Hres. rewrite ConstantTimeEquals_eq in Hres. simpl in Hres.
  case_bool_decide; [simplify_eq; zbool; by split_and!|].
  exfalso. case_match; apply bind_Some in Hres as (? & ? & Hres); [destruct Hd; by simplify_eq|].
  apply bind_Some in Hres as (? & ? & Hres). destruct Hd; by simplify_eq.
Qed.

(** C7: Two-phase backup.  After a [Backup] of a secret, as long as it is not
    replaced by another [Backup] and no [Expose] presents data that begins
    with the secret, every [Restore] of that ID, with any PIN, is answered
    [MISSING] without data: an operator who replays or reorders requests
    without knowing the secret gets no guesses. *)
Theorem unexposed_backup_hidden t rows id req logs t' rows' resp resps :
  db_inv t rows ->
  run_logs t rows ({| log2_backup_id := id; log2_req := kBackup req |} :: logs) = Some (t', rows', resp :: resps) ->
  logs_ok ({| log2_backup_id := id; log2_req := kBackup req |} :: logs) ->
  no_backup id logs -> no_expose id (backup_data req) logs ->
  resp = rBackup Backup_OK /\ Forall2 (reveals_nothing id) logs resps.
Proof.
  intros Hi Hr Hl Hnb Hne.
  destruct (run_logs_refines t rows _ Hi Hl) as (t1 & rows1 & resps1 & E & _ & _ & Hs).
  rewrite Hr in E. injection E as <- <- <-. simpl in Hs.
  match type of Hs with context [spec_logs ?m logs] => destruct (hidden_logs id (backup_data req) m logs) as [_ H] end.
  - intros s. rewrite lookup_insert_eq. intros [= <-]. simpl. split; [done|split; [done|]].
    apply Forall_cons in Hl as [Hv _]. by destruct (validate_backup _ req Hv eq_refl) as (_ & _ & ?).
  - done.
  - done.
  - destruct (spec_logs _ logs) as [m2 resps2]. injection Hs as E1 E2 E3. by subst.
Qed.
End theorems.

(** ** Examples *)
#[local] Existing Instance toy_sip.
#[local] Existing Instance toy_db.
#[local] Existing Instance toy_db_laws.

Definition ex_id : BackupID := replicate 16 9.
Definition ex_log (r : Request) : Log2 := {| log2_backup_id := ex_id; log2_req := r |}.
Definition ex_backup_req : BackupRequest :=
  {| backup_data := replicate 20 7; backup_pin := replicate 32 1; backup_max_tries := 3 |}.
Definition ex_expose : Log2 := ex_log (kExpose {| expose_data := replicate 20 7 |}).
Definition ex_guess (n : Z) : Log2 := ex_log (kRestore {| restore_pin := replicate 32 n |}).

Definition ex_exposed : option (Tree * list (BackupID * Row nat) * list Response) :=
  run_logs Tree_new [] [ex_log (kBackup ex_backup_req); ex_expose].

Lemma ex_empty_inv : db_inv Tree_new ([] : list (BackupID * Row nat)).
Proof. apply db_inv_empty, Tree_new_ok. Qed.

Lemma ex_exposed_inv : exists t rows resps, ex_exposed = Some (t, rows, resps) /\ db_inv t rows.
Proof.
  destruct (run_logs_refines Tree_new [] [ex_log (kBackup ex_backup_req); ex_expose] ex_empty_inv)
    as (t & rows & resps & E & Hi & _); [repeat constructor|]. eauto.
Qed.

Lemma ex_exposed_row t rows resps : ex_exposed = Some (t, rows, resps) ->
  exists row, map_find rows ex_id = Some row /\ tries row = 3 /\
    wrong_guesses ex_id (view rows) [ex_guess 2; ex_guess 3; ex_expose; ex_guess 4; ex_guess 1] = 3.
Proof.
  intros E. vm_compute in E. injection E as <- <- <-. eexists. split; [vm_compute; reflexivity|].
  split; vm_compute; reflexivity.
Qed.

Lemma db2_refines_secrets_witness :
  exists (t' : Tree) rows' resps,
    run_logs Tree_new ([] : list (BackupID * Row nat)) [ex_log (kBackup ex_backup_req); ex_expose; ex_guess 1]
      = Some (t', rows', resps) /\
    (view rows', resps) = spec_logs ∅ [ex_log (kBackup ex_backup_req); ex_expose; ex_guess 1].
Proof.
  destruct (db2_refines_secrets Tree_new [] [ex_log (kBackup ex_backup_req); ex_expose; ex_guess 1]
    ex_empty_inv) as (t & rows & resps & E & _ & _ & H); [repeat constructor|].
  exists t, rows, resps. split; [exact E|exact H].
Defined.

Lemma pin_guesses_bounded_witness :
  exists t rows resps t' rows' resps', ex_exposed = Some (t, rows, resps) /\
    run_logs t rows [ex_guess 2; ex_guess 3; ex_expose; ex_guess 4; ex_guess 1] = Some (t', rows', resps') /\
    map_find rows' ex_id = None.
Proof.
  destruct ex_exposed_inv as (t & rows & resps & E & Hi).
  destruct (ex_exposed_row _ _ _ E) as (row & Hf & Ht & Hw).
  assert (logs_ok [ex_guess 2; ex_guess 3; ex_expose; ex_guess 4; ex_guess 1]) as Hl by repeat constructor.
  destruct (run_logs_refines t rows _ Hi Hl) as (t' & rows' & resps' & E' & _).
  exists t, rows, resps, t', rows', resps'. split; [exact E|]. split; [exact E'|].
  apply (pin_guesses_bounded t rows _ t' rows' resps' ex_id row Hi Hl E' Hf);
    [lia|repeat (constructor; [intros _; exact I|]); constructor|rewrite Hw, Ht; reflexivity].
Defined.

Lemma secret_needs_pin_witness :
  exists t rows resps row, ex_exposed = Some (t, rows, resps) /\ map_find rows ex_id = Some row /\
    replicate 32 1 = pin row.
Proof.
  destruct ex_exposed_inv as (t & rows & resps & E & Hi). exists t, rows, resps.
  assert (exists t' rows' resp, Run t rows (MLog2 (ex_guess 1)) = Some (t', rows', MResponse (rRestore resp)) /\
    restore_status resp = Restore_OK) as (t' & rows' & resp & Hrun & Hok).
  { clear Hi. vm_compute in E. injection E as <- <- <-. eexists _, _, _. split; vm_compute; reflexivity. }
  destruct (secret_needs_pin t rows (ex_guess 1) t' rows' resp Hi Hrun (or_intror Hok))
    as (r & row & Hr & Hf & _ & Hp & _).
  exists row. split; [exact E|]. split; [exact Hf|]. injection Hr as <-. exact Hp.
Defined.

Lemma unexposed_backup_hidden_witness :
  exists t' rows' resp resps,
    run_logs Tree_new ([] : list (BackupID * Row nat)) (ex_log (kBackup ex_backup_req) :: [ex_guess 1; ex_guess 2])
      = Some (t', rows', resp :: resps) /\ Forall2 (reveals_nothing ex_id) [ex_guess 1; ex_guess 2] resps.
Proof.
  assert (exists t' rows' resp resps, run_logs Tree_new ([] : list (BackupID * Row nat))
    (ex_log (kBackup ex_backup_req) :: [ex_guess 1; ex_guess 2]) = Some (t', rows', resp :: resps))
    as (t' & rows' & resp & resps & E) by (eexists _, _, _, _; vm_compute; reflexivity).
  exists t', rows', resp, resps. split; [exact E|].
  apply (unexposed_backup_hidden Tree_new [] ex_id ex_backup_req [ex_guess 1; ex_guess 2] t' rows' resp resps
    ex_empty_inv E); repeat (constructor; [try exact (fun _ => I); try done|]); constructor.
Defined.

(** * Every reachable SVR2 database is well typed

    Logs of clients and rows pushed by other replicas, whatever these contain,
    leave rows whose fields fit the types and arrays of the C++ row, under
    distinct keys in order, each in step with its leaf of the Merkle tree. *)

(** ** Operations *)
Inductive DbOp := OpRun (log : Log2) | OpLoad (protos : list bytes).
(** The core validates a log before it runs it, and loads what is not empty. *)
Definition op_ok (op : DbOp) : Prop :=
  match op with OpRun log => ValidateClientLog (MLog2 log) = OK | OpLoad protos => protos <> [] end.

Section types.
Context {T L : Type} `{!EqDecision L, !Countable L} {MO : MerkleOps T L} {MS : MerkleSpec T L}.
Context {DP : DbPlatform} {DPL : DbPlatformLaws}.
(** Parsed fields are of their protobuf types: [uint32] and an enum. *)
Context (parsed_types : forall s r, ParseRow2 s = Some r -> row2_fields r).
Notation Rows := (list (BackupID * Row L)).
Implicit Types (t : T) (rows : Rows).

Definition db_op t rows (op : DbOp) : option (T * Rows) :=
  match op with
  | OpRun log => '(t, rows, _) ← Run t rows (MLog2 log); Some (t, rows)
  | OpLoad protos => '(t, rows, _) ← LoadRowsFromProtos t rows protos; Some (t, rows)
  end.
Fixpoint db_ops t rows (ops : list DbOp) : option (T * Rows) :=
  match ops with [] => Some (t, rows) | op :: ops' => '(t, rows) ← db_op t rows op; db_ops t rows ops' end.

(** A row that was received is refused, or may be appended. *)
Lemma load_row_cases t rows r : row2_fields r -> (exists err, load_row t rows r = Some (t, rows, err)) \/
  loadable r /\ forall k, last_key rows = Some k -> key_lt k (row2_backup_id r) = true.
Proof.
  intros [Ht Hst]. unfold load_row, BackupIDFromString.
  match goal with |- context [if ?b then Some (t, rows, DB2_ReplicationInvalidRow) else _] => destruct b eqn:E1 end; [eauto|].
  destruct (Zlen (row2_backup_id r) =? Z.of_nat BACKUP_ID_SIZE) eqn:E2; cbn [negb]; [|eauto]. cbn [is_ok negb].
  match goal with |- context [if ?b then Some (t, rows, DB2_ReplicationOutOfOrder) else _] => destruct b eqn:E3 end; [eauto|].
  right. rewrite !orb_false_iff in E1. destruct E1 as [[[E1 Ep] Ed1] Ed2]. apply negb_false_iff in Ep. zbool. unfold Zlen in *.
  unfold is_u32, MAX_ALLOWED_MAX_TRIES, MIN_DATA_SIZE, MAX_DATA_SIZE in *. split.
  - split; unfold Zlen; lia.
  - intros k Hk. rewrite Hk in E3. by apply negb_false_iff.
Qed.
Lemma load_row_any t rows r : db_inv t rows -> row2_fields r ->
  exists t' rows' err, load_row t rows r = Some (t', rows', err) /\ db_inv t' rows' /\ others merkle_leaf_ t rows t' rows'.
Proof.
  intros Hi Hf. destruct (load_row_cases t rows r Hf) as [[err E]|[Hlo Hk]].
  - exists t, rows, err. split_and!; [done..|apply others_refl].
  - destruct (load_row_spec t rows r Hi Hlo Hk) as (t' & l & E & Hi' & Ho). eauto 10.
Qed.
Lemma load_rows_any t rows protos last_id : db_inv t rows ->
  exists t' rows' res, load_rows_loop t rows protos last_id = Some (t', rows', res) /\ db_inv t' rows' /\ others merkle_leaf_ t rows t' rows'.
Proof.
  revert t rows last_id. induction protos as [|s protos IH]; intros t rows last_id Hi; cbn [load_rows_loop].
  { eexists _, _, _. split_and!; [done..|apply others_refl]. }
  destruct (ParseRow2 s) as [r|] eqn:Ep; [|eexists _, _, _; split_and!; [done..|apply others_refl]].
  destruct (load_row_any t rows r Hi (parsed_types s r Ep)) as (t1 & rows1 & err & -> & Hi1 & Ho1). cbn [mbind option_bind].
  destruct (negb (is_ok err)); [by eexists _, _, _|].
  destruct (IH t1 rows1 (row2_backup_id r) Hi1) as (t2 & rows2 & res & -> & Hi2 & Ho2). eexists _, _, _. split_and!; [done..|by eapply others_trans].
Qed.
Lemma LoadRows_any t rows protos : db_inv t rows -> protos <> [] ->
  exists t' rows' res, LoadRowsFromProtos t rows protos = Some (t', rows', res) /\ db_inv t' rows' /\ others merkle_leaf_ t rows t' rows'.
Proof.
  intros Hi Hne. unfold LoadRowsFromProtos. rewrite CHECK_true by (by rewrite bool_decide_eq_false_2).
  destruct (load_rows_any t rows protos [] Hi) as (t' & rows' & [last err] & -> & Hi' & Ho). cbn [mbind option_bind].
  destruct (negb (is_ok err)); [eauto 10|]. destruct (negb _); eauto 10.
Qed.

(** C14: Whatever logs of clients pass validation and whatever bytes other
    replicas push as rows, in any order, no operation aborts, and every row of
    the database fits its type: an ID of 16 bytes, a PIN of 32 and data of 16
    to 48 bytes in an array of 48, tries in 8 bits and a state in 32; keys are
    distinct and in order, each row's hash is the one of its leaf, and leaves
    of others keep their hashes. *)
Theorem db2_rows_well_typed t ops : tree_ok ∅ t -> Forall op_ok ops ->
  exists t' rows', db_ops t [] ops = Some (t', rows') /\ db_inv t' rows' /\ others merkle_leaf_ t [] t' rows' /\
    map_ok rows' /\ Forall (fun p => row_ok p.1 p.2) rows'.
Proof.
  intros Ht Hops. assert (forall rows t, db_inv t rows -> exists t' rows', db_ops t rows ops = Some (t', rows') /\ db_inv t' rows' /\
    others merkle_leaf_ t rows t' rows') as H.
  { clear t Ht. induction Hops as [|op ops Hop Hops IH]; intros rows t Hi; [eexists _, _; split_and!; [done..|apply others_refl]|].
    assert (exists t1 rows1, db_op t rows op = Some (t1, rows1) /\ db_inv t1 rows1 /\ others merkle_leaf_ t rows t1 rows1) as (t1 & rows1 & E1 & Hi1 & Ho1).
    { destruct op as [log|protos]; cbn [db_op].
      - destruct (Run_refines t rows log Hi Hop) as (t1 & rows1 & resp & -> & Hi1 & Ho1 & _). cbn. eauto.
      - destruct (LoadRows_any t rows protos Hi Hop) as (t1 & rows1 & res & -> & Hi1 & Ho1). cbn. eauto. }
    destruct (IH rows1 t1 Hi1) as (t2 & rows2 & E2 & Hi2 & Ho2). exists t2, rows2. cbn [db_ops]. rewrite E1. cbn [mbind option_bind].
    split_and!; [done..|by eapply others_trans]. }
  destruct (H [] t (db_inv_empty t Ht)) as (t' & rows' & E & Hi & Ho). exists t', rows'. split_and!; [done..|apply Hi|by apply (rows_all_ok t')].
Qed.
End types.

(** ** An example *)
#[local] Existing Instance toy_sip.
Module TypesExample.
(** The stand-in of the database's parameters, with the types checked. *)
Definition typed_parse (b : bytes) : option DB2RowState :=
  r ← toy_parse2 b;
  if (0 <=? row2_tries r) && (row2_tries r <? 2 ^ 32) && (- 2 ^ 31 <=? row2_state r) && (row2_state r <? 2 ^ 31) then Some r else None.
#[export] Instance typed_db : DbPlatform := {
  sip_hash16 := @sip_hash16 toy_db; sha256 := @sha256 toy_db;
  SerializeRow2 := @SerializeRow2 toy_db; ParseRow2 := typed_parse;
  SerializeRow3 := @SerializeRow3 toy_db; ParseRow3 := @ParseRow3 toy_db;
  scalarmult_ristretto255 := @scalarmult_ristretto255 toy_db; ristretto255_scalar_random := @ristretto255_scalar_random toy_db }.
#[export] Instance typed_db_laws : DbPlatformLaws.
Proof.
  split; try apply toy_db_laws. intros r Hf. destruct (@row2_roundtrip toy_db toy_db_laws r Hf) as (b & Hs & Hp). exists b. split; [done|].
  cbn in Hp |- *. unfold typed_parse. rewrite Hp. cbn. destruct Hf as [Ht Hst]. unfold is_u32 in Ht.
  destruct (_ && _) eqn:E; [done|]. rewrite !andb_false_iff, !Z.leb_gt, !Z.ltb_ge in E. lia.
Qed.
Lemma typed_parse_types s r : ParseRow2 s = Some r -> row2_fields r.
Proof.
  cbn. unfold typed_parse. destruct (toy_parse2 s) as [r'|]; [|done]. cbn. destruct (_ && _) eqn:E; [|done]. intros [= <-].
  rewrite !andb_true_iff, !Z.leb_le, !Z.ltb_lt in E. unfold row2_fields, is_u32. lia.
Qed.
Definition pushed (id : Z) (n : nat) : bytes := [16; 20; 3; POPULATED] ++ replicate 16 id ++ replicate 20 7 ++ replicate n 1.
(** A backup, two rows that are pushed, a row with a PIN that is too short and
    one that is out of order. *)
Definition ops : list DbOp :=
  [OpRun (ex_log (kBackup ex_backup_req)); OpLoad [pushed 10 32; pushed 11 32]; OpLoad [pushed 12 31]; OpLoad [[1]; pushed 12 32]; OpLoad [pushed 2 32]].
End TypesExample.
Import TypesExample.

Lemma db2_rows_well_typed_witness :
  exists (t : Tree) (rows : list (BackupID * Row nat)), db_ops Tree_new [] TypesExample.ops = Some (t, rows) /\
    Forall (fun p => row_ok p.1 p.2) rows /\ length rows = 3%nat.
Proof.
  destruct (db2_rows_well_typed typed_parse_types Tree_new TypesExample.ops (L := nat)) as (t & rows & E & _ & _ & _ & Hall).
  - apply Tree_new_ok.
  - repeat constructor; discriminate.
  - exists t, rows. split; [exact E|]. split; [exact Hall|].
    assert (Hl : option_map (fun x => length x.2) (db_ops (Tree_new : Tree) ([] : list (BackupID * Row nat)) TypesExample.ops) = Some 3%nat)
      by (vm_compute; reflexivity).
    rewrite E in Hl. by injection Hl.
Defined.
