(* ===== verification/Db3.v ===== *)
(** * The SVR3 database (db/db3.h, db/db3.cc)

    Each backup ID has an OPRF private key and a number of evaluations that
    are left.  Conventions as in [Db2]: the shared Merkle tree is threaded
    through, [None] is a failed [CHECK] or a dangling pointer. *)
From stdpp Require Import prelude gmap.
From S2P Require Import Prelude Errors Containers Util Merkle ClientTypes Db.

Definition SCALAR_SIZE : nat := 32.   (* crypto_scalarmult_ristretto255_SCALARBYTES *)
Definition ELEMENT_SIZE : nat := 32.  (* crypto_scalarmult_ristretto255_BYTES *)
Definition MAX_ALLOWED_MAX_TRIES : Z := 255.
Definition MIN_ALLOWED_MAX_TRIES : Z := 1.

(** ** Protocol *)
Definition RequestPB : MessageLite := MRequest3 Request3_NOT_SET.
Definition LogPB : MessageLite :=
  MLog3 {| log3_backup_id := []; log3_req := Request3_NOT_SET; log3_create_privkey := [] |}.

Definition LogKey (req : MessageLite) : option bytes :=
  match req with MLog3 r => Some (log3_backup_id r) | _ => None end.

Definition ValidateClientLog (log_pb : MessageLite) : Error :=
  match log_pb with
  | MLog3 log =>
      if negb (Zlen (log3_backup_id log) =? Z.of_nat BACKUP_ID_SIZE) then DB3_BackupIDSize else
      match log3_req log with
      | kCreate r =>
          if (create_max_tries r <? 1) || (255 <? create_max_tries r) then DB3_MaxTriesOutOfRange
          else if negb (Zlen (create_blinded_element r) =? Z.of_nat ELEMENT_SIZE) then DB3_BlindedElementSize
          else if negb (Zlen (log3_create_privkey log) =? Z.of_nat SCALAR_SIZE) then DB3_LogPrivateKeyInvalid
          else OK
      | kEvaluate r =>
          if negb (Zlen (evaluate_blinded_element r) =? Z.of_nat ELEMENT_SIZE) then DB3_BlindedElementSize else OK
      | kRemove | kQuery => OK
      | Request3_NOT_SET => DB3_ToplevelRequestType
      end
  | _ => DB3_RequestInvalid
  end.

Definition PROTOBUF_SMALL_STRING_EXTRA : Z := 2.
Definition PROTOBUF_SMALL_INT : Z := 2.
Definition MaxRowSerializedSize : Z :=
  Z.of_nat BACKUP_ID_SIZE + PROTOBUF_SMALL_STRING_EXTRA +
  Z.of_nat SCALAR_SIZE + PROTOBUF_SMALL_STRING_EXTRA +
  PROTOBUF_SMALL_INT.

(** ** Rows *)
Record Row {L : Type} := { priv : bytes; tries : Z; merkle_leaf_ : L }.
Arguments Row : clear implicits.

Section db3.
Context {T L : Type} {MO : MerkleOps T L} {DP : DbPlatform}.
Notation Row := (Row L).
Notation Rows := (list (BackupID * Row)).

(** [n] counts the calls of the random number generator. *)
Definition NewKey (n : nat) : bytes * nat := (ristretto255_scalar_random n, S n).

Definition LogPBFromRequest (n : nat) (request : MessageLite) (authenticated_id : bytes) :
    option MessageLite * Error * nat :=
  match request with
  | MRequest3 r =>
      if negb (Zlen authenticated_id =? Z.of_nat BACKUP_ID_SIZE) then (None, DB3_BackupIDSize, n) else
      let log := {| log3_backup_id := authenticated_id; log3_req := r; log3_create_privkey := [] |} in
      match r with
      | kCreate _ =>
          let '(priv, n) := NewKey n in
          (Some (MLog3 {| log with log3_create_privkey := ByteArrayToString priv |}), OK, n)
      | _ => (Some (MLog3 log), OK, n)
      end
  | _ => (None, DB3_RequestInvalid, n)
  end.

(** The constructor leaves [priv] and [tries] uninitialised; they are written
    before they are read. *)
Definition Row_new (t : T) : option (T * Row) :=
  '(t, l) ← leaf_new t; Some (t, {| priv := replicate SCALAR_SIZE 0; tries := 0; merkle_leaf_ := l |}).

Definition HashRow (id : BackupID) (row : Row) : option bytes :=
  CHECK (Zlen id =? Z.of_nat BACKUP_ID_SIZE)
  (CHECK (Zlen (priv row) =? Z.of_nat SCALAR_SIZE)
   (Some (sip_hash16 (id ++ BigEndian32Bytes (tries row) ++ priv row)))).

(** [merkle::HashFrom(HashRow(id, *row))]. *)
Definition merkle_hash (id : BackupID) (row : Row) : option Hash := h ← HashRow id row; HashFrom h.

Definition BlindEvaluate (key blinded_element : bytes) : bytes * Error :=
  match scalarmult_ristretto255 key blinded_element with
  | None => (replicate ELEMENT_SIZE 0, DB3_ScalarMultFailure)
  | Some out => (out, OK)
  end.

(** ** Operations *)
Definition create_response (s : CreateStatus) : CreateResponse := {| create_status := s; create_evaluated := [] |}.

Definition Create (t : T) (rows : Rows) (id : BackupID) (privkey : bytes) (req : CreateRequest) :
    option (T * Rows * CreateResponse) :=
  let '(elt, err1) := StringToByteArray ELEMENT_SIZE (create_blinded_element req) in
  if negb (is_ok err1) then Some (t, rows, create_response Create_INVALID_REQUEST) else
  let '(pk, err2) := StringToByteArray SCALAR_SIZE privkey in
  if negb (is_ok err2) then Some (t, rows, create_response Create_ERROR) else
  let '(evaluated, err3) := BlindEvaluate pk elt in
  if negb (is_ok err3) then Some (t, rows, create_response Create_ERROR) else
  '(t, r) ← match map_find rows id with
            | Some r => Some (t, r)
            | None => Row_new t
            end;
  let r := {| r with priv := pk; tries := u8 (create_max_tries req) |} in
  h ← merkle_hash id r;
  t ← leaf_update t (merkle_leaf_ r) h;
  Some (t, map_set id r rows, {| create_status := Create_OK; create_evaluated := ByteArrayToString evaluated |}).

Definition evaluate_response (s : EvaluateStatus) : EvaluateResponse :=
  {| evaluate_status := s; evaluate_evaluated := []; evaluate_tries_remaining := 0 |}.

Definition Evaluate (t : T) (rows : Rows) (id : BackupID) (req : EvaluateRequest) :
    option (T * Rows * EvaluateResponse) :=
  let '(elt, err1) := StringToByteArray ELEMENT_SIZE (evaluate_blinded_element req) in
  if negb (is_ok err1) then Some (t, rows, evaluate_response Evaluate_INVALID_REQUEST) else
  match map_find rows id with
  | None => Some (t, rows, evaluate_response Evaluate_MISSING)
  | Some row =>
      h ← merkle_hash id row;
      err ← leaf_verify t (merkle_leaf_ row) h;
      if negb (is_ok err) then Some (t, rows, evaluate_response Evaluate_ERROR) else
      let '(evaluated, err2) := BlindEvaluate (priv row) elt in
      if negb (is_ok err2) then Some (t, rows, evaluate_response Evaluate_ERROR) else
      let row := {| row with tries := u8 (tries row - 1) |} in
      let resp := {| evaluate_status := Evaluate_OK; evaluate_evaluated := ByteArrayToString evaluated;
                     evaluate_tries_remaining := tries row |} in
      if tries row =? 0 then
        t ← leaf_drop t (merkle_leaf_ row);
        Some (t, map_erase id rows, resp)
      else
        h ← merkle_hash id row;
        t ← leaf_update t (merkle_leaf_ row) h;
        Some (t, map_set id row rows, resp)
  end.

Definition Remove (t : T) (rows : Rows) (id : BackupID) : option (T * Rows) :=
  match map_find rows id with
  | None => Some (t, rows)
  | Some row => t ← leaf_drop t (merkle_leaf_ row); Some (t, map_erase id rows)
  end.

Definition Query (rows : Rows) (id : BackupID) : QueryResponse :=
  match map_find rows id with
  | None => {| query_status := Query_MISSING; query_tries_remaining := 0 |}
  | Some row => {| query_status := Query_OK; query_tries_remaining := tries row |}
  end.

Definition Run (t : T) (rows : Rows) (log_pb : MessageLite) : option (T * Rows * MessageLite) :=
  CHECK (is_ok (ValidateClientLog log_pb))
  match log_pb with
  | MLog3 log =>
      let '(id, err) := StringToByteArray BACKUP_ID_SIZE (log3_backup_id log) in
      CHECK (is_ok err)
      ('(t, rows, out) ←
        match log3_req log with
        | kCreate r => '(t, rows, s) ← Create t rows id (log3_create_privkey log) r; Some (t, rows, rCreate s)
        | kEvaluate r => '(t, rows, s) ← Evaluate t rows id r; Some (t, rows, rEvaluate s)
        | kRemove => '(t, rows) ← Remove t rows id; Some (t, rows, rRemove)
        | kQuery => Some (t, rows, rQuery (Query rows id))
        | Request3_NOT_SET => None
        end;
      Some (t, rows, MResponse3 out))
  | _ => None
  end.

Definition row_count (rows : Rows) : Z := Zlen rows.

(** ** Replication *)
Definition row_state (id : BackupID) (row : Row) : DB3RowState := {|
  row3_backup_id := ByteArrayToString id; row3_priv := ByteArrayToString (priv row); row3_tries := tries row |}.

(** [last_id] is [row->backup_id()], of the row serialised last. *)
Fixpoint rows_loop (iter : Rows) (i size : Z) (last_id : bytes) (out : list bytes) : list bytes * (bytes * Error) :=
  match iter with
  | [] => (out, (last_id, OK))
  | (id, row) :: iter' =>
      if negb (i <? size) then (out, (last_id, OK)) else
      match SerializeRow3 (row_state id row) with
      | None => (out ++ [[]], ([], DB3_ReplicationInvalidRow))
      | Some s => rows_loop iter' (i + 1) size (ByteArrayToString id) (out ++ [s])
      end
  end.

Definition RowsAsProtos (rows : Rows) (exclusive_start : bytes) (size : Z) : list bytes * (bytes * Error) :=
  if bool_decide (exclusive_start = []) then rows_loop rows 0 size [] []
  else
    let '(id, err) := StringToByteArray BACKUP_ID_SIZE exclusive_start in
    if negb (is_ok err) then ([], ([], err)) else rows_loop (map_from_upper id rows) 0 size [] [].

(** One row received; the new row is moved into the map with its leaf. *)
Definition load_row (t : T) (rows : Rows) (row : DB3RowState) : option (T * Rows * Error) :=
  if (MAX_ALLOWED_MAX_TRIES <? row3_tries row) || (row3_tries row <? MIN_ALLOWED_MAX_TRIES)
  then Some (t, rows, DB3_ReplicationInvalidRow) else
  let '(key, err1) := StringToByteArray BACKUP_ID_SIZE (row3_backup_id row) in
  if negb (is_ok err1) then Some (t, rows, err1) else
  if match last_key rows with Some k => negb (key_lt k key) | None => false end
  then Some (t, rows, DB3_ReplicationOutOfOrder) else
  let '(pk, err2) := StringToByteArray SCALAR_SIZE (row3_priv row) in
  if negb (is_ok err2) then Some (t, rows, err2) else
  '(t, r) ← Row_new t;
  let r := {| r with tries := u8 (row3_tries row); priv := pk |} in
  h ← merkle_hash key r;
  t ← leaf_update t (merkle_leaf_ r) h;
  '(t, l) ← leaf_move t (merkle_leaf_ r);
  Some (t, map_set key {| r with merkle_leaf_ := l |} rows, OK).

Fixpoint load_rows_loop (t : T) (rows : Rows) (protos : list bytes) (last_id : bytes) :
    option (T * Rows * (bytes * Error)) :=
  match protos with
  | [] => Some (t, rows, (last_id, OK))
  | s :: protos' =>
      match ParseRow3 s with
      | None => Some (t, rows, ([], DB3_ReplicationInvalidRow))
      | Some row =>
          '(t, rows, err) ← load_row t rows row;
          if negb (is_ok err) then Some (t, rows, ([], err))
          else load_rows_loop t rows protos' (row3_backup_id row)
      end
  end.

Definition LoadRowsFromProtos (t : T) (rows : Rows) (protos : list bytes) : option (T * Rows * (bytes * Error)) :=
  '(t, rows', (last_id, err)) ← load_rows_loop t rows protos [];
  if negb (is_ok err) then Some (t, rows', ([], err))
  else if negb (Zlen rows' =? Zlen rows + Zlen protos) then Some (t, rows', ([], DB3_LoadedRowsAlreadyInDB))
  else Some (t, rows', (last_id, OK)).

Definition DB_Hash (rows : Rows) : option bytes :=
  hs ← mapM (fun '(id, row) => HashRow id row) rows;
  Some (sha256 (BigEndian64Bytes (Zlen rows) ++ concat hs)).
End db3.
