(* ===== verification/Db3Spec.v ===== *)
(** * The SVR3 database implements a finite map of OPRF keys

    Rows that one replica serialises are those another one loads. *)
From stdpp Require Import prelude gmap sorting.
From S2P Require Import Prelude Errors Containers Util Merkle ClientTypes Db Db3.

(** ** The abstract database *)
Record Oprf := { o_priv : bytes; o_tries : Z }.
Notation Oprfs := (gmap BackupID Oprf).
Implicit Types m : Oprfs.

Section spec.
Context {DP : DbPlatform}.

Definition spec_create m (id : BackupID) (key : bytes) (r : CreateRequest) : Oprfs * Response3 :=
  match scalarmult_ristretto255 key (create_blinded_element r) with
  | None => (m, rCreate (create_response Create_ERROR))
  | Some e => (<[id := {| o_priv := key; o_tries := create_max_tries r |}]> m,
               rCreate {| create_status := Create_OK; create_evaluated := e |})
  end.

Definition spec_evaluate m (id : BackupID) (r : EvaluateRequest) : Oprfs * Response3 :=
  match m !! id with
  | None => (m, rEvaluate (evaluate_response Evaluate_MISSING))
  | Some o =>
      match scalarmult_ristretto255 (o_priv o) (evaluate_blinded_element r) with
      | None => (m, rEvaluate (evaluate_response Evaluate_ERROR))
      | Some e =>
          (if o_tries o =? 1 then delete id m else <[id := {| o with o_tries := o_tries o - 1 |}]> m,
           rEvaluate {| evaluate_status := Evaluate_OK; evaluate_evaluated := e;
                        evaluate_tries_remaining := o_tries o - 1 |})
      end
  end.

Definition spec_query m (id : BackupID) : Response3 :=
  match m !! id with
  | None => rQuery {| query_status := Query_MISSING; query_tries_remaining := 0 |}
  | Some o => rQuery {| query_status := Query_OK; query_tries_remaining := o_tries o |}
  end.

Definition spec_run m (log : Log3) : Oprfs * Response3 :=
  let id := log3_backup_id log in
  match log3_req log with
  | kCreate r => spec_create m id (log3_create_privkey log) r
  | kEvaluate r => spec_evaluate m id r
  | kRemove => (delete id m, rRemove)
  | kQuery => (m, spec_query m id)
  | Request3_NOT_SET => (m, Response3_NOT_SET)
  end.
End spec.

(** ** The view of the rows *)
Definition view_row {L} (row : Row L) : Oprf := {| o_priv := priv row; o_tries := tries row |}.
Definition view {L} (rows : list (BackupID * Row L)) : Oprfs := rows_view view_row rows.

Record row_ok {L} (id : BackupID) (row : Row L) : Prop := {
  rk_id : length id = BACKUP_ID_SIZE;
  rk_tries : 1 <= tries row <= 255;
  rk_priv : length (priv row) = SCALAR_SIZE }.

Section refine.
Context {T L : Type} `{!EqDecision L, !Countable L} {MO : MerkleOps T L} {MS : MerkleSpec T L}.
Context {DP : DbPlatform} {DPL : DbPlatformLaws}.
Notation Rows := (list (BackupID * Row L)).
Implicit Types (t : T) (rows : Rows) (row : Row L).

Definition db_inv t rows : Prop := rows_inv merkle_leaf_ merkle_hash row_ok t rows.
Notation others := (others merkle_leaf_).

Lemma merkle_hash3_Some id row : row_ok id row -> exists h, merkle_hash id row = Some h.
Proof.
  intros [Hi _ Hp]. unfold merkle_hash, HashRow, Zlen. rewrite Hi, Hp. simpl.
  rewrite HashFrom_Some by apply sip_hash16_length. eauto.
Qed.

Lemma array_exact n s : length s = n -> StringToByteArray n s = (s, OK).
Proof.
  intros <-. unfold StringToByteArray, Zlen. rewrite (proj2 (Z.ltb_ge _ _)) by lia.
  by rewrite Nat.sub_diag, app_nil_r.
Qed.

(** A row written over another one, or over a new one. *)
Lemma stored t rows id key n (A : Type) (k : T -> Row L -> option A) :
  db_inv t rows -> length id = BACKUP_ID_SIZE -> length key = SCALAR_SIZE -> 1 <= n <= 255 ->
  exists t' l, ('(t, r) ← match map_find rows id with Some r => Some (t, r) | None => Row_new t end;
      h ← merkle_hash id {| r with priv := key; tries := n |};
      t ← leaf_update t (merkle_leaf_ r) h; k t {| r with priv := key; tries := n |}) =
      k t' {| priv := key; tries := n; merkle_leaf_ := l |} /\
    db_inv t' (map_set id {| priv := key; tries := n; merkle_leaf_ := l |} rows) /\
    others t rows t' (map_set id {| priv := key; tries := n; merkle_leaf_ := l |} rows).
Proof.
  intros Hi Hid Hk Hn. assert (forall l : L, row_ok id {| priv := key; tries := n; merkle_leaf_ := l |}) as Hok by done.
  destruct (map_find rows id) as [row|] eqn:E; cbn [mbind option_bind].
  - destruct (merkle_hash3_Some _ _ (Hok (merkle_leaf_ row))) as [h Hh].
    destruct (rows_update _ _ _ t rows id row {| priv := key; tries := n; merkle_leaf_ := merkle_leaf_ row |} h Hi E eq_refl Hh (Hok _)) as (t' & Et & Hi' & Ho).
    exists t', (merkle_leaf_ row). rewrite Hh. cbn. cbn in Et. rewrite Et. by split_and!.
  - destruct (rows_add _ _ _ t rows Hi) as (t1 & l & Hn1 & _ & Hadd). unfold Row_new. rewrite Hn1. cbn.
    destruct (merkle_hash3_Some _ _ (Hok l)) as [h Hh].
    destruct (Hadd id {| priv := key; tries := n; merkle_leaf_ := l |} h E eq_refl Hh (Hok l)) as (t' & Et & Hi' & Ho).
    exists t', l. cbn. rewrite Hh. cbn. rewrite Et. by split_and!.
Qed.

Lemma Create_spec t rows id key req :
  db_inv t rows -> length id = BACKUP_ID_SIZE -> length key = SCALAR_SIZE ->
  length (create_blinded_element req) = ELEMENT_SIZE -> 1 <= create_max_tries req <= 255 ->
  exists t' rows' resp, Create t rows id key req = Some (t', rows', resp) /\
    db_inv t' rows' /\ others t rows t' rows' /\ (view rows', rCreate resp) = spec_create (view rows) id key req.
Proof.
  intros Hi Hid Hk He Ht. unfold Create, spec_create, BlindEvaluate. rewrite !array_exact by done. simpl.
  destruct (scalarmult_ristretto255 key (create_blinded_element req)) as [e|]; simpl;
    [|eexists _, _, _; split_and!; [done|exact Hi|apply others_refl|done]].
  rewrite u8_small by ulia.
  destruct (stored t rows id key (create_max_tries req) (T * Rows * CreateResponse)
    (fun t r => Some (t, map_set id r rows, {| create_status := Create_OK; create_evaluated := e |})) Hi Hid Hk Ht)
    as (t' & l & Et & Hi' & Ho).
  eexists _, _, _. split; [exact Et|]. split_and!; [exact Hi'|exact Ho|]. unfold view. by rewrite rows_view_set.
Qed.

Lemma Evaluate_spec t rows id req :
  db_inv t rows -> length (evaluate_blinded_element req) = ELEMENT_SIZE ->
  exists t' rows' resp, Evaluate t rows id req = Some (t', rows', resp) /\
    db_inv t' rows' /\ others t rows t' rows' /\ (view rows', rEvaluate resp) = spec_evaluate (view rows) id req.
Proof.
  intros Hi He. unfold Evaluate, spec_evaluate, BlindEvaluate, view. rewrite array_exact by done. cbn [is_ok negb].
  rewrite rows_view_lookup. destruct (map_find rows id) as [row|] eqn:E; cbn [fmap option_fmap option_map];
    [|eexists _, _, _; split_and!; [done|exact Hi|apply others_refl|done]].
  pose proof (ri_ok _ _ _ _ _ Hi _ _ E) as Hok. destruct (merkle_hash3_Some _ _ Hok) as [h Hh]. rewrite Hh.
  cbn [mbind option_bind]. rewrite (rows_verify _ _ _ t rows id row h Hi E Hh). cbn [mbind option_bind is_ok negb view_row o_priv o_tries].
  destruct (scalarmult_ristretto255 (priv row) _) as [e|]; cbn [is_ok negb];
    [|eexists _, _, _; split_and!; [done|exact Hi|apply others_refl|done]].
  pose proof (rk_tries _ _ Hok) as Ht. cbn [tries merkle_leaf_]. rewrite u8_small by ulia.
  destruct (Z.eqb_spec (tries row - 1) 0) as [Hz|Hz].
  - rewrite (proj2 (Z.eqb_eq (tries row) 1)) by lia.
    destruct (rows_drop _ _ _ t rows id row Hi E) as (t' & Et & Hi' & Ho). rewrite Et.
    eexists _, _, _. split_and!; [done|exact Hi'|exact Ho|]. by rewrite rows_view_erase.
  - rewrite (proj2 (Z.eqb_neq (tries row) 1)) by lia.
    assert (row_ok id {| row with tries := tries row - 1 |}) as Hok' by (destruct Hok; split; simpl; [done|lia|done]).
    destruct (merkle_hash3_Some _ _ Hok') as [h' Hh'].
    destruct (rows_update _ _ _ t rows id row {| row with tries := tries row - 1 |} h' Hi E eq_refl Hh' Hok') as (t' & Et & Hi' & Ho).
    cbn in Et. rewrite Hh'. cbn. rewrite Et. eexists _, _, _. split_and!; [done|exact Hi'|exact Ho|].
    by rewrite rows_view_set.
Qed.

Lemma Remove_spec t rows id :
  db_inv t rows ->
  exists t' rows', Remove t rows id = Some (t', rows') /\
    db_inv t' rows' /\ others t rows t' rows' /\ view rows' = delete id (view rows).
Proof.
  intros Hi. unfold Remove, view. destruct (map_find rows id) as [row|] eqn:E.
  - destruct (rows_drop _ _ _ t rows id row Hi E) as (t' & Et & Hi' & Ho). rewrite Et.
    eexists _, _. split_and!; [done|exact Hi'|exact Ho|]. by rewrite rows_view_erase.
  - eexists _, _. split_and!; [done|exact Hi|apply others_refl|].
    by rewrite delete_id by (rewrite rows_view_lookup, E; done).
Qed.

Lemma Query_spec rows id : rQuery (Query rows id) = spec_query (view rows) id.
Proof. unfold Query, spec_query, view. rewrite rows_view_lookup. by destruct (map_find rows id). Qed.

(** What validation guarantees. *)
Lemma validate_inv log :
  ValidateClientLog (MLog3 log) = OK ->
  length (log3_backup_id log) = BACKUP_ID_SIZE /\
  match log3_req log with
  | kCreate r => 1 <= create_max_tries r <= 255 /\ length (create_blinded_element r) = ELEMENT_SIZE /\
      length (log3_create_privkey log) = SCALAR_SIZE
  | kEvaluate r => length (evaluate_blinded_element r) = ELEMENT_SIZE
  | kRemove | kQuery => True
  | Request3_NOT_SET => False
  end.
Proof.
  simpl. intros H. guards H. destruct (log3_req log) as [|r|r| |]; [done|..];
    guards H; zbool; unfold Zlen in *; split_and!; done || lia.
Qed.

(** Every validated log runs, as the abstract database. *)
Lemma Run3_refines t rows log :
  db_inv t rows -> ValidateClientLog (MLog3 log) = OK ->
  exists t' rows' resp, Run t rows (MLog3 log) = Some (t', rows', MResponse3 resp) /\
    db_inv t' rows' /\ others t rows t' rows' /\ (view rows', resp) = spec_run (view rows) log.
Proof.
  intros Hi Hv. destruct (validate_inv log Hv) as [Hid Hreq]. unfold Run, spec_run. rewrite Hv.
  rewrite CHECK_true by done. rewrite array_exact by done. cbn [is_ok]. rewrite CHECK_true by done.
  destruct (log3_req log) as [|r|r| |].
  - done.
  - destruct Hreq as (Ht & He & Hk).
    destruct (Create_spec t rows _ _ r Hi Hid Hk He Ht) as (t' & rows' & s & -> & Hi' & Ho & Hview).
    eexists _, _, _. split_and!; [done|exact Hi'|exact Ho|done].
  - destruct (Evaluate_spec t rows (log3_backup_id log) r Hi Hreq) as (t' & rows' & s & -> & Hi' & Ho & Hview).
    eexists _, _, _. split_and!; [done|exact Hi'|exact Ho|done].
  - destruct (Remove_spec t rows (log3_backup_id log) Hi) as (t' & rows' & -> & Hi' & Ho & Hview).
    eexists _, _, _. split_and!; [done|exact Hi'|exact Ho|]. by rewrite Hview.
  - eexists _, _, _. split_and!; [done|exact Hi|apply others_refl|]. by rewrite Query_spec.
Qed.
End refine.

(** * Replication of the SVR3 database

    The rows one replica serialises are the rows the other one loads. *)

Section repl.
Context {T L : Type} `{!EqDecision L, !Countable L} {MO : MerkleOps T L} {MS : MerkleSpec T L}.
Context {DP : DbPlatform} {DPL : DbPlatformLaws}.
Notation Rows := (list (BackupID * Row L)).
Implicit Types (t : T) (rows : Rows) (row : Row L).
Notation others := (others merkle_leaf_).

(** Serialised rows, read back as they were. *)
Definition serialized rows (out : list bytes) : Prop :=
  Forall2 (fun p s => SerializeRow3 (row_state p.1 p.2) = Some s /\ ParseRow3 s = Some (row_state p.1 p.2)) rows out.

(** The same rows, but for their leaves. *)
Definition copied (p q : BackupID * Row L) : Prop := q.1 = p.1 /\ view_row q.2 = view_row p.2 /\ row_ok q.1 q.2.

Lemma row_state3_fields id row : row_ok id row -> row3_fields (row_state id row).
Proof. intros [_ Ht _]. unfold row3_fields, is_u32. simpl. lia. Qed.

Lemma rows_loop3_spec rows i size last_id out :
  0 <= i -> Forall (fun p => row_ok p.1 p.2) rows ->
  exists out', serialized (take (Z.to_nat (size - i)) rows) out' /\
    rows_loop rows i size last_id out =
    (out ++ out', (default last_id (last_key (take (Z.to_nat (size - i)) rows)), OK)).
Proof.
  intros Hi Hr. revert i last_id out Hi. induction Hr as [|[id row] rows Hok Hr IH]; intros i last_id out Hi.
  { exists []. rewrite take_nil, app_nil_r. by repeat constructor. }
  simpl. destruct (Z.ltb_spec i size); simpl.
  - destruct (row3_roundtrip (row_state id row)) as (s & Hs & Hp); [by apply row_state3_fields|]. rewrite Hs. unfold ByteArrayToString.
    destruct (IH (i + 1) id (out ++ [s])) as (out' & Hser & ->); [lia|].
    replace (Z.to_nat (size - i)) with (S (Z.to_nat (size - (i + 1)))) by lia. simpl.
    exists (s :: out'). rewrite <- app_assoc. split; [by constructor|].
    unfold last_key. rewrite last_cons. by destruct (last _).
  - exists []. replace (Z.to_nat (size - i)) with 0%nat by lia. rewrite take_0, app_nil_r. by repeat constructor.
Qed.

(** The rows that [RowsAsProtos] starts from. *)
Definition rows_after rows (start : bytes) : Rows :=
  if bool_decide (start = []) then rows else map_from_upper start rows.

Lemma rows_all3_ok t rows : db_inv t rows -> Forall (fun p => row_ok p.1 p.2) rows.
Proof.
  intros Hi. apply Forall_forall. intros [id row] Hin. apply (ri_ok _ _ _ _ _ Hi).
  by apply elem_map_find; [apply Hi|].
Qed.

Lemma RowsAsProtos3_spec t rows start size :
  db_inv t rows -> start = [] \/ length start = BACKUP_ID_SIZE ->
  exists out, serialized (take (Z.to_nat size) (rows_after rows start)) out /\
    RowsAsProtos rows start size = (out, (default [] (last_key (take (Z.to_nat size) (rows_after rows start))), OK)).
Proof.
  intros Hi Hst. unfold RowsAsProtos, rows_after. pose proof (rows_all3_ok _ _ Hi) as Hall.
  case_bool_decide as Hb.
  - destruct (rows_loop3_spec rows 0 size [] []) as (out & Hs & ->); [done..|]. rewrite Z.sub_0_r in *. eauto.
  - destruct Hst as [?|Hlen]; [done|]. rewrite array_exact by done. simpl.
    destruct (rows_loop3_spec (map_from_upper start rows) 0 size [] []) as (out & Hs & ->); [done| |].
    + unfold map_from_upper. apply Forall_forall. intros p Hp. apply list_elem_of_In, filter_In in Hp as [Hp _].
      apply list_elem_of_In in Hp. rewrite Forall_forall in Hall. by apply Hall.
    + rewrite Z.sub_0_r in *. eauto.
Qed.

(** ** Loading *)
Definition loaded_row (r : DB3RowState) (l : L) : Row L :=
  {| priv := row3_priv r; tries := row3_tries r; merkle_leaf_ := l |}.

Lemma load_row3_spec t rows id row :
  db_inv t rows -> row_ok id row -> (forall k, last_key rows = Some k -> key_lt k id = true) ->
  exists t' l, load_row t rows (row_state id row) = Some (t', rows ++ [(id, loaded_row (row_state id row) l)], OK) /\
    db_inv t' (rows ++ [(id, loaded_row (row_state id row) l)]) /\
    others t rows t' (rows ++ [(id, loaded_row (row_state id row) l)]).
Proof.
  intros Hi [H1 H2 H3] Hlast. unfold load_row, row_state, ByteArrayToString. cbn [row3_tries row3_backup_id row3_priv].
  rewrite (proj2 (Z.ltb_ge MAX_ALLOWED_MAX_TRIES _)) by (unfold MAX_ALLOWED_MAX_TRIES; lia).
  rewrite (proj2 (Z.ltb_ge _ MIN_ALLOWED_MAX_TRIES)) by (unfold MIN_ALLOWED_MAX_TRIES; lia). cbn [orb].
  rewrite !array_exact by done. cbn [is_ok negb].
  assert (match last_key rows with Some k => negb (key_lt k id) | None => false end = false) as ->.
  { destruct (last_key rows) as [k|]; [|done]. by rewrite (Hlast k eq_refl). }
  destruct (rows_load _ _ _ t rows Hi) as (t1 & l & Hn & Hload). unfold Row_new. rewrite Hn.
  cbn [mbind option_bind merkle_leaf_]. rewrite u8_small by ulia.
  assert (forall l : L, row_ok id (loaded_row (row_state id row) l)) as Hok by (intros; by split).
  destruct (merkle_hash3_Some _ _ (Hok l)) as [h Hh].
  destruct (Hload h) as (t2 & Hu & t3 & l' & Hm & Hrest). clear Hload.
  destruct (map_set_last rows id (loaded_row (row_state id row) l') (ri_map _ _ _ _ _ Hi) Hlast) as [Hset Hnone].
  destruct (Hrest id (loaded_row (row_state id row) l') Hnone eq_refl Hh (Hok l')) as [Hi' Ho].
  exists t3, l'. rewrite Hset in Hi', Ho. split; [|by split]. unfold loaded_row, row_state in *. cbn in Hh.
  cbn [row3_priv row3_tries row3_backup_id] in *. unfold ByteArrayToString in *.
  rewrite Hh. cbn [mbind option_bind]. rewrite Hu. cbn [mbind option_bind]. rewrite Hm. cbn [mbind option_bind priv tries].
  by rewrite Hset.
Qed.

Lemma load_rows_loop3_spec t rows src out last_id :
  db_inv t rows -> Forall (fun p => row_ok p.1 p.2) src -> serialized src out ->
  map_ok (rows ++ src) ->
  exists t' new, load_rows_loop t rows out last_id =
      Some (t', rows ++ new, (default last_id (last_key src), OK)) /\
    Forall2 copied src new /\ db_inv t' (rows ++ new) /\ others t rows t' (rows ++ new).
Proof.
  intros Hi Hall Hser. revert t rows last_id Hi. induction Hser as [|[id row] s src out [Hs Hp] Hser IH];
    intros t rows last_id Hi Hord.
  { exists t, []. rewrite app_nil_r. split_and!; [done|constructor|done|apply others_refl]. }
  apply Forall_cons in Hall as [Hok Hall]. simpl in Hp, Hok.
  destruct (load_row3_spec t rows id row Hi Hok) as (t1 & l & E1 & Hi1 & Ho1); [intros k Hk; exact (above_last _ _ _ _ _ Hord Hk)|].
  destruct (IH Hall t1 (rows ++ [(id, loaded_row (row_state id row) l)]) id Hi1) as (t2 & new & E2 & Hc & Hi2 & Ho2).
  { unfold map_ok in *. rewrite !fmap_app in *. simpl in *. by rewrite <- app_assoc. }
  rewrite <- app_assoc in E2, Hi2, Ho2. exists t2, ((id, loaded_row (row_state id row) l) :: new).
  simpl. rewrite Hp. simpl. rewrite E1. simpl. unfold ByteArrayToString. rewrite E2. split; [|split_and!; [|done|by eapply others_trans]].
  - unfold last_key. rewrite last_cons. by destruct (last _).
  - constructor; [|done]. destruct Hok as [H1 H2 H3]. split; [done|]. split; [done|]. by split.
Qed.

Lemma LoadRowsFromProtos3_spec t rows src out :
  db_inv t rows -> Forall (fun p => row_ok p.1 p.2) src -> serialized src out -> map_ok (rows ++ src) ->
  exists t' new, LoadRowsFromProtos t rows out = Some (t', rows ++ new, (default [] (last_key src), OK)) /\
    Forall2 copied src new /\ db_inv t' (rows ++ new) /\ others t rows t' (rows ++ new).
Proof.
  intros Hi Hall Hser Hord. unfold LoadRowsFromProtos.
  pose proof (Forall2_length _ _ _ Hser) as Hlen.
  destruct (load_rows_loop3_spec t rows src out [] Hi Hall Hser Hord) as (t' & new & E & Hc & Hi' & Ho).
  rewrite E. simpl. rewrite (proj2 (Z.eqb_eq _ _)).
  - simpl. eexists _, _. split_and!; done.
  - pose proof (Forall2_length _ _ _ Hc). rewrite Zlen_app. unfold Zlen. lia.
Qed.

(** ** Copies have the same hash *)
Lemma HashRow3_view id row row' : view_row row' = view_row row -> HashRow id row' = HashRow id row.
Proof. unfold view_row, HashRow. intros [= -> ->]. done. Qed.

Lemma DB_Hash3_copied rows new : Forall2 copied rows new -> DB_Hash new = DB_Hash rows.
Proof.
  intros Hc. unfold DB_Hash, Zlen. rewrite <- (Forall2_length _ _ _ Hc).
  replace (mapM (fun '(id, row) => HashRow id row) new) with (mapM (fun '(id, row) => HashRow id row) rows); [done|].
  induction Hc as [|[id row] [id' row'] rows new (E1 & E2 & E3) Hc IH]; [done|]. simpl in *.
  rewrite IH, E1. by rewrite (HashRow3_view id row row').
Qed.
End repl.
