(* ===== verification/Db3Props.v ===== *)
(** * Properties of the SVR3 database *)
From stdpp Require Import prelude gmap sorting.
From S2P Require Import Prelude Errors Containers Util Merkle MerkleProofs MerkleProps ClientTypes Db Db3 Db3Spec.

Section runs.
Context {DP : DbPlatform}.

Fixpoint spec_logs (m : Oprfs) (logs : list Log3) : Oprfs * list Response3 :=
  match logs with
  | [] => (m, [])
  | log :: logs' =>
      let '(m, resp) := spec_run m log in let '(m, resps) := spec_logs m logs' in (m, resp :: resps)
  end.

(** Evaluations of [id] that were answered. *)
Definition evaluated (id : BackupID) (log : Log3) (resp : Response3) : bool :=
  bool_decide (log3_backup_id log = id) &&
  match resp with rEvaluate r => match evaluate_status r with Evaluate_OK => true | _ => false end | _ => false end.
Arguments evaluated : simpl never.
Fixpoint evaluations (id : BackupID) (logs : list Log3) (resps : list Response3) : Z :=
  match logs, resps with
  | log :: logs', resp :: resps' => (if evaluated id log resp then 1 else 0) + evaluations id logs' resps'
  | _, _ => 0
  end.

Definition not_create (id : BackupID) (log : Log3) : Prop :=
  log3_backup_id log = id -> match log3_req log with kCreate _ => False | _ => True end.

Lemma spec_run3_other m log id : log3_backup_id log <> id ->
  (spec_run m log).1 !! id = m !! id /\ evaluated id log (spec_run m log).2 = false.
Proof.
  intros Hne. unfold evaluated. rewrite bool_decide_eq_false_2 by done. split; [|done].
  unfold spec_run. destruct (log3_req log) as [|r|r| |]; simpl; [done|..].
  - unfold spec_create. destruct (scalarmult_ristretto255 _ _); [|done]. simpl. by rewrite lookup_insert_ne.
  - unfold spec_evaluate. destruct (m !! _); [|done]. destruct (scalarmult_ristretto255 _ _); [|done]. simpl.
    case_match; by rewrite ?lookup_insert_ne, ?lookup_delete_ne.
  - by rewrite lookup_delete_ne.
  - done.
Qed.

Lemma spec_run3_one m log id o : m !! id = Some o -> 1 <= o_tries o -> not_create id log ->
  let e := if evaluated id log (spec_run m log).2 then 1 else 0 in
  match (spec_run m log).1 !! id with
  | Some o' => o_priv o' = o_priv o /\ o_tries o' = o_tries o - e /\ 1 <= o_tries o'
  | None => e <= o_tries o
  end.
Proof.
  intros Hm Ht Hc e. destruct (decide (log3_backup_id log = id)) as [He|Hne]; last first.
  { destruct (spec_run3_other m log id Hne) as [-> E]. subst e. rewrite E, Hm. split_and!; [done|lia|lia]. }
  specialize (Hc He). subst e. unfold evaluated. rewrite bool_decide_eq_true_2 by done. unfold spec_run. rewrite He.
  destruct (log3_req log) as [|r|r| |]; cbn [andb fst snd]; [rewrite Hm; split_and!; [done|lia|lia]|done|..].
  - unfold spec_evaluate. rewrite Hm. destruct (scalarmult_ristretto255 _ _); simpl; [|rewrite Hm; split_and!; [done|lia|lia]].
    destruct (Z.eqb_spec (o_tries o) 1); [rewrite lookup_delete_eq; lia|]. rewrite lookup_insert_eq. simpl. split_and!; [done|lia|lia].
  - rewrite lookup_delete_eq. lia.
  - unfold spec_query. rewrite Hm. split_and!; [done|lia|lia].
Qed.

Lemma spec_run3_gone m log id : m !! id = None -> not_create id log ->
  (spec_run m log).1 !! id = None /\ evaluated id log (spec_run m log).2 = false.
Proof.
  intros Hm Hc. destruct (decide (log3_backup_id log = id)) as [He|Hne].
  - specialize (Hc He). unfold evaluated, spec_run, spec_evaluate, spec_query. rewrite He, bool_decide_eq_true_2 by done.
    destruct (log3_req log); try done; simpl; rewrite ?Hm, ?lookup_delete_eq; done.
  - destruct (spec_run3_other m log id Hne) as [-> ->]. done.
Qed.

Lemma evaluations_bound m logs id : Forall (not_create id) logs ->
  (forall o, m !! id = Some o -> 1 <= o_tries o) ->
  let e := evaluations id logs (spec_logs m logs).2 in
  match m !! id with
  | Some o =>
      match (spec_logs m logs).1 !! id with
      | Some o' => o_priv o' = o_priv o /\ o_tries o' = o_tries o - e /\ 1 <= o_tries o'
      | None => e <= o_tries o
      end
  | None => e = 0 /\ (spec_logs m logs).1 !! id = None
  end.
Proof.
  intros Hn. revert m. induction Hn as [|log logs Hc Hn IH]; intros m Ht; simpl.
  { destruct (m !! id) as [o|] eqn:E; [|done]. specialize (Ht o eq_refl). split_and!; [done|lia|lia]. }
  destruct (m !! id) as [o|] eqn:E.
  - pose proof (spec_run3_one m log id o E (Ht o eq_refl) Hc) as H1. simpl in H1.
    destruct (spec_run m log) as [m1 resp]. specialize (IH m1). simpl in *.
    destruct (m1 !! id) as [o1|].
    + destruct H1 as (P1 & T1 & G1). specialize (IH ltac:(intros ? [= <-]; done)).
      destruct (spec_logs m1 logs) as [m2 resps]. simpl in *. destruct (m2 !! id) as [o2|]; [|lia].
      destruct IH as (P2 & T2 & G2). split_and!; [congruence|lia|lia].
    + destruct (IH ltac:(done)) as [E1 E2]. destruct (spec_logs m1 logs) as [m2 resps]. simpl in *. rewrite E2. lia.
  - destruct (spec_run3_gone m log id E Hc) as [Hg He]. specialize (IH (spec_run m log).1). rewrite Hg in IH.
    destruct (IH ltac:(done)) as [E1 E2]. destruct (spec_run m log) as [m1 resp]. simpl in *.
    destruct (spec_logs m1 logs) as [m2 resps]. simpl in *. rewrite He. split; [lia|done].
Qed.
End runs.

Section theorems.
Context {T L : Type} `{!EqDecision L, !Countable L} {MO : MerkleOps T L} {MS : MerkleSpec T L}.
Context {DP : DbPlatform} {DPL : DbPlatformLaws}.
Notation Rows := (list (BackupID * Row L)).
Implicit Types (t : T) (rows : Rows).

Definition logs_ok (logs : list Log3) : Prop := Forall (fun log => ValidateClientLog (MLog3 log) = OK) logs.

Fixpoint run_logs t rows (logs : list Log3) : option (T * Rows * list Response3) :=
  match logs with
  | [] => Some (t, rows, [])
  | log :: logs' =>
      '(t, rows, msg) ← Run t rows (MLog3 log);
      resp ← (match msg with MResponse3 resp => Some resp | _ => None end);
      '(t, rows, resps) ← run_logs t rows logs'; Some (t, rows, resp :: resps)
  end.

Lemma run_logs3_refines t rows logs :
  db_inv t rows -> logs_ok logs ->
  exists t' rows' resps, run_logs t rows logs = Some (t', rows', resps) /\ db_inv t' rows' /\
    others merkle_leaf_ t rows t' rows' /\ (view rows', resps) = spec_logs (view rows) logs.
Proof.
  intros Hi Hl. revert t rows Hi. induction Hl as [|log logs Hv Hl IH]; intros t rows Hi.
  { eexists _, _, _. split_and!; [done|done|apply others_refl|done]. }
  destruct (Run3_refines t rows log Hi Hv) as (t1 & rows1 & resp & E1 & Hi1 & Ho1 & Hs1).
  destruct (IH t1 rows1 Hi1) as (t2 & rows2 & resps & E2 & Hi2 & Ho2 & Hs2).
  exists t2, rows2, (resp :: resps). simpl. rewrite E1. simpl. rewrite E2. simpl.
  split_and!; [done|done|by eapply others_trans|]. rewrite <- Hs1, <- Hs2. done.
Qed.

(** C9: The SVR3 database refines a map of OPRF keys, and evaluations are
    limited: every sequence of validated logs runs with the abstract
    responses; between two [Create]s of an ID at most as many evaluations
    are answered as it has tries, its key does not change while it exists,
    its tries are those not yet spent, and once they are spent it is gone. *)
Theorem oprf_evaluations_bounded t rows logs id row :
  db_inv t rows -> logs_ok logs -> map_find rows id = Some row -> Forall (not_create id) logs ->
  exists t' rows' resps, run_logs t rows logs = Some (t', rows', resps) /\ db_inv t' rows' /\
    (view rows', resps) = spec_logs (view rows) logs /\
    let e := evaluations id logs resps in
    e <= tries row /\ (e = tries row -> map_find rows' id = None) /\
    forall row', map_find rows' id = Some row' -> priv row' = priv row /\ tries row' = tries row - e.
Proof.
  intros Hi Hl Hf Hn. destruct (run_logs3_refines t rows logs Hi Hl) as (t' & rows' & resps & E & Hi' & _ & Hs).
  exists t', rows', resps. split_and!; [done..|]. pose proof (rk_tries _ _ (ri_ok _ _ _ _ _ Hi _ _ Hf)) as Ht.
  assert (view rows !! id = Some (view_row row)) as Hv by (unfold view; by rewrite rows_view_lookup, Hf).
  pose proof (evaluations_bound (view rows) logs id Hn) as Hb. rewrite Hv, <- Hs in Hb. cbn [fst snd] in Hb.
  specialize (Hb ltac:(intros ? [= <-]; simpl; lia)). unfold view in Hb. rewrite rows_view_lookup in Hb. cbv zeta in *.
  destruct (map_find rows' id) as [row'|]; simpl in Hb; [|split_and!; [lia|done|done]].
  destruct Hb as (Hp & Htr & Hg). split_and!; [lia|lia|]. by intros ? [= <-].
Qed.
End theorems.

(** ** Example *)
#[local] Existing Instance toy_sip.
#[local] Existing Instance toy_db.
#[local] Existing Instance toy_db_laws.

Definition ex3_id : BackupID := replicate 16 9.
Definition ex3_log (r : Request3) : Log3 :=
  {| log3_backup_id := ex3_id; log3_req := r; log3_create_privkey := replicate 32 5 |}.
Definition ex3_create : Log3 := ex3_log (kCreate {| create_max_tries := 2; create_blinded_element := replicate 32 4 |}).
Definition ex3_evaluate : Log3 := ex3_log (kEvaluate {| evaluate_blinded_element := replicate 32 6 |}).

Definition ex3_created : option (Tree * list (BackupID * Row nat) * list Response3) := run_logs Tree_new [] [ex3_create].

Lemma ex3_created_inv : exists t rows resps row, ex3_created = Some (t, rows, resps) /\ db_inv t rows /\
  map_find rows ex3_id = Some row.
Proof.
  destruct (run_logs3_refines Tree_new ([] : list (BackupID * Row nat)) [ex3_create]) as (t & rows & resps & E & Hi & _).
  - split; [apply Tree_new_ok|constructor|done..].
  - repeat constructor.
  - assert (exists row, map_find rows ex3_id = Some row) as [row Hr]; [|eauto 10].
    clear Hi. vm_compute in E. injection E as <- <- <-. eexists. vm_compute. reflexivity.
Qed.

Lemma oprf_evaluations_bounded_witness :
  exists t rows resps (row : Row nat) t' rows' resps', ex3_created = Some (t, rows, resps) /\
    run_logs t rows [ex3_evaluate; ex3_log kQuery; ex3_evaluate; ex3_evaluate] = Some (t', rows', resps') /\
    evaluations ex3_id [ex3_evaluate; ex3_log kQuery; ex3_evaluate; ex3_evaluate] resps' <= tries row.
Proof.
  destruct ex3_created_inv as (t & rows & resps & row & E & Hi & Hf).
  destruct (oprf_evaluations_bounded t rows [ex3_evaluate; ex3_log kQuery; ex3_evaluate; ex3_evaluate] ex3_id row Hi)
    as (t' & rows' & resps' & E' & _ & _ & H & _);
    [repeat constructor|exact Hf|repeat (constructor; [intros _; exact I|]); constructor|].
  exists t, rows, resps, row, t', rows', resps'. split; [exact E|]. split; [exact E'|exact H].
Defined.
