(* ===== verification/Base64.v ===== *)
(** * Base64 (util/base64.h, util/base64.cc)

    [char] is signed, as on the enclave's platforms: a byte above 127 is a
    negative index into the decoding table, an access out of range ([None]). *)
From stdpp Require Import prelude.
From S2P Require Import Prelude Errors Util.

Record Base64Encoding := { decode : list Z; encode : bytes }.

Definition row (n : nat) : list Z := replicate n (-1).
Definition from (a : Z) (n : nat) : list Z := (fun i => a + Z.of_nat i) <$> seq 0 n.

(** "A..Za..z0..9". *)
Definition alnum : bytes := from 65 26 ++ from 97 26 ++ from 48 10.

Definition B64STD : Base64Encoding := {|
  decode := row 43 ++ [62; -1; -1; -1; 63] ++ from 52 10 ++ row 7 ++ from 0 26 ++ row 6 ++ from 26 26 ++ row 133;
  encode := alnum ++ [43; 47] |}.

Definition B64URL : Base64Encoding := {|
  decode := row 45 ++ [62; -1; -1] ++ from 52 10 ++ row 7 ++ from 0 26 ++ [-1; -1; -1; -1; 63; -1] ++ from 26 26 ++ row 133;
  encode := alnum ++ [45; 95] |}.

Definition padding : Z := 61.
Definition u16 (z : Z) : Z := z mod 2 ^ 16.

(** A byte as a [char], then as an index. *)
Definition char_of (b : Z) : Z := if b <? 128 then b else b - 256.
Definition table_at (t : list Z) (next : Z) : option Z :=
  let i := char_of next in if i <? 0 then None else t !! Z.to_nat i.

(** The loop of [B64DecodeInline]: [i] characters read, [out] the bytes
    written over the first [j] of them. *)
Fixpoint decode_loop (e : Base64Encoding) (rest : bytes) (i : Z) (accumulator bits : Z) (out : bytes) :
    option (bytes * Error) :=
  match rest with
  | [] => Some (out, OK)
  | next :: rest' =>
      if next =? padding then
        Some (out, if forallb (fun c => c =? padding) rest' then OK else Util_Base64InvalidPadding)
      else
        c ← table_at (decode e) next;
        if c =? -1 then Some (out, Util_Base64InvalidChar) else
        let accumulator := u16 (Z.lor (Z.shiftl accumulator 6) c) in
        let bits := u16 (bits + 6) in
        if 8 <=? bits then
          CHECK (Zlen out <=? i)
            (decode_loop e rest' (i + 1) accumulator (bits - 8) (out ++ [u8 (Z.shiftr accumulator (bits - 8))]))
        else decode_loop e rest' (i + 1) accumulator bits out
  end.

(** The string after the call: resized on success, else partly overwritten. *)
Definition B64DecodeInline (inout : bytes) (e : Base64Encoding) : option (bytes * Error) :=
  '(out, err) ← decode_loop e inout 0 0 0 [];
  Some (if is_ok err then out else out ++ drop (length out) inout, err).

(** The inner [while (bits >= 6)] runs at most twice on at most 13 bits. *)
Fixpoint encode_out (fuel : nat) (e : Base64Encoding) (bits work : Z) (out : bytes) : Z * bytes :=
  match fuel with
  | O => (bits, out)
  | S fuel' =>
      if 6 <=? bits then
        let bits := bits - 6 in
        let offset := Z.land (Z.shiftr work bits) 63 in
        encode_out fuel' e bits work (out ++ [nth (Z.to_nat offset) (encode e) 0])
      else (bits, out)
  end.

Fixpoint encode_loop (e : Base64Encoding) (rest : bytes) (bits work : Z) (out : bytes) : Z * Z * bytes :=
  match rest with
  | [] => (bits, work, out)
  | b :: rest' =>
      let bits := bits + 8 in
      let work := u16 (Z.lor (Z.shiftl work 8) b) in
      let '(bits, out) := encode_out 3 e bits work out in
      encode_loop e rest' bits work out
  end.

(** The part after the loop. *)
Definition encode_tail (e : Base64Encoding) (pad : bool) (bits work : Z) (out : bytes) : bytes :=
  if bits =? 0 then out else
  let work := u16 (Z.shiftl work (6 - bits)) in
  let offset := Z.land work 63 in
  let out := out ++ [nth (Z.to_nat offset) (encode e) 0] in
  if pad then out ++ (if bits =? 2 then [padding; padding] else [padding]) else out.

Definition Base64Encode (bs : bytes) (e : Base64Encoding) (pad : bool) : bytes :=
  let '(bits, work, out) := encode_loop e bs 0 0 [] in encode_tail e pad bits work out.

(** ** The tables agree *)
Definition entry_ok (e : Base64Encoding) (v : Z) : bool :=
  let c := nth (Z.to_nat v) (encode e) 0 in
  (0 <=? c) && (c <? 128) && negb (c =? padding) && bool_decide (table_at (decode e) c = Some v).

Definition standard (e : Base64Encoding) : Prop := e = B64STD \/ e = B64URL.

Lemma tables_inverse e v : standard e -> 0 <= v < 64 ->
  let c := nth (Z.to_nat v) (encode e) 0 in
  (c =? padding) = false /\ table_at (decode e) c = Some v.
Proof.
  intros He Hv. assert (forallb (entry_ok e) (from 0 64) = true) as Hall.
  { by destruct He as [-> | ->]; vm_compute. }
  rewrite forallb_forall in Hall. specialize (Hall v).
  assert (In v (from 0 64)) as Hin.
  { unfold from. apply list_elem_of_In, list_elem_of_fmap. exists (Z.to_nat v). split; [lia|].
    apply elem_of_seq. lia. }
  specialize (Hall Hin). unfold entry_ok in Hall. btrue. by split.
Qed.

(** ** Arithmetic of the accumulators *)
Lemma work_step w b : 0 <= b < 256 -> u16 (Z.lor (Z.shiftl w 8) b) = (w mod 256) * 256 + b.
Proof.
  intros Hb. rewrite lor_shiftl_low by lia. unfold u16.
  Z.to_euclidean_division_equations. lia.
Qed.

Lemma acc_step w s : 0 <= s < 64 -> u16 (Z.lor (Z.shiftl w 6) s) = (w mod 1024) * 64 + s.
Proof.
  intros Hb. rewrite lor_shiftl_low by lia. unfold u16.
  Z.to_euclidean_division_equations. lia.
Qed.

Lemma land63 z : Z.land z 63 = z mod 64.
Proof. exact (Z.land_ones z 6 ltac:(lia)). Qed.

(** ** One group of three bytes *)
Definition sextets (a b c : Z) : list Z := [a / 4; (16 * a + b / 16) mod 64; (4 * b + c / 64) mod 64; c mod 64].
Definition chars (e : Base64Encoding) (vs : list Z) : bytes := (fun v => nth (Z.to_nat v) (encode e) 0) <$> vs.

Ltac bits_to_arith :=
  rewrite ?work_step, ?acc_step, ?land63, ?Z.shiftr_div_pow2, ?Z.shiftl_mul_pow2 by lia.

Lemma low_byte p a : 0 <= a < 256 -> (p * 256 + a) mod 256 = a.
Proof. intros. rewrite Z.add_comm, Z_mod_plus_full. by apply Z.mod_small. Qed.
Lemma group0 p a : 0 <= a < 256 -> ((p * 256 + a) / 2 ^ (0 + 8 - 6)) mod 64 = a / 4.
Proof. intros. change (2 ^ (0 + 8 - 6)) with 4. Z.to_euclidean_division_equations. lia. Qed.
Lemma group1 a b : 0 <= b < 256 -> ((a * 256 + b) / 2 ^ (0 + 8 - 6 + 8 - 6)) mod 64 = (16 * a + b / 16) mod 64.
Proof.
  intros. change (2 ^ (0 + 8 - 6 + 8 - 6)) with 16. f_equal. Z.to_euclidean_division_equations. lia.
Qed.
Lemma group2 b c : 0 <= c < 256 -> ((b * 256 + c) / 2 ^ (0 + 8 - 6 + 8 - 6 + 8 - 6)) mod 64 = (4 * b + c / 64) mod 64.
Proof.
  intros. change (2 ^ (0 + 8 - 6 + 8 - 6 + 8 - 6)) with 64. f_equal. Z.to_euclidean_division_equations. lia.
Qed.
Lemma group3 b c : 0 <= c < 256 -> ((b * 256 + c) / 2 ^ (0 + 8 - 6 + 8 - 6 + 8 - 6 - 6)) mod 64 = c mod 64.
Proof.
  intros. change (2 ^ (0 + 8 - 6 + 8 - 6 + 8 - 6 - 6)) with 1. rewrite Z.div_1_r.
  Z.to_euclidean_division_equations. lia.
Qed.

Lemma encode_group e a b c rest w out : 0 <= a < 256 -> 0 <= b < 256 -> 0 <= c < 256 ->
  exists w', encode_loop e (a :: b :: c :: rest) 0 w out = encode_loop e rest 0 w' (out ++ chars e (sextets a b c)).
Proof.
  intros Ha Hb Hc. eexists. simpl. rewrite !work_step by lia. rewrite !land63, !Z.shiftr_div_pow2 by lia.
  rewrite <- !app_assoc. cbn [app]. rewrite (low_byte (w mod 256) a), (low_byte a b) by lia.
  rewrite (group0 (w mod 256) a), (group1 a b), (group2 b c), (group3 b c) by lia. done.
Qed.

(** The last group, of one or two bytes. *)
Lemma encode_one e a w out : 0 <= a < 256 ->
  encode_loop e [a] 0 w out = (2, (w mod 256) * 256 + a, out ++ chars e [a / 4]).
Proof.
  intros Ha. simpl. rewrite !work_step by lia. rewrite !land63, !Z.shiftr_div_pow2 by lia.
  by rewrite group0.
Qed.

Lemma encode_two e a b w out : 0 <= a < 256 -> 0 <= b < 256 ->
  encode_loop e [a; b] 0 w out = (4, a * 256 + b, out ++ chars e [a / 4; (16 * a + b / 16) mod 64]).
Proof.
  intros Ha Hb. simpl. rewrite !work_step by lia. rewrite !land63, !Z.shiftr_div_pow2 by lia.
  rewrite low_byte, group0, group1 by lia. by rewrite <- app_assoc.
Qed.

Lemma tail2 p a : Z.land (u16 (Z.shiftl (p * 256 + a) (6 - 2))) 63 = (16 * a + 0 / 16) mod 64.
Proof.
  rewrite land63, Z.shiftl_mul_pow2 by lia. unfold u16. change (2 ^ (6 - 2)) with 16. change (0 / 16) with 0.
  Z.to_euclidean_division_equations. lia.
Qed.
Lemma tail4 a b : Z.land (u16 (Z.shiftl (a * 256 + b) (6 - 4))) 63 = (4 * b + 0 / 64) mod 64.
Proof.
  rewrite land63, Z.shiftl_mul_pow2 by lia. unfold u16. change (2 ^ (6 - 4)) with 4. change (0 / 64) with 0.
  Z.to_euclidean_division_equations. lia.
Qed.

(** ** Decoding what was encoded *)
Lemma decode_step e v rest i acc bits out : standard e -> 0 <= v < 64 -> 0 <= bits < 8 ->
  decode_loop e (nth (Z.to_nat v) (encode e) 0 :: rest) i acc bits out =
  let acc' := (acc mod 1024) * 64 + v in
  if 8 <=? bits + 6 then
    CHECK (Zlen out <=? i) (decode_loop e rest (i + 1) acc' (bits - 2) (out ++ [u8 (acc' / 2 ^ (bits - 2))]))
  else decode_loop e rest (i + 1) acc' (bits + 6) out.
Proof.
  intros He Hv Hb. simpl. destruct (tables_inverse e v He Hv) as [-> ->]. simpl.
  rewrite (proj2 (Z.eqb_neq v (-1))) by lia. rewrite acc_step by lia.
  assert (u16 (bits + 6) = bits + 6) as -> by (unfold u16; rewrite Z.mod_small; lia).
  destruct (8 <=? bits + 6) eqn:E; [|done]. apply Z.leb_le in E.
  replace (bits + 6 - 8) with (bits - 2) by lia. by rewrite Z.shiftr_div_pow2 by lia.
Qed.

Lemma sextets_range a b c : 0 <= a < 256 -> 0 <= c < 256 -> Forall (fun v => 0 <= v < 64) (sextets a b c).
Proof.
  intros Ha Hc. repeat constructor; try apply Z.mod_pos_bound; try lia; Z.to_euclidean_division_equations; lia.
Qed.

Lemma byte0 w a b : 0 <= a < 256 -> 0 <= b < 256 ->
  u8 (((w * 64 + a / 4) mod 1024 * 64 + (16 * a + b / 16) mod 64) / 2 ^ (6 - 2)) = a.
Proof.
  intros. change (2 ^ (6 - 2)) with 16. unfold u8. change (2 ^ 8) with 256.
  Z.to_euclidean_division_equations. lia.
Qed.
Lemma byte1 w a b c : 0 <= b < 256 -> 0 <= c < 256 ->
  u8 (((w * 64 + (16 * a + b / 16) mod 64) mod 1024 * 64 + (4 * b + c / 64) mod 64) / 2 ^ (4 - 2)) = b.
Proof.
  intros. change (2 ^ (4 - 2)) with 4. unfold u8. change (2 ^ 8) with 256.
  Z.to_euclidean_division_equations. lia.
Qed.
Lemma byte2 w b c : 0 <= c < 256 ->
  u8 (((w * 64 + (4 * b + c / 64) mod 64) mod 1024 * 64 + c mod 64) / 2 ^ (2 - 2)) = c.
Proof.
  intros. change (2 ^ (2 - 2)) with 1. unfold u8. change (2 ^ 8) with 256. rewrite Z.div_1_r.
  Z.to_euclidean_division_equations. lia.
Qed.

Lemma decode_two e a b rest i acc out :
  standard e -> 0 <= a < 256 -> 0 <= b < 256 -> Zlen out <= i ->
  exists w, decode_loop e (chars e [a / 4; (16 * a + b / 16) mod 64] ++ rest) i acc 0 out =
    decode_loop e rest (i + 2) (w * 64 + (16 * a + b / 16) mod 64) 4 (out ++ [a]).
Proof.
  intros He Ha Hb Hi. pose proof (sextets_range a b 0 Ha ltac:(lia)) as Hs.
  apply Forall_cons in Hs as [S0 Hs]. apply Forall_cons in Hs as [S1 _].
  exists ((acc mod 1024 * 64 + a / 4) mod 1024). unfold chars. cbn [fmap list_fmap app]. rewrite decode_step by (done || lia).
  change (8 <=? 0 + 6) with false. cbv iota zeta. rewrite decode_step by (done || lia). change (8 <=? 0 + 6 + 6) with true. cbv iota zeta.
  rewrite CHECK_true by (apply Z.leb_le; lia). rewrite byte0 by lia. f_equal; lia.
Qed.

Lemma decode_three e a b c rest i acc out :
  standard e -> 0 <= a < 256 -> 0 <= b < 256 -> 0 <= c < 256 -> Zlen out <= i ->
  exists w, decode_loop e (chars e [a / 4; (16 * a + b / 16) mod 64; (4 * b + c / 64) mod 64] ++ rest) i acc 0 out =
    decode_loop e rest (i + 3) (w * 64 + (4 * b + c / 64) mod 64) 2 (out ++ [a; b]).
Proof.
  intros He Ha Hb Hc Hi. pose proof (sextets_range a b c Ha Hc) as Hs.
  apply Forall_cons in Hs as [S0 Hs]. apply Forall_cons in Hs as [S1 Hs]. apply Forall_cons in Hs as [S2 _].
  destruct (decode_two e a b (chars e [(4 * b + c / 64) mod 64] ++ rest) i acc out He Ha Hb Hi) as [w Hw].
  exists ((w * 64 + (16 * a + b / 16) mod 64) mod 1024).
  change (chars e [a / 4; (16 * a + b / 16) mod 64; (4 * b + c / 64) mod 64] ++ rest) with
    (chars e [a / 4; (16 * a + b / 16) mod 64] ++ chars e [(4 * b + c / 64) mod 64] ++ rest).
  rewrite Hw. unfold chars. cbn [fmap list_fmap app]. rewrite decode_step by (done || lia). change (8 <=? 4 + 6) with true. cbv iota zeta.
  rewrite CHECK_true by (apply Z.leb_le; rewrite Zlen_app; unfold Zlen at 2; simpl; lia).
  rewrite byte1, <- app_assoc by lia. f_equal; lia.
Qed.

Lemma decode_group e a b c rest i acc out :
  standard e -> 0 <= a < 256 -> 0 <= b < 256 -> 0 <= c < 256 -> Zlen out <= i ->
  exists acc', decode_loop e (chars e (sextets a b c) ++ rest) i acc 0 out =
    decode_loop e rest (i + 4) acc' 0 (out ++ [a; b; c]).
Proof.
  intros He Ha Hb Hc Hi. pose proof (sextets_range a b c Ha Hc) as Hs.
  unfold sextets in Hs. rewrite !Forall_cons in Hs. destruct Hs as (_ & _ & _ & S3 & _).
  destruct (decode_three e a b c (chars e [c mod 64] ++ rest) i acc out He Ha Hb Hc Hi) as [w Hw].
  exists ((w * 64 + (4 * b + c / 64) mod 64) mod 1024 * 64 + c mod 64).
  change (chars e (sextets a b c) ++ rest) with
    (chars e [a / 4; (16 * a + b / 16) mod 64; (4 * b + c / 64) mod 64] ++ chars e [c mod 64] ++ rest).
  rewrite Hw. unfold chars. cbn [fmap list_fmap app]. rewrite decode_step by (done || lia). change (8 <=? 2 + 6) with true. cbv iota zeta.
  rewrite CHECK_true by (apply Z.leb_le; rewrite Zlen_app; unfold Zlen at 2; simpl; lia).
  rewrite byte2, <- app_assoc by lia. f_equal; lia.
Qed.

Lemma decode_padding e n i acc bits out : decode_loop e (replicate n padding) i acc bits out = Some (out, OK).
Proof.
  destruct n as [|n]; [done|]. simpl.
  replace (forallb (fun c => c =? padding) (replicate n padding)) with true; [done|].
  induction n; [done|]. simpl. done.
Qed.

(** The padding that is appended. *)
Definition tail_pad (pad : bool) (n : nat) : bytes := if pad then replicate n padding else [].
Lemma decode_tail_pad e pad n i acc bits out : decode_loop e (tail_pad pad n) i acc bits out = Some (out, OK).
Proof. destruct pad; [apply decode_padding|done]. Qed.

Lemma Base64_loop e (pad : bool) bs : standard e -> bytes_ok bs -> forall (w : Z) (out : bytes) (i acc : Z) (dn : bytes),
  Zlen dn <= i -> exists cs,
    (let '(bits, work, o) := encode_loop e bs 0 w out in encode_tail e pad bits work o) = out ++ cs /\
    decode_loop e cs i acc 0 dn = Some (dn ++ bs, OK).
Proof.
  intros He. induction bs as [bs IH] using (induction_ltof1 _ (@length Z)). unfold ltof in IH.
  destruct bs as [|a [|b [|c rest]]]; intros Hb w out i acc dn Hi; unfold bytes_ok, is_u8 in Hb;
    rewrite ?Forall_cons in Hb.
  - exists []. simpl. by rewrite !app_nil_r.
  - destruct Hb as [Ha _]. exists (chars e [a / 4; (16 * a + 0 / 16) mod 64] ++ tail_pad pad 2).
    rewrite encode_one by lia. unfold encode_tail. change (2 =? 0) with false. change (2 =? 2) with true. cbv iota. rewrite tail2.
    split; [destruct pad; by rewrite <- !app_assoc|].
    destruct (decode_two e a 0 (tail_pad pad 2) i acc dn He Ha ltac:(lia) Hi) as [w' ->]. apply decode_tail_pad.
  - destruct Hb as (Ha & Hb & _). exists (chars e [a / 4; (16 * a + b / 16) mod 64; (4 * b + 0 / 64) mod 64] ++ tail_pad pad 1).
    rewrite encode_two by lia. unfold encode_tail. change (4 =? 0) with false. change (4 =? 2) with false. cbv iota. rewrite tail4.
    split; [destruct pad; by rewrite <- !app_assoc|].
    destruct (decode_three e a b 0 (tail_pad pad 1) i acc dn He Ha Hb ltac:(lia) Hi) as [w' ->]. apply decode_tail_pad.
  - destruct Hb as (Ha & Hb & Hc & Hr). destruct (encode_group e a b c rest w out Ha Hb Hc) as [w' ->].
    destruct (IH rest ltac:(simpl; lia) Hr w' (out ++ chars e (sextets a b c)) (i + 4) 0 (dn ++ [a; b; c])) as (cs & E1 & _).
    { rewrite Zlen_app. unfold Zlen in *. simpl. lia. }
    exists (chars e (sextets a b c) ++ cs). split; [rewrite app_assoc; exact E1|].
    destruct (decode_group e a b c cs i acc dn He Ha Hb Hc Hi) as [acc' ->].
    destruct (IH rest ltac:(simpl; lia) Hr w' (out ++ chars e (sextets a b c)) (i + 4) acc' (dn ++ [a; b; c])) as (cs' & E1' & E2').
    { rewrite Zlen_app. unfold Zlen in *. simpl. lia. }
    assert (cs' = cs) as -> by (apply (app_inv_head (out ++ chars e (sextets a b c))); by rewrite <- E1, <- E1').
    by rewrite E2', <- app_assoc.
Qed.

(** ** Properties *)

(** Base64 round trip: decoding what [Base64Encode] produced, with the
    standard or the URL alphabet, with padding or without, gives back the
    bytes. *)
Theorem base64_roundtrip e bs pad :
  e = B64STD \/ e = B64URL -> bytes_ok bs -> B64DecodeInline (Base64Encode bs e pad) e = Some (bs, OK).
Proof.
  intros He Hb. destruct (Base64_loop e pad bs He Hb 0 [] 0 0 []) as (cs & E & D); [done|].
  unfold B64DecodeInline, Base64Encode. simpl in E, D.
  destruct (encode_loop e bs 0 0 []) as [[bits work] o]. rewrite E. simpl. rewrite D. done.
Qed.

Lemma base64_roundtrip_witness :
  B64DecodeInline (Base64Encode [77; 97; 110; 255] B64URL true) B64URL = Some ([77; 97; 110; 255], OK).
Proof. apply (base64_roundtrip B64URL [77; 97; 110; 255] true); [right; reflexivity|repeat constructor; done]. Defined.

(** Any byte above 127 in the input, reached before padding, makes
    [B64DecodeInline] read outside its table: [char] is signed and the index
    is a negative number converted to [size_t]. *)
Theorem base64_high_byte_out_of_range e b rest :
  128 <= b < 256 -> B64DecodeInline (b :: rest) e = None.
Proof.
  intros Hb. unfold B64DecodeInline. simpl. rewrite (proj2 (Z.eqb_neq b padding)) by (unfold padding; lia).
  unfold table_at, char_of. rewrite (proj2 (Z.ltb_ge b 128)) by lia.
  by rewrite (proj2 (Z.ltb_lt (b - 256) 0)) by lia.
Qed.

Lemma base64_high_byte_out_of_range_witness : B64DecodeInline [200; 65] B64STD = None.
Proof. apply (base64_high_byte_out_of_range B64STD 200 [65]). lia. Defined.
