(* ===== verification/Minimums.v ===== *)
(** * Minimums (minimums/minimums.h, minimums/minimums.cc)

    Limits and values are maps from strings to byte strings.  A protobuf map
    has no order of its own: a map is the list of its entries in the order in
    which this run iterates over them, and the theorems hold for every order. *)
From stdpp Require Import prelude.
From S2P Require Import Prelude Errors Containers Util.

Notation StringMap := (list (bytes * bytes)).
Definition MinimumLimits : Type := StringMap.
Definition MinimumValues : Type := StringMap.
Implicit Types (s v : StringMap).

Definition find s (k : bytes) : option bytes := map_find s k.
Arguments find : simpl never.

(** The first loop: no key of [s_] is missing in [s]. *)
Fixpoint keys_kept (s_ s : StringMap) : Error :=
  match s_ with
  | [] => OK
  | (k, _) :: s_' => if find s k is Some _ then keys_kept s_' s else Minimums_KeyMissing
  end.

(** The second loop, over [s]. *)
Fixpoint limits_increase (s_ s : StringMap) : Error :=
  match s with
  | [] => OK
  | (k, v_new) :: s' =>
      if Zlen v_new =? 0 then Minimums_EntryEmpty
      else if bool_decide (k = []) then Minimums_KeyEmpty
      else match find s_ k with
           | None => limits_increase s_ s'
           | Some v_old =>
               if key_lt v_new v_old then Minimums_LimitDecreased
               else if negb (Zlen v_old =? Zlen v_new) then Minimums_SizeMismatch
               else limits_increase s_ s'
           end
  end.

(** The new [s_] and the result. *)
Definition UpdateLimits (s_ : MinimumLimits) (s : MinimumLimits) : MinimumLimits * Error :=
  match keys_kept s_ s with
  | OK => match limits_increase s_ s with OK => (s, OK) | err => (s_, err) end
  | err => (s_, err)
  end.

Definition CheckValueAgainstSet (s : MinimumLimits) (key value : bytes) : Error :=
  match find s key with
  | None => OK
  | Some limit =>
      if key_lt value limit then Minimums_ValueTooLow
      else if negb (Zlen value =? Zlen limit) then Minimums_ValueSize
      else OK
  end.

Fixpoint CheckValuesAgainstSet (s : MinimumLimits) (v : MinimumValues) : Error :=
  match v with
  | [] => OK
  | (k, x) :: v' => match CheckValueAgainstSet s k x with OK => CheckValuesAgainstSet s v' | err => err end
  end.
Definition CheckValues (s_ : MinimumLimits) (v : MinimumValues) : Error := CheckValuesAgainstSet s_ v.

Definition U64 (value : Z) : bytes := BigEndian64Bytes value.

(** Assignment to an entry of [v.mutable_val()]: overwrites, or adds it. *)
Fixpoint put (k x : bytes) (v : MinimumValues) : MinimumValues :=
  match v with
  | [] => [(k, x)]
  | (k', x') :: v' => if bool_decide (k' = k) then (k, x) :: v' else (k', x') :: put k x v'
  end.

Fixpoint CombineValues (v b : MinimumValues) : MinimumValues :=
  match b with
  | [] => v
  | (k, x) :: b' =>
      let v := match find v k with
               | None => put k x v
               | Some y => if key_lt x y then put k x v else v
               end in
      CombineValues v b'
  end.

(** ** Lemmas *)
Definition map_wf s : Prop := NoDup s.*1.

Lemma find_cons k x s k' : find ((k, x) :: s) k' = if bool_decide (k' = k) then Some x else find s k'.
Proof.
  unfold find. rewrite map_find_cons. case_bool_decide as E; [subst; by rewrite key_eq_refl|].
  by rewrite key_eq_neq.
Qed.

Lemma find_elem s k x : map_wf s -> (k, x) ∈ s <-> find s k = Some x.
Proof.
  intros Hw. split; [|apply map_find_elem].
  induction s as [|[k' x'] s IH]; [by intros ?%elem_of_nil|]. apply NoDup_cons in Hw as [Hn Hw].
  rewrite find_cons. intros [[= -> ->]|Hin]%elem_of_cons; [by rewrite bool_decide_eq_true_2|].
  rewrite bool_decide_eq_false_2; [by apply IH|]. intros ->. apply Hn. by apply list_elem_of_fmap_2' with (k', x).
Qed.

Lemma find_put k x v k' : find (put k x v) k' = if bool_decide (k' = k) then Some x else find v k'.
Proof.
  induction v as [|[k0 x0] v IH]; simpl; [by rewrite find_cons|].
  destruct (decide (k0 = k)) as [->|Hne].
  - rewrite (bool_decide_eq_true_2 (k = k)), !find_cons by done. by case_bool_decide.
  - rewrite (bool_decide_eq_false_2 (k0 = k)), !find_cons, IH by done. repeat case_bool_decide; congruence.
Qed.

Lemma keys_kept_OK s_ s : keys_kept s_ s = OK <-> forall k, k ∈ s_.*1 -> is_Some (find s k).
Proof.
  induction s_ as [|[k x] s_ IH]; simpl; [split; [intros _ k ?%elem_of_nil; done|done]|].
  destruct (find s k) eqn:E; [|split; [done|intros H; destruct (H k) as [? ?]; [by left|congruence]]].
  rewrite IH. split; intros H; [intros k' [->|?]%elem_of_cons; [eauto|auto]|intros k' ?; apply H; by right].
Qed.

(** A limit may replace another one. *)
Definition raises (v_old v_new : bytes) : Prop := key_lt v_new v_old = false /\ length v_old = length v_new.

Lemma limits_increase_OK s_ s : limits_increase s_ s = OK <->
  forall k x, (k, x) ∈ s -> x <> [] /\ k <> [] /\ forall y, find s_ k = Some y -> raises y x.
Proof.
  induction s as [|[k x] s IH]; simpl; [split; [intros _ ? ? ?%elem_of_nil; done|done]|].
  assert (forall P : Prop, (forall k' x', (k', x') ∈ (k, x) :: s -> x' <> [] /\ k' <> [] /\
      forall y, find s_ k' = Some y -> raises y x') <-> (x <> [] /\ k <> [] /\ forall y, find s_ k = Some y -> raises y x) /\
      forall k' x', (k', x') ∈ s -> x' <> [] /\ k' <> [] /\ forall y, find s_ k' = Some y -> raises y x') as Hsplit.
  { intros _. split; [intros H; split; [apply H; by left|intros; apply H; by right]|].
    intros [H1 H2] k' x' [[= -> ->]|?]%elem_of_cons; auto. }
  rewrite (Hsplit True), <- IH. clear Hsplit IH. destruct (Z.eqb_spec (Zlen x) 0) as [E|E].
  { apply Zlen_zero in E. split; [done|tauto]. }
  rewrite Zlen_zero in E. case_bool_decide as Ek; [split; [done|tauto]|].
  destruct (find s_ k) as [y|] eqn:Ef; [|split; [intros; split; [|done]; by split_and!|tauto]].
  destruct (key_lt x y) eqn:El.
  { split; [done|]. intros [(_ & _ & H) _]. destruct (H y eq_refl). congruence. }
  destruct (Z.eqb_spec (Zlen y) (Zlen x)) as [Es|Es]; simpl.
  - split; [|tauto]. intros H. split; [|done]. split_and!; [done..|]. intros ? [= <-]. split; [done|]. unfold Zlen in Es. lia.
  - split; [done|]. intros [(_ & _ & H) _]. destruct (H y eq_refl) as [_ H']. unfold Zlen in Es. lia.
Qed.

Lemma CheckValues_OK s v : CheckValuesAgainstSet s v = OK <->
  forall k x, (k, x) ∈ v -> forall limit, find s k = Some limit -> raises limit x.
Proof.
  induction v as [|[k x] v IH]; simpl; [split; [intros _ ? ? ?%elem_of_nil; done|done]|].
  assert (CheckValueAgainstSet s k x = OK <-> forall limit, find s k = Some limit -> raises limit x) as Hone.
  { unfold CheckValueAgainstSet. destruct (find s k) as [y|]; [|by split].
    destruct (key_lt x y) eqn:El; [split; [done|]; intros H; destruct (H y eq_refl); congruence|].
    destruct (Z.eqb_spec (Zlen x) (Zlen y)) as [Es|Es]; simpl; unfold Zlen in Es.
    - split; [|done]. intros _ ? [= <-]. split; [done|lia].
    - split; [done|]. intros H. destruct (H y eq_refl). lia. }
  split.
  - destruct (CheckValueAgainstSet s k x) eqn:E; try done. intros H.
    intros k' x' [[= -> ->]|Hin]%elem_of_cons; [by apply Hone|by apply IH].
  - intros H. rewrite (proj2 Hone) by (apply H; by left). apply IH. intros k' x' Hin. apply H. by right.
Qed.

Lemma raises_trans a b c : raises a b -> raises b c -> raises a c.
Proof.
  intros [H1 L1] [H2 L2]. split; [|congruence]. destruct (key_lt c a) eqn:E; [|done].
  destruct (key_lt a b) eqn:E2; [rewrite (key_trans _ _ _ E E2) in H2; done|].
  rewrite (key_total _ _ E2 H1) in E. congruence.
Qed.

Definition least (x y : option bytes) : option bytes :=
  match x, y with
  | Some x, Some y => Some (if key_lt y x then y else x)
  | Some x, None => Some x
  | None, y => y
  end.

Lemma Combine_find a b k : map_wf b -> find (CombineValues a b) k = least (find a k) (find b k).
Proof.
  revert a. induction b as [|[k0 x] b IH]; intros a Hw; simpl; [by destruct (find a k)|].
  apply NoDup_cons in Hw as [Hn Hw]. rewrite IH, find_cons by done.
  assert (k = k0 -> find b k = None) as Hnone by (intros ->; by apply map_find_None).
  case_bool_decide as E.
  - rewrite Hnone by done. subst k0. destruct (find a k) as [y|] eqn:Ea; simpl.
    + destruct (key_lt x y); rewrite ?find_put, ?bool_decide_eq_true_2, ?Ea by done; done.
    + by rewrite find_put, bool_decide_eq_true_2.
  - f_equal. destruct (find a k0) as [y|]; [destruct (key_lt x y)|]; rewrite ?find_put, ?bool_decide_eq_false_2 by done; done.
Qed.

Lemma put_keys k x v k' : k' ∈ (put k x v).*1 -> k' = k \/ k' ∈ v.*1.
Proof.
  induction v as [|[k0 x0] v IH]; simpl; [set_solver|].
  case_bool_decide; simpl; [set_solver|]. intros [->|Hin]%elem_of_cons; [set_solver|]. destruct (IH Hin); set_solver.
Qed.

Lemma put_wf k x v : map_wf v -> map_wf (put k x v).
Proof.
  unfold map_wf. induction v as [|[k0 x0] v IH]; simpl; intros Hw; [repeat constructor; by intros ?%elem_of_nil|].
  apply NoDup_cons in Hw as [Hn Hw]. case_bool_decide as E; simpl; [subst; by constructor|].
  constructor; [|by apply IH]. by intros [?|?]%put_keys.
Qed.

Lemma Combine_wf a b : map_wf a -> map_wf (CombineValues a b).
Proof.
  revert a. induction b as [|[k x] b IH]; intros a Hw; simpl; [done|].
  apply IH. destruct (find a k); [destruct (key_lt _ _)|]; by auto using put_wf.
Qed.

(** ** Properties *)

(** C40: [UpdateLimits] accepts new limits exactly when no key disappears, no
    key and no value is empty, and every limit that was there keeps its size
    and does not decrease; then the new limits are in force, otherwise the old
    ones are unchanged. *)
Theorem update_limits_exact s_ s :
  let '(s', err) := UpdateLimits s_ s in
  (err = OK <-> (forall k, k ∈ s_.*1 -> is_Some (find s k)) /\
     forall k x, (k, x) ∈ s -> x <> [] /\ k <> [] /\ forall y, find s_ k = Some y -> raises y x) /\
  s' = if decide (err = OK) then s else s_.
Proof.
  destruct (UpdateLimits s_ s) as [s' err] eqn:E. rewrite <- keys_kept_OK, <- limits_increase_OK.
  unfold UpdateLimits in E. destruct (keys_kept s_ s) eqn:E1; simplify_eq;
    try (split; [split; [done|by intros [? ?]]|done]).
  destruct (limits_increase s_ s) eqn:E2; simplify_eq; (split; [|done]); split; by try intros [? ?].
Qed.

(** Limits only get stricter: values that satisfy the limits after an
    accepted update satisfied those before it. *)
Theorem limits_only_tighten s_ s s' v :
  map_wf s -> UpdateLimits s_ s = (s', OK) -> CheckValues s' v = OK -> CheckValues s_ v = OK.
Proof.
  intros Hw. unfold UpdateLimits, CheckValues. destruct (keys_kept s_ s) eqn:E1; try done.
  destruct (limits_increase s_ s) eqn:E2; try done. intros [= <-]. rewrite !CheckValues_OK.
  intros Hv k x Hin limit Hl. apply keys_kept_OK with (k := k) in E1 as [l2 Hl2];
    [|apply map_find_elem in Hl; by apply list_elem_of_fmap_2' with (k, limit)].
  apply raises_trans with l2; [|by apply (Hv k x)].
  apply find_elem in Hl2 as Hin2; [|done]. by apply (proj1 (limits_increase_OK s_ s) E2 k l2 Hin2).
Qed.

Lemma limits_only_tighten_witness :
  CheckValues [([107], [1; 0])] [([107], [1; 7])] = OK.
Proof.
  apply (limits_only_tighten [([107], [1; 0])] [([106], [9]); ([107], [1; 5])] [([106], [9]); ([107], [1; 5])]).
  - apply (bool_decide_unpack _). vm_compute. exact I.
  - reflexivity.
  - reflexivity.
Defined.

(** [CombineValues] keeps, for every key of either, the smaller value, and
    two sets of values that both satisfy some limits combine to one that
    satisfies them. *)
Theorem combine_values_least a b s :
  map_wf a -> map_wf b ->
  (forall k, find (CombineValues a b) k = least (find a k) (find b k)) /\
  (CheckValues s a = OK -> CheckValues s b = OK -> CheckValues s (CombineValues a b) = OK).
Proof.
  intros Ha Hb. split; [intros k; by apply Combine_find|]. unfold CheckValues. rewrite !CheckValues_OK.
  intros H1 H2 k x Hin. apply find_elem in Hin; [|by apply Combine_wf]. rewrite Combine_find in Hin by done.
  destruct (find a k) as [y|] eqn:Ea, (find b k) as [z|] eqn:Eb; simplify_eq/=.
  - apply find_elem in Ea, Eb; [|done..]. destruct (key_lt z y); eauto.
  - apply find_elem in Ea; eauto.
  - apply find_elem in Eb; eauto.
Qed.

Lemma combine_values_least_witness :
  CheckValues [([107], [1; 0])] (CombineValues [([107], [1; 7])] [([107], [1; 3])]) = OK.
Proof.
  apply (combine_values_least [([107], [1; 7])] [([107], [1; 3])] [([107], [1; 0])]);
    solve [apply (bool_decide_unpack _); vm_compute; exact I | reflexivity].
Defined.
