(* ===== verification/GroupClock.v ===== *)
(** * The group clock (groupclock/groupclock.h, groupclock/groupclock.cc)

    The local time, the last time every peer reported, and the median of the
    times of a group. *)
From stdpp Require Import prelude sorting.
From S2P Require Import Prelude Errors Containers PeerId RaftTypes.

Notation UnixSecs := Z.

Record Clock := { local_ : UnixSecs; remotes_ : list (PeerID * UnixSecs) }.
Definition Clock_new : Clock := {| local_ := 0; remotes_ := [] |}.

Definition SetLocalTime (c : Clock) (secs : UnixSecs) : Clock := {| c with local_ := secs |}.
Definition SetRemoteTime (c : Clock) (peer : PeerID) (secs : UnixSecs) : Clock :=
  {| c with remotes_ := map_set peer secs (remotes_ c) |}.
Definition GetLocalTime (c : Clock) : UnixSecs := local_ c.

(** The [while] loop over the two ordered sequences; each step advances at
    least one of them. *)
Fixpoint merge_loop (fuel : nat) (set_iter : list PeerID) (map_iter : list (PeerID * UnixSecs))
    (secs : list UnixSecs) : list UnixSecs :=
  match fuel with
  | O => secs
  | S fuel' =>
      match set_iter, map_iter with
      | set_peer :: set_iter', (map_peer, t) :: map_iter' =>
          if key_lt set_peer map_peer then merge_loop fuel' set_iter' map_iter secs
          else if key_lt map_peer set_peer then merge_loop fuel' set_iter map_iter' secs
          else merge_loop fuel' set_iter' map_iter' (secs ++ [t])
      | _, _ => secs
      end
  end.

(** [remotes] is a [std::set]: an ordered list without duplicates. *)
Definition GetTime (c : Clock) (remotes : list PeerID) : option UnixSecs :=
  let secs := merge_loop (S (length remotes + length (remotes_ c))) remotes (remotes_ c) [local_ c] in
  merge_sort Z.le secs !! (length secs / 2)%nat.

(** ** Lemmas *)

(** The times of those peers of the group that have reported one. *)
Fixpoint times_of (m : list (PeerID * UnixSecs)) (ps : list PeerID) : list UnixSecs :=
  match ps with
  | [] => []
  | p :: ps' => match map_find m p with Some t => t :: times_of m ps' | None => times_of m ps' end
  end.
Definition reported (c : Clock) (remotes : list PeerID) : list UnixSecs := times_of (remotes_ c) remotes.

Definition clock_ok (c : Clock) : Prop := map_ok (remotes_ c).

Lemma Clock_new_ok : clock_ok Clock_new.
Proof. constructor. Qed.
Lemma SetLocalTime_ok c s : clock_ok c -> clock_ok (SetLocalTime c s).
Proof. done. Qed.
Lemma SetRemoteTime_ok c p s : clock_ok c -> clock_ok (SetRemoteTime c p s).
Proof. apply map_set_ok. Qed.

Lemma times_skip m k v ps :
  (forall p, p ∈ ps -> key_lt k p = true) -> times_of ((k, v) :: m) ps = times_of m ps.
Proof.
  induction ps as [|p ps IH]; intros H; [done|]. cbn [times_of]. rewrite IH by (intros; apply H; by right).
  rewrite map_find_cons, key_eq_neq; [done|]. intros ->. specialize (H k ltac:(by left)).
  by rewrite key_irrefl in H.
Qed.

Lemma times_nil ps : times_of [] ps = [].
Proof. by induction ps. Qed.

Lemma merge_loop_spec fuel set_iter map_iter secs :
  set_ok set_iter -> map_ok map_iter -> (length set_iter + length map_iter < fuel)%nat ->
  merge_loop fuel set_iter map_iter secs = secs ++ times_of map_iter set_iter.
Proof.
  revert set_iter map_iter secs. induction fuel as [|fuel IH]; intros set_iter map_iter secs Hs Hm Hf; [lia|].
  destruct set_iter as [|p ps]; cbn [merge_loop]; [by rewrite app_nil_r|].
  destruct map_iter as [|[q t] ms]; cbn [merge_loop]; [by rewrite times_nil, app_nil_r|]. simpl in Hf.
  unfold map_ok in Hm. simpl in Hm. apply StronglySorted_inv in Hs as Hs'. destruct Hs' as [Hs1 Hs2].
  apply StronglySorted_inv in Hm as Hm'. destruct Hm' as [Hm1 Hm2].
  rewrite Forall_forall in Hs2. rewrite Forall_forall in Hm2.
  destruct (key_lt p q) eqn:E1.
  - rewrite IH by (done || simpl; lia). f_equal. cbn [times_of].
    assert (map_find ((q, t) :: ms) p = None) as ->; [|done].
    apply map_find_None. simpl. intros [->|Hin]%elem_of_cons; [by rewrite key_irrefl in E1|].
    pose proof (key_trans _ _ _ E1 (Hm2 _ Hin)) as H. by rewrite key_irrefl in H.
  - destruct (key_lt q p) eqn:E2.
    + rewrite IH by (done || simpl; lia). f_equal. symmetry. apply (times_skip ms q t (p :: ps)).
      intros p' [->|Hin]%elem_of_cons; [done|]. exact (key_trans _ _ _ E2 (Hs2 _ Hin)).
    + assert (p = q) as -> by (by apply key_total).
      rewrite IH by (done || simpl; lia). cbn [times_of]. rewrite map_find_cons, key_eq_refl.
      rewrite times_skip by (intros p' Hin; exact (Hs2 _ Hin)). by rewrite <- app_assoc.
Qed.

Lemma GetTime_eq c remotes : clock_ok c -> set_ok remotes ->
  GetTime c remotes = merge_sort Z.le (local_ c :: reported c remotes) !! (S (length (reported c remotes)) / 2)%nat.
Proof. intros Hc Hr. unfold GetTime. rewrite merge_loop_spec by (done || lia). done. Qed.

(** ** The median *)
Definition within (lo hi y : Z) : Prop := lo <= y <= hi.
#[local] Instance within_dec lo hi y : Decision (within lo hi y).
Proof. unfold within. apply _. Defined.

(** At most [length l] elements satisfy a predicate; none of those of a part
    where it fails. *)
Lemma count_outside (P : Z -> Prop) `{!forall x, Decision (P x)} (l1 l2 : list Z) :
  (forall y, y ∈ l1 -> ~ P y) -> (length (filter P (l1 ++ l2)) <= length l2)%nat.
Proof.
  intros Hn. rewrite filter_app, length_app.
  assert (filter P l1 = []) as ->; [|simpl; apply length_filter].
  induction l1 as [|y l1 IH]; [done|]. rewrite filter_cons_False by (apply Hn; left).
  apply IH. intros z Hz. apply Hn. by right.
Qed.

Lemma sorted_split (l : list Z) k x :
  StronglySorted Z.le l -> l !! k = Some x ->
  (forall y, y ∈ take (S k) l -> y <= x) /\ (forall y, y ∈ drop k l -> x <= y).
Proof.
  intros Hs Hk. rewrite <- (take_drop_middle l k x Hk) in Hs. split.
  - rewrite (take_S_r _ _ _ Hk). intros y [Hy|Hy%list_elem_of_singleton]%elem_of_app; [|lia].
    apply (StronglySorted_app_1_elem_of Z.le _ _ y x Hs Hy). left.
  - rewrite (drop_S _ _ _ Hk). intros y [->|Hy]%elem_of_cons; [lia|].
    apply StronglySorted_app_1_r, StronglySorted_inv in Hs as [_ Hf]. rewrite Forall_forall in Hf. by apply Hf.
Qed.

Lemma median_within l x lo hi :
  merge_sort Z.le l !! (length l / 2)%nat = Some x ->
  (length l < 2 * length (filter (within lo hi) l))%nat -> within lo hi x.
Proof.
  intros Hx Hc. set (s := merge_sort Z.le l) in *.
  assert (s ≡ₚ l) as Hp by apply merge_sort_Permutation.
  assert (StronglySorted Z.le s) as Hs by (apply StronglySorted_merge_sort; apply _).
  assert (length (filter (within lo hi) l) = length (filter (within lo hi) s)) as E
    by (apply Permutation_length; by rewrite Hp).
  rewrite E in Hc. clear E. rewrite <- (Permutation_length Hp) in Hc, Hx.
  destruct (sorted_split s _ x Hs Hx) as [Hlow Hhigh]. apply lookup_lt_Some in Hx as Hk.
  pose proof (Nat.div_mod_eq (length s) 2). pose proof (Nat.mod_upper_bound (length s) 2).
  unfold within. split; apply Z.nlt_ge; intros Hlt.
  - pose proof (count_outside (within lo hi) (take (S (length s / 2)) s) (drop (S (length s / 2)) s)) as Hn.
    rewrite take_drop, length_drop in Hn. unfold within in Hn at 1.
    assert (length (filter (within lo hi) s) <= length s - S (length s / 2))%nat; [|lia].
    apply Hn. intros y Hy%Hlow. lia.
  - pose proof (count_outside (within lo hi) (drop (length s / 2) s) (take (length s / 2) s)) as Hn.
    assert (length (filter (within lo hi) s) <= length s / 2)%nat; [|lia].
    rewrite <- (take_drop (length s / 2) s) at 1. rewrite (Permutation_app_comm (take _ s)).
    rewrite length_take in Hn. etrans; [apply Hn|lia]. intros y Hy%Hhigh. unfold within. lia.
Qed.

(** ** Properties *)

(** C39: [GetTime] returns a time (it never runs out of the vector), and it is
    robust: if more than half of the times it takes into account (the local
    one and those reported by peers of the group) lie in an interval, so does
    the result, whatever the others report. *)
Theorem group_time_robust c remotes :
  clock_ok c -> set_ok remotes ->
  exists t, GetTime c remotes = Some t /\
    (t = local_ c \/ exists p, p ∈ remotes /\ map_find (remotes_ c) p = Some t) /\
    forall lo hi, (length (local_ c :: reported c remotes) <
      2 * length (filter (within lo hi) (local_ c :: reported c remotes)))%nat -> lo <= t <= hi.
Proof.
  intros Hc Hr. rewrite GetTime_eq by done. set (l := local_ c :: reported c remotes).
  assert (merge_sort Z.le l ≡ₚ l) as Hp by apply merge_sort_Permutation.
  destruct (lookup_lt_is_Some_2 (merge_sort Z.le l) (length l / 2)) as [t Ht].
  { rewrite (Permutation_length Hp). apply Nat.div_lt; [simpl|]; lia. }
  exists t. split; [exact Ht|]. split; [|intros lo hi; by apply median_within].
  apply list_elem_of_lookup_2 in Ht. rewrite Hp in Ht. apply elem_of_cons in Ht as [->|Hin]; [by left|right].
  unfold reported in Hin. clear - Hin. induction remotes as [|p ps IH]; simpl in Hin; [by apply elem_of_nil in Hin|].
  destruct (map_find _ p) as [u|] eqn:E; [apply elem_of_cons in Hin as [->|Hin]; [exists p; split; [left|done]|]|];
    destruct (IH Hin) as (q & ? & ?); exists q; (split; [by right|done]).
Qed.

(** Five replicas; two report nonsense. *)
Definition example_clock : Clock :=
  {| local_ := 1001; remotes_ := [([1], 1000); ([2], 9999999); ([3], 0); ([4], 1002)] |}.

Lemma group_time_robust_witness :
  exists t, GetTime example_clock [[1]; [2]; [3]; [4]] = Some t /\ 1000 <= t <= 1002.
Proof.
  destruct (group_time_robust example_clock [[1]; [2]; [3]; [4]]) as (t & H1 & _ & H2).
  - unfold clock_ok, map_ok, set_ok. simpl. repeat constructor.
  - unfold set_ok. repeat constructor.
  - exists t. split; [exact H1|]. apply H2. vm_compute. repeat constructor.
Defined.
