(* ===== verification/Timeout.v ===== *)
(** * Timeouts (timeout/timeout.h, timeout/timeout.cc)

    [timeouts_] is an unordered map from ticks to unordered maps from
    cancellation IDs to functions; [TimerTick] returns the functions it runs,
    in the order in which it iterates over them. *)
From stdpp Require Import prelude gmap.
From S2P Require Import Prelude.

Notation Ticks := Z.
Definition InvalidTicks : Ticks := 2 ^ 63 - 1.

Record Cancel := { at_tick_ : Ticks; cancel_id_ : Z }.
Definition Cancel_none : Cancel := {| at_tick_ := 0; cancel_id_ := 0 |}.

Record Timeout {F : Type} := {
  ticks_ : Ticks;
  timeout_cancel_gen_ : Z;
  timeouts_ : gmap Ticks (gmap Z F) }.
Arguments Timeout : clear implicits.

Section timeout.
Context {F : Type}.
Implicit Types (s : Timeout F) (c : Cancel).

Definition Timeout_new : Timeout F := {| ticks_ := 0; timeout_cancel_gen_ := 0; timeouts_ := ∅ |}.

Definition TimerTick s : Timeout F * list (Z * F) :=
  let now := ticks_ s + 1 in
  match timeouts_ s !! now with
  | None => ({| s with ticks_ := now |}, [])
  | Some ts => ({| s with ticks_ := now; timeouts_ := delete now (timeouts_ s) |}, map_to_list ts)
  end.

(** The sum is a signed 64-bit integer; it must not overflow. *)
Definition SetTimeout s (ticks_from_now : Ticks) (fn : F) : option (Timeout F * Cancel) :=
  if ticks_from_now + ticks_ s <? 2 ^ 63 then
    CHECK (ticks_ s <? ticks_from_now + ticks_ s)
    (let tc := {| at_tick_ := ticks_from_now + ticks_ s; cancel_id_ := timeout_cancel_gen_ s + 1 |} in
     let ts := default ∅ (timeouts_ s !! at_tick_ tc) in
     Some ({| s with timeout_cancel_gen_ := cancel_id_ tc;
              timeouts_ := <[at_tick_ tc := <[cancel_id_ tc := fn]> ts]> (timeouts_ s) |}, tc))
  else None.

Definition CancelTimeout s c : Timeout F :=
  match timeouts_ s !! at_tick_ c with
  | None => s
  | Some ts => {| s with timeouts_ := <[at_tick_ c := delete (cancel_id_ c) ts]> (timeouts_ s) |}
  end.

(** ** What is pending *)
Definition pending s (at_ id : Z) : option F := ts ← timeouts_ s !! at_; ts !! id.

Record timeouts_ok s : Prop := {
  to_future : forall at_ id f, pending s at_ id = Some f -> ticks_ s < at_;
  to_ids : forall at_ id f, pending s at_ id = Some f -> id <= timeout_cancel_gen_ s }.

Lemma Timeout_new_ok : timeouts_ok Timeout_new.
Proof. split; intros at_ id f; unfold pending; simpl; by rewrite lookup_empty. Qed.

Lemma pending_tick s at_ id : timeouts_ok s ->
  pending (TimerTick s).1 at_ id = if decide (at_ = ticks_ s + 1) then None else pending s at_ id.
Proof.
  intros Hok. unfold TimerTick. destruct (timeouts_ s !! (ticks_ s + 1)) as [ts|] eqn:E; simpl; unfold pending; simpl.
  - case_decide as D; [subst; by rewrite lookup_delete_eq|by rewrite lookup_delete_ne].
  - case_decide as D; [subst; by rewrite E|done].
Qed.

Lemma fired_tick s id f : (id, f) ∈ (TimerTick s).2 <-> pending s (ticks_ s + 1) id = Some f.
Proof.
  unfold TimerTick, pending. destruct (timeouts_ s !! _) as [ts|]; simpl.
  - apply elem_of_map_to_list.
  - split; [by intros ?%elem_of_nil|done].
Qed.

Lemma pending_set s n fn s' c at_ id : SetTimeout s n fn = Some (s', c) ->
  at_tick_ c = n + ticks_ s /\ 0 < n /\ cancel_id_ c = timeout_cancel_gen_ s + 1 /\
  ticks_ s' = ticks_ s /\ timeout_cancel_gen_ s' = cancel_id_ c /\
  pending s' at_ id = if decide (at_ = at_tick_ c /\ id = cancel_id_ c) then Some fn else pending s at_ id.
Proof.
  unfold SetTimeout. destruct (_ <? 2 ^ 63); [|done]. intros [Hlt H]%CHECK_Some. injection H as <- <-. simpl.
  zbool. split_and!; [done|lia|done|done|done|]. unfold pending; simpl. destruct (decide (at_ = n + ticks_ s)) as [->|Ha].
  - rewrite lookup_insert_eq. simpl. destruct (decide (id = timeout_cancel_gen_ s + 1)) as [->|Hi].
    + by rewrite lookup_insert_eq, decide_True.
    + rewrite lookup_insert_ne, decide_False by naive_solver. by destruct (timeouts_ s !! _).
  - by rewrite lookup_insert_ne, decide_False by naive_solver.
Qed.

Lemma pending_cancel s c at_ id :
  pending (CancelTimeout s c) at_ id =
  if decide (at_ = at_tick_ c /\ id = cancel_id_ c) then None else pending s at_ id.
Proof.
  unfold CancelTimeout, pending. destruct (timeouts_ s !! at_tick_ c) as [ts|] eqn:E; simpl.
  - destruct (decide (at_ = at_tick_ c)) as [->|Ha].
    + rewrite lookup_insert_eq, E. simpl. destruct (decide (id = cancel_id_ c)) as [->|Hi].
      * by rewrite lookup_delete_eq, decide_True.
      * by rewrite lookup_delete_ne, decide_False by naive_solver.
    + by rewrite lookup_insert_ne, decide_False by naive_solver.
  - case_decide as D; [destruct D as [-> ->]; by rewrite E|done].
Qed.

Lemma TimerTick_ticks s : ticks_ (TimerTick s).1 = ticks_ s + 1 /\
  timeout_cancel_gen_ (TimerTick s).1 = timeout_cancel_gen_ s.
Proof. unfold TimerTick. by destruct (timeouts_ s !! _). Qed.
Lemma CancelTimeout_ticks s c : ticks_ (CancelTimeout s c) = ticks_ s /\
  timeout_cancel_gen_ (CancelTimeout s c) = timeout_cancel_gen_ s.
Proof. unfold CancelTimeout. by destruct (timeouts_ s !! _). Qed.

(** ** Runs *)
Inductive Op := OpSet (n : Ticks) (fn : F) | OpCancel (c : Cancel) | OpTick.

(** The functions run, with the tick and the ID under which they were. *)
Fixpoint run_ops s (ops : list Op) : option (Timeout F * list (Ticks * Z * F)) :=
  match ops with
  | [] => Some (s, [])
  | OpSet n fn :: ops' => '(s, _) ← SetTimeout s n fn; run_ops s ops'
  | OpCancel c :: ops' => run_ops (CancelTimeout s c) ops'
  | OpTick :: ops' =>
      let '(s, fns) := TimerTick s in
      '(s', fired) ← run_ops s ops';
      Some (s', ((fun '(id, f) => (ticks_ s, id, f)) <$> fns) ++ fired)
  end.

Definition is_tick (o : Op) : bool := match o with OpTick => true | _ => false end.
Definition ticks_in (ops : list Op) : Z := Zlen (List.filter is_tick ops).

(** Those that were run under one ID. *)
Definition fired_as (id : Z) (fired : list (Ticks * Z * F)) : list (Ticks * Z * F) :=
  List.filter (fun p => p.1.2 =? id) fired.

Lemma timeouts_ok_tick s : timeouts_ok s -> timeouts_ok (TimerTick s).1.
Proof.
  intros Hok. destruct (TimerTick_ticks s) as [E1 E2]. split; intros at_ id f Hp;
    rewrite pending_tick in Hp by done; destruct (decide _) as [|Hne] in Hp; try done; rewrite ?E1, ?E2.
  - pose proof (to_future _ Hok _ _ _ Hp). lia.
  - by eapply to_ids.
Qed.
Lemma timeouts_ok_cancel s c : timeouts_ok s -> timeouts_ok (CancelTimeout s c).
Proof.
  intros Hok. destruct (CancelTimeout_ticks s c) as [E1 E2]. split; intros at_ id f Hp;
    rewrite pending_cancel in Hp; destruct (decide _) as [|Hne] in Hp; try done; rewrite ?E1, ?E2.
  - by eapply to_future.
  - by eapply to_ids.
Qed.
Lemma timeouts_ok_set s n fn s' c : timeouts_ok s -> SetTimeout s n fn = Some (s', c) -> timeouts_ok s'.
Proof.
  intros Hok Hs. split; intros at_ id f Hp;
    destruct (pending_set s n fn s' c at_ id Hs) as (E1 & E2 & E3 & E4 & E5 & E6); rewrite E6 in Hp;
    destruct (decide _) as [[-> ->]|Hne] in Hp; rewrite ?E4, ?E5.
  - lia.
  - by eapply to_future.
  - lia.
  - pose proof (to_ids _ Hok _ _ _ Hp). lia.
Qed.

(** At most one function runs under an ID in one tick. *)
Lemma filter_one (l : list (Z * F)) id : NoDup l.*1 ->
  match List.find (fun p => p.1 =? id) l with
  | Some p => p ∈ l /\ p.1 = id /\ List.filter (fun p => p.1 =? id) l = [p]
  | None => (forall f, (id, f) ∉ l) /\ List.filter (fun p => p.1 =? id) l = []
  end.
Proof.
  induction l as [|[k f] l IH]; simpl; intros Hn; [split; [by intros f ?%elem_of_nil|done]|].
  apply NoDup_cons in Hn as [Hk Hn]. specialize (IH Hn). destruct (Z.eqb_spec k id) as [->|Hne]; simpl.
  - split_and!; [left|done|]. f_equal. destruct (List.find _ l) as [[k' f']|]; [|apply IH].
    destruct IH as (Hin & Heq & _). simpl in Heq. subst k'. destruct Hk.
    by apply list_elem_of_fmap_2' with (id, f').
  - destruct (List.find _ l) as [p|]; [destruct IH as (? & ? & ?); split_and!; [by right|done|done]|].
    destruct IH as [IH1 IH2]. split; [|done]. intros f' [[= -> ->]|Hin]%elem_of_cons; [done|]. by eapply IH1.
Qed.

Lemma fired_tick_as s id :
  fired_as id ((fun '(i, f) => (ticks_ s + 1, i, f)) <$> (TimerTick s).2) =
  match pending s (ticks_ s + 1) id with Some f => [(ticks_ s + 1, id, f)] | None => [] end.
Proof.
  assert (forall l : list (Z * F), fired_as id ((fun '(i, f) => (ticks_ s + 1, i, f)) <$> l) =
    (fun '(i, f) => (ticks_ s + 1, i, f)) <$> List.filter (fun p => p.1 =? id) l) as ->.
  { induction l as [|[i f] l IH]; [done|]. cbn. destruct (i =? id); cbn; [f_equal|]; apply IH. }
  assert (NoDup (TimerTick s).2.*1) as Hn.
  { unfold TimerTick. destruct (timeouts_ s !! _); simpl; [apply NoDup_fst_map_to_list|constructor]. }
  pose proof (filter_one (TimerTick s).2 id Hn) as H. destruct (List.find _ _) as [[i f]|].
  - destruct H as (Hin & Heq & ->). simpl in Heq. subst i. apply fired_tick in Hin. by rewrite Hin.
  - destruct H as (Hno & ->). destruct (pending s _ id) as [f|] eqn:E; [|done].
    destruct (Hno f). by apply fired_tick.
Qed.

Lemma fired_as_app id a b : fired_as id (a ++ b) = fired_as id a ++ fired_as id b.
Proof. apply List.filter_app. Qed.

(** An ID is pending at one tick at most, is run at that tick, and not
    otherwise. *)
Lemma run_fires ops s s' fired at_ id :
  timeouts_ok s -> run_ops s ops = Some (s', fired) ->
  (forall a, a <> at_ -> pending s a id = None) -> id <= timeout_cancel_gen_ s ->
  Forall (fun o => o <> OpCancel {| at_tick_ := at_; cancel_id_ := id |}) ops ->
  fired_as id fired =
    match pending s at_ id with
    | Some f => if at_ - ticks_ s <=? ticks_in ops then [(at_, id, f)] else []
    | None => []
    end.
Proof.
  intros Hok Hrun Hone Hid Hnc. revert s fired Hok Hrun Hone Hid.
  induction Hnc as [|o ops Hno Hnc IH]; intros s fired Hok Hrun Hone Hid.
  { injection Hrun as <- <-. simpl. destruct (pending s at_ id) as [f|] eqn:E; [|done].
    pose proof (to_future _ Hok _ _ _ E). change (ticks_in []) with 0. by rewrite (proj2 (Z.leb_gt _ _)) by lia. }
  destruct o as [n fn|c|]; simpl in Hrun.
  - apply bind_Some in Hrun as ([s1 c] & Hs & Hrun).
    assert (forall a, pending s1 a id = pending s a id) as Hp.
    { intros a. destruct (pending_set s n fn s1 c a id Hs) as (_ & _ & E3 & _ & _ & ->).
      destruct (decide _) as [[_ Hi]|]; [lia|done]. }
    destruct (pending_set s n fn s1 c at_ id Hs) as (_ & _ & E3 & E4 & E5 & _).
    rewrite (IH s1 fired (timeouts_ok_set _ _ _ _ _ Hok Hs) Hrun) by (intros; rewrite ?Hp; auto; lia).
    by rewrite Hp, E4.
  - assert (forall a, pending (CancelTimeout s c) a id = pending s a id \/ pending (CancelTimeout s c) a id = None /\ a <> at_) as Hp.
    { intros a. rewrite pending_cancel. destruct (decide _) as [[Ha Hi]|]; [|by left]. right. split; [done|].
      intros ->. apply Hno. subst. by destruct c. }
    destruct (CancelTimeout_ticks s c) as [E1 E2].
    rewrite (IH (CancelTimeout s c) fired (timeouts_ok_cancel _ _ Hok) Hrun); [|intros a Ha|lia].
    + rewrite E1. destruct (Hp at_) as [->|[_ ?]]; done.
    + destruct (Hp a) as [->|[? _]]; auto.
  - destruct (TimerTick s) as [s1 fns] eqn:Et. apply bind_Some in Hrun as ([s2 fired2] & Hrun & Heq).
    injection Heq as <- <-. rewrite fired_as_app.
    pose proof (fired_tick_as s id) as Hf. pose proof (timeouts_ok_tick s Hok) as Hok1.
    destruct (TimerTick_ticks s) as [E1 E2]. pose proof (fun a => pending_tick s a id Hok) as Hp.
    rewrite Et in Hf, Hok1, E1, E2, Hp. simpl in Hf, Hok1, E1, E2, Hp. rewrite E1, Hf.
    rewrite (IH s1 fired2 Hok1 Hrun); [|intros a Ha; rewrite Hp; case_decide; auto|lia].
    rewrite Hp, E1. unfold ticks_in. simpl. rewrite Zlen_cons. case_decide as D.
    + subst at_. destruct (pending s _ id); [|done]. rewrite app_nil_r.
      pose proof (Zlen_nonneg (List.filter is_tick ops)). by rewrite (proj2 (Z.leb_le _ _)) by lia.
    + rewrite (Hone (ticks_ s + 1)) by done. simpl. destruct (pending s at_ id); [|done].
      replace (at_ - (ticks_ s + 1) <=? Zlen (List.filter is_tick ops)) with
        (at_ - ticks_ s <=? Zlen (List.filter is_tick ops) + 1); [done|].
      destruct (Z.leb_spec (at_ - ticks_ s) (Zlen (List.filter is_tick ops) + 1)),
        (Z.leb_spec (at_ - (ticks_ s + 1)) (Zlen (List.filter is_tick ops))); lia.
Qed.

(** What is not pending, and cannot become so, does not run. *)
Lemma never_pending ops s s' fired id :
  timeouts_ok s -> run_ops s ops = Some (s', fired) -> (forall a, pending s a id = None) ->
  id <= timeout_cancel_gen_ s -> fired_as id fired = [].
Proof.
  revert s fired. induction ops as [|o ops IH]; intros s fired Hok Hrun Hn Hid; simpl in Hrun.
  { by injection Hrun as <- <-. }
  destruct o as [n fn|c|].
  - apply bind_Some in Hrun as ([s1 c] & Hs & Hrun). pose proof (fun a => pending_set s n fn s1 c a id Hs) as Hp.
    destruct (Hp 0) as (_ & _ & E3 & _ & E5 & _).
    apply (IH s1 fired (timeouts_ok_set _ _ _ _ _ Hok Hs) Hrun); [|lia].
    intros a. destruct (Hp a) as (_ & _ & _ & _ & _ & ->). destruct (decide _) as [[_ ?]|]; [lia|done].
  - apply (IH _ fired (timeouts_ok_cancel _ c Hok) Hrun); [|by destruct (CancelTimeout_ticks s c) as [_ ->]].
    intros a. rewrite pending_cancel. by case_decide.
  - pose proof (fired_tick_as s id) as Hf. destruct (TimerTick s) as [s1 fns] eqn:Et.
    apply bind_Some in Hrun as ([s2 fired2] & Hrun & Heq). injection Heq as <- <-.
    pose proof (timeouts_ok_tick s Hok) as Hok1. destruct (TimerTick_ticks s) as [E1 E2].
    pose proof (fun a => pending_tick s a id Hok) as Hp. rewrite Et in Hok1, E1, E2, Hp. simpl in *.
    rewrite fired_as_app, E1, Hf, Hn. simpl. apply (IH s1 fired2 Hok1 Hrun); [|lia].
    intros a. rewrite Hp. by case_decide.
Qed.

Lemma run_ops_app s ops1 ops2 :
  run_ops s (ops1 ++ ops2) = '(s1, f1) ← run_ops s ops1; '(s2, f2) ← run_ops s1 ops2; Some (s2, f1 ++ f2).
Proof.
  revert s. induction ops1 as [|o ops1 IH]; intros s; simpl; [by destruct (run_ops s ops2) as [[? ?]|]|].
  destruct o as [n fn|c|]; simpl.
  - destruct (SetTimeout s n fn) as [[s1 c]|]; simpl; [apply IH|done].
  - apply IH.
  - destruct (TimerTick s) as [s1 fns]. rewrite IH. destruct (run_ops s1 ops1) as [[s2 f2]|]; simpl; [|done].
    destruct (run_ops s2 ops2) as [[s3 f3]|]; simpl; [by rewrite app_assoc|done].
Qed.

Lemma run_ops_ok ops s s' fired : timeouts_ok s -> run_ops s ops = Some (s', fired) ->
  timeouts_ok s' /\ timeout_cancel_gen_ s <= timeout_cancel_gen_ s' /\ ticks_ s' = ticks_ s + ticks_in ops /\
  forall at_ id, id <= timeout_cancel_gen_ s -> pending s at_ id = None -> pending s' at_ id = None.
Proof.
  revert s fired. induction ops as [|o ops IH]; intros s fired Hok Hrun; simpl in Hrun.
  { injection Hrun as <- <-. change (ticks_in []) with 0. split_and!; [done|lia|lia|done]. }
  destruct o as [n fn|c|].
  - apply bind_Some in Hrun as ([s1 c] & Hs & Hrun). pose proof (fun a i => pending_set s n fn s1 c a i Hs) as Hp.
    destruct (Hp 0 0) as (_ & _ & E3 & E4 & E5 & _).
    destruct (IH s1 fired (timeouts_ok_set _ _ _ _ _ Hok Hs) Hrun) as (H1 & H2 & H3 & H4).
    split_and!; [done|lia|rewrite H3, E4; done|]. intros a i Hi Hn. apply H4; [lia|].
    destruct (Hp a i) as (_ & _ & _ & _ & _ & ->). destruct (decide _) as [[_ ?]|]; [lia|done].
  - destruct (CancelTimeout_ticks s c) as [E1 E2].
    destruct (IH (CancelTimeout s c) fired (timeouts_ok_cancel _ _ Hok) Hrun) as (H1 & H2 & H3 & H4).
    split_and!; [done|lia|rewrite H3, E1; done|]. intros a i Hi Hn. apply H4; [lia|]. rewrite pending_cancel. by case_decide.
  - destruct (TimerTick s) as [s1 fns] eqn:Et. apply bind_Some in Hrun as ([s2 fired2] & Hrun & Heq).
    injection Heq as <- <-. pose proof (timeouts_ok_tick s Hok) as Hok1. destruct (TimerTick_ticks s) as [E1 E2].
    pose proof (fun a i => pending_tick s a i Hok) as Hp. rewrite Et in Hok1, E1, E2, Hp. simpl in *.
    destruct (IH s1 fired2 Hok1 Hrun) as (H1 & H2 & H3 & H4).
    split_and!; [done|lia| |].
    + rewrite H3, E1. unfold ticks_in. simpl. rewrite Zlen_cons. lia.
    + intros a i Hi Hn. apply H4; [lia|]. rewrite Hp. by case_decide.
Qed.
End timeout.
Arguments Op : clear implicits.

(** ** Properties *)

(** A function passed to [SetTimeout] runs exactly once, at the [n]-th tick
    from then, whatever other timeouts are set, cancelled or run in between,
    provided its own is not cancelled; until that tick it does not run. *)
Theorem timeout_fires_once {F} (s : Timeout F) n fn s1 c ops s2 fired :
  timeouts_ok s -> SetTimeout s n fn = Some (s1, c) -> run_ops s1 ops = Some (s2, fired) ->
  Forall (fun o => o <> OpCancel c) ops ->
  fired_as (cancel_id_ c) fired = if n <=? ticks_in ops then [(ticks_ s + n, cancel_id_ c, fn)] else [].
Proof.
  intros Hok Hs Hrun Hnc. pose proof (fun a i => pending_set s n fn s1 c a i Hs) as Hp.
  destruct (Hp (at_tick_ c) (cancel_id_ c)) as (E1 & _ & E3 & E4 & E5 & E6). rewrite decide_True in E6 by done.
  rewrite (run_fires ops s1 s2 fired (at_tick_ c) (cancel_id_ c) (timeouts_ok_set _ _ _ _ _ Hok Hs) Hrun).
  - rewrite E6, E4, E1. replace (n + ticks_ s - ticks_ s) with n by lia. by rewrite Z.add_comm.
  - intros a Ha. destruct (Hp a (cancel_id_ c)) as (_ & _ & _ & _ & _ & ->). rewrite decide_False by naive_solver.
    destruct (pending s a (cancel_id_ c)) as [f|] eqn:E; [|done]. pose proof (to_ids _ Hok _ _ _ E). lia.
  - lia.
  - by destruct c.
Qed.

Definition example_ops : list (Op nat) := [OpTick; OpSet 2 8%nat; OpTick; OpTick; OpTick].

Lemma timeout_fires_once_witness :
  exists s1 c s2 fired, SetTimeout Timeout_new 3 7%nat = Some (s1, c) /\ run_ops s1 example_ops = Some (s2, fired) /\
    fired_as (cancel_id_ c) fired = [(3, 1, 7%nat)].
Proof.
  eexists _, _, _, _. split; [vm_compute; reflexivity|]. split; [vm_compute; reflexivity|].
  refine (timeout_fires_once Timeout_new 3 7%nat _ _ example_ops _ _ Timeout_new_ok _ _ _);
    [vm_compute; reflexivity|vm_compute; reflexivity|]. repeat (constructor; [discriminate|]). constructor.
Defined.

(** After [CancelTimeout] a function that has not run yet never runs, and
    cancelling one that has run changes nothing. *)
Theorem cancelled_timeout_never_fires {F} (s : Timeout F) n fn s1 c ops1 ops2 s2 fired :
  timeouts_ok s -> SetTimeout s n fn = Some (s1, c) -> run_ops s1 (ops1 ++ OpCancel c :: ops2) = Some (s2, fired) ->
  Forall (fun o => o <> OpCancel c) ops1 ->
  fired_as (cancel_id_ c) fired = if n <=? ticks_in ops1 then [(ticks_ s + n, cancel_id_ c, fn)] else [].
Proof.
  intros Hok Hs Hrun Hnc. rewrite run_ops_app in Hrun. apply bind_Some in Hrun as ([s3 f1] & Hr1 & Hrun).
  apply bind_Some in Hrun as ([s4 f2] & Hr2 & Heq). injection Heq as <- <-. simpl in Hr2.
  pose proof (timeouts_ok_set _ _ _ _ _ Hok Hs) as Hok1. pose proof (fun a i => pending_set s n fn s1 c a i Hs) as Hp.
  destruct (Hp (at_tick_ c) (cancel_id_ c)) as (E1 & _ & E3 & E4 & E5 & E6). rewrite decide_True in E6 by done.
  destruct (run_ops_ok ops1 s1 s3 f1 Hok1 Hr1) as (Hok3 & Hg & _ & Hgone).
  assert (forall a, a <> at_tick_ c -> pending s1 a (cancel_id_ c) = None) as Hone.
  { intros a Ha. destruct (Hp a (cancel_id_ c)) as (_ & _ & _ & _ & _ & ->). rewrite decide_False by naive_solver.
    destruct (pending s a (cancel_id_ c)) as [f|] eqn:E; [|done]. pose proof (to_ids _ Hok _ _ _ E). lia. }
  assert (forall a, pending (CancelTimeout s3 c) a (cancel_id_ c) = None) as Hnone.
  { intros a. rewrite pending_cancel. case_decide as D; [done|]. apply Hgone; [lia|]. apply Hone. naive_solver. }
  rewrite fired_as_app, (run_fires ops1 s1 s3 f1 (at_tick_ c) (cancel_id_ c) Hok1 Hr1 Hone) by (lia || by destruct c).
  assert (fired_as (cancel_id_ c) f2 = []) as ->.
  { destruct (run_ops_ok ops2 _ _ _ (timeouts_ok_cancel s3 c Hok3) Hr2) as (_ & _ & _ & _).
    clear - Hnone Hr2 Hok3 Hg E5. destruct (CancelTimeout_ticks s3 c) as [_ Eg].
    assert (cancel_id_ c <= timeout_cancel_gen_ (CancelTimeout s3 c)) as Hle by lia.
    pose proof (timeouts_ok_cancel s3 c Hok3) as Hok. revert Hr2 Hnone Hle Hok. generalize (CancelTimeout s3 c) as t.
    intros t Hr Hn Hle Hok. by eapply never_pending. }
  rewrite app_nil_r, E6, E4, E1. replace (n + ticks_ s - ticks_ s) with n by lia. by rewrite Z.add_comm.
Qed.

Lemma cancelled_timeout_never_fires_witness :
  exists s1 c s2 fired, SetTimeout Timeout_new 3 7%nat = Some (s1, c) /\
    run_ops s1 ([OpTick; OpTick] ++ OpCancel c :: [OpTick; OpTick]) = Some (s2, fired) /\
    fired_as (cancel_id_ c) fired = [].
Proof.
  eexists _, _, _, _. split; [vm_compute; reflexivity|]. split; [vm_compute; reflexivity|].
  refine (cancelled_timeout_never_fires Timeout_new 3 7%nat _ _ [OpTick; OpTick] [OpTick; OpTick] _ _ Timeout_new_ok _ _ _);
    [vm_compute; reflexivity|vm_compute; reflexivity|]. repeat (constructor; [discriminate|]). constructor.
Defined.
