(* ===== verification/Database.v ===== *)
(** * The database interface (db/db.h, db/db.cc)

    [Database]: the operations of [class DB] and of its [Protocol], as the
    core calls them.  [DatabaseSpec]: what both databases promise.  A database
    is a finite map from keys to values; a log changes the value of its own
    key only; the rows taken out of one database and loaded into another are
    a copy; and the leaves of the shared Merkle tree that belong to others
    are left alone. *)
From stdpp Require Import prelude gmap sorting.
From S2P Require Import Prelude Errors Containers Util Merkle ClientTypes Db.

(** [enclaveconfig.DatabaseVersion], and [DB::P]: the protocol of a version. *)
Inductive DatabaseVersion := DATABASE_VERSION_UNKNOWN | DATABASE_VERSION_SVR2 | DATABASE_VERSION_SVR3.
#[export] Instance DatabaseVersion_eq_dec : EqDecision DatabaseVersion.
Proof. solve_decision. Defined.
Inductive Protocol := db2_protocol | db3_protocol.
#[export] Instance Protocol_eq_dec : EqDecision Protocol.
Proof. solve_decision. Defined.
Definition P (version : DatabaseVersion) : option Protocol :=
  match version with
  | DATABASE_VERSION_SVR2 => Some db2_protocol
  | DATABASE_VERSION_SVR3 => Some db3_protocol
  | DATABASE_VERSION_UNKNOWN => None
  end.

Class Database (T D : Type) := {
  db_protocol : Protocol;
  db_RequestPB : MessageLite;
  db_LogPB : MessageLite;
  db_LogPBFromRequest : nat -> MessageLite -> bytes -> option MessageLite * Error * nat;
  db_LogKey : MessageLite -> option bytes;
  db_ValidateClientLog : MessageLite -> Error;
  db_MaxRowSerializedSize : Z;
  db_NewDB : D;
  db_Run : T -> D -> MessageLite -> option (T * D * MessageLite);
  db_RowsAsProtos : D -> bytes -> Z -> list bytes * (bytes * Error);
  db_LoadRowsFromProtos : T -> D -> list bytes -> option (T * D * (bytes * Error));
  db_Hash : D -> option bytes;
  db_row_count : D -> Z;
  db_destroy : T -> D -> option T }.

(** [k] is not above [last]. *)
Definition upto (last k : bytes) : Prop := key_lt last k = false.

Class DatabaseSpec (T L D V : Type) `{!EqDecision L, !Countable L}
    {MO : MerkleOps T L} {MS : MerkleSpec T L} {DB : Database T D} := {
  db_view : D -> gmap bytes V;
  db_ok : T -> D -> Prop;
  db_owns : D -> L -> Prop;
  (** The effect of a log on the value of its key, and its response. *)
  db_step : MessageLite -> option V -> option V * MessageLite;
  (** Rows, in the order of their keys, and what they stand for. *)
  encodes : list bytes -> gmap bytes V -> Prop;
  db_ok_tree : forall t d, db_ok t d -> tree_ok ∅ t;
  db_ok_frame : forall t d t', db_ok t d -> tree_ok ∅ t' ->
    (forall l, db_owns d l -> tree_view t' !! l = tree_view t !! l) -> db_ok t' d;
  db_owns_live : forall t d l, db_ok t d -> db_owns d l -> is_Some (tree_view t !! l);
  db_key_size : forall t d k, db_ok t d -> is_Some (db_view d !! k) -> length k = BACKUP_ID_SIZE;
  db_validate_key : forall m, db_ValidateClientLog m = OK ->
    exists k, db_LogKey m = Some k /\ length k = BACKUP_ID_SIZE;
  db_LogPB_invalid : db_ValidateClientLog db_LogPB <> OK;
  db_row_size : 0 < db_MaxRowSerializedSize;
  db_NewDB_spec : forall t, tree_ok ∅ t ->
    db_ok t db_NewDB /\ db_view db_NewDB = ∅ /\ forall l, ~ db_owns db_NewDB l;
  db_Run_spec : forall t d m k, db_ok t d -> db_ValidateClientLog m = OK -> db_LogKey m = Some k ->
    exists t' d', db_Run t d m = Some (t', d', (db_step m (db_view d !! k)).2) /\ db_ok t' d' /\
      db_view d' = partial_alter (fun v => (db_step m v).1) k (db_view d) /\
      forall l h, tree_view t !! l = Some h -> ~ db_owns d l ->
        tree_view t' !! l = Some h /\ ~ db_owns d' l;
  db_Rows_spec : forall t d start size, db_ok t d -> start = [] \/ length start = BACKUP_ID_SIZE ->
    exists out m last, db_RowsAsProtos d start size = (out, (last, OK)) /\ encodes out m /\
      (forall k v, m !! k = Some v <-> db_view d !! k = Some v /\ key_lt start k = true /\ upto last k) /\
      (Zlen out < size -> forall k, is_Some (db_view d !! k) -> key_lt start k = true -> upto last k) /\
      (out <> [] -> is_Some (m !! last)) /\ (out = [] -> last = []);
  db_Load_spec : forall t d out m, db_ok t d -> encodes out m -> out <> [] ->
    (forall k k', is_Some (db_view d !! k) -> is_Some (m !! k') -> key_lt k k' = true) ->
    exists t' d' last, db_LoadRowsFromProtos t d out = Some (t', d', (last, OK)) /\ db_ok t' d' /\
      db_view d' = m ∪ db_view d /\ is_Some (m !! last) /\ (forall k, is_Some (m !! k) -> upto last k) /\
      forall l h, tree_view t !! l = Some h -> ~ db_owns d l ->
        tree_view t' !! l = Some h /\ ~ db_owns d' l;
  db_Hash_spec : forall t d t' d', db_ok t d -> db_ok t' d' -> db_view d = db_view d' ->
    is_Some (db_Hash d) /\ db_Hash d' = db_Hash d;
  (** The tree may hold leaves that were made for a successor and not set yet. *)
  db_destroy_spec : forall P t0 t d, db_ok t0 d -> tree_ok P t ->
    (forall l, db_owns d l -> tree_view t !! l = tree_view t0 !! l /\ l ∉ P) ->
    exists t', db_destroy t d = Some t' /\ tree_ok P t' /\
      forall l, ~ db_owns d l -> tree_view t' !! l = tree_view t !! l }.

(** ** What the instances share *)
Section alter.
Context {V : Type}.
Implicit Types (f : option V -> option V) (m : gmap bytes V).

Lemma partial_alter_lookup f k m k' :
  partial_alter f k m !! k' = if decide (k' = k) then f (m !! k) else m !! k'.
Proof. destruct (decide (k' = k)) as [->|]; [apply lookup_partial_alter_eq|by apply lookup_partial_alter_ne]. Qed.

Lemma partial_alter_as f k m v :
  f (m !! k) = v -> partial_alter f k m = match v with Some x => <[k := x]> m | None => delete k m end.
Proof.
  intros Hv. apply map_eq. intros k'. rewrite partial_alter_lookup.
  destruct (decide (k' = k)) as [->|]; destruct v; by rewrite ?lookup_insert_eq, ?lookup_insert_ne, ?lookup_delete_eq, ?lookup_delete_ne.
Qed.

Lemma partial_alter_keep f k m : f (m !! k) = m !! k -> partial_alter f k m = m.
Proof. intros Hv. apply map_eq. intros k'. rewrite partial_alter_lookup. by destruct (decide (k' = k)) as [->|]. Qed.

(** A map with at most one key. *)
Definition at_key (k : bytes) (v : option V) : gmap bytes V := partial_alter (fun _ => v) k ∅.
Lemma at_key_eq k v : at_key k v !! k = v.
Proof. apply lookup_partial_alter_eq. Qed.
End alter.

Section rows.
Context {T L : Type} `{!EqDecision L, !Countable L} {MO : MerkleOps T L} {MS : MerkleSpec T L}.
Context {V R : Type} (leaf : V -> L) (hash : BackupID -> V -> option Hash) (ok : BackupID -> V -> Prop).
Context (view_row : V -> R) (ser : BackupID * V -> bytes -> Prop).
Notation Rows := (list (BackupID * V)).
Notation rows_inv := (rows_inv leaf hash ok).
Notation owns := (owns leaf).
Notation view := (rows_view view_row).
Implicit Types (t : T) (rows src : Rows).

(** The destructor of the rows: every leaf leaves the tree. *)
Fixpoint destroy_rows t rows : option T :=
  match rows with
  | [] => Some t
  | (_, row) :: rows' => t ← leaf_drop t (leaf row); destroy_rows t rows'
  end.

Definition encodes_rows (out : list bytes) (m : gmap bytes R) : Prop :=
  exists src, Forall (fun p => ok p.1 p.2) src /\ Forall2 ser src out /\ map_ok src /\ m = view src.

Lemma rows_inv_frame t rows t' :
  rows_inv t rows -> tree_ok ∅ t' -> (forall l, owns rows l -> tree_view t' !! l = tree_view t !! l) ->
  rows_inv t' rows.
Proof.
  intros [H1 H2 H3 H4 H5] Ht Hl. split; [done|done|done| |done].
  intros id v Hv. destruct (H4 id v Hv) as (h & Hh & Hlk). exists h. split; [done|].
  rewrite Hl; [done|]. by exists id, v.
Qed.

Lemma rows_owns_live t rows l : rows_inv t rows -> owns rows l -> is_Some (tree_view t !! l).
Proof. intros Hi (id & v & Hv & <-). destruct (ri_hash _ _ _ _ _ Hi id v Hv) as (h & _ & ->). eauto. Qed.

Lemma rows_new t : tree_ok ∅ t -> rows_inv t [] /\ view [] = ∅ /\ forall l, ~ owns [] l.
Proof.
  intros Ht. split; [split; [done|constructor|done..]|]. split; [done|]. by intros l (id & v & [=] & _).
Qed.

(** The keys of a suffix of an ordered map are above those before. *)
Lemma map_ok_app rows1 rows2 k k' :
  map_ok (rows1 ++ rows2) -> k ∈ rows1.*1 -> k' ∈ rows2.*1 -> key_lt k k' = true.
Proof.
  intros Hord Hk Hk'. unfold map_ok, set_ok in Hord. rewrite fmap_app in Hord.
  exact (StronglySorted_app_1_elem_of key_ltP _ _ k k' Hord Hk Hk').
Qed.
Lemma map_ok_l rows1 rows2 : map_ok (rows1 ++ rows2) -> map_ok rows1.
Proof. unfold map_ok, set_ok. rewrite fmap_app. apply StronglySorted_app_1_l. Qed.
Lemma map_ok_r rows1 rows2 : map_ok (rows1 ++ rows2) -> map_ok rows2.
Proof. unfold map_ok, set_ok. rewrite fmap_app. apply StronglySorted_app_1_r. Qed.

Lemma view_elem rows k : map_ok rows -> is_Some (view rows !! k) <-> k ∈ rows.*1.
Proof.
  intros Hok. rewrite rows_view_lookup, fmap_is_Some. split.
  - intros [v Hv]. apply map_find_elem in Hv. by apply (list_elem_of_fmap_2 fst) in Hv.
  - intros Hin. destruct (map_find rows k) eqn:E; [eauto|]. by apply map_find_None in E.
Qed.

(** *** Rows taken out *)
Lemma rows_last_cases rows : rows = [] \/ exists rows' k v, rows = rows' ++ [(k, v)].
Proof. destruct rows as [|[k v] rows' _] using rev_ind; eauto. Qed.

Lemma last_key_app rows k v : last_key (rows ++ [(k, v)]) = Some k.
Proof. unfold last_key. by rewrite last_snoc. Qed.

Lemma last_key_upto rows k : map_ok rows -> k ∈ rows.*1 -> upto (default [] (last_key rows)) k.
Proof.
  intros Hok Hk. destruct (rows_last_cases rows) as [->|(rows' & k' & v & ->)]; [by apply elem_of_nil in Hk|].
  rewrite last_key_app. simpl. unfold upto. rewrite fmap_app in Hk.
  apply elem_of_app in Hk as [Hk|Hk%list_elem_of_singleton]; [|subst; apply key_irrefl].
  apply key_asym. eapply map_ok_app; [exact Hok|exact Hk|by left].
Qed.

Lemma last_key_in rows : rows <> [] -> default [] (last_key rows) ∈ rows.*1.
Proof.
  intros Hne. destruct (rows_last_cases rows) as [->|(rows' & k' & v & ->)]; [done|].
  rewrite last_key_app, fmap_app. apply elem_of_app. right. by left.
Qed.

Context (ok_key : forall id v, ok id v -> length id = BACKUP_ID_SIZE).

Lemma nil_below id v : ok id v -> key_lt [] id = true.
Proof. intros Hlen%ok_key. by destruct id. Qed.

Lemma from_upper_nil rows : Forall (fun p => ok p.1 p.2) rows -> map_from_upper [] rows = rows.
Proof.
  intros Hall. unfold map_from_upper. induction Hall as [|[id v] rows Hok Hall IH]; [done|].
  simpl. rewrite (nil_below id v Hok). by f_equal.
Qed.

Lemma elem_from_upper start rows p : p ∈ map_from_upper start rows <-> p ∈ rows /\ key_lt start p.1 = true.
Proof. unfold map_from_upper. by rewrite !list_elem_of_In, filter_In. Qed.

Lemma from_upper_ok start rows : map_ok rows -> map_ok (map_from_upper start rows).
Proof.
  unfold map_ok, set_ok, map_from_upper. induction rows as [|[id v] rows IH]; [done|].
  simpl. intros [Hs Hall]%StronglySorted_inv. destruct (key_lt start id); [|by apply IH].
  simpl. constructor; [by apply IH|]. apply Forall_forall. intros k Hk.
  apply list_elem_of_fmap in Hk as (p & -> & Hp). apply list_elem_of_In, filter_In in Hp as [Hp _].
  rewrite Forall_forall in Hall. apply Hall. apply list_elem_of_fmap_2. by apply list_elem_of_In.
Qed.

(** The first [n] rows above [start] are those between [start] and the last. *)
Lemma taken_view t rows start n (src := take n (map_from_upper start rows)) last :
  rows_inv t rows -> last = default [] (last_key src) ->
  (forall k x, view src !! k = Some x <-> view rows !! k = Some x /\ key_lt start k = true /\ upto last k) /\
  ((length src < n)%nat -> forall k, is_Some (view rows !! k) -> key_lt start k = true -> upto last k) /\
  (src <> [] -> is_Some (view src !! last)) /\ map_ok src /\ Forall (fun p => ok p.1 p.2) src.
Proof.
  intros Hi ->. pose proof (ri_map _ _ _ _ _ Hi) as Hok. pose proof (from_upper_ok start _ Hok) as Hup.
  assert (Hcut : map_from_upper start rows = src ++ drop n (map_from_upper start rows)) by (unfold src; by rewrite take_drop).
  assert (Hsrc : map_ok src) by (rewrite Hcut in Hup; by eapply map_ok_l).
  assert (Hfind : forall k v, (k, v) ∈ map_from_upper start rows -> ok k v /\ map_find rows k = Some v /\ key_lt start k = true).
  { intros k v [Hin Hlt]%elem_from_upper. apply elem_map_find in Hin; [|done].
    split_and!; [by eapply (ri_ok _ _ _ _ _ Hi)|done|done]. }
  assert (Hsub : forall k v, (k, v) ∈ src -> (k, v) ∈ map_from_upper start rows)
    by (intros k v Hin; rewrite Hcut; apply elem_of_app; by left).
  split_and!.
  - intros k x. rewrite !rows_view_lookup. split.
    + intros (v & Hv & ->)%fmap_Some. apply map_find_elem in Hv.
      destruct (Hfind _ _ (Hsub _ _ Hv)) as (_ & -> & Hlt). split_and!; [done|done|].
      apply last_key_upto; [done|]. by apply (list_elem_of_fmap_2 fst) in Hv.
    + intros [(v & Hv & ->)%fmap_Some [Hlt Hle]]. apply map_find_elem in Hv as Hin.
      assert ((k, v) ∈ map_from_upper start rows) as Hm by (by apply elem_from_upper).
      pose proof Hm as Hm'. rewrite Hcut in Hm'. apply elem_of_app in Hm' as [Hs|Hr].
      { by rewrite (elem_map_find _ _ _ Hsrc Hs). }
      exfalso. unfold upto in Hle. destruct (decide (src = [])) as [E|Hne].
      * rewrite E in Hle. simpl in Hle. by rewrite (nil_below k v (proj1 (Hfind _ _ Hm))) in Hle.
      * rewrite (map_ok_app src (drop n (map_from_upper start rows)) _ k) in Hle; [done| |by apply last_key_in|].
        { by rewrite <- Hcut. } { by apply (list_elem_of_fmap_2 fst) in Hr. }
  - intros Hlen k Hk Hlt. apply last_key_upto; [done|]. apply (view_elem rows k Hok) in Hk.
    apply list_elem_of_fmap in Hk as ([k' v] & -> & Hin).
    apply list_elem_of_fmap_2. unfold src. rewrite take_ge; [by apply elem_from_upper|].
    unfold src in Hlen. rewrite length_take in Hlen. lia.
  - intros Hne. apply view_elem; [done|]. by apply last_key_in.
  - done.
  - apply Forall_forall. intros [k v] Hin. by apply (Hfind k v), Hsub.
Qed.

(** *** Rows loaded *)
Lemma map_ok_app_intro rows1 rows2 :
  map_ok rows1 -> map_ok rows2 -> (forall k k', k ∈ rows1.*1 -> k' ∈ rows2.*1 -> key_lt k k' = true) ->
  map_ok (rows1 ++ rows2).
Proof.
  unfold map_ok, set_ok. rewrite fmap_app. intros H1 H2 Hlt. induction H1 as [|k ks Hs IH Hall]; [done|].
  simpl. constructor.
  - apply IH. intros k1 k2 Hk1 Hk2. apply Hlt; [by right|done].
  - apply Forall_app. split; [done|]. apply Forall_forall. intros k' Hk'. apply Hlt; [by left|done].
Qed.

(** The same rows, but for their leaves. *)
Definition copied_row (p q : BackupID * V) : Prop := q.1 = p.1 /\ view_row q.2 = view_row p.2 /\ ok q.1 q.2.

Lemma copied_view src new : Forall2 copied_row src new -> view new = view src.
Proof.
  unfold rows_view. induction 1 as [|[k v] [k' v'] src new (E1 & E2 & _) _ IH]; [done|].
  simpl in *. rewrite E1, E2. f_equal. exact IH.
Qed.

Lemma view_app rows1 rows2 : view (rows1 ++ rows2) = view rows1 ∪ view rows2.
Proof. unfold rows_view. by rewrite fmap_app, list_to_map_app. Qed.

Lemma loaded_view rows src new :
  map_ok rows -> map_ok src -> (forall k k', k ∈ rows.*1 -> k' ∈ src.*1 -> key_lt k k' = true) ->
  Forall2 copied_row src new -> view (rows ++ new) = view src ∪ view rows.
Proof.
  intros H1 H2 Hlt Hc. rewrite view_app, (copied_view src new Hc). apply map_union_comm.
  apply map_disjoint_spec. intros k x y Hx Hy.
  assert (k ∈ rows.*1) as Hk by (apply (view_elem rows k H1); eauto).
  assert (k ∈ src.*1) as Hk' by (apply (view_elem src k H2); eauto).
  specialize (Hlt k k Hk Hk'). by rewrite key_irrefl in Hlt.
Qed.

(** *** Equal views *)
Lemma same_view_copied rows rows' :
  map_ok rows -> map_ok rows' -> Forall (fun p => ok p.1 p.2) rows' -> view rows = view rows' ->
  Forall2 copied_row rows rows'.
Proof.
  intros H1 H2 Hall Heq.
  assert (rows.*1 = rows'.*1) as Hk.
  { eapply (StronglySorted_unique_strong key_ltP); [|exact H1|exact H2|].
    - intros k1 k2 _ _ Ha Hb. unfold key_ltP in *. apply key_asym in Ha. congruence.
    - apply NoDup_Permutation; [by apply set_ok_NoDup..|]. intros k.
      by rewrite <- (view_elem rows k H1), <- (view_elem rows' k H2), Heq. }
  apply Forall2_same_length_lookup. split; [by rewrite <- (length_fmap fst rows), Hk, length_fmap|].
  intros i [k v] [k' v'] Hv Hv'.
  assert (k' = k) as ->.
  { apply (f_equal (lookup i)) in Hk. rewrite !list_lookup_fmap, Hv, Hv' in Hk. by injection Hk. }
  pose proof (f_equal (lookup k) Heq) as E. rewrite !rows_view_lookup in E.
  rewrite (elem_map_find rows k v), (elem_map_find rows' k v') in E by (done || by eapply list_elem_of_lookup_2).
  split_and!; [done|by injection E|]. eapply Forall_lookup_1 in Hall; [|exact Hv']. done.
Qed.

(** *** Rows destroyed *)
Lemma owns_leaves rows l : map_ok rows -> l ∈ leaf <$> rows.*2 -> owns rows l.
Proof.
  intros Hok Hin. apply list_elem_of_fmap in Hin as (v & -> & Hin).
  apply list_elem_of_fmap in Hin as ([k v'] & -> & Hin). exists k, v'. split; [by apply elem_map_find|done].
Qed.

Lemma leaves_NoDup t rows : rows_inv t rows -> NoDup (leaf <$> rows.*2).
Proof.
  intros Hi. pose proof (ri_map _ _ _ _ _ Hi) as Hok.
  apply NoDup_alt. intros i j l Hli Hlj. rewrite !list_lookup_fmap in Hli, Hlj.
  destruct (rows !! i) as [[k v]|] eqn:Ei; [|done]. destruct (rows !! j) as [[k' v']|] eqn:Ej; [|done].
  simpl in *. assert (k = k') as <-.
  { apply (ri_leaf _ _ _ _ _ Hi k v k' v'); [..|congruence];
      (apply elem_map_find; [done|by eapply list_elem_of_lookup_2]). }
  eapply (NoDup_lookup rows.*1); [by apply set_ok_NoDup|by rewrite list_lookup_fmap, Ei|by rewrite list_lookup_fmap, Ej].
Qed.

Lemma destroy_leaves_spec P t rows :
  tree_ok P t -> NoDup (leaf <$> rows.*2) ->
  Forall (fun l => is_Some (tree_view t !! l) /\ l ∉ P) (leaf <$> rows.*2) ->
  exists t', destroy_rows t rows = Some t' /\ tree_ok P t' /\
    forall l, l ∉ leaf <$> rows.*2 -> tree_view t' !! l = tree_view t !! l.
Proof.
  revert t. induction rows as [|[k v] rows IH]; intros t Ht Hd Hl; simpl; [by exists t|].
  simpl in *. apply NoDup_cons in Hd as [Hnin Hd]. apply Forall_cons in Hl as [[[h Hh] HP] Hl].
  destruct (leaf_drop_spec P t (leaf v) h Ht Hh HP) as (t1 & -> & Ht1 & Hv1). simpl.
  destruct (IH t1 Ht1 Hd) as (t' & E & Ht' & Hv').
  { apply Forall_forall. intros l Hin. rewrite Hv1, lookup_delete_ne; [|by intros <-].
    rewrite Forall_forall in Hl. by apply Hl. }
  exists t'. split_and!; [done|done|]. intros l Hn. apply not_elem_of_cons in Hn as [Hn1 Hn2].
  by rewrite (Hv' l Hn2), Hv1, lookup_delete_ne.
Qed.

Lemma destroy_rows_spec P t0 t rows :
  rows_inv t0 rows -> tree_ok P t ->
  (forall l, owns rows l -> tree_view t !! l = tree_view t0 !! l /\ l ∉ P) ->
  exists t', destroy_rows t rows = Some t' /\ tree_ok P t' /\
    forall l, ~ owns rows l -> tree_view t' !! l = tree_view t !! l.
Proof.
  intros Hi Ht Ho. pose proof (ri_map _ _ _ _ _ Hi) as Hok.
  destruct (destroy_leaves_spec P t rows Ht (leaves_NoDup t0 rows Hi)) as (t' & E & Ht' & Hv).
  { apply Forall_forall. intros l Hin%owns_leaves; [|done]. destruct (Ho l Hin) as [-> HP].
    split; [by eapply rows_owns_live|done]. }
  exists t'. split_and!; [done|done|]. intros l Hn. apply Hv. intros Hin. by apply Hn, owns_leaves.
Qed.
End rows.
