(* ===== verification/Db3Database.v ===== *)
(** * The SVR3 database is a [Database] *)
From stdpp Require Import prelude gmap sorting.
From S2P Require Import Prelude Errors Containers Util Merkle ClientTypes Db Db3 Db3Spec Database.

#[export] Instance db3 {T L : Type} {MO : MerkleOps T L} {DP : DbPlatform} : Database T (list (BackupID * Row L)) := {|
  db_protocol := db3_protocol;
  db_RequestPB := RequestPB;
  db_LogPB := LogPB;
  db_LogPBFromRequest := LogPBFromRequest;
  db_LogKey := LogKey;
  db_ValidateClientLog := ValidateClientLog;
  db_MaxRowSerializedSize := MaxRowSerializedSize;
  db_NewDB := [];
  db_Run := Run;
  db_RowsAsProtos := RowsAsProtos;
  db_LoadRowsFromProtos := LoadRowsFromProtos;
  db_Hash := DB_Hash;
  db_row_count := row_count;
  db_destroy := destroy_rows merkle_leaf_ |}.

(** ** A log acts on its own key *)
Section local.
Context {DP : DbPlatform}.

Definition step3 (m : MessageLite) (v : option Oprf) : option Oprf * MessageLite :=
  match m with
  | MLog3 log =>
      let '(s, r) := spec_run (at_key (log3_backup_id log) v) log in (s !! log3_backup_id log, MResponse3 r)
  | _ => (v, m)
  end.

Lemma spec_run3_local (m : Oprfs) log :
  spec_run m log =
  (partial_alter (fun v => (spec_run (at_key (log3_backup_id log) v) log).1 !! log3_backup_id log) (log3_backup_id log) m,
   (spec_run (at_key (log3_backup_id log) (m !! log3_backup_id log)) log).2).
Proof.
  rewrite (partial_alter_as _ _ _ _ eq_refl). unfold spec_run. set (id := log3_backup_id log).
  destruct (log3_req log) as [|r|r| |]; unfold spec_create, spec_evaluate, spec_query; rewrite ?at_key_eq;
    destruct (m !! id) as [s|] eqn:E; simpl;
    repeat (first [rewrite at_key_eq | rewrite lookup_insert_eq | rewrite lookup_delete_eq | case_match]; simpl);
    rewrite ?insert_id, ?delete_id by done; done.
Qed.
End local.

Section spec.
Context {T L : Type} `{!EqDecision L, !Countable L} {MO : MerkleOps T L} {MS : MerkleSpec T L}.
Context {DP : DbPlatform} {DPL : DbPlatformLaws}.
Notation Rows := (list (BackupID * Row L)).
Implicit Types (t : T) (rows : Rows).

Definition ser3 (p : BackupID * Row L) (s : bytes) : Prop :=
  SerializeRow3 (row_state p.1 p.2) = Some s /\ ParseRow3 s = Some (row_state p.1 p.2).
Notation encodes3 := (encodes_rows row_ok view_row ser3).

Lemma row_ok_key3 id (row : Row L) : row_ok id row -> length id = BACKUP_ID_SIZE.
Proof. by intros []. Qed.

Lemma run3 t rows m k :
  db_inv t rows -> ValidateClientLog m = OK -> LogKey m = Some k ->
  exists t' rows', Run t rows m = Some (t', rows', (step3 m (view rows !! k)).2) /\ db_inv t' rows' /\
    view rows' = partial_alter (fun v => (step3 m v).1) k (view rows) /\ others merkle_leaf_ t rows t' rows'.
Proof.
  intros Hi Hv Hk. destruct m as [| | | |log|]; try done. injection Hk as <-.
  destruct (Run3_refines t rows log Hi Hv) as (t' & rows' & resp & E & Hi' & Ho & Hs).
  rewrite spec_run3_local in Hs. injection Hs as Hview Hresp. exists t', rows'.
  rewrite E, Hresp. simpl. split_and!; [|done| |done].
  - by destruct (spec_run (at_key _ (view rows !! _)) log).
  - rewrite Hview. apply partial_alter_ext. intros v _. by destruct (spec_run (at_key (log3_backup_id log) v) log).
Qed.

Lemma rows3 t rows start size :
  db_inv t rows -> start = [] \/ length start = BACKUP_ID_SIZE ->
  exists out m last, RowsAsProtos rows start size = (out, (last, OK)) /\ encodes3 out m /\
    (forall k v, m !! k = Some v <-> view rows !! k = Some v /\ key_lt start k = true /\ upto last k) /\
    (Zlen out < size -> forall k, is_Some (view rows !! k) -> key_lt start k = true -> upto last k) /\
    (out <> [] -> is_Some (m !! last)) /\ (out = [] -> last = []).
Proof.
  intros Hi Hst. destruct (RowsAsProtos3_spec t rows start size Hi Hst) as (out & Hser & E).
  assert (rows_after rows start = map_from_upper start rows) as Ha.
  { unfold rows_after. case_bool_decide as Hs; [|done]. subst start. symmetry.
    apply (from_upper_nil row_ok row_ok_key3). by eapply rows_all3_ok. }
  rewrite Ha in *. set (src := take (Z.to_nat size) (map_from_upper start rows)) in *.
  destruct (taken_view merkle_leaf_ merkle_hash row_ok view_row row_ok_key3 t rows start (Z.to_nat size) _ Hi eq_refl)
    as (H1 & H2 & H3 & H4 & H5). fold src in H1, H2, H3, H4, H5.
  pose proof (Forall2_length _ _ _ Hser) as Hlen.
  eexists out, (view src), _. split_and!; [exact E|by exists src|exact H1| | |].
  - intros Hsz. apply H2. unfold Zlen in Hsz. lia.
  - intros Hne. apply H3. intros En. rewrite En in Hlen. by destruct out.
  - intros ->. by destruct src.
Qed.

Lemma load3 t rows out m :
  db_inv t rows -> encodes3 out m -> out <> [] ->
  (forall k k', is_Some (view rows !! k) -> is_Some (m !! k') -> key_lt k k' = true) ->
  exists t' rows' last, LoadRowsFromProtos t rows out = Some (t', rows', (last, OK)) /\ db_inv t' rows' /\
    view rows' = m ∪ view rows /\ is_Some (m !! last) /\ (forall k, is_Some (m !! k) -> upto last k) /\
    others merkle_leaf_ t rows t' rows'.
Proof.
  intros Hi (src & Hall & Hser & Hord & ->) Hne Hlt. pose proof (ri_map _ _ _ _ _ Hi) as Hok.
  assert (Hlt' : forall k k', k ∈ rows.*1 -> k' ∈ src.*1 -> key_lt k k' = true).
  { intros k k' Hk Hk'. apply Hlt; by apply view_elem. }
  assert (src <> []) as Hsrc by (intros ->; by inversion Hser).
  destruct (LoadRowsFromProtos3_spec t rows src out Hi Hall Hser) as (t' & new & E & Hc & Hi' & Ho);
    [by apply map_ok_app_intro|].
  eexists t', _, _. split_and!; [exact E|done| | | |done].
  - by apply (loaded_view row_ok).
  - apply view_elem; [done|]. by apply last_key_in.
  - intros k Hk. apply view_elem in Hk; [|done]. by apply last_key_upto.
Qed.

Lemma hash3 t rows t' rows' :
  db_inv t rows -> db_inv t' rows' -> view rows = view rows' -> is_Some (DB_Hash rows) /\ DB_Hash rows' = DB_Hash rows.
Proof.
  intros Hi Hi' Hv. pose proof (rows_all3_ok _ _ Hi) as Hall. split.
  - unfold DB_Hash. assert (is_Some (mapM (fun '(id, row) => HashRow id row) rows)) as [hs ->]; [|simpl; eauto].
    apply mapM_is_Some_2. eapply Forall_impl; [exact Hall|]. intros [id row] Hok.
    destruct (merkle_hash3_Some id row Hok) as [h Hh]. unfold merkle_hash in Hh. simpl in *. destruct (HashRow id row); [eauto|done].
  - apply DB_Hash3_copied. apply (same_view_copied row_ok); [apply Hi|apply Hi'|by eapply rows_all3_ok|done].
Qed.

Lemma key_size3 t rows k : db_inv t rows -> is_Some (view rows !! k) -> length k = BACKUP_ID_SIZE.
Proof.
  intros Hi [x Hx]. unfold view in Hx. rewrite rows_view_lookup in Hx. apply fmap_Some in Hx as (row & Hrow & _).
  eapply row_ok_key3. by eapply (ri_ok _ _ _ _ _ Hi).
Qed.

Lemma validate_key3 m : ValidateClientLog m = OK -> exists k, LogKey m = Some k /\ length k = BACKUP_ID_SIZE.
Proof.
  intros Hv. destruct m as [| | | |log|]; try done. exists (log3_backup_id log). split; [done|].
  apply (validate_inv log Hv).
Qed.

Lemma protocol3 : ValidateClientLog LogPB <> OK /\ 0 < MaxRowSerializedSize.
Proof. done. Qed.

#[export] Instance db3_spec : DatabaseSpec T L Rows Oprf := {|
  db_view := view; db_ok := db_inv; db_owns := owns merkle_leaf_; db_step := step3; encodes := encodes3;
  db_ok_tree := ri_tree _ _ _; db_ok_frame := rows_inv_frame _ _ _; db_owns_live := rows_owns_live _ _ _;
  db_key_size := key_size3; db_validate_key := validate_key3;
  db_LogPB_invalid := proj1 protocol3; db_row_size := proj2 protocol3;
  db_Run_spec := run3; db_Rows_spec := rows3; db_Load_spec := load3; db_Hash_spec := hash3;
  db_destroy_spec := destroy_rows_spec _ _ _; db_NewDB_spec := rows_new _ _ _ _ |}.
End spec.
