(* ===== verification/Noise.v ===== *)
(** * Encryption in packets (noise/noise.h, noise/noise.cc)

    [Encrypt] cuts a plaintext into pieces that fit a Noise packet with its
    MAC, [Decrypt] takes the packets apart again.  [NoisePlatform] stands for
    noise-c: a cipher state turns a plaintext into a packet and moves to its
    next state, and its peer's state reads it back. *)
From stdpp Require Import prelude.
From S2P Require Import Prelude Errors Containers Util.

(** noise-c.  Handshake, cipher and key states are opaque; [None] is a return
    value other than [NOISE_ERROR_NONE]. *)
Inductive NoiseAction := NOISE_ACTION_WRITE_MESSAGE | NOISE_ACTION_READ_MESSAGE | NOISE_ACTION_SPLIT | NOISE_ACTION_NONE.
#[export] Instance NoiseAction_eq_dec : EqDecision NoiseAction.
Proof. solve_decision. Defined.
Inductive NoiseRole := NOISE_ROLE_INITIATOR | NOISE_ROLE_RESPONDER.
Inductive NoiseProtocol := client_protocol | peer_to_peer_protocol.

Class NoisePlatform := {
  CipherState : Type;
  HandshakeState : Type;
  DHState : Type;
  noise_cipherstate_get_mac_length : CipherState -> Z;
  (** The buffer after the call, and the new state. *)
  noise_cipherstate_encrypt : CipherState -> bytes -> option (bytes * CipherState);
  noise_cipherstate_decrypt : CipherState -> bytes -> option (bytes * CipherState);
  noise_cipherstate_rekey : CipherState -> CipherState;
  (** By the number of keys generated before. *)
  noise_dhstate_generate_keypair : nat -> option DHState;
  noise_dhstate_get_public_key : DHState -> option bytes;
  (** [new_by_id], the local key and, for peers, the remote public key, and [start]. *)
  noise_handshakestate_new_by_id : NoiseProtocol -> NoiseRole -> option HandshakeState;
  noise_set_local_keypair : HandshakeState -> DHState -> option HandshakeState;
  noise_set_remote_public_key : HandshakeState -> bytes -> option HandshakeState;
  noise_handshakestate_start : HandshakeState -> option HandshakeState;
  noise_handshakestate_get_action : HandshakeState -> NoiseAction;
  noise_handshakestate_read_message : HandshakeState -> bytes -> option HandshakeState;
  noise_handshakestate_write_message : HandshakeState -> option (bytes * HandshakeState);
  (** The sending and the receiving cipher. *)
  noise_handshakestate_split : HandshakeState -> option (CipherState * CipherState) }.

Definition HANDSHAKE_INIT_SIZE : Z := 64.
Definition max_message_size : Z := 65535.

Section noise.
Context {NP : NoisePlatform}.
Implicit Types (cs : CipherState) (plaintext ciphertext : bytes).

(** The number of packets; [size_t] arithmetic, with a MAC smaller than a packet. *)
Definition num_macs (orig_size max_encrypt_size : Z) : Z :=
  let n := orig_size / max_encrypt_size + 1 in
  if (orig_size mod max_encrypt_size =? 0) && (1 <? n) then n - 1 else n.

(** The loop of [Encrypt]: [ciphertext] is the buffer, of [final_size] bytes,
    and [start] the position the loop has reached.  A packet is written at
    [start]: noise-c turns [plaintext_size] bytes into [plaintext_size +
    mac_size].  [fuel] bounds the number of packets. *)
Fixpoint encrypt_loop (fuel : nat) cs (plaintext : bytes) (max_encrypt_size final_size start plaintext_start : Z)
    (ciphertext : bytes) : option (bytes * Error * CipherState) :=
  match fuel with
  | O => None
  | S fuel' =>
      if start <? final_size then
        let plaintext_size := Z.min max_encrypt_size (Zlen plaintext - plaintext_start) in
        let piece := take (Z.to_nat plaintext_size) (drop (Z.to_nat plaintext_start) plaintext) in
        match noise_cipherstate_encrypt cs piece with
        | None => Some ([], Peers_Encrypt, cs)
        | Some (packet, cs) =>
            if Zlen ciphertext <? start + Zlen packet then None else
            encrypt_loop fuel' cs plaintext max_encrypt_size final_size (start + max_message_size)
              (plaintext_start + plaintext_size)
              (take (Z.to_nat start) ciphertext ++ packet ++ drop (Z.to_nat (start + Zlen packet)) ciphertext)
        end
      else Some (ciphertext, OK, cs)
  end.

Definition Encrypt cs plaintext : option (bytes * Error * CipherState) :=
  let mac_size := noise_cipherstate_get_mac_length cs in
  let max_encrypt_size := max_message_size - mac_size in
  let orig_size := Zlen plaintext in
  let final_size := orig_size + mac_size * num_macs orig_size max_encrypt_size in
  encrypt_loop (S (Z.to_nat (num_macs orig_size max_encrypt_size))) cs plaintext max_encrypt_size final_size 0 0
    (replicate (Z.to_nat final_size) 0).

(** The loop of [Decrypt]: [plaintext] is the buffer; [buf.size] is the length
    of the decrypted piece.  Every turn reads at least a byte. *)
Fixpoint decrypt_loop (fuel : nat) cs (ciphertext : bytes) (start plaintext_start : Z) (plaintext : bytes) :
    option (bytes * Error * CipherState) :=
  match fuel with
  | O => None
  | S fuel' =>
      if start <? Zlen ciphertext then
        let size := Z.min max_message_size (Zlen ciphertext - start) in
        let packet := take (Z.to_nat size) (drop (Z.to_nat start) ciphertext) in
        if Zlen plaintext <? plaintext_start + size then None else
        match noise_cipherstate_decrypt cs packet with
        | None => Some ([], Peers_Decrypt, cs)
        | Some (piece, cs) =>
            (* in the buffer, the rest of the packet is overwritten or cut off *)
            decrypt_loop fuel' cs ciphertext (start + max_message_size) (plaintext_start + Zlen piece)
              (take (Z.to_nat plaintext_start) plaintext ++ piece ++
               drop (Z.to_nat (plaintext_start + Zlen piece)) plaintext)
        end
      else Some (take (Z.to_nat plaintext_start) plaintext, OK, cs)
  end.

Definition Decrypt cs ciphertext : option (bytes * Error * CipherState) :=
  decrypt_loop (S (length ciphertext)) cs ciphertext 0 0 (replicate (length ciphertext) 0).
End noise.

(** ** Both ends agree

    [paired tx rx]: the states have the same key and have seen the same
    packets, as noise-c documents it. *)
Class NoiseLaws {NP : NoisePlatform} := {
  paired : CipherState -> CipherState -> Prop;
  mac_range : forall cs, 0 < noise_cipherstate_get_mac_length cs < max_message_size;
  encrypt_packet : forall tx p c tx', noise_cipherstate_encrypt tx p = Some (c, tx') ->
    Zlen c = Zlen p + noise_cipherstate_get_mac_length tx /\
    noise_cipherstate_get_mac_length tx' = noise_cipherstate_get_mac_length tx;
  decrypt_packet : forall tx rx p c tx', paired tx rx -> noise_cipherstate_encrypt tx p = Some (c, tx') ->
    exists rx', noise_cipherstate_decrypt rx c = Some (p, rx') /\ paired tx' rx';
  decrypt_size : forall rx c p rx', noise_cipherstate_decrypt rx c = Some (p, rx') -> Zlen p <= Zlen c;
  rekey_paired : forall tx rx, paired tx rx -> paired (noise_cipherstate_rekey tx) (noise_cipherstate_rekey rx) }.

Section laws.
Context {NP : NoisePlatform} {NL : NoiseLaws}.
Notation mac cs := (noise_cipherstate_get_mac_length cs).

(** The pieces of a plaintext, all but the last one full. *)
Fixpoint chunked (size : Z) (ps : list bytes) : Prop :=
  match ps with
  | [] => True
  | [p] => Zlen p <= size
  | p :: ps' => Zlen p = size /\ chunked size ps'
  end.

(** The packets of pieces, one after the other. *)
Fixpoint packets (cs : CipherState) (ps : list bytes) : option (list bytes * CipherState) :=
  match ps with
  | [] => Some ([], cs)
  | p :: ps' =>
      '(c, cs) ← noise_cipherstate_encrypt cs p;
      '(qs, cs) ← packets cs ps';
      Some (c :: qs, cs)
  end.

Lemma chunked_cons size p ps : chunked size (p :: ps) ->
  Zlen p <= size /\ (ps <> [] -> Zlen p = size) /\ chunked size ps.
Proof. destruct ps as [|q ps]; simpl; [done|]. intros [-> ?]. split_and!; [lia|done|done]. Qed.

Lemma packets_length ps cs qs cs' :
  packets cs ps = Some (qs, cs') ->
  Forall2 (fun p q => Zlen q = Zlen p + mac cs) ps qs /\ mac cs' = mac cs.
Proof.
  revert cs qs. induction ps as [|p ps IH]; intros cs qs; simpl; [by intros [= <- <-]|].
  destruct (noise_cipherstate_encrypt cs p) as [[c cs1]|] eqn:E; [|done]. simpl.
  destruct (packets cs1 ps) as [[qs1 cs2]|] eqn:E2; [|done]. simpl. intros [= <- <-].
  destruct (encrypt_packet _ _ _ _ E) as [Hl Hm]. destruct (IH _ _ E2) as [H1 H2].
  split; [|lia]. constructor; [done|]. by rewrite Hm in H1.
Qed.

Lemma take_Zlen_app {A} (l k : list A) : take (Z.to_nat (Zlen l)) (l ++ k) = l.
Proof. unfold Zlen. by rewrite Nat2Z.id, take_app_length. Qed.

Lemma encrypt_loop_spec fuel ps cs plaintext W start pstart final :
  (length ps < fuel)%nat -> chunked (max_message_size - mac cs) ps ->
  0 <= pstart -> drop (Z.to_nat pstart) plaintext = concat ps -> pstart + Zlen (concat ps) = Zlen plaintext ->
  Zlen W <= start -> (ps <> [] -> Zlen W = start) ->
  final = Zlen W + Zlen (concat ps) + mac cs * Zlen ps ->
  let r := encrypt_loop fuel cs plaintext (max_message_size - mac cs) final start pstart
    (W ++ replicate (Z.to_nat (final - Zlen W)) 0) in
  match packets cs ps with
  | Some (qs, cs') => r = Some (W ++ concat qs, OK, cs')
  | None => exists cs', r = Some ([], Peers_Encrypt, cs')
  end.
Proof.
  revert ps cs W start pstart. induction fuel as [|fuel IH]; intros ps cs W start pstart Hf Hc Hp Hd Hl Hw Hw' Hfin; [lia|].
  pose proof (mac_range cs) as Hmac. destruct ps as [|p ps].
  - simpl in *. rewrite (proj2 (Z.ltb_ge _ _)) by (unfold Zlen in *; simpl in *; lia).
    replace (Z.to_nat (final - Zlen W)) with 0%nat by (unfold Zlen in *; simpl in *; lia). done.
  - destruct (chunked_cons _ _ _ Hc) as (Hc1 & Hc2 & Hc3). specialize (Hw' ltac:(done)). subst start.
    change (concat (p :: ps)) with (p ++ concat ps) in *. cbn [encrypt_loop packets]. rewrite Zlen_cons, Zlen_app in Hfin. rewrite Zlen_app in Hl.
    assert (0 <= Zlen p /\ 0 <= Zlen (concat ps) /\ 0 <= Zlen ps /\ 0 <= Zlen W) as (G1 & G2 & G3 & G4) by (unfold Zlen; lia).
    rewrite (proj2 (Z.ltb_lt _ _)) by nia.
    assert (Z.min (max_message_size - mac cs) (Zlen plaintext - pstart) = Zlen p) as ->.
    { destruct ps; [simpl in *; unfold Zlen in *; simpl in *; lia|]. rewrite <- Hc2 by done. lia. }
    rewrite Hd, take_Zlen_app.
    destruct (noise_cipherstate_encrypt cs p) as [[c cs1]|] eqn:E; [|simpl; eauto]. simpl.
    destruct (encrypt_packet _ _ _ _ E) as [Hcl Hm].
    rewrite (proj2 (Z.ltb_ge _ _)).
    2:{ rewrite Zlen_app. assert (Zlen (replicate (Z.to_nat (final - Zlen W)) 0) = final - Zlen W) as ->; [|nia].
        unfold Zlen at 1. rewrite length_replicate. nia. }
    specialize (IH ps cs1 (W ++ c) (Zlen W + max_message_size) (pstart + Zlen p)).
    rewrite Hm in IH. rewrite Zlen_app in IH.
    assert (take (Z.to_nat (Zlen W)) (W ++ replicate (Z.to_nat (final - Zlen W)) 0) ++ c ++
      drop (Z.to_nat (Zlen W + Zlen c)) (W ++ replicate (Z.to_nat (final - Zlen W)) 0) =
      (W ++ c) ++ replicate (Z.to_nat (final - (Zlen W + Zlen c))) 0) as ->.
    { rewrite take_Zlen_app, <- app_assoc. do 2 f_equal.
      rewrite drop_app_ge by (unfold Zlen; lia). rewrite drop_replicate. f_equal. unfold Zlen in *. lia. }
    assert (drop (Z.to_nat (pstart + Zlen p)) plaintext = concat ps) as Hd'.
    { rewrite Z2Nat.inj_add, <- drop_drop, Hd by lia. unfold Zlen. by rewrite Nat2Z.id, drop_app_length. }
    simpl in Hf. destruct (packets cs1 ps) as [[qs cs2]|]; simpl; rewrite ?app_assoc; apply IH; try done; try lia; try nia.
    all: intros Hne; rewrite Hc2 in Hcl by done; lia.
Qed.

(** Reading the packets back. *)
Lemma decrypt_loop_spec fuel ps qs tx tx' rx ciphertext P rest start :
  (length qs < fuel)%nat -> paired tx rx -> packets tx ps = Some (qs, tx') ->
  chunked (max_message_size - mac tx) ps ->
  0 <= start -> drop (Z.to_nat start) ciphertext = concat qs -> (qs <> [] -> start + Zlen (concat qs) = Zlen ciphertext) ->
  (qs = [] -> Zlen ciphertext <= start) ->
  Zlen P <= start -> Zlen (P ++ rest) = Zlen ciphertext ->
  exists rx', decrypt_loop fuel rx ciphertext start (Zlen P) (P ++ rest) = Some (P ++ concat ps, OK, rx') /\ paired tx' rx'.
Proof.
  revert ps qs tx rx P rest start. induction fuel as [|fuel IH]; intros ps qs tx rx P rest start Hf Hpair Hq Hc Hs Hd Hl Hl' HP Hcap; [lia|].
  pose proof (mac_range tx) as Hmac. destruct ps as [|p ps]; simpl in Hq.
  - injection Hq as <- <-. specialize (Hl' eq_refl). simpl.
    rewrite (proj2 (Z.ltb_ge _ _)) by lia. rewrite take_Zlen_app, app_nil_r. eauto.
  - destruct (noise_cipherstate_encrypt tx p) as [[c tx1]|] eqn:E; [|done]. simpl in Hq.
    destruct (packets tx1 ps) as [[qs1 tx2]|] eqn:E2; [|done]. simpl in Hq. injection Hq as <- <-.
    destruct (encrypt_packet _ _ _ _ E) as [Hcl Hm].
    destruct (decrypt_packet _ _ _ _ _ Hpair E) as (rx1 & Hdec & Hpair1).
    destruct (chunked_cons _ _ _ Hc) as (Hc1 & Hc2 & Hc3).
    destruct (packets_length _ _ _ _ E2) as [Hlens _].
    change (concat (c :: qs1)) with (c ++ concat qs1) in *. specialize (Hl ltac:(done)). rewrite Zlen_app in Hl.
    assert (0 <= Zlen p /\ 0 <= Zlen (concat qs1) /\ 0 <= Zlen P) as (G1 & G2 & G3) by (unfold Zlen; lia).
    assert (qs1 = [] <-> ps = []) as Hnil by (split; intros ->; by inversion Hlens).
    cbn [decrypt_loop]. rewrite (proj2 (Z.ltb_lt _ _)) by lia.
    assert (Z.min max_message_size (Zlen ciphertext - start) = Zlen c) as ->.
    { destruct (decide (ps = [])) as [Hps|Hne]; [rewrite (proj2 Hnil Hps) in Hl; simpl in Hl; change (Zlen []) with 0 in Hl; lia|].
      rewrite Hc2 in Hcl by done. lia. }
    rewrite Hd, take_Zlen_app. rewrite (proj2 (Z.ltb_ge _ _)) by lia. rewrite Hdec.
    rewrite take_Zlen_app.
    assert (Hfull : qs1 <> [] -> Zlen c = max_message_size).
    { intros Hne. rewrite Hcl, Hc2 by (by rewrite <- Hnil). lia. }
    assert (Hend : qs1 = [] -> Zlen ciphertext <= start + max_message_size).
    { intros ->. simpl in Hl. change (Zlen []) with 0 in Hl. lia. }
    destruct (IH ps qs1 tx1 rx1 (P ++ p) (drop (Z.to_nat (Zlen P + Zlen p)) (P ++ rest)) (start + max_message_size))
      as (rx' & Hrun & Hpair'); try done; try lia.
    + simpl in Hf. lia.
    + by rewrite Hm.
    + destruct (decide (qs1 = [])) as [Hn|Hn].
      * rewrite drop_ge, Hn; [done|]. specialize (Hend Hn). unfold Zlen in Hend. lia.
      * rewrite <- (Hfull Hn), Z2Nat.inj_add, <- drop_drop, Hd by lia. unfold Zlen. by rewrite Nat2Z.id, drop_app_length.
    + intros Hn. specialize (Hfull Hn). lia.
    + rewrite Zlen_app. lia.
    + rewrite <- Hcap. unfold Zlen in *. rewrite !length_app, length_drop, length_app in *. lia.
    + exists rx'. split; [|done]. rewrite Zlen_app, <- app_assoc in Hrun. rewrite Hrun. simpl. by rewrite <- app_assoc.
Qed.

(** Whatever the ciphertext, [Decrypt] stays within its buffer and returns. *)
Lemma decrypt_loop_total fuel rx ciphertext start plaintext_start plaintext :
  0 <= plaintext_start <= start -> Zlen plaintext = Zlen ciphertext -> Z.max 0 (Zlen ciphertext - start) < Z.of_nat fuel ->
  is_Some (decrypt_loop fuel rx ciphertext start plaintext_start plaintext).
Proof.
  revert rx start plaintext_start plaintext. induction fuel as [|fuel IH]; intros rx start ps plain Hs Hl Hf; cbn [decrypt_loop].
  { lia. }
  destruct (start <? Zlen ciphertext) eqn:E; [|eauto]. zbool. unfold max_message_size in *.
  rewrite (proj2 (Z.ltb_ge _ _)) by lia. destruct (noise_cipherstate_decrypt _ _) as [[piece rx']|] eqn:Ed; [|eauto].
  apply decrypt_size in Ed. apply IH.
  - unfold Zlen in *. rewrite length_take, length_drop in Ed. lia.
  - unfold Zlen in *. rewrite length_take, length_drop in Ed. rewrite !length_app, length_take, length_drop. lia.
  - lia.
Qed.

Lemma Decrypt_total rx ciphertext : exists plaintext err rx', Decrypt rx ciphertext = Some (plaintext, err, rx').
Proof.
  destruct (decrypt_loop_total (S (length ciphertext)) rx ciphertext 0 0 (replicate (length ciphertext) 0)) as [[[p err] rx'] H];
    [lia|unfold Zlen; by rewrite length_replicate|unfold Zlen; lia|]. exists p, err, rx'. exact H.
Qed.

Fixpoint pieces (n : nat) (size : nat) (l : bytes) : list bytes :=
  match n with
  | O => []
  | S n' => take size l :: pieces n' size (drop size l)
  end.

Lemma pieces_spec n size l :
  (0 < n)%nat -> Z.of_nat (n - 1) * Z.of_nat size <= Zlen l <= Z.of_nat n * Z.of_nat size ->
  concat (pieces n size l) = l /\ chunked (Z.of_nat size) (pieces n size l) /\ length (pieces n size l) = n.
Proof.
  revert l. induction n as [|n IH]; intros l Hn Hl; [lia|]. unfold Zlen in Hl. simpl.
  destruct n as [|n].
  - simpl. rewrite app_nil_r, take_ge by nia. split_and!; [done|unfold Zlen; nia|done].
  - destruct (IH (drop size l)) as (H1 & H2 & H3); [lia|unfold Zlen; rewrite length_drop; nia|].
    rewrite H1, take_drop, H3. split_and!; [done| |done].
    simpl pieces in *. split; [|done]. unfold Zlen. rewrite length_take. nia.
Qed.

Lemma num_macs_spec orig size : 0 <= orig -> 0 < size ->
  1 <= num_macs orig size /\ (num_macs orig size - 1) * size <= orig <= num_macs orig size * size.
Proof.
  intros Ho Hs. unfold num_macs. pose proof (Z.div_mod orig size ltac:(lia)) as Hdm.
  pose proof (Z.mod_pos_bound orig size Hs). pose proof (Z.div_pos orig size Ho Hs).
  destruct (orig mod size =? 0) eqn:E1; destruct (1 <? orig / size + 1) eqn:E2; simpl; zbool; nia.
Qed.

Lemma Encrypt_spec tx p :
  exists ps, concat ps = p /\ chunked (max_message_size - mac tx) ps /\
    Zlen ps = num_macs (Zlen p) (max_message_size - mac tx) /\
    match packets tx ps with
    | Some (qs, tx') => Encrypt tx p = Some (concat qs, OK, tx')
    | None => exists tx', Encrypt tx p = Some ([], Peers_Encrypt, tx')
    end.
Proof.
  pose proof (mac_range tx) as Hmac. set (E := max_message_size - mac tx).
  destruct (num_macs_spec (Zlen p) E) as [N1 N2]; [apply Zlen_nonneg|unfold E; lia|].
  assert (HE : 0 < E) by (unfold E; lia).
  destruct (pieces_spec (Z.to_nat (num_macs (Zlen p) E)) (Z.to_nat E) p) as (H1 & H2 & H3);
    [lia| |].
  { replace (Z.of_nat (Z.to_nat (num_macs (Zlen p) E) - 1)) with (num_macs (Zlen p) E - 1) by lia.
    rewrite !Z2Nat.id by lia. exact N2. }
  rewrite Z2Nat.id in H2 by (unfold E; lia). set (ps := pieces _ _ p) in *. exists ps.
  assert (Zlen ps = num_macs (Zlen p) E) as Hn by (unfold Zlen at 1; rewrite H3; lia).
  split_and!; [done..|].
  assert (Hfin : Zlen p + mac tx * num_macs (Zlen p) E = Zlen (@nil Z) + Zlen (concat ps) + mac tx * Zlen ps)
    by (rewrite H1, Hn; change (Zlen (@nil Z)) with 0; lia).
  pose proof (encrypt_loop_spec (S (Z.to_nat (num_macs (Zlen p) E))) ps tx p [] 0 0 _ ltac:(lia) H2 ltac:(lia)
    ltac:(rewrite drop_0; done) ltac:(rewrite H1; lia) ltac:(done) ltac:(done) Hfin) as Hrun.
  unfold Encrypt. fold E. change (Zlen (@nil Z)) with 0 in Hrun. rewrite Z.sub_0_r in Hrun. simpl app in Hrun.
  by destruct (packets tx ps) as [[qs tx']|].
Qed.
End laws.

(** ** Properties *)
Section theorems.
Context {NP : NoisePlatform} {NL : NoiseLaws}.

Lemma packets_pos ps tx qs tx' : packets tx ps = Some (qs, tx') -> (length qs <= length (concat qs))%nat.
Proof.
  intros [Hl _]%packets_length. induction Hl as [|p q ps qs Hq _ IH]; simpl; [lia|].
  rewrite length_app. pose proof (mac_range tx). unfold Zlen in Hq. lia.
Qed.

(** What one end encrypts the other decrypts.  [Encrypt] always returns,
    within its buffer; if the cipher takes the packets, the ciphertext has one
    MAC for every packet the plaintext needs, and the paired state decrypts
    it to the plaintext, whatever its length, leaving both ends paired. *)
Lemma noise_roundtrip tx rx p :
  paired tx rx ->
  exists c err tx', Encrypt tx p = Some (c, err, tx') /\ (err = OK \/ (err = Peers_Encrypt /\ c = [])) /\
    (err = OK ->
     Zlen c = Zlen p + noise_cipherstate_get_mac_length tx *
                       num_macs (Zlen p) (max_message_size - noise_cipherstate_get_mac_length tx) /\
     exists rx', Decrypt rx c = Some (p, OK, rx') /\ paired tx' rx').
Proof.
  intros Hpair. destruct (Encrypt_spec tx p) as (ps & H1 & H2 & H3 & H4).
  destruct (packets tx ps) as [[qs tx']|] eqn:E.
  2:{ destruct H4 as [tx' ->]. exists [], Peers_Encrypt, tx'. split; [done|]. split; [by right|done]. }
  eexists _, _, _. split; [exact H4|]. split; [by left|]. intros _.
  destruct (packets_length _ _ _ _ E) as [Hl _]. split.
  - rewrite <- H3, <- H1. clear -Hl. induction Hl as [|p q ps qs Hq _ IH]; simpl; [unfold Zlen; simpl; lia|].
    rewrite !Zlen_app, !Zlen_cons. nia.
  - pose proof (packets_pos _ _ _ _ E) as Hpos.
    destruct (decrypt_loop_spec (S (length (concat qs))) ps qs tx tx' rx (concat qs) [] (replicate (length (concat qs)) 0) 0)
      as (rx' & Hrun & Hp); try done; try lia.
    + intros ->. done.
    + simpl. unfold Zlen. by rewrite length_replicate.
    + exists rx'. split; [|done]. rewrite <- H1. exact Hrun.
Qed.

(** An empty ciphertext is taken for an authentic empty plaintext: it has
    no packet, so [Decrypt] succeeds without checking any MAC and without
    moving the cipher state. *)
Theorem decrypt_empty_unauthenticated rx : Decrypt rx [] = Some ([], OK, rx).
Proof. done. Qed.
End theorems.

(** ** A stand-in for noise-c, to evaluate examples on: a packet is the
    plaintext followed by a 16-byte MAC that counts the packets; a handshake
    counts its messages and derives the same key at both ends. *)
Definition toy_mac (cs : Z * Z) (p : bytes) : bytes := replicate 16 ((cs.1 + cs.2 + foldr Z.add 0 p) mod 256).
Record ToyHandshake := { th_role : NoiseRole; th_stage : nat; th_key : Z }.

#[local] Instance toy_noise : NoisePlatform := {|
  CipherState := Z * Z; HandshakeState := ToyHandshake; DHState := Z;
  noise_cipherstate_get_mac_length := fun _ => 16;
  noise_cipherstate_encrypt := fun cs p => Some (p ++ toy_mac cs p, (cs.1, cs.2 + 1));
  noise_cipherstate_decrypt := fun cs c =>
    let p := take (length c - 16) c in
    if bool_decide (drop (length c - 16) c = toy_mac cs p) then Some (p, (cs.1, cs.2 + 1)) else None;
  noise_cipherstate_rekey := fun cs => (cs.1 + 1, cs.2);
  noise_dhstate_generate_keypair := fun n => Some (Z.of_nat n + 1);
  noise_dhstate_get_public_key := fun d => Some (replicate 32 (d mod 256));
  noise_handshakestate_new_by_id := fun _ r => Some {| th_role := r; th_stage := 0; th_key := 0 |};
  noise_set_local_keypair := fun h d => Some {| h with th_key := th_key h + d |};
  noise_set_remote_public_key := fun h p => Some {| h with th_key := th_key h + hd 0 p |};
  noise_handshakestate_start := fun h => Some h;
  noise_handshakestate_get_action := fun h =>
    match th_role h, th_stage h with
    | NOISE_ROLE_INITIATOR, 0%nat | NOISE_ROLE_RESPONDER, 1%nat => NOISE_ACTION_WRITE_MESSAGE
    | NOISE_ROLE_INITIATOR, 1%nat | NOISE_ROLE_RESPONDER, 0%nat => NOISE_ACTION_READ_MESSAGE
    | _, 2%nat => NOISE_ACTION_SPLIT
    | _, _ => NOISE_ACTION_NONE
    end;
  noise_handshakestate_read_message := fun h m =>
    if bool_decide (m = [Z.of_nat (th_stage h)]) then Some {| h with th_stage := S (th_stage h) |} else None;
  noise_handshakestate_write_message := fun h => Some ([Z.of_nat (th_stage h)], {| h with th_stage := S (th_stage h) |});
  noise_handshakestate_split := fun h =>
    match th_role h with
    | NOISE_ROLE_INITIATOR => Some ((th_key h, 0), (th_key h, 1000))
    | NOISE_ROLE_RESPONDER => Some ((th_key h, 1000), (th_key h, 0))
    end |}.

#[local] Instance toy_noise_laws : NoiseLaws.
Proof.
  refine {| paired := fun tx rx : CipherState => tx = rx |}.
  - intros cs. unfold max_message_size. simpl. lia.
  - intros tx p c tx' [= <- <-]. split; [|done]. unfold Zlen. rewrite length_app. simpl. lia.
  - intros tx rx p c tx' -> [= <- <-]. exists (rx.1, rx.2 + 1). split; [|done]. simpl.
    rewrite length_app. unfold toy_mac. rewrite length_replicate.
    replace (length p + 16 - 16)%nat with (length p) by lia.
    rewrite take_app_length, drop_app_length, bool_decide_eq_true_2; done.
  - intros rx c p rx'. simpl. case_bool_decide; intros [= <- <-]. unfold Zlen. rewrite length_take. lia.
  - by intros tx rx ->.
Defined.

Definition toy_cipher : CipherState := ((5, 0) : Z * Z).

Lemma noise_roundtrip_witness :
  exists c tx' rx', Encrypt toy_cipher [1; 2; 3] = Some (c, OK, tx') /\ Zlen c = 19 /\
    Decrypt toy_cipher c = Some ([1; 2; 3], OK, rx') /\ paired tx' rx'.
Proof.
  destruct (noise_roundtrip toy_cipher toy_cipher [1; 2; 3]) as (c & err & tx' & E & _ & H); [reflexivity|].
  assert (err = OK) as -> by (vm_compute in E; by injection E).
  destruct (H eq_refl) as [H1 (rx' & H2 & H3)]. exists c, tx', rx'. by split_and!.
Defined.
