(* ===== verification/Msgs.v ===== *)
(** * Messages and configuration (shared/proto/msgs.proto, enclaveconfig.proto,
    attestation.proto, enclave/proto/e2e.proto)

    The messages between host and enclave and between enclaves, as records and
    sums; a [oneof] is a sum with a constructor for "not set".  [MsgPlatform]
    stands for protobuf's (de)serialisation, [Env] for [env::Environment]. *)
From stdpp Require Import prelude gmap.
From S2P Require Import Prelude Errors Containers Util RaftTypes Raft Minimums ClientTypes Database.

(** ** enclaveconfig.proto *)
Record EnclaveConfig := { raft_config : RaftConfig; e2e_txn_timeout_ticks : Z; send_timestamp_ticks : Z }.
Record RaftGroupConfig := {
  group_id : GroupId; min_voting_replicas : Z; max_voting_replicas : Z; super_majority : Z;
  db_version : DatabaseVersion; attestation_timeout : Z; simulated : bool }.
Definition RaftGroupConfig_default : RaftGroupConfig := {|
  group_id := 0; min_voting_replicas := 0; max_voting_replicas := 0; super_majority := 0;
  db_version := DATABASE_VERSION_UNKNOWN; attestation_timeout := 0; simulated := false |}.
Record InitConfig := {
  enclave_config_pb : EnclaveConfig; group_config_pb : RaftGroupConfig; initial_timestamp_unix_secs : Z }.

(** ** e2e.proto *)
Record Attestation := { evidence : bytes; endorsements : bytes }.
Definition Attestation_default : Attestation := {| evidence := []; endorsements := [] |}.
Record ConnectRequest := { conn_attestation : Attestation; conn_handshake : bytes }.
Record ReplicateStateRequest := { rsr_group_id : GroupId; rsr_replication_id : Z }.
Record ReplicateStatePush := {
  push_replication_id : Z; push_replication_sequence : Z; push_first_log_idx : LogIdx;
  push_entries : list LogEntry; push_db_to_end : bool; push_rows : list bytes;
  push_committed_membership : option ReplicaGroup }.
Inductive TransactionInner :=
  | tPing (b : bool)
  | tGetRaft (b : bool)
  | tReplicateState (r : ReplicateStateRequest)
  | tReplicateStatePush (p : ReplicateStatePush)
  | tRaftMembershipRequest (b : bool)
  | tRaftVotingRequest (b : bool)
  | tRaftWrite (data : bytes)
  | tNewTimestampUnixSecs (secs : Z)
  | tRaftRemovalRequest (b : bool)
  | tNOT_SET.
Record TransactionRequest := { txn_request_id : Z; txn_inner : TransactionInner }.
Inductive TransactionResponseInner :=
  | sStatus (e : Error)
  | sGetRaft (config : RaftGroupConfig) (group : ReplicaGroup)
  | sRaftMembershipResponse (loc : LogLocation)
  | sRaftVotingResponse (loc : LogLocation)
  | sRaftWrite (loc : LogLocation)
  | sNOT_SET.
Record TransactionResponse := { txr_request_id : Z; txr_inner : TransactionResponseInner }.
(** [status()] of a response that holds something else is the default, [OK]. *)
Definition txr_status (r : TransactionResponse) : Error :=
  match txr_inner r with sStatus e => e | _ => OK end.
Definition LogLocation_default : LogLocation := {| loc_term := 0; loc_idx := 0; loc_hash_chain := [] |}.
Definition txr_raft_write (r : TransactionResponse) : LogLocation :=
  match txr_inner r with sRaftWrite l => l | _ => LogLocation_default end.
Definition txr_raft_membership_response (r : TransactionResponse) : LogLocation :=
  match txr_inner r with sRaftMembershipResponse l => l | _ => LogLocation_default end.
Definition txr_get_raft (r : TransactionResponse) : RaftGroupConfig * ReplicaGroup :=
  match txr_inner r with sGetRaft c g => (c, g) | _ => (RaftGroupConfig_default, []) end.
Inductive EnclaveToEnclaveMessage :=
  | eConnected (b : bool)
  | eRaftMessage (m : RaftMessage)
  | eAttestationUpdate (a : Attestation)
  | eTransactionRequest (r : TransactionRequest)
  | eTransactionResponse (r : TransactionResponse)
  | eNOT_SET.

(** ** msgs.proto *)
Inductive PeerMessageInner := pSyn (d : bytes) | pSynack (d : bytes) | pData (d : bytes) | pRst (b : bool) | pNOT_SET.
Record PeerMessage := { pm_peer_id : bytes; pm_inner : PeerMessageInner }.
Inductive PeerState := PEER_DISCONNECTED | PEER_CONNECTING | PEER_CONNECTED.
#[export] Instance PeerState_eq_dec : EqDecision PeerState.
Proof. solve_decision. Defined.
Inductive RaftState :=
  | RAFTSTATE_NO_STATE
  | RAFTSTATE_WAITING_FOR_FIRST_CONNECTION
  | RAFTSTATE_LOADING
  | RAFTSTATE_LOADED_REQUESTING_MEMBERSHIP
  | RAFTSTATE_LOADED_PART_OF_GROUP.
#[export] Instance RaftState_eq_dec : EqDecision RaftState.
Proof. solve_decision. Defined.
Record ConnectionStatus := { cst_state : PeerState; cst_last_attestation_unix_secs : Z }.
Record EnclavePeerStatus := {
  eps_peer_id : bytes; eps_replication_status : option (LogIdx * LogIdx * option LogIdx * bool);
  eps_in_raft : bool; eps_is_leader : bool; eps_is_voting : bool; eps_me : bool;
  eps_connection_status : option ConnectionStatus }.
Record EnclaveReplicaStatus := { ers_peers : list EnclavePeerStatus; ers_raft_state : RaftState }.
Record ClientHandshakeStart := { test_only_pubkey : bytes; hs_evidence : bytes; hs_endorsement : bytes }.
Definition ClientHandshakeStart_default : ClientHandshakeStart :=
  {| test_only_pubkey := []; hs_evidence := []; hs_endorsement := [] |}.
Record HashResponse := { db_hash : bytes; hr_commit_idx : LogIdx; commit_hash_chain : bytes }.

Inductive HostToEnclaveRequestInner :=
  | hReconfigure (c : EnclaveConfig)
  | hGetEnclaveStatus (b : bool)
  | hNewClient (client_authenticated_id : bytes)
  | hExistingClient (client_id : Z) (data : bytes)
  | hCloseClient (client_id : Z)
  | hDatabaseRequest (authenticated_id request : bytes)
  | hCreateNewRaftGroup (b : bool)
  | hJoinRaft (peer_id : bytes)
  | hPingPeer (peer_id : bytes)
  | hRequestVoting (b : bool)
  | hRequestMetrics (b : bool)
  | hRefreshAttestation (rotate_client_key : bool)
  | hSetLogLevel (level : Z)
  | hRelinquishLeadership (b : bool)
  | hRequestRemoval (b : bool)
  | hHashes (b : bool)
  | hMetrics (update_env_stats : bool)
  | hResetPeerId (peer_id : bytes)
  | hUpdateMinimums (m : gmap bytes bytes)
  | hNOT_SET.
Record HostToEnclaveRequest := { h2e_request_id : Z; h2e_inner : HostToEnclaveRequestInner }.
Inductive UntrustedMessage :=
  | uPeerMessage (m : PeerMessage)
  | uTimerTick (new_timestamp_unix_secs : Z)
  | uResetPeer (peer_id : bytes)
  | uH2ERequest (r : HostToEnclaveRequest)
  | uNOT_SET.
Inductive HostToEnclaveResponseInner :=
  | oStatus (e : Error)
  | oGetEnclaveStatusReply (s : EnclaveReplicaStatus)
  | oNewClientReply (client_id : Z) (handshake_start : ClientHandshakeStart)
  | oExistingClientReply (data : bytes) (fin : bool)
  | oMetricsReply
  | oHashes (h : HashResponse).
Inductive EnclaveMessage :=
  | mPeerMessage (m : PeerMessage)
  | mH2EResponse (request_id : Z) (inner : HostToEnclaveResponseInner).

(** ** attestation.proto *)
Record AttestationData := {
  att_public_key : bytes; att_group_config : option RaftGroupConfig;
  att_minimum_limits : Minimums.MinimumLimits; att_minimum_values : Minimums.MinimumValues }.

(** ** protobuf *)
Class MsgPlatform := {
  SerializeE2E : EnclaveToEnclaveMessage -> option bytes;
  ParseE2E : bytes -> option EnclaveToEnclaveMessage;
  SerializeConnect : ConnectRequest -> option bytes;
  ParseConnect : bytes -> option ConnectRequest;
  SerializeEntry : LogEntry -> option bytes;
  ParseEntry : bytes -> option LogEntry;
  (** Of a database message; parsed into a message of a given type. *)
  SerializeDb : MessageLite -> option bytes;
  ParseDb : MessageLite -> bytes -> option MessageLite;
  push_ByteSizeLong : ReplicateStatePush -> Z }.

(** ** [env::Environment]: what the enclave asks of its platform.  The [nat]
    is the number of earlier calls.  Checking an attestation may end the
    process ([None]): some of the platforms' parsers have [CHECK]s. *)
Class Env := {
  env_Evidence : nat -> AttestationData -> Attestation * Error;
  env_Attest : Z -> Attestation -> option (AttestationData * Error);
  env_RandomBytes : nat -> nat -> bytes * Error }.
