(* ===== verification/Client.v ===== *)
(** * Client sessions (client/client.h, client/client.cc)

    A client's session starts with a Noise handshake (this enclave is the
    responder) and then decrypts requests and encrypts responses.  The
    manager owns the sessions, the key and its attestation. *)
From stdpp Require Import prelude gmap.
From S2P Require Import Prelude Errors Containers Util ClientTypes Minimums Database Msgs Noise.

Notation ClientID := Z.

Section client.
Context {NP : NoisePlatform} {MP : MsgPlatform} {EV : Env}.

Record Client := {
  hs_start_ : ClientHandshakeStart;
  hs_ : option HandshakeState;
  tx_ : option CipherState;
  rx_ : option CipherState;
  id_ : ClientID;
  authenticated_id_ : bytes }.

(** [id_gen] is the counter the IDs come from. *)
Definition Client_new (id_gen : Z) (authenticated_id : bytes) : Client * Z :=
  ({| hs_start_ := ClientHandshakeStart_default; hs_ := None; tx_ := None; rx_ := None;
      id_ := id_gen; authenticated_id_ := authenticated_id |}, id_gen ⊕ 1).

Definition Client_Init (c : Client) (dhstate : DHState) (attestation : Attestation) : Client * Error :=
  match noise_handshakestate_new_by_id client_protocol NOISE_ROLE_RESPONDER with
  | None => (c, Client_HandshakeState)
  | Some hs =>
  match noise_set_local_keypair hs dhstate with
  | None => (c, Client_CopyDHState)
  | Some hs =>
  match noise_handshakestate_start hs with
  | None => (c, Client_HandshakeStart)
  | Some hs =>
      let start := hs_start_ c in
      match noise_dhstate_get_public_key dhstate with
      | None => ({| c with hs_start_ := {| start with test_only_pubkey := replicate 32 0 |} |}, Client_ExtractPublicKey)
      | Some key =>
          ({| c with hs_start_ := {| test_only_pubkey := key; hs_evidence := evidence attestation;
                                     hs_endorsement := endorsements attestation |};
                     hs_ := Some hs |}, OK)
      end
  end end end.

(** [MovedHandshakeStart] moves the message out. *)
Definition MovedHandshakeStart (c : Client) : Client * ClientHandshakeStart :=
  ({| c with hs_start_ := ClientHandshakeStart_default |}, hs_start_ c).

Definition Handshaking (c : Client) : bool := bool_decide (is_Some (hs_ c)).

(** The handshake state changes in place, whatever comes of the call. *)
Definition FinishHandshake (c : Client) (data : bytes) : Client * (bytes * Error) :=
  match hs_ c, tx_ c, rx_ c with
  | Some hs, None, None =>
      if negb (bool_decide (noise_handshakestate_get_action hs = NOISE_ACTION_READ_MESSAGE))
      then (c, ([], Client_HandshakeState)) else
      match noise_handshakestate_read_message hs data with
      | None => (c, ([], Client_FinishReadHandshake))
      | Some hs =>
          let c := {| c with hs_ := Some hs |} in
          if negb (bool_decide (noise_handshakestate_get_action hs = NOISE_ACTION_WRITE_MESSAGE))
          then (c, ([], Client_HandshakeState)) else
          match noise_handshakestate_write_message hs with
          | None => (c, ([], Client_FinishWriteHandshake))
          | Some (buffer, hs) =>
              let c := {| c with hs_ := Some hs |} in
              if negb (bool_decide (noise_handshakestate_get_action hs = NOISE_ACTION_SPLIT))
              then (c, ([], Client_HandshakeState)) else
              match noise_handshakestate_split hs with
              | None => (c, ([], Client_FinishSplit))
              | Some (tx, rx) => ({| c with hs_ := None; tx_ := Some tx; rx_ := Some rx |}, (buffer, OK))
              end
          end
      end
  | _, _, _ => (c, ([], Client_HandshakeState))
  end.

(** [None]: [noise::Decrypt] or [Encrypt] left its buffer. *)
Definition DecryptRequest (c : Client) (data : bytes) (request : MessageLite) :
    option (Client * option MessageLite * Error) :=
  match hs_ c, tx_ c, rx_ c with
  | None, Some _, Some rx =>
      '(plaintext, err, rx) ← Decrypt rx data;
      let c := {| c with rx_ := Some rx |} in
      if negb (is_ok err) then Some (c, None, err) else
      match ParseDb request plaintext with
      | None => Some (c, None, Client_DecryptParse)
      | Some request => Some (c, Some request, OK)
      end
  | _, _, _ => Some (c, None, Client_DecryptState)
  end.

Definition EncryptResponse (c : Client) (response : MessageLite) : option (Client * (bytes * Error)) :=
  match hs_ c, tx_ c, rx_ c with
  | None, Some tx, Some _ =>
      match SerializeDb response with
      | None => Some (c, ([], Client_EncryptSerialize))
      | Some plaintext =>
          '(ciphertext, err, tx) ← Encrypt tx plaintext;
          Some ({| c with tx_ := Some tx |}, (ciphertext, err))
      end
  | _, _, _ => Some (c, ([], Client_EncryptState))
  end.

(** ** [ClientManager] *)
Record ClientManager := {
  cm_dhstate_ : option DHState;
  cm_attestation_ : Attestation;
  clients_ : gmap ClientID Client;
  id_gen : Z;            (* the process-wide counter *)
  keys_generated : nat;
  evidence_calls : nat }.

Definition NewDHState (n : nat) : option DHState := noise_dhstate_generate_keypair n.

Definition ClientManager_new (dhstate : option DHState) (keys evidence : nat) : ClientManager := {|
  cm_dhstate_ := dhstate; cm_attestation_ := Attestation_default; clients_ := ∅; id_gen := 1;
  keys_generated := keys; evidence_calls := evidence |}.

(** [ClientArgs]: [CloneDHState] of a null state is undefined behaviour. *)
Definition ClientArgs (m : ClientManager) : option (DHState * Attestation) :=
  d ← cm_dhstate_ m; Some (d, cm_attestation_ m).

Definition NewClient (m : ClientManager) (authenticated_id : bytes) : option (ClientManager * option ClientID * Error) :=
  let '(c, g) := Client_new (id_gen m) authenticated_id in
  let m := {| m with id_gen := g |} in
  '(dhstate, attestation) ← ClientArgs m;
  let '(c, err) := Client_Init c dhstate attestation in
  if negb (is_ok err) then Some (m, None, err) else
  Some ({| m with clients_ := <[id_ c := c]> (clients_ m) |}, Some (id_ c), OK).

Definition GetClient (m : ClientManager) (id : ClientID) : option Client := clients_ m !! id.

(** A call on a client the manager owns changes it in place. *)
Definition put_client (m : ClientManager) (id : ClientID) (c : Client) : ClientManager :=
  {| m with clients_ := <[id := c]> (clients_ m) |}.

Definition RemoveClient (m : ClientManager) (id : ClientID) : ClientManager * bool :=
  match clients_ m !! id with
  | None => (m, false)
  | Some _ => ({| m with clients_ := delete id (clients_ m) |}, true)
  end.

Definition GetAttestation (n : nat) (dhstate : DHState) (config : RaftGroupConfig) : Attestation * Error * nat :=
  match noise_dhstate_get_public_key dhstate with
  | None => (Attestation_default, Peers_NewKeyPublic, n)
  | Some key =>
      let att := {| att_public_key := key; att_group_config := Some config;
                    att_minimum_limits := []; att_minimum_values := [] |} in
      let '(a, err) := env_Evidence n att in (a, err, S n)
  end.

(** A failed key generation leaves a null state, which is then used. *)
Definition RotateKeyAndRefreshAttestation (m : ClientManager) (config : RaftGroupConfig) : option (ClientManager * Error) :=
  let dhstate := NewDHState (keys_generated m) in
  let m := {| m with keys_generated := S (keys_generated m) |} in
  d ← dhstate;
  let '(attestation, err, n) := GetAttestation (evidence_calls m) d config in
  let m := {| m with evidence_calls := n |} in
  if negb (is_ok err) then Some (m, err)
  else Some ({| m with cm_dhstate_ := Some d; cm_attestation_ := attestation |}, OK).

Definition RefreshAttestation (m : ClientManager) (config : RaftGroupConfig) : option (ClientManager * Error) :=
  '(d, _) ← ClientArgs m;
  let '(attestation, err, n) := GetAttestation (evidence_calls m) d config in
  let m := {| m with evidence_calls := n |} in
  if negb (is_ok err) then Some (m, err)
  else Some ({| m with cm_attestation_ := attestation; cm_dhstate_ := Some d |}, OK).
End client.
