(* ===== verification/Peers.v ===== *)
(** * Peer connections (peers/peers.h, peers/peers.cc)

    A [Peer] is the connection to one other replica: disconnected, connecting
    (a handshake was started and the [synack] is awaited) or connected.  The
    [PeerManager] owns the peers, this replica's key and its attestation.
    Messages for the host are returned in the order they are sent; locks are
    left out (every operation holds them throughout).  [None] is an aborted
    process. *)
From stdpp Require Import prelude gmap.
From S2P Require Import Prelude Errors Containers Util RaftTypes PeerId Minimums Msgs Noise.

Notation UnixSecs := Z.

Section peers.
Context {NP : NoisePlatform} {MP : MsgPlatform} {EV : Env}.

Record Peer := {
  peer_id_ : PeerID;
  handshake_ : option HandshakeState;
  peer_tx_ : option CipherState;
  tx_rekey_ : Z;
  peer_rx_ : option CipherState;
  rx_rekey_ : Z;
  last_attestation_ : UnixSecs;
  peer_minimums_ : Minimums.MinimumValues }.

Definition Peer_new (id : PeerID) : Peer := {|
  peer_id_ := id; handshake_ := None; peer_tx_ := None; tx_rekey_ := 0; peer_rx_ := None; rx_rekey_ := 0;
  last_attestation_ := 0; peer_minimums_ := [] |}.

Definition InternalCurrentState (p : Peer) : PeerState :=
  match handshake_ p, peer_tx_ p, peer_rx_ p with
  | Some _, _, _ => PEER_CONNECTING
  | None, Some _, Some _ => PEER_CONNECTED
  | _, _, _ => PEER_DISCONNECTED
  end.

Definition InternalDisconnect (p : Peer) : Peer := Peer_new (peer_id_ p).

Definition SendRst (id : PeerID) : EnclaveMessage :=
  mPeerMessage {| pm_peer_id := ToString id; pm_inner := pRst true |}.

Definition Peer_Disconnect (p : Peer) : Peer * list EnclaveMessage := (InternalDisconnect p, [SendRst (peer_id_ p)]).

Definition Peer_Send (p : Peer) (msg : EnclaveToEnclaveMessage) : option (Peer * list EnclaveMessage * Error) :=
  match handshake_ p, peer_tx_ p, peer_rx_ p with
  | None, Some tx, Some _ =>
      match SerializeE2E msg with
      | None => Some (p, [], Peers_EncryptSerialize)
      | Some serialized =>
          '(ciphertext, err, tx) ← Encrypt tx serialized;
          if negb (is_ok err) then Some (InternalDisconnect p, [SendRst (peer_id_ p)], err) else
          let n := u8 (tx_rekey_ p + 1) in
          let tx := if n =? 0 then noise_cipherstate_rekey tx else tx in
          Some ({| p with tx_rekey_ := n; peer_tx_ := Some tx |},
                [mPeerMessage {| pm_inner := pData ciphertext; pm_peer_id := ToString (peer_id_ p) |}], OK)
      end
  | _, _, _ => Some (p, [], Peers_SendBeforeConnect)
  end.

(** *** Handshakes *)
Definition Reset (p : Peer) (priv : DHState) (role : NoiseRole) : Peer * Error :=
  let p := InternalDisconnect p in
  match noise_handshakestate_new_by_id peer_to_peer_protocol role with
  | None => (p, Peers_HandshakeState)
  | Some hs =>
  match noise_set_local_keypair hs priv with
  | None => (p, Peers_CopyDHState)
  | Some hs =>
  match noise_set_remote_public_key hs (peer_id_ p) with
  | None => (p, Peers_SetRemotePublicKey)
  | Some hs =>
  match noise_handshakestate_start hs with
  | None => (p, Peers_HandshakeStart)
  | Some hs => ({| p with handshake_ := Some hs |}, OK)
  end end end end.

Definition InternalConnect (p : Peer) (priv : DHState) (attestation : Attestation) :
    option (Peer * list EnclaveMessage * Error) :=
  let '(p, err) := Reset p priv NOISE_ROLE_INITIATOR in
  if negb (is_ok err) then Some (p, [], err) else
  local_handshake ← handshake_ p;
  let p := {| p with handshake_ := None |} in
  if negb (bool_decide (noise_handshakestate_get_action local_handshake = NOISE_ACTION_WRITE_MESSAGE))
  then Some (p, [], Peers_HandshakeState) else
  match noise_handshakestate_write_message local_handshake with
  | None => Some (p, [], Peers_ConnectWriteHandshake)
  | Some (handshake, local_handshake) =>
      match SerializeConnect {| conn_attestation := attestation; conn_handshake := handshake |} with
      | None => Some (p, [], Peers_ConnectSerializeHandshake)
      | Some syn =>
          Some ({| p with handshake_ := Some local_handshake |},
                [mPeerMessage {| pm_peer_id := ToString (peer_id_ p); pm_inner := pSyn syn |}], OK)
      end
  end.

Definition MaybeConnect (p : Peer) (priv : DHState) (attestation : Attestation) :
    option (Peer * list EnclaveMessage * (bool * Error)) :=
  match InternalCurrentState p with
  | PEER_CONNECTING | PEER_CONNECTED => Some (p, [], (false, OK))
  | PEER_DISCONNECTED =>
      '(p, out, err) ← InternalConnect p priv attestation;
      Some (p, out, (true, err))
  end.

(** [time]: the group's time; [limits]: the minimums in force. *)
Definition FinishConnection (p : Peer) (time : UnixSecs) (limits : Minimums.MinimumLimits) (synack : bytes) :
    option (Peer * option EnclaveToEnclaveMessage * Error) :=
  hs ← handshake_ p;
  if negb (bool_decide (noise_handshakestate_get_action hs = NOISE_ACTION_READ_MESSAGE))
  then Some (p, None, Peers_HandshakeState) else
  let p := {| p with handshake_ := None |} in
  match ParseConnect synack with
  | None => Some (p, None, Peers_FinishParseHandshake)
  | Some conn =>
      '(att, att_err) ← env_Attest time (conn_attestation conn);
      if negb (is_ok att_err) then Some (p, None, att_err) else
      let '(key, key_err) := StringToByteArray 32 (att_public_key att) in
      if negb (is_ok key_err) then Some (p, None, key_err) else
      same ← ConstantTimeEquals key (peer_id_ p);
      if negb same then Some (p, None, Peers_FinishIDMismatch) else
      let min_err := CheckValues limits (att_minimum_values att) in
      if negb (is_ok min_err) then Some (p, None, min_err) else
      match noise_handshakestate_read_message hs (conn_handshake conn) with
      | None => Some (p, None, Peers_FinishReadHandshake)
      | Some hs =>
          if negb (bool_decide (noise_handshakestate_get_action hs = NOISE_ACTION_SPLIT))
          then Some (p, None, Peers_HandshakeState) else
          match noise_handshakestate_split hs with
          | None => Some (p, None, Peers_FinishSplit)
          | Some (tx, rx) =>
              Some ({| p with peer_minimums_ := att_minimum_values att; peer_tx_ := Some tx; peer_rx_ := Some rx;
                              tx_rekey_ := 0; rx_rekey_ := 0; last_attestation_ := time |},
                    Some (eConnected true), OK)
          end
      end
  end.

Definition Accept (p : Peer) (time : UnixSecs) (limits : Minimums.MinimumLimits) (priv : DHState)
    (attestation : Attestation) (syn : bytes) :
    option (Peer * list EnclaveMessage * option EnclaveToEnclaveMessage * Error) :=
  let '(p, err) := Reset p priv NOISE_ROLE_RESPONDER in
  if negb (is_ok err) then Some (p, [], None, err) else
  hs ← handshake_ p;
  let p := {| p with handshake_ := None |} in
  if negb (bool_decide (noise_handshakestate_get_action hs = NOISE_ACTION_READ_MESSAGE))
  then Some (p, [], None, Peers_HandshakeState) else
  match ParseConnect syn with
  | None => Some (p, [], None, Peers_AcceptParseHandshake)
  | Some conn =>
      '(att, att_err) ← env_Attest time (conn_attestation conn);
      if negb (is_ok att_err) then Some (p, [], None, att_err) else
      same ← ConstantTimeEquals (att_public_key att) (peer_id_ p);
      if negb same then Some (p, [], None, Peers_AcceptIDMismatch) else
      let min_err := CheckValues limits (att_minimum_values att) in
      if negb (is_ok min_err) then Some (p, [], None, min_err) else
      match noise_handshakestate_read_message hs (conn_handshake conn) with
      | None => Some (p, [], None, Peers_AcceptReadHandshake)
      | Some hs =>
      if negb (bool_decide (noise_handshakestate_get_action hs = NOISE_ACTION_WRITE_MESSAGE))
      then Some (p, [], None, Peers_HandshakeState) else
      match noise_handshakestate_write_message hs with
      | None => Some (p, [], None, Peers_AcceptWriteHandshake)
      | Some (handshake, hs) =>
      match SerializeConnect {| conn_attestation := attestation; conn_handshake := handshake |} with
      | None => Some (p, [], None, Peers_AcceptSerializeHandshake)
      | Some synack =>
      if negb (bool_decide (noise_handshakestate_get_action hs = NOISE_ACTION_SPLIT))
      then Some (p, [], None, Peers_HandshakeState) else
      match noise_handshakestate_split hs with
      | None => Some (p, [], None, Peers_AcceptSplit)
      | Some (tx, rx) =>
          Some ({| p with peer_minimums_ := att_minimum_values att; peer_tx_ := Some tx; peer_rx_ := Some rx;
                          tx_rekey_ := 0; rx_rekey_ := 0; last_attestation_ := time |},
                [mPeerMessage {| pm_peer_id := ToString (peer_id_ p); pm_inner := pSynack synack |}],
                Some (eConnected true), OK)
      end end end end
  end.

(** *** Messages received *)
Definition CheckNextAttestation (p : Peer) (now : UnixSecs) (a : Attestation) : option (Peer * Error) :=
  '(att, err) ← env_Attest now a;
  if negb (is_ok err) then Some (p, err) else
  same ← ConstantTimeEquals (att_public_key att) (peer_id_ p);
  if negb same then Some (p, Peers_AttestationKeyChanged)
  else Some ({| p with last_attestation_ := now; peer_minimums_ := att_minimum_values att |}, OK).

Definition Peer_Recv (p : Peer) (time : UnixSecs) (limits : Minimums.MinimumLimits) (msg : PeerMessage) :
    option (Peer * list EnclaveMessage * option EnclaveToEnclaveMessage * Error) :=
  let rst p err := Some (InternalDisconnect p, [SendRst (peer_id_ p)], None, err) in
  match pm_inner msg with
  | pSynack synack =>
      if negb (bool_decide (InternalCurrentState p = PEER_CONNECTING)) then rst p Peers_SynAckNotConnecting else
      '(p, decoded, err) ← FinishConnection p time limits synack;
      if negb (is_ok err) then rst p err else Some (p, [], decoded, OK)
  | pData data =>
      match handshake_ p, peer_tx_ p, peer_rx_ p with
      | None, Some _, Some rx =>
          '(plaintext, err, rx) ← Decrypt rx data;
          if negb (is_ok err) then rst p err else
          let n := u8 (rx_rekey_ p + 1) in
          let rx := if n =? 0 then noise_cipherstate_rekey rx else rx in
          let p := {| p with rx_rekey_ := n; peer_rx_ := Some rx |} in
          match ParseE2E plaintext with
          | None => Some (p, [], None, Peers_DecryptParse)
          | Some (eAttestationUpdate a) =>
              '(p, err) ← CheckNextAttestation p time a;
              if negb (is_ok err) then rst p err else Some (p, [], None, OK)
          | Some m => Some (p, [], Some m, OK)
          end
      | _, _, _ => Some (p, [], None, Peers_DataNotConnected)
      end
  | pRst _ => Some (InternalDisconnect p, [], None, OK)
  | pSyn _ => None
  | pNOT_SET => Some (p, [], None, Peers_InvalidMsg)
  end.

Definition MaybeDisconnectIfAttestationTooOld (p : Peer) (now attestation_timeout : UnixSecs) : Peer * list EnclaveMessage :=
  let state := InternalCurrentState p in
  if bool_decide (state = PEER_DISCONNECTED) ||
     ((now <=? last_attestation_ p + attestation_timeout) && (last_attestation_ p - attestation_timeout <=? now)) ||
     (bool_decide (state = PEER_CONNECTING) && (last_attestation_ p =? 0))
  then (p, []) else Peer_Disconnect p.

Definition PopulateConnectionStatus (p : Peer) : ConnectionStatus :=
  {| cst_state := InternalCurrentState p; cst_last_attestation_unix_secs := u64 (last_attestation_ p) |}.

Definition Peer_CheckMinimums (p : Peer) (limits : Minimums.MinimumLimits) : Error :=
  if negb (bool_decide (InternalCurrentState p = PEER_CONNECTED)) then OK
  else CheckValues limits (peer_minimums_ p).

(** ** [PeerManager]

    [peers_] is iterated in the order of the IDs (the order of the hash table
    is not specified). *)
Record PeerManager := {
  peers_ : list (PeerID * Peer);
  pm_dhstate_ : option DHState;
  pm_id_ : PeerID;
  most_recent_attestation_ : Attestation;
  init_success_ : bool;
  time_ : UnixSecs;
  pm_keys_generated : nat;
  pm_evidence_calls : nat }.

Definition PeerManager_new : PeerManager := {|
  peers_ := []; pm_dhstate_ := None; pm_id_ := PeerID_default; most_recent_attestation_ := Attestation_default;
  init_success_ := false; time_ := 0; pm_keys_generated := 0; pm_evidence_calls := 0 |}.

Definition ID (m : PeerManager) : PeerID := if init_success_ m then pm_id_ m else PeerID_default.

Definition PeerManager_Init (m : PeerManager) : PeerManager * Error :=
  match noise_dhstate_generate_keypair (pm_keys_generated m) with
  | None => (m, Peers_NewKeyGenerate)
  | Some dh =>
      let m := {| m with pm_keys_generated := S (pm_keys_generated m) |} in
      match noise_dhstate_get_public_key dh with
      | None => (m, Peers_NewKeyPublic)
      | Some public_key =>
          let data := {| att_public_key := ByteArrayToString public_key; att_group_config := None;
                         att_minimum_limits := []; att_minimum_values := [] |} in
          let '(e, err) := env_Evidence (pm_evidence_calls m) data in
          let m := {| m with pm_evidence_calls := S (pm_evidence_calls m) |} in
          if negb (is_ok err) then (m, err)
          else if init_success_ m then (m, Peers_ReInit)
          else ({| m with init_success_ := true; pm_dhstate_ := Some dh; pm_id_ := public_key;
                          most_recent_attestation_ := e |}, OK)
      end
  end.

Definition put_peer (m : PeerManager) (id : PeerID) (p : Peer) : PeerManager :=
  {| m with peers_ := map_set id p (peers_ m) |}.

Definition PeerManager_PeerState (m : PeerManager) (id : PeerID) : PeerState :=
  match map_find (peers_ m) id with None => PEER_DISCONNECTED | Some p => InternalCurrentState p end.

(** A loop over all peers, each of which may change and send. *)
Fixpoint each_peer (f : Peer -> option (Peer * list EnclaveMessage)) (ps : list (PeerID * Peer)) :
    option (list (PeerID * Peer) * list EnclaveMessage) :=
  match ps with
  | [] => Some ([], [])
  | (id, p) :: ps' =>
      '(p, out) ← f p;
      '(ps', out') ← each_peer f ps';
      Some ((id, p) :: ps', out ++ out')
  end.

Definition PeerManager_RefreshAttestation (m : PeerManager) : option (PeerManager * list EnclaveMessage * Error) :=
  let att := {| att_public_key := ByteArrayToString (ID m); att_group_config := None;
                att_minimum_limits := []; att_minimum_values := [] |} in
  let '(e, err) := env_Evidence (pm_evidence_calls m) att in
  let m := {| m with pm_evidence_calls := S (pm_evidence_calls m) |} in
  if negb (is_ok err) then Some (m, [], err) else
  let m := {| m with most_recent_attestation_ := e |} in
  '(ps, out) ← each_peer (fun p =>
      if bool_decide (InternalCurrentState p = PEER_CONNECTED)
      then '(p, out, _) ← Peer_Send p (eAttestationUpdate e); Some (p, out)
      else Some (p, [])) (peers_ m);
  Some ({| m with peers_ := ps |}, out, OK).

Definition CreatePeer (m : PeerManager) (id : PeerID) : PeerManager * Peer :=
  match map_find (peers_ m) id with
  | Some p => (m, p)
  | None => (put_peer m id (Peer_new id), Peer_new id)
  end.

Definition GetPeer (m : PeerManager) (id : PeerID) : option Peer := map_find (peers_ m) id.

Definition GetPeerOrRst (m : PeerManager) (id : PeerID) : option Peer * list EnclaveMessage :=
  match map_find (peers_ m) id with Some p => (Some p, []) | None => (None, [SendRst id]) end.

(** [CloneDHState] of a null state is undefined behaviour. *)
Definition ConnectionArgs (m : PeerManager) : option (DHState * Attestation) :=
  CHECK (init_success_ m) (d ← pm_dhstate_ m; Some (d, most_recent_attestation_ m)).

Definition ConnectToPeer (m : PeerManager) (to : PeerID) : option (PeerManager * list EnclaveMessage * Error) :=
  if negb (init_success_ m) then Some (m, [], Peers_NoInit) else
  let '(m, peer) := CreatePeer m to in
  '(dhstate, att) ← ConnectionArgs m;
  '(peer, out, err) ← InternalConnect peer dhstate att;
  Some (put_peer m to peer, out, err).

Definition MaybeConnectToPeer (m : PeerManager) (to : PeerID) : option (PeerManager * list EnclaveMessage * Error) :=
  if negb (init_success_ m) then Some (m, [], Peers_NoInit) else
  let '(m, peer) := CreatePeer m to in
  '(dhstate, att) ← ConnectionArgs m;
  '(peer, out, (_, err)) ← MaybeConnect peer dhstate att;
  Some (put_peer m to peer, out, err).

Definition PeerManager_ResetPeer (m : PeerManager) (to : PeerID) : PeerManager * list EnclaveMessage * Error :=
  if negb (init_success_ m) then (m, [], Peers_NoInit) else
  match GetPeerOrRst m to with
  | (None, out) => (m, out, Peers_ResetMissingPeer)
  | (Some peer, _) => let '(peer, out) := Peer_Disconnect peer in (put_peer m to peer, out, OK)
  end.

Definition SendToPeer (m : PeerManager) (to : PeerID) (msg : EnclaveToEnclaveMessage) :
    option (PeerManager * list EnclaveMessage * Error) :=
  if negb (init_success_ m) then Some (m, [], Peers_NoInit) else
  if match msg with eConnected true => true | _ => false end then Some (m, [], Peers_SendConnect) else
  match GetPeerOrRst m to with
  | (None, out) => Some (m, out, Peers_SendBeforeConnect)
  | (Some peer, _) =>
      '(peer, out, err) ← Peer_Send peer msg;
      Some (put_peer m to peer, out, err)
  end.

Definition RecvFromPeer (m : PeerManager) (limits : Minimums.MinimumLimits) (msg : PeerMessage) :
    option (PeerManager * list EnclaveMessage * option EnclaveToEnclaveMessage * Error) :=
  if negb (init_success_ m) then Some (m, [], None, Peers_NoInit) else
  let '(from, id_err) := FromString PeerID_default (pm_peer_id msg) in
  if negb (is_ok id_err) then Some (m, [], None, id_err) else
  match pm_inner msg with
  | pSyn syn =>
      let '(m, peer) := CreatePeer m from in
      '(dhstate, att) ← ConnectionArgs m;
      '(peer, out, decoded, err) ← Accept peer (time_ m) limits dhstate att syn;
      Some (put_peer m from peer, out, decoded, err)
  | inner =>
      let '(found, out) := match inner with pRst _ => (GetPeer m from, []) | _ => GetPeerOrRst m from end in
      match found with
      | None => Some (m, out, None, Peers_RecvBeforeConnect)
      | Some peer =>
          '(peer, out, decoded, err) ← Peer_Recv peer (time_ m) limits msg;
          Some (put_peer m from peer, out, decoded, err)
      end
  end.

Definition ConnectedPeers (m : PeerManager) : list PeerID :=
  set_of (List.filter (fun kp => bool_decide (InternalCurrentState kp.2 = PEER_CONNECTED)) (peers_ m)).*1.
Definition AllPeers (m : PeerManager) : list PeerID := set_of (peers_ m).*1.

Definition SetPeerAttestationTimestamp (m : PeerManager) (secs attestation_timeout : UnixSecs) :
    option (PeerManager * list EnclaveMessage) :=
  let old_secs := time_ m in
  let m := {| m with time_ := secs |} in
  if old_secs =? secs then Some (m, []) else
  '(ps, out) ← each_peer (fun p => Some (MaybeDisconnectIfAttestationTooOld p secs attestation_timeout)) (peers_ m);
  Some ({| m with peers_ := ps |}, out).

Definition MinimumsUpdated (m : PeerManager) (limits : Minimums.MinimumLimits) : option (PeerManager * list EnclaveMessage) :=
  '(ps, out) ← each_peer (fun p =>
      if negb (is_ok (Peer_CheckMinimums p limits)) then Some (Peer_Disconnect p) else Some (p, [])) (peers_ m);
  Some ({| m with peers_ := ps |}, out).

Fixpoint check_peers (ps : list (PeerID * Peer)) (to_check : Minimums.MinimumLimits) : Error :=
  match ps with
  | [] => OK
  | (_, p) :: ps' =>
      let err := Peer_CheckMinimums p to_check in
      if negb (is_ok err) then err else check_peers ps' to_check
  end.
Definition CheckPeerMinimums (m : PeerManager) (to_check : Minimums.MinimumLimits) : Error :=
  check_peers (peers_ m) to_check.

Definition PeerStatus (m : PeerManager) (id : PeerID) : option ConnectionStatus :=
  PopulateConnectionStatus <$> GetPeer m id.
End peers.
