(* ===== verification/PeersInv.v ===== *)
(** * The invariant of peer connections

    A connection that has keys was attested: the environment accepted, at the
    time recorded, evidence for the peer's ID and for the values recorded.
    Every operation returns and keeps this, whatever the host passes on,
    unless the environment ends the process while it checks an attestation. *)
From stdpp Require Import prelude gmap.
From S2P Require Import Prelude Errors Containers Util RaftTypes PeerId Minimums Msgs Noise Peers.

Section peers.
Context {NP : NoisePlatform} {NL : NoiseLaws} {MP : MsgPlatform} {EV : Env}.
(** Encryption returns, so does sending. *)
Lemma Encrypt_total cs p : exists ct err cs', Encrypt cs p = Some (ct, err, cs').
Proof.
  destruct (Encrypt_spec cs p) as (ps & _ & _ & _ & H).
  destruct (packets cs ps) as [[qs cs']|]; [|destruct H as [cs' H]]; rewrite H; eauto.
Qed.

Lemma Peer_Send_total p m : exists p' out err, Peer_Send p m = Some (p', out, err).
Proof.
  unfold Peer_Send. destruct (handshake_ p), (peer_tx_ p) as [tx|], (peer_rx_ p); eauto.
  destruct (SerializeE2E m) as [s|]; eauto.
  destruct (Encrypt_total tx s) as (ct & err & tx' & ->). simpl. destruct (negb (is_ok err)); eauto.
Qed.

Lemma SendToPeer_total m to msg : exists m' out err, SendToPeer m to msg = Some (m', out, err).
Proof.
  unfold SendToPeer. destruct (negb _); [eauto|]. destruct (match msg with eConnected true => true | _ => false end); [eauto|].
  unfold GetPeerOrRst. destruct (map_find _ _) as [p|]; [|eauto].
  destruct (Peer_Send_total p msg) as (p' & out & err & ->). simpl. eauto.
Qed.

Lemma each_peer_total (f : Peer -> option (Peer * list EnclaveMessage)) ps :
  (forall p, is_Some (f p)) -> is_Some (each_peer f ps).
Proof.
  intros Hf. induction ps as [|[id p] ps IH]; simpl; [eauto|].
  destruct (Hf p) as [[p' out] ->]. simpl. destruct IH as [[ps' out'] ->]. simpl. eauto.
Qed.

Lemma MinimumsUpdated_total m s : exists m' out, MinimumsUpdated m s = Some (m', out).
Proof.
  unfold MinimumsUpdated. match goal with |- context [each_peer ?f ?ps] =>
    destruct (each_peer_total f ps) as [[ps' out] ->] end; [|simpl; eauto].
  intros p. destruct (negb _); eauto.
Qed.

(** ** One connection *)
Implicit Types (p : Peer) (m : PeerManager) (id : PeerID).
#[local] Hint Extern 0 => match goal with H : None = Some _ |- _ => discriminate H end : core.

Definition attests id (att : AttestationData) : Prop := StringToByteArray 32 (att_public_key att) = (id, OK).

Definition attested p : Prop := exists a att, env_Attest (last_attestation_ p) a = Some (att, OK) /\
  attests (peer_id_ p) att /\ peer_minimums_ p = att_minimum_values att.

(** The attestation a message brings: with a handshake, or encrypted for the
    cipher state [rx] of the connection. *)
Definition brings (rx : option CipherState) (msg : PeerMessage) (a : Attestation) : Prop :=
  match pm_inner msg with
  | pSyn s | pSynack s => exists conn, ParseConnect s = Some conn /\ conn_attestation conn = a
  | pData d => exists cs cs' plaintext, rx = Some cs /\ Decrypt cs d = Some (plaintext, OK, cs') /\ ParseE2E plaintext = Some (eAttestationUpdate a)
  | _ => False
  end.
(** The environment ends the process while it checks the attestation. *)
Definition attest_aborts (rx : option CipherState) (time : UnixSecs) (msg : PeerMessage) : Prop :=
  exists a, brings rx msg a /\ env_Attest time a = None.
(** The cipher state for what the peer that a message names sends. *)
Definition peer_rx m (msg : PeerMessage) : option CipherState := map_find (peers_ m) (pm_peer_id msg) ≫= peer_rx_.

Record peer_ok id p : Prop := {
  po_id : peer_id_ p = id;
  po_len : peerid_ok id;
  po_keys : is_Some (peer_tx_ p) -> attested p }.

Lemma peer_new_ok id : peerid_ok id -> peer_ok id (Peer_new id).
Proof. intros Hi. split; [done..|]. by intros []. Qed.

Lemma disconnect_ok id p : peer_ok id p -> peer_ok id (InternalDisconnect p).
Proof. intros [<- Hi _]. by apply peer_new_ok. Qed.

(** A connection without keys. *)
Lemma no_keys_ok id p : peer_id_ p = id -> peerid_ok id -> peer_tx_ p = None -> peer_ok id p.
Proof. intros Hp Hi Ht. split; [done..|]. rewrite Ht. by intros []. Qed.

Lemma attests_same id att : peerid_ok id -> att_public_key att = id -> attests id att.
Proof.
  unfold attests, peerid_ok, StringToByteArray. intros Hl ->. rewrite (proj2 (Z.ltb_ge _ _)) by (unfold Zlen; lia).
  rewrite Hl. by rewrite app_nil_r.
Qed.

Lemma Reset_spec p priv role : exists p' err, Reset p priv role = (p', err) /\ peer_id_ p' = peer_id_ p /\ peer_tx_ p' = None /\
  (err = OK -> is_Some (handshake_ p')).
Proof.
  unfold Reset. repeat (case_match; [|by eexists _, _]).
  eexists _, _. split; [done|]. simpl. eauto.
Qed.

Lemma InternalConnect_ok id p priv att : peer_ok id p ->
  exists p' out err, InternalConnect p priv att = Some (p', out, err) /\ peer_ok id p'.
Proof.
  intros [Hid Hl _]. unfold InternalConnect. destruct (Reset_spec p priv NOISE_ROLE_INITIATOR) as (p1 & err & -> & E1 & E2 & E3).
  assert (Hok : forall q, peer_id_ q = peer_id_ p1 -> peer_tx_ q = None -> peer_ok id q) by (intros; apply no_keys_ok; congruence).
  destruct (is_ok err) eqn:E; simpl; [|eauto 10]. apply is_ok_spec in E. destruct (E3 E) as [hs ->]. simpl.
  destruct (negb _); [eauto 10|]. destruct (noise_handshakestate_write_message hs) as [[h hs']|]; [|eauto 10].
  destruct (SerializeConnect _); eauto 10.
Qed.

Lemma MaybeConnect_ok id p priv att : peer_ok id p ->
  exists p' out res, MaybeConnect p priv att = Some (p', out, res) /\ peer_ok id p'.
Proof.
  intros H. unfold MaybeConnect. destruct (InternalConnect_ok id p priv att H) as (p' & out & err & -> & H').
  destruct (InternalCurrentState p); simpl; eauto.
Qed.

Lemma FinishConnection_ok id p time limits synack msg : peer_ok id p -> is_Some (handshake_ p) -> pm_inner msg = pSynack synack ->
  match FinishConnection p time limits synack with
  | Some (p', d, err) => peer_ok id p' /\ (forall x, d = Some x -> is_Some (peer_tx_ p'))
  | None => attest_aborts (peer_rx_ p) time msg
  end.
Proof.
  intros Hp [hs Hh] Hmsg. unfold FinishConnection. rewrite Hh. simpl. destruct Hp as [Hid Hl Hk].
  assert (Hok : peer_ok id p) by done. assert (Hok' : peer_ok id {| p with handshake_ := None |}) by done.
  destruct (negb _); [done|]. destruct (ParseConnect synack) as [conn|] eqn:Hconn; [|done].
  destruct (env_Attest time (conn_attestation conn)) as [[att err]|] eqn:Ea; simpl.
  2:{ exists (conn_attestation conn). split; [|done]. unfold brings. rewrite Hmsg. eauto. }
  destruct (is_ok err) eqn:E; simpl; [|done].
  apply is_ok_spec in E as ->. destruct (StringToByteArray 32 (att_public_key att)) as [key kerr] eqn:Ek.
  destruct (is_ok kerr) eqn:E; simpl; [|done]. apply is_ok_spec in E as ->. rewrite ConstantTimeEquals_eq. simpl.
  case_bool_decide as Hkey; simpl; [|done]. destruct (is_ok (CheckValues _ _)); simpl; [|done].
  destruct (noise_handshakestate_read_message _ _) as [hs'|]; [|done]. destruct (negb _); [done|].
  destruct (noise_handshakestate_split hs') as [[tx rx]|]; [|done].
  split; [|by eauto]. split; [done|done|]. intros _. exists (conn_attestation conn), att. simpl. split_and!; [done| |done]. unfold attests. by rewrite Ek, Hkey.
Qed.

Lemma Accept_ok id p time limits priv att0 syn msg : peer_ok id p -> pm_inner msg = pSyn syn ->
  match Accept p time limits priv att0 syn with
  | Some (p', out, d, err) => peer_ok id p' /\ (forall x, d = Some x -> is_Some (peer_tx_ p'))
  | None => attest_aborts (peer_rx_ p) time msg
  end.
Proof.
  intros [Hid Hl _] Hmsg. unfold Accept. destruct (Reset_spec p priv NOISE_ROLE_RESPONDER) as (p1 & err & -> & E1 & E2 & E3).
  assert (Hok : forall q, peer_id_ q = peer_id_ p1 -> peer_tx_ q = None -> peer_ok id q) by (intros; apply no_keys_ok; congruence).
  assert (Hok' : forall q, peer_id_ q = peer_id_ p1 -> peer_tx_ q = None ->
    peer_ok id q /\ (forall x : EnclaveToEnclaveMessage, None = Some x -> is_Some (peer_tx_ q))) by (split; [auto|done]).
  destruct (is_ok err) eqn:E; simpl; [|auto]. apply is_ok_spec in E. destruct (E3 E) as [hs ->]. simpl.
  destruct (negb _); [auto|]. destruct (ParseConnect syn) as [conn|] eqn:Hconn; [|auto].
  destruct (env_Attest time (conn_attestation conn)) as [[att aerr]|] eqn:Ea; simpl.
  2:{ exists (conn_attestation conn). split; [|done]. unfold brings. rewrite Hmsg. eauto. }
  destruct (is_ok aerr) eqn:E'; simpl; [|auto].
  apply is_ok_spec in E' as ->. rewrite ConstantTimeEquals_eq. simpl. case_bool_decide as Hkey; simpl; [|auto].
  destruct (is_ok (CheckValues _ _)); simpl; [|auto]. destruct (noise_handshakestate_read_message _ _) as [hs1|]; [|auto].
  destruct (negb _); [auto|]. destruct (noise_handshakestate_write_message hs1) as [[h hs2]|]; [|auto].
  destruct (SerializeConnect _); [|auto]. destruct (negb _); [auto|].
  destruct (noise_handshakestate_split hs2) as [[tx rx]|]; [|auto].
  split; [|by eauto]. split; [simpl; congruence|done|]. intros _. exists (conn_attestation conn), att. simpl. split_and!; [done| |done].
  rewrite E1, Hid. apply attests_same; [done|congruence].
Qed.

Lemma Peer_Send_ok id p msg : peer_ok id p -> exists p' out err, Peer_Send p msg = Some (p', out, err) /\ peer_ok id p'.
Proof.
  intros H. unfold Peer_Send. destruct (handshake_ p); [by eauto|]. destruct (peer_tx_ p) as [tx|] eqn:Et; [|by eauto].
  destruct (peer_rx_ p); [|by eauto]. destruct (SerializeE2E msg) as [s|]; [|by eauto].
  destruct (Encrypt_total tx s) as (ct & err & tx' & ->). simpl. destruct (negb _); [eauto 10 using disconnect_ok|].
  eexists _, _, _. split; [done|]. destruct H as [? ? Hk]. rewrite Et in Hk. split; [done..|]. intros _. exact (Hk ltac:(eauto)).
Qed.

Lemma CheckNextAttestation_ok id p now a : peer_ok id p ->
  match CheckNextAttestation p now a with Some (p', err) => peer_ok id p' | None => env_Attest now a = None end.
Proof.
  intros H. unfold CheckNextAttestation. destruct (env_Attest now a) as [[att err]|] eqn:Ea; simpl; [|done].
  destruct (is_ok err) eqn:E; simpl; [|done]. apply is_ok_spec in E as ->. rewrite ConstantTimeEquals_eq. simpl.
  case_bool_decide as Hkey; simpl; [|done]. destruct H as [Hid Hl _]. split; [done..|].
  intros _. exists a, att. simpl. split_and!; [done| |done]. rewrite Hid. apply attests_same; [done|congruence].
Qed.

(** Everything but a new handshake, which [Accept] takes. *)
Lemma Peer_Recv_ok id p time limits msg : peer_ok id p -> (forall syn, pm_inner msg <> pSyn syn) ->
  match Peer_Recv p time limits msg with
  | Some (p', out, d, err) => peer_ok id p' /\ (forall x, d = Some x -> is_Some (peer_tx_ p'))
  | None => attest_aborts (peer_rx_ p) time msg
  end.
Proof.
  intros H Hs. pose proof (disconnect_ok _ _ H) as Hd. unfold Peer_Recv.
  destruct (pm_inner msg) as [syn|synack|data|b|] eqn:Em; [by destruct (Hs syn)| | |done|done].
  - destruct (bool_decide (_ = PEER_CONNECTING)) eqn:Ec; simpl; [|done]. apply bool_decide_eq_true in Ec.
    assert (is_Some (handshake_ p)) as Hh by (unfold InternalCurrentState in Ec; by repeat case_match; eauto).
    pose proof (FinishConnection_ok id p time limits synack msg H Hh Em) as Hf.
    destruct (FinishConnection p time limits synack) as [[[p' d] err]|]; simpl; [|done].
    destruct Hf as [Hf Hx]. destruct (negb _); [|done]. split; [by apply disconnect_ok|done].
  - destruct (handshake_ p) eqn:Eh; [done|]. destruct (peer_tx_ p) as [tx|] eqn:Et; [|done].
    destruct (peer_rx_ p) as [rx|]; [|done]. destruct (Decrypt_total rx data) as (pt & err & rx' & Edec). rewrite Edec. simpl.
    destruct (is_ok err) eqn:Eerr; simpl; [|done]. apply is_ok_spec in Eerr as ->. set (n := u8 _). set (rx1 := if n =? 0 then _ else _).
    match goal with |- context [Some (?q, [], None, Peers_DecryptParse)] => set (p1 := q) end.
    assert (H1 : peer_ok id p1) by (destruct H as [? ? Hk]; rewrite Et in Hk; split; [done..|intros _; exact (Hk ltac:(eauto))]).
    assert (Ht : is_Some (peer_tx_ p1)) by (simpl; eauto).
    destruct (ParseE2E pt) as [m|] eqn:Epm; [|done]. destruct m; try by eauto.
    pose proof (CheckNextAttestation_ok id p1 time a H1) as Hc.
    destruct (CheckNextAttestation p1 time a) as [[p2 e]|]; simpl.
    + destruct (negb _); [|done]. split; [by apply disconnect_ok|done].
    + exists a. split; [|done]. unfold brings. rewrite Em. eauto 10.
Qed.

Lemma too_old_ok id p now timeout : peer_ok id p -> peer_ok id (MaybeDisconnectIfAttestationTooOld p now timeout).1.
Proof. intros H. unfold MaybeDisconnectIfAttestationTooOld. case_match; [done|]. by apply disconnect_ok. Qed.
(** ** The manager *)
Definition peers_ok (ps : list (PeerID * Peer)) : Prop := Forall (fun kp => peer_ok kp.1 kp.2) ps.

Record pm_ok m : Prop := {
  mo_init : init_success_ m = true;
  mo_key : is_Some (pm_dhstate_ m);
  mo_peers : peers_ok (peers_ m) }.

Lemma Init_ok m : PeerManager_Init PeerManager_new = (m, OK) -> pm_ok m.
Proof.
  unfold PeerManager_Init. destruct (noise_dhstate_generate_keypair _); [|done]. destruct (noise_dhstate_get_public_key _); [|done].
  destruct (env_Evidence _ _) as [e err]. destruct (is_ok err) eqn:E; simpl; [|by intros [= _ ->]]. intros [= <-].
  split; simpl; [done|by eauto|constructor].
Qed.

Lemma find_ok m id p : pm_ok m -> map_find (peers_ m) id = Some p -> peer_ok id p.
Proof. intros [_ _ H] Hf%map_find_elem. unfold peers_ok in H. rewrite Forall_forall in H. exact (H _ Hf). Qed.

Lemma put_peer_ok m id p : pm_ok m -> peer_ok id p -> pm_ok (put_peer m id p).
Proof. intros [? ? ?] Hp. split; [done..|]. by apply Forall_map_set. Qed.

Lemma CreatePeer_ok m id : pm_ok m -> peerid_ok id -> exists m' p, CreatePeer m id = (m', p) /\ pm_ok m' /\ peer_ok id p.
Proof.
  intros H Hi. unfold CreatePeer. destruct (map_find (peers_ m) id) as [p|] eqn:E.
  - exists m, p. eauto using find_ok.
  - eauto 10 using put_peer_ok, peer_new_ok.
Qed.

Lemma ConnectionArgs_total m : pm_ok m -> exists d, ConnectionArgs m = Some (d, most_recent_attestation_ m).
Proof. intros [Hi [d Hd] _]. unfold ConnectionArgs. rewrite Hi, Hd. by exists d. Qed.

Lemma each_peer_ok (f : Peer -> option (Peer * list EnclaveMessage)) ps :
  (forall id p, peer_ok id p -> exists p' out, f p = Some (p', out) /\ peer_ok id p') -> peers_ok ps ->
  exists ps' out, each_peer f ps = Some (ps', out) /\ peers_ok ps'.
Proof.
  intros Hf Hps. induction Hps as [|[id p] ps Hp _ IH]; simpl; [by eexists _, _; split; [|constructor]|].
  destruct (Hf id p Hp) as (p' & out & -> & Hp'). destruct IH as (ps' & out' & -> & Hps'). simpl.
  eexists _, _. split; [done|]. by constructor.
Qed.

Lemma with_peers_ok m ps : pm_ok m -> peers_ok ps -> pm_ok {| m with peers_ := ps |}.
Proof. intros [? ? ?] Hp. by split. Qed.

(** *** What the rest of the enclave asks of the manager *)
Inductive PmEvent :=
  | pmConnect (to : PeerID)
  | pmMaybeConnect (to : PeerID)
  | pmReset (to : PeerID)
  | pmSend (to : PeerID) (msg : EnclaveToEnclaveMessage)
  | pmRecv (limits : Minimums.MinimumLimits) (msg : PeerMessage)
  | pmRefresh
  | pmTime (secs attestation_timeout : UnixSecs)
  | pmMinimums (limits : Minimums.MinimumLimits).

(** Peer IDs are arrays of 32 bytes, except in the host's messages. *)
Definition pm_event_ok (ev : PmEvent) : Prop :=
  match ev with pmConnect to | pmMaybeConnect to => peerid_ok to | _ => True end.

Definition pm_handle (m : PeerManager) (ev : PmEvent) : option (PeerManager * option (bytes * EnclaveToEnclaveMessage)) :=
  match ev with
  | pmConnect to => '(m, _, _) ← ConnectToPeer m to; Some (m, None)
  | pmMaybeConnect to => '(m, _, _) ← MaybeConnectToPeer m to; Some (m, None)
  | pmReset to => Some ((PeerManager_ResetPeer m to).1.1, None)
  | pmSend to msg => '(m, _, _) ← SendToPeer m to msg; Some (m, None)
  | pmRecv limits msg => '(m, _, decoded, _) ← RecvFromPeer m limits msg; Some (m, option_map (pair (pm_peer_id msg)) decoded)
  | pmRefresh => '(m, _, _) ← PeerManager_RefreshAttestation m; Some (m, None)
  | pmTime secs timeout => '(m, _) ← SetPeerAttestationTimestamp m secs timeout; Some (m, None)
  | pmMinimums limits => '(m, _) ← MinimumsUpdated m limits; Some (m, None)
  end.

Fixpoint pm_run (m : PeerManager) (evs : list PmEvent) : option PeerManager :=
  match evs with [] => Some m | ev :: evs' => '(m, _) ← pm_handle m ev; pm_run m evs' end.

(** A message is passed on only from a peer that has keys. *)
Definition passed_on m (got : option (bytes * EnclaveToEnclaveMessage)) : Prop :=
  forall from x, got = Some (from, x) -> exists p, map_find (peers_ m) from = Some p /\ is_Some (peer_tx_ p).

Lemma connect_ok m to : pm_ok m -> peerid_ok to -> exists m' out err, ConnectToPeer m to = Some (m', out, err) /\ pm_ok m'.
Proof.
  intros H Ht. unfold ConnectToPeer. rewrite (mo_init _ H). destruct (CreatePeer_ok m to H Ht) as (m1 & p & -> & H1 & Hp).
  destruct (ConnectionArgs_total m1 H1) as [d ->]. simpl.
  destruct (InternalConnect_ok to p d (most_recent_attestation_ m1) Hp) as (p' & out & err & -> & Hp'). simpl.
  eauto 10 using put_peer_ok.
Qed.

Lemma maybe_connect_ok m to : pm_ok m -> peerid_ok to -> exists m' out err, MaybeConnectToPeer m to = Some (m', out, err) /\ pm_ok m'.
Proof.
  intros H Ht. unfold MaybeConnectToPeer. rewrite (mo_init _ H). destruct (CreatePeer_ok m to H Ht) as (m1 & p & -> & H1 & Hp).
  destruct (ConnectionArgs_total m1 H1) as [d ->]. simpl.
  destruct (MaybeConnect_ok to p d (most_recent_attestation_ m1) Hp) as (p' & out & [b err] & -> & Hp'). simpl.
  eauto 10 using put_peer_ok.
Qed.

Lemma send_ok m to msg : pm_ok m -> exists m' out err, SendToPeer m to msg = Some (m', out, err) /\ pm_ok m'.
Proof.
  intros H. unfold SendToPeer. rewrite (mo_init _ H). simpl. destruct (match msg with eConnected true => true | _ => false end); [by eauto|].
  unfold GetPeerOrRst. destruct (map_find (peers_ m) to) as [p|] eqn:E; [|by eauto].
  destruct (Peer_Send_ok to p msg (find_ok _ _ _ H E)) as (p' & out & err & -> & Hp'). simpl. eauto 10 using put_peer_ok.
Qed.

Lemma put_passed_on m from p d : (forall x, d = Some x -> is_Some (peer_tx_ p)) -> passed_on (put_peer m from p) (option_map (pair from) d).
Proof.
  intros Hx f x Hd. destruct d as [y|]; [|done]. injection Hd as <- <-. exists p. split; [apply map_find_set_eq|eauto].
Qed.

(** Messages other than a new handshake. *)
Lemma recv_known_ok m limits msg p : pm_ok m -> (forall syn, pm_inner msg <> pSyn syn) ->
  map_find (peers_ m) (pm_peer_id msg) = Some p ->
  match ('(peer, out, decoded, err) ← Peer_Recv p (time_ m) limits msg;
         Some (put_peer m (pm_peer_id msg) peer, out, decoded, err)) with
  | Some (m', out, d, err) => pm_ok m' /\ passed_on m' (option_map (pair (pm_peer_id msg)) d)
  | None => attest_aborts (peer_rx m msg) (time_ m) msg
  end.
Proof.
  intros H Hs Hf. pose proof (Peer_Recv_ok _ p (time_ m) limits msg (find_ok _ _ _ H Hf) Hs) as Hr.
  destruct (Peer_Recv p (time_ m) limits msg) as [[[[p' out] d] err]|]; simpl; [|unfold peer_rx; by rewrite Hf].
  destruct Hr as [Hp' Hx]. eauto using put_peer_ok, put_passed_on.
Qed.

Lemma CreatePeer_time m id : time_ (CreatePeer m id).1 = time_ m.
Proof. unfold CreatePeer. by case_match. Qed.

Lemma recv_ok m limits msg : pm_ok m ->
  match RecvFromPeer m limits msg with
  | Some (m', out, d, err) => pm_ok m' /\ passed_on m' (option_map (pair (pm_peer_id msg)) d)
  | None => attest_aborts (peer_rx m msg) (time_ m) msg
  end.
Proof.
  intros H. unfold RecvFromPeer. rewrite (mo_init _ H). simpl.
  rewrite FromString_default. case_bool_decide as Hl; simpl; [|done].
  destruct (pm_inner msg) as [syn|synack|data|b|] eqn:Em.
  - pose proof (CreatePeer_time m (pm_peer_id msg)) as Ht.
    destruct (CreatePeer_ok m (pm_peer_id msg) H Hl) as (m1 & p & E & H1 & Hp). rewrite E in *. destruct (ConnectionArgs_total m1 H1) as [dh ->]. simpl in *.
    pose proof (Accept_ok _ p (time_ m1) limits dh (most_recent_attestation_ m1) syn msg Hp Em) as Ha. rewrite Ht in *.
    destruct (Accept _ _ _ _ _ _) as [[[[p' out] d] err]|]; simpl; [|unfold attest_aborts, brings in *; by rewrite Em in *]. destruct Ha as [Hp' Hx].
    eauto using put_peer_ok, put_passed_on.
  - unfold GetPeerOrRst. destruct (map_find _ _) eqn:Ef; [|done]. by apply recv_known_ok; [|rewrite Em|].
  - unfold GetPeerOrRst. destruct (map_find _ _) eqn:Ef; [|done]. by apply recv_known_ok; [|rewrite Em|].
  - unfold GetPeer. destruct (map_find _ _) eqn:Ef; [|done]. by apply recv_known_ok; [|rewrite Em|].
  - unfold GetPeerOrRst. destruct (map_find _ _) eqn:Ef; [|done]. by apply recv_known_ok; [|rewrite Em|].
Qed.

Lemma refresh_ok m : pm_ok m -> exists m' out err, PeerManager_RefreshAttestation m = Some (m', out, err) /\ pm_ok m'.
Proof.
  intros H. unfold PeerManager_RefreshAttestation. destruct (env_Evidence _ _) as [e err].
  assert (H' : forall n, pm_ok {| m with pm_evidence_calls := n |}) by (intros n; destruct H; by split).
  destruct (negb _); [by eauto|]. cbn [peers_].
  edestruct (fun f Hf => each_peer_ok f (peers_ m) Hf (mo_peers _ H)) as (ps & out & -> & Hps).
  { intros id p Hp. cbv beta. case_bool_decide; [|by eauto].
    destruct (Peer_Send_ok id p (eAttestationUpdate e) Hp) as (p' & out & serr & -> & Hp'). simpl. eauto. }
  simpl. eexists _, _, _. split; [done|]. destruct H. by split.
Qed.

Lemma time_ok m secs timeout : pm_ok m -> exists m' out, SetPeerAttestationTimestamp m secs timeout = Some (m', out) /\ pm_ok m'.
Proof.
  intros H. unfold SetPeerAttestationTimestamp. destruct (_ =? _).
  { eexists _, _. split; [done|]. destruct H. by split. }
  cbn [peers_]. edestruct (fun f Hf => each_peer_ok f (peers_ m) Hf (mo_peers _ H)) as (ps & out & -> & Hps).
  { intros id p Hp. cbv beta. pose proof (too_old_ok id p secs timeout Hp).
    destruct (MaybeDisconnectIfAttestationTooOld p secs timeout). eauto. }
  simpl. eexists _, _. split; [done|]. destruct H. by split.
Qed.

Lemma minimums_ok m limits : pm_ok m -> exists m' out, MinimumsUpdated m limits = Some (m', out) /\ pm_ok m'.
Proof.
  intros H. unfold MinimumsUpdated. edestruct (fun f Hf => each_peer_ok f (peers_ m) Hf (mo_peers _ H)) as (ps & out & -> & Hps).
  { intros id p Hp. cbv beta. case_match; unfold Peer_Disconnect; eauto using disconnect_ok. }
  simpl. eauto using with_peers_ok.
Qed.

Lemma reset_ok m to : pm_ok m -> pm_ok (PeerManager_ResetPeer m to).1.1.
Proof.
  intros H. unfold PeerManager_ResetPeer. rewrite (mo_init _ H). unfold GetPeerOrRst.
  destruct (map_find (peers_ m) to) eqn:E; [|done]. apply put_peer_ok; [done|]. by apply disconnect_ok, (find_ok m).
Qed.

(** The event ends the process: it brings an attestation that the environment
    does not survive. *)
Definition fatal m (ev : PmEvent) : Prop := match ev with pmRecv _ msg => attest_aborts (peer_rx m msg) (time_ m) msg | _ => False end.

Lemma pm_handle_ok m ev : pm_ok m -> pm_event_ok ev ->
  match pm_handle m ev with Some (m', got) => pm_ok m' /\ passed_on m' got | None => fatal m ev end.
Proof.
  intros H He. assert (Hno : forall m, passed_on m None) by done. unfold pm_handle. destruct ev; simpl in *.
  - destruct (connect_ok m to H He) as (? & ? & ? & -> & ?). simpl. eauto.
  - destruct (maybe_connect_ok m to H He) as (? & ? & ? & -> & ?). simpl. eauto.
  - auto using reset_ok.
  - destruct (send_ok m to msg H) as (? & ? & ? & -> & ?). simpl. eauto.
  - pose proof (recv_ok m limits msg H) as Hr. destruct (RecvFromPeer m limits msg) as [[[[? ?] ?] ?]|]; simpl; [|done]. exact Hr.
  - destruct (refresh_ok m H) as (? & ? & ? & -> & ?). simpl. eauto.
  - destruct (time_ok m secs attestation_timeout H) as (? & ? & -> & ?). simpl. eauto.
  - destruct (minimums_ok m limits H) as (? & ? & -> & ?). simpl. eauto.
Qed.

(** A run ends early only at such an event. *)
Lemma pm_run_ok evs m : pm_ok m -> Forall pm_event_ok evs ->
  match pm_run m evs with
  | Some m' => pm_ok m'
  | None => exists evs1 ev evs2 m', evs = evs1 ++ ev :: evs2 /\ pm_run m evs1 = Some m' /\ fatal m' ev
  end.
Proof.
  revert m. induction evs as [|ev evs IH]; intros m H Hevs; cbn [pm_run]; [done|]. inversion_clear Hevs as [|? ? He Hes].
  pose proof (pm_handle_ok m ev H He) as Hh. destruct (pm_handle m ev) as [[m1 got]|] eqn:E; cbn [mbind option_bind].
  - destruct Hh as [H1 _]. specialize (IH m1 H1 Hes). destruct (pm_run m1 evs); [done|].
    destruct IH as (evs1 & ev' & evs2 & m' & -> & Hr & Hf). exists (ev :: evs1), ev', evs2, m'.
    split; [done|]. split; [|done]. cbn [pm_run]. by rewrite E.
  - by exists [], ev, evs, m.
Qed.

(** ** A loop over all peers leaves what it ensures of each *)
Lemma each_peer_post (f : Peer -> option (Peer * list EnclaveMessage)) (P : Peer -> Prop) ps ps' out :
  (forall p p' out, f p = Some (p', out) -> P p') -> each_peer f ps = Some (ps', out) -> Forall (fun kp => P kp.2) ps'.
Proof.
  intros Hf. revert ps' out. induction ps as [|[id p] ps IH]; intros ps' out; simpl; [intros [= <- _]; constructor|].
  destruct (f p) as [[p1 o1]|] eqn:E; [|done]. simpl. destruct (each_peer f ps) as [[ps1 o2]|]; [|done]. simpl.
  intros [= <- _]. constructor; eauto.
Qed.

Lemma each_peer_post_keep (f : Peer -> option (Peer * list EnclaveMessage)) (P : Peer -> Prop) ps ps' out :
  (forall p p' out, f p = Some (p', out) -> P p -> P p') -> each_peer f ps = Some (ps', out) ->
  Forall (fun kp => P kp.2) ps -> Forall (fun kp => P kp.2) ps'.
Proof.
  intros Hf. revert ps' out. induction ps as [|[id p] ps IH]; intros ps' out; simpl; [intros [= <- _]; constructor|].
  destruct (f p) as [[p1 o1]|] eqn:E; [|done]. simpl. destruct (each_peer f ps) as [[ps1 o2]|]; [|done]. simpl.
  intros [= <- _] [Hp Hps]%Forall_cons. constructor; eauto.
Qed.

Definition connected p : Prop := InternalCurrentState p = PEER_CONNECTED.

Definition attestation_fresh (secs timeout : UnixSecs) p : Prop :=
  connected p -> last_attestation_ p - timeout <= secs <= last_attestation_ p + timeout.

Lemma too_old_fresh p secs timeout : attestation_fresh secs timeout (MaybeDisconnectIfAttestationTooOld p secs timeout).1.
Proof.
  unfold MaybeDisconnectIfAttestationTooOld, attestation_fresh, connected. destruct (_ || _) eqn:E; simpl; [|done]. intros Hc. rewrite Hc in E.
  rewrite !(bool_decide_eq_false_2 _) in E by done. zbool. lia.
Qed.

Lemma minimums_keep p limits : forall p' out,
  (if negb (is_ok (Peer_CheckMinimums p limits)) then Some (Peer_Disconnect p) else Some (p, [])) = Some (p', out) ->
  (connected p' -> CheckValues limits (peer_minimums_ p') = OK) /\ (forall secs timeout, attestation_fresh secs timeout p -> attestation_fresh secs timeout p').
Proof.
  intros p' out. destruct (is_ok _) eqn:E; simpl; intros [= <- _]; [|done]. split; [|done]. intros Hc.
  apply is_ok_spec in E. unfold Peer_CheckMinimums in E. unfold connected in Hc. by rewrite Hc in E.
Qed.

(** ** A connection carries messages in order

    [A] sends to [B]: their cipher states are paired, and so are the counters
    of their re-keying. *)
Definition channel (A B : Peer) : Prop :=
  exists tx rx, handshake_ A = None /\ peer_tx_ A = Some tx /\ is_Some (peer_rx_ A) /\
    handshake_ B = None /\ is_Some (peer_tx_ B) /\ peer_rx_ B = Some rx /\ paired tx rx /\ tx_rekey_ A = rx_rekey_ B.

(** Attestation updates are for the connection itself; at [time] the receiver
    accepts those that verify and name the sender. *)
Definition accepted (sender : PeerID) (time : UnixSecs) (msg : EnclaveToEnclaveMessage) : Prop :=
  match msg with
  | eAttestationUpdate a => exists att, env_Attest time a = Some (att, OK) /\ att_public_key att = sender
  | _ => True
  end.
Definition is_update (msg : EnclaveToEnclaveMessage) : bool := match msg with eAttestationUpdate _ => true | _ => false end.
(** What is passed on to the enclave. *)
Definition payloads (msgs : list EnclaveToEnclaveMessage) : list EnclaveToEnclaveMessage :=
  List.filter (fun msg => negb (is_update msg)) msgs.

(** The data in the messages for the host. *)
Definition data_of (out : list EnclaveMessage) : list bytes :=
  omap (fun x => match x with mPeerMessage {| pm_inner := pData d |} => Some d | _ => None end) out.

(** Sends messages up to the first error. *)
Fixpoint send_all (A : Peer) (msgs : list EnclaveToEnclaveMessage) : option (Peer * list bytes * Error) :=
  match msgs with
  | [] => Some (A, [], OK)
  | msg :: msgs' =>
      '(A, out, err) ← Peer_Send A msg;
      if negb (is_ok err) then Some (A, [], err) else
      '(A, packets, err) ← send_all A msgs';
      Some (A, data_of out ++ packets, err)
  end.

Fixpoint recv_all (B : Peer) (time : UnixSecs) (limits : Minimums.MinimumLimits) (packets : list bytes) :
    option (Peer * list EnclaveToEnclaveMessage) :=
  match packets with
  | [] => Some (B, [])
  | d :: packets' =>
      '(B, _, decoded, _) ← Peer_Recv B time limits {| pm_peer_id := []; pm_inner := pData d |};
      '(B, msgs) ← recv_all B time limits packets';
      Some (B, match decoded with Some x => x :: msgs | None => msgs end)
  end.

Context (parse_serialized : forall msg s, SerializeE2E msg = Some s -> ParseE2E s = Some msg).

Lemma channel_step A B msg time : channel A B -> accepted (peer_id_ B) time msg ->
  exists A' out err, Peer_Send A msg = Some (A', out, err) /\
    (err = OK -> exists d B', data_of out = [d] /\ channel A' B' /\ peer_id_ B' = peer_id_ B /\ forall limits,
      Peer_Recv B time limits {| pm_peer_id := []; pm_inner := pData d |} =
        Some (B', [], (if is_update msg then None else Some msg), OK)).
Proof.
  intros (tx & rx & HA1 & HA2 & [rxA HA3] & HB1 & [txB HB2] & HB3 & Hp & Hn) Hm.
  unfold Peer_Send, Peer_Recv. simpl. rewrite HA1, HA2, HA3, HB1, HB2, HB3.
  destruct (SerializeE2E msg) as [s|] eqn:Es; [|by eexists _, _, _].
  destruct (noise_roundtrip tx rx s Hp) as (c & err & tx' & -> & _ & Hr). simpl. destruct (is_ok err) eqn:E; simpl.
  2:{ eexists _, _, _. split; [done|]. intros ->. done. }
  apply is_ok_spec in E as ->. destruct (Hr eq_refl) as (_ & rx' & Hdec & Hp'). eexists _, _, _. split; [done|]. intros _.
  set (n := u8 (rx_rekey_ B + 1)). set (rx1 := if n =? 0 then noise_cipherstate_rekey rx' else rx').
  assert (Hpair : paired (if u8 (tx_rekey_ A + 1) =? 0 then noise_cipherstate_rekey tx' else tx') rx1).
  { unfold rx1, n. rewrite Hn. destruct (_ =? 0); [by apply rekey_paired|done]. }
  rewrite Hn in Hpair.
  destruct (is_update msg) eqn:Hu.
  - destruct msg as [| |a| | |]; try done. destruct Hm as (att & Hatt & Hkey).
    eexists _, {| B with rx_rekey_ := n; peer_rx_ := Some rx1; last_attestation_ := time; peer_minimums_ := att_minimum_values att |}.
    split; [done|]. split; [|split; [done|]].
    + eexists _, _. simpl. rewrite Hn. split_and!; eauto.
    + intros limits. rewrite Hdec. simpl. rewrite (parse_serialized _ _ Es). unfold CheckNextAttestation. rewrite Hatt. simpl.
      rewrite ConstantTimeEquals_eq. simpl. rewrite bool_decide_eq_true_2 by done. simpl. by rewrite HB1, HB2.
  - eexists _, {| B with rx_rekey_ := n; peer_rx_ := Some rx1 |}. split; [done|]. split; [|split; [done|]].
    + eexists _, _. simpl. rewrite Hn. split_and!; eauto.
    + intros limits. rewrite Hdec. simpl. rewrite (parse_serialized _ _ Es), HB1, HB2. by destruct msg.
Qed.

Lemma channel_run msgs A B time limits : channel A B -> Forall (accepted (peer_id_ B) time) msgs ->
  exists A' packets err B', send_all A msgs = Some (A', packets, err) /\
    recv_all B time limits packets = Some (B', payloads (take (length packets) msgs)) /\
    (err = OK -> length packets = length msgs /\ channel A' B').
Proof.
  revert A B. induction msgs as [|msg msgs IH]; intros A B H Hc; simpl; [by eauto 10|]. inversion_clear Hc as [|? ? Hm Hms].
  destruct (channel_step A B msg time H Hm) as (A1 & out & err & -> & Hs). simpl. destruct (is_ok err) eqn:E; simpl.
  2:{ eexists _, _, _, _. do 2 (split; [done|]). intros ->. done. }
  apply is_ok_spec in E as ->. destruct (Hs eq_refl) as (d & B1 & -> & H1 & Hid & Hrecv). rewrite <- Hid in Hms.
  destruct (IH A1 B1 H1 Hms) as (A2 & packets & err & B2 & -> & Hr & Hok). simpl. eexists _, _, _, B2. split; [done|].
  simpl. rewrite Hrecv. simpl. rewrite Hr. simpl. split; [by destruct (is_update msg)|]. intros He. destruct (Hok He) as [-> ?]. done.
Qed.
End peers.
