(* ===== verification/CoreState.v ===== *)
(** * The state of the core (core/core.h, core/internal.h)

    A [Core] owns the Merkle tree, the Raft state of [internal::Raft], the
    managers of peers and clients, the clock and the timeouts, and the tables
    of transactions in flight.  Callbacks are values: a constructor for every
    lambda, with the variables it captures.  Operations are in the monad [M]
    of functions from a [Core] to a [Core] and a result, or to [None], an
    aborted process; what is sent to the host is added to [sent].  One
    operation runs at a time: locks are left out. *)
From stdpp Require Import prelude gmap.
From S2P Require Import Prelude Errors Containers Util RaftTypes RaftLog PeerId Membership Merkle Raft.
From S2P Require Import ClientTypes Minimums GroupClock Timeout Database Msgs Noise Client Peers.

Notation TransactionID := Z.

(** A [uint64_t] converted to [time_t]. *)
Definition i64 (z : Z) : Z := if z <? 2 ^ 63 then z else z - 2 ^ 64.

(** ** Callbacks *)
Inductive LogTransactionCallback :=
  | LC_Client (client_id : ClientID) (tx : TransactionID)           (* ClientLogTransaction *)
  | LC_HostDatabaseRequest (tx : TransactionID)
  | LC_RelinquishLeadership (tx : TransactionID)
  | LC_UpdateMinimums (tx : TransactionID)
  | LC_RequestMembership (tx : TransactionID) (cancel : Cancel)
  | LC_PeerRequestedRemoval (from : PeerID) (tx : TransactionID).

Inductive E2ECallback :=
  | CB_PingPeer (tx : TransactionID)
  | CB_RequestVoting (tx : TransactionID)
  | CB_JoinRaft (tx : TransactionID) (peer : PeerID)
  | CB_Replication (from : PeerID) (tx : TransactionID)
  | CB_RequestMembership (tx : TransactionID) (cancel : Cancel)
  | CB_RequestedRemoval (peer : PeerID) (tx : TransactionID)
  | CB_ReplicationPush (push_state : nat) (last_sent_transaction : bool)
  | CB_RaftWrite (cb : LogTransactionCallback)
  | CB_SendTimestamp (unix_secs : Z) (to : PeerID).

Inductive TimeoutFn :=
  | TF_RequestMembership (tx : TransactionID)
  | TF_SendTimestampToAll
  | TF_E2ETransaction (tx : TransactionID) (to : PeerID).

(** ** core/core.h *)
Record LogTransaction := { lt_term : TermId; lt_cb : LogTransactionCallback; expected_hash_chain : bytes }.
Record E2ECall := { callback : E2ECallback; timeout_cancel : Cancel; call_to : PeerID }.
Record ReplicationPushState := {
  logs_from_idx_inclusive : LogIdx; db_from_key_exclusive : bytes; finished_sending : bool;
  push_target : PeerID; push_tx : TransactionID; ps_replication_id : Z; ps_replication_sequence : Z;
  sent_response : bool }.

Section core.
Context {T L D : Type} {MO : MerkleOps T L} {RP : RaftPlatform} {DB : Database T D}.
Context {NP : NoisePlatform} {MP : MsgPlatform} {EV : Env}.

(** ** core/internal.h; a null pointer is [None]. *)
Record WaitingForFirstConnection := { wf_peer : PeerID; wf_join_tx : TransactionID }.
Record Loading := {
  ld_group_config : RaftGroupConfig; ld_replica_group : ReplicaGroup; ld_log : option Log; ld_db : option D;
  ld_mem : option Membership; load_from : PeerID; ld_join_tx : TransactionID; started : bool;
  replication_id : Z; replication_sequence : Z; lexigraphically_largest_row_loaded_into_db : bytes }.
Record Loaded := {
  lo_group_config : RaftGroupConfig; lo_raft : option (Raft T L); lo_db : option D;
  db_last_applied_log : LogIdx; db_last_applied_log_leaf : option L }.
Record RaftHolder := {
  state : RaftState; waiting_for_first_connection : WaitingForFirstConnection;
  loading : Loading; loaded : Loaded }.

Definition Waiting_clear : WaitingForFirstConnection := {| wf_peer := PeerID_default; wf_join_tx := 0 |}.
Definition Loading_clear : Loading := {|
  ld_group_config := RaftGroupConfig_default; ld_replica_group := []; ld_log := None; ld_db := None;
  ld_mem := None; load_from := PeerID_default; ld_join_tx := 0; started := false;
  replication_id := 0; replication_sequence := 0; lexigraphically_largest_row_loaded_into_db := [] |}.
Definition Loaded_clear : Loaded := {|
  lo_group_config := RaftGroupConfig_default; lo_raft := None; lo_db := None;
  db_last_applied_log := 0; db_last_applied_log_leaf := None |}.
Definition RaftHolder_clear : RaftHolder := {|
  state := RAFTSTATE_NO_STATE; waiting_for_first_connection := Waiting_clear;
  loading := Loading_clear; loaded := Loaded_clear |}.

(** ** [class Core].  [push_states] holds the objects that callbacks share by
    [std::shared_ptr]; the counters number the calls of the random sources. *)
Record Core := {
  enclave_config_ : EnclaveConfig;
  raft_config_template_ : RaftGroupConfig;
  minimums_ : Minimums.MinimumLimits;
  peer_manager_ : PeerManager;
  client_manager_ : ClientManager;
  merkle_tree_ : T;
  raft_ : RaftHolder;
  clock_ : Clock;
  timeout_ : Timeout TimeoutFn;
  outstanding_log_transactions_ : list (LogIdx * LogTransaction);
  e2e_txn_id_ : TransactionID;
  outstanding_e2e_transactions_ : gmap TransactionID E2ECall;
  push_states : gmap nat ReplicationPushState;
  push_states_made : nat;
  random_calls : nat;
  new_keys : nat;
  log_level_ : Z;
  sent : list EnclaveMessage }.

(** ** The monad *)
Definition M (A : Type) : Type := Core -> option (Core * A).
#[global] Instance M_ret : MRet M := fun A a c => Some (c, a).
#[global] Instance M_bind : MBind M := fun A B f m c => match m c with Some (c', a) => f a c' | None => None end.

Definition get : M Core := fun c => Some (c, c).
Definition modify (f : Core -> Core) : M unit := fun c => Some (f c, tt).
Definition lift {A} (o : option A) : M A := fun c => match o with Some a => Some (c, a) | None => None end.
Definition check (b : bool) : M unit := lift (if b then Some tt else None).
Definition emit (ms : list EnclaveMessage) : M unit := modify (fun c => {| c with sent := sent c ++ ms |}).
Fixpoint for_each {A} (l : list A) (f : A -> M unit) : M unit :=
  match l with
  | [] => mret tt
  | a :: l' => f a;; for_each l' f
  end.

(** *** Parts of the state *)
Definition set_raft (h : RaftHolder) : M unit := modify (fun c => {| c with raft_ := h |}).
Definition set_state (s : RaftState) : M unit :=
  modify (fun c => let h := raft_ c in {| c with raft_ := {| h with state := s |} |}).
Definition set_loading (l : Loading) : M unit :=
  modify (fun c => let h := raft_ c in {| c with raft_ := {| h with loading := l |} |}).
Definition set_loaded (l : Loaded) : M unit :=
  modify (fun c => let h := raft_ c in {| c with raft_ := {| h with loaded := l |} |}).
Definition set_tree (t : T) : M unit := modify (fun c => {| c with merkle_tree_ := t |}).

(** [raft_.loaded.raft], with the tree it points to. *)
Definition get_raft : M (Raft T L) :=
  c ← get;
  r ← lift (lo_raft (loaded (raft_ c)));
  mret {| r with merkle_ := merkle_tree_ c |}.
Definition put_raft (r : Raft T L) : M unit :=
  modify (fun c =>
    let h := raft_ c in let l := loaded h in
    {| c with merkle_tree_ := merkle_ r; raft_ := {| h with loaded := {| l with lo_raft := Some r |} |} |}).
Definition on_raft (f : Raft T L -> option (Raft T L)) : M unit :=
  r ← get_raft; r' ← lift (f r); put_raft r'.
Definition on_raft_with {A} (f : Raft T L -> option (Raft T L * A)) : M A :=
  r ← get_raft; '(r', a) ← lift (f r); put_raft r';; mret a.

Definition loaded_state (s : RaftState) : bool :=
  bool_decide (s = RAFTSTATE_LOADED_PART_OF_GROUP) || bool_decide (s = RAFTSTATE_LOADED_REQUESTING_MEMBERSHIP).

(** *** Peers and clients *)
Definition on_peers (f : PeerManager -> option (PeerManager * list EnclaveMessage * Error)) : M Error :=
  c ← get;
  '(pm, out, err) ← lift (f (peer_manager_ c));
  modify (fun c => {| c with peer_manager_ := pm |});; emit out;; mret err.
Definition pm_SendToPeer (to : PeerID) (msg : EnclaveToEnclaveMessage) : M Error :=
  on_peers (fun pm => SendToPeer pm to msg).
Definition set_clients (cm : ClientManager) : M unit := modify (fun c => {| c with client_manager_ := cm |}).
Definition cm_RemoveClient (id : ClientID) : M unit :=
  c ← get; set_clients (RemoveClient (client_manager_ c) id).1.

(** *** Destruction of what the tree's leaves belong to *)
Definition Raft_destroy (t : T) (r : Raft T L) : option T :=
  t ← leaf_drop t (promise_leaf_ r); leaf_drop t (commit_leaf_ r).
Definition destroy_opt {A} (f : T -> A -> option T) (t : T) (o : option A) : option T :=
  match o with Some a => f t a | None => Some t end.
Definition Loading_destroy (t : T) (l : Loading) : option T := destroy_opt db_destroy t (ld_db l).
Definition Loaded_destroy (t : T) (l : Loaded) : option T :=
  t ← destroy_opt Raft_destroy t (lo_raft l);
  t ← destroy_opt db_destroy t (lo_db l);
  destroy_opt leaf_drop t (db_last_applied_log_leaf l).

(** [internal::Raft::ClearState]. *)
Definition ClearState : M unit :=
  c ← get;
  t ← lift (Loading_destroy (merkle_tree_ c) (loading (raft_ c)));
  t ← lift (Loaded_destroy t (loaded (raft_ c)));
  set_tree t;; set_raft RaftHolder_clear.
End core.
Arguments Loading : clear implicits.
Arguments Loaded : clear implicits.
Arguments RaftHolder : clear implicits.
Arguments Core T L D {NP}.
Arguments M T L D {NP} A.
