(* ===== verification/Core.v ===== *)
(** * The core (core/core.cc)

    Configuration, log transactions, transactions between enclaves, time, and
    the handling of committed logs; replication and joining are in
    CoreReplicate.v, messages in CoreHandlers.v and CoreHost.v.  A callback
    that gets an error never starts another transaction, so
    [SendE2ETransaction] may call it inline ([e2e_error]) without recursion. *)
From stdpp Require Import prelude gmap.
From S2P Require Import Prelude Errors Containers Util RaftTypes RaftLog PeerId Membership Merkle Raft.
From S2P Require Import ClientTypes Minimums GroupClock Timeout Database Msgs Noise Client Peers CoreState.

(** ** Configuration *)
Definition RaftGroupConfigsEqualExceptForGroupID (a b : RaftGroupConfig) : bool :=
  (min_voting_replicas a =? min_voting_replicas b) &&
  (max_voting_replicas a =? max_voting_replicas b) &&
  (super_majority a =? super_majority b) &&
  bool_decide (db_version a = db_version b) &&
  (attestation_timeout a =? attestation_timeout b) &&
  eqb (simulated a) (simulated b).

Definition ValidateRaftGroupConfig (c : RaftGroupConfig) : Error :=
  if max_voting_replicas c <? min_voting_replicas c then Core_RaftGroupConfigMinReplicasGreaterThanMaxReplicas
  else if min_voting_replicas c <? 1 then Core_RaftGroupConfigMinReplicasTooSmall
  else if attestation_timeout c <? 1 then Core_RaftGroupConfigAttestationTimeoutTooSmall
  else match P (db_version c) with None => Core_DBVersionInvalid | Some _ => OK end.

Definition DefaultEnclaveConfig : EnclaveConfig := {|
  e2e_txn_timeout_ticks := 60; send_timestamp_ticks := 0;
  raft_config := {| election_ticks := 32; heartbeat_ticks := 15; replication_chunk_bytes := 2 ^ 20;
    replica_voting_timeout_ticks := 60; replica_membership_timeout_ticks := 300;
    log_max_bytes := 2 ^ 30; replication_pipeline := 4 |} |}.

(** [MergeFrom]: a field that is zero in [b] is not set. *)
Definition merge_field (a b : Z) : Z := if b =? 0 then a else b.
Definition merge_raft (a b : RaftConfig) : RaftConfig := {|
  election_ticks := merge_field (election_ticks a) (election_ticks b);
  heartbeat_ticks := merge_field (heartbeat_ticks a) (heartbeat_ticks b);
  replication_chunk_bytes := merge_field (replication_chunk_bytes a) (replication_chunk_bytes b);
  replica_voting_timeout_ticks := merge_field (replica_voting_timeout_ticks a) (replica_voting_timeout_ticks b);
  replica_membership_timeout_ticks :=
    merge_field (replica_membership_timeout_ticks a) (replica_membership_timeout_ticks b);
  log_max_bytes := merge_field (log_max_bytes a) (log_max_bytes b);
  replication_pipeline := merge_field (replication_pipeline a) (replication_pipeline b) |}.
Definition merge_config (a b : EnclaveConfig) : EnclaveConfig := {|
  raft_config := merge_raft (raft_config a) (raft_config b);
  e2e_txn_timeout_ticks := merge_field (e2e_txn_timeout_ticks a) (e2e_txn_timeout_ticks b);
  send_timestamp_ticks := merge_field (send_timestamp_ticks a) (send_timestamp_ticks b) |}.

Definition ValidateConfig (config : EnclaveConfig) : Error :=
  let raft := raft_config config in
  if election_ticks raft =? 0 then Config_ElectionTicks
  else if election_ticks raft <=? heartbeat_ticks raft then Config_HeartbeatVsElectionTicks
  else if replication_chunk_bytes raft <? 1024 then Config_ReplicationChunk
  else if replica_voting_timeout_ticks raft <=? election_ticks raft then Config_ReplicaTimeout
  else if replica_membership_timeout_ticks raft <=? replica_voting_timeout_ticks raft then Config_ReplicaTimeout
  else if log_max_bytes raft <? 1024 then Config_LogMaxBytes
  else if (replication_pipeline raft <=? 0) || (2 ^ 32 - 1 <=? replication_pipeline raft) then Config_ReplicationPipeline
  else if e2e_txn_timeout_ticks config <? 1 then Config_E2ETransactionTimeout
  else OK.
Definition ValidateConfigChange (old_config new_config : EnclaveConfig) : Error := ValidateConfig new_config.

Definition ContainsMe (me : PeerID) (group : ReplicaGroup) : bool :=
  existsb (fun replica => bool_decide (replica_peer_id replica = ToString me)) group.

Section core.
Context {T L D : Type} {MO : MerkleOps T L} {RP : RaftPlatform} {DB : Database T D}.
Context {NP : NoisePlatform} {MP : MsgPlatform} {EV : Env}.
Notation M := (M T L D).

(** ** Replies *)
Definition ReplyWithError (tx : TransactionID) (err : Error) : M unit := emit [mH2EResponse tx (oStatus err)].

Definition SendE2EError (from : PeerID) (id : TransactionID) (err : Error) : M Error :=
  pm_SendToPeer from (eTransactionResponse {| txr_request_id := id; txr_inner := sStatus err |}).

(** ** Log transactions *)
Definition AddLogTransaction (loc : LogLocation) (cb : LogTransactionCallback) : M unit :=
  let log_tx := {| lt_term := loc_term loc; lt_cb := cb; expected_hash_chain := loc_hash_chain loc |} in
  modify (fun c => {| c with outstanding_log_transactions_ := outstanding_log_transactions_ c ++ [(loc_idx loc, log_tx)] |}).

(** The callback that [ClientLogTransaction] returns. *)
Definition ClientLogTransaction (client_id : ClientID) (tx : TransactionID) (err : Error) (response : option MessageLite) :
    M unit :=
  if bool_decide (err = Core_LogTransactionCancelled) then
    ReplyWithError tx Client_TransactionCancelled;; cm_RemoveClient client_id
  else if negb (is_ok err) then
    ReplyWithError tx err;; cm_RemoveClient client_id
  else match response with
  | None => ReplyWithError tx Client_TransactionInvalid;; cm_RemoveClient client_id
  | Some response =>
      c ← get;
      match GetClient (client_manager_ c) client_id with
      | None => ReplyWithError tx Client_AlreadyClosed;; cm_RemoveClient client_id
      | Some client =>
          '(client, (ciphertext, encrypt_err)) ← lift (EncryptResponse client response);
          set_clients (put_client (client_manager_ c) client_id client);;
          if negb (is_ok encrypt_err) then ReplyWithError tx encrypt_err;; cm_RemoveClient client_id
          else emit [mH2EResponse tx (oExistingClientReply ciphertext false)]
      end
  end.

Definition log_callback (cb : LogTransactionCallback) (err : Error) (response : option MessageLite) : M unit :=
  match cb with
  | LC_Client client_id tx => ClientLogTransaction client_id tx err response
  | LC_HostDatabaseRequest tx | LC_RelinquishLeadership tx | LC_UpdateMinimums tx => ReplyWithError tx err
  | LC_RequestMembership tx cancel =>
      (if is_ok err then modify (fun c => {| c with timeout_ := CancelTimeout (timeout_ c) cancel |}) else mret tt);;
      ReplyWithError tx err
  | LC_PeerRequestedRemoval from tx => SendE2EError from tx err;; mret tt
  end.

(** ** Enclave-to-enclave transactions *)
Definition set_push_state (id : nat) (ps : ReplicationPushState) : M unit :=
  modify (fun c => {| c with push_states := <[id := ps]> (push_states c) |}).

(** What a callback does with an error. *)
Definition e2e_error (cb : E2ECallback) (err : Error) : M unit :=
  match cb with
  | CB_PingPeer tx | CB_RequestVoting tx | CB_JoinRaft tx _ | CB_Replication _ tx | CB_RequestedRemoval _ tx =>
      ReplyWithError tx err
  | CB_RequestMembership _ _ | CB_SendTimestamp _ _ => mret tt
  | CB_RaftWrite cb => log_callback cb err None
  | CB_ReplicationPush id _ =>
      c ← get;
      ps ← lift (push_states c !! id);
      if sent_response ps then mret tt else
      set_push_state id {| ps with sent_response := true |};;
      SendE2EError (push_target ps) (push_tx ps) err;; mret tt
  end.

Definition SendE2ETransaction (to : PeerID) (req : TransactionInner) (with_timeout : bool) (cb : E2ECallback) : M unit :=
  c ← get;
  let tx := e2e_txn_id_ c ⊕ 1 in
  modify (fun c => {| c with e2e_txn_id_ := tx |});;
  err ← pm_SendToPeer to (eTransactionRequest {| txn_request_id := tx; txn_inner := req |});
  if negb (is_ok err) then e2e_error cb err else
  tc ← (if with_timeout then
          c ← get;
          '(s, tc) ← lift (SetTimeout (timeout_ c) (e2e_txn_timeout_ticks (enclave_config_ c)) (TF_E2ETransaction tx to));
          modify (fun c => {| c with timeout_ := s |});; mret tc
        else mret Cancel_none);
  modify (fun c => {| c with outstanding_e2e_transactions_ :=
    <[tx := {| callback := cb; timeout_cancel := tc; call_to := to |}]> (outstanding_e2e_transactions_ c) |}).

(** ** Time *)
Definition SendTimestamp (to : PeerID) (unix_secs : Z) : M unit :=
  SendE2ETransaction to (tNewTimestampUnixSecs (u64 unix_secs)) true (CB_SendTimestamp unix_secs to).

Definition SendTimestampToAll : M unit :=
  c ← get;
  for_each (ConnectedPeers (peer_manager_ c)) (fun peer => c ← get; SendTimestamp peer (GetLocalTime (clock_ c)));;
  c ← get;
  let next := Z.max 1 (send_timestamp_ticks (enclave_config_ c)) in
  '(s, _) ← lift (SetTimeout (timeout_ c) next TF_SendTimestampToAll);
  modify (fun c => {| c with timeout_ := s |}).

Definition pm_SetPeerAttestationTimestamp (secs timeout : Z) : M unit :=
  on_peers (fun pm => '(pm, out) ← SetPeerAttestationTimestamp pm secs timeout; Some (pm, out, OK));; mret tt.

Definition MaybeUpdateGroupTime : M unit :=
  c ← get;
  peers ← match state (raft_ c) with
          | RAFTSTATE_LOADED_PART_OF_GROUP | RAFTSTATE_LOADED_REQUESTING_MEMBERSHIP =>
              r ← get_raft; mret (voting_replicas_ (membership r))
          | RAFTSTATE_LOADING => m ← lift (ld_mem (loading (raft_ c))); mret (voting_replicas_ m)
          | _ => mret (ConnectedPeers (peer_manager_ c))
          end;
  ts ← lift (GetTime (clock_ c) peers);
  pm_SetPeerAttestationTimestamp ts (attestation_timeout (raft_config_template_ c)).

Definition HandleNewTimestamp (from : PeerID) (unix_secs : Z) : M unit :=
  modify (fun c => {| c with clock_ := SetRemoteTime (clock_ c) from (i64 unix_secs) |});;
  MaybeUpdateGroupTime.

(** ** The last applied index and its Merkle leaf *)
Definition VerifyLastAppliedLog : M Error :=
  c ← get;
  let l := loaded (raft_ c) in
  leaf ← lift (db_last_applied_log_leaf l);
  lift (leaf_verify (merkle_tree_ c) leaf (BigEndian64Bytes (db_last_applied_log l))).

Definition UpdateLastAppliedLog (idx : LogIdx) : M unit :=
  c ← get;
  let l := loaded (raft_ c) in
  leaf ← lift (db_last_applied_log_leaf l);
  set_loaded {| l with db_last_applied_log := idx |};;
  t ← lift (leaf_update (merkle_tree_ c) leaf (BigEndian64Bytes idx));
  set_tree t.

(** ** Committed logs *)
Definition HandleRaftMembershipChange (idx : LogIdx) (term : TermId) (membership_change : ReplicaGroup) : M unit :=
  c ← get;
  match state (raft_ c) with
  | RAFTSTATE_LOADED_PART_OF_GROUP =>
      r ← get_raft;
      if negb (ContainsMe (me_ r) membership_change) then
        set_state RAFTSTATE_LOADED_REQUESTING_MEMBERSHIP;;
        for_each (outstanding_log_transactions_ c) (fun '(_, log_tx) => log_callback (lt_cb log_tx) Core_RemovedFromRaft None);;
        modify (fun c => {| c with outstanding_log_transactions_ := [] |})
      else mret tt
  | RAFTSTATE_LOADED_REQUESTING_MEMBERSHIP =>
      r ← get_raft;
      if ContainsMe (me_ r) membership_change then set_state RAFTSTATE_LOADED_PART_OF_GROUP else mret tt
  | _ => lift None
  end.

Definition HandleRaftMinimumsChange (idx : LogIdx) (term : TermId) (minimums : gmap bytes bytes) : M unit :=
  c ← get;
  let '(s, err) := UpdateLimits (minimums_ c) (map_to_list minimums) in
  check (is_ok err);;
  modify (fun c => {| c with minimums_ := s |});;
  on_peers (fun pm => '(pm, out) ← MinimumsUpdated pm s; Some (pm, out, OK));; mret tt.

(** [committed_entry.data()] is empty unless the entry holds data. *)
Definition entry_data (e : LogEntry) : bytes := match entry_inner e with kData d => d | _ => [] end.

Definition RaftApplyLogToDatabase (idx : LogIdx) (committed_entry : LogEntry) : M (option MessageLite) :=
  match ParseDb db_LogPB (entry_data committed_entry) with
  | None => mret None
  | Some client_log =>
      if negb (is_ok (db_ValidateClientLog client_log)) then mret None else
      c ← get;
      let l := loaded (raft_ c) in
      d ← lift (lo_db l);
      '(t, d, resp) ← lift (db_Run (merkle_tree_ c) d client_log);
      set_tree t;; set_loaded {| l with lo_db := Some d |};; mret (Some resp)
  end.

Definition HandleLogTransactionsForRaftLog (idx : LogIdx) (entry : LogEntry) (response : option MessageLite) : M unit :=
  c ← get;
  let txs := List.filter (fun p => p.1 =? idx) (outstanding_log_transactions_ c) in
  for_each txs (fun '(_, log_tx) =>
    if negb (lt_term log_tx =? entry_term entry) then
      log_callback (lt_cb log_tx) Core_LogTransactionCancelled None
    else if (0 <? Zlen (expected_hash_chain log_tx)) && negb (ct_equals (expected_hash_chain log_tx) (hash_chain entry)) then
      log_callback (lt_cb log_tx) Core_InvalidLogTransactionHashChain None
    else log_callback (lt_cb log_tx) OK response);;
  modify (fun c => {| c with outstanding_log_transactions_ :=
    List.filter (fun p => negb (p.1 =? idx)) (outstanding_log_transactions_ c) |}).

(** One turn of the loop, for a log that was taken. *)
Definition apply_committed (idx : LogIdx) (entry : LogEntry) : M unit :=
  err ← VerifyLastAppliedLog;
  check (is_ok err);;
  UpdateLastAppliedLog idx;;
  response ← match entry_inner entry with
             | kMembershipChange g => HandleRaftMembershipChange idx (entry_term entry) g;; mret None
             | kData _ => RaftApplyLogToDatabase idx entry
             | kMinimums m => HandleRaftMinimumsChange idx (entry_term entry) m;; mret None
             | INNER_NOT_SET => mret None
             end;
  HandleLogTransactionsForRaftLog idx entry response.

(** Every turn takes a log that is committed and not yet applied; [fuel]
    bounds their number. *)
Fixpoint committed_loop (fuel : nat) : M unit :=
  match fuel with
  | O => lift None
  | S fuel' =>
      '(idx, entry) ← on_raft_with TakeCommittedLog;
      if idx =? 0 then mret tt else
      apply_committed idx entry;; committed_loop fuel'
  end.
Definition RaftHandleCommittedLogs : M unit :=
  r ← get_raft;
  committed_loop (S (Z.to_nat (commit_idx_ r - last_applied_ r))).

Definition RaftSendMessages : M unit :=
  messages ← on_raft_with (fun r => Some (SendableMessages r));
  for_each messages (fun m =>
    r ← get_raft;
    let send_to := match sm_to m with Some to => [to] | None => peers r end in
    for_each send_to (fun peer => pm_SendToPeer peer (eRaftMessage (sm_message m));; mret tt)).

Definition RaftStep : M unit :=
  c ← get;
  check (loaded_state (state (raft_ c)));;
  RaftSendMessages;; RaftHandleCommittedLogs.

(** ** Writing to the log *)
Definition voting_count (r : Raft T L) : Z := Zlen (voting_replicas_ (membership r)).

Definition RaftWriteLogTransaction (entry : LogEntry) (cb : LogTransactionCallback) : M Error :=
  c ← get;
  if negb (bool_decide (state (raft_ c) = RAFTSTATE_LOADED_PART_OF_GROUP)) then mret Core_RaftState else
  r ← get_raft;
  if is_leader r then
    if voting_count r <? min_voting_replicas (lo_group_config (loaded (raft_ c))) then mret Core_NotEnoughVotingReplicas else
    '(loc, raft_err) ← on_raft_with (fun r => LogRequest r entry);
    if negb (is_ok raft_err) then mret raft_err else
    AddLogTransaction loc cb;; RaftStep;; mret OK
  else match leader r with
  | Some leader =>
      match SerializeEntry entry with
      | None => mret Core_SerializeRaftWrite
      | Some data => SendE2ETransaction leader (tRaftWrite data) true (CB_RaftWrite cb);; mret OK
      end
  | None => mret Core_LeaderUnknown
  end.
End core.
