(* ===== verification/CoreReplicate.v ===== *)
(** * Replication of a group's state, and joining a group (core/core.cc)

    A member pushes its log and its rows in chunks; the enclave that joins
    loads them, then requests membership. *)
From stdpp Require Import prelude gmap.
From S2P Require Import Prelude Errors Containers Util RaftTypes RaftLog PeerId Membership Merkle Raft.
From S2P Require Import ClientTypes Minimums GroupClock Timeout Database Msgs Noise Client Peers CoreState Core.
Section core.
Context {T L D : Type} {MO : MerkleOps T L} {RP : RaftPlatform} {DB : Database T D}.
Context {NP : NoisePlatform} {MP : MsgPlatform} {EV : Env}.
Notation M := (M T L D).

(** ** Replication: the sending side *)
Definition EXTRA_SIZE_PER_LOG_ENTRY : Z := 1.

(** The loop over the log: the entries to send, and whether the last applied
    index was passed.  Every turn reads an entry that is stored. *)
Fixpoint push_entries_loop (fuel : nat) (l : Log) (last_applied iter size chunk : Z) (entries : list LogEntry) :
    option (list LogEntry * bool) :=
  match fuel with
  | O => None
  | S fuel' =>
      if negb (iter_Valid l iter) || (last_applied <? iter_Index l iter) then Some (entries, true) else
      e ← iter_Entry l iter;
      let entries := entries ++ [e] in
      let size := size ⊕ (iter_SerializedSize l iter + EXTRA_SIZE_PER_LOG_ENTRY) in
      if chunk <=? size then Some (entries, false)
      else push_entries_loop fuel' l last_applied (iter_Next l iter) size chunk entries
  end.

(** What is sent next: the push state afterwards, and the message or the error
    of [RowsAsProtos]. *)
Definition next_push (r : Raft T L) (d : D) (chunk last_applied : Z) (ps : ReplicationPushState) :
    option (ReplicationPushState * (ReplicateStatePush + Error)) :=
  '(entries, at_commit_idx) ← push_entries_loop (S (length (entries_ (log_ r)))) (log_ r)
      last_applied (At (log_ r) (logs_from_idx_inclusive ps)) 0 chunk [];
  let out := {| push_replication_id := ps_replication_id ps; push_replication_sequence := ps_replication_sequence ps;
    push_first_log_idx := logs_from_idx_inclusive ps; push_entries := entries; push_db_to_end := false;
    push_rows := []; push_committed_membership := None |} in
  let ps := {| ps with ps_replication_sequence := ps_replication_sequence ps ⊕ 1 |} in
  let current_size := push_ByteSizeLong out in
  let rows_to_send := (chunk - current_size) / db_MaxRowSerializedSize in
  let with_rows := at_commit_idx && (current_size <? chunk) && negb (rows_to_send =? 0) in
  let '(rows, (row_id, err)) := if with_rows then db_RowsAsProtos d (db_from_key_exclusive ps) rows_to_send
                                else ([], ([], OK)) in
  if negb (is_ok err) then Some (ps, inr err) else
  let to_end := with_rows && (Zlen rows <? rows_to_send) in
  let ps := {| ps with db_from_key_exclusive := if with_rows then row_id else db_from_key_exclusive ps;
                       finished_sending := to_end;
                       logs_from_idx_inclusive := logs_from_idx_inclusive ps ⊕ Zlen entries |} in
  Some (ps, inl {| out with push_rows := rows; push_db_to_end := to_end;
                            push_committed_membership := Some (AsProto (membership_ r)) |}).

Definition SendNextReplicationState (id : nat) : M unit :=
  c ← get;
  ps ← lift (push_states c !! id);
  check (negb (finished_sending ps));;
  r ← get_raft;
  d ← lift (lo_db (loaded (raft_ c)));
  '(ps, res) ← lift (next_push r d (replication_chunk_bytes (raft_config (enclave_config_ c)))
                       (db_last_applied_log (loaded (raft_ c))) ps);
  match res with
  | inr err =>
      set_push_state id {| ps with sent_response := true |};;
      if sent_response ps then mret tt
      else SendE2EError (push_target ps) (push_tx ps) err;; mret tt
  | inl out =>
      set_push_state id ps;;
      SendE2ETransaction (push_target ps) (tReplicateStatePush out) true (CB_ReplicationPush id (finished_sending ps))
  end.

Fixpoint replication_pipeline_loop (fuel : nat) (id : nat) : M unit :=
  match fuel with
  | O => mret tt
  | S fuel' =>
      c ← get;
      ps ← lift (push_states c !! id);
      if finished_sending ps then mret tt
      else SendNextReplicationState id;; replication_pipeline_loop fuel' id
  end.

Definition HandleReplicateStateRequest (target : PeerID) (request_id : TransactionID) (msg : ReplicateStateRequest) : M Error :=
  c ← get;
  if negb (bool_decide (state (raft_ c) = RAFTSTATE_LOADED_PART_OF_GROUP))
  then SendE2EError target request_id Replicate_RaftState else
  r ← get_raft;
  if negb (rsr_group_id msg =? group_ r) then SendE2EError target request_id Replicate_GroupMismatch else
  let id := push_states_made c in
  let ps := {| logs_from_idx_inclusive := oldest_stored_idx (log_ r); db_from_key_exclusive := [];
    finished_sending := false; push_target := target; push_tx := request_id;
    ps_replication_id := rsr_replication_id msg; ps_replication_sequence := 0; sent_response := false |} in
  modify (fun c => {| c with push_states := <[id := ps]> (push_states c); push_states_made := S id |});;
  replication_pipeline_loop (Z.to_nat (replication_pipeline (raft_config (enclave_config_ c)))) id;;
  mret OK.

(** ** Replication: the receiving side *)
Definition MaybeApplyLogToReplicatingDatabase (entry : LogEntry) : M Error :=
  c ← get;
  let l := loading (raft_ c) in
  if negb (bool_decide (state (raft_ c) = RAFTSTATE_LOADING)) then mret Core_RaftState else
  match ld_db l with
  | None => mret Core_RaftState
  | Some d =>
      if bool_decide (lexigraphically_largest_row_loaded_into_db l = []) || bool_decide (entry_data entry = [])
      then mret OK else
      match ParseDb db_LogPB (entry_data entry) with
      | None => mret Core_ReplicatedLogSerialization
      | Some clog =>
          key ← lift (db_LogKey clog);
          if key_lt (lexigraphically_largest_row_loaded_into_db l) key then mret OK else
          let err := db_ValidateClientLog clog in
          if negb (is_ok err) then mret err else
          '(t, d, _) ← lift (db_Run (merkle_tree_ c) d clog);
          set_tree t;; set_loading {| l with ld_db := Some d |};; mret OK
      end
  end.

(** The loop over the entries received. *)
Fixpoint push_apply_loop (entries : list LogEntry) : M Error :=
  match entries with
  | [] => mret OK
  | entry :: entries' =>
      c ← get;
      let l := loading (raft_ c) in
      log ← lift (ld_log l);
      '(log, err) ← lift (Append log entry (last_idx log));
      set_loading {| l with ld_log := Some log |};;
      if negb (is_ok err) then mret err else
      err ← MaybeApplyLogToReplicatingDatabase entry;
      if negb (is_ok err) then mret err else push_apply_loop entries'
  end.

Definition HandleReplicateStatePush (repl : ReplicateStatePush) : M Error :=
  c ← get;
  if negb (bool_decide (state (raft_ c) = RAFTSTATE_LOADING)) then mret Core_RaftState else
  let l := loading (raft_ c) in
  log ← lift (ld_log l);
  if (1 <? next_idx log) && negb (push_first_log_idx repl =? next_idx log) then mret Replicate_LogIndexMismatch else
  match push_committed_membership repl with
  | None => mret Replicate_MissingCommittedMembership
  | Some group =>
      if negb (push_replication_id repl =? replication_id l) then mret Replicate_ReplicationID else
      let seq := replication_sequence l in
      let l := {| l with replication_sequence := seq ⊕ 1 |} in
      if negb (push_replication_sequence repl =? seq)
      then set_loading l;; mret Replicate_ReplicationSequence else
      let '(mem, err) := FromProto group in
      let l := {| l with ld_mem := mem |} in
      if negb (is_ok err) then set_loading l;; mret err else
      let log := if empty log then (SetNextIdx log (push_first_log_idx repl)).1 else log in
      set_loading {| l with ld_log := Some log |};;
      err ← push_apply_loop (push_entries repl);
      if negb (is_ok err) then mret err else
      if bool_decide (push_rows repl = []) then mret OK else
      c ← get;
      let l := loading (raft_ c) in
      d ← lift (ld_db l);
      '(t, d, (last, _)) ← lift (db_LoadRowsFromProtos (merkle_tree_ c) d (push_rows repl));
      set_tree t;;
      set_loading {| l with ld_db := Some d |};;
      if negb (key_lt (lexigraphically_largest_row_loaded_into_db l) last) then mret Core_ReplicationOutOfOrder else
      set_loading {| l with ld_db := Some d; lexigraphically_largest_row_loaded_into_db := last |};; mret OK
  end.

(** ** Joining a group *)
Definition random_u64 : M (Z * Error) :=
  c ← get;
  let '(b, err) := env_RandomBytes (random_calls c) 8 in
  modify (fun c => {| c with random_calls := S (random_calls c) |});;
  mret (BigEndian64FromBytes b, err).

Definition RequestRaftReplication : M unit :=
  c ← get;
  let l := loading (raft_ c) in
  if negb (bool_decide (state (raft_ c) = RAFTSTATE_LOADING)) then mret tt else
  go ← (if started l then mret true else
        mem ← lift (ld_mem l);
        let connected := Zlen (List.filter (set_count (voting_replicas_ mem)) (ConnectedPeers (peer_manager_ c))) in
        let quorum := quorum_size (Zlen (voting_replicas_ mem)) (super_majority (ld_group_config l)) in
        mret (negb (connected <? quorum)));
  if negb go then mret tt else
  '(id, _) ← random_u64;
  set_loading {| l with started := true; replication_id := id |};;
  SendE2ETransaction (load_from l)
    (tReplicateState {| rsr_group_id := group_id (ld_group_config l); rsr_replication_id := id |})
    false (CB_Replication (load_from l) (ld_join_tx l)).

(** The timeout is set for the case that no peer answers. *)
Definition RaftRequestMembership (tx : TransactionID) : M unit :=
  c ← get;
  check (bool_decide (state (raft_ c) = RAFTSTATE_LOADED_REQUESTING_MEMBERSHIP));;
  '(s, cancel) ← lift (SetTimeout (timeout_ c) (e2e_txn_timeout_ticks (enclave_config_ c)) (TF_RequestMembership tx));
  modify (fun c => {| c with timeout_ := s |});;
  r ← get_raft;
  for_each (peers r) (fun peer =>
    SendE2ETransaction peer (tRaftMembershipRequest true) true (CB_RequestMembership tx cancel)).

(** The new Raft object takes the log, the membership and the database of
    [loading], which is moved out first; a null log is dereferenced. *)
Definition PromoteRaftToLoaded : M unit :=
  c ← get;
  let l := loading (raft_ c) in
  set_loading Loading_clear;;
  ClearState;;
  set_state RAFTSTATE_LOADED_REQUESTING_MEMBERSHIP;;
  log ← lift (ld_log l);
  mem ← lift (ld_mem l);
  c ← get;
  r ← lift (Raft_new (group_id (ld_group_config l)) (ID (peer_manager_ c)) (merkle_tree_ c) mem log
              (raft_config (enclave_config_ c)) true (super_majority (ld_group_config l)));
  '(t, leaf) ← lift (leaf_new (merkle_ r));
  set_tree t;;
  set_loaded {| lo_group_config := ld_group_config l; lo_raft := Some r; lo_db := ld_db l;
                db_last_applied_log := 0; db_last_applied_log_leaf := Some leaf |};;
  UpdateLastAppliedLog (last_idx log);;
  RaftRequestMembership (ld_join_tx l).

(** [MaybeConnectToPeer] for every replica of the group: the first error. *)
Fixpoint connect_replicas (group : ReplicaGroup) : M Error :=
  match group with
  | [] => mret OK
  | replica :: group' =>
      let '(p, err) := FromString PeerID_default (replica_peer_id replica) in
      if negb (is_ok err) then mret err else
      err ← on_peers (fun pm => MaybeConnectToPeer pm p);
      if negb (is_ok err) then mret err else connect_replicas group'
  end.

(** The body of the callback of [JoinRaftFromFirstPeer], on success. *)
Definition join_response (tx : TransactionID) (peer : PeerID) (resp : TransactionResponse) : M unit :=
  c ← get;
  if negb (bool_decide (state (raft_ c) = RAFTSTATE_WAITING_FOR_FIRST_CONNECTION)) then ReplyWithError tx Core_RaftState else
  let '(config, group) := txr_get_raft resp in
  if negb (RaftGroupConfigsEqualExceptForGroupID (raft_config_template_ c) config)
  then ReplyWithError tx Core_GroupConfigMismath else
  if bool_decide (group = []) then ReplyWithError tx Core_ReceivedEmptyReplicaGroup else
  let '(mem, mem_err) := FromProto group in
  if negb (is_ok mem_err) then ReplyWithError tx mem_err else
  err ← connect_replicas group;
  if negb (is_ok err) then ReplyWithError tx err else
  ClearState;;
  set_state RAFTSTATE_LOADING;;
  set_loading {| ld_group_config := config; ld_replica_group := group;
    ld_log := Some (Log_new (log_max_bytes (raft_config (enclave_config_ c)))); ld_db := Some db_NewDB;
    ld_mem := mem; load_from := peer; ld_join_tx := tx; started := false; replication_id := 0;
    replication_sequence := 0; lexigraphically_largest_row_loaded_into_db := [] |};;
  c ← get;
  '(cm, err) ← lift (RefreshAttestation (client_manager_ c) config);
  set_clients cm;;
  if negb (is_ok err) then ReplyWithError tx err else RequestRaftReplication.

Definition JoinRaftFromFirstPeer : M unit :=
  c ← get;
  check (bool_decide (state (raft_ c) = RAFTSTATE_WAITING_FOR_FIRST_CONNECTION));;
  let w := waiting_for_first_connection (raft_ c) in
  SendE2ETransaction (wf_peer w) (tGetRaft true) true (CB_JoinRaft (wf_join_tx w) (wf_peer w)).

Definition HandleJoinRaft (peer_id : bytes) (tx : TransactionID) : M unit :=
  c ← get;
  if bool_decide (state (raft_ c) = RAFTSTATE_LOADED_PART_OF_GROUP) then ReplyWithError tx Core_RaftState else
  let '(peer, peer_err) := FromString PeerID_default peer_id in
  if negb (is_ok peer_err) then ReplyWithError tx Core_RaftState else
  ClearState;;
  modify (fun c => let h := raft_ c in {| c with raft_ :=
    {| h with state := RAFTSTATE_WAITING_FOR_FIRST_CONNECTION;
              waiting_for_first_connection := {| wf_peer := peer; wf_join_tx := tx |} |} |});;
  match PeerManager_PeerState (peer_manager_ c) peer with
  | PEER_CONNECTED => JoinRaftFromFirstPeer
  | PEER_CONNECTING => mret tt
  | PEER_DISCONNECTED => on_peers (fun pm => ConnectToPeer pm peer);; mret tt
  end.

(** There is no [return] after the replies with an error: the group is
    created all the same, and what was loaded is destroyed.  [db_version_] is
    the version of the template. *)
Definition HandleCreateNewRaftGroupRequest (tx : TransactionID) : M unit :=
  c ← get;
  (if negb (bool_decide (state (raft_ c) = RAFTSTATE_NO_STATE)) then ReplyWithError tx Core_RaftState else mret tt);;
  '(group, gid_err) ← random_u64;
  (if negb (is_ok gid_err) then ReplyWithError tx gid_err else mret tt);;
  let template := raft_config_template_ c in
  let cfg := {| template with group_id := group |} in
  set_state RAFTSTATE_LOADED_PART_OF_GROUP;;
  let config := raft_config (enclave_config_ c) in
  r ← lift (Raft_new group (ID (peer_manager_ c)) (merkle_tree_ c) (First (ID (peer_manager_ c)))
              (Log_new (log_max_bytes config)) config false (super_majority cfg));
  '(t, leaf) ← lift (leaf_new (merkle_ r));
  t ← lift (Loaded_destroy t (loaded (raft_ c)));
  set_tree t;;
  set_loaded {| lo_group_config := cfg; lo_raft := Some r; lo_db := Some db_NewDB;
                db_last_applied_log := 0; db_last_applied_log_leaf := Some leaf |};;
  UpdateLastAppliedLog 0;;
  RaftStep;;
  ReplyWithError tx OK.
End core.
