(* ===== verification/CoreHandlers.v ===== *)
(** * Messages from peers and the timer (core/core.cc)

    Responses and requests of other enclaves, Raft messages, resets and timer
    ticks, and the changes of the group's membership that the leader makes. *)
From stdpp Require Import prelude gmap.
From S2P Require Import Prelude Errors Containers Util RaftTypes RaftLog PeerId Membership Merkle Raft.
From S2P Require Import ClientTypes Minimums GroupClock Timeout Database Msgs Noise Client Peers CoreState Core CoreReplicate.
Section core.
Context {T L D : Type} {MO : MerkleOps T L} {RP : RaftPlatform} {DB : Database T D}.
Context {NP : NoisePlatform} {MP : MsgPlatform} {EV : Env}.
Notation M := (M T L D).

(** ** Responses to enclave-to-enclave transactions *)
Definition e2e_callback (cb : E2ECallback) (err : Error) (resp : TransactionResponse) : M unit :=
  if negb (is_ok err) then e2e_error cb err else
  match cb with
  | CB_PingPeer tx | CB_RequestVoting tx | CB_RequestedRemoval _ tx => ReplyWithError tx OK
  | CB_SendTimestamp _ _ => mret tt
  | CB_JoinRaft tx peer => join_response tx peer resp
  | CB_Replication _ _ => PromoteRaftToLoaded
  | CB_RequestMembership tx cancel => AddLogTransaction (txr_raft_membership_response resp) (LC_RequestMembership tx cancel)
  | CB_RaftWrite cb =>
      match txr_inner resp with
      | sRaftWrite loc => AddLogTransaction loc cb
      | _ => log_callback cb Core_IncorrectE2EResponseType None
      end
  | CB_ReplicationPush id last_sent_transaction =>
      c ← get;
      ps ← lift (push_states c !! id);
      if sent_response ps then mret tt
      else if last_sent_transaction then
        set_push_state id {| ps with sent_response := true |};;
        SendE2EError (push_target ps) (push_tx ps) OK;; mret tt
      else if finished_sending ps then mret tt
      else SendNextReplicationState id
  end.

(** ** Membership of the group, by the leader *)

(** The first replica with this ID gets the flag, or is erased. *)
Fixpoint set_voting (peer_id : bytes) (v : bool) (out : ReplicaGroup) : option ReplicaGroup :=
  match out with
  | [] => None
  | rep :: out' =>
      if bool_decide (replica_peer_id rep = peer_id) then Some ({| rep with replica_voting := v |} :: out')
      else cons rep <$> set_voting peer_id v out'
  end.
Fixpoint erase_replica (peer_id : bytes) (out : ReplicaGroup) : option ReplicaGroup :=
  match out with
  | [] => None
  | rep :: out' =>
      if bool_decide (replica_peer_id rep = peer_id) then Some out'
      else cons rep <$> erase_replica peer_id out'
  end.

(** The non-voting replica seen last, and when. *)
Definition promote_choice (r : Raft T L) (m : Membership) : bytes * Z :=
  foldl (fun '(peer_id, min) peer =>
    let last_seen := last_seen_ticks r peer in
    if (last_seen <? min) && negb (set_count (voting_replicas_ m) peer) then (ToString peer, last_seen)
    else (peer_id, min)) ([], Raft.InvalidTicks) (all_replicas_ m).

(** The first replica of the list that was not seen for longer than [limit]. *)
Fixpoint timed_out_change (r : Raft T L) (limit : Z) (change : bytes -> option ReplicaGroup) (ps : list PeerID) :
    option ReplicaGroup :=
  match ps with
  | [] => None
  | peer :: ps' =>
      let last_seen := last_seen_ticks r peer in
      if negb (last_seen =? Raft.InvalidTicks) && (limit <? last_seen) then
        match change (ToString peer) with
        | Some out => Some out
        | None => timed_out_change r limit change ps'
        end
      else timed_out_change r limit change ps'
  end.

Definition promote_replica (r : Raft T L) (config : RaftGroupConfig) (m : Membership) : option ReplicaGroup :=
  if (Zlen (voting_replicas_ m) <? max_voting_replicas config) && (Zlen (voting_replicas_ m) <? Zlen (all_replicas_ m)) then
    let '(peer_id, min) := promote_choice r m in
    if negb (bool_decide (peer_id = [])) && (min <? election_ticks (config_ r))
    then set_voting peer_id true (AsProto m) else None
  else None.
Definition demote_replica (r : Raft T L) (config : RaftGroupConfig) (m : Membership) : option ReplicaGroup :=
  if min_voting_replicas config <? Zlen (voting_replicas_ m) then
    timed_out_change r (replica_voting_timeout_ticks (config_ r)) (fun id => set_voting id false (AsProto m))
      (voting_replicas_ m)
  else None.
Definition remove_replica (r : Raft T L) (m : Membership) : option ReplicaGroup :=
  if Zlen (voting_replicas_ m) <? Zlen (all_replicas_ m) then
    timed_out_change r (replica_membership_timeout_ticks (config_ r)) (fun id => erase_replica id (AsProto m))
      (List.filter (fun p => negb (set_count (voting_replicas_ m) p)) (all_replicas_ m))
  else None.

Definition next_group (r : Raft T L) (config : RaftGroupConfig) : option ReplicaGroup :=
  match leader r with
  | None => None
  | Some _ =>
      let m := membership r in
      match promote_replica r config m with
      | Some out => Some out
      | None => match demote_replica r config m with
                | Some out => Some out
                | None => remove_replica r m
                end
      end
  end.
Definition NextReplicaGroup : M (option ReplicaGroup) :=
  c ← get;
  if negb (bool_decide (state (raft_ c) = RAFTSTATE_LOADED_PART_OF_GROUP)) then mret None else
  r ← get_raft;
  mret (next_group r (lo_group_config (loaded (raft_ c)))).

(** A log entry that is set up and passed to [LogRequest]. *)
Definition new_entry (inner : EntryInner) : LogEntry := {| entry_term := 0; entry_inner := inner; hash_chain := [] |}.
Definition raft_LogRequest (entry : LogEntry) : M (LogLocation * Error) := on_raft_with (fun r => LogRequest r entry).

Definition HandleRequestRaftMembership (from : PeerID) : M (TransactionResponseInner * Error) :=
  c ← get;
  if negb (bool_decide (state (raft_ c) = RAFTSTATE_LOADED_PART_OF_GROUP)) then mret (sNOT_SET, Core_RaftState) else
  r ← get_raft;
  let g := AsProto (membership r) in
  if existsb (fun rep => bool_decide (replica_peer_id rep = ToString from)) g
  then mret (sNOT_SET, Core_DuplicateMembershipPeer) else
  let g := g ++ [{| replica_peer_id := ToString from; replica_voting := false |}] in
  '(loc, err) ← raft_LogRequest (new_entry (kMembershipChange g));
  if is_ok err then RaftStep;; mret (sRaftMembershipResponse loc, OK) else mret (sNOT_SET, err).

Definition HandleRequestRaftVoting (from : PeerID) : M (TransactionResponseInner * Error) :=
  c ← get;
  if negb (bool_decide (state (raft_ c) = RAFTSTATE_LOADED_PART_OF_GROUP)) then mret (sNOT_SET, Core_RaftState) else
  r ← get_raft;
  if negb (set_count (all_replicas_ (membership r)) from) then mret (sNOT_SET, Core_VotingRequestedForNonMember)
  else if set_count (voting_replicas_ (membership r)) from then mret (sNOT_SET, Core_VotingRequestedForVotingMember) else
  let g := AsProto (membership r) in
  let g := default g (set_voting (ToString from) true g) in
  '(loc, err) ← raft_LogRequest (new_entry (kMembershipChange g));
  if is_ok err then RaftStep;; mret (sRaftVotingResponse loc, OK) else mret (sNOT_SET, err).

Definition HandleRaftWrite (data : bytes) : M (TransactionResponseInner * Error) :=
  c ← get;
  if negb (bool_decide (state (raft_ c) = RAFTSTATE_LOADED_PART_OF_GROUP)) then mret (sNOT_SET, Core_RaftState) else
  r ← get_raft;
  if voting_count r <? min_voting_replicas (lo_group_config (loaded (raft_ c)))
  then mret (sNOT_SET, Core_NotEnoughVotingReplicas) else
  match ParseEntry data with
  | None => mret (sNOT_SET, Core_DeserializeRaftWrite)
  | Some log_entry =>
      '(loc, err) ← raft_LogRequest log_entry;
      if is_ok err then RaftStep;; mret (sRaftWrite loc, OK) else mret (sNOT_SET, err)
  end.

Definition HandlePeerRequestedRaftRemoval (from : PeerID) (tx : TransactionID) : M Error :=
  c ← get;
  if negb (bool_decide (state (raft_ c) = RAFTSTATE_LOADED_PART_OF_GROUP))
  then SendE2EError from tx Core_RaftState;; mret OK else
  r ← get_raft;
  let g := AsProto (membership r) in
  let is_from rep := bool_decide (replica_peer_id rep = ToString from) in
  if negb (existsb is_from g) then SendE2EError from tx Core_RemoveNonexistentMember;; mret OK else
  let next := List.filter (fun rep => negb (is_from rep)) g in
  '(loc, err) ← raft_LogRequest (new_entry (kMembershipChange next));
  if negb (is_ok err) then SendE2EError from tx err;; mret OK else
  AddLogTransaction loc (LC_PeerRequestedRemoval from tx);;
  RaftStep;; mret OK.

(** ** Messages from peers *)
Definition HandleE2ETransaction (from : PeerID) (msg : TransactionRequest) : M Error :=
  let respond (p : TransactionResponseInner * Error) : M Error :=
    let '(inner, err) := p in
    match inner with
    | sNOT_SET => SendE2EError from (txn_request_id msg) err
    | _ => if is_ok err then pm_SendToPeer from (eTransactionResponse {| txr_request_id := txn_request_id msg; txr_inner := inner |})
           else SendE2EError from (txn_request_id msg) err
    end in
  match txn_inner msg with
  | tPing _ => respond (sStatus OK, OK)
  | tGetRaft _ =>
      c ← get;
      if negb (bool_decide (state (raft_ c) = RAFTSTATE_LOADED_PART_OF_GROUP))
      then respond (sGetRaft RaftGroupConfig_default [], Core_RaftState) else
      r ← get_raft;
      respond (sGetRaft (lo_group_config (loaded (raft_ c))) (AsProto (membership r)), OK)
  | tReplicateState req => HandleReplicateStateRequest from (txn_request_id msg) req
  | tReplicateStatePush push => err ← HandleReplicateStatePush push; respond (sNOT_SET, err)
  | tRaftMembershipRequest _ => p ← HandleRequestRaftMembership from; respond p
  | tRaftVotingRequest _ => p ← HandleRequestRaftVoting from; respond p
  | tRaftWrite data => p ← HandleRaftWrite data; respond p
  | tNewTimestampUnixSecs secs => HandleNewTimestamp from secs;; respond (sNOT_SET, OK)
  | tRaftRemovalRequest _ => HandlePeerRequestedRaftRemoval from (txn_request_id msg)
  | tNOT_SET => respond (sNOT_SET, General_Unimplemented)
  end.

Definition HandlePeerConnect (from : PeerID) : M unit :=
  c ← get;
  SendTimestamp from (GetLocalTime (clock_ c));;
  c ← get;
  match state (raft_ c) with
  | RAFTSTATE_LOADING => if started (loading (raft_ c)) then mret tt else RequestRaftReplication
  | RAFTSTATE_WAITING_FOR_FIRST_CONNECTION =>
      if bool_decide (from = wf_peer (waiting_for_first_connection (raft_ c))) then JoinRaftFromFirstPeer else mret tt
  | RAFTSTATE_LOADED_REQUESTING_MEMBERSHIP | RAFTSTATE_LOADED_PART_OF_GROUP => on_raft (fun r => Raft.ResetPeer r from)
  | RAFTSTATE_NO_STATE => mret tt
  end.

Definition HandleE2E (from : PeerID) (msg : EnclaveToEnclaveMessage) : M Error :=
  match msg with
  | eConnected _ => HandlePeerConnect from;; mret OK
  | eRaftMessage m =>
      c ← get;
      if negb (loaded_state (state (raft_ c))) then mret Core_RaftState else
      on_raft (fun r => Raft.Receive r m from);; RaftStep;; mret OK
  | eTransactionRequest req => HandleE2ETransaction from req
  | eTransactionResponse resp =>
      c ← get;
      match outstanding_e2e_transactions_ c !! txr_request_id resp with
      | None => mret OK
      | Some call =>
          modify (fun c => {| c with
            outstanding_e2e_transactions_ := delete (txr_request_id resp) (outstanding_e2e_transactions_ c);
            timeout_ := CancelTimeout (timeout_ c) (timeout_cancel call) |});;
          e2e_callback (callback call) (txr_status resp) resp;; mret OK
      end
  | eAttestationUpdate _ | eNOT_SET => mret General_Unimplemented
  end.

Definition pm_RecvFromPeer (msg : PeerMessage) : M (option EnclaveToEnclaveMessage * Error) :=
  c ← get;
  '(pm, out, decoded, err) ← lift (RecvFromPeer (peer_manager_ c) (minimums_ c) msg);
  modify (fun c => {| c with peer_manager_ := pm |});; emit out;; mret (decoded, err).

Definition HandlePeerMessage (msg : PeerMessage) : M Error :=
  let '(from, id_err) := FromString PeerID_default (pm_peer_id msg) in
  check (is_ok id_err);;
  '(decoded, err) ← pm_RecvFromPeer msg;
  if negb (is_ok err) then mret err else
  match decoded with None => mret OK | Some m => HandleE2E from m end.

(** The order of the transactions is that of an unordered map. *)
Definition Core_ResetPeer (id : PeerID) : M Error :=
  c ← get;
  let txns_to_cancel := List.filter (fun p => bool_decide (call_to p.2 = id)) (map_to_list (outstanding_e2e_transactions_ c)) in
  modify (fun c => {| c with
    timeout_ := foldl (fun t p => CancelTimeout t (timeout_cancel p.2)) (timeout_ c) txns_to_cancel;
    outstanding_e2e_transactions_ :=
      foldl (fun m p => delete p.1 m) (outstanding_e2e_transactions_ c) txns_to_cancel |});;
  err ← on_peers (fun pm => Some (PeerManager_ResetPeer pm id));
  for_each txns_to_cancel (fun p => e2e_error (callback p.2) Core_E2ETransactionReset);;
  mret err.

(** ** The timer *)
Definition timeout_fn (f : TimeoutFn) : M unit :=
  c ← get;
  match f with
  | TF_RequestMembership tx =>
      if bool_decide (state (raft_ c) = RAFTSTATE_LOADED_REQUESTING_MEMBERSHIP) then RaftRequestMembership tx else mret tt
  | TF_SendTimestampToAll => SendTimestampToAll
  | TF_E2ETransaction tx _ =>
      match outstanding_e2e_transactions_ c !! tx with
      | None => mret tt
      | Some call =>
          modify (fun c => {| c with outstanding_e2e_transactions_ := delete tx (outstanding_e2e_transactions_ c) |});;
          e2e_error (callback call) Core_E2ETransactionTimeout
      end
  end.

Definition timeout_TimerTick : M unit :=
  c ← get;
  let '(s, fns) := Timeout.TimerTick (timeout_ c) in
  modify (fun c => {| c with timeout_ := s |});;
  for_each fns (fun p => timeout_fn p.2).

Definition ConnectToRaftMembers : M unit :=
  c ← get;
  r ← get_raft;
  let me := ID (peer_manager_ c) in
  for_each (all_replicas_ (membership r)) (fun peer =>
    if bool_decide (peer = me) || key_lt peer me then mret tt
    else on_peers (fun pm => MaybeConnectToPeer pm peer);; mret tt).

Definition HandleTimerTick (new_timestamp_unix_secs : Z) : M unit :=
  modify (fun c => {| c with clock_ := SetLocalTime (clock_ c) (i64 new_timestamp_unix_secs) |});;
  MaybeUpdateGroupTime;;
  timeout_TimerTick;;
  c ← get;
  if negb (bool_decide (state (raft_ c) = RAFTSTATE_LOADED_PART_OF_GROUP)) then mret tt else
  ConnectToRaftMembers;;
  on_raft Raft.TimerTick;;
  r ← get_raft;
  (if is_leader r then
     next ← NextReplicaGroup;
     match next with
     | None => mret tt
     | Some next => raft_LogRequest (new_entry (kMembershipChange next));; mret tt
     end
   else mret tt);;
  RaftStep.
End core.
