(* ===== verification/CoreHost.v ===== *)
(** * Requests of the host and of clients, and the start (core/core.cc) *)
From stdpp Require Import prelude gmap.
From S2P Require Import Prelude Errors Containers Util RaftTypes RaftLog PeerId Membership Merkle Raft.
From S2P Require Import ClientTypes Minimums GroupClock Timeout Database Msgs Noise Client Peers CoreState Core CoreReplicate CoreHandlers.
Section core.
Context {T L D : Type} {MO : MerkleOps T L} {RP : RaftPlatform} {DB : Database T D}.
Context {NP : NoisePlatform} {MP : MsgPlatform} {EV : Env}.
Notation M := (M T L D).

(** ** Requests of clients *)
Definition HandleNewClient (client_authenticated_id : bytes) (tx : TransactionID) : M unit :=
  c ← get;
  '(cm, client, err) ← lift (NewClient (client_manager_ c) client_authenticated_id);
  set_clients cm;;
  if negb (is_ok err) then ReplyWithError tx err else
  id ← lift client;
  client ← lift (GetClient cm id);
  let '(client, start) := MovedHandshakeStart client in
  set_clients (put_client cm id client);;
  emit [mH2EResponse tx (oNewClientReply (id_ client) start)].

(** [LogPBFromRequest] takes random bytes for new keys. *)
Definition log_from_request (request : MessageLite) (authenticated_id : bytes) : M (option MessageLite * Error) :=
  c ← get;
  let '(log, err, n) := db_LogPBFromRequest (new_keys c) request authenticated_id in
  modify (fun c => {| c with new_keys := n |});; mret (log, err).

Definition HandleExistingClient (client_id : ClientID) (data : bytes) (tx : TransactionID) : M Error :=
  c ← get;
  match GetClient (client_manager_ c) client_id with
  | None => mret Core_ClientNotFound
  | Some client =>
      if Handshaking client then
        let '(client, (handshake, err)) := FinishHandshake client data in
        set_clients (put_client (client_manager_ c) client_id client);;
        if negb (is_ok err) then mret err else
        emit [mH2EResponse tx (oExistingClientReply handshake false)];; mret OK
      else
        '(client, request, err) ← lift (DecryptRequest client data db_RequestPB);
        set_clients (put_client (client_manager_ c) client_id client);;
        if negb (is_ok err) then mret err else
        request ← lift request;
        '(log, err) ← log_from_request request (authenticated_id_ client);
        if negb (is_ok err) then mret err else
        log ← lift log;
        let err := db_ValidateClientLog log in
        if negb (is_ok err) then mret err else
        match SerializeDb log with
        | None => mret Core_SerializeClientLog
        | Some serialized => RaftWriteLogTransaction (new_entry (kData serialized)) (LC_Client client_id tx)
        end
  end.

(** ** Requests of the host *)
Definition HandleRefreshAttestation (rotate_key : bool) : M Error :=
  c ← get;
  let refresh config :=
    '(cm, err) ← lift ((if rotate_key then RotateKeyAndRefreshAttestation else RefreshAttestation) (client_manager_ c) config);
    set_clients cm;; mret err in
  match state (raft_ c) with
  | RAFTSTATE_LOADING => refresh (ld_group_config (loading (raft_ c)))
  | RAFTSTATE_LOADED_REQUESTING_MEMBERSHIP | RAFTSTATE_LOADED_PART_OF_GROUP => refresh (lo_group_config (loaded (raft_ c)))
  | _ => mret Core_RefreshClientAttestationWithoutRaftConfig
  end.

(** A sub-message that nothing is set in is [None]. *)
Definition peer_status (me leader : PeerID) (mem : Membership) (r : option (Raft T L)) (pm : PeerManager) (peer_id : PeerID) :
    option EnclavePeerStatus :=
  status ← (if bool_decide (leader = me) && negb (bool_decide (peer_id = me))
            then r ← r; FollowerReplicationStatus r peer_id else Some None);
  Some {| eps_peer_id := ToString peer_id; eps_replication_status := status;
          eps_in_raft := set_count (all_replicas_ mem) peer_id; eps_is_leader := bool_decide (peer_id = leader);
          eps_is_voting := set_count (voting_replicas_ mem) peer_id; eps_me := bool_decide (peer_id = me);
          eps_connection_status := PeerStatus pm peer_id |}.
Definition raft_status : M (PeerID * Membership * option (Raft T L)) :=
  c ← get;
  if bool_decide (state (raft_ c) = RAFTSTATE_LOADED_PART_OF_GROUP)
  then r ← get_raft; mret (default PeerID_default (leader r), membership r, Some r)
  else mret (PeerID_default, Membership_empty, None).
Definition HandleGetEnclaveStatus : M EnclaveReplicaStatus :=
  c ← get;
  let pm := peer_manager_ c in
  st ← raft_status;
  let '(lead, mem, r) := st in
  ps ← lift (mapM (peer_status (ID pm) lead mem r pm) (set_insert (ID pm) (AllPeers pm)));
  mret {| ers_peers := ps; ers_raft_state := state (raft_ c) |}.

Definition HandleHostDatabaseRequest (tx : TransactionID) (authenticated_id request : bytes) : M Error :=
  match ParseDb db_RequestPB request with
  | None => mret Core_DeserializeHostDatabaseRequest
  | Some cli_req =>
      '(log, err) ← log_from_request cli_req authenticated_id;
      if negb (is_ok err) then mret err else
      log ← lift log;
      match SerializeDb log with
      | None => mret Core_SerializeClientLog
      | Some serialized => RaftWriteLogTransaction (new_entry (kData serialized)) (LC_HostDatabaseRequest tx)
      end
  end.

Definition HandleReconfigure (tx : TransactionID) (req : EnclaveConfig) : M Error :=
  c ← get;
  let new_config := merge_config DefaultEnclaveConfig req in
  let err := ValidateConfigChange (enclave_config_ c) new_config in
  if negb (is_ok err) then mret err else
  modify (fun c => {| c with enclave_config_ := new_config |});;
  (if loaded_state (state (raft_ c)) then on_raft (fun r => Some (Reconfigure r (raft_config new_config))) else mret tt);;
  mret OK.

Definition leading : M bool :=
  c ← get;
  if negb (bool_decide (state (raft_ c) = RAFTSTATE_LOADED_PART_OF_GROUP)) then mret false
  else r ← get_raft; mret (is_leader r).
Definition HandleRelinquishLeadership (tx : TransactionID) : M unit :=
  lead ← leading;
  if negb lead then ReplyWithError tx OK else
  on_raft RelinquishLeadership;;
  r ← get_raft;
  AddLogTransaction {| loc_term := last_term (log_ r) ⊕ 1; loc_idx := next_idx (log_ r); loc_hash_chain := [] |}
    (LC_RelinquishLeadership tx);;
  RaftStep.

Definition HandleHostRequestedRaftRemoval (tx : TransactionID) : M unit :=
  c ← get;
  if negb (bool_decide (state (raft_ c) = RAFTSTATE_LOADED_PART_OF_GROUP)) then ReplyWithError tx Core_RaftState else
  r ← get_raft;
  if is_leader r then ReplyWithError tx Core_LeaderRemovingSelf else
  match leader r with
  | None => ReplyWithError tx Core_LeaderUnknown
  | Some peer => SendE2ETransaction peer (tRaftRemovalRequest true) true (CB_RequestedRemoval peer tx)
  end.

Definition HandleHostHashes (tx : TransactionID) : M Error :=
  c ← get;
  if negb (loaded_state (state (raft_ c))) then mret Core_RaftState else
  let l := loaded (raft_ c) in
  d ← lift (lo_db l);
  hash ← lift (db_Hash d);
  r ← get_raft;
  match iter_Entry (log_ r) (At (log_ r) (db_last_applied_log l)) with
  | None => mret Core_LogNotFoundAtCommitIndex
  | Some log =>
      emit [mH2EResponse tx (oHashes {| db_hash := hash; hr_commit_idx := db_last_applied_log l;
                                        commit_hash_chain := hash_chain log |})];;
      mret OK
  end.

Definition HandleUpdateMinimums (tx : TransactionID) (update : gmap bytes bytes) : M unit :=
  c ← get;
  let '(to_check, err) := UpdateLimits (minimums_ c) (map_to_list update) in
  if negb (is_ok err) then ReplyWithError tx err else
  let err := CheckPeerMinimums (peer_manager_ c) to_check in
  if negb (is_ok err) then ReplyWithError tx err else
  err ← RaftWriteLogTransaction (new_entry (kMinimums update)) (LC_UpdateMinimums tx);
  if negb (is_ok err) then ReplyWithError tx err else mret tt.

Definition LOG_LEVEL_MAX : Z := 7.

Definition HandleHostToEnclave (msg : HostToEnclaveRequest) : M Error :=
  let tx := h2e_request_id msg in
  if tx =? 0 then mret Core_HostToEnclaveTransactionID else
  match h2e_inner msg with
  | hNewClient authenticated_id => HandleNewClient authenticated_id tx;; mret OK
  | hExistingClient client_id data =>
      err ← HandleExistingClient client_id data tx;
      (if negb (is_ok err) then cm_RemoveClient client_id;; ReplyWithError tx err else mret tt);; mret OK
  | hCloseClient client_id => cm_RemoveClient client_id;; ReplyWithError tx OK;; mret OK
  | hCreateNewRaftGroup _ => HandleCreateNewRaftGroupRequest tx;; mret OK
  | hJoinRaft peer_id => HandleJoinRaft peer_id tx;; mret OK
  | hPingPeer peer_id =>
      let '(peer, err) := FromString PeerID_default peer_id in
      if negb (is_ok err) then ReplyWithError tx err;; mret OK else
      SendE2ETransaction peer (tPing true) true (CB_PingPeer tx);; mret OK
  | hRefreshAttestation rotate_client_key =>
      peer_err ← on_peers PeerManager_RefreshAttestation;
      client_err ← HandleRefreshAttestation rotate_client_key;
      ReplyWithError tx (if negb (is_ok peer_err) then peer_err else client_err);; mret OK
  | hRequestVoting _ =>
      c ← get;
      if negb (bool_decide (state (raft_ c) = RAFTSTATE_LOADED_PART_OF_GROUP))
      then ReplyWithError tx Core_RaftState;; mret OK else
      r ← get_raft;
      if voting r then ReplyWithError tx Core_VotingRequestedForVotingMember;; mret OK else
      match leader r with
      | None => ReplyWithError tx Core_LeaderUnknown;; mret OK
      | Some leader => SendE2ETransaction leader (tRaftVotingRequest true) true (CB_RequestVoting tx);; mret OK
      end
  | hGetEnclaveStatus _ =>
      status ← HandleGetEnclaveStatus;
      emit [mH2EResponse tx (oGetEnclaveStatusReply status)];; mret OK
  | hMetrics _ | hRequestMetrics _ => emit [mH2EResponse tx oMetricsReply];; mret OK
  | hDatabaseRequest authenticated_id request => HandleHostDatabaseRequest tx authenticated_id request
  | hReconfigure config => err ← HandleReconfigure tx config; ReplyWithError tx err;; mret OK
  | hSetLogLevel level =>
      if LOG_LEVEL_MAX <=? level then ReplyWithError tx Core_InvalidLogLevel;; mret OK else
      modify (fun c => {| c with log_level_ := level |});; ReplyWithError tx OK;; mret OK
  | hRelinquishLeadership _ => HandleRelinquishLeadership tx;; mret OK
  | hRequestRemoval _ => HandleHostRequestedRaftRemoval tx;; mret OK
  | hHashes _ =>
      err ← HandleHostHashes tx;
      (if negb (is_ok err) then ReplyWithError tx err else mret tt);; mret OK
  | hResetPeerId peer_id =>
      let '(peer, err) := FromString PeerID_default peer_id in
      if negb (is_ok err) then mret err else
      err ← Core_ResetPeer peer; ReplyWithError tx err;; mret OK
  | hUpdateMinimums update => HandleUpdateMinimums tx update;; mret OK
  | hNOT_SET => mret General_Unimplemented
  end.

Definition Core_Receive (msg : UntrustedMessage) : M Error :=
  match msg with
  | uH2ERequest req => HandleHostToEnclave req
  | uTimerTick secs => HandleTimerTick secs;; mret OK
  | uResetPeer peer_id =>
      let '(peer, err) := FromString PeerID_default peer_id in
      if negb (is_ok err) then mret err else Core_ResetPeer peer
  | uPeerMessage m => HandlePeerMessage m
  | uNOT_SET => mret General_Unimplemented
  end.

(** ** Start *)

(** [Core::Core], with [Init]'s managers not made yet. *)
Definition Core_new (tree : T) (group_config : RaftGroupConfig) (config : EnclaveConfig) : Core T L D := {|
  enclave_config_ := config; raft_config_template_ := group_config; minimums_ := []; peer_manager_ := PeerManager_new;
  client_manager_ := ClientManager_new None 0 0; merkle_tree_ := tree; raft_ := RaftHolder_clear; clock_ := Clock_new;
  timeout_ := Timeout_new; outstanding_log_transactions_ := []; e2e_txn_id_ := 0; outstanding_e2e_transactions_ := ∅;
  push_states := ∅; push_states_made := 0; random_calls := 0; new_keys := 0; log_level_ := 0; sent := [] |}.

(** The first key generated is the clients', the second the peers'. *)
Definition Core_Init (config : EnclaveConfig) (initial_timestamp_unix_secs : Z) : M Error :=
  let err := ValidateConfig config in
  if negb (is_ok err) then mret err else
  match NewDHState 0 with
  | None => mret Core_InitClientDHState
  | Some client_dh =>
      let pm := PeerManager_new in
      let '(pm, err) := PeerManager_Init {| pm with pm_keys_generated := 1%nat |} in
      if negb (is_ok err) then mret err else
      modify (fun c => {| c with enclave_config_ := config; peer_manager_ := pm;
        client_manager_ := ClientManager_new (Some client_dh) (pm_keys_generated pm) (pm_evidence_calls pm);
        clock_ := SetLocalTime (clock_ c) (i64 initial_timestamp_unix_secs) |});;
      c ← get;
      pm_SetPeerAttestationTimestamp (i64 initial_timestamp_unix_secs) (attestation_timeout (raft_config_template_ c));;
      SendTimestampToAll;;
      mret OK
  end.

(** [Core::Create].  The database is the one the section is about: another
    version of a valid configuration is [None]. *)
Definition Core_Create (tree : T) (provided : InitConfig) : option (option (Core T L D) * Error) :=
  let config := merge_config DefaultEnclaveConfig (enclave_config_pb provided) in
  let err := ValidateConfig config in
  if negb (is_ok err) then Some (None, err) else
  let err := ValidateRaftGroupConfig (group_config_pb provided) in
  if negb (is_ok err) then Some (None, err) else
  CHECK (bool_decide (P (db_version (group_config_pb provided)) = Some db_protocol))
    ('(core, err) ← Core_Init config (initial_timestamp_unix_secs provided) (Core_new tree (group_config_pb provided) config);
     if negb (is_ok err) then Some (None, err) else Some (Some core, OK)).
End core.
