(* ===== verification/CoreHoare.v ===== *)
(** * Total correctness of operations of the core

    [wp m Q c]: started in [c], [m] returns, and [Q] holds of its result and
    of the state it leaves.  The rules below follow the operations of the
    monad; [kept] is what the callbacks of transactions leave alone. *)
From stdpp Require Import prelude gmap.
From S2P Require Import Prelude Errors Containers Util RaftTypes RaftLog PeerId Membership Merkle Raft.
From S2P Require Import ClientTypes Minimums GroupClock Timeout Database Msgs Noise Client Peers PeersInv CoreState Core.

Section wp.
Context {T L D : Type} {NP : NoisePlatform}.
Notation Core := (Core T L D).
Notation M := (M T L D).
Implicit Types c : Core.

Definition wp {A} (m : M A) (Q : A -> Core -> Prop) c : Prop :=
  exists c' a, m c = Some (c', a) /\ Q a c'.

Lemma wp_mono {A} (m : M A) (P Q : A -> Core -> Prop) c :
  wp m P c -> (forall a c', P a c' -> Q a c') -> wp m Q c.
Proof. intros (c' & a & H & HP) HQ. exists c', a. auto. Qed.

Lemma wp_ret {A} (a : A) (Q : A -> Core -> Prop) c : Q a c -> wp (mret a) Q c.
Proof. intros H. exists c, a. done. Qed.

Lemma wp_bind {A B} (m : M A) (f : A -> M B) Q c : wp m (fun a => wp (f a) Q) c -> wp (m ≫= f) Q c.
Proof. intros (c' & a & H & HQ). unfold wp, mbind, M_bind. by rewrite H. Qed.

Lemma wp_get (Q : Core -> Core -> Prop) c : Q c c -> wp get Q c.
Proof. intros H. exists c, c. done. Qed.

Lemma wp_modify f (Q : unit -> Core -> Prop) c : Q tt (f c) -> wp (modify f) Q c.
Proof. intros H. by exists (f c), tt. Qed.

Lemma wp_lift {A} (o : option A) a (Q : A -> Core -> Prop) c : o = Some a -> Q a c -> wp (lift o) Q c.
Proof. intros -> H. by exists c, a. Qed.

Lemma wp_check (b : bool) (Q : unit -> Core -> Prop) c : b = true -> Q tt c -> wp (check b) Q c.
Proof. intros -> H. by exists c, tt. Qed.

Lemma wp_for_each {A} (l : list A) (f : A -> M unit) (I : Core -> Prop) c :
  I c -> (forall a c', a ∈ l -> I c' -> wp (f a) (fun _ => I) c') -> wp (for_each l f) (fun _ => I) c.
Proof.
  revert c. induction l as [|a l IH]; intros c HI Hf; simpl; [by apply wp_ret|].
  apply wp_bind. eapply wp_mono; [apply Hf; [left|done]|]. intros ? c' HI'.
  apply IH; [done|]. intros b c'' Hb. apply Hf. by right.
Qed.

(** What an operation returned it returned in one way. *)
Lemma wp_returns {A} (m : M A) Q c c' a : wp m Q c -> m c = Some (c', a) -> Q a c'.
Proof. intros (c1 & a1 & H & HQ) H'. congruence. Qed.
End wp.

(** One step of the rules, where it is determined. *)
Ltac wp_step :=
  lazy beta iota;
  match goal with
  | |- wp (_ ≫= _) _ _ => apply wp_bind
  | |- wp get _ _ => apply wp_get
  | |- wp (modify _) _ _ => apply wp_modify
  | |- wp (set_raft _) _ _ => apply wp_modify
  | |- wp (set_state _) _ _ => apply wp_modify
  | |- wp (set_loading _) _ _ => apply wp_modify
  | |- wp (set_loaded _) _ _ => apply wp_modify
  | |- wp (set_tree _) _ _ => apply wp_modify
  | |- wp (set_clients _) _ _ => apply wp_modify
  | |- wp (set_push_state _ _) _ _ => apply wp_modify
  | |- wp (emit _) _ _ => apply wp_modify
  | |- wp (mret _) _ _ => apply wp_ret
  end.
Ltac wp_steps := repeat wp_step.

(** Long sequences of updates: the projections are reduced after each. *)
Ltac core_simpl :=
  cbn [enclave_config_ raft_config_template_ minimums_ peer_manager_ client_manager_ merkle_tree_ raft_ clock_ timeout_
       outstanding_log_transactions_ e2e_txn_id_ outstanding_e2e_transactions_ push_states push_states_made random_calls
       new_keys log_level_ sent state waiting_for_first_connection loading loaded lo_group_config lo_raft lo_db
       db_last_applied_log db_last_applied_log_leaf RaftHolder_clear Loaded_clear].
Ltac wp_run := repeat (wp_step; core_simpl).

Section calls.
Context {T L D : Type} {MO : MerkleOps T L} {RP : RaftPlatform} {DB : Database T D}.
Context {NP : NoisePlatform} {NL : NoiseLaws} {MP : MsgPlatform} {EV : Env}.
Notation Core := (Core T L D).
Notation M := (M T L D).
Implicit Types c : Core.

(** ** What callbacks keep *)
Definition kept_part c :=
  (raft_ c, merkle_tree_ c, minimums_ c, enclave_config_ c, raft_config_template_ c, clock_ c,
   outstanding_log_transactions_ c, push_states c, push_states_made c, ticks_ (timeout_ c)).
Definition kept c c' : Prop := kept_part c' = kept_part c.

Lemma kept_trans c1 c2 c3 : kept c1 c2 -> kept c2 c3 -> kept c1 c3.
Proof. unfold kept. congruence. Qed.

Lemma on_peers_kept f c : (exists m' out err, f (peer_manager_ c) = Some (m', out, err)) ->
  wp (on_peers f) (fun _ => kept c) c.
Proof. intros (m' & out & err & H). unfold on_peers. do 2 wp_step. wp_step. eapply wp_lift; [done|]. by wp_steps. Qed.

Lemma pm_SendToPeer_kept to m c : wp (pm_SendToPeer to m) (fun _ => kept c) c.
Proof. apply on_peers_kept, SendToPeer_total. Qed.

Lemma SendE2EError_kept p id err c : wp (SendE2EError p id err) (fun _ => kept c) c.
Proof. apply pm_SendToPeer_kept. Qed.

Lemma cm_RemoveClient_kept id c : wp (cm_RemoveClient id) (fun _ => kept c) c.
Proof. unfold cm_RemoveClient. by wp_steps. Qed.

Lemma reply_remove_kept tx err id c : wp (ReplyWithError tx err;; cm_RemoveClient id) (fun _ => kept c) c.
Proof. unfold ReplyWithError, cm_RemoveClient. by wp_steps. Qed.

Lemma EncryptResponse_total cl m : exists cl' ct err, EncryptResponse cl m = Some (cl', (ct, err)).
Proof.
  unfold EncryptResponse. destruct (hs_ cl), (tx_ cl) as [tx|], (rx_ cl); eauto.
  destruct (SerializeDb m) as [s|]; eauto. destruct (Encrypt_total tx s) as (ct & err & tx' & ->). simpl. eauto.
Qed.

Lemma ClientLogTransaction_kept id tx err resp c : wp (ClientLogTransaction id tx err resp) (fun _ => kept c) c.
Proof.
  unfold ClientLogTransaction. destruct (bool_decide _); [apply reply_remove_kept|].
  destruct (negb _); [apply reply_remove_kept|]. destruct resp as [resp|]; [|apply reply_remove_kept].
  do 2 wp_step. destruct (GetClient _ _) as [cl|]; [|apply reply_remove_kept].
  destruct (EncryptResponse_total cl resp) as (cl' & ct & err' & H). wp_step. eapply wp_lift; [done|]. do 2 wp_step.
  destruct (negb _); [|by wp_steps]. eapply wp_mono; [apply reply_remove_kept|]. done.
Qed.

Lemma log_callback_kept cb err resp c : wp (log_callback cb err resp) (fun _ => kept c) c.
Proof.
  destruct cb; simpl; try by (unfold ReplyWithError; wp_steps).
  - apply ClientLogTransaction_kept.
  - wp_step. destruct (is_ok err); unfold ReplyWithError; wp_steps; [|done].
    unfold kept, kept_part. simpl. by rewrite (proj1 (CancelTimeout_ticks _ _)).
  - wp_step. eapply wp_mono; [apply SendE2EError_kept|]. intros ? c' H. by wp_steps.
Qed.
End calls.
