(* ===== verification/CoreApply.v ===== *)
(** * Committed logs applied to the state of a loaded core

    [holds]: the Raft replica satisfies its invariant, the database is well
    formed in the shared Merkle tree, and the leaf of the last applied index
    holds that index.  Committed entries act on an abstract state: a map from
    keys to values, the minimum limits, and whether this replica is a member
    of the group.  At the end, events of Raft on a loaded core. *)
From stdpp Require Import prelude gmap.
From S2P Require Import Prelude Errors Containers Util RaftTypes RaftLog PeerId Membership Merkle Raft RaftInv RaftReceive RaftPublic ClientTypes Minimums GroupClock Timeout Database Noise Msgs Client Peers PeersInv CoreState Core CoreHandlers CoreHoare.

Section apply.
Context {T L D V : Type} `{!EqDecision L, !Countable L} {MO : MerkleOps T L} {MS : MerkleSpec T L}.
Context {RP : RaftPlatform} {RPL : RaftPlatformLaws} {DB : Database T D} {DS : DatabaseSpec T L D V}.
Context {NP : NoisePlatform} {NL : NoiseLaws} {MP : MsgPlatform} {EV : Env}.
Notation Core := (Core T L D).
Notation M := (M T L D).
Notation Raft := (Raft T L).
Implicit Types (c : Core) (r : Raft) (d : D) (t : T) (lf : L) (e : LogEntry) (h : RaftHolder T L D).

(** ** The abstract state *)

(** The client log of an entry, when there is one that is carried out. *)
Definition entry_log e : option (MessageLite * bytes) :=
  match entry_inner e with
  | kData data =>
      log ← ParseDb db_LogPB data;
      if is_ok (db_ValidateClientLog log) then k ← db_LogKey log; Some (log, k) else None
  | _ => None
  end.
Definition view_entry (m : gmap bytes V) e : gmap bytes V :=
  match entry_log e with
  | Some (log, k) => partial_alter (fun v => (db_step log v).1) k m
  | None => m
  end.
Definition limits_entry (s : MinimumLimits) e : MinimumLimits :=
  match entry_inner e with kMinimums m => (UpdateLimits s (map_to_list m)).1 | _ => s end.
Definition member_entry (me : PeerID) (st : RaftState) e : RaftState :=
  match entry_inner e with
  | kMembershipChange g => if ContainsMe me g then RAFTSTATE_LOADED_PART_OF_GROUP else RAFTSTATE_LOADED_REQUESTING_MEMBERSHIP
  | _ => st
  end.
(** An update of the minimums that the limits in force accept. *)
Definition limits_accept (s : MinimumLimits) e : Prop :=
  match entry_inner e with kMinimums m => (UpdateLimits s (map_to_list m)).2 = OK | _ => True end.
Fixpoint limits_accept_all (s : MinimumLimits) (es : list LogEntry) : Prop :=
  match es with
  | [] => True
  | e :: es' => limits_accept s e /\ limits_accept_all (limits_entry s e) es'
  end.

(** ** The invariant *)
Record holds h t r d lf (n : LogIdx) : Prop := {
  ho_state : loaded_state (state h) = true;
  ho_raft : exists r0, lo_raft (loaded h) = Some r0 /\ r = {| r0 with merkle_ := t |};
  ho_inv : inv r;
  ho_db : lo_db (loaded h) = Some d;
  ho_db_ok : db_ok t d;
  ho_leaf : db_last_applied_log_leaf (loaded h) = Some lf;
  ho_last : db_last_applied_log (loaded h) = n;
  ho_hash : tree_view t !! lf = Some (BigEndian64Bytes n);
  ho_apart : lf <> commit_leaf_ r /\ lf <> promise_leaf_ r;
  ho_owns : ~ db_owns d lf /\ ~ db_owns d (commit_leaf_ r) /\ ~ db_owns d (promise_leaf_ r) }.

Lemma holds_tree h t r d lf n : holds h t r d lf n -> merkle_ r = t.
Proof. intros [_ (r0 & _ & ->) _ _ _ _ _ _ _ _]. done. Qed.

Lemma get_raft_wp c r d lf n (Q : Raft -> Core -> Prop) :
  holds (raft_ c) (merkle_tree_ c) r d lf n -> Q r c -> wp get_raft Q c.
Proof.
  intros [_ (r0 & Hr & ->) _ _ _ _ _ _ _ _] HQ. unfold get_raft. do 2 wp_step. wp_step.
  eapply wp_lift; [exact Hr|]. by wp_step.
Qed.

(** Another tree in which the replica's leaves are as they were. *)
Definition with_tree r t : Raft := {| r with merkle_ := t |}.
Lemma inv_tree r t : inv r -> tree_ok ∅ t ->
  tree_view t !! commit_leaf_ r = tree_view (merkle_ r) !! commit_leaf_ r ->
  tree_view t !! promise_leaf_ r = tree_view (merkle_ r) !! promise_leaf_ r -> inv (with_tree r t).
Proof.
  intros [[C1 C2 C3 C4 C5] [[L1 L2 L3 L4] S2 S3] Hm] Ht Hc Hp.
  split; [by split| |done]. split; [split|..]; simpl; try done; congruence.
Qed.

(** ** The last applied index *)
Lemma VerifyLastAppliedLog_wp c r d lf n (Q : Error -> Core -> Prop) :
  holds (raft_ c) (merkle_tree_ c) r d lf n -> Q OK c -> wp VerifyLastAppliedLog Q c.
Proof.
  intros H HQ. unfold VerifyLastAppliedLog. do 2 wp_step. wp_step. eapply wp_lift; [apply H|].
  eapply wp_lift; [|exact HQ]. erewrite leaf_verify_spec; [|apply (db_ok_tree _ _ (ho_db_ok _ _ _ _ _ _ H))|apply H].
  rewrite bool_decide_eq_true_2; [done|]. by rewrite (ho_last _ _ _ _ _ _ H).
Qed.

Lemma UpdateLastAppliedLog_wp c r d lf n idx :
  holds (raft_ c) (merkle_tree_ c) r d lf n ->
  wp (UpdateLastAppliedLog idx) (fun _ c' => exists t,
    holds (raft_ c') t (with_tree r t) d lf idx /\ state (raft_ c') = state (raft_ c) /\
    lo_group_config (loaded (raft_ c')) = lo_group_config (loaded (raft_ c)) /\
    c' = {| c with raft_ := raft_ c'; merkle_tree_ := t |}) c.
Proof.
  intros H. unfold UpdateLastAppliedLog. do 2 wp_step. wp_step. eapply wp_lift; [apply H|]. do 2 wp_step. wp_step.
  pose proof (holds_tree _ _ _ _ _ _ H) as Ht.
  destruct H as [H1 (r0 & H2 & Hr) H3 H4 H5 H6 H7 H8 [H9 H9'] [H10 [H11 H12]]]. pose proof (db_ok_tree _ _ H5) as H0.
  destruct (leaf_update_spec ∅ (merkle_tree_ c) lf _ (BigEndian64Bytes idx) H0 H8) as (t & Hup & Hok & Hv).
  replace (∅ ∖ {[lf]}) with (∅ : gset L) in Hok by set_solver.
  eapply wp_lift; [exact Hup|]. wp_step. exists t. simpl. split; [|done].
  assert (forall l, l <> lf -> tree_view t !! l = tree_view (merkle_tree_ c) !! l) as Hl.
  { intros l Hl. by rewrite Hv, lookup_insert_ne. }
  split; simpl; try done.
  - exists r0. split; [done|]. by rewrite Hr.
  - apply inv_tree; [done|done|rewrite Ht; by apply Hl..].
  - eapply db_ok_frame; [done|done|]. intros l Ho. apply Hl. by intros ->.
  - by rewrite Hv, lookup_insert_eq.
Qed.

(** ** One entry *)

(** The transactions that wait once an entry has been handled: those for other
    indices, and none when the entry removes this replica. *)
Definition removes (me : PeerID) (st : RaftState) e : bool :=
  match entry_inner e with
  | kMembershipChange g => bool_decide (st = RAFTSTATE_LOADED_PART_OF_GROUP) && negb (ContainsMe me g)
  | _ => false
  end.
Definition waiting_entry (me : PeerID) (st : RaftState) (idx : LogIdx) e (txs : list (LogIdx * LogTransaction)) :=
  if removes me st e then [] else List.filter (fun p => negb (p.1 =? idx)) txs.

(** The state after [e]; [txs] are the transactions that wait. *)
Record after_entry c r d lf (idx : LogIdx) e (txs : list (LogIdx * LogTransaction)) c' : Prop := {
  ae_holds : exists d', holds (raft_ c') (merkle_tree_ c') (with_tree r (merkle_tree_ c')) d' lf idx /\
               db_view d' = view_entry (db_view d) e;
  ae_limits : minimums_ c' = limits_entry (minimums_ c) e;
  ae_state : state (raft_ c') = member_entry (me_ r) (state (raft_ c)) e;
  ae_group : lo_group_config (loaded (raft_ c')) = lo_group_config (loaded (raft_ c));
  ae_waiting : outstanding_log_transactions_ c' = txs }.

Lemma after_entry_kept c r d lf idx e txs c' c'' :
  after_entry c r d lf idx e txs c' -> kept c' c'' -> after_entry c r d lf idx e txs c''.
Proof.
  intros [A1 A2 A3 A4 A5] K. unfold kept, kept_part in K. injection K as K1 K2 K3 K4 K5 K6 K7 K8 K9 K10.
  split; [by rewrite K1, K2|by rewrite K3|by rewrite K1|by rewrite K1|by rewrite K7].
Qed.

Lemma holds_state h t r d lf n s : loaded_state s = true -> holds h t r d lf n ->
  holds {| h with state := s |} t r d lf n.
Proof. intros Hs []. by split. Qed.

Lemma with_tree_id r t : merkle_ r = t -> with_tree r t = r.
Proof. intros <-. by destruct r. Qed.

(** The response to the client log of an entry. *)
Definition entry_response (m : gmap bytes V) e : option MessageLite :=
  match entry_log e with Some (log, k) => Some (db_step log (m !! k)).2 | None => None end.

Lemma after_entry_same c r d lf idx e :
  holds (raft_ c) (merkle_tree_ c) r d lf idx -> entry_log e = None -> limits_entry (minimums_ c) e = minimums_ c ->
  member_entry (me_ r) (state (raft_ c)) e = state (raft_ c) ->
  after_entry c r d lf idx e (outstanding_log_transactions_ c) c.
Proof.
  intros H Hl Hm Hs. split; try done. exists d. rewrite with_tree_id by (by eapply holds_tree).
  split; [done|]. unfold view_entry. by rewrite Hl.
Qed.

Lemma HandleRaftMembershipChange_wp c r d lf idx e g :
  holds (raft_ c) (merkle_tree_ c) r d lf idx -> entry_inner e = kMembershipChange g ->
  wp (HandleRaftMembershipChange idx (entry_term e) g) (fun _ => after_entry c r d lf idx e
    (if removes (me_ r) (state (raft_ c)) e then [] else outstanding_log_transactions_ c)) c.
Proof.
  intros H He. unfold HandleRaftMembershipChange. do 2 wp_step.
  assert (Hlog : entry_log e = None) by (unfold entry_log; by rewrite He).
  assert (Hlim : limits_entry (minimums_ c) e = minimums_ c) by (unfold limits_entry; by rewrite He).
  pose proof (holds_tree _ _ _ _ _ _ H) as Ht. pose proof (ho_state _ _ _ _ _ _ H) as Hst.
  assert (Hmem : member_entry (me_ r) (state (raft_ c)) e =
    if ContainsMe (me_ r) g then RAFTSTATE_LOADED_PART_OF_GROUP else RAFTSTATE_LOADED_REQUESTING_MEMBERSHIP)
    by (unfold member_entry; by rewrite He).
  assert (Hrm : removes (me_ r) (state (raft_ c)) e =
    bool_decide (state (raft_ c) = RAFTSTATE_LOADED_PART_OF_GROUP) && negb (ContainsMe (me_ r) g))
    by (unfold removes; by rewrite He).
  assert (Hsame : member_entry (me_ r) (state (raft_ c)) e = state (raft_ c) ->
    after_entry c r d lf idx e (outstanding_log_transactions_ c) c) by (intros; by apply after_entry_same).
  assert (Hset : forall s txs c', loaded_state s = true -> member_entry (me_ r) (state (raft_ c)) e = s ->
    outstanding_log_transactions_ c' = txs -> raft_ c' = (let h := raft_ c in {| h with state := s |}) ->
    merkle_tree_ c' = merkle_tree_ c -> minimums_ c' = minimums_ c -> after_entry c r d lf idx e txs c').
  { intros s txs c' Hs Hm Hout Hr Htr Hmin. split; rewrite ?Hr, ?Htr; simpl; try done; [|by rewrite Hlim].
    exists d. rewrite with_tree_id by done. split; [by apply holds_state|]. unfold view_entry. by rewrite Hlog. }
  rewrite Hrm. destruct (state (raft_ c)) eqn:Es; try done; wp_step; (eapply get_raft_wp; [done|]);
    rewrite Hmem in *; destruct (ContainsMe (me_ r) g); simpl in *; try (wp_step; by apply Hsame).
  - wp_step. by apply (Hset RAFTSTATE_LOADED_PART_OF_GROUP).
  - do 2 wp_step. wp_step. eapply wp_mono.
    + apply (wp_for_each _ _ (kept {| c with raft_ := (let h := raft_ c in {| h with state := RAFTSTATE_LOADED_REQUESTING_MEMBERSHIP |}) |})).
      { done. } intros [i tx] c' _ K. eapply wp_mono; [apply log_callback_kept|]. intros ? c'' K'. by eapply kept_trans.
    + intros ? c' K. wp_step. unfold kept, kept_part in K. injection K as K1 K2 K3 K4 K5 K6 K7 K8 K9 K10.
      by apply (Hset RAFTSTATE_LOADED_REQUESTING_MEMBERSHIP).
Qed.

Lemma HandleRaftMinimumsChange_wp c r d lf idx e m :
  holds (raft_ c) (merkle_tree_ c) r d lf idx -> entry_inner e = kMinimums m -> limits_accept (minimums_ c) e ->
  wp (HandleRaftMinimumsChange idx (entry_term e) m) (fun _ =>
    after_entry c r d lf idx e (outstanding_log_transactions_ c)) c.
Proof.
  intros H He Hl. unfold limits_accept in Hl. rewrite He in Hl. unfold HandleRaftMinimumsChange. do 2 wp_step.
  destruct (UpdateLimits _ _) as [s err] eqn:E. simpl in Hl. subst err. wp_step. apply wp_check; [done|]. do 2 wp_step. wp_step.
  eapply wp_mono; [apply on_peers_kept|].
  - simpl. destruct (MinimumsUpdated_total (peer_manager_ c) s) as (m' & out & ->). simpl. eauto.
  - intros ? c' K. wp_step. eapply after_entry_kept; [|exact K]. split; simpl.
    + exists d. rewrite with_tree_id by (by eapply holds_tree). split; [done|]. unfold view_entry, entry_log. by rewrite He.
    + unfold limits_entry. by rewrite He, E.
    + unfold member_entry. by rewrite He.
    + done.
    + done.
Qed.

Lemma RaftApplyLogToDatabase_wp c r d lf idx e data :
  holds (raft_ c) (merkle_tree_ c) r d lf idx -> entry_inner e = kData data ->
  wp (RaftApplyLogToDatabase idx e) (fun resp c' => resp = entry_response (db_view d) e /\
    after_entry c r d lf idx e (outstanding_log_transactions_ c) c') c.
Proof.
  intros H He. assert (Hlog : entry_log e = log ← ParseDb db_LogPB (entry_data e);
    if is_ok (db_ValidateClientLog log) then k ← db_LogKey log; Some (log, k) else None)
    by (unfold entry_log, entry_data; by rewrite He).
  assert (Hnone : entry_log e = None -> None = entry_response (db_view d) e /\
    after_entry c r d lf idx e (outstanding_log_transactions_ c) c).
  { intros Hn. unfold entry_response. rewrite Hn. split; [done|]. apply after_entry_same; try done;
      unfold limits_entry, member_entry; by rewrite He. }
  unfold RaftApplyLogToDatabase. destruct (ParseDb db_LogPB (entry_data e)) as [log|]; [|wp_step; auto].
  simpl in Hlog. destruct (is_ok (db_ValidateClientLog log)) eqn:Eok; simpl; [|wp_step; auto].
  apply is_ok_spec in Eok. destruct (db_validate_key _ Eok) as (k & Hk & _). rewrite Hk in Hlog. simpl in Hlog.
  do 2 wp_step. wp_step. eapply wp_lift; [apply H|]. wp_step.
  pose proof (holds_tree _ _ _ _ _ _ H) as Ht.
  destruct H as [H1 (r0 & H2 & Hr) H3 H4 H5 H6 H7 H8 [H9 H9'] [H10 [H11 H12]]].
  destruct (db_Run_spec _ _ _ _ H5 Eok Hk) as (t' & d' & Hrun & Hok' & Hv' & Hfr).
  eapply wp_lift; [exact Hrun|]. wp_steps. split; [unfold entry_response; by rewrite Hlog|].
  pose proof (inv_sync _ H3) as [[L1 L2 L3 L4] S2 S3]. rewrite Ht in *.
  destruct (Hfr _ _ H8 H10) as [F1 F2]. destruct (Hfr _ _ S2 H11) as [G1 G2]. destruct (Hfr _ _ S3 H12) as [J1 J2].
  split; simpl; try done.
  - exists d'. split; [|unfold view_entry; by rewrite Hlog]. split; simpl; try done.
    + exists r0. split; [done|]. by rewrite Hr.
    + apply inv_tree; [done|by apply (db_ok_tree _ d')|rewrite Ht; congruence..].
  - unfold limits_entry. by rewrite He.
  - unfold member_entry. by rewrite He.
Qed.

Lemma HandleLogTransactions_wp c r d lf idx e resp txs c0 :
  after_entry c0 r d lf idx e txs c ->
  wp (HandleLogTransactionsForRaftLog idx e resp) (fun _ =>
    after_entry c0 r d lf idx e (List.filter (fun p => negb (p.1 =? idx)) txs)) c.
Proof.
  intros H. unfold HandleLogTransactionsForRaftLog. do 2 wp_step. wp_step. eapply wp_mono.
  - apply (wp_for_each _ _ (kept c)); [done|]. intros [i tx] c' _ K. lazy beta iota.
    match goal with |- wp (if ?a then _ else if ?b then _ else _) _ _ => destruct a; [|destruct b] end;
      (eapply wp_mono; [apply log_callback_kept|]); intros ? c'' K'; by eapply kept_trans.
  - intros ? c' K. wp_step. destruct (after_entry_kept _ _ _ _ _ _ _ _ _ H K) as [A1 A2 A3 A4 A5].
    split; simpl; try done. by rewrite A5.
Qed.

Lemma apply_committed_wp c r d lf n idx e :
  holds (raft_ c) (merkle_tree_ c) r d lf n -> limits_accept (minimums_ c) e ->
  wp (apply_committed idx e) (fun _ => after_entry c r d lf idx e
    (waiting_entry (me_ r) (state (raft_ c)) idx e (outstanding_log_transactions_ c))) c.
Proof.
  intros H Hl. unfold apply_committed. wp_step. eapply VerifyLastAppliedLog_wp; [done|]. wp_step. apply wp_check; [done|].
  wp_step. eapply wp_mono; [by eapply UpdateLastAppliedLog_wp|]. intros ? c1 (t & H1 & Hst & Hgc & Hc1). wp_step.
  assert (merkle_tree_ c1 = t) as <- by (by rewrite Hc1).
  assert (minimums_ c1 = minimums_ c) as Hm1 by (by rewrite Hc1).
  assert (outstanding_log_transactions_ c1 = outstanding_log_transactions_ c) as Ho1 by (by rewrite Hc1).
  rewrite <- Hm1 in Hl.
  set (r1 := with_tree r (merkle_tree_ c1)) in *. set (txs := if removes (me_ r) (state (raft_ c)) e then []
    else outstanding_log_transactions_ c).
  assert (wp (match entry_inner e with
    | kMembershipChange g => HandleRaftMembershipChange idx (entry_term e) g;; mret None
    | kData _ => RaftApplyLogToDatabase idx e
    | kMinimums m => HandleRaftMinimumsChange idx (entry_term e) m;; mret None
    | INNER_NOT_SET => mret None end)
    (fun resp => after_entry c1 r1 d lf idx e txs) c1) as Hw.
  { unfold txs. rewrite <- Hst, <- Ho1. change (me_ r) with (me_ r1). destruct (entry_inner e) as [|data|g|m] eqn:Ee.
    - wp_step. unfold removes. rewrite Ee. apply after_entry_same; try done;
        unfold entry_log, limits_entry, member_entry; by rewrite Ee.
    - eapply wp_mono; [by eapply RaftApplyLogToDatabase_wp|]. intros resp c' [_ A]. unfold removes. by rewrite Ee.
    - wp_step. eapply wp_mono; [by eapply HandleRaftMembershipChange_wp|]. intros resp c' A. by wp_step.
    - wp_step. eapply wp_mono; [by eapply HandleRaftMinimumsChange_wp|]. intros resp c' A. wp_step.
      unfold removes. by rewrite Ee. }
  eapply wp_mono; [exact Hw|]. intros resp c2 A. eapply wp_mono; [exact (HandleLogTransactions_wp _ _ _ _ _ _ _ _ _ A)|].
  intros ? c3 [A1 A2 A3 A4 A5]. split; try done; try congruence.
  - rewrite A3, Hst. done.
  - rewrite A5. unfold waiting_entry, txs. by destruct (removes _ _ _).
Qed.

(** ** All committed entries *)
Fixpoint entries_from (l : Log) (idx : LogIdx) (n : nat) : list LogEntry :=
  match n with
  | O => []
  | S n' => match log_at l idx with Some e => e :: entries_from l (idx + 1) n' | None => [] end
  end.
(** The entries that are committed and not applied yet. *)
Definition to_apply r : list LogEntry :=
  entries_from (log_ r) (last_applied_ r + 1) (Z.to_nat (commit_idx_ r - last_applied_ r)).

(** [put_raft] of the replica with another [last_applied_], or unchanged. *)
Lemma holds_put c r d lf n r' :
  holds (raft_ c) (merkle_tree_ c) r d lf n -> inv r' -> merkle_ r' = merkle_ r ->
  commit_leaf_ r' = commit_leaf_ r -> promise_leaf_ r' = promise_leaf_ r ->
  wp (put_raft r') (fun _ c' => holds (raft_ c') (merkle_tree_ c') r' d lf n /\
    merkle_tree_ c' = merkle_tree_ c /\
    state (raft_ c') = state (raft_ c) /\ lo_group_config (loaded (raft_ c')) = lo_group_config (loaded (raft_ c)) /\
    minimums_ c' = minimums_ c /\ outstanding_log_transactions_ c' = outstanding_log_transactions_ c) c.
Proof.
  intros H Hi E1 E2 E3. pose proof (holds_tree _ _ _ _ _ _ H) as Ht. unfold put_raft. wp_step. simpl.
  rewrite E1, Ht. split; [|done].
  destruct H as [H1 (r0 & H2 & Hr) H3 H4 H5 H6 H7 H8 H9 H10]. split; simpl; rewrite ?E2, ?E3; try done.
  exists r'. split; [done|]. rewrite <- Ht, <- E1. by destruct r'.
Qed.

(** The state after the entries [es], the first of which is at [idx + 1]. *)
Record after_entries c r d lf (idx : LogIdx) (es : list LogEntry) c' : Prop := {
  as_holds : exists r' d', holds (raft_ c') (merkle_tree_ c') r' d' lf (idx + Zlen es) /\
    with_tree r' (merkle_ r) = (let n := idx + Zlen es in {| r with last_applied_ := n |}) /\
    db_view d' = foldl view_entry (db_view d) es;
  as_limits : minimums_ c' = foldl limits_entry (minimums_ c) es;
  as_state : state (raft_ c') = foldl (member_entry (me_ r)) (state (raft_ c)) es;
  as_group : lo_group_config (loaded (raft_ c')) = lo_group_config (loaded (raft_ c));
  as_waiting : forall p, p ∈ outstanding_log_transactions_ c' ->
    p ∈ outstanding_log_transactions_ c /\ ~ (idx < p.1 <= idx + Zlen es) }.

Lemma waiting_entry_sub me st idx e txs p : p ∈ waiting_entry me st idx e txs -> p ∈ txs /\ p.1 <> idx.
Proof.
  unfold waiting_entry. destruct (removes _ _ _); [by intros ?%elem_of_nil|].
  rewrite list_elem_of_In, filter_In, <- list_elem_of_In. intros [H1 H2]. split; [done|]. zbool. lia.
Qed.

Lemma committed_loop_wp fuel c r d lf :
  holds (raft_ c) (merkle_tree_ c) r d lf (last_applied_ r) -> (Z.to_nat (commit_idx_ r - last_applied_ r) < fuel)%nat ->
  limits_accept_all (minimums_ c) (to_apply r) ->
  wp (committed_loop fuel) (fun _ => after_entries c r d lf (last_applied_ r) (to_apply r)) c.
Proof.
  revert c r d. induction fuel as [|fuel IH]; intros c r d H Hf Hl; [lia|]. simpl. wp_step. unfold on_raft_with. wp_step.
  eapply get_raft_wp; [done|]. wp_step. pose proof (ho_inv _ _ _ _ _ _ H) as Hi.
  pose proof (TakeCommittedLog_spec r Hi) as Hspec. destruct (commit_idx_ r <=? last_applied_ r) eqn:E.
  - eapply wp_lift; [exact Hspec|]. wp_step. eapply wp_mono; [by eapply holds_put|].
    intros ? c' (H' & Ht & Hst & Hg & Hm & Ho). wp_steps. rewrite Z.eqb_refl. wp_step.
    assert (to_apply r = []) as Hn by (unfold to_apply; zbool; by replace (Z.to_nat (commit_idx_ r - last_applied_ r)) with 0%nat by lia).
    rewrite Hn. change (Zlen (@nil LogEntry)) with 0. split; simpl; try done.
    + exists r, d. change (Zlen []) with 0. rewrite Z.add_0_r. split_and!; [done| |done]. by destruct r.
    + intros p Hp. split; [congruence|change (Zlen []) with 0; lia].
  - destruct Hspec as (e & He & Htake & Hi'). set (r1 := {| r with last_applied_ := last_applied_ r + 1 |}) in *.
    eapply wp_lift; [exact Htake|]. wp_step. eapply wp_mono; [by eapply holds_put|].
    intros ? c1 (H1 & Ht1 & Hst & Hg & Hm & Ho). wp_step. lazy beta iota.
    pose proof (ii_applied _ _ _ _ (ci_idx _ (inv_core _ Hi))).
    replace (last_applied_ r + 1 =? 0) with false by (symmetry; zbool; lia). wp_step.
    assert (to_apply r = e :: to_apply r1) as Hta.
    { unfold to_apply. simpl. zbool. replace (Z.to_nat (commit_idx_ r - last_applied_ r)) with
        (S (Z.to_nat (commit_idx_ r - (last_applied_ r + 1)))) by lia. simpl. by rewrite He. }
    rewrite Hta in *. simpl in Hl. destruct Hl as [Hl1 Hl2].
    eapply wp_mono; [eapply apply_committed_wp; [exact H1|by rewrite Hm]|].
    intros ? c2 [(d2 & A1 & Av) A2 A3 A4 A5]. set (r2 := with_tree r1 (merkle_tree_ c2)) in *.
    eapply wp_mono.
    + apply (IH c2 r2 d2); [exact A1| |]; simpl; [zbool; lia|]. by rewrite A2, Hm.
    + intros ? c3 [(r3 & d3 & B1 & B1' & B1'') B2 B3 B4 B5]. change (to_apply r2) with (to_apply r1) in *. simpl in *.
      assert (last_applied_ r + 1 + Zlen (to_apply r1) = last_applied_ r + Zlen (e :: to_apply r1)) as Hlen
        by (rewrite Zlen_cons; lia).
      split.
      * exists r3, d3. rewrite <- Hlen. split_and!; [exact B1| |by rewrite B1'', Av].
        transitivity (with_tree (with_tree r3 (merkle_tree_ c2)) (merkle_ r)); [done|]. by rewrite B1'.
      * by rewrite B2, A2, Hm.
      * by rewrite B3, A3, Hst.
      * by rewrite B4, A4, Hg.
      * intros p Hp. destruct (B5 p Hp) as [Hp1 Hp2]. rewrite A5 in Hp1. apply waiting_entry_sub in Hp1 as [Hp1 Hp3].
        rewrite Ho in Hp1. split; [done|]. rewrite Zlen_cons. lia.
Qed.

(** ** A step *)
Lemma entries_from_length l idx n : log_ok l -> oldest_stored_idx_ l <= idx -> idx + Z.of_nat n <= next_idx l ->
  Zlen (entries_from l idx n) = Z.of_nat n.
Proof.
  intros Hl. revert idx. induction n as [|n IH]; intros idx H1 H2; [done|]. cbn [entries_from].
  destruct (proj2 (log_at_is_Some l idx Hl)) as [e ->]; [pose proof (next_idx_eq _ Hl); pose proof (last_idx_eq _ Hl); lia|].
  rewrite Zlen_cons, IH by lia. lia.
Qed.

Lemma to_apply_length r : inv r -> Zlen (to_apply r) = commit_idx_ r - last_applied_ r.
Proof.
  intros Hi. pose proof (ci_idx _ (inv_core _ Hi)) as [I1 I2 I3 I4 I5 I6 I7 I8]. unfold to_apply.
  pose proof (next_idx_eq _ I1). pose proof (last_idx_eq _ I1).
  rewrite entries_from_length; [lia|done|lia|lia].
Qed.

(** A call on the replica that keeps its invariant. *)
Lemma holds_durable c r d lf n r' :
  holds (raft_ c) (merkle_tree_ c) r d lf n -> inv r' -> durable r r' ->
  wp (put_raft r') (fun _ c' => holds (raft_ c') (merkle_tree_ c') r' d lf n /\
    state (raft_ c') = state (raft_ c) /\ lo_group_config (loaded (raft_ c')) = lo_group_config (loaded (raft_ c)) /\
    minimums_ c' = minimums_ c /\ outstanding_log_transactions_ c' = outstanding_log_transactions_ c) c.
Proof.
  intros H Hi Hd. pose proof (holds_tree _ _ _ _ _ _ H) as Ht. unfold put_raft. wp_step. simpl. split; [|done].
  destruct (du_leaves _ _ Hd) as [E2 E3].
  destruct H as [H1 (r0 & H2 & Hr) H3 H4 H5 H6 H7 H8 [H9 H9'] [H10 [H11 H12]]].
  assert (Hfr : forall l, l <> commit_leaf_ r -> l <> promise_leaf_ r ->
    tree_view (merkle_ r') !! l = tree_view (merkle_tree_ c) !! l) by (rewrite <- Ht; apply (du_tree _ _ Hd)).
  split; simpl; rewrite ?E2, ?E3; try done.
  - exists r'. split; [done|]. by destruct r'.
  - eapply db_ok_frame; [done|apply Hi|]. intros l Ho. apply Hfr; by intros ->.
  - by rewrite Hfr.
Qed.

Lemma RaftSendMessages_wp c r d lf n :
  holds (raft_ c) (merkle_tree_ c) r d lf n ->
  wp RaftSendMessages (fun _ c' => holds (raft_ c') (merkle_tree_ c') {| r with sendable_messages_ := [] |} d lf n /\
    state (raft_ c') = state (raft_ c) /\ lo_group_config (loaded (raft_ c')) = lo_group_config (loaded (raft_ c)) /\
    minimums_ c' = minimums_ c /\ outstanding_log_transactions_ c' = outstanding_log_transactions_ c) c.
Proof.
  intros H. pose proof (ho_inv _ _ _ _ _ _ H) as Hi. unfold RaftSendMessages, on_raft_with, SendableMessages.
  do 2 wp_step. eapply get_raft_wp; [done|]. wp_step. eapply wp_lift; [done|]. wp_step. set (r1 := {| r with sendable_messages_ := [] |}).
  destruct (handle_spec r EvSendableMessages Hi I) as (r1' & [= <-] & Hi1 & Hd1).
  eapply wp_mono; [by eapply (holds_durable _ _ _ _ _ r1)|]. intros ? c1 [H1 E1]. wp_steps.
  eapply wp_mono.
  - apply (wp_for_each _ _ (kept c1)); [done|]. intros m c2 _ K. wp_step.
    assert (holds (raft_ c2) (merkle_tree_ c2) r1 d lf n) as H2.
    { unfold kept, kept_part in K. injection K as -> -> _ _ _ _ _ _ _ _. done. }
    eapply get_raft_wp; [exact H2|]. apply wp_for_each; [done|]. intros p c3 _ K3. wp_step.
    eapply wp_mono; [apply pm_SendToPeer_kept|]. intros ? c4 K4. wp_step. by eapply kept_trans.
  - intros ? c2 K. unfold kept, kept_part in K. injection K as K1 K2 K3 K4 K5 K6 K7 K8 K9 K10. by rewrite K1, K2, K3, K7.
Qed.

Lemma RaftStep_wp c r d lf :
  holds (raft_ c) (merkle_tree_ c) r d lf (last_applied_ r) -> limits_accept_all (minimums_ c) (to_apply r) ->
  wp RaftStep (fun _ => after_entries c {| r with sendable_messages_ := [] |} d lf (last_applied_ r) (to_apply r)) c.
Proof.
  intros H Hl. unfold RaftStep. do 2 wp_step. wp_step. apply wp_check; [apply H|]. wp_step.
  eapply wp_mono; [by eapply RaftSendMessages_wp|]. intros ? c1 (H1 & E1 & E2 & E3 & E4).
  unfold RaftHandleCommittedLogs. wp_step. eapply get_raft_wp; [exact H1|].
  set (r1 := {| r with sendable_messages_ := [] |}) in *.
  eapply wp_mono; [apply committed_loop_wp; [exact H1|lia|by rewrite E3]|].
  intros ? c2 [A1 A2 A3 A4 A5]. change (to_apply r1) with (to_apply r) in *.
  split; [done|congruence|congruence|congruence|]. by rewrite <- E4.
Qed.

(** ** Events of the replica, each followed by a step *)

(** The state after all that [r] has committed was applied; [r'], [d'] are
    the replica and the database. *)
Record applied_all c r d lf c' r' d' : Prop := {
  aa_holds : holds (raft_ c') (merkle_tree_ c') r' d' lf (last_applied_ r');
  aa_applied : last_applied_ r' = commit_idx_ r;
  aa_same : commit_idx_ r' = commit_idx_ r /\ log_ r' = log_ r /\ current_term_ r' = current_term_ r /\ role_ r' = role_ r /\
            membership r' = membership r /\ me_ r' = me_ r;
  aa_sent : sendable_messages_ r' = [];
  aa_view : db_view d' = foldl view_entry (db_view d) (to_apply r);
  aa_limits : minimums_ c' = foldl limits_entry (minimums_ c) (to_apply r);
  aa_state : state (raft_ c') = foldl (member_entry (me_ r)) (state (raft_ c)) (to_apply r);
  aa_waiting : forall p, p ∈ outstanding_log_transactions_ c' ->
    p ∈ outstanding_log_transactions_ c /\ ~ (last_applied_ r < p.1 <= commit_idx_ r) }.

Lemma RaftStep_applied c r d lf :
  holds (raft_ c) (merkle_tree_ c) r d lf (last_applied_ r) -> limits_accept_all (minimums_ c) (to_apply r) ->
  wp RaftStep (fun _ c' => exists r' d', applied_all c r d lf c' r' d') c.
Proof.
  intros H Hl. eapply wp_mono; [by apply RaftStep_wp|]. intros ? c' [(r' & d' & A1 & A1' & A1'') A2 A3 A4 A5].
  rewrite (to_apply_length _ (ho_inv _ _ _ _ _ _ H)) in *.
  replace (last_applied_ r + (commit_idx_ r - last_applied_ r)) with (commit_idx_ r) in * by lia.
  assert (Hr' : r' = with_tree {| r with sendable_messages_ := []; last_applied_ := commit_idx_ r |} (merkle_ r')).
  { transitivity (with_tree (with_tree r' (merkle_ r)) (merkle_ r')); [by destruct r'|]. simpl in A1'. by rewrite A1'. }
  exists r', d'. split; try done; try (rewrite Hr'; done). by rewrite Hr' at 2.
Qed.

(** [applied_all] from an earlier state of the core, that differs only in the replica. *)
Lemma applied_all_from c0 c r d lf c' r' d' :
  minimums_ c0 = minimums_ c -> state (raft_ c0) = state (raft_ c) ->
  outstanding_log_transactions_ c0 = outstanding_log_transactions_ c ->
  applied_all c r d lf c' r' d' -> applied_all c0 r d lf c' r' d'.
Proof. intros E1 E2 E3 []. split; try done; try congruence. by rewrite E3. Qed.
End apply.

(** * Raft events on a loaded core

    A handler calls the Raft replica and then [RaftStep]: whatever the call
    committed is applied to the database before the handler returns. *)

Section steps.
Context {T L D V : Type} `{!EqDecision L, !Countable L} {MO : MerkleOps T L} {MS : MerkleSpec T L}.
Context {RP : RaftPlatform} {RPL : RaftPlatformLaws} {DB : Database T D} {DS : DatabaseSpec T L D V}.
Context {NP : NoisePlatform} {NL : NoiseLaws} {MP : MsgPlatform} {EV : Env}.
Notation Core := (Core T L D).
Notation Raft := (Raft T L).
Implicit Types (c : Core) (r : Raft) (d : D) (lf : L) (e : LogEntry).

(** A loaded core that has applied what its replica took. *)
Definition loaded_core c r d lf : Prop := holds (raft_ c) (merkle_tree_ c) r d lf (last_applied_ r).

Lemma put_raft_good c r d lf n r1 : loaded_core c r d lf -> good n r r1 ->
  wp (put_raft r1) (fun _ c' => loaded_core c' r1 d lf /\ state (raft_ c') = state (raft_ c) /\
    lo_group_config (loaded (raft_ c')) = lo_group_config (loaded (raft_ c)) /\
    minimums_ c' = minimums_ c /\ outstanding_log_transactions_ c' = outstanding_log_transactions_ c) c.
Proof.
  intros H [Hi Hs _]. unfold loaded_core. rewrite (st_applied _ _ Hs).
  eapply holds_durable; [exact H|done|by apply step_durable].
Qed.

Lemma raft_call_applied c r d lf n (f : Raft -> option Raft) r1 :
  loaded_core c r d lf -> f r = Some r1 -> good n r r1 -> limits_accept_all (minimums_ c) (to_apply r1) ->
  wp (on_raft f;; RaftStep) (fun _ c' => exists r' d', applied_all c r1 d lf c' r' d') c.
Proof.
  intros H Hf Hg Hl. wp_step. unfold on_raft. wp_step. eapply get_raft_wp; [exact H|]. wp_step.
  eapply wp_lift; [exact Hf|]. eapply wp_mono; [by eapply put_raft_good|].
  intros ? c1 (H1 & E1 & _ & E2 & E3). eapply wp_mono; [apply RaftStep_applied; [exact H1|by rewrite E2]|].
  intros ? c2 (r' & d' & A). exists r', d'. eapply applied_all_from; [| | |exact A]; done.
Qed.

Lemma raft_message_wp c r d lf m from r1 :
  loaded_core c r d lf -> event_ok r (EvReceive m from) -> Receive r m from = Some r1 ->
  limits_accept_all (minimums_ c) (to_apply r1) ->
  wp (HandleE2E from (eRaftMessage m)) (fun err c' => err = OK /\ exists r' d', applied_all c r1 d lf c' r' d') c.
Proof.
  intros H (O1 & O2 & O3 & O4 & O5) Hr Hl. pose proof (ho_inv _ _ _ _ _ _ H) as Hi.
  destruct (Receive_good r m from Hi O1 O2 O3 O4 O5) as (r1' & Hr' & Hg). rewrite Hr in Hr'. injection Hr' as <-.
  unfold HandleE2E. wp_step. wp_step. rewrite (ho_state _ _ _ _ _ _ H). simpl negb. lazy iota.
  pose proof (raft_call_applied c r d lf _ (fun r => Receive r m from) r1 H Hr Hg Hl) as (c2 & a & Hw & HA).
  unfold mbind, M_bind in Hw. unfold wp, mbind, M_bind. destruct (on_raft _ c) as [[c1 u]|]; [|done].
  rewrite Hw. eauto 10.
Qed.

(** ** A write of the leader *)
Definition waiting (loc : LogLocation) (cb : LogTransactionCallback) c : Core :=
  {| c with outstanding_log_transactions_ := outstanding_log_transactions_ c ++
       [(loc_idx loc, {| lt_term := loc_term loc; lt_cb := cb; expected_hash_chain := loc_hash_chain loc |})] |}.

Lemma leader_write_wp c r d lf e cb r1 loc :
  loaded_core c r d lf -> state (raft_ c) = RAFTSTATE_LOADED_PART_OF_GROUP -> is_leader r = true ->
  min_voting_replicas (lo_group_config (loaded (raft_ c))) <= voting_count r ->
  event_ok r (EvLogRequest e) -> LogRequest r e = Some (r1, (loc, OK)) ->
  limits_accept_all (minimums_ c) (to_apply r1) ->
  wp (RaftWriteLogTransaction e cb) (fun err c' => err = OK /\
    exists r' d', applied_all (waiting loc cb c) r1 d lf c' r' d') c.
Proof.
  intros H Hst Hlead Hmin (O1 & O2 & O3) Hr Hl. pose proof (ho_inv _ _ _ _ _ _ H) as Hi.
  destruct (LogRequest_good r e Hi O1 O2 O3) as (r1' & loc' & err' & Hr' & Hg & _). rewrite Hr in Hr'. injection Hr' as <- <- <-.
  unfold RaftWriteLogTransaction. wp_step. wp_step. rewrite Hst. simpl negb. lazy iota. wp_step. eapply get_raft_wp; [exact H|].
  rewrite Hlead, (proj2 (Z.ltb_ge _ _)) by done. wp_step. unfold on_raft_with. wp_step. eapply get_raft_wp; [exact H|]. wp_step.
  eapply wp_lift; [exact Hr|]. wp_step. eapply wp_mono; [by eapply put_raft_good|].
  intros ? c1 (H1 & E1 & _ & E2 & E3). wp_step. simpl negb. lazy iota. unfold AddLogTransaction. do 2 wp_step. wp_step.
  match goal with |- wp _ _ ?c' => set (c2 := c') end.
  eapply wp_mono; [apply (RaftStep_applied c2); [exact H1|simpl; by rewrite E2]|].
  intros ? c3 (r' & d' & A). wp_step. split; [done|]. exists r', d'. eapply applied_all_from; [| | |exact A]; try done.
  unfold c2, waiting. simpl. by rewrite E3.
Qed.
End steps.
