(* ===== verification/Replication.v ===== *)
(** * Replication copies the database

    The committed entries of the group are a list [H]; [state_at H n] is the
    map they build up to index [n].  A member that follows [H] sends chunks of
    its log and of its rows while it goes on applying entries; the enclave
    that joins handles them in the order they were sent.  After every push it
    holds the rows up to the last key loaded, as of the last entry received;
    after the last one, all of them. *)
From stdpp Require Import prelude gmap.
From S2P Require Import Prelude Errors Containers Util RaftTypes RaftLog PeerId Membership Merkle Raft RaftInv.
From S2P Require Import ClientTypes Minimums GroupClock Timeout Db Database Msgs Noise Client Peers CoreState Core.
From S2P Require Import CoreReplicate CoreHoare CoreApply.

#[export] Instance upto_dec (last k : bytes) : Decision (upto last k).
Proof. unfold upto. apply _. Defined.

Lemma upto_nil k : upto [] k <-> k = [].
Proof. unfold upto. by destruct k. Qed.

Lemma upto_refl k : upto k k.
Proof. apply key_irrefl. Qed.

Lemma upto_antisym a b : upto a b -> upto b a -> a = b.
Proof. apply key_total. Qed.

Lemma upto_trans_lt a b c : key_lt a b = true -> upto b c -> ~ upto a c -> key_lt a c = true.
Proof. unfold upto. by destruct (key_lt a c). Qed.

Lemma upto_weaken start last k : key_lt start last = true -> upto start k -> upto last k.
Proof.
  unfold upto. intros H1 H2. destruct (key_lt last k) eqn:E; [|done].
  by rewrite (key_trans start last k) in H2.
Qed.

(** The part of a map up to a key. *)
Definition part_upto {V} (last : bytes) (m : gmap bytes V) : gmap bytes V := filter (fun kv => upto last kv.1) m.

Lemma part_upto_lookup {V} (last : bytes) (m : gmap bytes V) k :
  part_upto last m !! k = if decide (upto last k) then m !! k else None.
Proof.
  unfold part_upto. apply option_eq. intros v. rewrite map_lookup_filter_Some. simpl.
  case_decide; [tauto|]. split; [by intros []|done].
Qed.

Lemma part_upto_alter {V} (last : bytes) (m : gmap bytes V) f k :
  part_upto last (partial_alter f k m) =
  if decide (upto last k) then partial_alter f k (part_upto last m) else part_upto last m.
Proof.
  apply map_eq. intros k'. destruct (decide (upto last k)) as [U|U]; rewrite ?partial_alter_lookup, !part_upto_lookup, ?partial_alter_lookup;
    destruct (decide (k' = k)) as [->|]; repeat case_decide; done.
Qed.

Section history.
Context {T L D V : Type} `{!EqDecision L, !Countable L} {MO : MerkleOps T L} {MS : MerkleSpec T L}.
Context {DB : Database T D} {DS : DatabaseSpec T L D V} {MP : MsgPlatform}.
Implicit Types (H : list LogEntry) (e : LogEntry) (n : Z).

Definition state_at H n : gmap bytes V := foldl view_entry ∅ (take (Z.to_nat n) H).
(** The entry at an index. *)
Definition entry_at H n : option LogEntry := if n <? 1 then None else H !! Z.to_nat (n - 1).

Lemma state_at_next H n e : 0 <= n -> entry_at H (n + 1) = Some e -> state_at H (n + 1) = view_entry (state_at H n) e.
Proof.
  unfold entry_at. intros Hn He. rewrite (proj2 (Z.ltb_ge _ _)) in He by lia. unfold state_at.
  replace (Z.to_nat (n + 1)) with (S (Z.to_nat n)) by lia. replace (Z.to_nat (n + 1 - 1)) with (Z.to_nat n) in He by lia.
  by rewrite (take_S_r _ _ _ He), foldl_app.
Qed.

Definition sized (m : gmap bytes V) : Prop := forall k, is_Some (m !! k) -> length k = BACKUP_ID_SIZE.

Lemma entry_log_size e log k : entry_log e = Some (log, k) -> length k = BACKUP_ID_SIZE /\ db_ValidateClientLog log = OK /\ db_LogKey log = Some k.
Proof.
  unfold entry_log. destruct (entry_inner e); try done. destruct (ParseDb _ _) as [l|]; [|done]. simpl.
  destruct (is_ok _) eqn:E; [|done]. apply is_ok_spec in E. destruct (db_validate_key _ E) as (k' & Hk & Hl). rewrite Hk.
  simpl. by intros [= <- <-].
Qed.

Lemma sized_entry m e : sized m -> sized (view_entry m e).
Proof.
  intros Hm k. unfold view_entry. destruct (entry_log e) as [[log k']|] eqn:E; [|apply Hm].
  rewrite partial_alter_lookup. case_decide as Hk; [|apply Hm]. subst. intros _. by eapply entry_log_size.
Qed.

Lemma state_at_sized H n : sized (state_at H n).
Proof.
  unfold state_at. generalize (take (Z.to_nat n) H). intros es.
  assert (forall m, sized m -> sized (foldl view_entry m es)) as Hs.
  { induction es as [|e es IH]; intros m Hm; simpl; [done|]. apply IH, sized_entry, Hm. }
  apply Hs. intros k. rewrite lookup_empty. by intros [? ?].
Qed.

Lemma part_upto_nil m : sized m -> part_upto [] m = ∅.
Proof.
  intros Hm. apply map_eq. intros k. rewrite part_upto_lookup, lookup_empty. case_decide as U; [|done].
  apply upto_nil in U as ->. destruct (m !! []) eqn:E; [|done]. by discriminate (Hm [] (ex_intro _ _ E)).
Qed.
End history.

(** Protobuf parses the empty string to the default message, and a log to a
    message of the type of logs. *)
Class LogMessages {T D : Type} {DB : Database T D} {MP : MsgPlatform} := {
  ParseDb_empty : ParseDb db_LogPB [] = Some db_LogPB;
  ParseDb_log : forall s m, ParseDb db_LogPB s = Some m -> is_Some (db_LogKey m) }.

(** ** The receiving side *)
Section receiver.
Context {T L D V : Type} `{!EqDecision L, !Countable L} {MO : MerkleOps T L} {MS : MerkleSpec T L}.
Context {RP : RaftPlatform} {RPL : RaftPlatformLaws} {DB : Database T D} {DS : DatabaseSpec T L D V}.
Context {NP : NoisePlatform} {NL : NoiseLaws} {MP : MsgPlatform} {LM : LogMessages} {EV : Env}.
Notation Core := (Core T L D).
Implicit Types (c : Core) (H : list LogEntry) (e : LogEntry) (idx : Z) (largest : bytes) (l : Log).

(** A log with entries of [H], the next one of which is at [idx]. *)
Record recv_log H l idx : Prop := {
  rl_oldest : 1 <= oldest_stored_idx_ l;
  rl_next : oldest_stored_idx_ l + Zlen (entries_ l) = idx;
  rl_room : idx < 2 ^ 64;
  rl_ok : Forall entry_ok (entries_ l);
  rl_entries : forall i e, entries_ l !! i = Some e -> entry_at H (oldest_stored_idx_ l + Z.of_nat i) = Some e }.

Lemma recv_log_last H l idx : recv_log H l idx -> last_idx l = if empty l then 0 else idx - 1.
Proof.
  intros [R1 R2 R3 R4 R5]. unfold last_idx, empty. destruct (Zlen (entries_ l) =? 0) eqn:E; [done|].
  pose proof (Zlen_nonneg (entries_ l)). zbool. ulia.
Qed.

Lemma recv_log_Append H l idx e :
  recv_log H l idx -> entry_at H idx = Some e -> entry_ok e -> idx + 1 < 2 ^ 64 ->
  exists l' err, Append l e (last_idx l) = Some (l', err) /\
    ((err = OK /\ recv_log H l' (idx + 1) /\ entries_ l' <> []) \/ err = Raft_LogOutOfSpace \/ err = Raft_LogEntryTooLarge).
Proof.
  intros R He [Hterm Hhash] Hroom. pose proof (recv_log_last _ _ _ R) as Hlast. destruct R as [R1 R2 R3 R4 R5].
  unfold Append. rewrite (proj2 (Z.eqb_neq _ _)) by done. unfold Zlen at 1. rewrite Hhash. simpl negb. lazy iota.
  pose proof (Zlen_nonneg (entries_ l)).
  destruct (append_make_room_spec (S (length (entries_ l))) l (logentry_bytes_in_log e) (last_idx l))
    as (k & l1 & b & -> & Htr & _ & _ & _); [lia|lia|lia|destruct (empty l); lia|].
  destruct b; [|eauto 10]. destruct (INT_MAX <? ByteSizeLong e); [eauto 10|]. eexists _, _. split; [done|]. left. split; [done|].
  destruct Htr as [T1 T2 T3 _ _ _].
  assert (Hlen : Zlen (entries_ l1) = Zlen (entries_ l) - Z.of_nat k) by (unfold Zlen; rewrite T2, length_drop; lia).
  split; [|simpl; intros [_ [=]]%app_eq_nil]. split; simpl.
  - lia.
  - rewrite Zlen_app, Zlen_cons, Zlen_nil. lia.
  - lia.
  - rewrite T2. apply Forall_app. split; [by apply Forall_drop|]. by repeat constructor.
  - intros i e' [Hi|[Hge Hi]]%lookup_app_Some.
    + rewrite T2, lookup_drop in Hi. rewrite T3. replace (_ + _) with (oldest_stored_idx_ l + Z.of_nat (k + i)) by lia. by apply R5.
    + apply list_lookup_singleton_Some in Hi as [Hi ->]. unfold Zlen in *.
      replace (oldest_stored_idx_ l1 + Z.of_nat i) with idx by lia. done.
Qed.

(** The state while loading: the database holds the rows up to [largest], as
    of the entry before [idx], and the log satisfies [LP]. *)
Record receiving c H (id seq : Z) largest (LP : Log -> Prop) idx : Prop := {
  rc_state : state (raft_ c) = RAFTSTATE_LOADING;
  rc_id : replication_id (loading (raft_ c)) = id;
  rc_seq : replication_sequence (loading (raft_ c)) = seq;
  rc_largest : lexigraphically_largest_row_loaded_into_db (loading (raft_ c)) = largest;
  rc_log : exists l, ld_log (loading (raft_ c)) = Some l /\ LP l;
  rc_db : exists d, ld_db (loading (raft_ c)) = Some d /\ db_ok (merkle_tree_ c) d /\
            db_view d = part_upto largest (state_at H (idx - 1)) }.

(** Between pushes: nothing was received yet, or the next entry is at [idx]. *)
Definition next_at H (start : Z) idx l : Prop :=
  (entries_ l = [] /\ idx = start) \/ (entries_ l <> [] /\ recv_log H l idx).

(** Within a push: [ne] says that the log has entries. *)
Definition logging H (ne : Prop) idx l : Prop := recv_log H l idx /\ (ne -> entries_ l <> []).

(** A client log that is committed but not carried out. *)
Definition invalid_log e : Prop := entry_data e <> [] /\ entry_log e = None.

(** The reasons for which a push is refused. *)
Definition repl_error H (err : Error) : Prop :=
  err = Raft_LogOutOfSpace \/ err = Raft_LogEntryTooLarge \/ (err <> OK /\ exists e, e ∈ H /\ invalid_log e).

Lemma entry_at_elem H idx e : entry_at H idx = Some e -> e ∈ H.
Proof. unfold entry_at. destruct (idx <? 1); [done|]. apply list_elem_of_lookup_2. Qed.

Lemma entry_data_log e : entry_data e <> [] -> entry_log e =
  log ← ParseDb db_LogPB (entry_data e);
  if is_ok (db_ValidateClientLog log) then k ← db_LogKey log; Some (log, k) else None.
Proof. unfold entry_data, entry_log. by destruct (entry_inner e). Qed.

Lemma entry_no_data e : entry_data e = [] -> entry_log e = None.
Proof.
  unfold entry_data, entry_log. destruct (entry_inner e) as [|data| |]; try done. intros ->. rewrite ParseDb_empty. simpl.
  rewrite is_ok_false; [done|apply db_LogPB_invalid].
Qed.

(** The database after an entry, in the cases where the code leaves it alone. *)
Lemma part_upto_skip m e largest : sized m ->
  largest = [] \/ entry_log e = None \/ (exists log k, entry_log e = Some (log, k) /\ key_lt largest k = true) ->
  part_upto largest (view_entry (V:=V) m e) = part_upto largest m.
Proof.
  intros Hm [->|[Hn|(log & k & Hl & Hk)]].
  - rewrite !part_upto_nil; [done|done|by apply sized_entry].
  - unfold view_entry. by rewrite Hn.
  - unfold view_entry. rewrite Hl, part_upto_alter. case_decide as U; [|done]. unfold upto in U. congruence.
Qed.

Lemma MaybeApply_wp c H id seq largest LP idx e :
  receiving c H id seq largest LP idx -> 1 <= idx -> entry_at H idx = Some e ->
  wp (MaybeApplyLogToReplicatingDatabase e) (fun err c' =>
    (err = OK /\ receiving c' H id seq largest LP (idx + 1)) \/ repl_error H err) c.
Proof.
  intros [R1 R2 R3 R4 R5 (d & R6 & R7 & R8)] Hidx He.
  assert (Hnext : state_at (V:=V) H (idx + 1 - 1) = view_entry (state_at H (idx - 1)) e).
  { replace (idx + 1 - 1) with (idx - 1 + 1) by lia. apply state_at_next; [lia|]. by replace (idx - 1 + 1) with idx by lia. }
  assert (Hskip : largest = [] \/ entry_log e = None \/ (exists log k, entry_log e = Some (log, k) /\ key_lt largest k = true) ->
    (OK = OK /\ receiving c H id seq largest LP (idx + 1)) \/ repl_error H OK).
  { intros Hs. left. split; [done|]. split; try done. exists d. split_and!; [done|done|]. rewrite R8, Hnext. symmetry.
    apply part_upto_skip; [apply state_at_sized|done]. }
  unfold MaybeApplyLogToReplicatingDatabase. do 2 wp_step. rewrite R1, R6, R4.
  rewrite bool_decide_eq_true_2 by done. simpl negb. lazy iota.
  destruct (bool_decide (largest = [])) eqn:El; simpl orb.
  { apply bool_decide_eq_true in El. wp_step. apply Hskip. auto. }
  destruct (bool_decide (entry_data e = [])) eqn:Ed.
  { apply bool_decide_eq_true, entry_no_data in Ed. wp_step. apply Hskip. auto. }
  apply bool_decide_eq_false in Ed. lazy iota. pose proof (entry_data_log e Ed) as Hlog.
  assert (Hbad : forall err, err <> OK -> entry_log e = None -> repl_error H err).
  { intros err Hne Hn. right. right. split; [done|]. exists e. split; [by eapply entry_at_elem|done]. }
  destruct (ParseDb db_LogPB (entry_data e)) as [clog|] eqn:Ep; simpl in Hlog; [|wp_step; auto].
  destruct (ParseDb_log _ _ Ep) as [key Hkey]. rewrite Hkey in Hlog. simpl in Hlog. wp_step. eapply wp_lift; [exact Hkey|].
  destruct (key_lt largest key) eqn:Ek.
  { wp_step. apply Hskip. right. destruct (is_ok _); eauto. }
  destruct (is_ok (db_ValidateClientLog clog)) eqn:Ev; simpl negb; lazy iota; last first.
  { wp_step. right. apply Hbad; [|done]. intros Hok. by rewrite Hok in Ev. }
  apply is_ok_spec in Ev. destruct (db_Run_spec _ _ _ _ R7 Ev Hkey) as (t' & d' & Hrun & Hok' & Hv' & _).
  wp_step. eapply wp_lift; [exact Hrun|]. wp_steps. left. split; [done|]. split; try done.
  exists d'. split_and!; [done|done|]. rewrite Hnext, Hv', R8. unfold view_entry. rewrite Hlog, part_upto_alter.
  by rewrite decide_True.
Qed.

(** The entries of [es] are those of [H] from [idx] on. *)
Definition slice H idx (es : list LogEntry) : Prop :=
  forall i e, es !! i = Some e -> entry_at H (idx + Z.of_nat i) = Some e /\ entry_ok e.

Lemma push_apply_loop_wp es c H id seq largest idx (ne : Prop) :
  receiving c H id seq largest (logging H ne idx) idx -> 1 <= idx -> slice H idx es -> idx + Zlen es < 2 ^ 64 ->
  wp (push_apply_loop es) (fun err c' =>
    (err = OK /\ receiving c' H id seq largest (logging H (ne \/ es <> []) (idx + Zlen es)) (idx + Zlen es)) \/ repl_error H err) c.
Proof.
  revert c idx ne. induction es as [|e es IH]; intros c idx ne R Hidx Hs Hroom; simpl.
  { wp_step. left. split; [done|]. change (Zlen []) with 0. rewrite Z.add_0_r. destruct R as [R1 R2 R3 R4 (l & R5 & R5' & R5'') R6].
    split; try done. exists l. split; [done|]. split; [done|]. intros [?|?]; [auto|done]. }
  rewrite Zlen_cons in *. pose proof (Zlen_nonneg es). destruct R as [R1 R2 R3 R4 (l & R5 & R5' & _) R6].
  destruct (Hs 0%nat e eq_refl) as [He Hok]. rewrite Z.add_0_r in He.
  destruct (recv_log_Append H l idx e R5' He Hok ltac:(lia)) as (l' & err & Happ & Hcase).
  do 2 wp_step. wp_step. eapply wp_lift; [exact R5|]. wp_step. eapply wp_lift; [exact Happ|]. do 2 wp_step.
  destruct Hcase as [(-> & R5'' & Hne)|Herr]; last first.
  { assert (negb (is_ok err) = true) as -> by (by destruct Herr as [->| ->]). wp_step. right. unfold repl_error. tauto. }
  simpl negb. lazy iota. wp_step. eapply wp_mono.
  - apply (MaybeApply_wp _ H id seq largest (logging H True (idx + 1)) idx e); [|done|done].
    split; simpl; try done. exists l'. done.
  - intros err2 c2 [[-> R]|Herr]; last first.
    { assert (negb (is_ok err2) = true) as ->.
      { destruct Herr as [->|[->|[Hbad _]]]; [done|done|]. by rewrite is_ok_false. }
      wp_step. by right. }
    simpl negb. lazy iota. eapply wp_mono; [apply (IH c2 (idx + 1) True); [exact R|lia| |lia]|].
    + intros i e' Hi. replace (idx + 1 + Z.of_nat i) with (idx + Z.of_nat (S i)) by lia. by apply Hs.
    + intros err3 c3 Hr. lazy beta in Hr. replace (idx + (Zlen es + 1)) with (idx + 1 + Zlen es) by lia.
      destruct Hr as [[-> [Q1 Q2 Q3 Q4 (l2 & Q5 & Q5' & Q5'') Q6]]|Hr]; [|by right]. left. split; [done|]. split; try done.
      exists l2. split; [done|]. split; [done|]. intros _. apply Q5''. by left.
Qed.

(** The rows of a push: those of [m], a part of the group's state. *)
Definition rows_part (rows : list bytes) (view : gmap bytes V) largest largest' : Prop :=
  (rows = [] /\ largest' = largest) \/
  (rows <> [] /\ exists m, encodes rows m /\ is_Some (m !! largest') /\
    forall k v, m !! k = Some v <-> view !! k = Some v /\ key_lt largest k = true /\ upto largest' k).

(** A push a member sends: entries from [idx] on, and rows above [largest]. *)
Record push_ok H (p : ReplicateStatePush) (id seq idx idx' : Z) largest largest' : Prop := {
  po_id : push_replication_id p = id;
  po_seq : push_replication_sequence p = seq;
  po_first : push_first_log_idx p = idx;
  po_entries : slice H idx (push_entries p);
  po_next : idx' = idx + Zlen (push_entries p);
  po_room : 1 <= idx /\ idx' < 2 ^ 64;
  po_mem : exists m, push_committed_membership p = Some (AsProto m) /\ membership_ok m;
  po_rows : rows_part (push_rows p) (state_at H (idx' - 1)) largest largest' }.

Lemma part_upto_grow (m view : gmap bytes V) largest largest' :
  is_Some (m !! largest') ->
  (forall k v, m !! k = Some v <-> view !! k = Some v /\ key_lt largest k = true /\ upto largest' k) ->
  key_lt largest largest' = true /\ m ∪ part_upto largest view = part_upto largest' view.
Proof.
  intros [v0 Hv0] Hm. assert (key_lt largest largest' = true) as Hlt by (by apply Hm in Hv0 as (_ & ? & _)).
  split; [done|]. apply map_eq. intros k. rewrite lookup_union, !part_upto_lookup.
  destruct (m !! k) as [v|] eqn:E.
  - pose proof E as E'. apply Hm in E' as (E1 & E2 & E3). rewrite E1. by repeat case_decide.
  - rewrite (left_id_L None (∪)). destruct (decide (upto largest k)) as [U|U].
    + rewrite decide_True; [done|]. by eapply upto_weaken.
    + case_decide as U'; [|done]. destruct (view !! k) as [v|] eqn:Ev; [|done].
      rewrite (proj2 (Hm k v)) in E; [done|]. split_and!; [done| |done]. unfold upto in U. by destruct (key_lt largest k).
Qed.

Lemma receiving_rows c H id seq largest idx rows largest' LP :
  receiving c H id seq largest LP idx -> rows_part rows (state_at H (idx - 1)) largest largest' -> rows <> [] ->
  exists d t' d', ld_db (loading (raft_ c)) = Some d /\
    db_LoadRowsFromProtos (merkle_tree_ c) d rows = Some (t', d', (largest', OK)) /\ db_ok t' d' /\
    db_view d' = part_upto largest' (state_at H (idx - 1)) /\ key_lt largest largest' = true.
Proof.
  intros [R1 R2 R3 R4 R5 (d & R6 & R7 & R8)] [[-> _]|(Hne & m & Hen & Hl' & Hm)] Hrows; [done|].
  destruct (part_upto_grow m _ _ _ Hl' Hm) as [Hlt Hgrow].
  destruct (db_Load_spec _ _ _ _ R7 Hen Hne) as (t' & d' & last & Hload & Hok' & Hv' & Hlast & Hall & _).
  { intros k k' Hk [v Hv]. apply Hm in Hv as (_ & Hv & _). rewrite R8, part_upto_lookup in Hk.
    case_decide as U; [|by destruct Hk]. destruct (key_lt k k') eqn:E; [done|]. exfalso. unfold upto in U.
    destruct (decide (k = k')) as [->|Hkk]; [congruence|].
    assert (key_lt k' k = true) as E' by (destruct (key_lt k' k) eqn:E'; [done|]; by rewrite (key_total k k') in Hkk).
    by rewrite (key_trans largest k' k) in U. }
  exists d, t', d'. assert (last = largest') as ->.
  { apply upto_antisym; [by apply Hall|]. destruct Hlast as [v Hv]. by apply Hm in Hv as (_ & _ & Hv). }
  split_and!; try done. by rewrite Hv', R8.
Qed.

Lemma HandleReplicateStatePush_wp c H p id seq start idx idx' largest largest' :
  receiving c H id seq largest (next_at H start idx) idx -> push_ok H p id seq idx idx' largest largest' ->
  wp (HandleReplicateStatePush p) (fun err c' =>
    (err = OK /\ receiving c' H id (seq ⊕ 1) largest' (next_at H start idx') idx') \/ repl_error H err) c.
Proof.
  intros R [P1 P2 P3 P4 P5 [P6 P6'] (mem & P7 & P7') P8].
  destruct R as [R1 R2 R3 R4 (l & R5 & R5') R6]. unfold HandleReplicateStatePush. do 2 wp_step.
  rewrite R1, bool_decide_eq_true_2 by done. simpl negb. lazy iota. wp_step. eapply wp_lift; [exact R5|].
  assert ((1 <? next_idx l) && negb (push_first_log_idx p =? next_idx l) = false) as ->.
  { unfold next_idx. destruct R5' as [[Hn _]|[_ Rl]]; [unfold last_idx; by rewrite Hn|].
    rewrite (recv_log_last _ _ _ Rl). destruct (empty l); [done|]. pose proof (rl_room _ _ _ Rl).
    pose proof (rl_oldest _ _ _ Rl). rewrite P3. replace ((idx - 1) ⊕ 1) with idx by (rewrite u64_small; unfold is_u64; lia).
    rewrite Z.eqb_refl. by rewrite andb_false_r. }
  rewrite P7, P1, P2, R2, R3, !Z.eqb_refl. simpl negb. lazy iota.
  rewrite (FromProto_of_AsProto mem P7'). cbv beta iota. simpl is_ok. simpl negb. lazy iota. do 2 wp_step.
  set (l1 := if empty l then (SetNextIdx l (push_first_log_idx p)).1 else l). pose proof (Zlen_nonneg (push_entries p)) as Hlen.
  assert (Hl1 : recv_log H l1 idx).
  { unfold l1, empty, SetNextIdx. destruct (Zlen (entries_ l) =? 0) eqn:E; simpl.
    - assert (entries_ l = []) as Hn by (apply Zlen_zero; zbool; lia). rewrite Hn, P3. split; simpl; try done; rewrite ?Zlen_nil; lia.
    - destruct R5' as [[Hn _]|[_ ?]]; [by rewrite Hn in E|done]. }
  assert (Hl1'' : entries_ l1 = entries_ l) by (unfold l1, empty, SetNextIdx; by destruct (Zlen (entries_ l) =? 0) eqn:E).
  wp_step. eapply wp_mono.
  - apply (push_apply_loop_wp (push_entries p) _ H id (seq ⊕ 1) largest idx (entries_ l <> [])); [|lia|done|lia].
    split; simpl; try done. exists l1. split; [done|]. split; [done|]. by rewrite Hl1''.
  - intros err c2 [[-> R]|Herr]; last first.
    { assert (negb (is_ok err) = true) as ->.
      { destruct Herr as [->|[->|[Hne _]]]; [done|done|]. by rewrite is_ok_false. }
      wp_step. by right. }
    simpl negb. lazy iota. rewrite <- P5 in R.
    assert (Hweak : forall l2, logging H (entries_ l <> [] \/ push_entries p <> []) idx' l2 -> next_at H start idx' l2).
    { intros l2 [Rl Hne]. destruct (decide (entries_ l2 = [])) as [E|E]; [left|by right]. split; [done|].
      destruct R5' as [[Hn Hi]|[Hn _]]; [|by destruct Hne; auto].
      destruct (decide (push_entries p = [])) as [E2|E2]; [rewrite P5, E2, Zlen_nil; lia|by destruct Hne; auto]. }
    destruct (bool_decide (push_rows p = [])) eqn:Er.
    + apply bool_decide_eq_true in Er. wp_step. left. split; [done|].
      assert (largest' = largest) as -> by (by destruct P8 as [[_ ?]|[? _]]).
      destruct R as [Q1 Q2 Q3 Q4 (l2 & Q5 & Q5') Q6]. split; try done. eauto.
    + apply bool_decide_eq_false in Er. destruct (receiving_rows _ _ _ _ _ _ _ _ _ R P8 Er)
        as (d & t' & d' & Hd & Hload & Hok & Hv & Hlt). do 2 wp_step. wp_step. eapply wp_lift; [exact Hd|]. wp_step.
      eapply wp_lift; [exact Hload|]. do 4 wp_step. destruct R as [Q1 Q2 Q3 Q4 (l2 & Q5 & Q5') Q6].
      rewrite Q4, Hlt. simpl negb. lazy iota. wp_steps. left. split; [done|]. split; simpl; try done; eauto.
Qed.
End receiver.

(** A push without entries and rows is three 64-bit integers, in protobuf's
    variable-length encoding, with their tags. *)
Class PushSizes {MP : MsgPlatform} := {
  push_size : forall p, push_entries p = [] -> push_rows p = [] -> push_committed_membership p = None ->
    push_db_to_end p = false -> push_ByteSizeLong p <= 33 }.

(** ** The sending side *)
Section sender.
Context {T L D V : Type} `{!EqDecision L, !Countable L} {MO : MerkleOps T L} {MS : MerkleSpec T L}.
Context {RP : RaftPlatform} {RPL : RaftPlatformLaws} {DB : Database T D} {DS : DatabaseSpec T L D V}.
Context {NP : NoisePlatform} {NL : NoiseLaws} {MP : MsgPlatform} {EV : Env}.
Notation Raft := (Raft T L).
Implicit Types (H : list LogEntry) (r : Raft) (d : D) (ps : ReplicationPushState) (idx : Z).

(** A member whose log and database are those of [H]. *)
Record follows H r d : Prop := {
  fw_inv : inv r;
  fw_db : db_ok (merkle_ r) d;
  fw_applied : 1 <= last_applied_ r;
  fw_log : forall i e, log_at (log_ r) i = Some e -> i <= last_applied_ r -> entry_at H i = Some e;
  fw_view : db_view d = state_at H (last_applied_ r) }.

Lemma iter_At_valid (l : Log) idx e : log_ok l -> is_u64 idx -> log_at l idx = Some e ->
  iter_Valid l (At l idx) = true /\ iter_Index l (At l idx) = idx /\ iter_Next l (At l idx) = At l (idx + 1) /\
  iter_Entry l (At l idx) = Some e.
Proof.
  intros Hl Hi He. assert (iter_Valid l (At l idx) = true) as Hv by (rewrite iter_Valid_At by done; rewrite bool_decide_eq_true_2; eauto).
  pose proof (proj1 (log_at_is_Some l idx Hl) (ex_intro _ _ He)) as Hr. pose proof (last_idx_range _ Hl). pose proof (log_ok_oldest _ Hl).
  split; [done|]. unfold iter_Index, iter_Next. rewrite Hv, iter_Entry_At by done. split_and!; [| |done].
  - unfold At. rewrite (proj2 (Z.ltb_ge _ _)) by lia. rewrite (u64_small (idx - _)), u64_small by (unfold is_u64 in *; lia). lia.
  - unfold At. rewrite !(proj2 (Z.ltb_ge _ _)) by lia. rewrite !u64_small by (unfold is_u64 in *; rewrite ?u64_small; unfold is_u64; lia). lia.
Qed.

Lemma push_entries_loop_spec fuel H r d idx size chunk acc :
  follows H r d -> oldest_stored_idx_ (log_ r) <= idx <= last_applied_ r + 1 ->
  (Z.to_nat (last_applied_ r + 1 - idx) < fuel)%nat ->
  exists es b, push_entries_loop fuel (log_ r) (last_applied_ r) (At (log_ r) idx) size chunk acc = Some (acc ++ es, b) /\
    slice H idx es /\ idx + Zlen es <= last_applied_ r + 1 /\
    (if b then idx + Zlen es = last_applied_ r + 1 else es <> []).
Proof.
  intros F. pose proof (ci_idx _ (inv_core _ (fw_inv _ _ _ F))) as [I1 I2 I3 I4 I5 I6 I7 I8].
  pose proof (last_idx_range _ I1). pose proof (log_ok_oldest _ I1).
  revert idx size acc. induction fuel as [|fuel IH]; intros idx size acc Hidx Hf; [lia|]. simpl.
  assert (is_u64 idx) as Hu by (unfold is_u64; lia). destruct (decide (idx = last_applied_ r + 1)) as [->|Hne].
  - assert (negb (iter_Valid (log_ r) (At (log_ r) (last_applied_ r + 1))) ||
      (last_applied_ r <? iter_Index (log_ r) (At (log_ r) (last_applied_ r + 1))) = true) as ->.
    { destruct (log_at (log_ r) (last_applied_ r + 1)) as [e|] eqn:E.
      - destruct (iter_At_valid _ _ _ I1 Hu E) as (-> & -> & _). simpl. zbool. lia.
      - rewrite iter_Valid_At by done. rewrite E, bool_decide_eq_false_2; [done|by intros []]. }
    exists [], true. rewrite app_nil_r, Zlen_nil. split_and!; [done| |lia|lia]. by intros i e ?.
  - destruct (proj2 (log_at_is_Some _ idx I1)) as [e He]; [lia|].
    destruct (iter_At_valid _ _ _ I1 Hu He) as (-> & -> & -> & ->). simpl.
    rewrite (proj2 (Z.ltb_ge _ _)) by lia.
    assert (Hse : entry_at H idx = Some e /\ entry_ok e) by (split; [apply F; [done|lia]|by eapply log_at_ok]).
    destruct (chunk <=? _).
    + exists [e], false. rewrite Zlen_cons, Zlen_nil. split_and!; [done| |lia|done].
      intros i e' [-> ->]%list_lookup_singleton_Some. by rewrite Z.add_0_r.
    + destruct (IH (idx + 1) (size ⊕ (iter_SerializedSize (log_ r) (At (log_ r) idx) + EXTRA_SIZE_PER_LOG_ENTRY)) (acc ++ [e]))
        as (es & b & -> & Hs & Hle & Hb); [lia|lia|].
      exists (e :: es), b. rewrite <- app_assoc, Zlen_cons. split_and!; [done| |lia|].
      * intros [|i] e' Hi; simpl in Hi.
        { injection Hi as <-. by rewrite Z.add_0_r. }
        { replace (idx + Z.of_nat (S i)) with (idx + 1 + Z.of_nat i) by lia. by apply Hs. }
      * destruct b; [lia|done].
Qed.

(** The rows the member sends, when it sends any. *)
Lemma rows_sent H r d start size out row_id err :
  follows H r d -> start = [] \/ length start = BACKUP_ID_SIZE -> 0 < size ->
  db_RowsAsProtos d start size = (out, (row_id, err)) ->
  err = OK /\ exists largest', rows_part out (state_at H (last_applied_ r)) start largest' /\
    (out <> [] -> row_id = largest') /\ (largest' = [] \/ length largest' = BACKUP_ID_SIZE) /\
    (Zlen out < size -> part_upto largest' (state_at H (last_applied_ r)) = state_at (V:=V) H (last_applied_ r)).
Proof.
  intros F Hst Hsize Hrows. destruct (db_Rows_spec _ _ start size (fw_db _ _ _ F) Hst)
    as (out' & m & last & Heq & Hen & Hm & Hall & Hne & Hnil). rewrite Hrows in Heq. injection Heq as <- <- ->.
  rewrite (fw_view _ _ _ F) in *. split; [done|]. set (view := state_at H (last_applied_ r)) in *.
  assert (Hfull : forall lg, (forall k, is_Some (view !! k) -> upto lg k) -> part_upto lg view = view).
  { intros lg Hlg. apply map_eq. intros k. rewrite part_upto_lookup. case_decide as U; [done|].
    destruct (view !! k) eqn:E; [|done]. destruct U. apply Hlg. by rewrite E. }
  destruct (decide (out = [])) as [->|Hout].
  - exists start. split; [by left|]. split; [done|]. split; [done|]. rewrite Zlen_nil. intros _. apply Hfull. intros k Hk.
    unfold upto. destruct (key_lt start k) eqn:E; [|done]. specialize (Hall ltac:(rewrite Zlen_nil; lia) k Hk E).
    rewrite (Hnil eq_refl) in Hall. apply upto_nil in Hall as ->. by specialize (state_at_sized _ _ _ Hk).
  - exists row_id. destruct (Hne Hout) as [v Hv]. pose proof Hv as Hv'. apply Hm in Hv' as (V1 & V2 & V3). split_and!.
    + right. split; [done|]. exists m. split_and!; eauto.
    + done.
    + right. apply (state_at_sized H (last_applied_ r)). fold view. by rewrite V1.
    + intros Hlt. apply Hfull. intros k Hk. destruct (decide (upto start k)) as [U|U]; [by eapply upto_weaken|].
      apply Hall; [done|done|]. unfold upto in U. by destruct (key_lt start k).
Qed.

(** What a push state promises of the pushes to come. *)
Definition push_state_ok ps : Prop :=
  finished_sending ps = false /\ (db_from_key_exclusive ps = [] \/ length (db_from_key_exclusive ps) = BACKUP_ID_SIZE).

(** The state after a push: the row sent last is that of [db_from_key_exclusive],
    and after the last push all rows were sent. *)
Record pushed H r (chunk : Z) ps ps' (largest' : bytes) : Prop := {
  pd_ids : ps_replication_id ps' = ps_replication_id ps /\ ps_replication_sequence ps' = ps_replication_sequence ps ⊕ 1;
  pd_next : logs_from_idx_inclusive ps <= logs_from_idx_inclusive ps' <= last_applied_ r + 1;
  pd_more : finished_sending ps' = false -> push_state_ok ps' /\ db_from_key_exclusive ps' = largest';
  pd_end : finished_sending ps' = true -> logs_from_idx_inclusive ps' = last_applied_ r + 1 /\
    part_upto largest' (state_at H (last_applied_ r)) = state_at (V:=V) H (last_applied_ r);
  pd_progress : PushSizes -> 33 + db_MaxRowSerializedSize <= chunk ->
    finished_sending ps' = true \/ logs_from_idx_inclusive ps < logs_from_idx_inclusive ps' \/ largest' <> db_from_key_exclusive ps;
  pd_key : largest' = db_from_key_exclusive ps \/
    (key_lt (db_from_key_exclusive ps) largest' = true /\ is_Some (state_at (V:=V) H (last_applied_ r) !! largest')) }.

Lemma next_push_spec H r d chunk ps :
  follows H r d -> push_state_ok ps -> oldest_stored_idx_ (log_ r) <= logs_from_idx_inclusive ps <= last_applied_ r + 1 ->
  exists ps' p largest', next_push r d chunk (last_applied_ r) ps = Some (ps', inl p) /\
    push_ok H p (ps_replication_id ps) (ps_replication_sequence ps) (logs_from_idx_inclusive ps)
      (logs_from_idx_inclusive ps') (db_from_key_exclusive ps) largest' /\ pushed H r chunk ps ps' largest'.
Proof.
  intros F [Hfin Hkey] Hidx. pose proof (ci_idx _ (inv_core _ (fw_inv _ _ _ F))) as [I1 I2 I3 I4 I5 I6 I7 I8].
  pose proof (last_idx_range _ I1). pose proof (log_ok_oldest _ I1). pose proof (last_idx_eq _ I1) as Hlast.
  pose proof (mg_ok _ (mi_good _ _ _ _ (ci_mem _ (inv_core _ (fw_inv _ _ _ F))))) as Hmem.
  destruct (push_entries_loop_spec (S (length (entries_ (log_ r)))) H r d (logs_from_idx_inclusive ps) 0 chunk [])
    as (es & b & Hloop & Hs & Hle & Hb); [done|done|unfold Zlen in Hlast; lia|].
  unfold next_push. rewrite Hloop. simpl app. cbv beta iota delta [mbind option_bind]. lazy zeta.
  match goal with |- context [push_ByteSizeLong ?o] => set (out := o) end.
  set (rows_to_send := (chunk - push_ByteSizeLong out) / db_MaxRowSerializedSize).
  set (with_rows := b && (push_ByteSizeLong out <? chunk) && negb (rows_to_send =? 0)). pose proof (Zlen_nonneg es) as Hlen.
  assert (Hnext : logs_from_idx_inclusive ps ⊕ Zlen es = logs_from_idx_inclusive ps + Zlen es) by (apply u64_small; unfold is_u64; lia).
  destruct with_rows eqn:Ew; unfold with_rows in Ew.
  - apply andb_true_iff in Ew as [[Eb Esz]%andb_true_iff Er]. subst b. zbool. apply Z.eqb_neq in Er.
    assert (0 < rows_to_send) as Hpos.
    { pose proof db_row_size. pose proof (Z.div_pos (chunk - push_ByteSizeLong out) db_MaxRowSerializedSize).
      unfold rows_to_send in *. lia. }
    simpl. destruct (db_RowsAsProtos d (db_from_key_exclusive ps) rows_to_send) as [rows [row_id err]] eqn:Erows.
    destruct (rows_sent H r d _ _ _ _ _ F Hkey Hpos Erows) as (-> & largest' & Hpart & Hid & Hsz & Hend). simpl.
    eexists _, _, largest'. split; [done|]. split.
    + split; simpl; try done; [rewrite Hnext; lia|eauto|]. rewrite Hnext, Hb. by replace (last_applied_ r + 1 - 1) with (last_applied_ r) by lia.
    + assert (Hkeys : largest' = db_from_key_exclusive ps \/ (key_lt (db_from_key_exclusive ps) largest' = true /\ is_Some (state_at (V:=V) H (last_applied_ r) !! largest'))).
      { destruct Hpart as [[_ ?]|(_ & m & _ & [v Hv] & Hm)]; [by left|right]. apply Hm in Hv as (V1 & V2 & _). by rewrite V1. }
      split; simpl; [done|rewrite Hnext; lia| | | |done].
      * intros Hmore. zbool. assert (rows <> []) as Hne by (intros ->; rewrite Zlen_nil in Hmore; lia).
        unfold push_state_ok. simpl. rewrite (proj2 (Z.ltb_ge _ _)), (Hid Hne) by lia. done.
      * intros Hend'. zbool. split; [by rewrite Hnext|auto].
      * intros _ _. destruct Hpart as [[-> _]|(_ & m & _ & [v Hv] & Hm)]; [left; rewrite Zlen_nil; zbool; lia|].
        right. right. apply Hm in Hv as (_ & V2 & _). intros ->. by rewrite key_irrefl in V2.
  - simpl. eexists _, _, (db_from_key_exclusive ps). split; [done|]. split.
    + split; simpl; try done; [rewrite Hnext; lia|eauto|by left].
    + split; simpl; [done|rewrite Hnext; lia|done|done| |by left]. intros PZ Hchunk. right. left. rewrite Hnext.
      destruct (decide (es = [])) as [Hes|Hes]; [|pose proof (Zlen_pos _ Hes); lia]. exfalso. subst es.
      destruct b; [|done]. pose proof (push_size out eq_refl eq_refl eq_refl eq_refl). pose proof db_row_size.
      rewrite (proj2 (Z.ltb_lt (push_ByteSizeLong out) chunk)) in Ew by lia. simpl in Ew. apply negb_false_iff, Z.eqb_eq in Ew.
      assert (1 <= rows_to_send); [|lia]. apply Z.div_le_lower_bound; lia.
Qed.

(** The rows still to be sent. *)
Definition rows_left H r (from : bytes) : gmap bytes V :=
  filter (fun kv => ~ upto from kv.1) (state_at H (last_applied_ r)).

Lemma rows_left_shrink H r (from to : bytes) : key_lt from to = true -> is_Some (state_at (V:=V) H (last_applied_ r) !! to) ->
  (size (rows_left H r to) < size (rows_left H r from))%nat.
Proof.
  intros Hlt [v Hv]. apply map_subset_size, map_subset_alt. split.
  - apply map_subseteq_spec. intros k x. unfold rows_left. rewrite !map_lookup_filter_Some. simpl. intros [H1 H2].
    split; [done|]. intros U. apply H2. by eapply upto_weaken.
  - exists to. unfold rows_left. split; [apply map_lookup_filter_None; right; simpl; intros x _ Hn; apply Hn, upto_refl|].
    exists v. apply map_lookup_filter_Some. split; [done|]. unfold upto. simpl. congruence.
Qed.
End sender.

(** ** Both sides *)
Section replication.
Context {T L D V : Type} `{!EqDecision L, !Countable L} {MO : MerkleOps T L} {MS : MerkleSpec T L}.
Context {RP : RaftPlatform} {RPL : RaftPlatformLaws} {DB : Database T D} {DS : DatabaseSpec T L D V}.
Context {NP : NoisePlatform} {NL : NoiseLaws} {MP : MsgPlatform} {LM : LogMessages} {EV : Env}.
Notation Core := (Core T L D).
Notation M := (M T L D).
Implicit Types (c : Core) (H : list LogEntry) (ps : ReplicationPushState) (id : Z).

(** The member at the time of a push. *)
Record Snapshot := { sn_raft : Raft T L; sn_db : D; sn_chunk : Z }.
Notation applied s := (last_applied_ (sn_raft s)).

(** The pushes it sends, one at each of the times [ss]. *)
Fixpoint send_pushes (ss : list Snapshot) ps : option (ReplicationPushState * list ReplicateStatePush) :=
  match ss with
  | [] => Some (ps, [])
  | s :: ss' =>
      if finished_sending ps then Some (ps, []) else
      '(ps, res) ← next_push (sn_raft s) (sn_db s) (sn_chunk s) (applied s) ps;
      match res with
      | inr _ => Some (ps, [])
      | inl p => '(ps, pushes) ← send_pushes ss' ps; Some (ps, p :: pushes)
      end
  end.

(** The pushes received in order, up to the first one that is refused. *)
Fixpoint receive_pushes (pushes : list ReplicateStatePush) : M Error :=
  match pushes with
  | [] => mret OK
  | p :: pushes' => err ← HandleReplicateStatePush p; if is_ok err then receive_pushes pushes' else mret err
  end.

(** The member follows [H], applies more and more of it, and keeps the log
    entries that it has not sent yet. *)
Fixpoint sending H (before : LogIdx) (ss : list Snapshot) ps : Prop :=
  match ss with
  | [] => True
  | s :: ss' => follows H (sn_raft s) (sn_db s) /\ before <= applied s /\
      oldest_stored_idx_ (log_ (sn_raft s)) <= logs_from_idx_inclusive ps /\
      forall ps' p, next_push (sn_raft s) (sn_db s) (sn_chunk s) (applied s) ps = Some (ps', inl p) -> sending H (applied s) ss' ps'
  end.

(** What the receiver has after the pushes of [ss], the last of which left [ps]. *)
Definition received c H id start (ss : list Snapshot) ps : Prop :=
  if finished_sending ps then exists s largest, s ∈ ss /\ start <= applied s /\
    receiving c H id (ps_replication_sequence ps) largest (next_at H start (applied s + 1)) (applied s + 1) /\
    part_upto largest (state_at H (applied s)) = state_at (V:=V) H (applied s)
  else receiving c H id (ps_replication_sequence ps) (db_from_key_exclusive ps)
         (next_at H start (logs_from_idx_inclusive ps)) (logs_from_idx_inclusive ps).

Lemma received_weaken c H id start ss ss' ps : ss ⊆ ss' -> received c H id start ss ps -> received c H id start ss' ps.
Proof. unfold received. destruct (finished_sending ps); [|done]. intros Hs (s & lg & H1 & H2). exists s, lg. auto. Qed.

Lemma replication_run ss H before ps start :
  push_state_ok ps -> start <= before -> logs_from_idx_inclusive ps <= before + 1 -> sending H before ss ps ->
  exists ps' pushes, send_pushes ss ps = Some (ps', pushes) /\
    forall c, received c H (ps_replication_id ps) start [] ps ->
    wp (receive_pushes pushes) (fun err c' =>
      (err = OK /\ received c' H (ps_replication_id ps) start ss ps') \/ repl_error H err) c.
Proof.
  revert before ps. induction ss as [|s ss IH]; intros before ps Hok Hst Hb Hs.
  { exists ps, []. split; [done|]. intros c Hr. simpl. wp_step. by left. }
  destruct Hs as (F & Hap & Hold & Hnext). simpl. pose proof Hok as [Hfin _]. rewrite Hfin.
  destruct (next_push_spec H (sn_raft s) (sn_db s) (sn_chunk s) ps F Hok ltac:(lia)) as (ps1 & p & lg & Hp & Hpush & [[D1 D1'] D2 D3 D4 _ _]).
  rewrite Hp. simpl.
  assert (Hrest : forall pushes Q c, received c H (ps_replication_id ps) start [] ps ->
      (forall c1, receiving c1 H (ps_replication_id ps) (ps_replication_sequence ps ⊕ 1) lg
        (next_at H start (logs_from_idx_inclusive ps1)) (logs_from_idx_inclusive ps1) -> wp (receive_pushes pushes) Q c1) ->
      (forall err c1, repl_error H err -> Q err c1) -> wp (receive_pushes (p :: pushes)) Q c).
  { intros pushes Q c Hr HQ He. unfold received in Hr. rewrite Hfin in Hr. simpl. wp_step.
    eapply wp_mono; [exact (HandleReplicateStatePush_wp _ _ _ _ _ _ _ _ _ _ Hr Hpush)|]. intros err c1 [[-> R]|Herr]; [by apply HQ|].
    assert (is_ok err = false) as ->.
    { destruct Herr as [->|[->|[Hbad _]]]; [done|done|]. by rewrite is_ok_false. }
    wp_step. by apply He. }
  destruct (finished_sending ps1) eqn:Ef1.
  - destruct (D4 eq_refl) as [D4' D5]. exists ps1, [p]. split; [destruct ss; simpl; by rewrite ?Ef1|].
    intros c Hr. apply Hrest; [done| |by right]. intros c1 R. simpl. wp_step. left. split; [done|]. unfold received. rewrite Ef1.
    exists s, lg. split; [left|]. split; [lia|]. rewrite D1'. by rewrite D4' in R.
  - destruct (D3 eq_refl) as [Hok1 Hlg].
    destruct (IH (applied s) ps1 Hok1 ltac:(lia) ltac:(lia) (Hnext _ _ Hp)) as (ps2 & pushes & -> & Hw). simpl.
    exists ps2, (p :: pushes). split; [done|]. rewrite D1 in Hw. intros c Hr. apply Hrest; [done| |by right].
    intros c1 R. eapply wp_mono; [apply Hw|].
    + unfold received. by rewrite Ef1, D1', Hlg.
    + intros err c2 [[-> Hr2]|Herr]; [left|by right]. split; [done|]. eapply received_weaken; [|exact Hr2]. set_solver.
Qed.

(** The receiver when the first push arrives, as [RequestRaftReplication] leaves it. *)
Record fresh_loading c id : Prop := {
  fl_state : state (raft_ c) = RAFTSTATE_LOADING;
  fl_log : exists m, ld_log (loading (raft_ c)) = Some (Log_new m);
  fl_db : ld_db (loading (raft_ c)) = Some db_NewDB;
  fl_tree : tree_ok ∅ (merkle_tree_ c);
  fl_id : replication_id (loading (raft_ c)) = id;
  fl_seq : replication_sequence (loading (raft_ c)) = 0;
  fl_largest : lexigraphically_largest_row_loaded_into_db (loading (raft_ c)) = [] }.

(** The push state [HandleReplicateStateRequest] starts with. *)
Definition first_push (r : Raft T L) (target : PeerID) (tx id : Z) : ReplicationPushState := {|
  logs_from_idx_inclusive := oldest_stored_idx (log_ r); db_from_key_exclusive := [];
  finished_sending := false; push_target := target; push_tx := tx;
  ps_replication_id := id; ps_replication_sequence := 0; sent_response := false |}.

Lemma fresh_received c id H r target tx :
  fresh_loading c id -> received c H id (oldest_stored_idx (log_ r)) [] (first_push r target tx id).
Proof.
  intros [F1 [m F2] F3 F4 F5 F6 F7]. unfold received. simpl. split; try done.
  - exists (Log_new m). split; [done|]. by left.
  - destruct (db_NewDB_spec _ F4) as (N1 & N2 & _). exists db_NewDB. split_and!; [done|done|].
    rewrite N2. symmetry. apply part_upto_nil, state_at_sized.
Qed.

Lemma recv_log_at H l idx i e : recv_log H l idx -> log_at l i = Some e -> entry_at H i = Some e.
Proof.
  intros [R1 R2 R3 R4 R5]. unfold log_at. destruct (i <? _) eqn:E; [done|]. zbool. intros He. specialize (R5 _ _ He).
  by replace (oldest_stored_idx_ l + Z.of_nat (Z.to_nat (i - oldest_stored_idx_ l))) with i in R5 by lia.
Qed.

Lemma follows_start H r d : follows H r d -> oldest_stored_idx (log_ r) = oldest_stored_idx_ (log_ r) /\
  1 <= oldest_stored_idx_ (log_ r) <= last_applied_ r.
Proof.
  intros F. pose proof (ci_idx _ (inv_core _ (fw_inv _ _ _ F))) as [I1 I2 I3 I4 I5 I6 I7 I8]. pose proof (fw_applied _ _ _ F).
  pose proof (log_ok_oldest _ I1). pose proof (last_idx_eq _ I1). unfold oldest_stored_idx.
  destruct (Zlen (entries_ (log_ r)) =? 0) eqn:E; [zbool; lia|]. split; [done|lia].
Qed.

(** A database received whole. *)
Record copied c H (n : LogIdx) : Prop := {
  cp_log : exists l, ld_log (loading (raft_ c)) = Some l /\ last_idx l = n /\ recv_log H l (n + 1) /\ entries_ l <> [];
  cp_db : exists d, ld_db (loading (raft_ c)) = Some d /\ db_ok (merkle_tree_ c) d /\ db_view d = state_at H n;
  cp_hash : forall r d d', follows H r d -> last_applied_ r = n -> ld_db (loading (raft_ c)) = Some d' ->
    is_Some (db_Hash d) /\ db_Hash d' = db_Hash d }.

Lemma received_copied c H id start ss ps :
  received c H id start ss ps -> finished_sending ps = true ->
  exists s, s ∈ ss /\ copied c H (applied s).
Proof.
  unfold received. intros Hr Hf. rewrite Hf in Hr. destruct Hr as (s & lg & Hs & Hst & [R1 R2 R3 R4 (l & R5 & R5') (d & R6 & R7 & R8)] & Hfull).
  exists s. split; [done|]. replace (applied s + 1 - 1) with (applied s) in R8 by lia. rewrite Hfull in R8. split.
  - exists l. split; [done|]. destruct R5' as [[_ ?]|[Hne Rl]]; [lia|]. split_and!; [|done|done].
    rewrite (recv_log_last _ _ _ Rl). unfold empty. destruct (Zlen (entries_ l) =? 0) eqn:E; [|lia].
    destruct Hne. apply Zlen_zero. by zbool.
  - exists d. done.
  - intros r d0 d' F Ha Hd'. rewrite R6 in Hd'. injection Hd' as <-.
    apply (db_Hash_spec _ _ _ _ (fw_db _ _ _ F) R7). rewrite R8, (fw_view _ _ _ F). by rewrite Ha.
Qed.

Lemma send_pushes_end n H s ps :
  PushSizes -> 33 + db_MaxRowSerializedSize <= sn_chunk s -> follows H (sn_raft s) (sn_db s) -> push_state_ok ps ->
  oldest_stored_idx_ (log_ (sn_raft s)) <= logs_from_idx_inclusive ps <= applied s + 1 ->
  (Z.to_nat (applied s + 1 - logs_from_idx_inclusive ps) + size (rows_left (V:=V) H (sn_raft s) (db_from_key_exclusive ps)) < n)%nat ->
  exists ps' pushes, send_pushes (replicate n s) ps = Some (ps', pushes) /\ finished_sending ps' = true.
Proof.
  intros PZ Hchunk F. revert ps. induction n as [|n IH]; intros ps Hok Hidx Hn; [lia|]. simpl. pose proof Hok as [-> _].
  destruct (next_push_spec H (sn_raft s) (sn_db s) (sn_chunk s) ps F Hok Hidx)
    as (ps1 & p & lg & -> & _ & [D1 D2 D3 D4 D5 D6]). simpl.
  destruct (finished_sending ps1) eqn:Ef.
  { exists ps1, [p]. destruct n; simpl; by rewrite ?Ef. }
  destruct (D3 eq_refl) as [Hok1 Hlg].
  destruct (IH ps1 Hok1) as (ps2 & pushes & -> & Hend); [lia| |simpl; eauto].
  rewrite Hlg. destruct D6 as [->|[Hlt Hlg']].
  - destruct (D5 PZ Hchunk) as [?|[Hlt|?]]; [done|lia|done].
  - pose proof (rows_left_shrink H (sn_raft s) _ _ Hlt Hlg'). lia.
Qed.

(** The pushes are accepted or refused; all of them are a copy. *)
Lemma replication_accepts H s ss c id target tx :
  fresh_loading c id ->
  sending H 1 (s :: ss) (first_push (sn_raft s) target tx id) ->
  exists ps' pushes c' err,
    send_pushes (s :: ss) (first_push (sn_raft s) target tx id) = Some (ps', pushes) /\
    receive_pushes pushes c = Some (c', err) /\
    (err = OK \/ repl_error H err) /\
    (err = OK -> finished_sending ps' = true -> exists s', s' ∈ s :: ss /\ copied c' H (applied s')).
Proof.
  intros Hf Hs. pose proof Hs as (F & Hap & Hold & Hn). destruct (follows_start _ _ _ F) as [E1 [E2 E3]].
  destruct (replication_run (s :: ss) H (oldest_stored_idx (log_ (sn_raft s))) (first_push (sn_raft s) target tx id)
    (oldest_stored_idx (log_ (sn_raft s)))) as (ps' & pushes & Hsend & Hw).
  { split; [done|by left]. } { done. } { simpl. lia. } { split_and!; [done|lia|done|done]. }
  destruct (Hw c (fresh_received c id H _ target tx Hf)) as (c' & err & Hrun & Hres).
  exists ps', pushes, c', err. split_and!; [done|done|destruct Hres as [[-> _]|?]; auto|].
  intros -> Hfin. destruct Hres as [[_ Hr]|[?|[?|[? _]]]]; [|done..]. by eapply received_copied.
Qed.
End replication.
