(* ===== verification/CoreJoin.v ===== *)
(** * Becoming a member

    The Raft replica, the database and the leaf of the last applied index
    that a core sets up when it creates a group, and when it has received the
    state of one; and what becomes of those it had. *)
From stdpp Require Import prelude gmap.
From S2P Require Import Prelude Errors Containers Util RaftTypes RaftLog PeerId Membership Merkle Raft RaftInv RaftPublic.
From S2P Require Import ClientTypes Minimums GroupClock Timeout Db Database Msgs Noise Client Peers CoreState Core.
From S2P Require Import CoreReplicate CoreHoare CoreApply Replication.

Section join.
Context {T L D V : Type} `{!EqDecision L, !Countable L} {MO : MerkleOps T L} {MS : MerkleSpec T L}.
Context {RP : RaftPlatform} {RPL : RaftPlatformLaws} {DB : Database T D} {DS : DatabaseSpec T L D V}.
Context {NP : NoisePlatform} {NL : NoiseLaws} {MP : MsgPlatform} {EV : Env}.
Notation Core := (Core T L D).
Notation M := (M T L D).
Notation Raft := (Raft T L).
Implicit Types (c : Core) (r : Raft) (d : D) (t : T) (lf : L) (H : list LogEntry).

(** A new replica beside a database: the leaves are fresh. *)
Lemma loaded_new group me t d mem log config cl sm n :
  db_ok t d -> new_wf me t mem log config cl sm ->
  exists r t1 lf t2, Raft_new group me t mem log config cl sm = Some r /\ leaf_new (merkle_ r) = Some (t1, lf) /\
    leaf_update t1 lf (BigEndian64Bytes n) = Some t2 /\ new_frame me t mem log cl r /\ inv r /\ me_ r = me /\
    (role_ r = LEADER <-> voting_replicas_ mem = [me]) /\ membership r = mem /\ sendable_messages_ r = [] /\
    forall h, loaded_state (state h) = true -> loaded h = {| lo_group_config := lo_group_config (loaded h);
        lo_raft := Some r; lo_db := Some d; db_last_applied_log := n; db_last_applied_log_leaf := Some lf |} ->
      holds h t2 (with_tree r t2) d lf n.
Proof.
  intros Hd Hn. destruct (Raft_new_full group me t mem log config cl sm Hn)
    as (r & -> & Hi & Hme & _ & _ & Hm & Hmsg & _ & Hrole & Hfr).
  pose proof (inv_sync _ Hi) as [[L1 L2 [hc L3] [hp L4]] _ _].
  destruct (leaf_new_spec ∅ _ L1) as (t1 & lf & Hnew & F1 & K1 & V1).
  destruct (leaf_update_spec _ t1 lf zero_hash (BigEndian64Bytes n) K1) as (t2 & Hup & K2 & V2); [by rewrite V1, lookup_insert_eq|].
  replace (({[lf]} ∪ ∅) ∖ {[lf]}) with (∅ : gset L) in K2 by set_solver.
  exists r, t1, lf, t2. split_and!; try done. intros h Hst Hh.
  assert (Hview : forall l, l <> lf -> tree_view t2 !! l = tree_view (merkle_ r) !! l).
  { intros l Hl. by rewrite V2, lookup_insert_ne, V1, lookup_insert_ne. }
  assert (lf <> commit_leaf_ r /\ lf <> promise_leaf_ r) as [Hlc Hlp] by (split; intros ->; congruence).
  assert (Hown : forall l, db_owns d l -> exists x, tree_view t !! l = Some x /\ tree_view (merkle_ r) !! l = Some x).
  { intros l Ho. destruct (db_owns_live _ _ _ Hd Ho) as [x Hx]. exists x. split; [done|]. by apply (nf_tree _ _ _ _ _ _ Hfr). }
  assert (Hnot : forall l, tree_view t !! l = None \/ tree_view (merkle_ r) !! l = None -> ~ db_owns d l).
  { intros l Hl Ho. destruct (Hown l Ho) as (x & X1 & X2). destruct Hl; congruence. }
  split; simpl; try done; try by rewrite Hh.
  - exists r. by rewrite Hh.
  - apply inv_tree; [done|done|by rewrite Hview|by rewrite Hview].
  - eapply db_ok_frame; [exact Hd|done|]. intros l Ho. destruct (Hown l Ho) as (x & X1 & X2). rewrite Hview; [congruence|].
    intros ->. congruence.
  - by rewrite V2, lookup_insert_eq.
  - split_and!; apply Hnot; [by right|left; apply Hfr..].
Qed.

(** *** A new replica in place of an old one

    What is loaded is destroyed after the leaves of its successor were made:
    it leaves them alone, also the one that was not set yet. *)
Definition destroyable t (old : Loaded T L D) : Prop :=
  forall P t1, tree_ok P t1 -> (forall x h, tree_view t !! x = Some h -> tree_view t1 !! x = Some h /\ x ∉ P) ->
  exists t2, Loaded_destroy t1 old = Some t2 /\ tree_ok P t2 /\
    forall x, tree_view t !! x = None -> tree_view t2 !! x = tree_view t1 !! x.

Lemma clear_destroyable t : destroyable t Loaded_clear.
Proof. intros P t1 Ht _. by exists t1. Qed.

Lemma Raft_destroy_spec P t r t1 :
  merkle_live r -> merkle_ r = t -> tree_ok P t1 ->
  (forall x h, tree_view t !! x = Some h -> tree_view t1 !! x = Some h /\ x ∉ P) ->
  exists t2, Raft_destroy t1 r = Some t2 /\ tree_ok P t2 /\
    forall x, x <> commit_leaf_ r -> x <> promise_leaf_ r -> tree_view t2 !! x = tree_view t1 !! x.
Proof.
  intros [_ Hne [hc Hc] [hp Hp]] <- Ht Hin. destruct (Hin _ _ Hc) as [Vc Pc]. destruct (Hin _ _ Hp) as [Vp Pp].
  unfold Raft_destroy. destruct (leaf_drop_spec P t1 _ hp Ht Vp Pp) as (ta & -> & Ha & Va). simpl.
  destruct (leaf_drop_spec P ta (commit_leaf_ r) hc Ha) as (tb & -> & Hb & Vb); [by rewrite Va, lookup_delete_ne|done|].
  exists tb. split_and!; [done|done|]. intros x X1 X2. by rewrite Vb, lookup_delete_ne, Va, lookup_delete_ne.
Qed.

Lemma holds_destroyable h t r d lf n : holds h t r d lf n -> destroyable t (loaded h).
Proof.
  intros [_ (r0 & Hr0 & ->) Hi Hd Hdok Hlf _ Hh [A1 A2] (O1 & O2 & O3)] P t1 Ht1 Hin. simpl in *.
  pose proof (inv_sync _ Hi) as [HL _ _]. pose proof HL as [_ _ [hc L3] [hp L4]]. simpl in L3, L4.
  unfold Loaded_destroy. rewrite Hr0, Hd, Hlf. simpl.
  destruct (Raft_destroy_spec P t _ t1 HL eq_refl Ht1 Hin) as (ta & Ea & Ha & Va). simpl in Va.
  change (Raft_destroy t1 {| r0 with merkle_ := t |}) with (Raft_destroy t1 r0) in Ea. rewrite Ea. simpl.
  destruct (db_destroy_spec P t ta d Hdok Ha) as (tb & -> & Hb & Vb).
  { intros l Ho. destruct (db_owns_live _ _ _ Hdok Ho) as [x Hx]. destruct (Hin _ _ Hx) as [V1 P1].
    rewrite Va; [by rewrite V1, Hx|by intros ->..]. }
  simpl. destruct (Hin _ _ Hh) as [V2 P2].
  destruct (leaf_drop_spec P tb lf (BigEndian64Bytes n) Hb) as (tc & Ec & Hc & Vc); [by rewrite Vb, Va|done|].
  exists tc. split_and!; [done|done|]. intros x Hx.
  rewrite Vc, lookup_delete_ne, Vb, Va; [done|by intros ->; congruence|by intros ->; congruence| |by intros ->; congruence].
  intros Ho. destruct (db_owns_live _ _ _ Hdok Ho) as [y Hy]. congruence.
Qed.

Lemma loaded_replaced group me t mem log config cl sm n old :
  tree_ok ∅ t -> destroyable t old -> new_wf me t mem log config cl sm ->
  exists r t1 lf t2 t3, Raft_new group me t mem log config cl sm = Some r /\ leaf_new (merkle_ r) = Some (t1, lf) /\
    Loaded_destroy t1 old = Some t2 /\ leaf_update t2 lf (BigEndian64Bytes n) = Some t3 /\
    new_frame me t mem log cl r /\ inv r /\ me_ r = me /\
    (role_ r = LEADER <-> voting_replicas_ mem = [me]) /\ membership r = mem /\ sendable_messages_ r = [] /\
    forall h, loaded_state (state h) = true -> loaded h = {| lo_group_config := lo_group_config (loaded h);
        lo_raft := Some r; lo_db := Some db_NewDB; db_last_applied_log := n; db_last_applied_log_leaf := Some lf |} ->
      holds h t3 (with_tree r t3) db_NewDB lf n.
Proof.
  intros Ht Hold Hn. destruct (Raft_new_full group me t mem log config cl sm Hn)
    as (r & -> & Hi & Hme & _ & _ & Hm & Hmsg & _ & Hrole & Hfr).
  pose proof (inv_sync _ Hi) as [[L1 L2 [hc L3] [hp L4]] _ _].
  destruct (leaf_new_spec ∅ _ L1) as (t1 & lf & Hnew & F1 & K1 & V1).
  assert (lf <> commit_leaf_ r /\ lf <> promise_leaf_ r) as [Hlc Hlp] by (split; intros ->; congruence).
  assert (Hlf : tree_view t !! lf = None).
  { destruct (tree_view t !! lf) as [x|] eqn:E; [|done]. apply (nf_tree _ _ _ _ _ _ Hfr) in E. congruence. }
  destruct (Hold ({[lf]} ∪ ∅) t1 K1) as (t2 & Hdes & K2 & V2).
  { intros x h Hx. assert (x <> lf) by (intros ->; congruence). rewrite V1, lookup_insert_ne by done.
    split; [by apply (nf_tree _ _ _ _ _ _ Hfr)|set_solver]. }
  destruct (leaf_update_spec _ t2 lf zero_hash (BigEndian64Bytes n) K2) as (t3 & Hup & K3 & V3);
    [by rewrite V2, V1, lookup_insert_eq|].
  replace (({[lf]} ∪ ∅) ∖ {[lf]}) with (∅ : gset L) in K3 by set_solver.
  assert (Hview : forall l, l <> lf -> tree_view t !! l = None -> tree_view t3 !! l = tree_view (merkle_ r) !! l).
  { intros l Hl Hx. by rewrite V3, lookup_insert_ne, V2, V1, lookup_insert_ne. }
  destruct (db_NewDB_spec _ K3) as (Hd & _ & Hno).
  exists r, t1, lf, t2, t3. split_and!; try done. intros h Hst Hh. split; simpl; try done; try by rewrite Hh.
  - exists r. by rewrite Hh.
  - apply inv_tree; [done|done|apply Hview; [done|apply Hfr]..].
  - by rewrite V3, lookup_insert_eq.
Qed.

(** The entries of the group, as the log invariant asks for them. *)
Record history_ok H : Prop := {
  hi_wf : Forall entry_wf H;
  hi_first : forall e, entry_at H 1 = Some e -> hash_chain e = hmac_sha256 (replicate 32 0) (hash_input 1 e);
  hi_next : forall i e0 e, entry_at H i = Some e0 -> entry_at H (i + 1) = Some e ->
    hash_chain e = hmac_sha256 (hash_chain e0) (hash_input (i + 1) e) }.

Lemma recv_log_ok H l idx : recv_log H l idx -> entries_ l <> [] -> history_ok H ->
  log_ok l /\ Forall entry_wf (entries_ l) /\ chain_ok l.
Proof.
  intros R Hne [H1 H2 H3]. split_and!.
  - destruct R as [R1 R2 R3 R4 R5]. split; [done|lia|done|done].
  - apply Forall_forall. intros e He. apply list_elem_of_lookup_1 in He as [i Hi].
    apply (rl_entries _ _ _ R), entry_at_elem in Hi. by apply (proj1 (Forall_forall _ _) H1).
  - split; intros; eauto using recv_log_at.
Qed.

(** ** Timeouts *)
Definition timeouts_room c : Prop :=
  0 < e2e_txn_timeout_ticks (enclave_config_ c) /\ 0 <= ticks_ (timeout_ c) /\
  e2e_txn_timeout_ticks (enclave_config_ c) + ticks_ (timeout_ c) < 2 ^ 63.

Lemma SetTimeout_total {F} (s : Timeout F) n f : 0 < n -> n + ticks_ s < 2 ^ 63 ->
  exists s' tc, SetTimeout s n f = Some (s', tc) /\ ticks_ s' = ticks_ s.
Proof.
  intros Hn Hr. unfold SetTimeout. rewrite (proj2 (Z.ltb_lt _ _)) by lia. unfold CHECK.
  rewrite (proj2 (Z.ltb_lt (ticks_ s) _)) by lia. eauto.
Qed.

(** Callbacks that do nothing much with an error. *)
Definition calm (cb : E2ECallback) : Prop := match cb with CB_ReplicationPush _ _ => False | _ => True end.

Lemma e2e_error_kept cb err c : calm cb ->
  wp (e2e_error cb err) (fun _ c' => kept c c') c.
Proof.
  intros Hc. destruct cb; try done; simpl; try by (unfold ReplyWithError; wp_steps). apply log_callback_kept.
Qed.

Lemma SendE2ETransaction_kept to req wt cb c : calm cb -> timeouts_room c ->
  wp (SendE2ETransaction to req wt cb) (fun _ => kept c) c.
Proof.
  intros Hc [Hr1 [Hr2 Hr3]]. unfold SendE2ETransaction. do 5 wp_step. eapply wp_mono; [apply pm_SendToPeer_kept|].
  intros err c1 K. assert (K' : kept c c1) by done. destruct (negb (is_ok err)).
  { eapply wp_mono; [by apply e2e_error_kept|]. intros ? c2 K2. by eapply kept_trans. }
  wp_step. destruct wt; [|by wp_steps]. do 2 wp_step. wp_step.
  unfold kept, kept_part in K'. injection K' as K1 K2 K3 K4 K5 K6 K7 K8 K9 K10.
  destruct (SetTimeout_total (timeout_ c1) (e2e_txn_timeout_ticks (enclave_config_ c1)) (TF_E2ETransaction (e2e_txn_id_ c ⊕ 1) to))
    as (s & tc & Hs & Ht); [by rewrite K4|rewrite K4, K10; lia|]. eapply wp_lift; [exact Hs|]. wp_steps.
  unfold kept, kept_part. simpl. congruence.
Qed.

Lemma RaftRequestMembership_kept c r d lf n tx :
  holds (raft_ c) (merkle_tree_ c) r d lf n -> state (raft_ c) = RAFTSTATE_LOADED_REQUESTING_MEMBERSHIP -> timeouts_room c ->
  wp (RaftRequestMembership tx) (fun _ => kept c) c.
Proof.
  intros Hh Hst Hr. pose proof Hr as [Hr1 [Hr2 Hr3]]. unfold RaftRequestMembership. do 2 wp_step. wp_step.
  apply wp_check; [by rewrite Hst|]. wp_step.
  destruct (SetTimeout_total (timeout_ c) (e2e_txn_timeout_ticks (enclave_config_ c)) (TF_RequestMembership tx))
    as (s & tc & Hs & Ht); [done|lia|]. eapply wp_lift; [exact Hs|]. do 2 wp_step. wp_step. eapply get_raft_wp; [exact Hh|].
  set (c1 := {| c with timeout_ := s |}). assert (K0 : kept c c1) by (unfold kept, kept_part; simpl; by rewrite Ht).
  eapply wp_mono; [apply (wp_for_each _ _ (kept c)); [exact K0|]|done].
  intros p c2 _ K. eapply wp_mono; [apply SendE2ETransaction_kept; [done|]|].
  - unfold timeouts_room. unfold kept, kept_part in K. injection K as K1 K2 K3 K4 K5 K6 K7 K8 K9 K10. rewrite K4, K10. lia.
  - intros ? c3 K3. by eapply kept_trans.
Qed.

(** ** The end of replication *)

(** What the joining enclave has besides the state that was copied. *)
Record joiner c H (n : LogIdx) (mem : Membership) : Prop := {
  jo_loaded : loaded (raft_ c) = Loaded_clear;
  jo_mem : ld_mem (loading (raft_ c)) = Some mem;
  jo_good : membership_good mem;
  jo_outside : ID (peer_manager_ c) ∉ voting_replicas_ mem;
  jo_config : 0 < election_ticks (raft_config (enclave_config_ c));
  jo_super : 0 <= super_majority (ld_group_config (loading (raft_ c))) < 2 ^ 62;
  jo_room : 1 <= n /\ n + 2 < 2 ^ 64;
  jo_timeouts : timeouts_room c }.

Lemma joiner_new_wf c H n mem l d : joiner c H n mem -> history_ok H -> recv_log H l (n + 1) -> entries_ l <> [] -> last_idx l = n ->
  db_ok (merkle_tree_ c) d ->
  new_wf (ID (peer_manager_ c)) (merkle_tree_ c) mem l (raft_config (enclave_config_ c)) true (super_majority (ld_group_config (loading (raft_ c)))).
Proof.
  intros [J1 J2 J3 J4 J5 J6 [J7 J7'] J8] Hh Hl Hne Hlast Hd. destruct (recv_log_ok _ _ _ Hl Hne Hh) as (L1 & L2 & L3).
  split; try done; [by eapply db_ok_tree|lia|by left|]. intros Hv. destruct J4. rewrite Hv. left.
Qed.

Lemma PromoteRaftToLoaded_wp c H n mem :
  copied (V:=V) c H n -> history_ok H -> joiner c H n mem ->
  wp PromoteRaftToLoaded (fun _ c' => exists r d lf, holds (raft_ c') (merkle_tree_ c') r d lf n /\
    state (raft_ c') = RAFTSTATE_LOADED_REQUESTING_MEMBERSHIP /\ follows H r d /\ last_applied_ r = n /\ membership r = mem) c.
Proof.
  intros [(l & C1 & C2 & C3 & C4) (d & C5 & C6 & C7) _] Hh J. pose proof (joiner_new_wf _ _ _ _ _ _ J Hh C3 C4 C2 C6) as Hw.
  destruct J as [J1 J2 J3 J4 J5 J6 [J7 J7'] J8]. unfold PromoteRaftToLoaded. wp_run. unfold ClearState. wp_run.
  eapply wp_lift; [done|]. wp_run. eapply wp_lift; [by rewrite J1|]. wp_run. eapply wp_lift; [exact C1|].
  wp_run. eapply wp_lift; [exact J2|]. wp_run.
  destruct (loaded_new (group_id (ld_group_config (loading (raft_ c)))) _ _ d _ _ _ _ _ n C6 Hw)
    as (r & t1 & lf & t2 & Hnew & Hleaf & Hup & Hfr & Hi & Hme & Hrole & Hm & _ & Hholds).
  eapply wp_lift; [exact Hnew|]. wp_run. eapply wp_lift; [exact Hleaf|]. wp_run.
  unfold UpdateLastAppliedLog. wp_run. eapply wp_lift; [done|]. wp_run. rewrite C2.
  eapply wp_lift; [exact Hup|]. wp_run.
  match goal with |- wp _ _ ?c' => set (c2 := c') end.
  assert (Hc2 : holds (raft_ c2) (merkle_tree_ c2) (with_tree r t2) d lf n) by (apply Hholds; [done|simpl; by rewrite C5]).
  eapply wp_mono; [eapply RaftRequestMembership_kept; [exact Hc2|done|exact J8]|].
  intros ? c3 K. unfold kept, kept_part in K. injection K as K1 K2 _ _ _ _ _ _ _ _. rewrite K1, K2.
  exists (with_tree r t2), d, lf. split_and!; [done|done| | |done].
  - destruct (nf_joining _ _ _ _ _ _ Hfr) as [Hlog _]; [intros Hv; rewrite Hv in J4; by destruct J4; left|].
    split; [apply Hc2|apply Hc2|simpl..].
    + rewrite (nf_applied _ _ _ _ _ _ Hfr). simpl. lia.
    + rewrite Hlog. intros i e He _. by eapply recv_log_at.
    + rewrite (nf_applied _ _ _ _ _ _ Hfr), C7. simpl. by rewrite C2.
  - simpl. rewrite (nf_applied _ _ _ _ _ _ Hfr). done.
Qed.

(** ** A new group *)
Lemma limits_accept_empty s es : Forall (fun e => entry_inner e = INNER_NOT_SET) es ->
  limits_accept_all s es /\ foldl limits_entry s es = s /\ forall me st, foldl (member_entry me) st es = st.
Proof.
  intros He. induction He as [|e es He _ IH]; simpl; [done|].
  unfold limits_accept, limits_entry, member_entry in *. rewrite He. tauto.
Qed.

Lemma view_entries_empty (es : list LogEntry) (m : gmap bytes V) : Forall (fun e => entry_inner e = INNER_NOT_SET) es -> foldl view_entry m es = m.
Proof.
  intros He. induction He as [|e es He _ IH]; simpl; [done|].
  assert (view_entry m e = m) as -> by (unfold view_entry, entry_log; by rewrite He). done.
Qed.

Lemma entries_from_Forall (P : LogEntry -> Prop) l idx n :
  (forall i e, log_at l i = Some e -> P e) -> Forall P (entries_from l idx n).
Proof.
  intros HP. revert idx. induction n as [|n IH]; intros idx; simpl; [constructor|].
  destruct (log_at l idx) eqn:E; [|constructor]. constructor; [by eapply HP|done].
Qed.

(** *** What was sent stays sent *)
Definition grows {A} (m : M A) : Prop := forall c c' a, m c = Some (c', a) -> sent c `prefix_of` sent c'.

Lemma wp_grows {A} (m : M A) Q c : grows m -> wp m Q c -> wp m (fun a c' => Q a c' /\ sent c `prefix_of` sent c') c.
Proof. intros Hg (c' & a & H & HQ). exists c', a. eauto. Qed.
Lemma grows_ret {A} (a : A) : grows (mret a).
Proof. by intros c c' b [= <- _]. Qed.
Lemma grows_bind {A B} (m : M A) (f : A -> M B) : grows m -> (forall a, grows (f a)) -> grows (m ≫= f).
Proof.
  intros Hm Hf c c' b. unfold mbind, M_bind. destruct (m c) as [[c1 a]|] eqn:E; [|done]. intros H.
  transitivity (sent c1); [by eapply Hm|by eapply Hf].
Qed.
Lemma grows_get : grows get.
Proof. by intros c c' b [= <- _]. Qed.
Lemma grows_lift {A} (o : option A) : grows (lift o).
Proof. intros c c' b. unfold lift. destruct o; [|done]. by intros [= <- _]. Qed.
Lemma grows_check b : grows (check b).
Proof. apply grows_lift. Qed.
Lemma grows_modify f : (forall c, sent (f c) = sent c) -> grows (modify f).
Proof. intros Hf c c' b [= <- _]. by rewrite Hf. Qed.
Lemma grows_emit ms : grows (emit ms).
Proof. intros c c' b [= <- _]. simpl. by exists ms. Qed.
Lemma grows_for_each {A} (l : list A) (f : A -> M unit) : (forall a, grows (f a)) -> grows (for_each l f).
Proof. intros Hf. induction l as [|a l IH]; simpl; [apply grows_ret|]. apply grows_bind; auto. Qed.

Ltac grow known :=
  repeat first
    [ known | match goal with |- forall _, _ => intros ? end | apply grows_ret | apply grows_get | apply grows_lift | apply grows_check | apply grows_emit
    | apply grows_modify; done | assumption | apply grows_for_each | apply grows_bind
    | match goal with |- grows (match ?x with _ => _ end) => destruct x end ].

Lemma log_callback_grows cb err resp : grows (log_callback cb err resp).
Proof.
  destruct cb; unfold log_callback, ClientLogTransaction, ReplyWithError, SendE2EError, pm_SendToPeer, on_peers, cm_RemoveClient, set_clients; grow fail.
Qed.

Lemma apply_committed_grows idx e : grows (apply_committed idx e).
Proof.
  unfold apply_committed, VerifyLastAppliedLog, UpdateLastAppliedLog, HandleRaftMembershipChange, RaftApplyLogToDatabase,
    HandleRaftMinimumsChange, HandleLogTransactionsForRaftLog, on_peers, get_raft, set_state, set_loaded, set_tree.
  grow ltac:(apply log_callback_grows).
Qed.

Lemma RaftStep_grows : grows RaftStep.
Proof.
  assert (forall fuel, grows (committed_loop fuel)) as Hloop.
  { induction fuel as [|fuel IH]; simpl; [apply grows_lift|]. unfold on_raft_with, get_raft, put_raft.
    grow ltac:(apply apply_committed_grows). }
  unfold RaftStep, RaftSendMessages, RaftHandleCommittedLogs, on_raft_with, get_raft, put_raft, pm_SendToPeer, on_peers. grow ltac:(apply Hloop).
Qed.

(** What the core of a new enclave has. *)
Record creator c : Prop := {
  cr_clear : raft_ c = RaftHolder_clear;
  cr_tree : tree_ok ∅ (merkle_tree_ c);
  cr_id : peerid_ok (ID (peer_manager_ c));
  cr_config : 0 < election_ticks (raft_config (enclave_config_ c));
  cr_super : 0 <= super_majority (raft_config_template_ c) < 2 ^ 62;
  cr_random : (env_RandomBytes (random_calls c) 8).2 = OK }.

(** What creating a group takes, in any state. *)
Record creating c : Prop := {
  ct_old : destroyable (merkle_tree_ c) (loaded (raft_ c));
  ct_tree : tree_ok ∅ (merkle_tree_ c);
  ct_id : peerid_ok (ID (peer_manager_ c));
  ct_config : 0 < election_ticks (raft_config (enclave_config_ c));
  ct_super : 0 <= super_majority (raft_config_template_ c) < 2 ^ 62;
  ct_random : (env_RandomBytes (random_calls c) 8).2 = OK }.

Lemma creator_creating c : creator c -> creating c.
Proof. intros [C1 C2 C3 C4 C5 C6]. split; try done. rewrite C1. apply clear_destroyable. Qed.

Lemma creating_new_wf c : creating c ->
  new_wf (ID (peer_manager_ c)) (merkle_tree_ c) (First (ID (peer_manager_ c)))
    (Log_new (log_max_bytes (raft_config (enclave_config_ c)))) (raft_config (enclave_config_ c)) false
    (super_majority (raft_config_template_ c)).
Proof.
  intros [C1 C2 C3 C4 C5 C6]. split; try done.
  - split; [by apply First_ok|done|done].
  - split; [done|]. intros i e0 e. unfold log_at. simpl. by destruct (i <? 1).
  - by right.
Qed.

(** The reply to a request in the wrong state. *)
Definition refusal c tx : list EnclaveMessage :=
  if bool_decide (state (raft_ c) = RAFTSTATE_NO_STATE) then [] else [mH2EResponse tx (oStatus Core_RaftState)].

(** The new replica has only entries without content to apply. *)
Lemma created_step c r d lf : holds (raft_ c) (merkle_tree_ c) r d lf (last_applied_ r) ->
  Forall (fun e => entry_inner e = INNER_NOT_SET) (to_apply r) ->
  wp RaftStep (fun _ c' => exists r' d', holds (raft_ c') (merkle_tree_ c') r' d' lf (last_applied_ r') /\
    last_applied_ r' = commit_idx_ r' /\ role_ r' = role_ r /\ membership r' = membership r /\ db_view d' = db_view d /\
    state (raft_ c') = state (raft_ c) /\ minimums_ c' = minimums_ c /\
    lo_group_config (loaded (raft_ c')) = lo_group_config (loaded (raft_ c))) c.
Proof.
  intros H He. pose proof (ho_inv _ _ _ _ _ _ H) as Hi. destruct (limits_accept_empty (minimums_ c) _ He) as (Hacc & Hlim & Hst).
  eapply wp_mono; [by apply (RaftStep_wp c r d lf)|].
  intros ? c3 [(r' & d' & A1 & A1' & A1'') A2 A3 A4 A5].
  rewrite (to_apply_length r Hi) in *. replace (last_applied_ r + (commit_idx_ r - last_applied_ r)) with (commit_idx_ r) in * by lia.
  assert (Hr' : r' = with_tree {| r with sendable_messages_ := []; last_applied_ := commit_idx_ r |} (merkle_ r')).
  { transitivity (with_tree (with_tree r' (merkle_ r)) (merkle_ r')); [by destruct r'|]. simpl in A1'. by rewrite A1'. }
  exists r', d'. rewrite Hr'. cbn -[membership]. rewrite <- Hr'. split_and!; [done|done|done| | |by rewrite A3; apply Hst|by rewrite A2|done].
  - by rewrite Hr'.
  - by rewrite A1'', view_entries_empty.
Qed.

Lemma HandleCreate_wp c tx : creating c ->
  wp (HandleCreateNewRaftGroupRequest tx) (fun _ c' => exists r d lf,
    holds (raft_ c') (merkle_tree_ c') r d lf (last_applied_ r) /\ last_applied_ r = commit_idx_ r /\
    role_ r = LEADER /\ membership r = First (ID (peer_manager_ c)) /\ db_view d = ∅ /\
    state (raft_ c') = RAFTSTATE_LOADED_PART_OF_GROUP /\ minimums_ c' = minimums_ c /\
    group_id (lo_group_config (loaded (raft_ c'))) = BigEndian64FromBytes (env_RandomBytes (random_calls c) 8).1 /\
    exists out, sent c' = sent c ++ refusal c tx ++ out ++ [mH2EResponse tx (oStatus OK)]) c.
Proof.
  intros Hc. pose proof (creating_new_wf c Hc) as Hw. destruct Hc as [C1 C2 C3 C4 C5 C6].
  unfold HandleCreateNewRaftGroupRequest, random_u64, ReplyWithError. wp_run.
  eapply (wp_mono _ (fun _ c0 => c0 = (let out := sent c ++ refusal c tx in {| c with sent := out |}))).
  { unfold refusal. case_bool_decide; simpl negb; wp_run; [|done]. rewrite app_nil_r. by destruct c. }
  intros ? ? ->. wp_run.
  destruct (env_RandomBytes (random_calls c) 8) as [b err]. simpl in C6. subst err. wp_run. simpl negb. wp_run.
  destruct (loaded_replaced (BigEndian64FromBytes b) _ _ _ _ _ _ _ 0 (loaded (raft_ c)) C2 C1 Hw)
    as (r & t1 & lf & t2 & t3 & Hnew & Hleaf & Hdes & Hup & Hfr & Hi & Hme & Hrole & Hm & Hmsg & Hholds).
  eapply wp_lift; [exact Hnew|]. wp_run. eapply wp_lift; [exact Hleaf|]. wp_run. eapply wp_lift; [exact Hdes|]. wp_run.
  unfold UpdateLastAppliedLog. wp_run. eapply wp_lift; [done|]. wp_run. eapply wp_lift; [exact Hup|]. wp_run.
  match goal with |- wp _ _ ?c' => set (c2 := c') end.
  pose proof (nf_applied _ _ _ _ _ _ Hfr) as Hap. simpl in Hap.
  assert (Hc2 : holds (raft_ c2) (merkle_tree_ c2) (with_tree r t3) db_NewDB lf (last_applied_ (with_tree r t3)))
    by (simpl; rewrite Hap; by apply Hholds).
  assert (He : Forall (fun e => entry_inner e = INNER_NOT_SET) (to_apply (with_tree r t3))).
  { apply entries_from_Forall. intros i e Hie. destruct (nf_empty _ _ _ _ _ _ Hfr _ _ Hie) as [Hn|?]; [|done].
    unfold log_at in Hn. simpl in Hn. by destruct (i <? 1). }
  eapply wp_mono; [exact (wp_grows _ _ _ RaftStep_grows (created_step c2 (with_tree r t3) db_NewDB lf Hc2 He))|].
  intros ? c3 [(r' & d' & A1 & A2 & A3 & A4 & A5 & A6 & A7 & A8) [out Hout]]. wp_step.
  exists r', d', lf. simpl in *. rewrite A3, A4, A5, A6, A7, A8, Hout. split_and!; try done.
  - by apply Hrole.
  - apply (db_NewDB_spec _ C2).
  - exists out. by rewrite <- !(assoc_L (++)).
Qed.
End join.
