(* ===== verification/CoreMembers.v ===== *)
(** * The leader's changes of membership

    [NextReplicaGroup] proposes at most one change: it promotes a replica
    that answers, demotes a voter that does not, or removes a replica that
    has been silent for long. *)
From stdpp Require Import prelude gmap sorting.
From S2P Require Import Prelude Errors Containers Util RaftTypes RaftLog PeerId Membership Merkle MerkleProofs MerkleProps Raft RaftInv RaftStep RaftAppend RaftReceive RaftPublic RaftExamples.
From S2P Require Import ClientTypes Minimums GroupClock Timeout Database Msgs Noise Client Peers CoreState Core CoreReplicate CoreHandlers.

(** ** Changes of a group as it is sent *)
Section groups.
Implicit Types (m : Membership) (p : PeerID) (ps : list PeerID).

Definition replica_of m p : Replica := {| replica_peer_id := ToString p; replica_voting := set_count (voting_replicas_ m) p |}.

Lemma set_voting_fmap (f g : PeerID -> Replica) p v ps :
  (forall q, q ∈ ps -> replica_peer_id (f q) = q) -> p ∈ ps -> NoDup ps ->
  g p = (let rep := f p in {| rep with replica_voting := v |}) -> (forall q, q ∈ ps -> q <> p -> g q = f q) ->
  set_voting p v (f <$> ps) = Some (g <$> ps).
Proof.
  intros Hf Hp Hnd Hgp Hg. induction ps as [|q ps IH]; [by apply elem_of_nil in Hp|].
  rewrite !fmap_cons. cbn [set_voting]. rewrite (Hf q) by left. apply NoDup_cons in Hnd as [Hq Hnd]. case_bool_decide as E.
  - subst q. rewrite Hgp. simpl. rewrite (Hf p) by left. do 2 f_equal. apply list_fmap_ext. intros i q Hi%list_elem_of_lookup_2.
    symmetry. apply Hg; [by right|by intros ->].
  - apply elem_of_cons in Hp as [->|Hp]; [done|]. rewrite IH; try done.
    + simpl. by rewrite Hg by (done || left).
    + intros q' Hq'. apply Hf. by right.
    + intros q' Hq'. apply Hg. by right.
Qed.

Lemma erase_replica_fmap (f : PeerID -> Replica) p ps :
  (forall q, q ∈ ps -> replica_peer_id (f q) = q) -> p ∈ ps -> NoDup ps ->
  erase_replica p (f <$> ps) = Some (f <$> set_erase p ps).
Proof.
  intros Hf Hp Hnd. unfold set_erase. induction ps as [|q ps IH]; [by apply elem_of_nil in Hp|].
  rewrite fmap_cons. cbn [erase_replica List.filter]. rewrite (Hf q) by left. apply NoDup_cons in Hnd as [Hq Hnd]. case_bool_decide as E.
  - subst q. rewrite key_eq_refl. simpl. do 2 f_equal. clear IH Hf Hp Hnd. induction ps as [|q ps IH]; simpl; [done|].
    apply not_elem_of_cons in Hq as [Hne Hq]. destruct (key_eq p q) eqn:E; [by apply key_eq_spec in E|]. simpl. by rewrite <- IH.
  - apply elem_of_cons in Hp as [->|Hp]; [done|]. destruct (key_eq p q) eqn:E2; [by apply key_eq_spec in E2|].
    rewrite IH; [done| |done|done]. intros q' Hq'. apply Hf. by right.
Qed.

Lemma set_voting_AsProto m p v : membership_ok m -> p ∈ all_replicas_ m ->
  set_voting p v (AsProto m) = Some (AsProto {| all_replicas_ := all_replicas_ m;
    voting_replicas_ := if v then set_insert p (voting_replicas_ m) else set_erase p (voting_replicas_ m) |}).
Proof.
  intros Hm Hp. apply set_voting_fmap; [done|done|apply set_ok_NoDup, Hm|..].
  - simpl. f_equal. destruct v; [apply set_count_spec, elem_of_set_insert; by left|].
    apply set_count_false. rewrite elem_of_set_erase. tauto.
  - intros q _ Hq. simpl. f_equal. apply eq_iff_eq_true. rewrite !set_count_spec. destruct v.
    + rewrite elem_of_set_insert. tauto.
    + rewrite elem_of_set_erase. tauto.
Qed.

Lemma erase_replica_AsProto m p : membership_ok m -> p ∈ all_replicas_ m ->
  erase_replica p (AsProto m) = Some (AsProto {| all_replicas_ := set_erase p (all_replicas_ m);
    voting_replicas_ := voting_replicas_ m |}).
Proof. intros Hm Hp. apply erase_replica_fmap; [done|done|apply set_ok_NoDup, Hm]. Qed.
End groups.

(** ** The choice *)
Section choice.
Context {T L : Type} `{!EqDecision L, !Countable L} {MO : MerkleOps T L} {MS : MerkleSpec T L}.
Context {RP : RaftPlatform} {RPL : RaftPlatformLaws}.
Implicit Types (r : Raft T L) (m : Membership) (config : RaftGroupConfig) (p : PeerID) (g : ReplicaGroup).

(** A replica that was heard of, but not for more than [limit] ticks. *)
Definition silent r (limit : Z) p : Prop := last_seen_ticks r p <> Raft.InvalidTicks /\ limit < last_seen_ticks r p.

(** The changes [NextReplicaGroup] may propose. *)
Inductive change r config m : Membership -> Prop :=
  | promoted p : p ∈ all_replicas_ m -> p ∉ voting_replicas_ m -> last_seen_ticks r p < election_ticks (config_ r) ->
      Zlen (voting_replicas_ m) < max_voting_replicas config ->
      change r config m {| all_replicas_ := all_replicas_ m; voting_replicas_ := set_insert p (voting_replicas_ m) |}
  | demoted p : p ∈ voting_replicas_ m -> silent r (replica_voting_timeout_ticks (config_ r)) p ->
      min_voting_replicas config < Zlen (voting_replicas_ m) ->
      change r config m {| all_replicas_ := all_replicas_ m; voting_replicas_ := set_erase p (voting_replicas_ m) |}
  | removed p : p ∈ all_replicas_ m -> p ∉ voting_replicas_ m -> silent r (replica_membership_timeout_ticks (config_ r)) p ->
      change r config m {| all_replicas_ := set_erase p (all_replicas_ m); voting_replicas_ := voting_replicas_ m |}.

Lemma promote_choice_spec r m peer_id mn : promote_choice r m = (peer_id, mn) -> peer_id <> [] ->
  peer_id ∈ all_replicas_ m /\ (peer_id ∉ voting_replicas_ m) /\ last_seen_ticks r peer_id = mn.
Proof.
  unfold promote_choice. match goal with |- foldl ?g _ _ = _ -> _ => set (f := g) end. intros Heq Hne.
  assert (forall ps st, ps ⊆ all_replicas_ m -> (st.1 = [] \/ (st.1 ∈ all_replicas_ m /\ (st.1 ∉ voting_replicas_ m) /\ last_seen_ticks r st.1 = st.2)) ->
    let st' := foldl f st ps in st'.1 = [] \/ (st'.1 ∈ all_replicas_ m /\ (st'.1 ∉ voting_replicas_ m) /\ last_seen_ticks r st'.1 = st'.2)) as Hf.
  { induction ps as [|p ps IH]; intros [pi mi] Hps Hst; [done|]. simpl. apply IH; [set_solver|].
    unfold f. destruct (_ && _) eqn:E; [|done]. simpl. right. apply andb_true_iff in E as [_ E].
    apply negb_true_iff, set_count_false in E. change (ToString p) with p. split_and!; [set_solver|done|done]. }
  destruct (Hf (all_replicas_ m) ([], Raft.InvalidTicks)) as [H|H]; [done|by left| |]; rewrite Heq in H; simpl in H; [done|tauto].
Qed.

Lemma timed_out_change_spec r limit f ps g : timed_out_change r limit f ps = Some g ->
  exists p, p ∈ ps /\ silent r limit p /\ f p = Some g.
Proof.
  induction ps as [|p ps IH]; simpl; [done|]. destruct (_ && _) eqn:E.
  - change (ToString p) with p. destruct (f p) eqn:Ef.
    + intros [= <-]. exists p. split_and!; [left| |done]. apply andb_true_iff in E as [E1 E2]. zbool. by split.
    + intros H. destruct (IH H) as (q & ? & ?). exists q. split; [by right|done].
  - intros H. destruct (IH H) as (q & ? & ?). exists q. split; [by right|done].
Qed.

Lemma next_group_change r config g : membership_ok (membership r) -> next_group r config = Some g ->
  exists m', g = AsProto m' /\ change r config (membership r) m'.
Proof.
  intros Hm. unfold next_group. destruct (leader r); [|done]. set (m := membership r) in *.
  destruct (promote_replica r config m) as [g1|] eqn:E1.
  { intros [= <-]. revert E1. unfold promote_replica. destruct (_ && _) eqn:Ec; [|done].
    destruct (promote_choice r m) as [pid mn] eqn:Ep. destruct (negb _ && _) eqn:Ec2; [|done].
    apply andb_true_iff in Ec as [Ec _], Ec2 as [Ene Emn]. apply negb_true_iff, bool_decide_eq_false in Ene. zbool.
    destruct (promote_choice_spec _ _ _ _ Ep Ene) as (P1 & P2 & P3). rewrite (set_voting_AsProto _ _ _ Hm P1). intros [= <-].
    eexists. split; [done|]. constructor; [done|done|lia|done]. }
  destruct (demote_replica r config m) as [g2|] eqn:E2.
  { intros [= <-]. revert E2. unfold demote_replica. destruct (_ <? _) eqn:Ec; [|done]. zbool.
    intros (p & P1 & P2 & P3)%timed_out_change_spec. rewrite set_voting_AsProto in P3; [|done|by apply Hm]. injection P3 as <-.
    eexists. split; [done|]. by constructor. }
  unfold remove_replica. destruct (_ <? _); [|done]. intros (p & P1 & P2 & P3)%timed_out_change_spec.
  apply list_elem_of_In, filter_In in P1 as [P1%list_elem_of_In P1'%negb_true_iff%set_count_false].
  rewrite erase_replica_AsProto in P3 by done. injection P3 as <-. eexists. split; [done|]. by constructor.
Qed.
End choice.

Section sizes.
Implicit Types (s : list PeerID) (p : PeerID).

Lemma set_insert_size s p : set_ok s -> p ∉ s -> Zlen (set_insert p s) = Zlen s + 1.
Proof.
  intros Hs Hp. unfold Zlen. assert (set_insert p s ≡ₚ p :: s) as ->; [|simpl; lia].
  apply NoDup_Permutation; [by apply set_ok_NoDup, set_insert_ok|constructor; [done|by apply set_ok_NoDup]|].
  intros q. rewrite elem_of_set_insert, elem_of_cons. done.
Qed.

Lemma set_erase_size s p : set_ok s -> p ∈ s -> Zlen (set_erase p s) = Zlen s - 1.
Proof.
  intros Hs Hp. unfold Zlen. assert (s ≡ₚ p :: set_erase p s) as E; [|rewrite E at 2; simpl; lia].
  pose proof (set_erase_ok s p Hs) as He. apply NoDup_Permutation; [by apply set_ok_NoDup|..].
  - constructor; [rewrite elem_of_set_erase; tauto|by apply set_ok_NoDup].
  - intros q. rewrite elem_of_cons, elem_of_set_erase. destruct (decide (q = p)) as [->|]; tauto.
Qed.
End sizes.

Section theorems.
Context {T L : Type} `{!EqDecision L, !Countable L} {MO : MerkleOps T L} {MS : MerkleSpec T L}.
Context {RP : RaftPlatform} {RPL : RaftPlatformLaws}.
Implicit Types (r : Raft T L) (m : Membership) (config : RaftGroupConfig) (p : PeerID) (g : ReplicaGroup).

Lemma change_ok r config m m' : membership_ok m -> change r config m m' -> membership_ok m'.
Proof.
  intros [H1 H2 H3 H4] Hc. destruct Hc; split; simpl; try done.
  - by apply set_insert_ok.
  - intros q [->|?]%elem_of_set_insert; auto.
  - by apply set_erase_ok.
  - intros q [_ ?]%elem_of_set_erase. auto.
  - by apply set_erase_ok.
  - intros q Hq. apply elem_of_set_erase. split; [by intros ->|auto].
  - apply Forall_forall. intros q [_ Hq]%elem_of_set_erase. by apply (proj1 (Forall_forall _ _) H4).
Qed.

(** The leader does not time itself out. *)
Lemma leader_not_silent r limit : core_inv r -> role_ r = LEADER -> ~ silent r limit (me_ r).
Proof.
  intros Hc Hr [H1 _]. apply H1. unfold last_seen_ticks. rewrite bool_decide_eq_true_2 by done. simpl.
  destruct (map_find _ _) as [f|] eqn:E; [|done].
  destruct (leader_facts r Hc Hr) as [_ Hf]. apply map_find_elem in E.
  assert (me_ r ∈ (l_followers (leader_ r)).*1) as Hin by (apply list_elem_of_fmap; by eexists (_, f)).
  apply (fi_keys _ _ _ _ Hf) in Hin as [_ ?]. done.
Qed.

(** C23: The leader changes the group one replica at a time and within its
    limits.  What [NextReplicaGroup] proposes is a well-formed membership that
    differs from the current one by one promotion of a replica heard of
    within the election timeout, one demotion of a voter not heard of for the
    voting timeout, or one removal of a non-voter; a promotion stays within
    [max_voting_replicas], a demotion within [min_voting_replicas], and the
    leader stays a voter. *)
Theorem next_group_safe r config g :
  core_inv r -> role_ r = LEADER -> next_group r config = Some g ->
  exists m', FromProto g = (Some m', OK) /\ membership_ok m' /\ change r config (membership r) m' /\
    (me_ r ∈ voting_replicas_ m') /\
    (Zlen (voting_replicas_ m') = Zlen (voting_replicas_ (membership r)) \/
     (Zlen (voting_replicas_ m') = Zlen (voting_replicas_ (membership r)) + 1 /\
      Zlen (voting_replicas_ m') <= max_voting_replicas config) \/
     (Zlen (voting_replicas_ m') = Zlen (voting_replicas_ (membership r)) - 1 /\
      min_voting_replicas config <= Zlen (voting_replicas_ m'))).
Proof.
  intros Hc Hr Hg. pose proof (membership_is_good r Hc) as [Hm _ _].
  destruct (next_group_change r config g Hm Hg) as (m' & -> & Hch). pose proof (change_ok _ _ _ _ Hm Hch) as Hm'.
  exists m'. split; [by apply FromProto_of_AsProto|]. split; [done|]. split; [done|].
  destruct (leader_facts r Hc Hr) as [Hme _].
  pose proof (leader_not_silent r) as Hns. destruct Hm as [M1 M2 M3 M4].
  destruct Hch as [p P1 P2 P3 P4|p P1 P2 P3|p P1 P2 P3]; simpl.
  - split; [apply elem_of_set_insert; by right|]. right. left. rewrite set_insert_size by done. lia.
  - split; [|right; right; rewrite set_erase_size by done; lia]. apply elem_of_set_erase. split; [|done].
    intros <-. by eapply Hns.
  - split; [done|by left].
Qed.
End theorems.

(** ** A leader with a replica that does not vote yet *)
Definition ex_pair : Membership :=
  {| all_replicas_ := [example_peer 1; example_peer 2]; voting_replicas_ := [example_peer 1] |}.
Definition ex_group_config : RaftGroupConfig :=
  {| group_id := 7; min_voting_replicas := 1; max_voting_replicas := 3; super_majority := 0;
     db_version := DATABASE_VERSION_SVR2; attestation_timeout := 100; simulated := true |}.
Definition ex_growing : list Event :=
  [EvLogRequest {| entry_term := 0; entry_inner := kMembershipChange (AsProto ex_pair); hash_chain := [] |};
   EvReceive {| msg_group := 7; msg_term := 1; msg_inner := kAppendResponse {|
     as_success := false; as_match_idx := 0; as_last_log_idx := 0; as_promise_idx := 0; as_match_hash_chain := [] |} |}
     (example_peer 2)].

Lemma ex_growing_ok r : ex_sole = Some r -> run_ok r ex_growing.
Proof.
  intros Heq. vm_compute in Heq. injection Heq as <-. unfold ex_growing.
  repeat (cbn [run_ok]; split; [by vm_compute|];
    let r' := fresh "r" in let H := fresh "H" in
    intros r' H; vm_compute in H; injection H as <-).
  done.
Qed.

Lemma ex_growing_inv : exists r r', ex_sole = Some r /\ run r ex_growing = Some r' /\ inv r'.
Proof.
  destruct ex_sole_inv as (r & Hr & Hi). destruct (run_spec ex_growing r Hi (ex_growing_ok r Hr)) as (r' & Hr' & Hi' & _).
  eauto.
Qed.

Lemma next_group_safe_witness : exists (r' : ExRaft) g m',
  next_group r' ex_group_config = Some g /\ FromProto g = (Some m', OK) /\ me_ r' ∈ voting_replicas_ m'.
Proof.
  destruct ex_growing_inv as (r & r' & Hr & Hr' & Hi).
  assert (role_ r' = LEADER /\ exists g, next_group r' ex_group_config = Some g) as [Hl [g Hg]].
  { vm_compute in Hr. injection Hr as <-. vm_compute in Hr'. injection Hr' as <-. split; [done|].
    eexists. vm_compute. reflexivity. }
  destruct (next_group_safe r' ex_group_config g (inv_core r' Hi) Hl Hg) as (m' & H1 & _ & _ & H2 & _).
  exists r', g, m'. exact (conj Hg (conj H1 H2)).
Defined.
