(* ===== verification/CoreExamples.v ===== *)
(** * Concrete cores

    Stand-ins for protobuf and for the platform, and an SVR2 core over the
    concrete Merkle tree that creates a group and takes a backup, beside one
    that joins it; the examples of the properties run on them. *)
From stdpp Require Import prelude gmap sorting.
From S2P Require Import Prelude Errors Containers Util RaftTypes RaftLog PeerId Membership Merkle MerkleProofs MerkleProps Raft RaftInv RaftStep RaftAppend RaftReceive RaftPublic RaftExamples.
From S2P Require Import ClientTypes Minimums GroupClock Timeout Db Db2 Db2Spec Database Db2Database Msgs Noise Client Peers.
From S2P Require Import CoreState Core CoreReplicate CoreHandlers CoreHost CoreHoare CoreApply Replication CoreJoin.

#[export] Existing Instance toy_db.
#[export] Existing Instance toy_db_laws.
#[export] Existing Instance toy_noise.
#[export] Existing Instance toy_noise_laws.

(** A log is its key and, for a backup, a byte of data; the messages between
    enclaves are those that are sent to join a group. *)
Definition toy_log (s : bytes) : option MessageLite :=
  match drop 16 s with
  | [x] => Some (MLog2 {| log2_backup_id := take 16 s; log2_req := kBackup {|
      backup_data := replicate 20 x; backup_pin := replicate 32 x; backup_max_tries := 3 |} |})
  | _ => if bool_decide (s = []) then Some LogPB else None
  end.
Definition toy_push_size (p : ReplicateStatePush) : Z :=
  Z.of_nat (length (push_entries p)) + Z.of_nat (length (push_rows p)) + 33.

Definition toy_e2e (m : EnclaveToEnclaveMessage) : option bytes :=
  match m with
  | eNOT_SET => Some []
  | eConnected b => Some [if b then 1 else 0]
  | eTransactionRequest {| txn_request_id := id; txn_inner := inner |} =>
      match inner with
      | tGetRaft b => Some [3; id; if b then 1 else 0]
      | tReplicateState r => Some [4; id; rsr_group_id r; rsr_replication_id r]
      | tNewTimestampUnixSecs secs => Some [5; id; secs]
      | tRaftMembershipRequest b => Some [6; id; if b then 1 else 0]
      | _ => None
      end
  | eAttestationUpdate {| evidence := []; endorsements := [] |} => Some [7; 7]
  | _ => None
  end.
Definition toy_parse_e2e (s : bytes) : option EnclaveToEnclaveMessage :=
  let request id inner := Some (eTransactionRequest {| txn_request_id := id; txn_inner := inner |}) in
  match s with
  | [] => Some eNOT_SET
  | [x] => Some (eConnected (x =? 1))
  | [3; id; b] => request id (tGetRaft (b =? 1))
  | [4; id; g; n] => request id (tReplicateState {| rsr_group_id := g; rsr_replication_id := n |})
  | [5; id; secs] => request id (tNewTimestampUnixSecs secs)
  | [6; id; b] => request id (tRaftMembershipRequest (b =? 1))
  | [7; 7] => Some (eAttestationUpdate Attestation_default)
  | _ => None
  end.

Lemma toy_e2e_parse m s : toy_e2e m = Some s -> toy_parse_e2e s = Some m.
Proof.
  destruct m as [b| |[[|] [|]]|[id inner]| |]; simpl; try done; [| |destruct inner as [| | [] | | | | | | |]; try done|];
    intros [= <-]; simpl; try done; by destruct b.
Qed.

#[export] Instance toy_msgs : MsgPlatform := {|
  SerializeE2E := toy_e2e;
  ParseE2E := toy_parse_e2e;
  SerializeConnect := fun c => Some (conn_handshake c);
  ParseConnect := fun s => Some {| conn_attestation := Attestation_default; conn_handshake := s |};
  SerializeEntry := fun e => Some (entry_data e);
  ParseEntry := fun s => Some {| entry_term := 0; entry_inner := kData s; hash_chain := [] |};
  SerializeDb := fun m =>
    match m with
    | MLog2 {| log2_backup_id := id; log2_req := kBackup b |} => Some (id ++ take 1 (backup_data b))
    | _ => Some []
    end;
  ParseDb := fun m s => match m with MLog2 _ => toy_log s | _ => Some m end;
  push_ByteSizeLong := toy_push_size |}.

(** Attestations are accepted, and say that the peer has the key 2. *)
#[export] Instance toy_env : Env := {|
  env_Evidence := fun _ _ => (Attestation_default, OK);
  env_Attest := fun _ _ => Some ({| att_public_key := replicate 32 2; att_group_config := None;
    att_minimum_limits := []; att_minimum_values := [] |}, OK);
  env_RandomBytes := fun n len => (replicate len (Z.of_nat n + 1), OK) |}.

Notation ExRows := (list (BackupID * Row nat)).
Notation ExCore := (Core Tree nat ExRows).

#[export] Instance toy_log_messages : LogMessages (T:=Tree) (D:=ExRows).
Proof.
  split; [done|]. intros s m. simpl. unfold toy_log.
  destruct (drop 16 s) as [|x [|]]; [..|by intros [= <-]|]; case_bool_decide; by intros [= <-].
Qed.

#[export] Instance toy_push_sizes : PushSizes.
Proof. split. intros p Hp1 Hp2 _ _. simpl. unfold toy_push_size. rewrite Hp1, Hp2. simpl. lia. Qed.

(** ** A group of one *)
Definition ex_init : InitConfig := {|
  enclave_config_pb := {| raft_config := {| election_ticks := 0; heartbeat_ticks := 0; replication_chunk_bytes := 0;
      replica_voting_timeout_ticks := 0; replica_membership_timeout_ticks := 0; log_max_bytes := 0;
      replication_pipeline := 0 |}; e2e_txn_timeout_ticks := 0; send_timestamp_ticks := 0 |};
  group_config_pb := {| group_id := 0; min_voting_replicas := 1; max_voting_replicas := 3; super_majority := 0;
    db_version := DATABASE_VERSION_SVR2; attestation_timeout := 100; simulated := true |};
  initial_timestamp_unix_secs := 1000 |}.

Definition ex_new : option ExCore := '(core, _) ← Core_Create Tree_new ex_init; core.
Definition ex_created : option ExCore := c ← ex_new; '(c, _) ← HandleCreateNewRaftGroupRequest 5 c; Some c.

(** The host asks for a backup. *)
Definition ex_key : BackupID := replicate 16 9.
Definition ex_entry : LogEntry := {| entry_term := 0; entry_inner := kData (ex_key ++ [7]); hash_chain := [] |}.
Definition ex_written : option ExCore :=
  c ← ex_created; '(c, _) ← RaftWriteLogTransaction ex_entry (LC_HostDatabaseRequest 6) c; Some c.

(** What evaluation shows of an example holds of its core. *)
Lemma evaluated {A B} (o : option A) (a : A) (f : A -> B) (b : B) : o = Some a -> f <$> o = Some b -> f a = b.
Proof. intros -> Hb. by injection Hb. Qed.

Lemma present {A} (o : option A) : (if o is Some _ then true else false) = true -> exists a, o = Some a.
Proof. destruct o; eauto. done. Qed.

Ltac ex_eval :=
  match goal with
  | E : ?o = Some ?c |- ?x = _ =>
      match x with context [c] => idtac end;
      let x' := eval pattern c in x in
      match x' with ?f _ => apply (evaluated o c f _ E); vm_compute; reflexivity end
  end.

Lemma ex_new_creator : exists c, ex_new = Some c /\ creator c.
Proof.
  destruct (present ex_new) as [c E]; [vm_compute; reflexivity|]. exists c. split; [exact E|].
  assert ((raft_ c, merkle_tree_ c, ID (peer_manager_ c), election_ticks (raft_config (enclave_config_ c)),
    super_majority (raft_config_template_ c), (env_RandomBytes (random_calls c) 8).2) =
    (RaftHolder_clear, Tree_new, replicate 32 2, 32, 0, OK)) as [= F1 F2 F3 F4 F5] by ex_eval.
  split; [exact F1|rewrite F2; apply Tree_new_ok|by rewrite F3|by rewrite F4|by rewrite F5|done].
Qed.

Lemma loaded_core_raft (c : ExCore) r d lf :
  loaded_core c r d lf -> get_raft c = Some (c, r) /\ lo_db (loaded (raft_ c)) = Some d.
Proof.
  intros H. split; [|apply H]. destruct (ho_raft _ _ _ _ _ _ H) as (r0 & Hr & ->). unfold get_raft, mbind, M_bind. simpl.
  by rewrite Hr.
Qed.

Lemma ex_created_loaded : exists c r d lf, ex_created = Some c /\ loaded_core c r d lf /\ db_view d = ∅.
Proof.
  destruct ex_new_creator as (c & Hc & Hcr). destruct (HandleCreate_wp c 5 (creator_creating c Hcr)) as (c' & [] & Hw & r & d & lf & H & _ & _ & _ & Hd & _).
  exists c', r, d, lf. unfold ex_created. rewrite Hc. simpl. rewrite Hw. done.
Qed.

Definition raft_of (c : ExCore) : option ExRaft := snd <$> get_raft c.

(** The leader of the new group takes the entry and commits it. *)
Lemma ex_created_facts c r : ex_created = Some c -> raft_of c = Some r ->
  state (raft_ c) = RAFTSTATE_LOADED_PART_OF_GROUP /\ is_leader r = true /\
  min_voting_replicas (lo_group_config (loaded (raft_ c))) <= voting_count r /\ event_ok r (EvLogRequest ex_entry) /\
  minimums_ c = [] /\ (exists r1 loc, LogRequest r ex_entry = Some (r1, (loc, OK)) /\ limits_accept_all [] (to_apply r1) /\
    exists e1 e2, entries_ (log_ r1) = [e1; e2] /\ to_apply r1 = [e2] /\ entry_inner e1 = INNER_NOT_SET /\
      oldest_stored_idx_ (log_ r1) = 1 /\ commit_idx_ r1 = 2).
Proof.
  intros Hc Hr.
  assert ((state (raft_ c), min_voting_replicas (lo_group_config (loaded (raft_ c))), minimums_ c) =
    (RAFTSTATE_LOADED_PART_OF_GROUP, 1, [])) as [= F1 F2 F3] by ex_eval.
  assert (ex_created ≫= raft_of = Some r) as E by (by rewrite Hc). rewrite F1, F2, F3. clear Hc Hr F1 F2 F3. vm_compute in E. injection E as <-.
  split_and!; try by vm_compute. eexists _, _. split; [vm_compute; reflexivity|]. split; [by vm_compute|].
  eexists _, _. split; [vm_compute; reflexivity|]. by split_and!; vm_compute.
Qed.

Lemma log_from_start (l : Log) i e : oldest_stored_idx_ l = 1 -> log_at l i = Some e -> entry_at (entries_ l) i = Some e.
Proof. unfold log_at, entry_at. by intros ->. Qed.

Lemma history_from_start (r : ExRaft) : inv r -> oldest_stored_idx_ (log_ r) = 1 -> history_ok (entries_ (log_ r)).
Proof.
  intros Hi Ho. pose proof (ci_idx _ (inv_core _ Hi)) as [_ _ _ _ _ _ He [C1 C2]].
  assert (forall i, entry_at (entries_ (log_ r)) i = log_at (log_ r) i) as Hat by (intros i; unfold entry_at, log_at; by rewrite Ho).
  split; [done|by intros e; rewrite Hat; apply C1|intros i e0 e]. rewrite !Hat. apply C2.
Qed.

(** The core that took the backup, and the entries of its group. *)
Lemma ex_written_loaded : exists c r d lf H, ex_written = Some c /\ loaded_core c r d lf /\
  follows H r d /\ history_ok H /\ last_applied_ r = 2.
Proof.
  destruct ex_created_loaded as (c & r & d & lf & Hc & H & Hd). destruct (loaded_core_raft _ _ _ _ H) as [Hr _].
  destruct (ex_created_facts c r Hc) as (F1 & F2 & F3 & F4 & F5 & r1 & loc & F6 & F7 & e1 & e2 & F8 & F9 & F10 & F11 & F12).
  { unfold raft_of. by rewrite Hr. }
  destruct (leader_write_wp c r d lf ex_entry (LC_HostDatabaseRequest 6) r1 loc H F1 F2 F3 F4 F6) as (c' & err & Hw & -> & r' & d' & A).
  { by rewrite F5. }
  destruct A as [A1 A2 (A3 & A4 & _) _ A5 _ _ _]. exists c', r', d', lf, [e1; e2]. unfold ex_written. rewrite Hc. simpl. rewrite Hw.
  split_and!; [done|exact A1| | |by rewrite A2].
  2: { rewrite <- F8, <- A4. by apply history_from_start; [apply A1|rewrite A4]. }
  split; [apply A1|rewrite (holds_tree _ _ _ _ _ _ A1); apply A1|lia|..].
  - rewrite A4. intros i e He _. by apply (log_from_start (log_ r1)) in He; [rewrite F8 in He|].
  - rewrite A5, F9, Hd, A2, F12. unfold state_at. simpl. f_equal. unfold view_entry, entry_log. by rewrite F10.
Qed.

(** ** A core that joins it *)
Definition ex_peer : PeerID := replicate 32 2.
Definition ex_other : option ExCore :=
  c ← ex_new;
  let pm := PeerManager_new in
  let '(pm, _) := PeerManager_Init {| pm with pm_keys_generated := 7%nat |} in
  Some {| c with peer_manager_ := pm |}.
Definition ex_joining : option ExCore :=
  c ← ex_other;
  '(c, _) ← HandleJoinRaft ex_peer 8 c;
  '(c, _) ← HandlePeerMessage {| pm_peer_id := ex_peer; pm_inner := pSynack [1] |} c;
  '(c, _) ← HandleE2E ex_peer (eTransactionResponse {| txr_request_id := e2e_txn_id_ c;
    txr_inner := sGetRaft (let g := group_config_pb ex_init in {| g with group_id := 72340172838076673 |}) (AsProto (First ex_peer)) |}) c;
  Some c.

Lemma ex_joining_fresh : exists c, ex_joining = Some c /\ fresh_loading c 72340172838076673.
Proof.
  destruct (present ex_joining) as [c E]; [vm_compute; reflexivity|]. exists c. split; [exact E|].
  assert ((state (raft_ c), ld_log (loading (raft_ c)), ld_db (loading (raft_ c)), merkle_tree_ c, replication_id (loading (raft_ c)),
    replication_sequence (loading (raft_ c)), lexigraphically_largest_row_loaded_into_db (loading (raft_ c))) =
    (RAFTSTATE_LOADING, Some (Log_new (2 ^ 30)), Some [], Tree_new, 72340172838076673, 0, [])) as [= F1 F2 F3 F4 F5 F6 F7] by ex_eval.
  split; [exact F1|by exists (2 ^ 30)|exact F3|rewrite F4; apply Tree_new_ok|exact F5|exact F6|exact F7].
Qed.

(** What the member sends. *)
Definition ex_snapshot (r : ExRaft) (d : ExRows) : Snapshot := {| sn_raft := r; sn_db := d; sn_chunk := 2 ^ 20 |}.

Lemma ex_sending H r d target tx id : follows H r d ->
  sending H 1 [ex_snapshot r d] (first_push r target tx id).
Proof.
  intros F. simpl. split_and!; [done|apply F| |done]. by rewrite (proj1 (follows_start _ _ _ F)).
Qed.

(** The pushes of the member, and what becomes of the core that joins. *)
Definition ex_sent (r : ExRaft) (d : ExRows) : option (ReplicationPushState * list ReplicateStatePush) :=
  send_pushes [ex_snapshot r d] (first_push r (replicate 32 8) 3 72340172838076673).
Definition ex_transfer : option (ExCore * Error * bool) :=
  w ← ex_written; r ← raft_of w; d ← lo_db (loaded (raft_ w));
  '(ps, pushes) ← ex_sent r d;
  c ← ex_joining; '(c, err) ← receive_pushes pushes c;
  Some (c, err, finished_sending ps).

(** The joining core accepts all of them. *)
Lemma ex_transfer_run (w c0 c : ExCore) r d lf ps pushes err :
  ex_written = Some w -> loaded_core w r d lf -> ex_joining = Some c0 -> ex_sent r d = Some (ps, pushes) ->
  receive_pushes pushes c0 = Some (c, err) ->
  err = OK /\ finished_sending ps = true /\ ex_transfer = Some (c, OK, true).
Proof.
  intros Hw Hl Hc0 Hs Hrec. destruct (loaded_core_raft _ _ _ _ Hl) as [Hr Hd].
  assert (ex_transfer = Some (c, err, finished_sending ps)) as E.
  { unfold ex_transfer. rewrite Hw. cbn [mbind option_bind]. unfold raft_of. rewrite Hr. cbn [fmap option_fmap option_map snd mbind option_bind].
    rewrite Hd. cbn [mbind option_bind]. rewrite Hs. cbn [mbind option_bind]. rewrite Hc0. cbn [mbind option_bind]. by rewrite Hrec. }
  assert (((c, err, finished_sending ps).1.2, (c, err, finished_sending ps).2) = (OK, true)) as [= -> Hfin].
  { apply (evaluated ex_transfer (c, err, finished_sending ps) (fun x => (x.1.2, x.2)) _ E). vm_compute. reflexivity. }
  rewrite Hfin in E. exact (conj eq_refl (conj Hfin E)).
Qed.

Lemma ex_transfer_copied : exists c H, ex_transfer = Some (c, OK, true) /\ copied (V:=Secret) c H 2 /\ history_ok H.
Proof.
  destruct ex_written_loaded as (w & r & d & lf & H & Hw & Hl & F & Hh & Hap). destruct ex_joining_fresh as (c0 & Hc0 & Hf).
  destruct (replication_accepts H (ex_snapshot r d) [] c0 _ (replicate 32 8) 3 Hf (ex_sending _ _ _ _ _ _ F))
    as (ps & pushes & c & err & Hs & Hrec & _ & Hcp).
  destruct (ex_transfer_run w c0 c r d lf ps pushes err Hw Hl Hc0 Hs Hrec) as (-> & Hfin & E).
  destruct (Hcp eq_refl Hfin) as (s' & ->%list_elem_of_singleton & Hc). simpl in Hc. rewrite Hap in Hc. eauto.
Qed.

Lemma ex_transfer_joiner c H : ex_transfer = Some (c, OK, true) -> joiner c H 2 (First ex_peer).
Proof.
  intros E.
  set (x := (c, OK, true)) in E. change c with (x.1.1). clearbody x.
  assert ((loaded (raft_ x.1.1), ld_mem (loading (raft_ x.1.1)), ID (peer_manager_ x.1.1),
    election_ticks (raft_config (enclave_config_ x.1.1)), super_majority (ld_group_config (loading (raft_ x.1.1))),
    e2e_txn_timeout_ticks (enclave_config_ x.1.1), ticks_ (timeout_ x.1.1)) =
    (Loaded_clear, Some (First ex_peer), replicate 32 8, 32, 0, 60, 0)) as [= F1 F2 F3 F4 F5 F6 F7] by ex_eval.
  split; [exact F1|exact F2|by apply ex_first_good| |rewrite F4; lia|rewrite F5; lia|lia|].
  - rewrite F3. by intros [=]%list_elem_of_singleton.
  - unfold timeouts_room. rewrite F6, F7. lia.
Qed.
