(* ===== verification/PeersProps.v ===== *)
(** * Properties of peer connections

    Enclaves are connected only to enclaves whose attestation was checked, and
    a connection carries messages in order. *)
From stdpp Require Import prelude gmap.
From S2P Require Import Prelude Errors Containers Util RaftTypes PeerId Minimums Msgs Noise Peers PeersInv CoreExamples.

Section props.
Context {NP : NoisePlatform} {NL : NoiseLaws} {MP : MsgPlatform} {EV : Env}.
Implicit Types (m : PeerManager) (p : Peer).

(** Whatever the host passes on, and whatever the enclave asks of its peer
    manager, the manager never aborts by itself (it ends only where the
    platform ends the process while it checks an attestation), and a peer that
    has keys is one whose attestation the platform accepted: at the recorded
    time it verified evidence for a public key that is the peer's ID and for
    the minimums recorded.  A message is passed on to the enclave only from
    such a peer. *)
Theorem connected_peers_attested m0 evs :
  PeerManager_Init PeerManager_new = (m0, OK) -> Forall pm_event_ok evs ->
  match pm_run m0 evs with
  | None => exists evs1 ev evs2 m, evs = evs1 ++ ev :: evs2 /\ pm_run m0 evs1 = Some m /\ fatal m ev
  | Some m =>
      (forall id p, map_find (peers_ m) id = Some p -> connected p -> peer_id_ p = id /\ attested p) /\
      (forall limits msg m' from x, pm_handle m (pmRecv limits msg) = Some (m', Some (from, x)) ->
         exists p, map_find (peers_ m') from = Some p /\ peer_id_ p = from /\ attested p)
  end.
Proof.
  intros H0 Hevs. pose proof (pm_run_ok evs m0 (Init_ok _ H0) Hevs) as Hm. destruct (pm_run m0 evs) as [m|]; [|done]. split.
  - intros id p Hf Hc. destruct (find_ok _ _ _ Hm Hf) as [Hid _ Hk]. split; [done|]. apply Hk.
    revert Hc. unfold connected, InternalCurrentState. by repeat case_match; eauto.
  - intros limits msg m' from x Hh. pose proof (pm_handle_ok m (pmRecv limits msg) Hm I) as Hok. rewrite Hh in Hok.
    destruct Hok as [Hm' Hp]. destruct (Hp _ _ eq_refl) as (p & Hf & Hk). destruct (find_ok _ _ _ Hm' Hf) as [Hid _ Ha]. eauto.
Qed.

(** Once the group's time has moved and the minimums have been updated, the
    peers that remain connected have an attestation within the timeout of
    the group's time and meet the minimums. *)
Theorem stale_peers_disconnected m secs timeout limits m1 m2 got1 got2 id p :
  time_ m <> secs ->
  pm_handle m (pmTime secs timeout) = Some (m1, got1) -> pm_handle m1 (pmMinimums limits) = Some (m2, got2) ->
  map_find (peers_ m2) id = Some p -> connected p ->
  last_attestation_ p - timeout <= secs <= last_attestation_ p + timeout /\ CheckValues limits (peer_minimums_ p) = OK.
Proof.
  intros Ht H1 H2 Hf%map_find_elem Hc. simpl in H1, H2. unfold SetPeerAttestationTimestamp in H1. zbool.
  rewrite (proj2 (Z.eqb_neq _ _) Ht) in H1. cbn [peers_] in H1.
  destruct (each_peer _ (peers_ m)) as [[ps1 o1]|] eqn:E1; [|done]. simpl in H1. injection H1 as <- _.
  unfold MinimumsUpdated in H2. cbn [peers_] in H2. destruct (each_peer _ ps1) as [[ps2 o2]|] eqn:E2; [|done].
  simpl in H2. injection H2 as <- _. simpl in Hf.
  assert (F1 : Forall (fun kp => attestation_fresh secs timeout kp.2) ps1).
  { eapply each_peer_post; [|exact E1]. intros q q' out [= Hq]. pose proof (too_old_fresh q secs timeout) as F. by rewrite Hq in F. }
  assert (F2 : Forall (fun kp => attestation_fresh secs timeout kp.2) ps2).
  { eapply each_peer_post_keep; [|exact E2|exact F1]. intros q q' out Hq. by apply (minimums_keep q limits q' out). }
  assert (F3 : Forall (fun kp => connected kp.2 -> CheckValues limits (peer_minimums_ kp.2) = OK) ps2).
  { eapply (each_peer_post _ (fun q => connected q -> CheckValues limits (peer_minimums_ q) = OK)); [|exact E2].
    intros q q' out Hq. by apply (minimums_keep q limits q' out). }
  rewrite Forall_forall in F2, F3. split; [exact (F2 _ Hf Hc)|exact (F3 _ Hf Hc)].
Qed.

(** C28: A connection carries messages in order.  If the ends of a connection
    have paired cipher states, what [Send] hands to the host for a sequence of
    messages of any length, through any number of re-keyings, is decrypted by
    [Recv] to the same messages in the same order, up to the first message
    that cannot be sent; if all are sent the ends stay paired.  Attestation
    updates among the messages, which the receiver has to accept (they verify
    at its time and name the sender), are taken by the connection itself and
    not passed on. *)
Theorem peer_channel_in_order A B msgs time limits :
  (forall msg s, SerializeE2E msg = Some s -> ParseE2E s = Some msg) ->
  channel A B -> Forall (accepted (peer_id_ B) time) msgs ->
  exists A' packets err B', send_all A msgs = Some (A', packets, err) /\
    recv_all B time limits packets = Some (B', payloads (take (length packets) msgs)) /\
    (err = OK -> length packets = length msgs /\ channel A' B').
Proof. intros Hp. exact (channel_run Hp msgs A B time limits). Qed.
End props.

(** ** Examples *)
Definition ex_manager : PeerManager := (PeerManager_Init PeerManager_new).1.
Definition ex_id : PeerID := replicate 32 2.
Definition ex_connecting : list PmEvent :=
  [pmConnect ex_id; pmRecv [] {| pm_peer_id := ex_id; pm_inner := pSynack [1] |}; pmTime 50 100].

Lemma connected_peers_attested_witness :
  exists m, pm_run ex_manager ex_connecting = Some m /\ ConnectedPeers m = [ex_id] /\
    (forall p, map_find (peers_ m) ex_id = Some p -> connected p -> attested p).
Proof.
  pose proof (connected_peers_attested ex_manager ex_connecting) as H.
  assert (E : option_map ConnectedPeers (pm_run ex_manager ex_connecting) = Some [ex_id]) by (vm_compute; reflexivity).
  destruct (pm_run ex_manager ex_connecting) as [m|]; [|discriminate E]. injection E as E.
  destruct H as [Hc _]; [reflexivity|repeat constructor|].
  exists m. split; [reflexivity|]. split; [exact E|]. intros p Hf Hp. by apply (Hc ex_id p Hf).
Defined.

(** A peer last attested at 50. *)
Definition ex_attested : Peer := {|
  peer_id_ := ex_id; handshake_ := None; peer_tx_ := Some (1, 0); tx_rekey_ := 255; peer_rx_ := Some (1, 1000);
  rx_rekey_ := 7; last_attestation_ := 50; peer_minimums_ := [] |}.
Definition ex_attested_manager : PeerManager := put_peer ex_manager ex_id ex_attested.

(** The state of the peer after events. *)
Definition ex_after (evs : list PmEvent) : option PeerState :=
  match pm_run ex_attested_manager evs with
  | Some m => option_map InternalCurrentState (map_find (peers_ m) ex_id)
  | None => None
  end.

Lemma stale_peers_disconnected_witness :
  (exists m1 m2 got1 got2 p, pm_handle ex_attested_manager (pmTime 150 100) = Some (m1, got1) /\
    pm_handle m1 (pmMinimums []) = Some (m2, got2) /\ map_find (peers_ m2) ex_id = Some p /\ connected p /\
    last_attestation_ p - 100 <= 150 <= last_attestation_ p + 100) /\
  ex_after [pmTime 151 100] = Some PEER_DISCONNECTED.
Proof.
  split; [|vm_compute; reflexivity].
  assert (E : ex_after [pmTime 150 100; pmMinimums []] = Some PEER_CONNECTED) by (vm_compute; reflexivity).
  unfold ex_after, pm_run in E. destruct (pm_handle ex_attested_manager (pmTime 150 100)) as [[m1 got1]|] eqn:E1; [|discriminate].
  cbn [mbind option_bind] in E. destruct (pm_handle m1 (pmMinimums [])) as [[m2 got2]|] eqn:E2; [|discriminate].
  cbn [mbind option_bind] in E. destruct (map_find (peers_ m2) ex_id) as [p|] eqn:Ef; [|discriminate]. injection E as Hc.
  exists m1, m2, got1, got2, p. split; [reflexivity|]. split; [exact E2|]. split; [exact Ef|]. split; [exact Hc|].
  apply (stale_peers_disconnected ex_attested_manager 150 100 [] m1 m2 got1 got2 ex_id p); [discriminate|exact E1|exact E2|exact Ef|exact Hc].
Defined.

(** The other end of the connection, to a peer with the key 2. *)
Definition ex_attesting : Peer := {|
  peer_id_ := ex_id; handshake_ := None; peer_tx_ := Some (1, 1000); tx_rekey_ := 7; peer_rx_ := Some (1, 0);
  rx_rekey_ := 255; last_attestation_ := 50; peer_minimums_ := [] |}.
Definition ex_stream : list EnclaveToEnclaveMessage := [eConnected false; eAttestationUpdate Attestation_default; eNOT_SET].

Lemma peer_channel_in_order_witness :
  exists A' packets B', send_all ex_attested ex_stream = Some (A', packets, OK) /\ length packets = 3%nat /\
    recv_all ex_attesting 70 [] packets = Some (B', [eConnected false; eNOT_SET]) /\ channel A' B'.
Proof.
  destruct (peer_channel_in_order (MP:=toy_msgs) ex_attested ex_attesting ex_stream 70 [] toy_e2e_parse)
    as (A' & packets & err & B' & Hs & Hr & Hok).
  - exists (1, 0), (1, 0). repeat split; try (by eexists); reflexivity.
  - repeat constructor. eexists. split; reflexivity.
  - assert (E : option_map (fun r => r.2) (send_all ex_attested ex_stream) = Some OK) by (vm_compute; reflexivity).
    rewrite Hs in E. injection E as ->. destruct (Hok eq_refl) as [Hl Hc]. exists A', packets, B'. rewrite Hl in Hr. by split_and!.
Defined.
