(* ===== verification/CoreProps.v ===== *)
(** * Properties of the core

    Messages of the group, writes, new groups and replication, on a core
    that is loaded, joins or starts. *)
From stdpp Require Import prelude gmap sorting.
From S2P Require Import Prelude Errors Containers Util RaftTypes RaftLog PeerId Membership Merkle MerkleProofs MerkleProps Raft RaftInv RaftStep RaftAppend RaftReceive RaftPublic RaftExamples.
From S2P Require Import ClientTypes Minimums GroupClock Timeout Db Db2 Db2Spec Database Db2Database Msgs Noise Client Peers.
From S2P Require Import CoreState Core CoreReplicate CoreHandlers CoreHost CoreHoare CoreApply Replication CoreJoin CoreExamples.

Section theorems.
Context {T L D V : Type} `{!EqDecision L, !Countable L} {MO : MerkleOps T L} {MS : MerkleSpec T L}.
Context {RP : RaftPlatform} {RPL : RaftPlatformLaws} {DB : Database T D} {DS : DatabaseSpec T L D V}.
Context {NP : NoisePlatform} {NL : NoiseLaws} {MP : MsgPlatform} {EV : Env}.
Notation Core := (Core T L D).
Notation Raft := (Raft T L).
Notation applied s := (last_applied_ (sn_raft s)).
Implicit Types (c : Core) (r : Raft) (d : D) (lf : L) (H : list LogEntry) (id : Z).

(** C19: A Raft message to a loaded core, one that replicas send and whose term
    and entries fit 64 bits.  The replica handles it and keeps its invariant
    and its durable state.  If the limits accept the minimums among the entries
    it commits (the core ends on one they refuse), the core handles the message
    without aborting; when it returns, every committed entry has been applied
    once and in order to the database, the limits and the membership state, and
    no transaction waits for an entry that was applied. *)
Theorem raft_message_applied c r d lf m from :
  loaded_core c r d lf -> event_ok r (EvReceive m from) ->
  exists r1, Receive r m from = Some r1 /\ inv r1 /\ durable r r1 /\
    (limits_accept_all (minimums_ c) (to_apply r1) ->
     exists c' r' d', HandleE2E from (eRaftMessage m) c = Some (c', OK) /\ applied_all c r1 d lf c' r' d').
Proof.
  intros Hc Hok. destruct (handle_spec r (EvReceive m from) (ho_inv _ _ _ _ _ _ Hc) Hok) as (r1 & Hr & Hi & Hd).
  exists r1. split_and!; [done..|]. intros Hl. destruct (raft_message_wp c r d lf m from r1 Hc Hok Hr Hl) as (c' & err & Hw & -> & r' & d' & A).
  eauto.
Qed.

(** C24: A write at the leader, on a core that is part of its group, with the
    configured minimum of voting replicas.  An entry that the leader's Raft
    accepts is in the log after the last one, in the leader's term.  If the
    limits accept the minimums among the entries it commits (the core ends on
    one they refuse), the call does not abort; when it returns, every committed
    entry has been applied once and in order, and of this transaction and the
    earlier ones none waits for an entry that was applied. *)
Theorem leader_write c r d lf e cb r1 loc :
  loaded_core c r d lf -> state (raft_ c) = RAFTSTATE_LOADED_PART_OF_GROUP -> is_leader r = true ->
  min_voting_replicas (lo_group_config (loaded (raft_ c))) <= voting_count r ->
  event_ok r (EvLogRequest e) -> LogRequest r e = Some (r1, (loc, OK)) ->
  limits_accept_all (minimums_ c) (to_apply r1) ->
  exists c' r' d', RaftWriteLogTransaction e cb c = Some (c', OK) /\
    loc_idx loc = last_idx (log_ r) + 1 /\ loc_term loc = current_term_ r /\
    applied_all (waiting loc cb c) r1 d lf c' r' d'.
Proof.
  intros Hc Hst Hl Hm Hok Hr Hlim. pose proof Hok as (O1 & O2 & O3).
  destruct (LogRequest_good r e (ho_inv _ _ _ _ _ _ Hc) O1 O2 O3) as (r1' & loc' & err' & Hr' & _ & Hloc).
  rewrite Hr in Hr'. injection Hr' as <- <- <-. destruct (Hloc eq_refl) as (_ & _ & ->).
  destruct (leader_write_wp c r d lf e cb r1 _ Hc Hst Hl Hm Hok Hr Hlim) as (c' & err & Hw & -> & r' & d' & A). eauto 10.
Qed.

(** A new group.  A core that has no state creates a group without
    aborting: it is the group's only member and its leader, everything it has
    committed is applied, its database is empty, the Merkle leaves are
    consistent, and it replies [OK]. *)
Theorem group_created c tx :
  creator c ->
  exists c' r d lf, HandleCreateNewRaftGroupRequest tx c = Some (c', tt) /\ loaded_core c' r d lf /\
    last_applied_ r = commit_idx_ r /\ role_ r = LEADER /\ membership r = First (ID (peer_manager_ c)) /\ db_view d = ∅ /\
    state (raft_ c') = RAFTSTATE_LOADED_PART_OF_GROUP /\ last (sent c') = Some (mH2EResponse tx (oStatus OK)).
Proof.
  intros Hc. destruct (HandleCreate_wp c tx (creator_creating c Hc)) as (c' & [] & Hw & r & d & lf & A1 & A2 & A3 & A4 & A5 & A6 & _ & _ & out & A7).
  exists c', r, d, lf. split_and!; try done. by rewrite A7, !(assoc_L (++)), last_snoc.
Qed.

(** C25: A request to create a group is refused in reply and carried out all
    the same: [HandleCreateNewRaftGroupRequest] goes on after its check of the
    state.  A core that is loaded, with whatever log and database, replies
    [Core_RaftState], destroys its replica and database, makes a new group of
    which it is the only member, with an empty database and a new id, and
    replies [OK] to the same request. *)
Theorem create_request_discards_group c r d lf tx :
  loaded_core c r d lf -> peerid_ok (ID (peer_manager_ c)) -> 0 < election_ticks (raft_config (enclave_config_ c)) ->
  0 <= super_majority (raft_config_template_ c) < 2 ^ 62 -> (env_RandomBytes (random_calls c) 8).2 = OK ->
  exists c' r' d' lf', HandleCreateNewRaftGroupRequest tx c = Some (c', tt) /\ loaded_core c' r' d' lf' /\
    state (raft_ c') = RAFTSTATE_LOADED_PART_OF_GROUP /\ role_ r' = LEADER /\ membership r' = First (ID (peer_manager_ c)) /\
    db_view d' = ∅ /\
    group_id (lo_group_config (loaded (raft_ c'))) = BigEndian64FromBytes (env_RandomBytes (random_calls c) 8).1 /\
    exists out, sent c' = sent c ++ [mH2EResponse tx (oStatus Core_RaftState)] ++ out ++ [mH2EResponse tx (oStatus OK)].
Proof.
  intros Hl H1 H2 H3 H4. assert (creating c) as Hc.
  { split; try done; [exact (holds_destroyable _ _ _ _ _ _ Hl)|]. apply (db_ok_tree _ _ (ho_db_ok _ _ _ _ _ _ Hl)). }
  destruct (HandleCreate_wp c tx Hc) as (c' & [] & Hw & r' & d' & lf' & A1 & A2 & A3 & A4 & A5 & A6 & _ & A7 & out & A8).
  exists c', r', d', lf'. split_and!; try done. exists out. rewrite A8. unfold refusal.
  pose proof (ho_state _ _ _ _ _ _ Hl) as Hs. rewrite bool_decide_eq_false_2; [done|]. intros E. by rewrite E in Hs.
Qed.

(** C18: Replication copies the database.  A member that follows the group's
    committed entries [H] sends its pushes while it goes on applying entries;
    [sending] says that it still stores every entry it has to send (it may drop
    entries from its log meanwhile, and replication then has to start again).
    The enclave that joins handles each push: it accepts it, or refuses it
    because its log has no room or because a committed client log is not
    valid.  If it accepts all of them and the last one was sent, its log ends
    at an index the member had applied, its database is the group's state at
    that index, and its hash is that of every member at that index. *)
Theorem replication_copies {LM : LogMessages} H s ss c id target tx :
  fresh_loading c id ->
  sending H 1 (s :: ss) (first_push (sn_raft s) target tx id) ->
  exists ps' pushes c' err,
    send_pushes (s :: ss) (first_push (sn_raft s) target tx id) = Some (ps', pushes) /\
    receive_pushes pushes c = Some (c', err) /\
    (err = OK \/ repl_error H err) /\
    (err = OK -> finished_sending ps' = true -> exists s', s' ∈ s :: ss /\ copied c' H (applied s')).
Proof. apply replication_accepts. Qed.

(** C22: Replication ends.  If the configured chunk has room for one row beside
    the integers of a push, every push of a member sends an entry or a row or
    is the last one: a member that applies nothing new is done after as many
    pushes as it has entries and rows to send, and one more. *)
Theorem replication_ends H s target tx id :
  PushSizes -> follows H (sn_raft s) (sn_db s) -> 33 + db_MaxRowSerializedSize <= sn_chunk s ->
  let ps := first_push (sn_raft s) target tx id in
  exists ps' pushes,
    send_pushes (replicate (length (entries_ (log_ (sn_raft s))) + size (db_view (sn_db s)) + 1) s) ps = Some (ps', pushes) /\
    finished_sending ps' = true.
Proof.
  intros PZ F Hchunk ps. destruct (follows_start _ _ _ F) as [E1 [E2 E3]].
  pose proof (ci_idx _ (inv_core _ (fw_inv _ _ _ F))) as [I1 I2 I3 I4 I5 I6 I7 I8]. pose proof (last_idx_eq _ I1).
  eapply send_pushes_end; try done; simpl.
  - split; [done|by left].
  - lia.
  - rewrite (fw_view _ _ _ F). assert (size (rows_left (V:=V) H (sn_raft s) []) <= size (state_at (V:=V) H (applied s)))%nat.
    { apply map_subseteq_size, map_filter_subseteq. }
    unfold Zlen in *. lia.
Qed.

(** C21: An enclave that has received the whole state becomes a member that
    can be trusted with it.  Promotion does not abort; the new Raft replica
    satisfies its invariant, has the log of the group up to the index [n],
    counts all of it as applied, and the database beside it is the group's
    state at that index: it follows the group from there on, as every other
    member does. *)
Theorem joined_member c H n mem :
  copied (V:=V) c H n -> history_ok H -> joiner c H n mem ->
  exists c' r d lf, PromoteRaftToLoaded c = Some (c', tt) /\ loaded_core c' r d lf /\
    state (raft_ c') = RAFTSTATE_LOADED_REQUESTING_MEMBERSHIP /\ follows H r d /\ last_applied_ r = n /\ membership r = mem.
Proof.
  intros Hc Hh Hj. destruct (PromoteRaftToLoaded_wp c H n mem Hc Hh Hj) as (c' & [] & Hw & r & d & lf & A1 & A2 & A3 & A4 & A5).
  exists c', r, d, lf. unfold loaded_core. rewrite A4. done.
Qed.
End theorems.

(** ** Examples *)
(** The core that joined, promoted; the leader writes again and sends the new
    entry, committed, to it. *)
Definition ex_member : option ExCore := '(c, _, _) ← ex_transfer; '(c, _) ← PromoteRaftToLoaded c; Some c.
Definition ex_entry2 : LogEntry := {| entry_term := 0; entry_inner := kData (replicate 16 10 ++ [8]); hash_chain := [] |}.
Definition ex_leader : option ExRaft :=
  c ← ex_written; '(c, _) ← RaftWriteLogTransaction ex_entry2 (LC_HostDatabaseRequest 7) c; raft_of c.
Definition ex_append : RaftMessage := default {| msg_group := 0; msg_term := 0; msg_inner := MESSAGE_NOT_SET |}
  (r ← ex_leader; e2 ← log_at (log_ r) 2; e3 ← log_at (log_ r) 3;
   Some {| msg_group := group_ r; msg_term := current_term_ r; msg_inner := kAppendRequest {|
     ar_prev_log_idx := 2; ar_prev_log_term := entry_term e2; ar_leader_commit := commit_idx_ r; ar_entries := [e3];
     ar_leader_promise := promise_idx_ r; ar_prev_log_hash_chain := hash_chain e2 |} |}).

Lemma ex_member_loaded : exists c r d lf, ex_member = Some c /\ loaded_core c r d lf.
Proof.
  destruct ex_transfer_copied as (c & H & Hc & Hcp & Hh).
  destruct (PromoteRaftToLoaded_wp c H 2 (First ex_peer) Hcp Hh (ex_transfer_joiner c H Hc)) as (c' & [] & Hw & r & d & lf & A1 & _ & _ & A4 & _).
  exists c', r, d, lf. unfold ex_member, loaded_core. rewrite Hc. cbn [mbind option_bind]. rewrite Hw. cbn [mbind option_bind].
  rewrite A4. split; [reflexivity|exact A1].
Qed.

Lemma ex_append_wf : message_wf ex_append.
Proof.
  assert (exists a e, ex_append = {| msg_group := 72340172838076673; msg_term := 1; msg_inner := kAppendRequest a |} /\
    ar_entries a = [e] /\ ar_prev_log_idx a = 2 /\ entry_term e = 1 /\ entry_inner e = kData (replicate 16 10 ++ [8]))
    as (a & e & -> & Ha & Hp & He & Hi).
  { eexists _, _. split_and!; vm_compute; reflexivity. }
  unfold message_wf. cbn [msg_term msg_inner]. rewrite Ha, Hp. split_and!; [by vm_compute..|].
  repeat constructor; rewrite ?He, ?Hi; by vm_compute.
Qed.

Lemma ex_append_facts (r r1 : ExRaft) : ex_member ≫= raft_of = Some r ->
  event_ok r (EvReceive ex_append ex_peer) /\
  (Receive r ex_append ex_peer = Some r1 -> limits_accept_all [] (to_apply r1) /\
     entry_inner <$> to_apply r1 = [kData (replicate 16 10 ++ [8])]).
Proof.
  intros E. vm_compute in E. injection E as <-. split.
  - split; [apply ex_append_wf|]. vm_compute. by repeat split.
  - intros H. vm_compute in H. injection H as <-. split; [by vm_compute|]. vm_compute. reflexivity.
Qed.

Definition ex_handled : option ExCore := c ← ex_member; '(c, _) ← HandleE2E ex_peer (eRaftMessage ex_append) c; Some c.

(** The entry is committed by the message, and is in the database when the
    call returns. *)
Lemma raft_message_applied_witness : exists (c c' : ExCore) r r1,
  ex_member = Some c /\ Receive r ex_append ex_peer = Some r1 /\ inv r1 /\ entry_inner <$> to_apply r1 = [kData (replicate 16 10 ++ [8])] /\
  HandleE2E ex_peer (eRaftMessage ex_append) c = Some (c', OK) /\
  (fst <$> default [] (lo_db (loaded (raft_ c))), fst <$> default [] (lo_db (loaded (raft_ c')))) =
  ([replicate 16 9], [replicate 16 9; replicate 16 10]).
Proof.
  destruct ex_member_loaded as (c & r & d & lf & Hc & Hl). destruct (loaded_core_raft _ _ _ _ Hl) as [Hr _].
  assert (ex_member ≫= raft_of = Some r) as E by (rewrite Hc; unfold raft_of; cbn [mbind option_bind]; by rewrite Hr).
  assert (minimums_ c = []) as Hm by ex_eval.
  destruct (raft_message_applied c r d lf ex_append ex_peer Hl (proj1 (ex_append_facts r r E))) as (r1 & H1 & H2 & _ & H3).
  destruct (proj2 (ex_append_facts r r1 E) H1) as [Hlim Hap]. rewrite <- Hm in Hlim.
  destruct (H3 Hlim) as (c' & _ & _ & H4 & _).
  assert (ex_handled = Some c') as E' by (unfold ex_handled; rewrite Hc; cbn [mbind option_bind]; rewrite H4; reflexivity).
  assert (fst <$> default [] (lo_db (loaded (raft_ c))) = [replicate 16 9]) as K1 by ex_eval.
  assert (fst <$> default [] (lo_db (loaded (raft_ c'))) = [replicate 16 9; replicate 16 10]) as K2 by (clear -E'; ex_eval).
  exists c, c', r, r1. split; [exact Hc|]. split; [exact H1|]. split; [exact H2|]. split; [exact Hap|]. split; [exact H4|].
  rewrite K1, K2. reflexivity.
Defined.

Lemma leader_write_witness : exists (c c' : ExCore),
  ex_created = Some c /\ RaftWriteLogTransaction ex_entry (LC_HostDatabaseRequest 6) c = Some (c', OK).
Proof.
  destruct ex_created_loaded as (c & r & d & lf & Hc & H & Hd). destruct (loaded_core_raft _ _ _ _ H) as [Hr _].
  assert (raft_of c = Some r) as Hr' by (unfold raft_of; by rewrite Hr).
  destruct (ex_created_facts c r Hc Hr') as (F1 & F2 & F3 & F4 & F5 & r1 & loc & F6 & F7 & _). rewrite <- F5 in F7.
  destruct (leader_write c r d lf ex_entry (LC_HostDatabaseRequest 6) r1 loc H F1 F2 F3 F4 F6 F7) as (c' & _ & _ & H1 & _).
  exact (ex_intro _ c (ex_intro _ c' (conj Hc H1))).
Defined.

Lemma group_created_witness : exists (c c' : ExCore),
  ex_new = Some c /\ HandleCreateNewRaftGroupRequest 5 c = Some (c', tt) /\ last (sent c') = Some (mH2EResponse 5 (oStatus OK)).
Proof.
  destruct ex_new_creator as (c & Hc & Hcr). destruct (group_created c 5 Hcr) as (c' & r & d & lf & H1 & _ & _ & _ & _ & _ & _ & H2).
  exists c, c'. exact (conj Hc (conj H1 H2)).
Defined.

Lemma replication_copies_witness : exists w (c c' : ExCore) r d H ps pushes, ex_written = Some w /\ ex_joining = Some c /\
  follows H r d /\ ex_sent r d = Some (ps, pushes) /\ receive_pushes pushes c = Some (c', OK) /\ finished_sending ps = true /\
  copied (V:=Secret) c' H 2.
Proof.
  destruct ex_written_loaded as (w & r & d & lf & H & Hw & Hl & F & _ & Hap). destruct ex_joining_fresh as (c & Hc & Hf).
  destruct (replication_copies H (ex_snapshot r d) [] c _ (replicate 32 8) 3 Hf (ex_sending _ _ _ _ _ _ F))
    as (ps & pushes & c' & err & H1 & H2 & _ & H3).
  destruct (ex_transfer_run w c c' r d lf ps pushes err Hw Hl Hc H1 H2) as (-> & Hfin & _).
  destruct (H3 eq_refl Hfin) as (s' & Hs' & Hcp). apply list_elem_of_singleton in Hs' as ->. simpl in Hcp. rewrite Hap in Hcp.
  exists w, c, c', r, d, H, ps, pushes. exact (conj Hw (conj Hc (conj F (conj H1 (conj H2 (conj Hfin Hcp)))))).
Defined.

Lemma replication_ends_witness : exists w (r : ExRaft) (d : ExRows) ps' pushes, ex_written = Some w /\
  send_pushes (replicate (length (entries_ (log_ r)) + size (db_view d) + 1) (ex_snapshot r d)) (first_push r (replicate 32 8) 3 5)
    = Some (ps', pushes) /\ finished_sending ps' = true.
Proof.
  destruct ex_written_loaded as (w & r & d & lf & H & Hw & _ & F & _ & _).
  destruct (replication_ends H (ex_snapshot r d) (replicate 32 8) 3 5 _ F) as (ps' & pushes & H1 & H2); [vm_compute; discriminate|].
  exists w, r, d, ps', pushes. exact (conj Hw (conj H1 H2)).
Defined.

Lemma joined_member_witness : exists (c c' : ExCore), ex_transfer = Some (c, OK, true) /\ PromoteRaftToLoaded c = Some (c', tt) /\
  state (raft_ c') = RAFTSTATE_LOADED_REQUESTING_MEMBERSHIP.
Proof.
  destruct ex_transfer_copied as (c & H & Hc & Hcp & Hh).
  destruct (joined_member c H 2 (First ex_peer) Hcp Hh (ex_transfer_joiner c H Hc)) as (c' & r & d & lf & H1 & _ & H2 & _).
  exists c, c'. exact (conj Hc (conj H1 H2)).
Defined.

(** ** A second request to create a group, on the core with a backup *)
Lemma create_request_discards_group_witness : exists (c c' : ExCore) d d', ex_written = Some c /\
  lo_db (loaded (raft_ c)) = Some d /\ length d = 1%nat /\ HandleCreateNewRaftGroupRequest 9 c = Some (c', tt) /\
  lo_db (loaded (raft_ c')) = Some d' /\ db_view d' = ∅ /\
  group_id (lo_group_config (loaded (raft_ c'))) <> group_id (lo_group_config (loaded (raft_ c))).
Proof.
  destruct ex_written_loaded as (c & r & d & lf & H & Hc & Hl & _). destruct (loaded_core_raft _ _ _ _ Hl) as [_ Hd].
  assert ((ID (peer_manager_ c), election_ticks (raft_config (enclave_config_ c)), super_majority (raft_config_template_ c),
    random_calls c, group_id (lo_group_config (loaded (raft_ c))), length <$> lo_db (loaded (raft_ c))) =
    (replicate 32 2, 32, 0, 1%nat, 72340172838076673, Some 1%nat)) as F by ex_eval. injection F as F1 F2 F3 F4 F5 F6.
  destruct (create_request_discards_group c r d lf 9 Hl) as (c' & r' & d' & lf' & H1 & H2 & _ & _ & _ & H3 & H4 & _);
    [rewrite F1; reflexivity|rewrite F2; reflexivity|rewrite F3; split; [discriminate|reflexivity]|reflexivity|].
  destruct (loaded_core_raft _ _ _ _ H2) as [_ Hd']. rewrite Hd in F6. injection F6 as F6.
  exists c, c', d, d'. split; [exact Hc|]. split; [exact Hd|]. split; [exact F6|]. split; [exact H1|]. split; [exact Hd'|].
  split; [exact H3|]. rewrite H4, F5, F4. vm_compute. discriminate.
Defined.
