(* ===== verification/HostWire.v ===== *)
(** * Host to host: sequence numbers and framing (host/peer)

    The hosts pass the enclaves' peer messages on over TCP.  Each message has
    a sequence number (sequence_number.go), and is framed by its length as a
    varint (serialize.go).  [proto.Marshal] and [proto.Unmarshal] are
    parameters; [encoding/binary] and [io] are Go's. *)
From stdpp Require Import prelude.
From S2P Require Import Prelude Errors Containers RaftTypes PeerId Msgs.

(** ** Sequence numbers *)
Record sequenceNumber := { epoch : Z; seq : Z }.
#[export] Instance sequenceNumber_eq_dec : EqDecision sequenceNumber.
Proof. solve_decision. Defined.

(** The representation: a [uint32] and a [uint64]. *)
Definition seqno_ok (s : sequenceNumber) : Prop := is_u32 (epoch s) /\ is_u64 (seq s).

Definition sequenceNumber_zero : sequenceNumber := {| epoch := 0; seq := 0 |}.

Definition follows (s pred : sequenceNumber) : bool :=
  ((epoch pred <? epoch s) && (seq s =? 0)) || ((epoch s =? epoch pred) && (seq s =? u64 (seq pred + 1))).

Definition next (s : sequenceNumber) : sequenceNumber := {| epoch := epoch s; seq := u64 (seq s + 1) |}.

Definition nextEpoch (s : sequenceNumber) : sequenceNumber := {| epoch := u32 (epoch s + 1); seq := 0 |}.

(** [int(x)] of an unsigned value, for the 64-bit [int] of the platform. *)
Definition int64 (z : Z) : Z := let w := u64 z in if w <? 2 ^ 63 then w else w - 2 ^ 64.

Definition cmp (s o : sequenceNumber) : Z :=
  let ecmp := int64 (u32 (epoch s - epoch o)) in
  if negb (ecmp =? 0) then ecmp else int64 (u64 (seq s - seq o)).

(** ** Messages (host/proto/control.proto) *)
(** A message field is a pointer, nil when the field is not set. *)
Record PeerConnectionData := { data_seqno : option sequenceNumber; data_Msg : option PeerMessage }.
Definition data_msg (d : PeerConnectionData) : PeerMessage := default {| pm_peer_id := []; pm_inner := pNOT_SET |} (data_Msg d).
Inductive PeerConnectionMessage :=
  | cHello (from_peer_id to_peer_id : bytes)
  | cHelloAck (last_ack : option sequenceNumber)
  | cData (d : PeerConnectionData)
  | cDataAck (seqno : option sequenceNumber)
  | cNOT_SET.

(** ** Framing *)
Inductive WireError :=
  | ErrEOF
  | ErrUnexpectedEOF
  | ErrOverflow
  | ErrTooLong
  | ErrUnmarshal
  | ErrMarshal
  | ErrUnexpectedMessage
  | ErrNoSeqno
  | ErrPeerID.
Notation result A := (A + WireError)%type.

Definition MaxVarintLen64 : nat := 10.
Definition maxMessageLength : Z := 1024 * 1024 * 128.

(** [binary.PutUvarint]: the bytes written; [n] bounds the buffer, writing
    past which panics ([None]). *)
Fixpoint PutUvarint (n : nat) (x : Z) : option bytes :=
  match n with
  | O => None
  | S n => if 128 <=? x then cons (Z.lor (u8 x) 128) <$> PutUvarint n (Z.shiftr x 7) else Some [u8 x]
  end.

(** [binary.ReadUvarint] of the bytes that are left of a connection: [i]
    counts the bytes that may still be read. *)
Fixpoint read_uvarint (i : nat) (x s : Z) (first : bool) (r : bytes) : result (Z * bytes) :=
  match i with
  | O => inr ErrOverflow
  | S i =>
      match r with
      | [] => inr (if first then ErrEOF else ErrUnexpectedEOF)
      | b :: r =>
          if b <? 128 then
            if bool_decide (i = O) && (1 <? b) then inr ErrOverflow
            else inl (Z.lor x (u64 (Z.shiftl b s)), r)
          else read_uvarint i (Z.lor x (u64 (Z.shiftl (Z.land b 127) s))) (s + 7) false r
      end
  end.
Definition ReadUvarint (r : bytes) : result (Z * bytes) := read_uvarint MaxVarintLen64 0 0 true r.

(** [io.ReadFull] into a buffer of [n] bytes. *)
Definition ReadFull (n : Z) (r : bytes) : result (bytes * bytes) :=
  if n <=? Zlen r then inl (take (Z.to_nat n) r, drop (Z.to_nat n) r)
  else inr (if bool_decide (r = []) then ErrEOF else ErrUnexpectedEOF).

Definition readFramedRaw (r : bytes) : result (bytes * bytes) :=
  match ReadUvarint r with
  | inr e => inr e
  | inl (length, r) => if maxMessageLength <? length then inr ErrTooLong else ReadFull length r
  end.

Class Proto := {
  Marshal : PeerConnectionMessage -> option bytes;
  Unmarshal : bytes -> option PeerConnectionMessage }.

Section framing.
Context {PR : Proto}.

(** What is written to the connection. *)
Definition writeFramed (m : PeerConnectionMessage) : result bytes :=
  match Marshal m with
  | None => inr ErrMarshal
  | Some bs => match PutUvarint MaxVarintLen64 (Zlen bs) with None => inr ErrOverflow | Some n => inl (n ++ bs) end
  end.

Definition readFramed (r : bytes) : result (PeerConnectionMessage * bytes) :=
  match readFramedRaw r with
  | inr e => inr e
  | inl (bs, r) => match Unmarshal bs with None => inr ErrUnmarshal | Some m => inl (m, r) end
  end.

Definition makeSeqno (p : option sequenceNumber) : result sequenceNumber :=
  match p with None => inr ErrNoSeqno | Some s => inl s end.

Definition writeAck (seqno : sequenceNumber) : result bytes := writeFramed (cDataAck (Some seqno)).

Definition readAck (r : bytes) : result (sequenceNumber * bytes) :=
  match readFramed r with
  | inr e => inr e
  | inl (cDataAck seqno, r) => match makeSeqno seqno with inr e => inr e | inl s => inl (s, r) end
  | inl _ => inr ErrUnexpectedMessage
  end.

(** [peerid.Make]. *)
Definition PeerID_Make (s : bytes) : result PeerID := if negb (Zlen s =? 32) then inr ErrPeerID else inl s.

Definition writeHello (from to : PeerID) : result bytes := writeFramed (cHello from to).

Definition readHello (r : bytes) : result (PeerID * PeerID * bytes) :=
  match readFramed r with
  | inr e => inr e
  | inl (cHello from_peer_id to_peer_id, r) =>
      match PeerID_Make from_peer_id with
      | inr e => inr e
      | inl from => match PeerID_Make to_peer_id with inr e => inr e | inl to => inl (from, to, r) end
      end
  | inl _ => inr ErrUnexpectedMessage
  end.

Definition writeHelloAck (lastAck : sequenceNumber) : result bytes := writeFramed (cHelloAck (Some lastAck)).

Definition readHelloAck (r : bytes) : result (sequenceNumber * bytes) :=
  match readFramed r with
  | inr e => inr e
  | inl (cHelloAck last_ack, r) => match makeSeqno last_ack with inr e => inr e | inl s => inl (s, r) end
  | inl _ => inr ErrUnexpectedMessage
  end.
End framing.

(** ** What was written is what is read *)
Lemma all_bytes (P : Z -> bool) : forallb P (Z.of_nat <$> List.seq 0 256) = true -> forall b, is_u8 b -> P b = true.
Proof.
  rewrite forallb_forall. intros H b [Hb1 Hb2]. apply H. apply list_elem_of_In, list_elem_of_fmap. exists (Z.to_nat b).
  rewrite elem_of_seq. lia.
Qed.

Lemma continued_byte x : let b := Z.lor (u8 x) 128 in 128 <= b /\ Z.land b 127 = x mod 128.
Proof.
  assert (H := all_bytes (fun y => (128 <=? Z.lor y 128) && (Z.land (Z.lor y 128) 127 =? y mod 128)) ltac:(vm_compute; reflexivity) (u8 x) (u8_range x)).
  cbv zeta. apply andb_true_iff in H as [H1%Z.leb_le H2%Z.eqb_eq]. split; [done|]. rewrite H2. unfold u8. change (2 ^ 8) with (2 * 128).
  apply Z.mod_mod_divide. by exists 2.
Qed.

Lemma lor_above acc x s : 0 <= s -> 0 <= acc < 2 ^ s -> Z.lor acc (Z.shiftl x s) = acc + x * 2 ^ s.
Proof. intros Hs Ha. rewrite Z.lor_comm, lor_shiftl_low by done. lia. Qed.

Lemma PutUvarint_S n x :
  PutUvarint (S n) x = if 128 <=? x then cons (Z.lor (u8 x) 128) <$> PutUvarint n (Z.shiftr x 7) else Some [u8 x].
Proof. done. Qed.

Lemma uvarint_roundtrip n s acc x r first :
  s = 7 * (9 - Z.of_nat n) -> (n <= 9)%nat -> 0 <= acc < 2 ^ s -> 0 <= x -> x * 2 ^ s < 2 ^ 64 ->
  exists w, PutUvarint (S n) x = Some w /\ read_uvarint (S n) acc s first (w ++ r) = inl (acc + x * 2 ^ s, r).
Proof.
  revert s acc x first. induction n as [|n IH]; intros s acc x first Hs Hn Hacc Hx Hmax; rewrite PutUvarint_S.
  - assert (s = 63) by lia. subst s. assert (x < 2) by lia. rewrite (proj2 (Z.leb_gt _ _)) by lia. eexists. split; [done|].
    rewrite u8_small by (unfold is_u8; lia). simpl. rewrite (proj2 (Z.ltb_lt _ _)), (proj2 (Z.ltb_ge _ _)) by lia.
    by rewrite u64_small, lor_above by (rewrite ?Z.shiftl_mul_pow2; unfold is_u64; lia).
  - assert (0 < 2 ^ s) by (apply Z.pow_pos_nonneg; lia). destruct (128 <=? x) eqn:E; zbool; cycle 1.
    + eexists. split; [done|]. rewrite u8_small by (unfold is_u8; lia). cbn [app read_uvarint]. rewrite (proj2 (Z.ltb_lt _ _)) by lia.
      simpl. by rewrite u64_small, lor_above by (rewrite ?Z.shiftl_mul_pow2; unfold is_u64; nia).
    + rewrite Z.shiftr_div_pow2 by lia. pose proof (Z.div_mod x 128 ltac:(lia)) as Hd. pose proof (Z.mod_pos_bound x 128 ltac:(lia)).
      assert (Hp : 2 ^ (s + 7) = 2 ^ s * 128) by (rewrite Z.pow_add_r by lia; done).
      destruct (IH (s + 7) (acc + x mod 128 * 2 ^ s) (x / 2 ^ 7) false) as (w & -> & Hr); [lia|lia|nia|by apply Z.div_pos|..].
      { change (2 ^ 7) with 128. nia. }
      eexists. split; [done|]. destruct (continued_byte x) as [Hb1 Hb2]. cbn [app read_uvarint]. rewrite (proj2 (Z.ltb_ge _ _)) by lia.
      fold read_uvarint. rewrite Hb2, u64_small, lor_above by (rewrite ?Z.shiftl_mul_pow2; unfold is_u64; nia).
      cbn [app read_uvarint] in Hr. rewrite Hr. do 2 f_equal. change (2 ^ 7) with 128. nia.
Qed.

Lemma ReadUvarint_Put x r : is_u64 x -> exists w, PutUvarint MaxVarintLen64 x = Some w /\ ReadUvarint (w ++ r) = inl (x, r).
Proof.
  intros Hx. destruct (uvarint_roundtrip 9 0 0 x r true) as (w & Hw & Hr); [done|lia|lia|ulia|ulia|].
  exists w. split; [exact Hw|]. unfold ReadUvarint, MaxVarintLen64. rewrite Hr. do 2 f_equal. lia.
Qed.

Section roundtrip.
Context {PR : Proto}.
Context (unmarshal_marshalled : forall m bs, Marshal m = Some bs -> Unmarshal bs = Some m).

(** A message the other end takes: it can be marshalled, and is not too long. *)
Definition sendable (m : PeerConnectionMessage) : Prop := exists bs, Marshal m = Some bs /\ Zlen bs <= maxMessageLength.

Lemma framed_read m r : sendable m -> exists w, writeFramed m = inl w /\ readFramed (w ++ r) = inl (m, r).
Proof.
  intros (bs & Hm & Hl). unfold writeFramed, readFramed, readFramedRaw, maxMessageLength in *. rewrite Hm.
  destruct (ReadUvarint_Put (Zlen bs) (bs ++ r)) as (w & -> & Hr); [pose proof (Zlen_nonneg bs); ulia|].
  eexists. split; [done|]. rewrite <- app_assoc, Hr. rewrite (proj2 (Z.ltb_ge _ _)) by lia. unfold ReadFull, Zlen.
  rewrite (proj2 (Z.leb_le _ _)), Nat2Z.id by (rewrite length_app; lia).
  rewrite take_app_length, drop_app_length. by rewrite (unmarshal_marshalled _ _ Hm).
Qed.
End roundtrip.
