(* ===== verification/Transport.v ===== *)
(** * Host to host: sending and receiving (host/peer/client.go, server.go)

    A [peerSender] numbers the messages of an enclave for one remote peer and
    keeps them until they are acknowledged; a [peerReceiver] of the other host
    forwards those it has not seen yet to its enclave.  Connections between
    them break and are made again at any time. *)
From stdpp Require Import prelude.
From S2P Require Import Prelude Errors Containers RaftTypes PeerId Msgs HostWire.

Definition isEstablishing (msg : PeerMessage) : bool :=
  match pm_inner msg with pSyn _ | pSynack _ => true | _ => false end.
Definition isReset (msg : PeerMessage) : bool := match pm_inner msg with pRst _ => true | _ => false end.

(** ** [peerSender] *)
Record peerSender := {
  pending : list PeerConnectionData;
  lastAck : sequenceNumber;
  tx : list PeerMessage;                  (* the send channel *)
  BufferSize : Z }.

Definition newPeerSender (cfg_BufferSize : Z) : peerSender :=
  {| pending := []; lastAck := sequenceNumber_zero; tx := []; BufferSize := cfg_BufferSize |}.

Definition queueMessage (p : peerSender) (msg : PeerMessage) : peerSender * bool :=
  let c := if isEstablishing msg || isReset msg then [] else tx p in
  if Zlen c <? BufferSize p then ({| p with tx := c ++ [msg] |}, true) else ({| p with tx := c |}, false).

Inductive LinkError := ErrIllegalAck | ErrWire (e : WireError) | ErrBadSeqno.

(** The loop of [processAck]: what is left of [pending], and an error. *)
Fixpoint drop_acked (ack : sequenceNumber) (ps : list PeerConnectionData) : list PeerConnectionData * option LinkError :=
  match ps with
  | [] => ([], None)
  | d :: ps' =>
      match makeSeqno (data_seqno d) with
      | inr e => (ps, Some (ErrWire e))
      | inl seqno => if 0 <? cmp seqno ack then (ps, None) else drop_acked ack ps'
      end
  end.

Definition processAck (p : peerSender) (ack : sequenceNumber) : peerSender * option LinkError :=
  if cmp ack (lastAck p) <? 0 then (p, Some ErrIllegalAck) else
  let '(ps, err) := drop_acked ack (pending p) in
  let p := {| p with pending := ps |} in
  match err with Some e => (p, Some e) | None => ({| p with lastAck := ack |}, None) end.

(** [handleConnection], from the hello-ack to the resending of what is
    pending: the number of the next message. *)
Definition sender_connected (p : peerSender) (helloAck : sequenceNumber) : peerSender * (sequenceNumber + LinkError) :=
  match processAck p helloAck with
  | (p, Some e) => (p, inr e)
  | (p, None) => (p, inl (fold_left (fun currentSeqno _ => next currentSeqno) (pending p) (next (lastAck p))))
  end.

(** [handleConnection], a message received on the send channel: the data to
    write, and the number of the next message. *)
Definition send_message (p : peerSender) (currentSeqno : sequenceNumber) (msg : PeerMessage) :
    peerSender * sequenceNumber * PeerConnectionData :=
  let '(p, currentSeqno) :=
    if isEstablishing msg then ({| p with pending := [] |}, nextEpoch currentSeqno) else (p, currentSeqno) in
  let pcd := {| data_Msg := Some msg; data_seqno := Some currentSeqno |} in
  ({| p with pending := pending p ++ [pcd] |}, next currentSeqno, pcd).

(** ** [peerReceiver] *)
Record peerReceiver := { seqno : sequenceNumber; remote : PeerID }.

Definition updateSeqno (p : peerReceiver) (s : sequenceNumber) : peerReceiver * (bool + LinkError) :=
  if cmp s (seqno p) <=? 0 then (p, inl false)
  else if negb (follows s (seqno p)) then (p, inr ErrBadSeqno)
  else ({| p with seqno := s |}, inl true).

(** What the read loop of [handleConnection] does with a message; it follows
    the pointer to the message only if the number is new. *)
Inductive Received :=
  | rPanic
  | rIgnored
  | rClosed (e : LinkError)
  | rDuplicate (ack : sequenceNumber)
  | rForward (u : PeerMessage) (ack : sequenceNumber).

Definition receive_message (p : peerReceiver) (pcm : PeerConnectionMessage) : peerReceiver * Received :=
  match pcm with
  | cData d =>
      match makeSeqno (data_seqno d) with
      | inr e => (p, rClosed (ErrWire e))
      | inl msgSeqno =>
          match updateSeqno p msgSeqno with
          | (p, inr e) => (p, rClosed e)
          | (p, inl false) => (p, rDuplicate (seqno p))
          | (p, inl true) =>
              match data_Msg d with
              | None => (p, rPanic)
              | Some msg => (p, rForward {| pm_peer_id := remote p; pm_inner := pm_inner msg |} msgSeqno)
              end
          end
      end
  | _ => (p, rIgnored)
  end.

(** ** A sender and its receiver

    [current]: the number of the next message, while the sender is connected;
    [to_server]: what the receiver's connection has still to read, while it
    has one; [to_client]: the acknowledgements the sender has still to read.
    [numbered] lists all messages the sender has numbered and [forwarded]
    those the receiver has forwarded. *)
Record Link := {
  sender : peerSender;
  receiver : peerReceiver;
  current : option sequenceNumber;
  to_server : option (list PeerConnectionData);
  to_client : list sequenceNumber;
  numbered : list PeerConnectionData;
  forwarded : list PeerConnectionData }.

Definition Link_new (cfg_BufferSize : Z) (from : PeerID) : Link := {|
  sender := newPeerSender cfg_BufferSize; receiver := {| seqno := sequenceNumber_zero; remote := from |};
  current := None; to_server := None; to_client := []; numbered := []; forwarded := [] |}.

Inductive LinkEvent :=
  | EvQueue (msg : PeerMessage)
  | EvConnect (written : nat)     (* of the pending messages, before a write fails *)
  | EvSend (written : bool)
  | EvAck
  | EvClientClosed
  | EvReceive (sent : bool)       (* whether the enclave takes the message *)
  | EvServerClosed.

(** Receiving on the send channel and loading it are one event: a message
    taken from a channel that has just been replaced was taken before.  A
    reconnecting client makes the receiver close its connection, and wait for
    its handler, before it says hello. *)
Definition link_step (l : Link) (ev : LinkEvent) : option Link :=
  match ev with
  | EvQueue msg => Some {| l with sender := (queueMessage (sender l) msg).1 |}
  | EvConnect written =>
      match current l with
      | Some _ => None
      | None =>
          match sender_connected (sender l) (seqno (receiver l)) with
          | (s, inr _) => Some {| l with sender := s; to_server := None; to_client := [] |}
          | (s, inl n) => Some {| l with sender := s; to_server := Some (take written (pending s)); to_client := [];
                                         current := if bool_decide (length (pending s) <= written)%nat then Some n else None |}
          end
      end
  | EvSend written =>
      match current l, tx (sender l) with
      | Some n, msg :: tx' =>
          let s := {| (sender l) with tx := tx' |} in
          let '(s, n, pcd) := send_message s n msg in
          Some {| l with sender := s; current := if written then Some n else None;
                         to_server := if written then (fun ds => ds ++ [pcd]) <$> to_server l else to_server l;
                         numbered := numbered l ++ [pcd] |}
      | _, _ => None
      end
  | EvAck =>
      match current l, to_client l with
      | Some n, ack :: acks =>
          match processAck (sender l) ack with
          | (s, Some _) => Some {| l with sender := s; current := None; to_client := [] |}
          | (s, None) => Some {| l with sender := s; to_client := acks |}
          end
      | _, _ => None
      end
  | EvClientClosed => Some {| l with current := None; to_client := [] |}
  | EvReceive sent =>
      match to_server l with
      | Some (d :: ds) =>
          match receive_message (receiver l) (cData d) with
          | (_, rPanic) => None
          | (r, rIgnored) => Some {| l with receiver := r; to_server := Some ds |}
          | (r, rClosed _) => Some {| l with receiver := r; to_server := None |}
          | (r, rDuplicate ack) => Some {| l with receiver := r; to_server := Some ds; to_client := to_client l ++ [ack] |}
          | (r, rForward u ack) =>
              if sent
              then Some {| l with receiver := r; to_server := Some ds; to_client := to_client l ++ [ack]; forwarded := forwarded l ++ [d] |}
              else Some {| l with receiver := r; to_server := None |}
          end
      | _ => None
      end
  | EvServerClosed => Some {| l with to_server := None |}
  end.

Fixpoint link_run (l : Link) (evs : list LinkEvent) : option Link :=
  match evs with [] => Some l | ev :: evs' => l ← link_step l ev; link_run l evs' end.
