(* ===== verification/TransportInv.v ===== *)
(** * Host to host: the invariant of a link

    Positions in the list of all messages the sender has numbered: what is
    pending starts at [j], what the receiver reads next is at [p], and it has
    dealt with everything before [k]. *)
From stdpp Require Import prelude.
From S2P Require Import Prelude Errors Containers RaftTypes PeerId Msgs HostWire Transport.

(** ** Order of sequence numbers, where the code's arithmetic does not wrap *)
Definition stale (s r : sequenceNumber) : Prop := epoch s < epoch r \/ (epoch s = epoch r /\ seq s <= seq r).
Definition small (s : sequenceNumber) : Prop := 0 <= epoch s < 2 ^ 31 /\ 0 <= seq s < 2 ^ 62.
Definition succeeds (s r : sequenceNumber) : Prop :=
  (epoch r < epoch s /\ seq s = 0) \/ (epoch s = epoch r /\ seq s = seq r + 1).

Lemma stale_refl s : stale s s.
Proof. right. lia. Qed.
Lemma stale_trans a b c : stale a b -> stale b c -> stale a c.
Proof. unfold stale. lia. Qed.
Lemma stale_antisym a b : stale a b -> stale b a -> a = b.
Proof. destruct a, b. unfold stale. simpl. intros ??. f_equal; lia. Qed.
Lemma succeeds_stale s r : 0 <= seq r -> succeeds s r -> stale r s /\ ~ stale s r.
Proof. unfold succeeds, stale. lia. Qed.

Lemma int64_signed z : - 2 ^ 63 <= z < 2 ^ 63 -> int64 (u64 z) = z.
Proof.
  intros Hz. unfold int64, u64. rewrite Zmod_mod. destruct (decide (0 <= z)).
  - rewrite Z.mod_small by lia. by rewrite (proj2 (Z.ltb_lt _ _)) by lia.
  - rewrite <- (Z.mod_unique z (2 ^ 64) (-1) (z + 2 ^ 64)) by lia. rewrite (proj2 (Z.ltb_ge _ _)) by lia. lia.
Qed.

Lemma int64_nonneg z : 0 <= z < 2 ^ 63 -> int64 z = z.
Proof. intros Hz. unfold int64. rewrite u64_small by (unfold is_u64; lia). by rewrite (proj2 (Z.ltb_lt _ _)) by lia. Qed.

Lemma cmp_small s r : small s -> small r ->
  cmp s r = if epoch s <? epoch r then 2 ^ 32 + (epoch s - epoch r)
            else if epoch r <? epoch s then epoch s - epoch r else seq s - seq r.
Proof.
  unfold small. intros Hs Hr. unfold cmp. destruct (epoch s <? epoch r) eqn:E; [|destruct (epoch r <? epoch s) eqn:E']; zbool.
  - assert (u32 (epoch s - epoch r) = 2 ^ 32 + (epoch s - epoch r)) as ->.
    { unfold u32. symmetry. apply (Z.mod_unique _ _ (-1)); lia. }
    rewrite int64_nonneg by lia. by rewrite (proj2 (Z.eqb_neq _ _)) by lia.
  - rewrite (u32_small (epoch s - epoch r)) by (unfold is_u32; lia).
    rewrite int64_nonneg by lia. by rewrite (proj2 (Z.eqb_neq _ _)) by lia.
  - replace (epoch s - epoch r) with 0 by lia. simpl. apply int64_signed. lia.
Qed.

Lemma cmp_stale s r : small s -> small r -> cmp s r <= 0 -> stale s r.
Proof. intros Hs Hr. rewrite cmp_small by done. unfold small, stale in *. repeat case_match; zbool; lia. Qed.

Lemma cmp_pos s r : small s -> small r -> 0 < cmp s r -> ~ (epoch s = epoch r /\ seq s <= seq r).
Proof. intros Hs Hr. rewrite cmp_small by done. repeat case_match; zbool; lia. Qed.

Lemma next_small n : small n -> seq n + 1 < 2 ^ 62 -> next n = {| epoch := epoch n; seq := seq n + 1 |}.
Proof. unfold small, next. intros. by rewrite u64_small by (unfold is_u64; lia). Qed.

Lemma follows_small s r : small r -> follows s r = true -> succeeds s r.
Proof.
  unfold follows, succeeds, small. intros Hr [H|H]%orb_true_iff; zbool; [lia|]. rewrite u64_small in H0 by (unfold is_u64; lia). lia.
Qed.

(** ** The receiver *)
Definition no (d : PeerConnectionData) : sequenceNumber := default sequenceNumber_zero (data_seqno d).

Lemma receive_spec r d : is_Some (data_seqno d) -> small (no d) -> small (seqno r) ->
  match receive_message r (cData d) with
  | (r', rPanic) => data_Msg d = None
  | (r', rIgnored) => False
  | (r', rClosed _) => r' = r
  | (r', rDuplicate ack) => r' = r /\ ack = seqno r /\ stale (no d) (seqno r)
  | (r', rForward u ack) => seqno r' = no d /\ ack = no d /\ succeeds (no d) (seqno r) /\
      u = {| pm_peer_id := remote r; pm_inner := pm_inner (data_msg d) |} /\ remote r' = remote r
  end.
Proof.
  unfold no. intros [n Hn]. rewrite Hn. simpl. rewrite Hn. simpl. intros Hs Hr. unfold updateSeqno.
  destruct (cmp n (seqno r) <=? 0) eqn:E; zbool; [split_and!; [done..|by apply cmp_stale]|].
  destruct (follows n (seqno r)) eqn:Ef; simpl; [|done]. unfold data_msg. destruct (data_Msg d) as [msg|]; [|done].
  split_and!; try done. by apply follows_small.
Qed.

(** ** The sender *)
Lemma drop_acked_spec ack ps ps' err : drop_acked ack ps = (ps', err) -> Forall (fun d => is_Some (data_seqno d)) ps ->
  err = None /\ exists m, (m <= length ps)%nat /\ ps' = drop m ps /\
    (forall i d, (i < m)%nat -> ps !! i = Some d -> cmp (no d) ack <= 0) /\
    (forall d, ps !! m = Some d -> 0 < cmp (no d) ack).
Proof.
  intros H Hps. revert ps' err H. induction Hps as [|d ps [n Hn] _ IH]; intros ps' err; simpl.
  { intros [= <- <-]. split; [done|]. exists 0%nat. split_and!; [done|done|lia|done]. }
  rewrite Hn. simpl. destruct (0 <? cmp n ack) eqn:E; zbool.
  - intros [= <- <-]. split; [done|]. exists 0%nat. split_and!; [lia|done|lia|]. intros d' [= <-]. unfold no. by rewrite Hn.
  - intros H. destruct (IH _ _ H) as (-> & m & Hm & -> & H1 & H2). split; [done|]. exists (S m). split_and!; [simpl; lia|done| |done].
    intros [|i] d' Hi; simpl; [intros [= <-]; unfold no; by rewrite Hn|]. intros Hl. apply (H1 i); [lia|done].
Qed.

(** An acknowledgement drops a prefix of what is pending. *)
Lemma processAck_spec s ack s' err : processAck s ack = (s', err) -> Forall (fun d => is_Some (data_seqno d)) (pending s) ->
  tx s' = tx s /\
  match err with
  | Some _ => s' = s
  | None => lastAck s' = ack /\ exists m, (m <= length (pending s))%nat /\ pending s' = drop m (pending s) /\
      (forall i d, (i < m)%nat -> pending s !! i = Some d -> cmp (no d) ack <= 0) /\
      (forall d, pending s !! m = Some d -> 0 < cmp (no d) ack)
  end.
Proof.
  unfold processAck. intros H Hp. destruct (cmp ack (lastAck s) <? 0); [by injection H as <- <-|].
  destruct (drop_acked ack (pending s)) as [ps e] eqn:E. destruct (drop_acked_spec _ _ _ _ E Hp) as (-> & m & ?).
  injection H as <- <-. split; [done|]. split; [done|]. by exists m.
Qed.

(** ** The link *)
Notation Len l := (Z.of_nat (length l)).

(** Numbers the sender gives; numbers the receiver has. *)
Definition given (N : nat) (n : sequenceNumber) : Prop := 0 <= epoch n <= Z.of_nat N /\ 0 <= seq n <= 2 * Z.of_nat N + 1.
Definition taken (N : nat) (n : sequenceNumber) : Prop := 0 <= epoch n <= Z.of_nat N /\ 0 <= seq n <= Z.of_nat N.

Definition stale_between (l : Link) (a b : nat) : Prop :=
  forall i d, (a <= i < b)%nat -> numbered l !! i = Some d -> stale (no d) (seqno (receiver l)).

Record link_inv (l : Link) (j p k : nat) : Prop := {
  li_pending : pending (sender l) = drop j (numbered l);
  li_j : (j <= length (numbered l))%nat;
  li_k : (k <= length (numbered l))%nat;
  li_forwarded : forwarded l `sublist_of` take k (numbered l);
  li_stale : stale_between l j k;
  li_server : forall ds, to_server l = Some ds -> (p <= length (numbered l))%nat /\ (p <= k \/ p <= j)%nat /\ stale_between l p k /\
    exists rest, drop p (numbered l) = ds ++ rest /\ (is_Some (current l) -> rest = []);
  li_numbers : Forall (fun d => is_Some (data_seqno d) /\ given (length (numbered l)) (no d)) (numbered l);
  li_current : forall n, current l = Some n -> given (length (numbered l)) n;
  li_acks : Forall (taken (length (numbered l))) (lastAck (sender l) :: to_client l);
  li_receiver : taken (length (numbered l)) (seqno (receiver l)) /\ seq (seqno (receiver l)) <= Z.of_nat k }.

Lemma given_small N n : Z.of_nat N < 2 ^ 30 -> given N n -> small n.
Proof. unfold given, small. lia. Qed.
Lemma taken_small N n : Z.of_nat N < 2 ^ 30 -> taken N n -> small n.
Proof. unfold taken, small. lia. Qed.
Lemma given_mono N M n : (N <= M)%nat -> given N n -> given M n.
Proof. unfold given. lia. Qed.
Lemma taken_mono N M n : (N <= M)%nat -> taken N n -> taken M n.
Proof. unfold taken. lia. Qed.

Lemma link_new_inv b from : link_inv (Link_new b from) 0 0 0.
Proof. split; simpl; try done. repeat constructor; simpl; lia. Qed.

Lemma pending_numbered l j p k : link_inv l j p k -> Forall (fun d => is_Some (data_seqno d)) (pending (sender l)).
Proof. intros H. rewrite (li_pending _ _ _ _ H). apply Forall_drop. eapply Forall_impl; [apply (li_numbers _ _ _ _ H)|]. by intros d []. Qed.

(** The number after those of pending messages. *)
Lemma next_pending (ps : list PeerConnectionData) n : 0 <= epoch n -> 0 <= seq n -> seq n + Len ps < 2 ^ 62 ->
  fold_left (fun c _ => next c) ps n = {| epoch := epoch n; seq := seq n + Len ps |}.
Proof.
  revert n. induction ps as [|d ps IH]; intros n He Hs Hl; cbn [fold_left length] in *; [destruct n; f_equal; simpl; lia|].
  rewrite IH; simpl; [|done|unfold u64; apply Z.mod_pos_bound; lia|]; rewrite u64_small by (unfold is_u64; lia); [f_equal; lia|lia].
Qed.

(** A connection is made. *)
Lemma connect_inv l written l' j p k : Len (numbered l) < 2 ^ 30 -> link_inv l j p k ->
  link_step l (EvConnect written) = Some l' -> exists j', link_inv l' j' j' k.
Proof.
  intros HN H. pose proof (pending_numbered _ _ _ _ H) as Hnum. destruct H as [Hp Hj Hk Hf Hst Hs Hn Hc Ha Hr]. simpl.
  destruct (current l) eqn:Ec; [done|]. unfold sender_connected.
  destruct (processAck (sender l) (seqno (receiver l))) as [s' err] eqn:E. destruct (processAck_spec _ _ _ _ E Hnum) as [_ Hs'].
  destruct err as [e|]; intros [= <-].
  - subst s'. exists j. split; simpl; rewrite ?Ec; try done. inversion_clear Ha. by constructor.
  - destruct Hs' as (Hla & m & Hm & Hpd & _). rewrite Hp, drop_drop in Hpd.
    exists (j + m)%nat. assert (Hst' : stale_between l (j + m) k) by (intros i d Hi; apply Hst; lia).
    rewrite Hp, length_drop in Hm. split; simpl; try done; [lia|..].
    + intros ds [= <-]. split; [lia|]. split; [lia|]. split; [exact Hst'|]. exists (drop written (pending s')). rewrite take_drop. split; [done|].
      case_bool_decide; [|by intros []]. intros _. by apply drop_ge.
    + intros n. case_bool_decide; [|done]. intros [= <-]. rewrite Hla. unfold taken, small in *.
      pose proof (f_equal length Hpd) as Hl. rewrite length_drop in Hl. rewrite next_small by (unfold small; lia).
      rewrite next_pending by (simpl; lia). unfold given. simpl. lia.
    + rewrite Hla. constructor; [apply Hr|constructor].
Qed.

(** A message is numbered. *)
Lemma numbered_inv l (s : peerSender) n n' pcd (written : bool) j p k j' :
  link_inv l j p k -> is_Some (current l) -> (j <= j' <= length (numbered l))%nat ->
  pending s = drop j' (numbered l) ++ [pcd] -> lastAck s = lastAck (sender l) ->
  data_seqno pcd = Some n -> given (S (length (numbered l))) n -> given (S (length (numbered l))) n' ->
  link_inv {| l with sender := s; current := if written then Some n' else None;
                     to_server := if written then (fun ds => ds ++ [pcd]) <$> to_server l else to_server l;
                     numbered := numbered l ++ [pcd] |} j' p k.
Proof.
  intros [Hp Hj Hk Hf Hst Hs Hn Hc Ha Hr] Hcur Hj' Hpd Hla Hnum Hg Hg'.
  assert (Hlen : length (numbered l ++ [pcd]) = S (length (numbered l))) by (rewrite length_app; simpl; lia).
  assert (Hlast : forall a b, (b <= length (numbered l))%nat -> stale_between l a b ->
    forall i d, (a <= i < b)%nat -> (numbered l ++ [pcd]) !! i = Some d -> stale (no d) (seqno (receiver l))).
  { intros a b Hb Hab i d Hi Hd. apply (Hab i d Hi). rewrite lookup_app_l in Hd by lia. done. }
  split; cbn [sender receiver current to_server to_client numbered forwarded]; rewrite ?Hlen.
  - rewrite Hpd, drop_app_le by lia. done.
  - lia.
  - lia.
  - rewrite take_app_le by lia. done.
  - refine (Hlast j' k Hk _). intros i d Hi. apply Hst. lia.
  - intros ds Hds. assert (Hds0 : exists ds0, to_server l = Some ds0 /\ (written = true -> ds = ds0 ++ [pcd]) /\ (written = false -> ds = ds0)).
    { destruct written; [|by exists ds]. destruct (to_server l) as [ds0|]; [|done]. injection Hds as <-. by exists ds0. }
    destruct Hds0 as (ds0 & E0 & Ht & Hnt). destruct (Hs _ E0) as (Hple & Hpk & Hsp & rest & Hd & Hrest). rewrite (Hrest Hcur), app_nil_r in Hd.
    split; [lia|]. split; [lia|]. split; [exact (Hlast p k Hk Hsp)|]. rewrite drop_app_le, Hd by lia.
    destruct written; [rewrite (Ht eq_refl); exists []; by rewrite app_nil_r|].
    rewrite (Hnt eq_refl). exists [pcd]. split; [done|by intros []].
  - apply Forall_app. split; [|constructor; [unfold no; rewrite Hnum; eauto|constructor]].
    eapply Forall_impl; [exact Hn|]. intros d [? ?]. split; [done|]. eapply given_mono; [|done]. lia.
  - intros m. destruct written; [|done]. by intros [= <-].
  - rewrite Hla. eapply Forall_impl; [exact Ha|]. intros m. apply taken_mono. lia.
  - split; [|lia]. eapply taken_mono; [|apply Hr]. lia.
Qed.

Lemma send_inv l written l' j p k : Len (numbered l) < 2 ^ 30 -> link_inv l j p k ->
  link_step l (EvSend written) = Some l' -> exists j', link_inv l' j' p k.
Proof.
  intros HN H. simpl. destruct (current l) as [n|] eqn:Ec; [|done]. destruct (tx (sender l)) as [|msg tx']; [done|].
  pose proof (li_current _ _ _ _ H n Ec) as Hn. pose proof (li_pending _ _ _ _ H) as Hp. pose proof (li_j _ _ _ _ H) as Hj.
  assert (Hcur : is_Some (current l)) by (rewrite Ec; eauto). unfold send_message, given in *.
  destruct (isEstablishing msg); simpl; intros [= <-].
  - exists (length (numbered l)). eapply numbered_inv; [exact H|done|lia|by rewrite drop_all|done|done|..]; unfold given; simpl.
    + rewrite u32_small by (unfold is_u32; lia). lia.
    + rewrite u32_small by (unfold is_u32; lia). rewrite u64_small by (unfold is_u64; lia). lia.
  - exists j. eapply numbered_inv; [exact H|done|lia|simpl; by rewrite Hp|done|done|..]; unfold given; simpl; [lia|].
    rewrite u64_small by (unfold is_u64; lia). lia.
Qed.

Lemma take_sublist {A} n m (l : list A) : (n <= m)%nat -> take n l `sublist_of` take m l.
Proof. intros H. rewrite <- (Nat.min_l n m H), <- take_take. apply sublist_take. Qed.

(** The receiver deals with the message at [p]. *)
Lemma dealt_inv l (r : peerReceiver) ds d rest acks fwd j p k :
  link_inv l j p k -> (p <= k \/ p <= j)%nat -> stale_between l p k ->
  drop p (numbered l) = (d :: ds) ++ rest -> (is_Some (current l) -> rest = []) ->
  taken (length (numbered l)) (seqno r) -> seq (seqno r) <= Z.of_nat (Nat.max k (S p)) ->
  stale (seqno (receiver l)) (seqno r) -> stale (no d) (seqno r) ->
  Forall (taken (length (numbered l))) acks -> fwd `sublist_of` take (Nat.max k (S p)) (numbered l) ->
  forall server, server = None \/ server = Some ds ->
  link_inv {| l with receiver := r; to_server := server; to_client := acks; forwarded := fwd |} j (S p) (Nat.max k (S p)).
Proof.
  intros [Hp Hj Hk Hf Hst Hs Hn Hc Ha Hr] Hpk Hsp Hd Hrest Ht Hq Hmono Hstale Hacks Hfwd server Hserver.
  assert (Hpd : numbered l !! p = Some d) by (rewrite <- (Nat.add_0_r p), <- lookup_drop, Hd; done).
  pose proof (lookup_lt_Some _ _ _ Hpd) as Hpn.
  assert (Hst' : forall a, (a = S p \/ a = j) -> forall i d', (a <= i < Nat.max k (S p))%nat -> numbered l !! i = Some d' -> stale (no d') (seqno r)).
  { intros a Ha' i d' Hi Hd'. destruct (decide (i = p)) as [->|]; [by rewrite Hpd in Hd'; injection Hd' as <-|].
    apply (stale_trans _ (seqno (receiver l))); [|done]. destruct Ha' as [->| ->]; [apply (Hsp i)|apply (Hst i)]; done || lia. }
  split; cbn [sender receiver current to_server to_client numbered forwarded]; try done; [lia|exact (Hst' j (or_intror eq_refl))|..].
  - intros ds' Hds'. destruct Hserver as [->| ->]; [done|]. injection Hds' as <-. split; [lia|]. split; [lia|].
    split; [exact (Hst' (S p) (or_introl eq_refl))|]. exists rest. split; [|done]. rewrite <- Nat.add_1_r, <- drop_drop, Hd. done.
  - inversion_clear Ha. by constructor.
Qed.

(** The receiver reads a message: it closes the connection, or the message is
    one it has seen, or it takes it. *)
Lemma receive_cases l sent l' j p k : Len (numbered l) < 2 ^ 30 -> link_inv l j p k -> link_step l (EvReceive sent) = Some l' ->
  (l' = {| l with to_server := None |} /\ link_inv l' j p k) \/
  (exists d ds r, numbered l !! p = Some d /\ link_inv l' j (S p) (Nat.max k (S p)) /\
    ((stale (no d) (seqno (receiver l)) /\
      l' = {| l with to_server := Some ds; to_client := to_client l ++ [seqno (receiver l)] |}) \/
     ((k <= p)%nat /\ seqno r = no d /\ succeeds (no d) (seqno (receiver l)) /\
      l' = if sent then {| l with receiver := r; to_server := Some ds; to_client := to_client l ++ [no d]; forwarded := forwarded l ++ [d] |}
           else {| l with receiver := r; to_server := None |}))).
Proof.
  intros HN H. unfold link_step. destruct (to_server l) as [[|d ds]|] eqn:Et; [done| |done].
  destruct (li_server _ _ _ _ H _ Et) as (Hpl & Hpk & Hsp & rest & Hd & Hrest).
  assert (Hpd : numbered l !! p = Some d) by (rewrite <- (Nat.add_0_r p), <- lookup_drop, Hd; done).
  pose proof (li_numbers _ _ _ _ H) as Hn. rewrite Forall_forall in Hn.
  destruct (Hn d ltac:(by eapply list_elem_of_lookup_2)) as [Hno Hg]. destruct (li_receiver _ _ _ _ H) as [Hr1 Hr2].
  pose proof (receive_spec (receiver l) d Hno (given_small _ _ HN Hg) (taken_small _ _ HN Hr1)) as Hrec.
  pose proof (li_forwarded _ _ _ _ H) as Hf. pose proof (li_acks _ _ _ _ H) as Ha. apply Forall_cons in Ha as [_ Ha].
  destruct (receive_message (receiver l) (cData d)) as [r' [| |e|ack|u ack]]; [done|done|..].
  - subst r'. intros [= <-]. left. split; [done|]. destruct H. by split.
  - destruct Hrec as (-> & -> & Hstale). intros [= <-]. right. exists d, ds, (receiver l). split; [done|]. split; [|by left].
    apply (dealt_inv l (receiver l) ds d rest); try done; [lia|apply stale_refl|by apply Forall_app; auto| |by right].
    rewrite Hf. apply take_sublist. lia.
  - destruct Hrec as (Hsr & -> & Hsucc & -> & _). assert (Hr0 : 0 <= seq (seqno (receiver l))) by (unfold taken in Hr1; lia).
    destruct (succeeds_stale _ _ Hr0 Hsucc) as [Hs1 Hs2].
    assert (Hkp : (k <= p)%nat).
    { destruct (decide (k <= p)%nat) as [|Hlt]; [done|]. destruct Hs2. apply (Hsp p); [lia|done]. }
    assert (Ht : taken (length (numbered l)) (seqno r')).
    { rewrite Hsr. pose proof (lookup_lt_Some _ _ _ Hpd). pose proof (li_k _ _ _ _ H). unfold taken, given, succeeds in *. lia. }
    assert (Hq : seq (seqno r') <= Z.of_nat (Nat.max k (S p))) by (rewrite Hsr; unfold succeeds in Hsucc; lia).
    intros Hl'. right. exists d, ds, r'. split; [done|]. split; [|right; by destruct sent; injection Hl' as <-].
    rewrite <- Hsr in Hs1. destruct sent; injection Hl' as <-; eapply (dealt_inv l r' ds d rest);
      try done; rewrite ?Hsr; try apply stale_refl; auto.
    + apply Forall_app. split; [done|]. constructor; [by rewrite <- Hsr|constructor].
    + rewrite Nat.max_r, (take_S_r _ _ _ Hpd) by lia. apply sublist_app; [|done]. rewrite Hf. by apply take_sublist.
    + rewrite Hf. apply take_sublist. lia.
Qed.

(** The sender stops using its connection. *)
Lemma closed_inv l j p k : link_inv l j p k -> link_inv {| l with current := None; to_client := [] |} j p k.
Proof.
  intros [? ? ? ? ? Hs ? ? Ha ?]. split; simpl; try done.
  - intros ds Hds. destruct (Hs ds Hds) as (? & ? & ? & rest & ? & _). split_and!; try done. exists rest. split; [done|]. by intros [].
  - inversion_clear Ha. by constructor.
Qed.

(** The sender reads an acknowledgement. *)
Lemma ack_inv l l' j p k : link_inv l j p k -> link_step l EvAck = Some l' -> exists j', link_inv l' j' p k.
Proof.
  intros H. pose proof (pending_numbered _ _ _ _ H) as Hnum. unfold link_step. destruct (current l) eqn:Ec; [|done].
  destruct (to_client l) as [|ack acks] eqn:Et; [done|].
  destruct (processAck (sender l) ack) as [s' err] eqn:E. destruct (processAck_spec _ _ _ _ E Hnum) as [_ Hs'].
  destruct err as [e|]; intros [= <-].
  - subst s'. exists j. by apply closed_inv.
  - destruct Hs' as (Hla & m & Hm & Hpd & _). destruct H as [Hp Hj Hk Hf Hst Hs Hn Hc Ha Hr].
    rewrite Hp, drop_drop in Hpd. rewrite Hp, length_drop in Hm. rewrite Et in Ha. rewrite Ec in Hs, Hc. exists (j + m)%nat.
    split; simpl; try done; [lia|..].
    + intros i d Hi Hd. apply (Hst i); [lia|done].
    + intros ds Hds. destruct (Hs ds Hds) as (? & ? & ? & ?). split; [done|]. split; [lia|done].
    + rewrite Hla. by apply Forall_cons in Ha as [_ ?].
Qed.

Lemma link_step_queue l msg l' : link_step l (EvQueue msg) = Some l' ->
  exists tx', l' = {| l with sender := {| pending := pending (sender l); lastAck := lastAck (sender l); tx := tx'; BufferSize := BufferSize (sender l) |} |}.
Proof. intros [= <-]. unfold queueMessage. case_match; eexists; done. Qed.

Lemma link_step_inv l ev l' j p k : Len (numbered l) < 2 ^ 30 -> link_inv l j p k -> link_step l ev = Some l' ->
  exists j' p' k', link_inv l' j' p' k'.
Proof.
  intros HN H Hstep. destruct ev as [msg|written|written| | |sent|].
  - destruct (link_step_queue l msg l' Hstep) as (tx' & ->). exists j, p, k. destruct H. by split.
  - destruct (connect_inv _ _ _ _ _ _ HN H Hstep) as (j' & ?). eauto.
  - destruct (send_inv _ _ _ _ _ _ HN H Hstep) as (j' & ?). eauto.
  - destruct (ack_inv _ _ _ _ _ H Hstep) as (j' & ?). eauto.
  - injection Hstep as <-. eauto using closed_inv.
  - destruct (receive_cases _ _ _ _ _ _ HN H Hstep) as [[_ ?]|(d & ds & r & _ & ? & _)]; eauto.
  - injection Hstep as <-. exists j, p, k. destruct H. by split.
Qed.

Lemma link_step_numbered l ev l' : link_step l ev = Some l' -> (length (numbered l) <= length (numbered l'))%nat.
Proof.
  destruct ev; unfold link_step; intros H; repeat (case_match; try done); injection H as <-; simpl; rewrite ?length_app; lia.
Qed.

Lemma link_run_numbered evs l l' : link_run l evs = Some l' -> (length (numbered l) <= length (numbered l'))%nat.
Proof.
  revert l. induction evs as [|ev evs IH]; intros l; simpl; [by intros [= <-]|].
  destruct (link_step l ev) as [l1|] eqn:E; [|done]. simpl. intros H. etrans; [by eapply link_step_numbered|by apply IH].
Qed.

Lemma link_run_inv evs l l' j p k : link_inv l j p k -> link_run l evs = Some l' -> Len (numbered l') < 2 ^ 30 ->
  exists j' p' k', link_inv l' j' p' k'.
Proof.
  revert l j p k. induction evs as [|ev evs IH]; intros l j p k H Hrun HN; simpl in Hrun; [injection Hrun as <-; eauto|].
  destruct (link_step l ev) as [l1|] eqn:E; [|done]. simpl in Hrun. pose proof (link_run_numbered _ _ _ Hrun).
  pose proof (link_step_numbered _ _ _ E). destruct (link_step_inv l ev l1 j p k) as (j' & p' & k' & ?); [lia|done|done|]. eauto.
Qed.

(** ** Consecutive numbers

    What the comments of the code describe: each message has the number after
    that of the one before it, or starts an epoch. *)
Definition after (n m : sequenceNumber) (msg : PeerMessage) : Prop :=
  if isEstablishing msg then epoch m = epoch n + 1 /\ seq m = 0 else epoch m = epoch n /\ seq m = seq n + 1.

(** The number of the message before position [i]. *)
Definition no_before (ds : list PeerConnectionData) (i : nat) : sequenceNumber :=
  match i with O => sequenceNumber_zero | S i => default sequenceNumber_zero (no <$> ds !! i) end.

Definition consecutive (ds : list PeerConnectionData) : Prop :=
  forall i d, ds !! i = Some d -> after (no_before ds i) (no d) (data_msg d).

Lemma no_before_S ds i d : ds !! i = Some d -> no_before ds (S i) = no d.
Proof. intros H. simpl. by rewrite H. Qed.

Lemma consecutive_increasing ds i i' : consecutive ds -> Forall (fun d => 0 <= seq (no d)) ds -> (i < i' <= length ds)%nat ->
  ~ stale (no_before ds i') (no_before ds i).
Proof.
  intros Hc Hpos. assert (H0 : forall i, 0 <= seq (no_before ds i)).
  { intros [|n]; simpl; [done|]. destruct (ds !! n) as [d|] eqn:E; simpl; [|done]. rewrite Forall_forall in Hpos. by eapply Hpos, list_elem_of_lookup_2. }
  assert (Hstep : forall i, (i < length ds)%nat -> stale (no_before ds i) (no_before ds (S i)) /\ ~ stale (no_before ds (S i)) (no_before ds i)).
  { intros n Hn. destruct (lookup_lt_is_Some_2 _ _ Hn) as [d Hd]. rewrite (no_before_S _ _ _ Hd).
    pose proof (Hc _ _ Hd) as Ha. pose proof (H0 n). unfold after, stale in *. destruct (isEstablishing _); lia. }
  intros Hi. assert (Hs : stale (no_before ds (S i)) (no_before ds i')).
  { destruct Hi as [Hlt Hle]. revert Hle. induction Hlt as [|m Hlt IH]; intros Hle; [apply stale_refl|].
    eapply stale_trans; [apply IH; lia|]. apply Hstep. lia. }
  intros Hst. destruct (Hstep i ltac:(lia)) as [_ Hn]. apply Hn. by eapply stale_trans.
Qed.

Lemma consecutive_monotone ds i i' : consecutive ds -> Forall (fun d => 0 <= seq (no d)) ds -> (i <= i' <= length ds)%nat ->
  stale (no_before ds i) (no_before ds i').
Proof.
  intros Hc Hp Hi. destruct (decide (i = i')) as [->|Hne]; [apply stale_refl|].
  pose proof (consecutive_increasing ds i i' Hc Hp ltac:(lia)) as H. unfold stale in *. lia.
Qed.

(** *** What is forwarded of what is numbered: all of it, except for what is
    replaced when a message that establishes a session follows. *)
Inductive delivers : list PeerConnectionData -> list PeerConnectionData -> Prop :=
  | del_nil : delivers [] []
  | del_next ds fs d : delivers ds fs -> delivers (ds ++ [d]) (fs ++ [d])
  | del_replaced ds fs old d : delivers ds fs -> isEstablishing (data_msg d) = true -> delivers (ds ++ old ++ [d]) (fs ++ [d]).

