(* ===== verification/TransportProps.v ===== *)
(** * Host to host: links that lose nothing, and the properties of links

    As long as no message that establishes a session is pending when a
    connection is made, numbers are consecutive, and the receiver forwards
    everything that is not replaced by a new session. *)
From stdpp Require Import prelude sorting.
From S2P Require Import Prelude Errors Containers RaftTypes PeerId Msgs HostWire Transport TransportInv.

Definition succ (n : sequenceNumber) : sequenceNumber := {| epoch := epoch n; seq := seq n + 1 |}.

Notation last_no l := (no_before (numbered l) (length (numbered l))).

Record link_tight (l : Link) (p k : nat) : Prop := {
  lt_consecutive : consecutive (numbered l);
  lt_current : forall n, current l = Some n -> n = succ (last_no l);
  lt_receiver : seqno (receiver l) = no_before (numbered l) k;
  lt_sorted : StronglySorted stale (lastAck (sender l) :: to_client l);
  lt_acks : Forall (fun a => stale a (seqno (receiver l))) (lastAck (sender l) :: to_client l);
  lt_tail : forall i d, pending (sender l) !! S i = Some d -> isEstablishing (data_msg d) = false;
  lt_empty : pending (sender l) = [] -> stale (last_no l) (lastAck (sender l));
  lt_server : is_Some (to_server l) -> (p <= k)%nat \/ exists d, numbered l !! p = Some d /\ isEstablishing (data_msg d) = true;
  lt_delivers : delivers (take k (numbered l)) (forwarded l) }.

Lemma link_new_tight b from : link_tight (Link_new b from) 0 0.
Proof.
  split; simpl; try done.
  - repeat constructor.
  - constructor; [apply stale_refl|constructor].
  - intros _. apply stale_refl.
  - constructor.
Qed.

Lemma numbers_nonneg l j p k : link_inv l j p k -> Forall (fun d => 0 <= seq (no d)) (numbered l).
Proof. intros H. eapply Forall_impl; [apply (li_numbers _ _ _ _ H)|]. intros d [_ Hg]. unfold given in Hg. lia. Qed.

(** *** Acknowledgements *)
Lemma last_is_pending l j p k d : link_inv l j p k -> pending (sender l) !! (length (pending (sender l)) - 1)%nat = Some d -> last_no l = no d.
Proof.
  intros H Hd. pose proof (lookup_lt_Some _ _ _ Hd) as Hlt. rewrite (li_pending _ _ _ _ H), lookup_drop, length_drop in Hd.
  rewrite (li_pending _ _ _ _ H), length_drop in Hlt. pose proof (li_j _ _ _ _ H).
  replace (length (numbered l)) with (S (j + (length (numbered l) - j - 1))) by lia. by apply no_before_S.
Qed.

(** If nothing is pending after an acknowledgement, it is for the last number. *)
Lemma acked_all l j p k s ack : Len (numbered l) < 2 ^ 30 -> link_inv l j p k -> link_tight l p k ->
  taken (length (numbered l)) ack -> stale (lastAck (sender l)) ack ->
  processAck (sender l) ack = (s, None) -> pending s = [] -> stale (last_no l) ack.
Proof.
  intros HN H T Hack Hmono Hp Hnil. destruct (processAck_spec _ _ _ _ Hp (pending_numbered _ _ _ _ H)) as (_ & _ & m & Hm & Hpd & Hdrop & _).
  destruct (decide (pending (sender l) = [])) as [Hnone|Hsome]; [by eapply stale_trans; [apply (lt_empty _ _ _ T)|]|].
  rewrite Hnil in Hpd. apply (f_equal length) in Hpd. rewrite length_drop in Hpd. simpl in Hpd.
  destruct (lookup_lt_is_Some_2 (pending (sender l)) (length (pending (sender l)) - 1)) as [d Hd].
  { destruct (pending (sender l)); [done|simpl; lia]. }
  rewrite (last_is_pending _ _ _ _ _ H Hd). pose proof (lookup_lt_Some _ _ _ Hd).
  apply cmp_stale; [|by eapply taken_small|apply (Hdrop (length (pending (sender l)) - 1)%nat); [lia|done]].
  pose proof (li_numbers _ _ _ _ H) as Hn. rewrite Forall_forall in Hn. rewrite (li_pending _ _ _ _ H), lookup_drop in Hd.
  eapply given_small; [exact HN|]. by apply Hn, (list_elem_of_lookup_2 _ _ _ Hd).
Qed.

(** *** Steps *)
Lemma closed_tight l p k : link_tight l p k -> link_tight {| l with current := None; to_client := [] |} p k.
Proof.
  intros [? ? ? Hso Ha ? ? ? ?]. apply Forall_cons in Ha as [Ha _].
  split; simpl; try done; [constructor; constructor|constructor; [done|constructor]].
Qed.

Lemma ack_tight l l' j p k : Len (numbered l) < 2 ^ 30 -> link_inv l j p k -> link_tight l p k ->
  link_step l EvAck = Some l' -> link_tight l' p k.
Proof.
  intros HN H T. unfold link_step. destruct (current l) eqn:Ec; [|done]. destruct (to_client l) as [|ack acks] eqn:Et; [done|].
  destruct (processAck (sender l) ack) as [s' err] eqn:E. pose proof (processAck_spec _ _ _ _ E (pending_numbered _ _ _ _ H)) as [_ Hs'].
  destruct err as [e|]; intros [= <-]; [subst s'; by apply closed_tight|].
  assert (Hempty : pending s' = [] -> stale (last_no l) ack).
  { pose proof (li_acks _ _ _ _ H) as Ha. pose proof (lt_sorted _ _ _ T) as Hso. rewrite Et in Ha, Hso.
    apply Forall_cons in Ha as [_ [Ha _]%Forall_cons]. inversion_clear Hso as [|? ? _ Hso']. apply Forall_cons in Hso' as [Hso' _].
    by apply (acked_all l j p k s'). }
  destruct Hs' as (Hla & m & _ & Hpd & _). destruct T as [H1 H2 H3 Hso Ha Ht He Hsv Hdl]. rewrite Et in Hso, Ha. rewrite Ec in H2.
  inversion_clear Hso as [|? ? Hso' _]. apply Forall_cons in Ha as [_ Ha].
  split; simpl; rewrite ?Hla; try done. intros i d. rewrite Hpd, lookup_drop, Nat.add_succ_r. apply Ht.
Qed.

(** A message is numbered. *)
Lemma no_before_app ds d i : (i <= length ds)%nat -> no_before (ds ++ [d]) i = no_before ds i.
Proof. intros Hi. destruct i as [|i]; simpl; [done|]. by rewrite lookup_app_l by lia. Qed.

Lemma consecutive_snoc ds d : consecutive ds -> after (no_before ds (length ds)) (no d) (data_msg d) -> consecutive (ds ++ [d]).
Proof.
  intros Hc Ha i d' Hi. pose proof (lookup_lt_Some _ _ _ Hi) as Hlt. rewrite length_app in Hlt. simpl in Hlt.
  rewrite no_before_app by lia. destruct (decide (i = length ds)) as [->|].
  - rewrite lookup_app_r, Nat.sub_diag in Hi by lia. by injection Hi as <-.
  - rewrite lookup_app_l in Hi by lia. by apply Hc.
Qed.

Lemma numbered_tight l (s : peerSender) n pcd (written : bool) j p k :
  link_inv l j p k -> link_tight l p k -> data_seqno pcd = Some n -> after (last_no l) n (data_msg pcd) ->
  lastAck s = lastAck (sender l) -> pending s <> [] -> (forall i d, pending s !! S i = Some d -> isEstablishing (data_msg d) = false) ->
  link_tight {| l with sender := s; current := if written then Some (succ n) else None;
                     to_server := if written then (fun ds => ds ++ [pcd]) <$> to_server l else to_server l;
                     numbered := numbered l ++ [pcd] |} p k.
Proof.
  intros H [H1 H2 H3 Hso Ha Ht He Hsv Hdl] Hn Haf Hla Hne Htl. assert (Hno : no pcd = n) by (unfold no; by rewrite Hn).
  assert (Hlast : no_before (numbered l ++ [pcd]) (length (numbered l ++ [pcd])) = n).
  { rewrite length_app, Nat.add_1_r, (no_before_S _ _ pcd); [done|]. by rewrite lookup_app_r, Nat.sub_diag by lia. }
  pose proof (li_k _ _ _ _ H) as Hk.
  split; cbn [sender receiver current to_server to_client numbered forwarded]; rewrite ?Hla, ?Hlast; try done.
  - apply consecutive_snoc; [done|]. by rewrite Hno.
  - intros m. destruct written; [|done]. by intros [= <-].
  - by rewrite no_before_app.
  - intros Hsome. destruct Hsv as [Hle|(d & Hd & He')]; [destruct written, (to_server l); naive_solver|by left|].
    right. exists d. split; [|done]. by apply lookup_app_l_Some.
  - by rewrite take_app_le.
Qed.

Lemma send_tight l written l' j p k : Len (numbered l) < 2 ^ 30 -> link_inv l j p k -> link_tight l p k ->
  link_step l (EvSend written) = Some l' -> link_tight l' p k.
Proof.
  intros HN H T. unfold link_step. destruct (current l) as [n|] eqn:Ec; [|done]. destruct (tx (sender l)) as [|msg tx']; [done|].
  pose proof (li_current _ _ _ _ H n Ec) as Hn. pose proof (lt_current _ _ _ T n Ec) as ->. pose proof (lt_tail _ _ _ T) as Ht.
  unfold send_message, given in *. simpl in Hn. destruct (isEstablishing msg) eqn:Em; simpl; intros [= <-].
  - assert (Hne : nextEpoch (succ (last_no l)) = {| epoch := epoch (last_no l) + 1; seq := 0 |}).
    { unfold nextEpoch. simpl. by rewrite u32_small by (unfold is_u32; lia). }
    rewrite Hne, next_small by (unfold small; simpl; lia).
    apply (numbered_tight l _ _ _ written j); try done. unfold after, data_msg. simpl. by rewrite Em.
  - rewrite next_small by (unfold small; simpl; lia). apply (numbered_tight l _ _ _ written j); try done; simpl.
    + unfold after, data_msg. simpl. by rewrite Em.
    + by destruct (pending (sender l)).
    + intros i d Hi. destruct (decide (S i < length (pending (sender l)))%nat); [rewrite lookup_app_l in Hi by done; by eapply Ht|].
      pose proof (lookup_lt_Some _ _ _ Hi) as Hlt. rewrite length_app in Hlt. simpl in Hlt.
      rewrite lookup_app_r in Hi by lia. by destruct (S i - length (pending (sender l)))%nat eqn:E; [injection Hi as <-|lia].
Qed.

(** The receiver reads a message, and its enclave takes it. *)
Lemma sorted_snoc l a : StronglySorted stale l -> Forall (fun x => stale x a) l -> StronglySorted stale (l ++ [a]).
Proof.
  intros Hs Hf. rewrite StronglySorted_app. split_and!; [|done|repeat constructor].
  intros x y Hx ->%list_elem_of_singleton. rewrite Forall_forall in Hf. auto.
Qed.

Lemma receive_tight l l' j p k : Len (numbered l) < 2 ^ 30 -> link_inv l j p k -> link_tight l p k ->
  link_step l (EvReceive true) = Some l' -> exists p' k', link_inv l' j p' k' /\ link_tight l' p' k'.
Proof.
  intros HN H T Hstep. pose proof (numbers_nonneg _ _ _ _ H) as Hpos. pose proof (li_k _ _ _ _ H) as Hk.
  assert (Hopen : is_Some (to_server l)) by (unfold link_step in Hstep; destruct (to_server l); [eauto|done]).
  destruct (receive_cases _ _ _ _ _ _ HN H Hstep) as [[-> H']|(d & ds & r & Hpd & H' & Hcase)].
  { exists p, k. split; [done|]. destruct T. split; simpl; done || by intros []. }
  pose proof (lookup_lt_Some _ _ _ Hpd) as Hpn. destruct T as [H1 H2 H3 Hso Ha Ht He Hsv Hdl].
  exists (S p), (Nat.max k (S p)). split; [exact H'|]. destruct Hcase as [(Hst & ->)|(Hkp & Hr & Hsucc & ->)].
  - assert (Hpk : (S p <= k)%nat).
    { destruct (decide (S p <= k)%nat); [done|]. exfalso. apply (consecutive_increasing _ k (S p) H1 Hpos); [lia|].
      by rewrite (no_before_S _ _ _ Hpd), <- H3. }
    rewrite Nat.max_l by lia. split; cbn [sender receiver current to_server to_client numbered forwarded]; try done; [| |by left].
    + rewrite app_comm_cons. by apply sorted_snoc.
    + rewrite app_comm_cons. apply Forall_app. split; [done|]. constructor; [apply stale_refl|constructor].
  - assert (Hmono : Forall (fun a => stale a (no d)) (lastAck (sender l) :: to_client l)).
    { eapply Forall_impl; [exact Ha|]. intros a Hsa. eapply stale_trans; [exact Hsa|]. apply succeeds_stale; [|done].
      destruct (li_receiver _ _ _ _ H) as [Hr1 _]. unfold taken in Hr1. lia. }
    rewrite Nat.max_r by lia. split; cbn [sender receiver current to_server to_client numbered forwarded]; rewrite ?Hr; try done.
    + by rewrite (no_before_S _ _ _ Hpd).
    + rewrite app_comm_cons. by apply sorted_snoc.
    + rewrite app_comm_cons. apply Forall_app. split; [done|]. constructor; [apply stale_refl|constructor].
    + by left.
    + rewrite (take_S_r _ _ _ Hpd). destruct (decide (p = k)) as [->|Hne]; [by constructor|].
      destruct (Hsv Hopen) as [|(d' & Hd' & He')]; [lia|]. rewrite Hpd in Hd'. injection Hd' as <-.
      rewrite <- (take_drop k (take p (numbered l))), take_take, Nat.min_l, <- app_assoc by lia. by constructor.
Qed.

(** *** Connections

    What the comment on [lastAck] says of the sender: the number after it is
    the first one pending.  It is what the resending on a new connection
    relies on. *)
Definition resumes (l : Link) : bool :=
  match pending (processAck (sender l) (seqno (receiver l))).1 with
  | [] => true
  | d :: _ => bool_decide (data_seqno d = Some (next (seqno (receiver l))))
  end.

(** Pending messages from position [k] on have the numbers that follow. *)
Lemma pending_numbers ds k n : consecutive ds -> no_before ds k = n -> (k < length ds)%nat ->
  (forall d, ds !! k = Some d -> no d = succ n) ->
  (forall i d, ds !! S (k + i) = Some d -> isEstablishing (data_msg d) = false) ->
  forall i, (k + i <= length ds)%nat -> no_before ds (k + i) = {| epoch := epoch n; seq := seq n + Z.of_nat i |}.
Proof.
  intros Hc Hk Hlt Hfirst Htail. induction i as [|i IH]; intros Hi.
  { rewrite Nat.add_0_r, Hk. destruct n; simpl; f_equal; lia. }
  destruct (lookup_lt_is_Some_2 ds (k + i)) as [d Hd]; [lia|]. rewrite Nat.add_succ_r, (no_before_S _ _ _ Hd).
  destruct i as [|i].
  - rewrite Nat.add_0_r in Hd. by rewrite (Hfirst _ Hd).
  - pose proof (Hc _ _ Hd) as Ha. rewrite IH in Ha by lia. unfold after in Ha. rewrite Nat.add_succ_r in Hd. rewrite (Htail _ _ Hd) in Ha.
    destruct (no d); simpl in *. destruct Ha as [-> ->]. f_equal. lia.
Qed.

(** The first pending message is the one the receiver expects. *)
Lemma first_pending ds k j d : consecutive ds -> Forall (fun d => 0 <= seq (no d)) ds -> (k <= length ds)%nat ->
  ds !! j = Some d -> no d = succ (no_before ds k) -> j = k.
Proof.
  intros Hc Hpos Hk Hj Hd. pose proof (lookup_lt_Some _ _ _ Hj) as Hlt. rewrite <- (no_before_S _ _ _ Hj) in Hd.
  destruct (lt_eq_lt_dec j k) as [[Hl|]|Hl]; [|done|].
  - exfalso. pose proof (consecutive_monotone ds (S j) k Hc Hpos ltac:(lia)) as Hs. rewrite Hd in Hs. unfold stale, succ in Hs. simpl in Hs. lia.
  - exfalso. destruct (lookup_lt_is_Some_2 ds k) as [d' Hd']; [lia|].
    pose proof (consecutive_increasing ds (S k) (S j) Hc Hpos ltac:(lia)) as Hs. rewrite Hd, (no_before_S _ _ _ Hd') in Hs.
    pose proof (Hc _ _ Hd') as Ha. rewrite Forall_forall in Hpos. pose proof (Hpos d' ltac:(by eapply list_elem_of_lookup_2)).
    unfold after, stale, succ in *. simpl in *. destruct (isEstablishing _); lia.
Qed.

Lemma resume_numbers ds k j : consecutive ds -> Forall (fun d => 0 <= seq (no d)) ds -> (k <= length ds)%nat -> (j <= length ds)%nat ->
  Len ds < 2 ^ 30 -> taken (length ds) (no_before ds k) ->
  (forall i d, drop j ds !! S i = Some d -> isEstablishing (data_msg d) = false) ->
  match drop j ds with
  | [] => stale (no_before ds (length ds)) (no_before ds k)
  | d :: _ => data_seqno d = Some (next (no_before ds k))
  end ->
  j = k /\ fold_left (fun c _ => next c) (drop j ds) (next (no_before ds k)) = succ (no_before ds (length ds)).
Proof.
  intros Hc Hpos Hk Hj HN Ht Htl Hfirst. unfold taken in Ht. rewrite next_small in * by (unfold small; lia).
  rewrite next_pending by (simpl; rewrite ?length_drop; lia). cbn [epoch seq]. rewrite length_drop.
  destruct (drop j ds) as [|d ps] eqn:Ed.
  - apply (f_equal length) in Ed. rewrite length_drop in Ed. simpl in Ed.
    assert (k = length ds) as ->.
    { destruct (decide (k = length ds)); [done|]. by destruct (consecutive_increasing ds k (length ds) Hc Hpos ltac:(lia)). }
    replace (length ds - j)%nat with 0%nat by lia. split; [lia|]. unfold succ. f_equal. lia.
  - assert (Hd : ds !! j = Some d) by (rewrite <- (Nat.add_0_r j), <- lookup_drop, Ed; done).
    assert (Hno : no d = succ (no_before ds k)) by (unfold no; by rewrite Hfirst).
    pose proof (lookup_lt_Some _ _ _ Hd) as Hlt. pose proof (first_pending ds k j d Hc Hpos Hk Hd Hno) as ->. split; [done|].
    rewrite <- (Nat.sub_add k (length ds)) at 2 by lia. rewrite Nat.add_comm.
    rewrite (pending_numbers ds k (no_before ds k)); [unfold succ; f_equal; simpl; lia|done|done|done| | |lia].
    + intros d' Hd'. rewrite Hd in Hd'. by injection Hd' as <-.
    + intros i d' Hd'. apply (Htl i). by rewrite <- Ed, lookup_drop, Nat.add_succ_r.
Qed.

Lemma failed_tight l p k p' : link_tight l p k -> link_tight {| l with to_server := None |} p' k.
Proof. intros []. split; simpl; done. Qed.

Lemma connect_tight l written l' j p k : Len (numbered l) < 2 ^ 30 -> link_inv l j p k -> link_tight l p k ->
  resumes l = true -> link_step l (EvConnect written) = Some l' -> exists j', link_inv l' j' j' k /\ link_tight l' j' k.
Proof.
  intros HN H T Hg Hstep. destruct (connect_inv _ _ _ _ _ _ HN H Hstep) as (j' & H'). exists j'. split; [done|].
  pose proof (numbers_nonneg _ _ _ _ H) as Hpos. pose proof (li_k _ _ _ _ H) as Hk. revert Hstep. unfold link_step, resumes in *.
  destruct (current l) eqn:Ec; [done|]. unfold sender_connected.
  destruct (li_receiver _ _ _ _ H) as [Hr1 _].
  destruct (processAck (sender l) (seqno (receiver l))) as [s' err] eqn:E. simpl in Hg.
  destruct (processAck_spec _ _ _ _ E (pending_numbered _ _ _ _ H)) as [_ Hs'].
  assert (Hempty : err = None -> pending s' = [] -> stale (last_no l) (seqno (receiver l))).
  { intros ->. apply (acked_all l j p k s'); try done. pose proof (lt_acks _ _ _ T) as Ha. by apply Forall_cons in Ha as [? _]. }
  destruct err as [e|]; intros [= <-]; [|destruct T as [H1 H2 H3 Hso Ha Ht He Hsv Hdl]].
  { subst s'. by apply (failed_tight l p k j'), closed_tight in T. }
  destruct Hs' as (Hla & m & Hm & Hpd & _). pose proof (li_pending _ _ _ _ H') as Hpd'. pose proof (li_j _ _ _ _ H') as Hj'.
  cbn [sender numbered] in Hpd', Hj'.
  assert (Htl : forall i d, pending s' !! S i = Some d -> isEstablishing (data_msg d) = false).
  { intros i d. rewrite Hpd, lookup_drop, Nat.add_succ_r. apply Ht. }
  assert (Hresume : j' = k /\ forall n, n = fold_left (fun c _ => next c) (pending s') (next (lastAck s')) -> n = succ (last_no l)).
  { destruct (resume_numbers (numbered l) k j') as [-> Hfold]; try done; rewrite <- ?H3, <- ?Hpd'; try done.
    - destruct (pending s'); [by apply Hempty|]. by apply bool_decide_eq_true in Hg.
    - split; [done|]. intros n ->. by rewrite Hla, Hpd', H3. }
  destruct Hresume as [-> Hcur].
  split; cbn [sender receiver current to_server to_client numbered forwarded]; rewrite ?Hla; try done.
  - intros n. case_bool_decide; [|done]. intros [= <-]. by apply Hcur; rewrite Hla.
  - constructor; constructor.
  - constructor; [apply stale_refl|constructor].
  - by apply Hempty.
  - by left.
Qed.

(** ** Runs *)
Definition event_ok (l : Link) (ev : LinkEvent) : bool :=
  match ev with EvConnect _ => resumes l | EvReceive sent => sent | _ => true end.

(** Every connection resumes, and the enclave takes what is forwarded. *)
Fixpoint run_ok (l : Link) (evs : list LinkEvent) : bool :=
  match evs with
  | [] => true
  | ev :: evs' => event_ok l ev && match link_step l ev with Some l => run_ok l evs' | None => true end
  end.

Lemma link_step_tight l ev l' j p k : Len (numbered l) < 2 ^ 30 -> link_inv l j p k -> link_tight l p k ->
  event_ok l ev = true -> link_step l ev = Some l' -> exists j' p' k', link_inv l' j' p' k' /\ link_tight l' p' k'.
Proof.
  intros HN H T He Hstep. destruct ev as [msg|written|written| | |sent|]; simpl in He.
  - destruct (link_step_queue l msg l' Hstep) as (tx' & ->). exists j, p, k. split; [destruct H; by split|destruct T; by split].
  - destruct (connect_tight _ _ _ _ _ _ HN H T He Hstep) as (j' & ?). eauto.
  - destruct (send_inv _ _ _ _ _ _ HN H Hstep) as (j' & ?). exists j', p, k. split; [done|]. by eapply send_tight.
  - destruct (ack_inv _ _ _ _ _ H Hstep) as (j' & ?). exists j', p, k. split; [done|]. by eapply ack_tight.
  - injection Hstep as <-. exists j, p, k. split; [by apply closed_inv|by apply closed_tight].
  - subst sent. destruct (receive_tight _ _ _ _ _ HN H T Hstep) as (p' & k' & ?). eauto.
  - injection Hstep as <-. exists j, p, k. split; [destruct H; by split|by eapply failed_tight].
Qed.

Lemma link_run_tight evs l l' j p k : link_inv l j p k -> link_tight l p k -> run_ok l evs = true ->
  link_run l evs = Some l' -> Len (numbered l') < 2 ^ 30 -> exists j' p' k', link_inv l' j' p' k' /\ link_tight l' p' k'.
Proof.
  revert l j p k. induction evs as [|ev evs IH]; intros l j p k H T Hok Hrun HN; simpl in *; [injection Hrun as <-; eauto|].
  apply andb_true_iff in Hok as [He Hok]. destruct (link_step l ev) as [l1|] eqn:E; [|done]. simpl in Hrun.
  pose proof (link_run_numbered _ _ _ Hrun). pose proof (link_step_numbered _ _ _ E).
  destruct (link_step_tight l ev l1 j p k) as (j' & p' & k' & ? & ?); [lia|done..|]. eauto.
Qed.

(** ** The sender's data have messages: the receiver never panics on them *)
Definition with_msg (d : PeerConnectionData) : Prop := is_Some (data_Msg d).
Definition link_msgs (l : Link) : Prop :=
  Forall with_msg (pending (sender l)) /\ forall ds, to_server l = Some ds -> Forall with_msg ds.

Lemma drop_acked_msgs ack ps : Forall with_msg ps -> Forall with_msg (drop_acked ack ps).1.
Proof.
  induction 1 as [|d ps Hd Hps IH]; simpl; [constructor|]. destruct (makeSeqno _); [|by constructor].
  destruct (0 <? _); [by constructor|done].
Qed.

Lemma processAck_msgs s ack : Forall with_msg (pending s) -> Forall with_msg (pending (processAck s ack).1).
Proof.
  intros Hs. unfold processAck. destruct (_ <? 0); [done|]. pose proof (drop_acked_msgs ack (pending s) Hs) as Hd.
  destruct (drop_acked ack (pending s)) as [ps [e|]]; done.
Qed.

Lemma link_step_msgs l ev l' : link_msgs l -> link_step l ev = Some l' -> link_msgs l'.
Proof.
  intros [H1 H2] Hs. unfold link_msgs in *. destruct ev as [msg|written|written| | |sent|]; cbn -[receive_message] in Hs.
  - injection Hs as <-. simpl. unfold queueMessage. by destruct (_ <? _).
  - destruct (current l); [done|]. unfold sender_connected in Hs. pose proof (processAck_msgs (sender l) (seqno (receiver l)) H1) as Hp.
    destruct (processAck _ _) as [s1 [e|]]; injection Hs as <-; simpl in *; (split; [done|]); [done|].
    intros ds [= <-]. by apply Forall_take.
  - destruct (current l) as [n|]; [|done]. destruct (tx (sender l)) as [|msg tx']; [done|]. unfold send_message in Hs.
    assert (Hone : forall n', Forall with_msg [{| data_Msg := Some msg; data_seqno := Some n' |}]) by (intros n'; repeat constructor; by eexists).
    destruct (isEstablishing msg); simpl in Hs; injection Hs as <-; simpl; (split; [by try (apply Forall_app; split); auto|]);
      intros ds; (destruct written; [|by apply H2]); destruct (to_server l) as [ds0|]; try done; intros [= <-];
      (apply Forall_app; split; [by apply H2|auto]).
  - destruct (current l); [|done]. destruct (to_client l) as [|ack acks]; [done|]. pose proof (processAck_msgs (sender l) ack H1) as Hp.
    destruct (processAck _ _) as [s1 [e|]]; injection Hs as <-; simpl in *; by split.
  - by injection Hs as <-.
  - destruct (to_server l) as [[|d ds]|]; [done| |done]. specialize (H2 _ eq_refl). apply Forall_cons in H2 as [_ H2].
    destruct (receive_message _ _) as [r [| |e|ack|u ack]]; [done|..]; try destruct sent; injection Hs as <-; simpl; (split; [done|]); intros ds' Hds; by simplify_eq.
  - by injection Hs as <-.
Qed.

Lemma link_never_panics evs b from l d ds :
  link_run (Link_new b from) evs = Some l -> to_server l = Some (d :: ds) -> (receive_message (receiver l) (cData d)).2 <> rPanic.
Proof.
  intros Hrun Ht. assert (link_msgs l) as [_ Hl].
  { assert (link_msgs (Link_new b from)) as H0 by (split; [constructor|done]). revert Hrun H0. generalize (Link_new b from).
    induction evs as [|ev evs IH]; intros l0 Hrun H0; simpl in Hrun; [by injection Hrun as <-|].
    destruct (link_step l0 ev) as [l1|] eqn:E; [|done]. apply (IH l1 Hrun). by eapply link_step_msgs. }
  destruct (proj1 (Forall_cons _ _ _) (Hl _ Ht)) as [[msg Hm] _]. unfold receive_message. rewrite Hm.
  destruct (makeSeqno _) as [n|]; [|done]. by destruct (updateSeqno _ n) as [p [[]|]].
Qed.

(** * Properties of the host to host protocol *)

(** C29: Messages between hosts are forwarded at most once and in order.
    Whatever happens to the connections, to writes and to the enclave, the
    messages a receiver has forwarded to its enclave are, in order, among
    those its sender has numbered, each one at most once. *)
Theorem link_in_order evs b from l :
  link_run (Link_new b from) evs = Some l -> Len (numbered l) < 2 ^ 30 -> forwarded l `sublist_of` numbered l.
Proof.
  intros Hrun HN. destruct (link_run_inv _ _ _ _ _ _ (link_new_inv b from) Hrun HN) as (j & p & k & H).
  etrans; [apply (li_forwarded _ _ _ _ H)|apply sublist_take].
Qed.

(** C30: Nothing is lost within a session.  If no message that establishes a
    session is pending when a connection is made, and the enclave takes what
    it is given, then what is forwarded is all of what was numbered, up to
    what is in flight, except for messages that a later one which
    establishes a session has replaced; and once the receiver has read all
    there is on an open connection nothing is missing. *)
Theorem link_loses_nothing evs b from l :
  link_run (Link_new b from) evs = Some l -> run_ok (Link_new b from) evs = true -> Len (numbered l) < 2 ^ 30 ->
  exists ds rest, numbered l = ds ++ rest /\ delivers ds (forwarded l) /\
    (is_Some (current l) -> to_server l = Some [] -> rest = []).
Proof.
  intros Hrun Hok HN.
  destruct (link_run_tight _ _ _ _ _ _ (link_new_inv b from) (link_new_tight b from) Hok Hrun HN) as (j & p & k & H & T).
  exists (take k (numbered l)), (drop k (numbered l)). rewrite take_drop. split; [done|]. split; [apply (lt_delivers _ _ _ T)|].
  intros Hc Ht. destruct (li_server _ _ _ _ H _ Ht) as (_ & _ & _ & rest & Hd & Hrest). rewrite (Hrest Hc) in Hd.
  apply (f_equal length) in Hd. rewrite length_drop in Hd. simpl in Hd. apply drop_ge.
  destruct (lt_server _ _ _ T) as [Hle|(d & Hp & _)]; [by rewrite Ht; eauto|lia|]. apply lookup_lt_Some in Hp. lia.
Qed.

(** ** Examples *)
Definition ex_from : PeerID := replicate 32 1.
Definition ex_msg (inner : PeerMessageInner) : PeerMessage := {| pm_peer_id := replicate 32 2; pm_inner := inner |}.

(** A session is established, the connection breaks with a message in flight
    and one read but not acknowledged, and a new one is made. *)
Definition ex_broken : list LinkEvent :=
  [EvQueue (ex_msg (pSyn [1])); EvConnect 0; EvSend true; EvReceive true; EvAck;
   EvQueue (ex_msg (pData [2])); EvQueue (ex_msg (pData [3])); EvSend true; EvSend true; EvReceive true;
   EvServerClosed; EvClientClosed; EvConnect 9; EvReceive true].

(** The messages numbered and forwarded. *)
Definition ex_outcome (evs : list LinkEvent) : option (list PeerMessageInner * list PeerMessageInner) :=
  l ← link_run (Link_new 100 ex_from) evs;
  Some ((fun d => pm_inner (data_msg d)) <$> numbered l, (fun d => pm_inner (data_msg d)) <$> forwarded l).

Lemma link_in_order_witness :
  exists l, link_run (Link_new 100 ex_from) ex_broken = Some l /\ length (forwarded l) = 3%nat /\ forwarded l `sublist_of` numbered l.
Proof.
  eexists. split; [vm_compute; reflexivity|]. split; [reflexivity|].
  eapply (link_in_order ex_broken 100 ex_from); [vm_compute; reflexivity|vm_compute; reflexivity].
Defined.

Lemma link_loses_nothing_witness :
  ex_outcome ex_broken = Some ([pSyn [1]; pData [2]; pData [3]], [pSyn [1]; pData [2]; pData [3]]) /\
  exists l ds rest, link_run (Link_new 100 ex_from) ex_broken = Some l /\ numbered l = ds ++ rest /\ delivers ds (forwarded l) /\ rest = [].
Proof.
  split; [vm_compute; reflexivity|].
  assert (exists l, link_run (Link_new 100 ex_from) ex_broken = Some l /\ Len (numbered l) < 2 ^ 30 /\ is_Some (current l) /\
    to_server l = Some []) as (l & E & HN & Hc & Ht).
  { eexists. split; [vm_compute; reflexivity|]. split; [reflexivity|]. split; [by eexists|reflexivity]. }
  destruct (link_loses_nothing ex_broken 100 ex_from l E) as (ds & rest & H1 & H2 & H3); [vm_compute; reflexivity|exact HN|].
  exists l, ds, rest. split; [exact E|]. split; [exact H1|]. split; [exact H2|]. exact (H3 Hc Ht).
Defined.

(** A message that establishes a session is sent, the connection breaks
    before it is read, and a new one is made: the number of the next message
    is not the one after the pending one. *)
Definition ex_reconnect : list LinkEvent :=
  [EvQueue (ex_msg (pSyn [1])); EvConnect 0; EvSend true; EvServerClosed; EvClientClosed; EvConnect 1; EvReceive true; EvAck].

Definition ex_second_session : list LinkEvent :=
  ex_reconnect ++ [EvQueue (ex_msg (pSyn [2])); EvSend true; EvReceive true; EvAck].

(** A message follows, is refused, and so is everything after it on the next
    connections. *)
Definition ex_refused : list LinkEvent := ex_reconnect ++ [EvQueue (ex_msg (pData [3])); EvSend true; EvReceive true; EvClientClosed].
Definition ex_retry : list LinkEvent := [EvConnect 1; EvReceive true; EvClientClosed].

Lemma link_run_app l evs evs' : link_run l (evs ++ evs') = l ← link_run l evs; link_run l evs'.
Proof. revert l. induction evs as [|ev evs IH]; intros l; simpl; [done|]. destruct (link_step l ev); simpl; [apply IH|done]. Qed.

(** When a message that establishes a session is pending as a connection
    is made, the numbers of the messages after it are wrong.  A second such
    message gets the number of the first: it is acknowledged and dropped by
    the sender but never forwarded.  Any other message gets a number of the
    old epoch: the receiver closes the connection, and does so again on every
    further connection, however often the sender tries. *)
Theorem pending_session_breaks_link :
  (exists l, link_run (Link_new 100 ex_from) ex_second_session = Some l /\ pending (sender l) = [] /\ to_server l = Some [] /\
     (fun d => pm_inner (data_msg d)) <$> numbered l = [pSyn [1]; pSyn [2]] /\
     (fun d => pm_inner (data_msg d)) <$> forwarded l = [pSyn [1]]) /\
  (forall n, ex_outcome (ex_refused ++ concat (replicate n ex_retry)) = Some ([pSyn [1]; pData [3]], [pSyn [1]])).
Proof.
  split; [eexists; split; [vm_compute; reflexivity|vm_compute; done]|]. intros n. unfold ex_outcome.
  assert (Hn : forall l, link_run l ex_retry = Some l -> link_run l (concat (replicate n ex_retry)) = Some l).
  { intros l Hl. induction n as [|n IH]; cbn [replicate concat]; [done|]. rewrite link_run_app, Hl. apply IH. }
  assert (exists l, link_run (Link_new 100 ex_from) ex_refused = Some l /\ link_run l ex_retry = Some l /\
    ((fun d => pm_inner (data_msg d)) <$> numbered l, (fun d => pm_inner (data_msg d)) <$> forwarded l) = ([pSyn [1]; pData [3]], [pSyn [1]]))
    as (l & E & Hl & Ho).
  { eexists. split; [vm_compute; reflexivity|]. split; vm_compute; reflexivity. }
  rewrite link_run_app, E. cbn [mbind option_bind]. rewrite (Hn l Hl). cbn [mbind option_bind]. by rewrite Ho.
Qed.

(** ** On the wire *)
Section wire.
Context {PR : Proto}.

(** What a connection carries. *)
Fixpoint write_all (ms : list PeerConnectionMessage) : result bytes :=
  match ms with
  | [] => inl []
  | m :: ms' => match writeFramed m with
                | inr e => inr e
                | inl w => match write_all ms' with inr e => inr e | inl ws => inl (w ++ ws) end
                end
  end.

(** The messages read up to an error, that error, and what is left. *)
Fixpoint read_all (fuel : nat) (r : bytes) : list PeerConnectionMessage * option WireError :=
  match fuel with
  | O => ([], None)
  | S fuel => match readFramed r with
              | inr e => ([], Some e)
              | inl (m, r) => let '(ms, e) := read_all fuel r in (m :: ms, e)
              end
  end.

(** The framing loses nothing: what is written to a connection for
    messages that are not too long is read as the same messages in the same
    order, and then the end of the connection, however the lengths are
    encoded. *)
Theorem framing_roundtrip ms :
  (forall m bs, Marshal m = Some bs -> Unmarshal bs = Some m) -> Forall sendable ms ->
  exists w, write_all ms = inl w /\ read_all (S (length ms)) w = (ms, Some ErrEOF).
Proof.
  intros Hlaw Hms. induction Hms as [|m ms Hm _ (w & Hw & Hr)]; [by exists []|].
  destruct (framed_read Hlaw m w Hm) as (f & Hf & Hread). exists (f ++ w). cbn [write_all]. rewrite Hf, Hw. split; [done|].
  cbn [length]. change (read_all (S (S (length ms))) (f ++ w)) with
    (match readFramed (f ++ w) with inr e => ([], Some e) | inl (m, r) => let '(ms', e) := read_all (S (length ms)) r in (m :: ms', e) end).
  by rewrite Hread, Hr.
Qed.
End wire.

(** A stand-in for protobuf that knows hellos. *)
#[local] Instance toy_proto : Proto := {|
  Marshal := fun m => match m with cHello from to => Some (Zlen from :: from ++ to) | _ => None end;
  Unmarshal := fun bs => match bs with n :: r => Some (cHello (take (Z.to_nat n) r) (drop (Z.to_nat n) r)) | [] => None end |}.

Lemma framing_roundtrip_witness :
  exists w, write_all [cHello ex_from (replicate 200 7)] = inl w /\ length w = 235%nat /\
    read_all 2 w = ([cHello ex_from (replicate 200 7)], Some ErrEOF).
Proof.
  destruct (framing_roundtrip [cHello ex_from (replicate 200 7)]) as (w & Hw & Hr).
  - intros m bs. destruct m; simpl; try discriminate. intros [= <-]. unfold Zlen. by rewrite Nat2Z.id, take_app_length, drop_app_length.
  - repeat constructor. eexists. split; [reflexivity|]. vm_compute. discriminate.
  - exists w. split; [exact Hw|]. split; [|exact Hr].
    assert (E : match write_all [cHello ex_from (replicate 200 7)] with inl w => length w | _ => 0%nat end = 235%nat) by (vm_compute; reflexivity).
    by rewrite Hw in E.
Defined.
