(* ===== verification/PeerClient.v ===== *)
(** * Routing to the senders of peers (host/peer/client.go)

    A [PeerClient] has a sender for every peer it talks to.  A sender that
    cannot reach its peer gives up; the peer is then abandoned, and talked to
    again only with a message that begins a new session. *)
From stdpp Require Import prelude gmap.
From S2P Require Import Prelude Errors Containers RaftTypes PeerId Msgs HostWire Transport.

(** [resets]: the calls of [ResetPeer], which tell the enclave that the
    session is lost; [events]: what was queued and abandoned, in order. *)
Inductive ClientLog := LQueued (p : PeerID) (m : PeerMessage) | LAbandoned (p : PeerID).
Record PeerClient := {
  senders : gmap PeerID peerSender;
  abandonedPeers : gset PeerID;
  cfg_BufferSize : Z;
  resets : list PeerID;
  events : list ClientLog }.
Definition NewPeerClient (buffer_size : Z) : PeerClient :=
  {| senders := ∅; abandonedPeers := ∅; cfg_BufferSize := buffer_size; resets := []; events := [] |}.
Definition ResetPeer (c : PeerClient) (p : PeerID) : PeerClient := {| c with resets := resets c ++ [p] |}.

Inductive SendError := ErrBadPeer (e : WireError) | ErrDroppedReset | ErrNotEstablishing | ErrQueueFull.

Definition getOrCreateSender (c : PeerClient) (msg : PeerMessage) (peerID : PeerID) : PeerClient * (peerSender + SendError) :=
  match senders c !! peerID with
  | Some s => (c, inl s)
  | None =>
      let create c :=
        let s := newPeerSender (cfg_BufferSize c) in
        ({| c with senders := <[peerID := s]> (senders c) |}, inl s) in
      if bool_decide (peerID ∈ abandonedPeers c) then
        if isReset msg then (c, inr ErrDroppedReset)
        else if negb (isEstablishing msg) then (ResetPeer c peerID, inr ErrNotEstablishing)
        else create {| c with abandonedPeers := abandonedPeers c ∖ {[peerID]} |}
      else create c
  end.

Definition Send (c : PeerClient) (msg : PeerMessage) : PeerClient * option SendError :=
  match PeerID_Make (pm_peer_id msg) with
  | inr e => (c, Some (ErrBadPeer e))
  | inl peerID =>
      match getOrCreateSender c msg peerID with
      | (c, inr e) => (c, Some e)
      | (c, inl s) =>
          let '(s, queued) := queueMessage s msg in
          let c := {| c with senders := <[peerID := s]> (senders c) |} in
          if negb queued then (ResetPeer c peerID, Some ErrQueueFull)
          else ({| c with events := events c ++ [LQueued peerID msg] |}, None)
      end
  end.

(** A sender's [run] returned: with [errAbandonPeer], or since the client is
    shut down. *)
Definition sender_exit (c : PeerClient) (peerID : PeerID) (abandon : bool) : PeerClient :=
  match senders c !! peerID with
  | None => c
  | Some _ =>
      let c := {| c with senders := delete peerID (senders c) |} in
      if abandon
      then ResetPeer {| c with abandonedPeers := {[peerID]} ∪ abandonedPeers c; events := events c ++ [LAbandoned peerID] |} peerID
      else c
  end.

(** A sender takes messages from its channel, for [Transport.link_step] to send.
    [Send] is one step: a message queued at a sender that has just exited is
    lost with it, as one that was queued before. *)
Inductive ClientEvent := CSend (msg : PeerMessage) | CExit (p : PeerID) (abandon : bool) | CSender (p : PeerID) (taken : nat).
Definition c_step (c : PeerClient) (ev : ClientEvent) : PeerClient :=
  match ev with
  | CSend msg => (Send c msg).1
  | CExit p abandon => sender_exit c p abandon
  | CSender p taken =>
      match senders c !! p with
      | Some s => {| c with senders := <[p := {| s with tx := drop taken (tx s) |}]> (senders c) |}
      | None => c
      end
  end.
Definition c_run (c : PeerClient) (evs : list ClientEvent) : PeerClient := fold_left c_step evs c.

(** ** A new session after a peer was abandoned *)

(** What the log says of a peer: whether it was abandoned and nothing was queued since. *)
Definition log_step (p : PeerID) (b : bool) (e : ClientLog) : bool :=
  match e with
  | LQueued q _ => if bool_decide (q = p) then false else b
  | LAbandoned q => if bool_decide (q = p) then true else b
  end.
Definition abandoned_since (p : PeerID) (l : list ClientLog) : bool := fold_left (log_step p) l false.
#[local] Arguments abandoned_since _ _ : simpl never.

Record client_inv (c : PeerClient) : Prop := {
  ci_buffer : forall p s, senders c !! p = Some s -> BufferSize s = cfg_BufferSize c;
  ci_abandoned : forall p, abandoned_since p (events c) = true -> senders c !! p = None /\ p ∈ abandonedPeers c;
  ci_log : forall l1 p m l2, events c = l1 ++ LQueued p m :: l2 -> abandoned_since p l1 = true -> isEstablishing m = true }.

Lemma abandoned_since_app p l e : abandoned_since p (l ++ [e]) = log_step p (abandoned_since p l) e.
Proof. unfold abandoned_since. by rewrite fold_left_app. Qed.

Lemma queue_ok s m : 0 < BufferSize s -> isEstablishing m = true -> (queueMessage s m).2 = true.
Proof. intros Hb Hm. unfold queueMessage. rewrite Hm. cbn. by rewrite (proj2 (Z.ltb_lt _ _)). Qed.
Lemma queue_buffer s m : BufferSize (queueMessage s m).1 = BufferSize s.
Proof. unfold queueMessage. by case_match. Qed.

Lemma insert_sender_inv c p s : client_inv c -> BufferSize s = cfg_BufferSize c -> is_Some (senders c !! p) ->
  client_inv {| c with senders := <[p := s]> (senders c) |}.
Proof.
  intros [H1 H2 H3] Hb [s0 Hs]. split; cbn; [| |done].
  - intros q s'. destruct (decide (q = p)) as [->|]; [rewrite lookup_insert_eq; by intros [= <-]|]. rewrite lookup_insert_ne by done. apply H1.
  - intros q Hq. destruct (H2 q Hq) as [Hn Ha]. split; [|done]. rewrite lookup_insert_ne; [done|]. intros ->. congruence.
Qed.

Lemma log_inv c e : client_inv c -> (forall p, e <> LAbandoned p) ->
  (forall p m, e = LQueued p m -> abandoned_since p (events c) = true -> isEstablishing m = true) ->
  client_inv {| c with events := events c ++ [e] |}.
Proof.
  intros [H1 H2 H3] Hna He. split; cbn; [done| |].
  - intros p Hp. rewrite abandoned_since_app in Hp. apply H2. destruct e as [q m|q]; [|by destruct (Hna q)]. cbn in Hp. by case_bool_decide.
  - intros l1 p m l2 Heq Hab. destruct l2 as [|e' l2 _] using rev_ind.
    + apply app_inj_tail in Heq as [<- ->]. by eapply He.
    + rewrite app_comm_cons, app_assoc in Heq. apply app_inj_tail in Heq as [Heq _]. by eapply H3.
Qed.

(** A new sender, for a peer that is not abandoned or with an establishing message. *)
Lemma create_send_inv c p m s : client_inv c -> 0 < cfg_BufferSize c -> senders c !! p = None ->
  s = newPeerSender (cfg_BufferSize c) -> (abandoned_since p (events c) = true -> isEstablishing m = true) ->
  forall ab, ab = abandonedPeers c \/ ab = abandonedPeers c ∖ {[p]} /\ isEstablishing m = true ->
  client_inv {| c with abandonedPeers := ab; senders := <[p := (queueMessage s m).1]> (senders c); events := events c ++ [LQueued p m] |}.
Proof.
  intros [H1 H2 H3] Hb Hs -> Hest ab Hab. split; cbn.
  - intros q s'. destruct (decide (q = p)) as [->|]; [rewrite lookup_insert_eq; intros [= <-]; by rewrite queue_buffer|].
    rewrite lookup_insert_ne by done. apply H1.
  - intros q Hq. rewrite abandoned_since_app in Hq. cbn in Hq. case_bool_decide as Hpq; [done|].
    destruct (H2 q Hq) as [Hn Ha]. rewrite lookup_insert_ne by done. split; [done|]. destruct Hab as [->|[-> _]]; set_solver.
  - intros l1 q m' l2 Heq Hab'. destruct l2 as [|e' l2 _] using rev_ind.
    + apply app_inj_tail in Heq as [<- [= -> ->]]. by apply Hest.
    + rewrite app_comm_cons, app_assoc in Heq. apply app_inj_tail in Heq as [Heq _]. by eapply H3.
Qed.

Lemma reset_inv c p : client_inv c -> client_inv (ResetPeer c p).
Proof. by intros [? ? ?]. Qed.

Lemma new_sender_queues b m : 0 < b -> (queueMessage (newPeerSender b) m).2 = true.
Proof. intros Hb. unfold queueMessage. cbn. assert ((Zlen (if isEstablishing m || isReset m then [] else []) <? b) = true) as -> by (apply Z.ltb_lt; by case_match). done. Qed.

Lemma Send_client_inv c m : client_inv c -> 0 < cfg_BufferSize c -> client_inv (Send c m).1.
Proof.
  intros Hi Hb. unfold Send. destruct (PeerID_Make (pm_peer_id m)) as [p|e]; [|done]. unfold getOrCreateSender.
  destruct (senders c !! p) as [s|] eqn:Es.
  - pose proof (ci_buffer c Hi p s Es) as Hbs. pose proof (queue_buffer s m) as Hqb.
    destruct (queueMessage s m) as [s' [|]]; cbn in Hqb |- *.
    + refine (log_inv {| c with senders := <[p := s']> (senders c) |} (LQueued p m) _ _ _); cbn; try done.
      * apply insert_sender_inv; [done|congruence|by rewrite Es].
      * intros p' m' [= <- <-] Ha. apply (ci_abandoned c Hi) in Ha as [? _]. congruence.
    + apply reset_inv, insert_sender_inv; [done|congruence|by rewrite Es].
  - pose proof (new_sender_queues (cfg_BufferSize c) m Hb) as Hq.
    case_bool_decide as Ha; [destruct (isReset m); [done|]; destruct (isEstablishing m) eqn:Em; cbn [negb]; [|by apply reset_inv]|].
    all: cbn; destruct (queueMessage (newPeerSender (cfg_BufferSize c)) m) as [s' q] eqn:Eq; cbn in Hq; subst q; cbn; rewrite insert_insert_eq.
    + refine (eq_rect _ (fun s => client_inv {| c with abandonedPeers := _; senders := <[p := s]> _; events := _ |}) (create_send_inv c p m _ Hi Hb Es eq_refl (fun _ => Em) _ (or_intror (conj eq_refl Em))) s' _). by rewrite Eq.
    + refine (eq_rect _ (fun s => client_inv {| c with abandonedPeers := _; senders := <[p := s]> _; events := _ |}) (create_send_inv c p m _ Hi Hb Es eq_refl _ _ (or_introl eq_refl)) s' _); [|by rewrite Eq].
      intros Hab. by apply (ci_abandoned c Hi) in Hab as [_ ?].
Qed.

Lemma exit_inv c p abandon : client_inv c -> client_inv (sender_exit c p abandon).
Proof.
  intros [H1 H2 H3]. unfold sender_exit. destruct (senders c !! p) as [s|] eqn:Es; [|done].
  assert (forall q s', delete p (senders c) !! q = Some s' -> BufferSize s' = cfg_BufferSize c) as Hb
    by (intros q s' [_ Hq]%lookup_delete_Some; by eapply H1).
  destruct abandon; [apply reset_inv|]; split; cbn; try done.
  - intros q Hq. rewrite abandoned_since_app in Hq. cbn in Hq. case_bool_decide as Hpq.
    + subst. rewrite lookup_delete_eq. set_solver.
    + destruct (H2 q Hq) as [Hn Ha]. rewrite lookup_delete_ne by done. set_solver.
  - intros l1 q m l2 Heq Hab. destruct l2 as [|e' l2 _] using rev_ind; [by apply app_inj_tail in Heq as [_ ?]|].
    rewrite app_comm_cons, app_assoc in Heq. apply app_inj_tail in Heq as [Heq _]. by eapply H3.
  - intros q Hq. destruct (H2 q Hq) as [Hn Ha]. split; [|done]. apply lookup_delete_None. by right.
Qed.

Lemma Send_buffer c m : cfg_BufferSize (Send c m).1 = cfg_BufferSize c.
Proof. unfold Send, getOrCreateSender. repeat (case_match; simplify_eq; cbn; try done). Qed.

Lemma c_step_inv c ev : client_inv c -> 0 < cfg_BufferSize c -> client_inv (c_step c ev) /\ cfg_BufferSize (c_step c ev) = cfg_BufferSize c.
Proof.
  intros Hi Hb. destruct ev as [m|p ab|p n]; cbn [c_step].
  - split; [by apply Send_client_inv|apply Send_buffer].
  - split; [by apply exit_inv|]. unfold sender_exit. repeat case_match; done.
  - destruct (senders c !! p) as [s|] eqn:Es; [|done]. split; [|done].
    apply insert_sender_inv; [done|exact (ci_buffer c Hi p s Es)|by rewrite Es].
Qed.

Lemma c_run_inv c evs : client_inv c -> 0 < cfg_BufferSize c -> client_inv (c_run c evs).
Proof.
  revert c. induction evs as [|ev evs IH]; intros c Hi Hb; [done|]. cbn [c_run fold_left].
  destruct (c_step_inv c ev Hi Hb) as [Hi' Hb']. apply IH; [done|]. by rewrite Hb'.
Qed.

(** In any order of sends and of senders giving up, the first message that
    is queued for a peer after it was abandoned begins a new session: nothing of
    the session that was lost can follow the gap. *)
Theorem abandoned_peer_new_session buffer_size evs l1 p m l2 : 0 < buffer_size ->
  events (c_run (NewPeerClient buffer_size) evs) = l1 ++ LQueued p m :: l2 -> abandoned_since p l1 = true ->
  isEstablishing m = true.
Proof.
  intros Hb. assert (client_inv (c_run (NewPeerClient buffer_size) evs)) as Hi.
  { apply c_run_inv; [|done]. split; cbn; [intros ? ? H; by rewrite lookup_empty in H|done|]. intros l1' ? ? ? H. by destruct l1'. }
  apply (ci_log _ Hi).
Qed.

Definition example_peer : PeerID := replicate 32 1.
Definition example_msg (i : PeerMessageInner) : PeerMessage := {| pm_peer_id := example_peer; pm_inner := i |}.

Lemma abandoned_peer_new_session_witness :
  isEstablishing (example_msg (pSyn [])) = true.
Proof.
  apply (abandoned_peer_new_session 8
    [CSend (example_msg (pData [1])); CExit example_peer true; CSend (example_msg (pData [2])); CSend (example_msg (pSyn []))]
    [LQueued example_peer (example_msg (pData [1])); LAbandoned example_peer] example_peer _ []).
  - reflexivity.
  - vm_compute. reflexivity.
  - vm_compute. reflexivity.
Defined.
