(* ===== verification/Attest.v ===== *)
(** * What attestation takes from BoringSSL and from AMD's headers

    Certificates, keys, digests and signatures are BoringSSL's; the layout of
    an SEV-SNP report and the constants of its fields are those of AMD's
    [attestation.h].  Both are parameters. *)
From Stdlib Require Import Strings.String Strings.Ascii.
From stdpp Require Import prelude.
From S2P Require Import Prelude Errors Containers Util.

Class Crypto := {
  X509 : Type;
  EVP_PKEY : Type;
  EC_KEY : Type;
  RSA : Type;
  (** The certificate, and how many of the bytes it took. *)
  d2i_X509 : bytes -> option (X509 * Z);
  X509_get_pubkey : X509 -> option EVP_PKEY;
  EVP_PKEY_get0_EC_KEY : EVP_PKEY -> option EC_KEY;
  EVP_PKEY_get0_RSA : EVP_PKEY -> option RSA;
  (** The bytes of the exponent and of the modulus, [BN_bn2bin]. *)
  RSA_get0_e : RSA -> option bytes;
  RSA_get0_n : RSA -> option bytes;
  (** [X509_verify_cert] of a certificate with intermediates at a time, with
      a stack of trusted roots. *)
  X509_verify_cert : list X509 -> X509 -> list X509 -> Z -> bool;
  sha256 : bytes -> bytes;
  sha384 : bytes -> bytes;
  (** Of a digest, with the bytes of [r] and [s], most significant first. *)
  ECDSA_do_verify : EC_KEY -> bytes -> bytes -> bytes -> bool;
  RSA_verify : RSA -> bytes -> bytes -> bool;
  (** Whether the library's allocations succeed. *)
  allocates : bool }.

(** [attestation_report], as its bytes. *)
Class SevLayout := {
  sizeof_report : nat;
  offsetof_signature : nat;
  rp_version : bytes -> Z;
  rp_policy : bytes -> Z;
  rp_signature_algo : bytes -> Z;
  rp_flags : bytes -> Z;
  rp_measurement : bytes -> bytes;
  rp_host_data : bytes -> bytes;
  rp_report_data : bytes -> bytes;
  rp_signature_r : bytes -> bytes;      (* 72 bytes, least significant first *)
  rp_signature_s : bytes -> bytes;
  (** Boot loader, TEE, SNP and microcode versions. *)
  rp_platform_version : bytes -> Z * Z * Z * Z;
  rp_reported_tcb : bytes -> Z * Z * Z * Z;
  POLICY_MIGRATE_MA_MASK : Z;
  POLICY_DEBUG_MASK : Z;
  SIG_ALGO_ECDSA_P384_SHA384 : Z }.

(** [d2i_X509] of a string; bytes after the certificate are not looked at. *)
Definition parse_x509 `{Crypto} (der : bytes) : option X509 := fst <$> d2i_X509 der.

(** The bytes of a string literal. *)
Fixpoint str (s : string) : bytes :=
  match s with EmptyString => [] | String a s' => Z.of_nat (nat_of_ascii a) :: str s' end.
