(* ===== verification/Sev.v ===== *)
(** * SEV-SNP reports (attestation/sev/sev.cc) *)
From Stdlib Require Import Strings.String.
From stdpp Require Import prelude.
From S2P Require Import Prelude Errors Containers Util RaftTypes PeerId Minimums GroupClock Msgs Attest.

(** sev.proto *)
Record SevSnpEndorsements := { vcek_der : bytes; ask_der : bytes; ark_der : bytes; vlek_der : bytes; crl : bytes }.
Definition SevSnpEndorsements_default : SevSnpEndorsements :=
  {| vcek_der := []; ask_der := []; ark_der := []; vlek_der := []; crl := [] |}.

Definition UUID_VCEK : bytes := [99; 218; 117; 141; 230; 100; 69; 100; 173; 197; 244; 185; 59; 232; 172; 205].
Definition UUID_ASK : bytes := [74; 183; 179; 121; 187; 172; 79; 228; 160; 47; 5; 174; 243; 39; 199; 130].
Definition UUID_ARK : bytes := [192; 180; 6; 164; 168; 3; 73; 82; 151; 67; 63; 182; 1; 76; 208; 174].
Definition UUID_VLEK : bytes := [168; 7; 75; 194; 162; 90; 72; 62; 170; 230; 57; 192; 69; 160; 184; 161].
Definition UUID_CRL : bytes := [146; 248; 27; 195; 88; 17; 77; 61; 151; 255; 209; 159; 136; 220; 103; 234].

Definition FLAGS_KEY_MASK : Z := Z.lor 4 8.
Definition FLAGS_KEY_VCEK : Z := 0.

(** ** The certificate table of [SNP_GET_EXT_REPORT] *)
Definition entry_size : Z := 24.

(** A little-endian [uint32_t]. *)
Definition le32 (b : bytes) : Z := byte_at b 0 + 2 ^ 8 * byte_at b 1 + 2 ^ 16 * byte_at b 2 + 2 ^ 24 * byte_at b 3.

(** [memcpy] of [n] bytes from [offset] of a buffer: undefined outside of it. *)
Definition read_at (buf : bytes) (offset n : Z) : option bytes :=
  if (0 <=? offset) && (offset + n <=? Zlen buf) then Some (take (Z.to_nat n) (drop (Z.to_nat offset) buf)) else None.

Definition set_certificate (e : SevSnpEndorsements) (uuid cert : bytes) : SevSnpEndorsements :=
  if bool_decide (uuid = UUID_VCEK) then {| e with vcek_der := cert |}
  else if bool_decide (uuid = UUID_ASK) then {| e with ask_der := cert |}
  else if bool_decide (uuid = UUID_ARK) then {| e with ark_der := cert |}
  else if bool_decide (uuid = UUID_VLEK) then {| e with vlek_der := cert |}
  else if bool_decide (uuid = UUID_CRL) then {| e with crl := cert |}
  else e.

(** The loop over the entries: [i] entries were read. *)
Fixpoint certs_loop (fuel : nat) (certs : bytes) (certs_size i : Z) (e : SevSnpEndorsements) :
    option (SevSnpEndorsements * Error) :=
  match fuel with
  | O => None
  | S fuel =>
      let entry_end := u32 (entry_size * (i + 1)) in
      if certs_size <? entry_end then Some (e, AttestationSEV_CertsTableEntryTooLarge) else
      entry ← read_at certs (entry_size * i) entry_size;
      if bool_decide (entry = replicate 24 0) then Some (e, OK) else
      let offset := le32 (drop 16 entry) in
      let length := le32 (drop 20 entry) in
      let cert_end := u32 (offset + length) in
      if (certs_size <? offset) || (certs_size <? cert_end) then Some (e, AttestationSEV_CertsTableCertTooLarge) else
      cert ← read_at certs offset length;
      certs_loop fuel certs certs_size (i + 1) (set_certificate e (take 16 entry) cert)
  end.

(** [certs_size] is the size of the buffer; an entry takes 24 bytes. *)
Definition CertificatesToEndorsements (certs : bytes) (e : SevSnpEndorsements) : option (SevSnpEndorsements * Error) :=
  certs_loop (S (length certs)) certs (Zlen certs) 0 e.

Section reports.
Context {CR : Crypto} {SL : SevLayout}.
Implicit Types report : bytes.

(** [roots_of_trust]: AMD's root keys for Milan and Genoa. *)
Context (roots_of_trust : list X509) (ParseEndorsements : bytes -> option SevSnpEndorsements).

Definition ValidateReport report : Error :=
  if negb (Z.land (rp_policy report) POLICY_MIGRATE_MA_MASK =? 0) then AttestationSEV_MigrationAllowed
  else if negb (Z.land (rp_policy report) POLICY_DEBUG_MASK =? 0) then AttestationSEV_DebugEnabled
  else if negb (rp_version report =? 2) || negb (rp_signature_algo report =? SIG_ALGO_ECDSA_P384_SHA384) ||
          negb (Z.land (rp_flags report) FLAGS_KEY_MASK =? FLAGS_KEY_VCEK)
  then AttestationSEV_UnsupportedReport
  else OK.

Definition AllowRemote (local remote : bytes) : option Error :=
  let err := ValidateReport remote in
  if negb (is_ok err) then Some err else
  same ← ConstantTimeEqualsBytes (rp_measurement local) (rp_measurement remote) (length (rp_measurement local));
  if negb same then Some AttestationSEV_MeasurementMismatch else
  same ← ConstantTimeEqualsBytes (rp_host_data local) (rp_host_data remote) (length (rp_host_data local));
  if negb same then Some AttestationSEV_HostDataMismatch else Some OK.

(** The report is indeterminate on error. *)
Definition ReportFromUnverifiedBuffer (evidence : bytes) : bytes * Error :=
  if Zlen evidence <? Z.of_nat sizeof_report then ([], AttestationSEV_EvidenceTooSmallForReport)
  else (take sizeof_report evidence, OK).

(** [auto map = *v.mutable_val()] copies the map of [v]: the entries go into
    the copy. *)
Definition MinimumsFromReport report : Minimums.MinimumValues :=
  let v : Minimums.MinimumValues := [] in
  let map := v in
  let '(pv1, pv2, pv3, pv4) := rp_platform_version report in
  let '(rt1, rt2, rt3, rt4) := rp_reported_tcb report in
  let map := Minimums.put (str "sev_platform_version_boot_loader") (Minimums.U64 pv1) map in
  let map := Minimums.put (str "sev_platform_version_tee") (Minimums.U64 pv2) map in
  let map := Minimums.put (str "sev_platform_version_snp") (Minimums.U64 pv3) map in
  let map := Minimums.put (str "sev_platform_version_microcode") (Minimums.U64 pv4) map in
  let map := Minimums.put (str "sev_reported_tcb_boot_loader") (Minimums.U64 rt1) map in
  let map := Minimums.put (str "sev_reported_tcb_tee") (Minimums.U64 rt2) map in
  let map := Minimums.put (str "sev_reported_tcb_snp") (Minimums.U64 rt3) map in
  let map := Minimums.put (str "sev_reported_tcb_microcode") (Minimums.U64 rt4) map in
  v.

Definition ReportFromUnverifiedAttestation (attestation : Attestation) : bytes * Error :=
  ReportFromUnverifiedBuffer (evidence attestation).

(** The key of a certificate that is not for EC is a null pointer, which
    [ECDSA_do_verify] reads. *)
Definition ReportFromVerifiedBuffer (buffer : bytes) (e : SevSnpEndorsements) (now : UnixSecs) : option (bytes * Error) :=
  let '(report, err) := ReportFromUnverifiedBuffer buffer in
  if negb (is_ok err) then Some (report, err) else
  match parse_x509 (vcek_der e), parse_x509 (ask_der e) with
  | Some vcek, Some ask =>
      match X509_get_pubkey vcek with
      | None => Some (report, AttestationSEV_CryptoAllocate)
      | Some vcek_pub =>
          if negb allocates then Some (report, AttestationSEV_CryptoAllocate) else
          if negb (X509_verify_cert roots_of_trust vcek [ask] now) then Some (report, AttestationSEV_CertificateChainVerify) else
          let r := reverse (take 48 (rp_signature_r report)) in
          let s := reverse (take 48 (rp_signature_s report)) in
          let md := sha384 (take offsetof_signature report) in
          ec_key ← EVP_PKEY_get0_EC_KEY vcek_pub;
          if negb (ECDSA_do_verify ec_key md r s) then Some (report, AttestationSEV_SignatureVerify)
          else Some (report, OK)
      end
  | _, _ => Some (report, AttestationSEV_EndorsementBadCert)
  end.

Definition AttestationData_default : AttestationData :=
  {| att_public_key := []; att_group_config := None; att_minimum_limits := []; att_minimum_values := [] |}.

Definition DataFromVerifiedAttestation (local : bytes) (attestation : Attestation) (now : UnixSecs) : option (AttestationData * Error) :=
  let out := AttestationData_default in
  match ParseEndorsements (endorsements attestation) with
  | None => Some (out, AttestationSEV_ParseEndorsements)
  | Some e =>
      '(report, err) ← ReportFromVerifiedBuffer (evidence attestation) e now;
      if negb (is_ok err) then Some (out, err) else
      err ← AllowRemote local report;
      if negb (is_ok err) then Some (out, err) else
      let out := {| out with att_public_key := take 32 (rp_report_data report) |} in
      let mins := Minimums.CombineValues (att_minimum_values out) (MinimumsFromReport report) in
      Some ({| out with att_minimum_values := mins |}, OK)
  end.
End reports.

(** ** The layout of a report: the fields are arrays within it. *)
Class SevLaws {SL : SevLayout} := {
  measurement_size : forall r, length r = sizeof_report -> length (rp_measurement r) = 48%nat;
  host_data_size : forall r, length r = sizeof_report -> length (rp_host_data r) = 32%nat;
  report_data_size : forall r, length r = sizeof_report -> length (rp_report_data r) = 64%nat }.

(** A signature by the key of a certificate that AMD's roots vouch for. *)
Definition sev_signed {CR : Crypto} {SL : SevLayout} (roots : list X509) (e : SevSnpEndorsements) (now : UnixSecs) (report : bytes) : Prop :=
  exists vcek ask key ec, parse_x509 (vcek_der e) = Some vcek /\ parse_x509 (ask_der e) = Some ask /\
    X509_verify_cert roots vcek [ask] now = true /\ X509_get_pubkey vcek = Some key /\ EVP_PKEY_get0_EC_KEY key = Some ec /\
    ECDSA_do_verify ec (sha384 (take offsetof_signature report))
      (reverse (take 48 (rp_signature_r report))) (reverse (take 48 (rp_signature_s report))) = true.

Section lemmas.
Context {CR : Crypto} {SL : SevLayout} {LW : SevLaws}.
Context (roots : list X509).

Lemma verified_report buffer e now report :
  ReportFromVerifiedBuffer roots buffer e now = Some (report, OK) ->
  report = take sizeof_report buffer /\ length report = sizeof_report /\ sev_signed roots e now report.
Proof.
  unfold ReportFromVerifiedBuffer, ReportFromUnverifiedBuffer. destruct (Zlen buffer <? _) eqn:El; [done|]. zbool. simpl.
  destruct (parse_x509 (vcek_der e)) as [vcek|] eqn:Ev; [|done]. destruct (parse_x509 (ask_der e)) as [ask|] eqn:Ea; [|done].
  destruct (X509_get_pubkey vcek) as [key|] eqn:Ek; [|done]. destruct allocates; simpl; [|done].
  destruct (X509_verify_cert roots vcek [ask] now) eqn:Ec; simpl; [|done].
  destruct (EVP_PKEY_get0_EC_KEY key) as [ec|] eqn:Ee; simpl; [|done]. destruct (ECDSA_do_verify _ _ _ _) eqn:Es; simpl; [|done].
  intros [= <-]. split; [done|]. split; [rewrite length_take; unfold Zlen in El; lia|]. by exists vcek, ask, key, ec.
Qed.

Lemma constant_time_bytes a b n : length a = n -> length b = n -> ConstantTimeEqualsBytes a b n = Some (bool_decide (a = b)).
Proof.
  intros Ha Hb. pose proof (ConstantTimeEquals_eq a b) as H. unfold ConstantTimeEquals, ConstantTimeEqualsPrefix in H.
  unfold Zlen in H. rewrite Ha, Hb, Z.eqb_refl, Z.ltb_irrefl in H. exact H.
Qed.

Lemma allowed_report local report : length local = sizeof_report -> length report = sizeof_report ->
  exists err, AllowRemote local report = Some err /\
    (err = OK <-> ValidateReport report = OK /\ rp_measurement local = rp_measurement report /\ rp_host_data local = rp_host_data report).
Proof.
  intros Hl Hr. unfold AllowRemote. destruct (is_ok (ValidateReport report)) eqn:E; simpl.
  2:{ eexists. split; [done|]. split; [|tauto]. intros He. by rewrite He in E. }
  apply is_ok_spec in E. rewrite (measurement_size _ Hl), (constant_time_bytes _ _ 48) by (by apply measurement_size). simpl.
  case_bool_decide; simpl; [|eexists; split; [done|]; naive_solver]. rewrite (host_data_size _ Hl), (constant_time_bytes _ _ 32) by (by apply host_data_size).
  simpl. case_bool_decide; simpl; eexists; (split; [done|]); naive_solver.
Qed.

(** The minimums of a report are always empty. *)
Lemma MinimumsFromReport_empty report : MinimumsFromReport report = [].
Proof. unfold MinimumsFromReport. by destruct (rp_platform_version report) as [[[]]], (rp_reported_tcb report) as [[[]]]. Qed.
End lemmas.
