(* ===== verification/Tpm2.v ===== *)
(** * TPM2 quotes (attestation/tpm2/tpm2.h, tpm2.cc) *)
From stdpp Require Import prelude.
From S2P Require Import Prelude Errors Containers Util RaftTypes Attest Sev.

Definition TPM_GENERATED_VALUE : Z := 4283712327.  (* 0xff544347 *)
Definition TPM_ST_ATTEST_QUOTE : Z := 32792.       (* 0x8018 *)
Definition SHA256_ALG : Z := 11.
Definition NONCE_SIZE : Z := 32.
Definition SHA256_SIZE : Z := 32.
Definition ALL_24_PCRs : Z := 67108863.            (* 0x03ffffff *)

Record TpmClock := { millis_since_clear : Z; resets : Z; restarts : Z; safe : bool }.
Notation PCRs := (list bytes).

Record Report := {
  data_ : bytes;
  key_offset_ : Z;
  nonce_offset_ : Z;
  clock_ : TpmClock;
  firmware_version_ : Z;
  pcr_digest_offset_ : Z }.

(** The fields that [Parse] has not set are indeterminate. *)
Definition Report_new (data : bytes) : Report := {|
  data_ := data; key_offset_ := 0; nonce_offset_ := 0;
  clock_ := {| millis_since_clear := 0; resets := 0; restarts := 0; safe := false |};
  firmware_version_ := 0; pcr_digest_offset_ := 0 |}.

(** ** Parsing

    A parser moves the pointer [d] over the data, up to their end [e].  It
    reads out of range ([None]), or returns false ([Some None]), or goes on. *)
Definition Parser (A : Type) : Type := bytes -> Z -> option (option (A * Z)).
Definition pbind {A B} (p : Parser A) (k : A -> Parser B) : Parser B := fun data d =>
  match p data d with
  | None => None
  | Some None => Some None
  | Some (Some (a, d')) => k a data d'
  end.
Notation "x <- p ;; k" := (pbind p (fun x => k)) (at level 100, p at next level, right associativity).
Notation "p ;;; k" := (pbind p (fun _ => k)) (at level 100, right associativity).

(** [if (d + n > e) return false]. *)
Definition need (n : Z) : Parser unit := fun data d => if Zlen data <? d + n then Some None else Some (Some (tt, d)).
Definition require (b : bool) : Parser unit := fun _ d => if b then Some (Some (tt, d)) else Some None.
(** [d - start()]. *)
Definition position : Parser Z := fun _ d => Some (Some (d, d)).
Definition skip (n : Z) : Parser unit := fun _ d => Some (Some (tt, d + n)).
(** Reads [n] bytes and moves past them. *)
Definition get (n : Z) : Parser bytes := fun data d => match read_at data d n with None => None | Some b => Some (Some (b, d + n)) end.
(** [if (d != e) return false]. *)
Definition at_end : Parser unit := fun data d => if d =? Zlen data then Some (Some (tt, d)) else Some None.

Definition Report_Parse (data : bytes) : Parser Report :=
  need 4;;; v <- get 4;; require (BigEndian32FromBytes v =? TPM_GENERATED_VALUE);;;
  need 2;;; v <- get 2;; require (BigEndian16FromBytes v =? TPM_ST_ATTEST_QUOTE);;;
  need (SHA256_SIZE + 2 + 2);;;
  v <- get 2;; require (BigEndian16FromBytes v =? 2 + SHA256_SIZE);;;
  v <- get 2;; require (BigEndian16FromBytes v =? SHA256_ALG);;;
  key_offset <- position;; skip SHA256_SIZE;;;
  need 2;;; v <- get 2;; require (BigEndian16FromBytes v =? NONCE_SIZE);;;
  need NONCE_SIZE;;; nonce_offset <- position;; skip NONCE_SIZE;;;
  need 17;;;
  millis <- get 8;; resets <- get 4;; restarts <- get 4;; safe <- get 1;;
  need 8;;; firmware_version <- get 8;;
  need 4;;; v <- get 4;; require (BigEndian32FromBytes v =? 1);;;
  need 2;;; v <- get 2;; require (BigEndian16FromBytes v =? SHA256_ALG);;;
  need 4;;; v <- get 4;; require (BigEndian32FromBytes v =? ALL_24_PCRs);;;
  need 2;;; v <- get 2;; require (BigEndian16FromBytes v =? SHA256_SIZE);;;
  need SHA256_SIZE;;; pcr_digest_offset <- position;; skip SHA256_SIZE;;;
  at_end;;;
  fun _ d => Some (Some ({|
    data_ := data; key_offset_ := key_offset; nonce_offset_ := nonce_offset;
    clock_ := {| millis_since_clear := BigEndian64FromBytes millis; resets := BigEndian32FromBytes resets;
                 restarts := BigEndian32FromBytes restarts; safe := bool_decide (safe = [1]) |};
    firmware_version_ := BigEndian64FromBytes firmware_version; pcr_digest_offset_ := pcr_digest_offset |}, d)).

Definition Report_FromString (data : bytes) : option (Report * Error) :=
  match Report_Parse data data 0 with
  | None => None
  | Some None => Some (Report_new data, AttestationTPM2_ParseReport)
  | Some (Some (r, _)) => Some (r, OK)
  end.

(** [to_byte_array<32>(start() + offset)]. *)
Definition key_hash (r : Report) : option bytes := read_at (data_ r) (key_offset_ r) 32.
Definition pcr_digest (r : Report) : option bytes := read_at (data_ r) (pcr_digest_offset_ r) 32.
Definition nonce (r : Report) : option bytes := read_at (data_ r) (nonce_offset_ r) 32.

Section quotes.
Context {CR : Crypto}.

Definition VerifyPCRs (r : Report) (pcrs : PCRs) : option Error :=
  let digest := sha256 (concat pcrs) in
  expected ← read_at (data_ r) (pcr_digest_offset_ r) 32;
  same ← ConstantTimeEqualsBytes digest expected 32;
  if negb same then Some AttestationTPM2_PCRVerify else Some OK.

(** The [i]-th of 24 PCRs of 32 bytes. *)
Definition PCRsFromString (data : bytes) (out : PCRs) : PCRs * Error :=
  if negb (Zlen data =? 24 * 32) then (out, AttestationTPM2_ParsePCRs)
  else ((fun i => take 32 (drop (32 * i) data)) <$> seq 0 24, OK).

(** A [Signature] is its 256 bytes. *)
Definition Signature_FromString (data : bytes) : option (bytes * Error) :=
  let bad := Some ([], AttestationTPM2_ParseSignature) in
  if negb (Zlen data =? 262) then bad else
  v ← read_at data 0 2; if negb (BigEndian16FromBytes v =? 20) then bad else
  v ← read_at data 2 2; if negb (BigEndian16FromBytes v =? 11) then bad else
  v ← read_at data 4 2; if negb (BigEndian16FromBytes v =? 256) then bad else
  sig ← read_at data 6 256;
  Some (sig, OK).

Definition VerifyReport (sig : bytes) (r : Report) (cert : X509) : Error :=
  match X509_get_pubkey cert with
  | None => AttestationTPM2_CryptoAllocate
  | Some pkey =>
      match EVP_PKEY_get0_RSA pkey with
      | None => AttestationTPM2_CertificateNotRSA
      | Some rsa => if negb (RSA_verify rsa (sha256 (data_ r)) sig) then AttestationTPM2_SignatureVerify else OK
      end
  end.
End quotes.

(** ** Reading stays within the data *)
Lemma read_at_in buf offset n : 0 <= offset -> offset + n <= Zlen buf ->
  read_at buf offset n = Some (take (Z.to_nat n) (drop (Z.to_nat offset) buf)).
Proof. intros H1 H2. unfold read_at. by rewrite (proj2 (Z.leb_le _ _) H1), (proj2 (Z.leb_le _ _) H2). Qed.

Lemma read_at_length buf offset n b : 0 <= n -> read_at buf offset n = Some b -> Zlen b = n.
Proof.
  unfold read_at. intros Hn H. destruct ((0 <=? offset) && (offset + n <=? Zlen buf)) eqn:E; [|done]. injection H as <-. zbool.
  unfold Zlen in *. rewrite length_take, length_drop. lia.
Qed.

(** A parser that stays within the data, and what it ensures. *)
Definition parses {A} (p : Parser A) (data : bytes) (d : Z) (Q : A -> Z -> Prop) : Prop :=
  match p data d with None => False | Some None => True | Some (Some (a, d')) => Q a d' end.

Lemma parses_bind {A B} (p : Parser A) (k : A -> Parser B) data d Q :
  parses p data d (fun a d' => parses (k a) data d' Q) -> parses (pbind p k) data d Q.
Proof. unfold parses, pbind. by destruct (p data d) as [[[]|]|]. Qed.
Lemma parses_need n data d (Q : unit -> Z -> Prop) : (d + n <= Zlen data -> Q tt d) -> parses (need n) data d Q.
Proof. intros H. unfold parses, need. destruct (Zlen data <? d + n) eqn:E; zbool; auto. Qed.
Lemma parses_require b data d (Q : unit -> Z -> Prop) : Q tt d -> parses (require b) data d Q.
Proof. intros H. unfold parses, require. by destruct b. Qed.
Lemma parses_position data d (Q : Z -> Z -> Prop) : Q d d -> parses position data d Q.
Proof. done. Qed.
Lemma parses_skip n data d (Q : unit -> Z -> Prop) : Q tt (d + n) -> parses (skip n) data d Q.
Proof. done. Qed.
Lemma parses_get n data d (Q : bytes -> Z -> Prop) : 0 <= d -> d + n <= Zlen data -> (forall b, Q b (d + n)) -> parses (get n) data d Q.
Proof. intros H1 H2 HQ. unfold parses, get. by rewrite read_at_in by done. Qed.
Lemma parses_end data d (Q : unit -> Z -> Prop) : (d = Zlen data -> Q tt d) -> parses at_end data d Q.
Proof. intros H. unfold parses, at_end. destruct (d =? Zlen data) eqn:E; zbool; auto. Qed.

Ltac parse_step :=
  lazymatch goal with
  | |- parses (pbind _ _) _ _ _ => apply parses_bind
  | |- parses (need _) _ _ _ => apply parses_need; intros ?
  | |- parses (require _) _ _ _ => apply parses_require
  | |- parses position _ _ _ => apply parses_position
  | |- parses (skip _) _ _ _ => apply parses_skip
  | |- parses (get _) _ _ _ => apply parses_get; [lia|lia|intros ?]
  | |- parses at_end _ _ _ => apply parses_end; intros ?
  end.

(** A quote that is accepted is 145 bytes long, with its parts in their places. *)
Definition quote_ok (r : Report) : Prop :=
  Zlen (data_ r) = 145 /\ key_offset_ r = 10 /\ nonce_offset_ r = 44 /\ pcr_digest_offset_ r = 113.

Lemma Report_Parse_ok data : parses (Report_Parse data) data 0 (fun r _ => data_ r = data /\ quote_ok r).
Proof.
  unfold Report_Parse, SHA256_SIZE, NONCE_SIZE. repeat parse_step. unfold parses, quote_ok. simpl. split; [done|]. lia.
Qed.

Lemma Report_FromString_ok data : exists r err, Report_FromString data = Some (r, err) /\ (err = OK -> data_ r = data /\ quote_ok r).
Proof.
  pose proof (Report_Parse_ok data) as H. unfold parses in H. unfold Report_FromString.
  destruct (Report_Parse data data 0) as [[[r d]|]|]; [|by eexists _, _|done]. exists r, OK. by split.
Qed.

Lemma Signature_FromString_ok data : exists sig err, Signature_FromString data = Some (sig, err).
Proof.
  unfold Signature_FromString. destruct (Zlen data =? 262) eqn:E; zbool; simpl; [|by eauto]. rewrite !read_at_in by lia. simpl.
  repeat (case_match; [by eauto|]). eauto.
Qed.
