(* ===== verification/Tpm2Snp.v ===== *)
(** * SEV-SNP with a virtual TPM (attestation/tpm2snp/tpm2snp.cc)

    AMD signs a report on the machine, which names the key of the TPM, which
    signs a quote of the measurements of the software and of the attested
    data.  JSON is parsed by RapidJSON, a parameter. *)
From Stdlib Require Import Strings.String.
From stdpp Require Import prelude.
From S2P Require Import Prelude Errors Containers Util Base64 RaftTypes PeerId Minimums GroupClock Msgs Attest Sev Tpm2.

(** ** tpm2snp.proto *)
Record ASNPEvidence := {
  attestation_data : bytes; pcrs : bytes; msg : bytes; sig : bytes; snp_report : bytes; runtime_data : bytes; akcert_der : bytes }.
Record ASNPEndorsements := { intermediate_der : bytes; asnp_vcek_der : bytes; asnp_ask_der : bytes }.

(** ** JSON *)
Inductive Json :=
  | JNull | JBool (b : bool) | JNumber (n : Z) | JString (s : bytes) | JArray (js : list Json) | JObject (ms : list (bytes * Json)).
Class JsonPlatform := { ParseJson : bytes -> option Json }.

(** A C string ends at the first zero byte. *)
Fixpoint c_str (s : bytes) : bytes := match s with [] => [] | c :: s' => if c =? 0 then [] else c :: c_str s' end.

(** [HasMember] and [operator[]] assert that the value is an object. *)
Definition member (j : Json) (name : string) : option (option Json) :=
  match j with
  | JObject ms => Some (snd <$> List.find (fun m => bool_decide (m.1 = str name)) ms)
  | _ => None
  end.
(** [HasMember(name) && j[name].IsString()], and the string. *)
Definition member_string (j : Json) (name : string) : option (option bytes) :=
  match member j name with
  | None => None
  | Some (Some (JString s)) => Some (Some (c_str s))
  | Some _ => Some None
  end.

Definition ASNP_BUFFER_MIN : Z := 1236.

Definition SNPReportBufferFromAzureBuffer (tpm2_buffer : bytes) : bytes * Error :=
  if Zlen tpm2_buffer <? ASNP_BUFFER_MIN then ([], AzureSNP_AzureBufferTooSmall)
  else (take 1184 (drop 32 tpm2_buffer), OK).

(** [strnlen] of what follows the report. *)
Definition RuntimeDataBufferFromAzureBuffer (tpm2_buffer : bytes) : bytes * Error :=
  if Zlen tpm2_buffer <? ASNP_BUFFER_MIN then ([], AzureSNP_AzureBufferTooSmall)
  else (c_str (drop 1236 tpm2_buffer), OK).

(** The registers that must agree. *)
Definition checked_pcrs : list nat := [2; 3; 4; 5; 7; 8; 9; 11; 12; 13; 14]%nat.

Definition CheckRemotePCRs (local remote : PCRs) : Error :=
  let equals := forallb (fun i => ct_equals (nth i local []) (nth i remote [])) checked_pcrs in
  if negb equals then AzureSNP_PCRMismatch else OK.

Section verification.
Context {CR : Crypto} {SL : SevLayout} {JP : JsonPlatform}.
Context (sev_roots : list X509) (ParseAttestationData : bytes -> option AttestationData).

(** The first key that is the TPM's. *)
Fixpoint find_key (keys : list Json) : option (option Json) :=
  match keys with
  | [] => Some None
  | j :: keys' =>
      kid ← member_string j "kid";
      if negb (bool_decide (kid = Some (str "HCLAkPub"))) then find_key keys' else
      kty ← member_string j "kty";
      if negb (bool_decide (kty = Some (str "RSA"))) then find_key keys' else
      Some (Some j)
  end.

(** The exponent and modulus, in Base64, of the TPM's key in the runtime data. *)
Definition runtime_key (data : bytes) : option (option (bytes * bytes)) :=
  match ParseJson (c_str data) with
  | None => Some None
  | Some doc =>
      keys ← member doc "keys";
      match keys with
      | Some (JArray (j :: js)) =>
          key ← find_key (j :: js);
          match key with
          | None => Some None
          | Some key =>
              e ← member_string key "e";
              match e with
              | None => Some None
              | Some rte =>
                  n ← member_string key "n";
                  match n with None => Some None | Some rtn => Some (Some (rte, rtn)) end
              end
          end
      | _ => Some None
      end
  end.

(** The bytes of an RSA certificate's exponent and modulus. *)
Definition cert_rsa (cert : X509) : option (bytes * bytes) :=
  match X509_get_pubkey cert with
  | None => None
  | Some pk =>
      match EVP_PKEY_get0_RSA pk with
      | None => None
      | Some rsa => match RSA_get0_e rsa, RSA_get0_n rsa with Some e, Some n => Some (e, n) | _, _ => None end
      end
  end.

Definition VerifyAKCert (ev : ASNPEvidence) (en : ASNPEndorsements) (now : UnixSecs) (roots_of_trust : list X509) : option Error :=
  match parse_x509 (akcert_der ev) with
  | None => Some AzureSNP_InvalidAKCert
  | Some akcert =>
  match parse_x509 (intermediate_der en) with
  | None => Some AzureSNP_InvalidAKCertIntermediate
  | Some intermediate =>
  if negb allocates then Some AzureSNP_CryptoAllocate else
  if negb (X509_verify_cert roots_of_trust akcert [intermediate] now) then Some AzureSNP_AKCertificateChainVerify else
  let sev_endorsements := {| vcek_der := asnp_vcek_der en; ask_der := asnp_ask_der en; ark_der := []; vlek_der := []; crl := [] |} in
  '(report, snperr) ← ReportFromVerifiedBuffer sev_roots (snp_report ev) sev_endorsements now;
  if negb (is_ok snperr) then Some snperr else
  same ← ConstantTimeEqualsBytes (sha256 (runtime_data ev)) (rp_report_data report) 32;
  if negb same then Some AzureSNP_ReportDataMismatch else
  key ← runtime_key (runtime_data ev);
  match key with
  | None => Some AzureSNP_RuntimeDataJSON
  | Some (rte, rtn) =>
      '(rte, err) ← B64DecodeInline rte B64URL;
      if negb (is_ok err) then Some err else
      '(rtn, err) ← B64DecodeInline rtn B64URL;
      if negb (is_ok err) then Some err else
      match cert_rsa akcert with
      | None => Some AzureSNP_AKCertPubKey
      | Some (ake, akn) => if negb (ct_equals rte ake) || negb (ct_equals rtn akn) then Some AzureSNP_AKCertMismatch else Some OK
      end
  end
  end end.

Definition AzureRuntimeDataFromCert (rsa_cert : X509) : bytes * Error :=
  match cert_rsa rsa_cert with
  | None => ([], AzureSNP_AKCertPubKey)
  | Some (ake, akn) =>
      let q := [34] in
      (str "{" ++ q ++ str "keys" ++ q ++ str ":[{" ++ q ++ str "kid" ++ q ++ str ":" ++ q ++ str "HCLAkPub" ++ q ++ str "," ++
       q ++ str "kty" ++ q ++ str ":" ++ q ++ str "RSA" ++ q ++ str "," ++ q ++ str "e" ++ q ++ str ":" ++ q ++
       Base64Encode ake B64URL false ++ q ++ str "," ++ q ++ str "n" ++ q ++ str ":" ++ q ++
       Base64Encode akn B64URL false ++ q ++ str "}]}", OK)
  end.

(** The nonce and the PCRs of the quote, on success. *)
Definition VerifyTPM2 (ev : ASNPEvidence) : option (bytes * PCRs * Error) :=
  '(sg, sigerr) ← Signature_FromString (sig ev);
  if negb (is_ok sigerr) then Some ([], [], sigerr) else
  '(m, msgerr) ← Report_FromString (msg ev);
  if negb (is_ok msgerr) then Some ([], [], msgerr) else
  let '(ps, err) := PCRsFromString (pcrs ev) [] in
  if negb (is_ok err) then Some ([], ps, err) else
  match parse_x509 (akcert_der ev) with
  | None => Some ([], ps, Env_ParseEvidence)
  | Some akcert =>
      let err := VerifyReport sg m akcert in
      if negb (is_ok err) then Some ([], ps, err) else
      err ← VerifyPCRs m ps;
      if negb (is_ok err) then Some ([], ps, err) else
      n ← nonce m;
      Some (n, ps, OK)
  end.

Definition CompleteVerification (ev : ASNPEvidence) (en : ASNPEndorsements) (now : UnixSecs) (roots_of_trust : list X509)
    (local_pcrs : PCRs) : option (AttestationData * Error) :=
  let out := AttestationData_default in
  err ← VerifyAKCert ev en now roots_of_trust;
  if negb (is_ok err) then Some (out, err) else
  '(n, ps, err) ← VerifyTPM2 ev;
  if negb (is_ok err) then Some (out, err) else
  let err := CheckRemotePCRs local_pcrs ps in
  if negb (is_ok err) then Some (out, err) else
  if negb (ct_equals (sha256 (attestation_data ev)) n) then Some (out, AzureSNP_AttestationDataHashMismatch) else
  match ParseAttestationData (attestation_data ev) with
  | None => Some (out, Env_ParseEvidence)
  | Some data => Some (data, OK)
  end.
End verification.
