(* ===== verification/Nitro.v ===== *)
(** * AWS Nitro attestation (attestation/nitro/nitro.cc)

    A COSE signature over an attestation document in CBOR.  TinyCBOR reads and
    writes CBOR; it is a parameter. *)
From Stdlib Require Import Strings.String.
From stdpp Require Import prelude gmap.
From S2P Require Import Prelude Errors Containers Util RaftTypes PeerId Minimums GroupClock Msgs Attest Sev.

(** ** TinyCBOR *)
Inductive CborType :=
  | CborTextStringType | CborByteStringType | CborIntegerType | CborNullType | CborArrayType | CborMapType | CborOtherType.
#[export] Instance CborType_eq_dec : EqDecision CborType.
Proof. solve_decision. Defined.

Class Cbor := {
  (** An iterator. *)
  CborValue : Type;
  cbor_parser_init : bytes -> option CborValue;
  cbor_value_get_type : CborValue -> CborType;
  cbor_value_get_string_length : CborValue -> option Z;
  (** The string, if the buffer is large enough, and the value after it. *)
  cbor_value_copy_string : CborValue -> Z -> option (bytes * CborValue);
  cbor_value_get_int64_checked : CborValue -> option Z;
  cbor_value_advance : CborValue -> option CborValue;
  cbor_value_get_array_length : CborValue -> option Z;
  cbor_value_enter_container : CborValue -> option CborValue;
  (** Of the container and the iterator in it. *)
  cbor_value_leave_container : CborValue -> CborValue -> option CborValue;
  cbor_value_at_end : CborValue -> bool;
  (** Encodings. *)
  cbor_encode_array : Z -> bytes;
  cbor_encode_text : bytes -> bytes;
  cbor_encode_bytes : bytes -> bytes }.

(** Every item that is read takes bytes of the input; an encoded item has a
    header of at most nine bytes. *)
Class CborLaws {CB : Cbor} := {
  cbor_left : CborValue -> nat;
  left_init : forall bs v, cbor_parser_init bs = Some v -> (cbor_left v <= length bs)%nat;
  left_copy : forall v n s v', cbor_value_copy_string v n = Some (s, v') -> (cbor_left v' < cbor_left v)%nat;
  left_advance : forall v v', cbor_value_advance v = Some v' -> (cbor_left v' < cbor_left v)%nat;
  left_enter : forall v v', cbor_value_enter_container v = Some v' -> (cbor_left v' <= cbor_left v)%nat;
  left_leave : forall v w v', cbor_value_leave_container v w = Some v' -> (cbor_left v' <= cbor_left w)%nat;
  array_size : forall n, Zlen (cbor_encode_array n) <= 9;
  text_size : forall s, Zlen (cbor_encode_text s) <= Zlen s + 9;
  bytes_size : forall s, Zlen (cbor_encode_bytes s) <= Zlen s + 9 }.

Definition allowable_time_skew_seconds : Z := 3600.
Definition COSE_SIGN1_NAME : bytes := str "Signature1".

Record CoseSign1 := { protected_header : bytes; payload : bytes; signature : bytes }.
Record AttestationDoc := {
  module_id : bytes; digest : bytes; timestamp : Z; doc_pcrs : gmap Z bytes; certificate : bytes; cabundle : list bytes;
  public_key : bytes; user_data : bytes; doc_nonce : bytes }.
Definition AttestationDoc_new : AttestationDoc := {|
  module_id := []; digest := []; timestamp := 0; doc_pcrs := ∅; certificate := []; cabundle := [];
  public_key := []; user_data := []; doc_nonce := [] |}.

(** A 64-bit integer as an [int]. *)
Definition int32 (z : Z) : Z := let w := u32 z in if w <? 2 ^ 31 then w else w - 2 ^ 32.

Section parsing.
Context {CB : Cbor}.

(** What was read and where to go on, or an error. *)
Notation read A := (A * CborValue + Error)%type.

Definition CborTextString (v : CborValue) : read bytes :=
  if negb (bool_decide (cbor_value_get_type v = CborTextStringType)) then inr AttestationNitro_CoseFormat else
  match cbor_value_get_string_length v with
  | Some size =>
      match cbor_value_copy_string v size with
      | Some (out, v') => if negb (Zlen out =? size) then inr AttestationNitro_CoseFormat else inl (out, v')
      | None => inr AttestationNitro_CoseFormat
      end
  | None => inr AttestationNitro_CoseFormat
  end.

Definition CborByteString (v : CborValue) : read bytes :=
  if bool_decide (cbor_value_get_type v = CborNullType) then
    match cbor_value_advance v with None => inr AttestationNitro_CoseFormat | Some v' => inl ([], v') end
  else
  if negb (bool_decide (cbor_value_get_type v = CborByteStringType)) then inr AttestationNitro_CoseFormat else
  match cbor_value_get_string_length v with
  | Some size =>
      match cbor_value_copy_string v size with
      | Some (out, v') => if negb (Zlen out =? size) then inr AttestationNitro_CoseFormat else inl (out, v')
      | None => inr AttestationNitro_CoseFormat
      end
  | None => inr AttestationNitro_CoseFormat
  end.

Definition CborInt (v : CborValue) : read Z :=
  if negb (bool_decide (cbor_value_get_type v = CborIntegerType)) then inr AttestationNitro_CoseFormat else
  match cbor_value_get_int64_checked v, cbor_value_advance v with
  | Some out, Some v' => inl (out, v')
  | _, _ => inr AttestationNitro_CoseFormat
  end.

(** ** [CoseSign1] *)

(** An error code as the [bool] that [Valid] returns. *)
Definition bool_of_error (e : Error) : bool := negb (is_ok e).

Definition CoseSign1_Valid (c : CoseSign1) : bool :=
  match cbor_parser_init (protected_header c) with
  | None => false
  | Some pheader_v =>
  if negb (bool_decide (cbor_value_get_type pheader_v = CborMapType)) then false else
  match cbor_value_enter_container pheader_v with
  | None => false
  | Some pheader_map =>
  match CborInt pheader_map with
  | inr err => bool_of_error err
  | inl (key, pheader_map) =>
  match CborInt pheader_map with
  | inr err => bool_of_error err
  | inl (val, pheader_map) =>
  if negb (cbor_value_at_end pheader_map) then false else
  if negb (key =? 1) || negb (val =? -35) then false else
  match cbor_value_leave_container pheader_v pheader_map with
  | None => false
  | Some _ =>
      if negb (cbor_value_at_end pheader_map) then false
      else (0 <? Zlen (payload c)) && (Zlen (signature c) =? 96)
  end end end end end.

Definition CoseSign1_ParseFromBytes (input : bytes) : CoseSign1 + Error :=
  match cbor_parser_init input with
  | None => inr AttestationNitro_CborError
  | Some array =>
  if negb (bool_decide (cbor_value_get_type array = CborArrayType)) ||
     negb (bool_decide (cbor_value_get_array_length array = Some 4)) then inr AttestationNitro_CoseFormat else
  match cbor_value_enter_container array with
  | None => inr AttestationNitro_CoseFormat
  | Some elts =>
  match CborByteString elts with
  | inr e => inr e
  | inl (pheader_bytes, elts) =>
  if negb (bool_decide (cbor_value_get_type elts = CborMapType)) then inr AttestationNitro_CoseFormat else
  match cbor_value_enter_container elts with
  | None => inr AttestationNitro_CoseFormat
  | Some uheader_map =>
  if negb (cbor_value_at_end uheader_map) then inr AttestationNitro_CoseFormat else
  match cbor_value_leave_container elts uheader_map with
  | None => inr AttestationNitro_CoseFormat
  | Some elts =>
  match CborByteString elts with
  | inr e => inr e
  | inl (payload, elts) =>
  match CborByteString elts with
  | inr e => inr e
  | inl (signature, elts) =>
      if negb (cbor_value_at_end elts) then inr AttestationNitro_CborError else
      let c := {| protected_header := pheader_bytes; payload := payload; signature := signature |} in
      if negb (CoseSign1_Valid c) then inr AttestationNitro_CoseFormat else inl c
  end end end end end end end.

(** The structure that is signed. *)
Definition SigningBytes (c : CoseSign1) : bytes + Error :=
  let size := Zlen (protected_header c) + Zlen (payload c) + (Zlen COSE_SIGN1_NAME + 1) + 128 in
  let buf := cbor_encode_array 4 ++ cbor_encode_text COSE_SIGN1_NAME ++ cbor_encode_bytes (protected_header c) ++
             cbor_encode_bytes [] ++ cbor_encode_bytes (payload c) in
  if size <? Zlen buf then inr AttestationNitro_CoseSignatureEncode else inl buf.
(** ** [AttestationDoc] *)

Definition pcr_size_ok (v : bytes) : bool := (Zlen v =? 32) || (Zlen v =? 48) || (Zlen v =? 64).
Definition cert_size_ok (c : bytes) : bool := (1 <=? Zlen c) && (Zlen c <=? 1024).

Definition AttestationDoc_Valid (d : AttestationDoc) : bool :=
  negb (Zlen (module_id d) =? 0) &&
  bool_decide (digest d = str "SHA384") &&
  (0 <? timestamp d) &&
  (1 <=? Z.of_nat (size (doc_pcrs d))) && (Z.of_nat (size (doc_pcrs d)) <=? 32) &&
  forallb (fun kv : Z * bytes => (0 <=? kv.1) && (kv.1 <? 32) && pcr_size_ok kv.2) (map_to_list (doc_pcrs d)) &&
  cert_size_ok (certificate d) &&
  forallb cert_size_ok (cabundle d) &&
  negb (Zlen (cabundle d) =? 0) &&
  (Zlen (public_key d) <=? 1024) &&
  (Zlen (user_data d) <=? 512) &&
  (Zlen (doc_nonce d) <=? 512).

(** The loop over [pcrs]; [None] is out of fuel. *)
Fixpoint pcrs_loop (fuel : nat) (m : CborValue) (ps : gmap Z bytes) : option (read (gmap Z bytes)) :=
  match fuel with
  | O => None
  | S fuel' =>
      if cbor_value_at_end m then Some (inl (ps, m)) else
      match CborInt m with
      | inr e => Some (inr e)
      | inl (key, m) =>
          match CborByteString m with
          | inr e => Some (inr e)
          | inl (val, m) => pcrs_loop fuel' m (<[int32 key := val]> ps)
          end
      end
  end.

(** The loop over [cabundle]. *)
Fixpoint cabundle_loop (fuel : nat) (a : CborValue) (cs : list bytes) : option (read (list bytes)) :=
  match fuel with
  | O => None
  | S fuel' =>
      if cbor_value_at_end a then Some (inl (cs, a)) else
      match CborByteString a with
      | inr e => Some (inr e)
      | inl (val, a) => cabundle_loop fuel' a (cs ++ [val])
      end
  end.

(** A container that a loop reads, entered and left. *)
Definition container {A} (ty : CborType) (loop : CborValue -> option (read A)) (v : CborValue) : option (read A) :=
  if negb (bool_decide (cbor_value_get_type v = ty)) then Some (inr AttestationNitro_AttestationParse) else
  match cbor_value_enter_container v with
  | None => Some (inr AttestationNitro_CborError)
  | Some w =>
      match loop w with
      | None => None
      | Some (inr e) => Some (inr e)
      | Some (inl (x, w)) =>
          match cbor_value_leave_container v w with
          | None => Some (inr AttestationNitro_CborError)
          | Some v' => Some (inl (x, v'))
          end
      end
  end.

Definition with_read {A} (f : A -> AttestationDoc) (r : read A) : read AttestationDoc :=
  match r with inl (x, v) => inl (f x, v) | inr e => inr e end.

(** One value of the document, by its key. *)
Definition doc_field (fuel : nat) (key : bytes) (v : CborValue) (d : AttestationDoc) : option (read AttestationDoc) :=
  if bool_decide (key = str "module_id") then Some (with_read (fun x => {| d with module_id := x |}) (CborTextString v)) else
  if bool_decide (key = str "digest") then Some (with_read (fun x => {| d with digest := x |}) (CborTextString v)) else
  if bool_decide (key = str "certificate") then Some (with_read (fun x => {| d with certificate := x |}) (CborByteString v)) else
  if bool_decide (key = str "public_key") then Some (with_read (fun x => {| d with public_key := x |}) (CborByteString v)) else
  if bool_decide (key = str "user_data") then Some (with_read (fun x => {| d with user_data := x |}) (CborByteString v)) else
  if bool_decide (key = str "nonce") then Some (with_read (fun x => {| d with doc_nonce := x |}) (CborByteString v)) else
  if bool_decide (key = str "pcrs") then
    option_map (with_read (fun x => {| d with doc_pcrs := x |})) (container CborMapType (fun w => pcrs_loop fuel w (doc_pcrs d)) v) else
  if bool_decide (key = str "cabundle") then
    option_map (with_read (fun x => {| d with cabundle := x |})) (container CborArrayType (fun w => cabundle_loop fuel w (cabundle d)) v) else
  if bool_decide (key = str "timestamp") then Some (with_read (fun x => {| d with timestamp := x |}) (CborInt v)) else
  Some (inr AttestationNitro_AttestationParse).

Fixpoint doc_loop (fuel : nat) (v : CborValue) (d : AttestationDoc) : option (AttestationDoc + Error) :=
  match fuel with
  | O => None
  | S fuel' =>
      if cbor_value_at_end v then Some (inl d) else
      match CborTextString v with
      | inr e => Some (inr e)
      | inl (key, v) =>
          match doc_field fuel' key v d with
          | None => None
          | Some (inr e) => Some (inr e)
          | Some (inl (d, v)) => doc_loop fuel' v d
          end
      end
  end.

(** Every iteration takes at least a byte of the input. *)
Definition AttestationDoc_ParseFromBytes (input : bytes) : option (AttestationDoc + Error) :=
  match cbor_parser_init input with
  | None => Some (inr AttestationNitro_AttestationParse)
  | Some payload_v =>
  if negb (bool_decide (cbor_value_get_type payload_v = CborMapType)) then Some (inr AttestationNitro_AttestationParse) else
  match cbor_value_enter_container payload_v with
  | None => Some (inr AttestationNitro_CborError)
  | Some payload =>
      match doc_loop (S (length input)) payload AttestationDoc_new with
      | None => None
      | Some (inr e) => Some (inr e)
      | Some (inl d) => if negb (AttestationDoc_Valid d) then Some (inr AttestationNitro_AttestationParse) else Some (inl d)
      end
  end end.
End parsing.

(** ** Certificates and the signature *)
Section verification.
Context {CB : Cbor} {CR : Crypto}.
Context (roots_of_trust : list X509).

(** A certificate that takes all of its bytes. *)
Definition whole_certificate (der : bytes) : X509 + Error :=
  match d2i_X509 der with
  | None => inr AttestationNitro_CertificateDecode
  | Some (cert, used) => if negb (used =? Zlen der) then inr AttestationNitro_CertificateDecode else inl cert
  end.

Definition Certificate (d : AttestationDoc) : X509 + Error := whole_certificate (certificate d).

Fixpoint bundle_loop (ders : list bytes) (stack : list X509) : list X509 + Error :=
  match ders with
  | [] => inl stack
  | der :: ders' =>
      match whole_certificate der with
      | inr e => inr e
      | inl parsed => if negb allocates then inr AttestationNitro_CryptoAllocate else bundle_loop ders' (stack ++ [parsed])
      end
  end.

Definition CABundle (d : AttestationDoc) : list X509 + Error :=
  if negb allocates then inr AttestationNitro_CryptoAllocate else bundle_loop (cabundle d) [].

Definition times (now : UnixSecs) : list Z := [now + allowable_time_skew_seconds; now; now - allowable_time_skew_seconds].

Definition Verify (d : AttestationDoc) (from : CoseSign1) (now : UnixSecs) : Error :=
  match Certificate d with
  | inr e => e
  | inl cert =>
  match CABundle d with
  | inr e => e
  | inl bundle =>
  match SigningBytes from with
  | inr e => e
  | inl data_to_verify =>
  if negb allocates then AttestationNitro_CryptoAllocate else
  if negb (existsb (X509_verify_cert roots_of_trust cert bundle) (times now)) then AttestationNitro_CertificateChainVerify else
  match X509_get_pubkey cert with
  | None => AttestationNitro_CryptoAllocate
  | Some pkey =>
  let md := sha384 data_to_verify in
  if negb (Zlen md =? 48) then AttestationNitro_CryptoMessageDigest else
  if negb (Zlen (signature from) =? 48 * 2) then AttestationNitro_CoseFormat else
  match EVP_PKEY_get0_EC_KEY pkey with
  | None => AttestationNitro_CertificateNotEC
  | Some ec_key =>
      if negb (ECDSA_do_verify ec_key md (take 48 (signature from)) (drop 48 (signature from)))
      then AttestationNitro_CoseSignatureVerify else OK
  end end end end end.
End verification.

(** ** The Nitro environment's check of a peer (env/nsm/nsm.cc) *)
Definition PCRMatches (local remotes : gmap Z bytes) (index : Z) : bool :=
  match local !! index with
  | None => false
  | Some l => match remotes !! index with None => false | Some r => ct_equals l r end
  end.
Definition PCRsMatch (local remotes : gmap Z bytes) : bool :=
  PCRMatches local remotes 0 && PCRMatches local remotes 1 && PCRMatches local remotes 2.

(** [Attest] of an environment that is not simulated; [None] is out of fuel. *)
Definition Nsm_Attest `{Cbor, Crypto} (roots : list X509) (ParseAttestationData : bytes -> option AttestationData)
    (local_pcrs : gmap Z bytes) (now : UnixSecs) (evidence : bytes) : option (AttestationData * Error) :=
  let fails := Some (AttestationData_default, Env_AttestationFailure) in
  match CoseSign1_ParseFromBytes evidence with
  | inr _ => fails
  | inl cose =>
      match AttestationDoc_ParseFromBytes (payload cose) with
      | None => None
      | Some (inr _) => fails
      | Some (inl doc) =>
          if negb (is_ok (Verify roots doc cose now)) then fails else
          if negb (PCRsMatch local_pcrs (doc_pcrs doc)) then fails else
          match ParseAttestationData (user_data doc) with None => fails | Some out => Some (out, OK) end
      end
  end.

(** ** The loops end *)
Section termination.
Context `{CBL : CborLaws}.

Lemma CborByteString_left v s v' : CborByteString v = inl (s, v') -> (cbor_left v' < cbor_left v)%nat.
Proof.
  unfold CborByteString. intros H. repeat case_match; simplify_eq; eauto using left_advance, left_copy.
Qed.
Lemma CborTextString_left v s v' : CborTextString v = inl (s, v') -> (cbor_left v' < cbor_left v)%nat.
Proof. unfold CborTextString. intros H. repeat case_match; simplify_eq; eauto using left_copy. Qed.
Lemma CborInt_left v z v' : CborInt v = inl (z, v') -> (cbor_left v' < cbor_left v)%nat.
Proof. unfold CborInt. intros H. repeat case_match; simplify_eq; eauto using left_advance. Qed.

(** With fuel for the bytes that are left, a loop returns, at most where it began. *)
Definition returns {A} (v : CborValue) (o : option (A * CborValue + Error)) : Prop :=
  exists r, o = Some r /\ forall x v', r = inl (x, v') -> (cbor_left v' <= cbor_left v)%nat.

Lemma returns_error {A} v e : @returns A v (Some (inr e)).
Proof. eexists. split; [done|]. intros. simplify_eq. Qed.
Lemma returns_weaken {A} v w (o : option (A * CborValue + Error)) :
  (cbor_left w <= cbor_left v)%nat -> returns w o -> returns v o.
Proof. intros Hle (r & -> & Hr). exists r. split; [done|]. intros x v' ->. specialize (Hr x v' eq_refl). lia. Qed.

Lemma pcrs_loop_returns fuel m ps : (cbor_left m < fuel)%nat -> returns m (pcrs_loop fuel m ps).
Proof.
  revert m ps. induction fuel as [|fuel IH]; intros m ps Hm; [lia|]. cbn [pcrs_loop].
  case_match; [eexists; split; [done|]; intros; simplify_eq; lia|].
  destruct (CborInt m) as [[key m1]|e] eqn:H1; [|apply returns_error].
  destruct (CborByteString m1) as [[val m2]|e] eqn:H2; [|apply returns_error].
  apply CborInt_left in H1. apply CborByteString_left in H2.
  eapply returns_weaken; [|apply IH]; lia.
Qed.
Lemma cabundle_loop_returns fuel a cs : (cbor_left a < fuel)%nat -> returns a (cabundle_loop fuel a cs).
Proof.
  revert a cs. induction fuel as [|fuel IH]; intros a cs Ha; [lia|]. cbn [cabundle_loop].
  case_match; [eexists; split; [done|]; intros; simplify_eq; lia|].
  destruct (CborByteString a) as [[val a1]|e] eqn:H1; [|apply returns_error].
  apply CborByteString_left in H1. eapply returns_weaken; [|apply IH]; lia.
Qed.
Lemma container_returns {A} ty loop v :
  (forall w, (cbor_left w <= cbor_left v)%nat -> @returns A w (loop w)) -> returns v (container ty loop v).
Proof.
  intros Hl. unfold container. case_match; [apply returns_error|].
  destruct (cbor_value_enter_container v) as [w|] eqn:He; [|apply returns_error].
  apply left_enter in He. destruct (Hl w He) as ([[x w']|e] & -> & Hr); [|apply returns_error].
  specialize (Hr x w' eq_refl).
  destruct (cbor_value_leave_container v w') as [v'|] eqn:Hv; [|apply returns_error].
  apply left_leave in Hv. eexists. split; [done|]. intros. simplify_eq. lia.
Qed.
End termination.
