(* ===== verification/AttestProps.v ===== *)
(** * Properties of attestation

    What an accepted document of Nitro and an accepted report of SEV-SNP, alone
    or with a TPM, prove.

    ** An instance of the cryptography, for examples

    A certificate is its bytes and is its own key; digests truncate, and a
    signature begins with the digest it signs. *)
From Stdlib Require Import Strings.String.
From stdpp Require Import prelude gmap.
From S2P Require Import Prelude Errors Containers Util RaftTypes PeerId Base64 Minimums GroupClock Msgs Attest Sev Tpm2 Tpm2Snp Nitro.

Definition toy_digest (n : nat) (bs : bytes) : bytes := take n (bs ++ replicate n 0).

#[export] Instance ToyCrypto : Crypto := {|
  X509 := bytes; EVP_PKEY := bytes; EC_KEY := bytes; RSA := bytes;
  d2i_X509 := fun der => match der with [] => None | _ => Some (der, Zlen der) end;
  X509_get_pubkey := fun c => Some c;
  EVP_PKEY_get0_EC_KEY := fun k => Some k;
  EVP_PKEY_get0_RSA := fun k => Some k;
  RSA_get0_e := fun _ => Some [1; 0; 1];
  RSA_get0_n := fun k => Some k;
  X509_verify_cert := fun roots _ chain t => existsb (fun c => bool_decide (c ∈ roots)) chain && (0 <=? t);
  sha256 := toy_digest 32;
  sha384 := toy_digest 48;
  ECDSA_do_verify := fun _ md r _ => bool_decide (r = md);
  RSA_verify := fun _ md s => bool_decide (take 32 s = md);
  allocates := true |}.

(** * What a Nitro attestation that is accepted shows *)

(** ** Parsing returns *)
Section totality.
Context `{CBL : CborLaws}.

Lemma with_read_returns {A} (f : A -> AttestationDoc) v r :
  (forall x v', r = inl (x, v') -> (cbor_left v' < cbor_left v)%nat) -> returns v (Some (with_read f r)).
Proof.
  intros Hr. eexists. split; [done|]. intros x v' H. destruct r as [[y w]|e]; cbn in H; simplify_eq.
  specialize (Hr y v' eq_refl). lia.
Qed.
Lemma option_map_returns {A} (f : A -> AttestationDoc) v o : returns v o -> returns v (option_map (with_read f) o).
Proof.
  intros (r & -> & Hr). eexists. split; [done|]. intros x v' H. destruct r as [[y w]|e]; cbn in H; simplify_eq. eauto.
Qed.

Lemma doc_field_returns fuel key v d : (cbor_left v < fuel)%nat -> returns v (doc_field fuel key v d).
Proof.
  intros Hv. unfold doc_field.
  repeat case_match; try (apply with_read_returns; eauto using CborTextString_left, CborByteString_left, CborInt_left).
  - apply option_map_returns, container_returns. intros w Hw. apply pcrs_loop_returns. lia.
  - apply option_map_returns, container_returns. intros w Hw. apply cabundle_loop_returns. lia.
  - apply returns_error.
Qed.

Lemma doc_loop_returns fuel v d : (cbor_left v < fuel)%nat -> exists r, doc_loop fuel v d = Some r.
Proof.
  revert v d. induction fuel as [|fuel IH]; intros v d Hv; [lia|]. cbn [doc_loop].
  case_match; [by eexists|].
  destruct (CborTextString v) as [[key v1]|e] eqn:H1; [|by eexists].
  apply CborTextString_left in H1.
  destruct (doc_field_returns fuel key v1 d) as ([[d' v2]|e] & -> & Hr); [lia| |by eexists].
  specialize (Hr d' v2 eq_refl). apply IH. lia.
Qed.

Lemma ParseFromBytes_returns input : exists r, AttestationDoc_ParseFromBytes input = Some r.
Proof.
  unfold AttestationDoc_ParseFromBytes.
  destruct (cbor_parser_init input) as [v|] eqn:Hi; [|by eexists].
  case_match; [by eexists|].
  destruct (cbor_value_enter_container v) as [w|] eqn:He; [|by eexists].
  apply left_init in Hi. apply left_enter in He.
  destruct (doc_loop_returns (S (length input)) w AttestationDoc_new) as [[d|e] ->]; [lia| |by eexists].
  case_match; by eexists.
Qed.

Lemma SigningBytes_fits c : exists buf, SigningBytes c = inl buf.
Proof.
  unfold SigningBytes. case_match eqn:Hlt; [|by eexists]. exfalso. zbool.
  revert Hlt. unfold Zlen. rewrite !length_app.
  pose proof (array_size 4) as H1. pose proof (text_size COSE_SIGN1_NAME) as H2.
  pose proof (bytes_size (protected_header c)) as H3. pose proof (bytes_size []) as H4. pose proof (bytes_size (payload c)) as H5.
  unfold Zlen in *. cbn [length] in *. lia.
Qed.

(** The checks of a Nitro attestation always return: the loops over the
    document, its PCRs and its certificates end on every input, since each
    iteration takes bytes of it, and the buffer for the signed structure is
    always large enough. *)
Theorem nitro_attest_returns `{Crypto} roots parse local now evidence :
  (exists r, Nsm_Attest roots parse local now evidence = Some r) /\
  forall c, exists buf, SigningBytes c = inl buf.
Proof.
  split; [|apply SigningBytes_fits]. unfold Nsm_Attest.
  destruct (CoseSign1_ParseFromBytes evidence) as [cose|e]; [|by eexists].
  destruct (ParseFromBytes_returns (payload cose)) as [[d|e] ->]; [|by eexists].
  repeat case_match; by eexists.
Qed.
End totality.

(** ** Soundness *)
Section soundness.
Context `{Cbor, Crypto}.

Lemma bundle_loop_all ders stack certs :
  bundle_loop ders stack = inl certs ->
  exists new, certs = stack ++ new /\ Forall2 (fun der c => whole_certificate der = inl c) ders new.
Proof.
  revert stack. induction ders as [|der ders IH]; intros stack Hb; cbn in Hb.
  - simplify_eq. exists []. by rewrite app_nil_r.
  - destruct (whole_certificate der) as [c|e] eqn:Hc; [|done]. case_match; [done|].
    apply IH in Hb as (new & -> & Hall). exists (c :: new). split; [by rewrite <-app_assoc|by constructor].
Qed.

(** The certificate chains to a root within the allowed skew, and its key signed the structure. *)
Definition nitro_signed (roots : list X509) (d : AttestationDoc) (from : CoseSign1) (now : Z) : Prop :=
  exists cert bundle t pkey ec buf,
    whole_certificate (certificate d) = inl cert /\
    Forall2 (fun der c => whole_certificate der = inl c) (cabundle d) bundle /\
    now - 3600 <= t <= now + 3600 /\ X509_verify_cert roots cert bundle t = true /\
    X509_get_pubkey cert = Some pkey /\ EVP_PKEY_get0_EC_KEY pkey = Some ec /\
    SigningBytes from = inl buf /\ Zlen (signature from) = 96 /\
    ECDSA_do_verify ec (sha384 buf) (take 48 (signature from)) (drop 48 (signature from)) = true.

Lemma Verify_signed roots d from now : Verify roots d from now = OK -> nitro_signed roots d from now.
Proof.
  unfold Verify, Certificate, CABundle. intros HV.
  destruct (whole_certificate (certificate d)) as [cert|e] eqn:Hc.
  2:{ subst e. exfalso. revert Hc. unfold whole_certificate. repeat case_match; congruence. }
  destruct allocates eqn:Hal; cbn [negb] in HV; [|done].
  destruct (bundle_loop (cabundle d) []) as [bundle|e] eqn:Hb.
  2:{ subst e. exfalso. revert Hb. generalize (@nil X509). induction (cabundle d) as [|x l IH]; intros st; cbn; [done|].
      unfold whole_certificate. repeat case_match; try congruence; apply IH. }
  destruct (SigningBytes from) as [buf|e] eqn:Hs.
  2:{ subst e. exfalso. revert Hs. unfold SigningBytes. case_match; congruence. }
  destruct (existsb _ _) eqn:He; cbn [negb] in HV; [|done].
  destruct (X509_get_pubkey cert) as [pkey|] eqn:Hk; [|done].
  destruct (Zlen (sha384 buf) =? 48); cbn [negb] in HV; [|done].
  destruct (Zlen (signature from) =? 48 * 2) eqn:Hl; cbn [negb] in HV; [|done].
  destruct (EVP_PKEY_get0_EC_KEY pkey) as [ec|] eqn:Hec; [|done].
  destruct (ECDSA_do_verify _ _ _ _) eqn:Hd; cbn [negb] in HV; [|done].
  apply existsb_exists in He as (t & Ht & Hv).
  apply bundle_loop_all in Hb as (new & -> & Hall). cbn [app] in *.
  exists cert, new, t, pkey, ec, buf. repeat split; try done; try (zbool; lia).
  all: unfold times, allowable_time_skew_seconds in Ht; cbn in Ht; intuition lia.
Qed.
End soundness.

(** ** An instance: definite-length CBOR *)

(** A header: the major type, the argument and what follows. *)
Definition cbor_head (bs : bytes) : option (Z * Z * bytes) :=
  match bs with
  | [] => None
  | b :: r =>
      let ai := b mod 32 in
      if ai <? 24 then Some (b / 32, ai, r) else
      match r with
      | x :: r1 =>
          if ai =? 24 then Some (b / 32, x, r1) else
          match r1 with
          | y :: r2 => if ai =? 25 then Some (b / 32, x * 256 + y, r2) else None
          | [] => None
          end
      | [] => None
      end
  end.

(** An iterator: the items left in the container and the input from here on. *)
Record CborIter := { items : Z; input : bytes }.
Definition cbor_next (v : CborIter) (rest : bytes) : CborIter := {| items := items v - 1; input := rest |}.

Definition iter_type (v : CborIter) : CborType :=
  match cbor_head (input v) with
  | Some (m, a, _) =>
      if (m =? 0) || (m =? 1) then CborIntegerType else if m =? 2 then CborByteStringType else if m =? 3 then CborTextStringType else
      if m =? 4 then CborArrayType else if m =? 5 then CborMapType else if (m =? 7) && (a =? 22) then CborNullType else CborOtherType
  | None => CborOtherType
  end.
Definition iter_scalar (v : CborIter) : option CborIter :=
  match cbor_head (input v) with
  | Some (m, _, r) => if (m =? 0) || (m =? 1) || (m =? 7) then Some (cbor_next v r) else None
  | None => None
  end.
Definition iter_copy (v : CborIter) (n : Z) : option (bytes * CborIter) :=
  match cbor_head (input v) with
  | Some (m, a, r) =>
      if ((m =? 2) || (m =? 3)) && (a <=? n) && (a <=? Zlen r)
      then Some (take (Z.to_nat a) r, cbor_next v (drop (Z.to_nat a) r)) else None
  | None => None
  end.
Definition iter_enter (v : CborIter) : option CborIter :=
  match cbor_head (input v) with
  | Some (m, a, r) => if m =? 4 then Some {| items := a; input := r |} else if m =? 5 then Some {| items := 2 * a; input := r |} else None
  | None => None
  end.
Definition cbor_header (m n : Z) : bytes :=
  if n <? 24 then [m * 32 + n] else if n <? 256 then [m * 32 + 24; n] else [m * 32 + 25; n / 256; n mod 256].

#[local] Instance IterCbor : Cbor := {|
  CborValue := CborIter;
  cbor_parser_init := fun bs => match bs with [] => None | _ => Some {| items := 1; input := bs |} end;
  cbor_value_get_type := iter_type;
  cbor_value_get_string_length := fun v => match cbor_head (input v) with Some (_, a, _) => Some a | None => None end;
  cbor_value_copy_string := iter_copy;
  cbor_value_get_int64_checked := fun v =>
    match cbor_head (input v) with Some (m, a, _) => Some (if m =? 1 then -1 - a else a) | None => None end;
  cbor_value_advance := iter_scalar;
  cbor_value_get_array_length := fun v => match cbor_head (input v) with Some (_, a, _) => Some a | None => None end;
  cbor_value_enter_container := iter_enter;
  cbor_value_leave_container := fun v w => Some (cbor_next v (input w));
  cbor_value_at_end := fun v => items v <=? 0;
  cbor_encode_array := cbor_header 4;
  cbor_encode_text := fun s => cbor_header 3 (Zlen s) ++ s;
  cbor_encode_bytes := fun s => cbor_header 2 (Zlen s) ++ s |}.

Lemma cbor_head_length bs m a r : cbor_head bs = Some (m, a, r) -> (length r < length bs)%nat.
Proof. unfold cbor_head. intros H. repeat case_match; simplify_eq; cbn; lia. Qed.
Lemma cbor_header_size m n : Zlen (cbor_header m n) <= 3.
Proof. unfold cbor_header, Zlen. repeat case_match; cbn; lia. Qed.

#[local] Instance IterCborLaws : CborLaws.
Proof.
  refine {| cbor_left := fun v : CborValue => length (input v) |}; cbn.
  - intros bs v Hv. destruct bs; simplify_eq. cbn. lia.
  - unfold iter_copy. intros v n s v' Hv. destruct (cbor_head (input v)) as [[[m a] r]|] eqn:Hh; [|done].
    apply cbor_head_length in Hh. case_match; simplify_eq. cbn. rewrite length_drop. lia.
  - unfold iter_scalar. intros v v' Hv. destruct (cbor_head (input v)) as [[[m a] r]|] eqn:Hh; [|done].
    apply cbor_head_length in Hh. case_match; simplify_eq. cbn. lia.
  - unfold iter_enter. intros v v' Hv. destruct (cbor_head (input v)) as [[[m a] r]|] eqn:Hh; [|done].
    apply cbor_head_length in Hh. repeat case_match; simplify_eq; cbn; lia.
  - intros v w v' [= <-]. cbn. lia.
  - intros n. pose proof (cbor_header_size 4 n). lia.
  - intros s. unfold Zlen. rewrite length_app. pose proof (cbor_header_size 3 (Zlen s)). unfold Zlen in *. lia.
  - intros s. unfold Zlen. rewrite length_app. pose proof (cbor_header_size 2 (Zlen s)). unfold Zlen in *. lia.
Defined.

(** ** Acceptance *)
Lemma PCRMatches_eq local remotes i :
  PCRMatches local remotes i = true <-> exists v, local !! i = Some v /\ remotes !! i = Some v.
Proof.
  unfold PCRMatches. destruct (local !! i) as [l|], (remotes !! i) as [r|]; try (split; [done|by intros (? & ? & ?)]).
  rewrite ct_equals_eq, bool_decide_eq_true. split; [intros ->; eauto|by intros (v & [= ->] & [= ->])].
Qed.

Lemma ParseFromBytes_valid `{Cbor} input d : AttestationDoc_ParseFromBytes input = Some (inl d) -> AttestationDoc_Valid d = true.
Proof. unfold AttestationDoc_ParseFromBytes. intros Hp. repeat case_match; simplify_eq. by apply negb_false_iff. Qed.

(** What is accepted, for the theorem below and for its uses. *)
Lemma Nsm_Attest_spec `{Cbor, Crypto} roots parse local now evidence data :
  Nsm_Attest roots parse local now evidence = Some (data, OK) ->
  exists cose doc,
    CoseSign1_ParseFromBytes evidence = inl cose /\
    AttestationDoc_ParseFromBytes (payload cose) = Some (inl doc) /\ AttestationDoc_Valid doc = true /\
    nitro_signed roots doc cose now /\
    (forall i, i ∈ [0; 1; 2] -> exists v, local !! i = Some v /\ doc_pcrs doc !! i = Some v) /\
    parse (user_data doc) = Some data.
Proof.
  unfold Nsm_Attest. intros HA.
  destruct (CoseSign1_ParseFromBytes evidence) as [cose|e]; [|done].
  destruct (AttestationDoc_ParseFromBytes (payload cose)) as [[doc|e]|] eqn:Hd; [|done..].
  destruct (is_ok (Verify roots doc cose now)) eqn:HV; cbn [negb] in HA; [|done].
  destruct (PCRsMatch local (doc_pcrs doc)) eqn:HP; cbn [negb] in HA; [|done].
  destruct (parse (user_data doc)) as [out|] eqn:Ho; [|done]. simplify_eq.
  apply is_ok_spec in HV. apply Verify_signed in HV.
  unfold PCRsMatch in HP. rewrite !andb_true_iff, !PCRMatches_eq in HP. destruct HP as [[HP0 HP1] HP2].
  exists cose, doc. split_and!; eauto using ParseFromBytes_valid.
  intros i Hi. set_unfold in Hi. by destruct Hi as [->|[->|[->|[]]]].
Qed.

(** C17: A Nitro peer is accepted only if the evidence is a COSE structure
    whose payload is a valid document with a certificate that chains, through
    the document's bundle, to a trusted root at a time within an hour of now,
    the key of that certificate signed the structure, the PCRs 0, 1 and 2 are
    present and equal to our own, and the data handed on is what the signed
    document carries as user data. *)
Theorem nitro_attest_sound `{Cbor, Crypto} roots parse local now evidence data :
  Nsm_Attest roots parse local now evidence = Some (data, OK) ->
  exists cose doc,
    CoseSign1_ParseFromBytes evidence = inl cose /\
    AttestationDoc_ParseFromBytes (payload cose) = Some (inl doc) /\ AttestationDoc_Valid doc = true /\
    nitro_signed roots doc cose now /\
    (forall i, i ∈ [0; 1; 2] -> exists v, local !! i = Some v /\ doc_pcrs doc !! i = Some v) /\
    parse (user_data doc) = Some data.
Proof. apply Nsm_Attest_spec. Qed.

(** A document and its signature. *)
Module NitroExample.
Definition roots : list (@X509 ToyCrypto) := [[9]].
Definition text (s : string) : bytes := cbor_encode_text (str s).
Definition local_pcrs : gmap Z bytes :=
  <[0 := replicate 48 1]> (<[1 := replicate 48 2]> (<[2 := replicate 48 3]> ∅)).
Definition document : bytes :=
  cbor_header 5 6 ++
  text "module_id" ++ text "i-1" ++
  text "digest" ++ text "SHA384" ++
  text "timestamp" ++ cbor_header 0 1000 ++
  text "pcrs" ++ cbor_header 5 3 ++
    cbor_header 0 0 ++ cbor_encode_bytes (replicate 48 1) ++ cbor_header 0 1 ++ cbor_encode_bytes (replicate 48 2) ++
    cbor_header 0 2 ++ cbor_encode_bytes (replicate 48 3) ++
  text "certificate" ++ cbor_encode_bytes [7; 7] ++
  text "cabundle" ++ cbor_header 4 1 ++ cbor_encode_bytes [9].
(** Algorithm (1) is ECDSA with SHA-384 (-35). *)
Definition header : bytes := [161; 1; 56; 34].
Definition signed : bytes :=
  match SigningBytes {| protected_header := header; payload := document; signature := [] |} with inl b => b | inr _ => [] end.
Definition evidence : bytes :=
  cbor_header 4 4 ++ cbor_encode_bytes header ++ [160] ++ cbor_encode_bytes document ++
  cbor_encode_bytes (toy_digest 48 signed ++ replicate 48 0).
Definition parse (bs : bytes) : option AttestationData := Some AttestationData_default.
End NitroExample.

Lemma nitro_attest_returns_witness :
  exists r, Nsm_Attest NitroExample.roots NitroExample.parse NitroExample.local_pcrs 5000 NitroExample.evidence = Some r.
Proof. exact (proj1 (nitro_attest_returns NitroExample.roots NitroExample.parse NitroExample.local_pcrs 5000 NitroExample.evidence)). Defined.

Lemma nitro_attest_sound_witness :
  exists cose doc, CoseSign1_ParseFromBytes NitroExample.evidence = inl cose /\
    AttestationDoc_ParseFromBytes (payload cose) = Some (inl doc) /\ nitro_signed NitroExample.roots doc cose 5000.
Proof.
  destruct (nitro_attest_sound NitroExample.roots NitroExample.parse NitroExample.local_pcrs 5000 NitroExample.evidence AttestationData_default)
    as (cose & doc & H1 & H2 & _ & H3 & _).
  - vm_compute. reflexivity.
  - exists cose, doc. exact (conj H1 (conj H2 H3)).
Defined.

(** * What SEV-SNP and TPM2 attestations that are accepted show *)

(** ** SEV-SNP with a virtual TPM *)
Section snp.
Context {CR : Crypto} {SL : SevLayout} {LW : SevLaws} {JP : JsonPlatform}.
Context (sha256_size : forall bs, length (sha256 bs) = 32%nat).
Context (sev_roots : list X509) (parse : bytes -> option AttestationData).

(** The certificate of the TPM's key: the cloud's root vouches for it, and a
    report that AMD's key signed names the same key. *)
Definition ak_trusted (roots : list X509) (ev : ASNPEvidence) (en : ASNPEndorsements) (now : UnixSecs) (akcert : X509) : Prop :=
  (exists intermediate, parse_x509 (intermediate_der en) = Some intermediate /\ X509_verify_cert roots akcert [intermediate] now = true) /\
  exists report, report = take sizeof_report (snp_report ev) /\
    sev_signed sev_roots {| vcek_der := asnp_vcek_der en; ask_der := asnp_ask_der en; ark_der := []; vlek_der := []; crl := [] |} now report /\
    take 32 (rp_report_data report) = sha256 (runtime_data ev) /\
    exists rte rtn e n, runtime_key (runtime_data ev) = Some (Some (rte, rtn)) /\
      B64DecodeInline rte B64URL = Some (e, OK) /\ B64DecodeInline rtn B64URL = Some (n, OK) /\ cert_rsa akcert = Some (e, n).

Lemma constant_time_prefix a b n : length a = n -> (n <= length b)%nat ->
  ConstantTimeEqualsBytes a b n = Some (bool_decide (a = take n b)).
Proof.
  intros Ha Hb. unfold ConstantTimeEqualsBytes. destruct (constant_time_loop_spec n a b 0) as (r & -> & Hr); [lia..|].
  simpl. f_equal. rewrite (take_ge a) in Hr by lia. case_bool_decide; [apply Z.eqb_eq; tauto|apply Z.eqb_neq; tauto].
Qed.

Lemma VerifyAKCert_trusted ev en now roots : VerifyAKCert sev_roots ev en now roots = Some OK ->
  exists akcert, parse_x509 (akcert_der ev) = Some akcert /\ ak_trusted roots ev en now akcert.
Proof.
  unfold VerifyAKCert. intros HV.
  destruct (parse_x509 (akcert_der ev)) as [akcert|]; [|done]. destruct (parse_x509 (intermediate_der en)) as [im|] eqn:Ei; [|done].
  destruct allocates; [|done]. destruct (X509_verify_cert roots akcert [im] now) eqn:Ec; [|done]. cbn [negb] in HV.
  destruct (ReportFromVerifiedBuffer _ _ _ _) as [[report err]|] eqn:Er; [|done]. cbn [mbind option_bind] in HV.
  destruct (is_ok err) eqn:Eo; cbn [negb] in HV; [|by injection HV as ->]. apply is_ok_spec in Eo as ->.
  apply verified_report in Er as (Hrep & Hlen & Hsig).
  rewrite constant_time_prefix in HV by (rewrite ?sha256_size, ?report_data_size by done; lia). cbn [mbind option_bind] in HV.
  case_bool_decide as Hd; cbn [negb] in HV; [|done].
  destruct (runtime_key (runtime_data ev)) as [[[rte rtn]|]|] eqn:Ek; [|done..]. cbn [mbind option_bind] in HV.
  destruct (B64DecodeInline rte B64URL) as [[e ee]|] eqn:E1; [|done]. cbn [mbind option_bind] in HV.
  destruct (is_ok ee) eqn:Ee; cbn [negb] in HV; [|by injection HV as ->]. apply is_ok_spec in Ee as ->.
  destruct (B64DecodeInline rtn B64URL) as [[n en']|] eqn:E2; [|done]. cbn [mbind option_bind] in HV.
  destruct (is_ok en') eqn:En; cbn [negb] in HV; [|by injection HV as ->]. apply is_ok_spec in En as ->.
  destruct (cert_rsa akcert) as [[ake akn]|] eqn:Ea; [|done]. rewrite !ct_equals_eq in HV.
  case_bool_decide; [|done]. case_bool_decide; [|done]. subst.
  exists akcert. split; [done|]. split; [by exists im|]. eexists. split; [done|]. split; [done|]. split; [done|].
  by exists rte, rtn, ake, akn.
Qed.

(** A quote that a key signed, of these registers and of this nonce. *)
Definition quoted (akcert : X509) (ev : ASNPEvidence) (n : bytes) (ps : PCRs) : Prop :=
  exists sg key rsa, Signature_FromString (sig ev) = Some (sg, OK) /\
    X509_get_pubkey akcert = Some key /\ EVP_PKEY_get0_RSA key = Some rsa /\ RSA_verify rsa (sha256 (msg ev)) sg = true /\
    Zlen (msg ev) = 145 /\ PCRsFromString (pcrs ev) [] = (ps, OK) /\
    read_at (msg ev) 44 32 = Some n /\ read_at (msg ev) 113 32 = Some (sha256 (concat ps)).

Lemma VerifyTPM2_quoted ev akcert n ps : parse_x509 (akcert_der ev) = Some akcert ->
  VerifyTPM2 ev = Some (n, ps, OK) -> quoted akcert ev n ps.
Proof.
  intros Hak HV. unfold VerifyTPM2 in HV.
  destruct (Signature_FromString (sig ev)) as [[sg se]|] eqn:Es; [|done]. cbn [mbind option_bind] in HV.
  destruct (is_ok se) eqn:E1; cbn [negb] in HV; [|by simplify_eq]. apply is_ok_spec in E1 as ->.
  destruct (Report_FromString_ok (msg ev)) as (m & me & Em & Hm). rewrite Em in HV. cbn [mbind option_bind] in HV.
  destruct (is_ok me) eqn:E2; cbn [negb] in HV; [|by simplify_eq]. apply is_ok_spec in E2 as ->.
  destruct (Hm eq_refl) as (Hdata & Hlen & _ & Hn & Hp).
  destruct (PCRsFromString (pcrs ev) []) as [ps' pe] eqn:Ep.
  destruct (is_ok pe) eqn:E3; cbn [negb] in HV; [|by simplify_eq]. apply is_ok_spec in E3 as ->.
  rewrite Hak in HV. unfold VerifyReport in HV.
  destruct (X509_get_pubkey akcert) as [key|] eqn:Ek; [|done]. destruct (EVP_PKEY_get0_RSA key) as [rsa|] eqn:Er; [|done].
  destruct (RSA_verify rsa (sha256 (data_ m)) sg) eqn:Ev; [|done]. cbn [negb is_ok] in HV.
  unfold VerifyPCRs, nonce in HV. rewrite Hdata in Hlen, Ev, HV. rewrite Hn, Hp in HV.
  destruct (read_at (msg ev) 113 32) as [d|] eqn:Ed; [|done]. cbn [mbind option_bind] in HV.
  apply read_at_length in Ed as Hd; [|lia]. rewrite (constant_time_bytes _ _ 32) in HV by (rewrite ?sha256_size; unfold Zlen in Hd; lia).
  cbn [mbind option_bind] in HV. case_bool_decide as Heq; cbn [negb is_ok] in HV; [|done].
  destruct (read_at (msg ev) 44 32) as [n'|] eqn:En; [|done]. cbn [mbind option_bind negb is_ok] in HV. simplify_eq.
  exists sg, key, rsa. by split_and!.
Qed.
Lemma CheckRemotePCRs_ok local remote : CheckRemotePCRs local remote = OK ->
  forall i, i ∈ checked_pcrs -> nth i local [] = nth i remote [].
Proof.
  unfold CheckRemotePCRs. destruct (forallb _ _) eqn:E; [|done]. intros _ i Hi. rewrite forallb_forall in E.
  apply list_elem_of_In in Hi. specialize (E i Hi). rewrite ct_equals_eq in E. by apply bool_decide_eq_true in E.
Qed.

(** What is accepted, for the theorem below and for its uses. *)
Lemma CompleteVerification_spec ev en now roots local data :
  CompleteVerification sev_roots parse ev en now roots local = Some (data, OK) ->
  exists akcert ps, parse_x509 (akcert_der ev) = Some akcert /\ ak_trusted roots ev en now akcert /\
    quoted akcert ev (sha256 (attestation_data ev)) ps /\
    (forall i, i ∈ checked_pcrs -> nth i local [] = nth i ps []) /\
    parse (attestation_data ev) = Some data.
Proof.
  unfold CompleteVerification. intros HC.
  destruct (VerifyAKCert sev_roots ev en now roots) as [err|] eqn:E1; [|done]. cbn [mbind option_bind] in HC.
  destruct (is_ok err) eqn:Eo; cbn [negb] in HC; [|by simplify_eq]. apply is_ok_spec in Eo as ->.
  apply VerifyAKCert_trusted in E1 as (akcert & Hak & Htr).
  destruct (VerifyTPM2 ev) as [[[n ps] err]|] eqn:E2; [|done]. cbn [mbind option_bind] in HC.
  destruct (is_ok err) eqn:Eo; cbn [negb] in HC; [|by simplify_eq]. apply is_ok_spec in Eo as ->.
  destruct (is_ok (CheckRemotePCRs local ps)) eqn:E3; cbn [negb] in HC; [|injection HC as _ HC; by rewrite HC in E3]. apply is_ok_spec in E3.
  rewrite ct_equals_eq in HC. case_bool_decide as Hn; cbn [negb] in HC; [|done].
  destruct (parse (attestation_data ev)) as [out|] eqn:E4; [|done]. simplify_eq.
  exists akcert, ps. split_and!; eauto using VerifyTPM2_quoted, CheckRemotePCRs_ok.
Qed.

(** C16: A peer on Azure or Google Cloud is accepted only if one TPM key ties
    the evidence together: the cloud's root vouches for its certificate, an SEV
    report signed under AMD's roots carries the hash of the runtime data that
    name this very key, and this key signed the quote.  The quote's nonce is
    the hash of the attested data, its digest is that of the registers sent,
    the measured registers agree with our own, and the data handed on are those
    that were hashed. *)
Theorem snp_attest_sound ev en now roots local data :
  CompleteVerification sev_roots parse ev en now roots local = Some (data, OK) ->
  exists akcert ps, parse_x509 (akcert_der ev) = Some akcert /\ ak_trusted roots ev en now akcert /\
    quoted akcert ev (sha256 (attestation_data ev)) ps /\
    (forall i, i ∈ checked_pcrs -> nth i local [] = nth i ps []) /\
    parse (attestation_data ev) = Some data.
Proof. apply CompleteVerification_spec. Qed.
End snp.

(** ** SEV-SNP alone *)
Section sev.
Context {CR : Crypto} {SL : SevLayout} {LW : SevLaws}.

(** An SEV-SNP peer is accepted only with a report that a key under AMD's
    roots signed, for a guest that may be neither debugged nor migrated, with
    our own measurement and host data; its public key is then the first 32
    bytes of that report's data.  It never carries a minimum value: those of
    the report are dropped. *)
Theorem sev_attest_sound roots parse local att now data : length local = sizeof_report ->
  DataFromVerifiedAttestation roots parse local att now = Some (data, OK) ->
  exists e report, parse (endorsements att) = Some e /\ report = take sizeof_report (evidence att) /\
    sev_signed roots e now report /\ ValidateReport report = OK /\
    rp_measurement local = rp_measurement report /\ rp_host_data local = rp_host_data report /\
    att_public_key data = take 32 (rp_report_data report) /\ att_minimum_values data = [].
Proof.
  intros Hl. unfold DataFromVerifiedAttestation. intros HD.
  destruct (parse (endorsements att)) as [e|]; [|done].
  destruct (ReportFromVerifiedBuffer _ _ _ _) as [[report err]|] eqn:Er; [|done]. cbn [mbind option_bind] in HD.
  destruct (is_ok err) eqn:Eo; cbn [negb] in HD; [|by simplify_eq]. apply is_ok_spec in Eo as ->.
  apply verified_report in Er as (Hrep & Hlen & Hsig).
  destruct (allowed_report local report Hl Hlen) as (err & Ea & Hok). rewrite Ea in HD. cbn [mbind option_bind] in HD.
  destruct (is_ok err) eqn:Eo; cbn [negb] in HD; [|by simplify_eq]. apply is_ok_spec in Eo.
  apply Hok in Eo as (Hv & Hm & Hh). rewrite MinimumsFromReport_empty in HD. injection HD as <-.
  by exists e, report.
Qed.
End sev.

(** ** The table of certificates *)

(** Where the [i]-th entry says its certificate is. *)
Definition table_entry (certs : bytes) (i : Z) : bytes := take 24 (drop (Z.to_nat (24 * i)) certs).
Definition entry_wraps (certs : bytes) (i : Z) : Prop :=
  2 ^ 32 <= le32 (drop 16 (table_entry certs i)) + le32 (drop 20 (table_entry certs i)).

Lemma byte_at_range b i : bytes_ok b -> 0 <= byte_at b i < 256.
Proof.
  intros Hb. unfold byte_at. destruct (nth_in_or_default i b 0) as [Hin| ->]; [|lia].
  unfold bytes_ok in Hb. rewrite Forall_forall in Hb. apply (Hb _ (proj2 (list_elem_of_In _ _) Hin)).
Qed.
Lemma le32_range b : bytes_ok b -> 0 <= le32 b < 2 ^ 32.
Proof.
  intros Hb. unfold le32. pose proof (byte_at_range b 0 Hb). pose proof (byte_at_range b 1 Hb).
  pose proof (byte_at_range b 2 Hb). pose proof (byte_at_range b 3 Hb). lia.
Qed.

Lemma certs_loop_in_range certs fuel i e : bytes_ok certs -> Zlen certs < 2 ^ 31 -> 0 <= i -> 24 * i <= Zlen certs ->
  (length certs < fuel + Z.to_nat i)%nat -> (forall j, i <= j -> ~ entry_wraps certs j) ->
  exists r, certs_loop fuel certs (Zlen certs) i e = Some r.
Proof.
  revert i e. induction fuel as [|fuel IH]; intros i e Hb Hs Hi Hle Hf Hw.
  { exfalso. unfold Zlen in *. lia. }
  cbn [certs_loop]. unfold entry_size, u32. rewrite Z.mod_small by lia.
  destruct (Zlen certs <? 24 * (i + 1)) eqn:E1; [by eexists|]. zbool.
  rewrite read_at_in by lia. cbn [mbind option_bind]. change (Z.to_nat 24) with 24%nat. fold (table_entry certs i).
  assert (bytes_ok (table_entry certs i)) as Hbe by (apply Forall_take, Forall_drop, Hb).
  case_bool_decide; [by eexists|].
  pose proof (le32_range _ (Forall_drop _ 16 _ Hbe)) as Ho. pose proof (le32_range _ (Forall_drop _ 20 _ Hbe)) as Hl.
  specialize (Hw i ltac:(lia)) as Hwi. unfold entry_wraps in Hwi. rewrite Z.mod_small by lia.
  destruct (_ || _) eqn:E2; [by eexists|]. apply orb_false_iff in E2 as [_ E2]. zbool.
  rewrite read_at_in by lia. cbn [mbind option_bind]. apply IH; try done; try lia. intros j Hj. apply Hw. lia.
Qed.

(** Reading the table of certificates that the hypervisor returned ends,
    and stays within the buffer, for every table in which no entry's offset
    and length add up past 32 bits. *)
Theorem certificates_in_range certs e : bytes_ok certs -> Zlen certs < 2 ^ 31 ->
  (forall i, 0 <= i -> ~ entry_wraps certs i) -> exists r, CertificatesToEndorsements certs e = Some r.
Proof. intros Hb Hs Hw. apply certs_loop_in_range; try done; unfold Zlen; lia. Qed.

(** The guard on an entry's end does not protect the copy: the sum of its
    offset and length is taken modulo 2^32, so an entry with offset 16 and
    length 2^32 - 16 passes it, and the copy runs past the buffer. *)
Theorem certificates_out_of_range :
  exists certs, bytes_ok certs /\ Zlen certs = 48 /\ CertificatesToEndorsements certs SevSnpEndorsements_default = None.
Proof.
  exists (UUID_VCEK ++ [16; 0; 0; 0; 240; 255; 255; 255] ++ replicate 24 0).
  split; [|split; vm_compute; reflexivity]. unfold bytes_ok. vm_compute. repeat (constructor; [split; done|]). constructor.
Qed.

(** ** Evidence that is accepted *)
Module SnpExample.
#[export] Instance ToyLayout : SevLayout := {|
  sizeof_report := 192; offsetof_signature := 144;
  rp_version := fun _ => 2; rp_policy := fun _ => 0; rp_signature_algo := fun _ => 1; rp_flags := fun _ => 0;
  rp_measurement := fun r => take 48 r;
  rp_host_data := fun r => take 32 (drop 48 r);
  rp_report_data := fun r => take 64 (drop 80 r);
  rp_signature_r := fun r => drop 144 r;
  rp_signature_s := fun _ => [];
  rp_platform_version := fun _ => (1, 1, 1, 1); rp_reported_tcb := fun _ => (1, 1, 1, 1);
  POLICY_MIGRATE_MA_MASK := 2 ^ 18; POLICY_DEBUG_MASK := 2 ^ 19; SIG_ALGO_ECDSA_P384_SHA384 := 1 |}.
#[export] Instance ToyLaws : SevLaws.
Proof. split; cbn; intros r Hr; rewrite ?length_take, ?length_drop, Hr; reflexivity. Qed.

(** The key of the runtime data: the certificate [5; 5; 5]. *)
#[export] Instance ToyJson : JsonPlatform := {|
  ParseJson := fun _ => Some (JObject [(str "keys", JArray [JObject [
    (str "kid", JString (str "HCLAkPub")); (str "kty", JString (str "RSA"));
    (str "e", JString (str "AQAB")); (str "n", JString (str "BQUF"))]])]) |}.

Definition roots : list (@X509 ToyCrypto) := [[9]].
Definition report : bytes := replicate 48 1 ++ replicate 32 2 ++ str "{}" ++ replicate 62 0 ++ replicate 48 1.
Definition quote : bytes :=
  [255; 84; 67; 71; 128; 24; 0; 34; 0; 11] ++ replicate 32 0 ++ [0; 32] ++ toy_digest 32 [42] ++ replicate 25 0 ++
  [0; 0; 0; 1; 0; 11; 3; 255; 255; 255; 0; 32] ++ replicate 32 0.
Definition ev : ASNPEvidence := {|
  attestation_data := [42]; pcrs := replicate 768 0; msg := quote;
  sig := [0; 20; 0; 11; 1; 0] ++ toy_digest 32 quote ++ replicate 224 0;
  snp_report := report; runtime_data := str "{}"; akcert_der := [5; 5; 5] |}.
Definition en : ASNPEndorsements := {| intermediate_der := [9]; asnp_vcek_der := [6]; asnp_ask_der := [9] |}.
Definition parse (bs : bytes) : option AttestationData :=
  Some {| att_public_key := bs; att_group_config := None; att_minimum_limits := []; att_minimum_values := [] |}.
Definition att : Attestation := {| evidence := report; endorsements := [] |}.
Definition certificates (bs : bytes) : option SevSnpEndorsements :=
  Some {| vcek_der := [6]; ask_der := [9]; ark_der := []; vlek_der := []; crl := [] |}.
End SnpExample.
Import SnpExample.

Lemma toy_sha256_size bs : length (@sha256 ToyCrypto bs) = 32%nat.
Proof. cbn. unfold toy_digest. rewrite length_take, length_app, length_replicate. lia. Qed.

Lemma snp_attest_sound_witness :
  exists akcert ps, parse_x509 (akcert_der ev) = Some akcert /\ ak_trusted SnpExample.roots SnpExample.roots ev en 100 akcert /\
    quoted akcert ev (sha256 [42]) ps.
Proof.
  destruct (snp_attest_sound toy_sha256_size SnpExample.roots SnpExample.parse ev en 100 SnpExample.roots (replicate 24 (replicate 32 0))
    {| att_public_key := [42]; att_group_config := None; att_minimum_limits := []; att_minimum_values := [] |})
    as (akcert & ps & H1 & H2 & H3 & _).
  - vm_compute. reflexivity.
  - exists akcert, ps. exact (conj H1 (conj H2 H3)).
Defined.

Lemma sev_attest_sound_witness :
  exists e r, SnpExample.certificates [] = Some e /\ r = take 192 report /\ sev_signed SnpExample.roots e 100 r.
Proof.
  destruct (sev_attest_sound SnpExample.roots SnpExample.certificates report att 100
    {| att_public_key := str "{}" ++ replicate 30 0; att_group_config := None; att_minimum_limits := []; att_minimum_values := [] |})
    as (e & r & H1 & H2 & H3 & _).
  - reflexivity.
  - vm_compute. reflexivity.
  - exists e, r. exact (conj H1 (conj H2 H3)).
Defined.

Lemma certificates_in_range_witness :
  exists r, CertificatesToEndorsements (UUID_VCEK ++ [48; 0; 0; 0; 2; 0; 0; 0] ++ replicate 24 0 ++ [7; 7]) SevSnpEndorsements_default = Some r.
Proof.
  apply certificates_in_range.
  - apply (bool_decide_unpack _). vm_compute. exact I.
  - reflexivity.
  - intros i Hi. destruct (decide (i = 0)) as [->|]; [vm_compute; intros H; apply H; reflexivity|].
    destruct (decide (i = 1)) as [->|]; [vm_compute; intros H; apply H; reflexivity|].
    destruct (decide (i = 2)) as [->|]; [vm_compute; intros H; apply H; reflexivity|].
    unfold entry_wraps, table_entry. rewrite (drop_ge (UUID_VCEK ++ _)) by (cbn; lia). vm_compute. intros H. apply H. reflexivity.
Defined.
