(* ===== verification/HostAuth.v ===== *)
(** * Credentials of clients (host/auth/auth.go)

    A password is a time and a truncated HMAC of the user and the time. *)
From Stdlib Require Import Strings.String.
From stdpp Require Import prelude.
From S2P Require Import Prelude Containers Attest.

(** ** What the code uses of Go's standard library *)

(** [%d]. *)
Fixpoint format_digits (fuel : nat) (n : Z) : bytes :=
  match fuel with
  | O => []
  | S fuel' => if n <? 10 then [48 + n] else format_digits fuel' (n / 10) ++ [48 + n mod 10]
  end.
(** An [int64] has at most 19 digits. *)
Definition format_int (z : Z) : bytes := if z <? 0 then 45 :: format_digits 20 (- z) else format_digits 20 z.

(** [strconv.ParseInt(s, 10, 64)]; a syntax and a range error are alike. *)
Fixpoint parse_digits (s : bytes) (n : Z) : option Z :=
  match s with
  | [] => Some n
  | c :: s' => if (48 <=? c) && (c <=? 57) then parse_digits s' (10 * n + (c - 48)) else None
  end.
Definition parse_uint (s : bytes) : option Z := match s with [] => None | _ => parse_digits s 0 end.
Definition ParseInt (s : bytes) : option Z :=
  match s with
  | [] => None
  | c :: s' =>
      let '(neg, s) := if c =? 43 then (false, s') else if c =? 45 then (true, s') else (false, s) in
      match parse_uint s with
      | None => None
      | Some un => if negb neg && (2 ^ 63 <=? un) then None else if neg && (2 ^ 63 <? un) then None
                   else Some (if neg : bool then - un else un)
      end
  end.

(** [hex.DecodeString] and [%x]. *)
Definition fromHexChar (c : Z) : option Z :=
  if (48 <=? c) && (c <=? 57) then Some (c - 48)
  else if (97 <=? c) && (c <=? 102) then Some (c - 97 + 10)
  else if (65 <=? c) && (c <=? 70) then Some (c - 65 + 10)
  else None.
Fixpoint DecodeString (s : bytes) : option bytes :=
  match s with
  | [] => Some []
  | [_] => None
  | a :: b :: s' =>
      match fromHexChar a, fromHexChar b, DecodeString s' with
      | Some x, Some y, Some rest => Some (16 * x + y :: rest)
      | _, _, _ => None
      end
  end.
Definition hex_digit (x : Z) : Z := if x <? 10 then 48 + x else 97 + (x - 10).
Definition format_hex (bs : bytes) : bytes := bs ≫= (fun b => [hex_digit (b / 16); hex_digit (b mod 16)]).

(** [strings.Index(pass, ":")]: what is before and after the separator. *)
Fixpoint cut_colon (s : bytes) : option (bytes * bytes) :=
  match s with
  | [] => None
  | c :: s' => if c =? 58 then Some ([], s') else match cut_colon s' with Some (a, b) => Some (c :: a, b) | None => None end
  end.

(** ** [auth] *)
Definition Second : Z := 10 ^ 9.
Definition authenticationTokenMaxAgeSeconds : Z := 30 * 86400.
Record auth := { secret : bytes; clock : Z (* nanoseconds since 1970 *); expiration : Z (* nanoseconds *) }.
Definition New (key : bytes) (now : Z) : auth :=
  {| secret := key; clock := now; expiration := Second * authenticationTokenMaxAgeSeconds |}.

Inductive AuthError := ErrNoSeparator | ErrTimestamp | ErrHex | ErrExpired | ErrMac.

(** [time.Sub] saturates. *)
Definition Sub (t u : Z) : Z := Z.min (Z.max (t - u) (- 2 ^ 63)) (2 ^ 63 - 1).

Definition mac_input (user : bytes) (ts : Z) : bytes := user ++ [58] ++ format_int ts.

Section auth.
(** HMAC-SHA256 of Go's [crypto/hmac]. *)
Context (hmac : bytes -> bytes -> bytes).

Definition parsePass (pass : bytes) : Z * bytes + AuthError :=
  match cut_colon pass with
  | None => inr ErrNoSeparator
  | Some (before, after) =>
      match ParseInt before with
      | None => inr ErrTimestamp
      | Some unixSecs => match DecodeString after with None => inr ErrHex | Some sig => inl (unixSecs, sig) end
      end
  end.

Definition valid (a : auth) (user : bytes) (ts : Z) (sig : bytes) : option AuthError :=
  let diff := Sub (clock a) (ts * Second) in
  if (expiration a <? diff) || (diff <? - expiration a) then Some ErrExpired else
  if negb (bool_decide (take 10 (hmac (secret a) (mac_input user ts)) = sig)) then Some ErrMac else None.

Definition Check_ (a : auth) (user pass : bytes) : option AuthError :=
  match parsePass pass with inr e => Some e | inl (ts, sig) => valid a user ts sig end.

Definition PassFor (a : auth) (user : bytes) : bytes :=
  let ts := clock a / Second in
  format_int ts ++ [58] ++ format_hex (take 10 (hmac (secret a) (mac_input user ts))).
End auth.

(** ** Printing and parsing *)
Definition is_digit (c : Z) : Prop := 48 <= c <= 57.

Lemma format_digits_spec fuel n : 0 <= n < 10 ^ Z.of_nat fuel -> (0 < fuel)%nat ->
  Forall is_digit (format_digits fuel n) /\ format_digits fuel n <> [] /\
  forall m, parse_digits (format_digits fuel n) m = Some (m * 10 ^ Zlen (format_digits fuel n) + n).
Proof.
  revert n. induction fuel as [|fuel IH]; intros n Hn Hf; [lia|]. cbn [format_digits].
  destruct (n <? 10) eqn:E; zbool.
  { split; [repeat constructor; unfold is_digit; lia|]. split; [done|]. intros m. cbn [parse_digits].
    rewrite (proj2 (andb_true_iff _ _)) by (rewrite !Z.leb_le; lia). change (Zlen [48 + n]) with 1. f_equal. lia. }
  rewrite Nat2Z.inj_succ, Z.pow_succ_r in Hn by lia.
  assert (0 < fuel)%nat as Hf' by (destruct fuel; [cbn in Hn; lia|lia]).
  destruct (IH (n / 10)) as (Hd & Hne & Hp); [|done|].
  { split; [apply Z.div_pos; lia|apply Z.div_lt_upper_bound; lia]. }
  pose proof (Z.mod_pos_bound n 10 ltac:(lia)) as Hm.
  split; [apply Forall_app; split; [done|repeat constructor; unfold is_digit; lia]|].
  split; [by destruct (format_digits fuel (n / 10))|]. intros m.
  assert (forall s k, parse_digits (s ++ [48 + n mod 10]) k = match parse_digits s k with Some x => Some (10 * x + n mod 10) | None => None end) as Happ.
  { induction s as [|c s IHs]; intros k; cbn [app parse_digits].
    - rewrite (proj2 (andb_true_iff _ _)) by (rewrite !Z.leb_le; lia). f_equal. lia.
    - case_match; [apply IHs|done]. }
  rewrite Happ, Hp. f_equal. unfold Zlen. rewrite length_app, Nat2Z.inj_add. change (Z.of_nat (length [_])) with 1.
  rewrite Z.pow_add_r by lia. pose proof (Z.div_mod n 10 ltac:(lia)). lia.
Qed.

Definition is_int64 (z : Z) : Prop := - 2 ^ 63 <= z < 2 ^ 63.

Lemma ParseInt_format z : is_int64 z -> ParseInt (format_int z) = Some z.
Proof.
  unfold is_int64. intros Hz. unfold format_int. destruct (z <? 0) eqn:E; zbool.
  - destruct (format_digits_spec 20 (- z)) as (_ & Hne & Hp); [lia..|].
    cbn [ParseInt]. change (45 =? 43) with false. change (45 =? 45) with true. cbv iota beta.
    unfold parse_uint. destruct (format_digits 20 (- z)) as [|c s] eqn:Ed; [done|]. rewrite Hp. cbn [negb andb].
    rewrite (proj2 (Z.ltb_ge _ _)) by lia. f_equal. lia.
  - destruct (format_digits_spec 20 z) as (Hd & Hne & Hp); [lia..|].
    unfold ParseInt. destruct (format_digits 20 z) as [|c s] eqn:Ed; [done|].
    pose proof (Forall_inv Hd) as Hc. unfold is_digit in Hc. cbn beta in Hc.
    rewrite (proj2 (Z.eqb_neq c 43)), (proj2 (Z.eqb_neq c 45)) by lia. cbv iota beta. unfold parse_uint. rewrite Hp. cbn [negb andb].
    rewrite (proj2 (Z.leb_gt _ _)) by lia. f_equal; lia.
Qed.

Lemma format_int_no_colon z : is_int64 z -> 58 ∉ format_int z.
Proof.
  unfold is_int64. intros Hz Hin.
  assert (forall n, 0 <= n <= 2 ^ 63 -> 58 ∉ format_digits 20 n) as Hd.
  { intros n Hn Hi. destruct (format_digits_spec 20 n) as (Hd & _); [lia..|]. rewrite Forall_forall in Hd.
    specialize (Hd 58 Hi). unfold is_digit in Hd. lia. }
  unfold format_int in Hin. destruct (z <? 0) eqn:E; zbool; [|by apply (Hd z); [lia|]].
  apply elem_of_cons in Hin as [?|Hin]; [done|]. by apply (Hd (- z)); [lia|].
Qed.

Lemma cut_colon_app a b : 58 ∉ a -> cut_colon (a ++ [58] ++ b) = Some (a, b).
Proof.
  induction a as [|c a IH]; intros Ha; [done|]. rewrite not_elem_of_cons in Ha. destruct Ha as [Hc Ha].
  cbn [app cut_colon] in *. rewrite (proj2 (Z.eqb_neq c 58)) by congruence. by rewrite IH.
Qed.

Lemma hex_digit_char x : 0 <= x < 16 -> fromHexChar (hex_digit x) = Some x.
Proof.
  intros Hx. assert (forallb (fun x => bool_decide (fromHexChar (hex_digit x) = Some x)) (Z.of_nat <$> seq 0 16) = true) as H
    by (vm_compute; reflexivity).
  rewrite forallb_forall in H. apply (bool_decide_unpack (fromHexChar (hex_digit x) = Some x)). rewrite H; [done|].
  apply list_elem_of_In, list_elem_of_fmap. exists (Z.to_nat x). rewrite elem_of_seq. lia.
Qed.
Lemma DecodeString_format bs : bytes_ok bs -> DecodeString (format_hex bs) = Some bs.
Proof.
  induction bs as [|b bs IH]; intros Hb; [done|]. apply Forall_cons in Hb as [Hb Hbs]. unfold is_u8 in Hb.
  change (format_hex (b :: bs)) with (hex_digit (b / 16) :: hex_digit (b mod 16) :: format_hex bs). cbn [DecodeString].
  pose proof (Z.mod_pos_bound b 16 ltac:(lia)).
  rewrite !hex_digit_char by (try split; try apply Z.div_pos; try apply Z.div_lt_upper_bound; lia).
  rewrite IH by done. do 2 f_equal. pose proof (Z.div_mod b 16 ltac:(lia)). lia.
Qed.

(** The last separator splits the input of the HMAC. *)
Lemma mac_input_inj u1 t1 u2 t2 : is_int64 t1 -> is_int64 t2 -> mac_input u1 t1 = mac_input u2 t2 -> u1 = u2 /\ t1 = t2.
Proof.
  intros H1 H2 Heq. apply (f_equal reverse) in Heq. unfold mac_input in Heq. rewrite !reverse_app in Heq.
  change (reverse [58]) with [58] in Heq. rewrite <-!(assoc_L (++)) in Heq.
  assert (forall t, is_int64 t -> 58 ∉ reverse (format_int t)) as Hno by (intros t Ht; rewrite elem_of_reverse; by apply format_int_no_colon).
  apply (f_equal cut_colon) in Heq. rewrite !cut_colon_app in Heq by auto. injection Heq as Ht Hu.
  apply (inj reverse) in Ht. apply (inj reverse) in Hu. split; [done|].
  pose proof (ParseInt_format t1 H1) as P1. rewrite Ht, (ParseInt_format t2 H2) in P1. congruence.
Qed.

Lemma ParseInt_range s z : ParseInt s = Some z -> is_int64 z.
Proof.
  assert (forall s n, 0 <= n -> forall m, parse_digits s n = Some m -> 0 <= m) as Hpos.
  { clear. induction s as [|c s IH]; intros n Hn m Hm; cbn in Hm; [by simplify_eq|].
    destruct ((48 <=? c) && (c <=? 57)) eqn:E; [|done]. zbool. eapply IH, Hm. lia. }
  unfold ParseInt, is_int64. destruct s as [|c s']; [done|]. intros Hp.
  destruct (if c =? 43 then _ else _) as [neg s]. unfold parse_uint in Hp. destruct s as [|d s]; [done|].
  destruct (parse_digits (d :: s) 0) as [un|] eqn:E; [|done]. apply Hpos in E; [|lia].
  destruct neg; cbn [negb andb] in Hp; repeat case_match; simplify_eq; zbool; lia.
Qed.

(** ** What is accepted *)
Section theorems.
Context (hmac : bytes -> bytes -> bytes) (hmac_bytes : forall k m, bytes_ok (hmac k m)).

Lemma Sub_within t u d : 0 <= d < 2 ^ 63 - 1 ->
  (d <? Sub t u) || (Sub t u <? - d) = false <-> - d <= t - u <= d.
Proof. intros Hd. unfold Sub. rewrite orb_false_iff, !Z.ltb_ge. lia. Qed.

Lemma Check_accepts a user pass : 0 <= expiration a < 2 ^ 63 - 1 ->
  Check_ hmac a user pass = None <->
  exists ts sig, parsePass pass = inl (ts, sig) /\ - expiration a <= clock a - ts * Second <= expiration a /\
    sig = take 10 (hmac (secret a) (mac_input user ts)).
Proof.
  intros He. unfold Check_, valid. destruct (parsePass pass) as [[ts sig]|e]; [|split; [done|by intros (? & ? & ? & _)]].
  pose proof (Sub_within (clock a) (ts * Second) (expiration a) He) as Hw.
  destruct ((expiration a <? _) || _).
  { split; [done|]. intros (? & ? & [= <- <-] & Hin & _). apply Hw in Hin. done. }
  case_bool_decide; cbn; split; try done; [intros _; exists ts, sig; by rewrite <-Hw|].
  intros (? & ? & [= <- <-] & _ & ?). congruence.
Qed.

Lemma PassFor_parses a user : is_int64 (clock a / Second) ->
  parsePass (PassFor hmac a user) = inl (clock a / Second, take 10 (hmac (secret a) (mac_input user (clock a / Second)))).
Proof.
  intros Ht. unfold parsePass, PassFor. rewrite cut_colon_app by (by apply format_int_no_colon).
  rewrite ParseInt_format by done. by rewrite DecodeString_format by (by apply Forall_take, hmac_bytes).
Qed.

(** The password issued to a user is accepted for that user, under the same
    secret, at any time within the expiration of the second it was issued in. *)
Theorem credential_accepted a b user : is_int64 (clock a / Second) -> secret b = secret a -> 0 <= expiration b < 2 ^ 63 - 1 ->
  - expiration b <= clock b - clock a / Second * Second <= expiration b ->
  Check_ hmac b user (PassFor hmac a user) = None.
Proof. intros Ht Hs He Hw. apply Check_accepts; [done|]. rewrite PassFor_parses by done. rewrite Hs. eauto. Qed.

(** Two names whose truncated HMACs with a time agree. *)
Definition same_mac (key : bytes) (ts : Z) (u1 u2 : bytes) : Prop :=
  mac_input u1 ts <> mac_input u2 ts /\ take 10 (hmac key (mac_input u1 ts)) = take 10 (hmac key (mac_input u2 ts)).

(** A password that is accepted for a user is for a time within the
    expiration.  If it is the one issued to some user, then to this user,
    whatever characters the names contain, unless the HMACs for the two names
    and the time agree on their first ten bytes. *)
Theorem credential_binds_user a b issued_to user : is_int64 (clock a / Second) -> secret b = secret a ->
  0 <= expiration b < 2 ^ 63 - 1 -> Check_ hmac b user (PassFor hmac a issued_to) = None ->
  - expiration b <= clock b - clock a / Second * Second <= expiration b /\
  (user = issued_to \/ same_mac (secret a) (clock a / Second) issued_to user).
Proof.
  intros Ht Hs He HC. apply Check_accepts in HC as (ts & sig & Hp & Hw & Hsig); [|done].
  rewrite PassFor_parses in Hp by done. injection Hp as <- <-. split; [done|]. rewrite Hs in Hsig.
  destruct (decide (user = issued_to)) as [->|Hne]; [by left|right]. split; [|done].
  intros Heq. apply mac_input_inj in Heq as [? _]; [congruence|done..].
Qed.
End theorems.

(** An instance, for examples. *)
Definition toy_hmac (k m : bytes) : bytes := u8 <$> k ++ m.
Lemma toy_hmac_bytes k m : bytes_ok (toy_hmac k m).
Proof. apply Forall_fmap, Forall_true. intros x. apply u8_range. Qed.
Definition example_auth (secs : Z) : auth := New [7] (secs * Second).

Lemma credential_accepted_witness :
  Check_ toy_hmac (example_auth 90000) (str "bob") (PassFor toy_hmac (example_auth 10000) (str "bob")) = None.
Proof.
  apply (credential_accepted toy_hmac toy_hmac_bytes); [|reflexivity|..]; unfold is_int64; vm_compute; split; congruence.
Defined.

(** The stand-in keeps its input: names agree that share nine bytes. *)
Lemma credential_binds_user_witness :
  same_mac toy_hmac [7] 10000 (str "abcdefghi") (str "abcdefghij") /\
  Check_ toy_hmac (example_auth 90000) (str "abcdefghij") (PassFor toy_hmac (example_auth 10000) (str "abcdefghi")) = None.
Proof.
  assert (Check_ toy_hmac (example_auth 90000) (str "abcdefghij") (PassFor toy_hmac (example_auth 10000) (str "abcdefghi")) = None) as Hc
    by (vm_compute; reflexivity).
  split; [|exact Hc].
  destruct (credential_binds_user toy_hmac toy_hmac_bytes (example_auth 10000) (example_auth 90000) (str "abcdefghi") (str "abcdefghij"))
    as [_ [E|E]]; [unfold is_int64; vm_compute; split; congruence|reflexivity|vm_compute; split; congruence|exact Hc|discriminate E|exact E].
Defined.
