(* ===== verification/PeerServer.v ===== *)
(** * Connections of other hosts (host/peer/server.go)

    The server accepts connections, reads who calls whom, and hands each to
    the receiver of the calling peer, which runs one handler at a time: a new
    connection first closes the old one and waits for its handler.  Accepting,
    the loops of the receivers and the handlers interleave in any order. *)
From stdpp Require Import prelude gmap.
From S2P Require Import Prelude Errors Containers Util RaftTypes PeerId Minimums GroupClock Msgs HostWire Transport.

(** Where [receiveLoop] is: in its [select], or in a receive from [done]
    before it starts the next connection or returns. *)
Inductive LoopState := Selecting | Replacing (conn : nat) | Stopping | Stopped.

(** [offers]: connections whose [handleConnection] waits to send them;
    [handlers]: the running handlers, with the message they are sending to
    the enclave; [done_]: the buffer of one. *)
Record Receiver := {
  rcv : peerReceiver;
  offers : list nat;
  lastConn : option nat;
  loop : LoopState;
  handlers : list (nat * option (PeerMessage * sequenceNumber));
  done_ : list nat }.

(** [callers]: who called on each connection, when it called this host;
    [forwarded_]: the messages given to the enclave, with connection. *)
Record PeerServer := {
  me : PeerID;
  peer_receivers : gmap PeerID Receiver;
  callers : list (option PeerID);
  conns_closed : gset nat;
  cancelled : bool;
  forwarded_ : list (nat * PeerMessage * sequenceNumber) }.
Definition NewPeerServer (id : PeerID) : PeerServer :=
  {| me := id; peer_receivers := ∅; callers := []; conns_closed := ∅; cancelled := false; forwarded_ := [] |}.

Definition getOrCreate (s : PeerServer) (them : PeerID) : Receiver :=
  default {| rcv := {| seqno := sequenceNumber_zero; remote := them |}; offers := []; lastConn := None; loop := Selecting;
             handlers := []; done_ := [] |} (peer_receivers s !! them).
Definition put (s : PeerServer) (them : PeerID) (r : Receiver) : PeerServer :=
  {| s with peer_receivers := <[them := r]> (peer_receivers s) |}.
Definition close_conn (s : PeerServer) (c : nat) : PeerServer := {| s with conns_closed := {[c]} ∪ conns_closed s |}.

(** [PeerServer.handleConnection] after [readHello], of the next connection;
    [None] is a hello that cannot be read. *)
Definition handleConnection (s : PeerServer) (hello : option (PeerID * PeerID)) : PeerServer :=
  let c := length (callers s) in
  match hello with
  | Some (them, us) =>
      if negb (bool_decide (us = me s)) then close_conn {| s with callers := callers s ++ [None] |} c
      else
        let r := getOrCreate s them in
        put {| s with callers := callers s ++ [Some them] |} them {| r with offers := offers r ++ [c] |}
  | None => close_conn {| s with callers := callers s ++ [None] |} c
  end.

(** The handler of a connection starts. *)
Definition start_handler (r : Receiver) (c : nat) : Receiver :=
  {| r with lastConn := Some c; loop := Selecting; handlers := handlers r ++ [(c, None)] |}.
Definition remove_handler (r : Receiver) (c : nat) : Receiver :=
  {| r with handlers := List.filter (fun h => negb (Nat.eqb h.1 c)) (handlers r) |}.
Definition set_handler (r : Receiver) (c : nat) (m : option (PeerMessage * sequenceNumber)) : Receiver :=
  {| r with handlers := map (fun h => if Nat.eqb h.1 c then (c, m) else h) (handlers r) |}.
(** It returns: the connection is closed, and [done <-] blocks when the
    buffer is full. *)
Definition end_handler (s : PeerServer) (them : PeerID) (r : Receiver) (c : nat) : option PeerServer :=
  match done_ r with
  | [] => let r1 := remove_handler r c in Some (put (close_conn s c) them {| r1 with done_ := [c] |})
  | _ => None
  end.

Inductive ServerEvent :=
  | SAccept (hello : option (PeerID * PeerID))
  | STake (them : PeerID) (c : nat)                         (* conn := <-p.conns *)
  | SDone (them : PeerID)                                   (* <-done, wherever the loop is *)
  | SRead (them : PeerID) (c : nat) (pcm : PeerConnectionMessage)
  | SSent (them : PeerID) (c : nat) (ok : bool)             (* esender.Send returned *)
  | SFail (them : PeerID) (c : nat)                         (* reading or writing fails *)
  | SCancel
  | SCtxDone (them : PeerID)                                (* <-ctx.Done() in the loop *)
  | SDrop (them : PeerID) (c : nat).                        (* and in handleConnection *)

(** [receiveLoop] takes a connection. *)
Definition take_conn (s : PeerServer) (them : PeerID) (r : Receiver) (c : nat) : PeerServer :=
  let r := {| r with offers := List.filter (fun o => negb (Nat.eqb o c)) (offers r) |} in
  match lastConn r with
  | Some old => put (close_conn s old) them {| r with loop := Replacing c |}
  | None => put s them (start_handler r c)
  end.
(** It receives from [done]; logging names the last connection, which must
    not be nil. *)
Definition recv_done (s : PeerServer) (them : PeerID) (r : Receiver) (rest : list nat) : option PeerServer :=
  let r := {| r with done_ := rest |} in
  match loop r with
  | Selecting => match lastConn r with None => None | Some _ => Some (put s them {| r with lastConn := None |}) end
  | Replacing c => Some (put s them (start_handler r c))
  | Stopping => Some (put s them {| r with loop := Stopped |})
  | Stopped => Some s
  end.
Definition ctx_done (s : PeerServer) (them : PeerID) (r : Receiver) : PeerServer :=
  match lastConn r with
  | Some old => put (close_conn s old) them {| r with loop := Stopping |}
  | None => put s them {| r with loop := Stopped |}
  end.
(** A handler that waits for a message gets one. *)
Definition read_message (s : PeerServer) (them : PeerID) (r : Receiver) (c : nat) (pcm : PeerConnectionMessage) : option PeerServer :=
  let '(p, res) := receive_message (rcv r) pcm in
  let r := {| r with rcv := p |} in
  match res with
  | rPanic => None
  | rIgnored | rDuplicate _ => Some (put s them r)
  | rClosed _ => end_handler s them r c
  | rForward u ack =>
      Some (put {| s with forwarded_ := forwarded_ s ++ [(c, u, ack)] |} them (set_handler r c (Some (u, ack))))
  end.

Definition idle_handler (r : Receiver) (c : nat) : bool := existsb (fun h => Nat.eqb h.1 c && bool_decide (h.2 = None)) (handlers r).
Definition sending_handler (r : Receiver) (c : nat) : bool := existsb (fun h => Nat.eqb h.1 c && bool_decide (h.2 <> None)) (handlers r).

(** An event that is not possible changes nothing; [None] is a panic or a
    goroutine that blocks forever. *)
Definition server_step (s : PeerServer) (e : ServerEvent) : option PeerServer :=
  let on them f := match peer_receivers s !! them with None => Some s | Some r => f r end in
  match e with
  | SAccept hello => Some (handleConnection s hello)
  | STake them c => on them (fun r =>
      match loop r with
      | Selecting => if existsb (Nat.eqb c) (offers r) then Some (take_conn s them r c) else Some s
      | _ => Some s
      end)
  | SDone them => on them (fun r => match done_ r with [] => Some s | _ :: rest => recv_done s them r rest end)
  | SRead them c pcm => on them (fun r => if idle_handler r c then read_message s them r c pcm else Some s)
  | SSent them c ok => on them (fun r =>
      if sending_handler r c then
        let r := set_handler r c None in if ok : bool then Some (put s them r) else end_handler s them r c
      else Some s)
  | SFail them c => on them (fun r => if idle_handler r c then end_handler s them r c else Some s)
  | SCancel => Some {| s with cancelled := true |}
  | SCtxDone them => on them (fun r =>
      match loop r with Selecting => if cancelled s then Some (ctx_done s them r) else Some s | _ => Some s end)
  | SDrop them c => on them (fun r =>
      if cancelled s && existsb (Nat.eqb c) (offers r) then
        Some (close_conn (put s them {| r with offers := List.filter (fun o => negb (Nat.eqb o c)) (offers r) |}) c)
      else Some s)
  end.
Fixpoint server_run (s : PeerServer) (evs : list ServerEvent) : option PeerServer :=
  match evs with [] => Some s | e :: evs' => match server_step s e with None => None | Some s' => server_run s' evs' end end.

(** ** Invariant *)

(** The connection whose handler runs or has not been waited for. *)
Definition busy (r : Receiver) : option nat :=
  match loop r with Stopped => None | _ => lastConn r end.
Definition follow (a b : sequenceNumber) : Prop := follows b a = true /\ 0 < cmp b a.
(** The numbers of the messages of a peer that were forwarded. *)
Definition forwarded_of (s : PeerServer) (them : PeerID) : list sequenceNumber :=
  omap (fun x : nat * PeerMessage * sequenceNumber => if bool_decide (pm_peer_id x.1.2 = them) then Some x.2 else None) (forwarded_ s).
Inductive consecutive : sequenceNumber -> list sequenceNumber -> sequenceNumber -> Prop :=
  | consecutive_nil a : consecutive a [] a
  | consecutive_snoc a l b c : consecutive a l b -> follow b c -> consecutive a (l ++ [c]) c.

Record receiver_ok (s : PeerServer) (them : PeerID) (r : Receiver) : Prop := {
  ok_remote : remote (rcv r) = them;
  ok_busy : (handlers r).*1 ++ done_ r = option_list (busy r);
  ok_loop : match loop r with Replacing _ | Stopping => is_Some (lastConn r) | _ => True end;
  ok_callers : forall c, c ∈ offers r \/ loop r = Replacing c \/ busy r = Some c -> callers s !! c = Some (Some them);
  ok_seqno : consecutive sequenceNumber_zero (forwarded_of s them) (seqno (rcv r)) }.
Record server_ok (s : PeerServer) : Prop := {
  ok_receivers : forall them r, peer_receivers s !! them = Some r -> receiver_ok s them r;
  ok_unknown : forall them, peer_receivers s !! them = None -> forwarded_of s them = [];
  ok_forwarded : forall c u n, (c, u, n) ∈ forwarded_ s -> callers s !! c = Some (Some (pm_peer_id u)) }.

Lemma receiver_ok_frame s s' them r : receiver_ok s them r ->
  (forall c x, callers s !! c = Some x -> callers s' !! c = Some x) -> forwarded_of s' them = forwarded_of s them -> receiver_ok s' them r.
Proof. intros [] Hc Hf. split; [done..|eauto|by rewrite Hf]. Qed.
Lemma put_ok s them r : server_ok s -> receiver_ok s them r -> server_ok (put s them r).
Proof.
  intros [H1 H2 H3] Hr. split; [|intros t Ht; apply H2|done].
  - intros t r'. cbn. rewrite lookup_insert_Some. intros [[<- <-]|[_ Ht]]; apply (receiver_ok_frame s); try done. exact (H1 _ _ Ht).
  - cbn in Ht. by apply lookup_insert_None in Ht as [? _].
Qed.
Lemma close_conn_ok s c : server_ok s -> server_ok (close_conn s c).
Proof. intros [H1 H2 H3]. split; [|done..]. intros t r Ht. apply (receiver_ok_frame s); [exact (H1 _ _ Ht)|done..]. Qed.
Lemma put_close_ok s c them r : server_ok s -> receiver_ok s them r -> server_ok (put (close_conn s c) them r).
Proof. intros Hs Hr. apply put_ok; [by apply close_conn_ok|]. by apply (receiver_ok_frame s). Qed.

(** A busy receiver has one handler, or its handler has returned. *)
Lemma busy_handler s them r c : receiver_ok s them r -> c ∈ (handlers r).*1 -> (handlers r).*1 = [c] /\ done_ r = [] /\ busy r = Some c.
Proof.
  intros [_ Hb _ _ _] Hc. destruct (busy r) as [c'|]; cbn in Hb.
  - destruct ((handlers r).*1) as [|x [|y l]] eqn:E; cbn in Hb; try discriminate Hb; [by apply elem_of_nil in Hc|].
    injection Hb as -> Hd. apply list_elem_of_singleton in Hc as ->. done.
  - apply app_eq_nil in Hb as [E _]. rewrite E in Hc. by apply elem_of_nil in Hc.
Qed.
Lemma idle_busy r c : idle_handler r c = true -> c ∈ (handlers r).*1.
Proof.
  unfold idle_handler. rewrite existsb_exists. intros (h & Hin & He). apply andb_true_iff in He as [<-%Nat.eqb_eq _].
  apply list_elem_of_fmap_2. by apply list_elem_of_In.
Qed.
Lemma sending_busy r c : sending_handler r c = true -> c ∈ (handlers r).*1.
Proof.
  unfold sending_handler. rewrite existsb_exists. intros (h & Hin & He). apply andb_true_iff in He as [<-%Nat.eqb_eq _].
  apply list_elem_of_fmap_2. by apply list_elem_of_In.
Qed.
Lemma set_handler_fst r c m : (handlers (set_handler r c m)).*1 = (handlers r).*1.
Proof.
  cbn. rewrite <- list_fmap_compose. apply list_fmap_ext. intros i [x y] _. cbn. destruct (Nat.eqb_spec x c) as [->|]; done.
Qed.
Lemma set_handler_ok s them r c m : receiver_ok s them r -> receiver_ok s them (set_handler r c m).
Proof. intros []. split; try done. by rewrite set_handler_fst. Qed.
Lemma remove_only r c : (handlers r).*1 = [c] -> handlers (remove_handler r c) = [].
Proof. cbn. destruct (handlers r) as [|[x y] [|]]; cbn; try done. intros [= ->]. by rewrite Nat.eqb_refl. Qed.

Lemma end_handler_ok s them r c : server_ok s -> receiver_ok s them r -> c ∈ (handlers r).*1 ->
  exists s', end_handler s them r c = Some s' /\ server_ok s'.
Proof.
  intros Hs Hr Hc. destruct (busy_handler s them r c Hr Hc) as (Hh & Hd & Hb). unfold end_handler. rewrite Hd.
  eexists. split; [done|]. apply put_close_ok; [done|]. destruct Hr as [R1 R2 R3 R4 R5]. split; try done.
  replace (busy _) with (Some c) by (by rewrite <-Hb). pose proof (remove_only r c Hh) as E. cbn in E |- *. by rewrite E.
Qed.

Lemma start_handler_ok s them r c : receiver_ok s them r -> handlers r = [] -> done_ r = [] -> callers s !! c = Some (Some them) ->
  receiver_ok s them (start_handler r c).
Proof.
  intros [R1 R2 R3 R4 R5] Hh Hd Hc. split; cbn; try done; [by rewrite Hh, Hd|].
  intros c' [Hin|[|[= <-]]]; [|done|done]. apply R4. by left.
Qed.

Lemma offers_ok s them r os : receiver_ok s them r -> (forall c, c ∈ os -> callers s !! c = Some (Some them)) ->
  receiver_ok s them {| r with offers := os |}.
Proof. intros [R1 R2 R3 R4 R5] Ho. split; try done. cbn. intros c [Hin|Hx]; [by apply Ho|]. apply R4. by right. Qed.
Lemma other_offers s them r c : receiver_ok s them r -> receiver_ok s them {| r with offers := List.filter (fun o => negb (Nat.eqb o c)) (offers r) |}.
Proof.
  intros Hr. apply offers_ok; [done|]. intros c' [Hin _]%list_elem_of_In%filter_In. apply (ok_callers _ _ _ Hr). left. by apply list_elem_of_In.
Qed.
Lemma offered r c : existsb (Nat.eqb c) (offers r) = true -> c ∈ offers r.
Proof. rewrite existsb_exists. intros (x & Hin & ->%Nat.eqb_eq). by apply list_elem_of_In. Qed.

Lemma take_conn_ok s them r c : server_ok s -> receiver_ok s them r -> loop r = Selecting -> c ∈ offers r -> server_ok (take_conn s them r c).
Proof.
  intros Hs Hr Hl Hc. pose proof (ok_callers _ _ _ Hr c (or_introl Hc)) as Hcall.
  pose proof (other_offers s them r c Hr) as Hr'. unfold take_conn. cbn [lastConn]. set (r' := {| rcv := _ |}) in *.
  destruct (lastConn r) as [old|] eqn:El.
  - apply put_close_ok; [done|]. destruct Hr' as [R1 R2 R3 R4 R5]. unfold busy in R2, R4. cbn [loop lastConn r'] in R2, R3, R4. rewrite ?Hl, ?El in R2, R4.
    split; try done; cbn; [by eexists|]. intros c' [Hin|[[= <-]|[= <-]]]; [apply R4; by left|done|]. apply R4. right. by right.
  - apply put_ok; [done|]. pose proof (ok_busy _ _ _ Hr') as Hb. unfold busy in Hb. cbn in Hb. rewrite ?Hl, ?El in Hb.
    apply app_eq_nil in Hb as [Hb1%fmap_nil_inv Hb2]. by apply start_handler_ok.
Qed.

Lemma recv_done_ok s them r d rest : server_ok s -> receiver_ok s them r -> done_ r = d :: rest ->
  exists s', recv_done s them r rest = Some s' /\ server_ok s'.
Proof.
  intros Hs [R1 R2 R3 R4 R5] Hd. rewrite Hd in R2.
  assert (exists c, busy r = Some c /\ handlers r = [] /\ rest = []) as (c & Hb & Hh & ->).
  { destruct (busy r) as [c|]; cbn in R2; [|by apply app_eq_nil in R2 as [_ ?]]. exists c. split; [done|].
    destruct (handlers r) as [|h l]; cbn in R2; [by injection R2|]. injection R2 as _ R2. by apply app_eq_nil in R2 as [_ ?]. }
  unfold recv_done. cbn [loop lastConn]. unfold busy in Hb. destruct (loop r) as [|c'| |] eqn:El.
  - rewrite Hb. eexists. split; [done|]. apply put_ok; [done|]. split; try done; cbn; rewrite ?Hh, ?El; try done.
    intros c' [Hin|[|]]; [|done|done]. apply R4. by left.
  - eexists. split; [done|]. apply put_ok; [done|]. split; cbn; try done; [by rewrite Hh|].
    intros c'' [Hin|[|[= <-]]]; [apply R4; by left|done|]. apply R4. right. by left.
  - eexists. split; [done|]. apply put_ok; [done|]. split; cbn; try done; [by rewrite Hh|].
    intros c'' [Hin|[|]]; [apply R4; by left|done|done].
  - done.
Qed.

Lemma receive_message_spec p pcm p' res : receive_message p pcm = (p', res) -> remote p' = remote p /\
  match res with
  | rPanic => exists d, pcm = cData d /\ data_Msg d = None
  | rForward u ack => pm_peer_id u = remote p /\ seqno p' = ack /\ follow (seqno p) ack
  | _ => seqno p' = seqno p
  end.
Proof.
  unfold receive_message, updateSeqno. destruct pcm as [| |d| |]; try (by intros [= <- <-]).
  destruct (makeSeqno (data_seqno d)) as [n|e]; [|by intros [= <- <-]].
  destruct (cmp n (seqno p) <=? 0) eqn:E1; [by intros [= <- <-]|]. destruct (follows n (seqno p)) eqn:E2; cbn; [|by intros [= <- <-]].
  destruct (data_Msg d) as [msg|] eqn:Ed; intros [= <- <-]; cbn; zbool; [done|]. split; [done|]. eauto.
Qed.

Lemma forwarded_of_snoc s x them : forwarded_of {| s with forwarded_ := forwarded_ s ++ [x] |} them =
  forwarded_of s them ++ (if bool_decide (pm_peer_id x.1.2 = them) then [x.2] else []).
Proof. unfold forwarded_of. cbn. rewrite omap_app. cbn. by destruct (bool_decide _). Qed.

(** A message of a peer is forwarded. *)
Lemma forward_ok s them r c u ack : server_ok s -> receiver_ok s them r -> busy r = Some c -> pm_peer_id u = them -> follow (seqno (rcv r)) ack ->
  let s' := {| s with forwarded_ := forwarded_ s ++ [(c, u, ack)] |} in
  (is_Some (peer_receivers s !! them)) ->
  server_ok (put s' them {| r with rcv := {| seqno := ack; remote := remote (rcv r) |} |}).
Proof.
  intros [H1 H2 H3] [R1 R2 R3 R4 R5] Hb Hu Hf s' [r0 Hin]. cbn [busy loop lastConn] in *.
  assert (forall t, t <> them -> forwarded_of s' t = forwarded_of s t) as Hother.
  { intros t Ht. unfold s'. rewrite forwarded_of_snoc. cbn. rewrite bool_decide_eq_false_2 by congruence. by rewrite app_nil_r. }
  assert (forwarded_of s' them = forwarded_of s them ++ [ack]) as Hthem.
  { unfold s'. rewrite forwarded_of_snoc. cbn. by rewrite bool_decide_eq_true_2. }
  split.
  - intros t r'. cbn. rewrite lookup_insert_Some. intros [[<- <-]|[Hne Ht]].
    + split; [exact R1|exact R2|exact R3|exact R4|]. change (consecutive sequenceNumber_zero (forwarded_of s' them) ack).
      rewrite Hthem. by apply (consecutive_snoc _ _ (seqno (rcv r))).
    + apply (receiver_ok_frame s); [by apply H1|done|]. by apply Hother.
  - intros t Ht. cbn in Ht. apply lookup_insert_None in Ht as [Ht Hne]. change (forwarded_of (put _ _ _) t) with (forwarded_of s' t).
    rewrite Hother by done. by apply H2.
  - intros c' u' n' [Hin'|Hin']%elem_of_app; [by apply (H3 c' u' n')|]. apply list_elem_of_singleton in Hin' as [= -> -> ->].
    cbn. rewrite Hu. apply R4. right. by right.
Qed.

(** Data without a message: the handler follows a nil pointer if the number is
    new. *)
Definition no_msg (pcm : PeerConnectionMessage) : Prop := exists d, pcm = cData d /\ data_Msg d = None.

Lemma read_message_ok s them r c pcm : server_ok s -> peer_receivers s !! them = Some r -> idle_handler r c = true ->
  match read_message s them r c pcm with Some s' => server_ok s' | None => no_msg pcm end.
Proof.
  intros Hs Hr Hi. pose proof (ok_receivers s Hs them r Hr) as Hok. pose proof (idle_busy r c Hi) as Hc.
  destruct (busy_handler s them r c Hok Hc) as (Hh & Hd & Hb). unfold read_message.
  destruct (receive_message (rcv r) pcm) as [p res] eqn:E. apply receive_message_spec in E as [Hrem Hres].
  assert (forall q, remote q = remote (rcv r) -> seqno q = seqno (rcv r) -> receiver_ok s them {| r with rcv := q |}) as Hq.
  { intros q Q1 Q2. destruct Hok as [R1 R2 R3 R4 R5]. split; try done; cbn; by rewrite ?Q1, ?Q2. }
  destruct res as [| |e|ack|u ack]; [done| | | |].
  - apply put_ok; auto.
  - edestruct (end_handler_ok s them {| r with rcv := p |} c) as (s' & -> & ?); auto.
  - apply put_ok; auto.
  - destruct Hres as (Hu & Hs' & Hf).
    assert (p = {| seqno := ack; remote := remote (rcv r) |}) as -> by (destruct p; cbn in *; congruence).
    pose proof (forward_ok s them _ c u ack Hs (set_handler_ok s them r c (Some (u, ack)) Hok) Hb) as Hfw. apply Hfw; [|done|eauto].
    rewrite Hu. apply Hok.
Qed.

Lemma handleConnection_ok s hello : server_ok s -> server_ok (handleConnection s hello).
Proof.
  intros Hs. assert (forall x, server_ok {| s with callers := callers s ++ [x] |}) as Hx.
  { intros x. destruct Hs as [H1 H2 H3]. split; [|done|].
    - intros t r Ht. apply (receiver_ok_frame s); [by apply H1| |done]. intros c y Hy. by apply lookup_app_l_Some.
    - intros c u n Hin. apply lookup_app_l_Some. by apply (H3 c u n). }
  unfold handleConnection. destruct hello as [[them us]|]; [|by apply close_conn_ok].
  destruct (negb _); [by apply close_conn_ok|]. specialize (Hx (Some them)). apply put_ok; [done|].
  apply offers_ok.
  - unfold getOrCreate. destruct (peer_receivers s !! them) as [r|] eqn:E; cbn [default].
    + by apply (ok_receivers _ Hx them r).
    + split; cbn; try done; [intros c [Hin|[|]]; [by apply elem_of_nil in Hin|done..]|].
      pose proof (ok_unknown _ Hx them E) as Hf. unfold forwarded_of in Hf |- *. cbn in Hf. rewrite Hf. constructor.
  - intros c [Hin| ->%list_elem_of_singleton]%elem_of_app; cbn.
    + unfold getOrCreate in Hin. destruct (peer_receivers s !! them) as [r|] eqn:E; cbn [default] in Hin; [|by apply elem_of_nil in Hin].
      apply (ok_callers _ _ _ (ok_receivers _ Hx them r E)). by left.
    + by rewrite lookup_app_r, Nat.sub_diag.
Qed.

(** The event is the reading of such data. *)
Definition fatal_event (e : ServerEvent) : Prop := match e with SRead _ _ pcm => no_msg pcm | _ => False end.

Lemma server_step_ok s e : server_ok s -> match server_step s e with Some s' => server_ok s' | None => fatal_event e end.
Proof.
  intros Hs. assert (Hend : forall o, (exists s', o = Some s' /\ server_ok s') -> match o with Some s' => server_ok s' | None => fatal_event e end).
  { by intros o (s' & -> & ?). } destruct e as [hello|them c|them|them c pcm|them c ok|them c| |them|them c]; cbn [server_step].
  1: { by apply handleConnection_ok. }
  6: { destruct Hs as [H1 H2 H3]. split; [|done..]. intros t r Ht. by apply (receiver_ok_frame s); [apply H1|..]. }
  all: destruct (peer_receivers s !! them) as [r|] eqn:E; [|done]; pose proof (ok_receivers s Hs them r E) as Hr.
  - destruct (loop r) eqn:El; try done. destruct (existsb _ _) eqn:Eo; [|done].
    apply take_conn_ok; try done. by apply offered.
  - destruct (done_ r) as [|d rest] eqn:Ed; [done|]. apply Hend. by apply (recv_done_ok s them r d).
  - destruct (idle_handler r c) eqn:Ei; [|done]. by apply read_message_ok.
  - destruct (sending_handler r c) eqn:Ei; [|done]. apply sending_busy in Ei.
    pose proof (set_handler_ok s them r c None Hr) as Hr'. destruct ok; [by apply put_ok|].
    apply Hend, end_handler_ok; [done..|]. by rewrite set_handler_fst.
  - destruct (idle_handler r c) eqn:Ei; [|done]. apply Hend, end_handler_ok; auto using idle_busy.
  - destruct (loop r) eqn:El; try done. destruct (cancelled s); [|done]. unfold ctx_done.
    destruct Hr as [R1 R2 R3 R4 R5]. unfold busy in R2, R4. rewrite El in R2, R4. destruct (lastConn r) as [old|] eqn:Eo.
    + apply put_close_ok; [done|]. split; cbn; try done.
      intros c [?|[|?]]; [apply R4; auto|done|apply R4; auto].
    + apply put_ok; [done|]. split; cbn; try done. intros c [?|[|]]; [apply R4; auto|done..].
  - destruct (cancelled s && _); [|done]. apply close_conn_ok, put_ok; [done|]. by apply other_offers.
Qed.

Lemma NewPeerServer_ok id : server_ok (NewPeerServer id).
Proof.
  split; cbn; [intros ? ? H; by rewrite lookup_empty in H|done|]. intros c u n H. by apply elem_of_nil in H.
Qed.
Lemma server_run_ok s evs : server_ok s ->
  match server_run s evs with Some s' => server_ok s' | None => exists e, e ∈ evs /\ fatal_event e end.
Proof.
  revert s. induction evs as [|e evs IH]; intros s Hs; cbn [server_run]; [done|].
  pose proof (server_step_ok s e Hs) as H1. destruct (server_step s e) as [s1|]; cbn [mbind option_bind].
  - specialize (IH s1 H1). destruct (server_run s1 evs); [done|]. destruct IH as (e' & He & Hf). exists e'. split; [by right|done].
  - exists e. split; [by left|done].
Qed.

(** C27: However connections come, break and are replaced, the server never
    blocks on a returned handler, it panics only when a caller sends data
    without a message, and a peer has at most one handler: no two messages of
    a peer are sent into the enclave at once, and the numbers of the messages
    it forwarded follow each other over all its connections: the next of the
    same epoch, or the first of a later one.  Each came on a connection whose
    hello named that peer as the caller and this host as the callee. *)
Theorem one_handler_per_peer id evs :
  match server_run (NewPeerServer id) evs with
  | None => exists them c d, SRead them c (cData d) ∈ evs /\ data_Msg d = None
  | Some s =>
      (forall them r, peer_receivers s !! them = Some r -> (length (handlers r) <= 1)%nat /\
         consecutive sequenceNumber_zero (forwarded_of s them) (seqno (rcv r))) /\
      (forall c u n, (c, u, n) ∈ forwarded_ s -> callers s !! c = Some (Some (pm_peer_id u)))
  end.
Proof.
  pose proof (server_run_ok (NewPeerServer id) evs (NewPeerServer_ok id)) as H. destruct (server_run _ evs) as [s|].
  - destruct H as [H1 H2 H3]. split; [|done].
    intros them r Hr. destruct (H1 them r Hr) as [_ Hb _ _ Hc]. split; [|done].
    apply (f_equal length) in Hb. rewrite length_app, length_fmap in Hb. destruct (busy r); cbn in Hb; lia.
  - destruct H as (e & He & Hf). destruct e as [| | |them c pcm| | | | |]; try done. destruct Hf as (d & -> & Hd). by exists them, c, d.
Qed.

(** ** An example: a peer calls twice *)
Module PeerServerExample.
Definition us : PeerID := replicate 32 1.
Definition peer : PeerID := replicate 32 2.
Definition data (e n : Z) : PeerConnectionMessage :=
  cData {| data_Msg := Some {| pm_peer_id := peer; pm_inner := pSyn [9] |}; data_seqno := Some {| epoch := e; seq := n |} |}.
(** The second call replaces the first while its handler sends; the message
    it repeats is not forwarded again. *)
Definition events : list ServerEvent :=
  [SAccept (Some (peer, us)); SAccept (Some (peer, peer)); STake peer 0; SRead peer 0 (data 1 0); SSent peer 0 true; SRead peer 0 (data 1 1);
   SAccept (Some (peer, us)); STake peer 2; SSent peer 0 true; SFail peer 0; SDone peer;
   SRead peer 2 (data 1 1); SRead peer 2 (data 1 2); SRead peer 0 (data 1 3); SSent peer 2 true].
End PeerServerExample.
Import PeerServerExample.

Lemma server_example : option_map (fun s => (forwarded_of s peer, elements (conns_closed s))) (server_run (NewPeerServer us) events) =
  Some ([{| epoch := 1; seq := 0 |}; {| epoch := 1; seq := 1 |}; {| epoch := 1; seq := 2 |}], [1; 0])%nat.
Proof. vm_compute. reflexivity. Qed.

(** Any host that can connect ends the process: its hello names a peer, and
    its first data have a number and no message. *)
Definition nil_message : list ServerEvent :=
  [SAccept (Some (peer, us)); STake peer 0; SRead peer 0 (cData {| data_Msg := None; data_seqno := Some {| epoch := 1; seq := 0 |} |})].
Lemma nil_message_panics : option_map (fun s => size (peer_receivers s)) (server_run (NewPeerServer us) (take 2 nil_message)) = Some 1%nat /\
  server_run (NewPeerServer us) nil_message = None.
Proof. split; vm_compute; reflexivity. Qed.
