(* ===== verification/HostProg.v ===== *)
(** * Programs of the host

    The host's startup and joining code talks to Redis, to the clock and to
    its enclave, while the other nodes do the same.  Such code is a [Prog]: a
    tree of commands with a continuation for every reply.  Nodes interleave
    command by command; what a command answers is chosen by the environment
    ([Choice]), Redis being a parameter with its documented behaviour
    ([RedisLaws]). *)
From stdpp Require Import prelude gmap.
From S2P Require Import Prelude Errors Containers RaftTypes PeerId Minimums GroupClock Msgs.

(** ** Commands *)

(** [redis.Nil], or any other failure. *)
Inductive RedisErr := RNil | RFail.
(** What [SendTransaction] returns: a response, [nil] or an error. *)
Inductive EnclaveReply := EResp (inner : HostToEnclaveResponseInner) | ENil | EErr.

Inductive RedisCmd :=
  | Set_ (key val : bytes) (ttl : Z)
  | SetNX (key val : bytes)
  | Get (key : bytes)
  | Shards
  | Keys (shard : nat) (prefix : bytes).
Definition redis_reply (c : RedisCmd) : Type :=
  match c with
  | Set_ _ _ _ => option RedisErr
  | SetNX _ _ => bool + RedisErr
  | Get _ => bytes + RedisErr
  | Shards => list nat + RedisErr
  | Keys _ _ => list bytes + RedisErr
  end.

Inductive Cmd :=
  | Redis_ (c : RedisCmd)
  | Now                                       (* clock.Now().Unix() *)
  | Wait (d : Z)                              (* select of ctx.Done() and time.After(d) *)
  | Range (n : nat)                           (* the order of a range over a map *)
  | Enclave (req : HostToEnclaveRequestInner). (* SendTransaction *)
Definition reply_of (c : Cmd) : Type :=
  match c with
  | Redis_ c => redis_reply c
  | Now => Z
  | Wait _ => bool
  | Range _ => list nat
  | Enclave _ => EnclaveReply
  end.

Inductive Prog (A : Type) :=
  | Ret (a : A)
  | Do (c : Cmd) (k : reply_of c -> Prog A).
Arguments Ret {A} a.
Arguments Do {A} c k.

Fixpoint prog_bind {A B} (f : A -> Prog B) (p : Prog A) : Prog B :=
  match p with Ret a => f a | Do c k => Do c (fun r => prog_bind f (k r)) end.
#[export] Instance Prog_ret : MRet Prog := fun A a => Ret a.
#[export] Instance Prog_bind : MBind Prog := fun A B f p => prog_bind f p.
Definition call (c : Cmd) : Prog (reply_of c) := Do c Ret.
Definition redis (c : RedisCmd) : Prog (redis_reply c) := Do (Redis_ c) Ret.

(** The elements of a list in an order given by [seeds]: every order is one
    of these, and all of them are orders of the list ([shuffle_perm]). *)
Fixpoint shuffle {A} (seeds : list nat) (l : list A) : list A :=
  match seeds with
  | [] => l
  | s :: seeds' =>
      match l !! (s mod length l)%nat with
      | Some x => x :: shuffle seeds' (list_delete (s mod length l)%nat l)
      | None => l
      end
  end.

Lemma shuffle_perm {A} seeds (l : list A) : shuffle seeds l ≡ₚ l.
Proof.
  revert l. induction seeds as [|s seeds IH]; intros l; [done|]. cbn [shuffle].
  destruct (l !! (s mod length l)%nat) as [x|] eqn:E; [|done].
  by rewrite IH, <-(delete_Permutation _ _ _ E).
Qed.

(** ** Redis *)

(** [r_exec] is one command at a time of the server's clock; [fault] is what
    may go wrong on the way there and back. *)
Class Redis := {
  rstore : Type;
  rempty : rstore;
  fault : Type;
  r_exec : fault -> Z -> forall c : RedisCmd, rstore -> rstore * redis_reply c }.

(** What the code relies on: [SETNX] sets a key only when it is not there,
    and says so, a key set without expiry stays unless it is written, and a
    command writes the key it names only. *)
Class RedisLaws `{Redis} := {
  persists : rstore -> bytes -> Prop;   (* set, without expiry *)
  setnx_true : forall f t s k v, (r_exec f t (SetNX k v) s).2 = inl true -> ~ persists s k /\ persists (r_exec f t (SetNX k v) s).1 k;
  persists_frame : forall f t s c k, persists s k -> (forall v ttl, c <> Set_ k v ttl) -> persists (r_exec f t c s).1 k }.

(** ** Interleavings *)
Section world.
Context `{RD : Redis} {A : Type}.

Record Choice := { ch_fault : fault; ch_time : Z; ch_cancelled : bool; ch_order : list nat; ch_enclave : EnclaveReply }.

(** [requests]: what was asked of the enclaves, with the node that asked. *)
Record World := { store : rstore; procs : list (Prog A); requests : list (nat * HostToEnclaveRequestInner) }.

Definition answer (ch : Choice) (c : Cmd) (s : rstore) : rstore * reply_of c :=
  match c with
  | Redis_ c => r_exec (ch_fault ch) (ch_time ch) c s
  | Now => (s, ch_time ch)
  | Wait _ => (s, ch_cancelled ch)
  | Range _ => (s, ch_order ch)
  | Enclave _ => (s, ch_enclave ch)
  end.
Definition asked (c : Cmd) : option HostToEnclaveRequestInner := match c with Enclave req => Some req | _ => None end.

Inductive NodeEvent :=
  | EvStart (p : Prog A)              (* a node comes up *)
  | EvStep (i : nat) (ch : Choice)    (* a node's next command *)
  | EvCrash (i : nat) (a : A).        (* it goes away *)

Definition w_step (w : World) (ev : NodeEvent) : World :=
  match ev with
  | EvStart p => {| w with procs := procs w ++ [p] |}
  | EvStep i ch =>
      match procs w !! i with
      | Some (Do c k) =>
          let '(s, r) := answer ch c (store w) in
          {| store := s; procs := <[i := k r]> (procs w);
             requests := requests w ++ match asked c with Some req => [(i, req)] | None => [] end |}
      | _ => w
      end
  | EvCrash i a => {| w with procs := <[i := Ret a]> (procs w) |}
  end.
Definition w_run (w : World) (evs : list NodeEvent) : World := foldl w_step w evs.
Definition w_init : World := {| store := rempty; procs := []; requests := [] |}.
End world.
Arguments World {RD} A.
Arguments NodeEvent {RD} A.

(** ** A lock in Redis

    Taking [SETNX] of the key [lock] as the right to do a command once,
    [spends b p Q]: the program [p], which holds the right [b] times, never
    does the command without the right, does not write [lock] otherwise, and
    ends with a result and rights for which [Q] holds. *)
Section lock.
Context (lock : bytes) (guarded : HostToEnclaveRequestInner -> bool).

Fixpoint spends {A} (b : nat) (p : Prog A) (Q : nat -> A -> Prop) {struct p} : Prop :=
  match p with
  | Ret a => Q b a
  | Do c k =>
      match c return (reply_of c -> Prog A) -> (reply_of c -> forall b : nat, Prop) -> Prop with
      | Redis_ (Set_ key _ _) => fun _ K => key <> lock /\ forall r, K r b
      | Redis_ (SetNX key v) => fun _ K => key = lock /\ forall r, K r (match r with inl true => S b | _ => b end)
      | Enclave req => fun _ K => if guarded req then exists b', b = S b' /\ forall r, K r b' else forall r, K r b
      | _ => fun _ K => forall r, K r b
      end k (fun r b => spends b (k r) Q)
  end.

Lemma spends_mono {A} (p : Prog A) b (Q Q' : nat -> A -> Prop) :
  (forall b a, Q b a -> Q' b a) -> spends b p Q -> spends b p Q'.
Proof.
  intros HQ. revert b. induction p as [a|c k IH]; intros b; cbn; [apply HQ|].
  destruct c as [[]| | | |req]; cbn in *; try (intros H; try destruct H as [? H]; split_and?; eauto; fail); eauto.
  destruct (guarded req); [intros (b' & -> & H)|intros H]; eauto.
Qed.

Lemma spends_bind {A B} (p : Prog A) (f : A -> Prog B) b (Q : nat -> A -> Prop) (R : nat -> B -> Prop) :
  spends b p Q -> (forall b a, Q b a -> spends b (f a) R) -> spends b (p ≫= f) R.
Proof.
  intros Hp Hf. unfold mbind, Prog_bind. revert b Hp. induction p as [a|c k IH]; intros b; cbn; [apply Hf|].
  destruct c as [[]| | | |req]; cbn in *; try (intros H; try destruct H as [? H]; split_and?; eauto; fail); eauto.
  destruct (guarded req); [intros (b' & -> & H)|intros H]; eauto.
Qed.

(** *** Over all interleavings *)
Section runs.
Context `{RD : Redis} {RL : RedisLaws} {A : Type}.

Definition guarded_requests (w : World A) : nat := length (List.filter (fun r => guarded r.2) (requests w)).

(** The rights that nodes hold or have used: at most one, and only once the
    key is set. *)
Definition lock_inv (w : World A) : Prop :=
  exists bs, Forall2 (fun p b => spends b p (fun _ _ => True)) (procs w) bs /\
    let used := (sum_list bs + guarded_requests w)%nat in (used <= 1)%nat /\ ((0 < used)%nat -> persists (store w) lock).

Lemma sum_list_insert bs i b b' : bs !! i = Some b -> (sum_list (<[i := b']> bs) + b = sum_list bs + b')%nat.
Proof.
  revert i. induction bs as [|x bs IH]; intros [|i]; cbn; try done; intros Hi; simplify_eq; [by rewrite !(Nat.add_comm _ b), !(Nat.add_comm _ b'), !Nat.add_assoc, (Nat.add_comm b b')|].
  specialize (IH _ Hi). set (sum_list bs) in *. set (sum_list (<[i := b']> bs)) in *. cbn in *. lia.
Qed.

Lemma spends_step (b : nat) c k ch (s : rstore) : spends (A := A) b (Do c k) (fun _ _ => True) ->
  let '(s', r) := answer ch c s in
  exists b', spends b' (k r) (fun _ _ => True) /\ (persists s lock -> persists s' lock) /\
    let used := match asked c with Some req => if guarded req then 1%nat else 0%nat | None => 0%nat end in
    ((b' + used = b)%nat \/ (b' = S b /\ used = 0%nat /\ ~ persists s lock /\ persists s' lock)).
Proof.
  intros Hp. destruct (answer ch c s) as [s' r] eqn:Ea.
  destruct c as [rc| | | |req]; cbn in Ea.
  2-4: injection Ea as <- <-; cbn in Hp; exists b; split; [done|]; split; [done|left; cbn; lia].
  - assert (s' = (r_exec (ch_fault ch) (ch_time ch) rc s).1 /\ r = (r_exec (ch_fault ch) (ch_time ch) rc s).2) as [-> ->] by (by rewrite Ea).
    assert ((forall v ttl, rc <> Set_ lock v ttl) -> persists s lock -> persists (r_exec (ch_fault ch) (ch_time ch) rc s).1 lock) as Hfr
      by (intros; by apply persists_frame).
    destruct rc; cbn in Hp; try (exists b; split; [done|]; split; [by apply Hfr|left; cbn; lia]).
    + destruct Hp as [Hne Hp]. exists b. split; [done|]. split; [apply Hfr; congruence|left; cbn; lia].
    + destruct Hp as [-> Hp]. specialize (Hp (r_exec (ch_fault ch) (ch_time ch) (SetNX lock val) s).2).
      destruct ((r_exec (ch_fault ch) (ch_time ch) (SetNX lock val) s).2) as [[]|] eqn:Er;
        (eexists; split; [exact Hp|]; split; [by apply Hfr|]); [|left; cbn; lia..].
      right. split; [done|]. split; [done|]. by apply setnx_true in Er.
  - injection Ea as <- <-. cbn in Hp |- *. destruct (guarded req).
    + destruct Hp as (b' & -> & Hp). exists b'. split; [done|]. split; [done|]. left. lia.
    + exists b. split; [done|]. split; [done|]. left. lia.
Qed.

Lemma lock_inv_step w ev : lock_inv w -> (forall p, ev = EvStart p -> spends 0 p (fun _ _ => True)) -> lock_inv (w_step w ev).
Proof.
  intros (bs & Hf & Hu & Hs) Hev. destruct ev as [p|i ch|i a]; cbn.
  - exists (bs ++ [0%nat]). split; [apply Forall2_app; [done|]; constructor; [by apply Hev|done]|].
    rewrite sum_list_with_app in *. cbn. unfold guarded_requests in *. cbn in *. rewrite Nat.add_0_r. done.
  - destruct (procs w !! i) as [[a|c k]|] eqn:Ei; [by exists bs| |by exists bs].
    destruct (Forall2_lookup_l _ _ _ _ _ Hf Ei) as (b & Hb & Hsp).
    pose proof (spends_step b c k ch (store w) Hsp) as Hst. destruct (answer ch c (store w)) as [s' r].
    destruct Hst as (b' & Hsp' & Hper & Hcase). exists (<[i := b']> bs). split; [by apply Forall2_insert|].
    pose proof (sum_list_insert bs i b b' Hb) as Hsum. unfold guarded_requests in *. cbn [requests store].
    rewrite List.filter_app, length_app.
    assert (length (List.filter (fun r0 : nat * HostToEnclaveRequestInner => guarded r0.2) match asked c with Some req => [(i, req)] | None => [] end) =
      match asked c with Some req => if guarded req then 1%nat else 0%nat | None => 0%nat end) as -> by (destruct (asked c) as [q|]; [cbn; by destruct (guarded q)|done]).
    destruct Hcase as [Hc|(-> & -> & Hn & Hy)].
    + split; [lia|]. intros Hpos. apply Hper, Hs. lia.
    + assert (sum_list bs + length (List.filter (fun r0 => guarded r0.2) (requests w)) = 0)%nat
        by (destruct (decide (0 < sum_list bs + length (List.filter (fun r0 => guarded r0.2) (requests w))))%nat; [by exfalso; auto|lia]).
      split; [lia|done].
  - destruct (procs w !! i) as [p|] eqn:Ei; last first.
    { rewrite list_insert_ge by (by apply lookup_ge_None). by exists bs. }
    destruct (Forall2_lookup_l _ _ _ _ _ Hf Ei) as (b & Hb & _). exists (<[i := 0%nat]> bs). split; [by apply Forall2_insert|].
    pose proof (sum_list_insert bs i b 0 Hb). unfold guarded_requests in *. cbn in *. split; [lia|]. intros. apply Hs. lia.
Qed.

(** However nodes come, go and interleave, the guarded command is given at
    most once. *)
Lemma lock_once evs : (forall p, EvStart p ∈ evs -> spends 0 p (fun _ _ => True)) ->
  (guarded_requests (w_run w_init evs) <= 1)%nat.
Proof.
  intros Hev. assert (lock_inv (w_run w_init evs)) as (bs & _ & Hu & _); [|lia].
  unfold w_run. assert (lock_inv w_init) as Hi.
  { exists []. split; [constructor|]. cbn. split; [lia|lia]. }
  revert Hi Hev. generalize (w_init (A := A)). induction evs as [|ev evs IH]; intros w Hi Hev; cbn; [done|].
  apply IH; [|intros p Hp; apply Hev; by right]. apply lock_inv_step; [done|]. intros p ->. apply Hev. by left.
Qed.
End runs.
End lock.
