(* ===== verification/PeerDb.v ===== *)
(** * Finding, creating and joining a group (host/util/util.go,
    host/peer/peerdb/peerdb.go, host/raftmanager/raftmanager.go)

    Nodes publish themselves in Redis under keys that expire; a node that
    starts asks one of the published members of the group to let it in, and
    creates a group when there is none and it gets the creation lock.  The
    code, then its properties. *)
From Stdlib Require Import Strings.String.
From stdpp Require Import prelude gmap sorting.
From S2P Require Import Prelude Errors Containers RaftTypes PeerId Minimums GroupClock Msgs HostWire Attest HostAuth HostProg.

(** ** host/util/util.go *)
Definition Min (a b : Z) : Z := if a <? b then a else b.
Definition Max (a b : Z) : Z := if b <? a then a else b.
Definition Clamp (v lo hi : Z) : Z := Max lo (Min hi v).

(** A product of [int64]s. *)
Definition i64_wrap (z : Z) : Z := (z + 2 ^ 63) mod 2 ^ 64 - 2 ^ 63.

Inductive JoinError :=
  | ErrContext | ErrRunning
  | ErrRedis (e : RedisErr) | ErrKey | ErrJson
  | ErrNoLock | ErrLockHeld
  | ErrSend | ErrNilReply | ErrUnexpected | ErrStatus (e : Error) | ErrNotMember | ErrFetch.

(** [fuel] attempts; [ErrRunning] is a loop that goes on. *)
Fixpoint retry_loop {A} (fuel : nat) (f : Prog (A + JoinError)) (sleepTime minSleep maxSleep : Z) : Prog (A + JoinError) :=
  match fuel with
  | O => mret (inr ErrRunning)
  | S fuel' =>
      cancelled ← call (Wait sleepTime);
      if cancelled : bool then mret (inr ErrContext) else
      res ← f;
      match res with
      | inl a => mret (inl a)
      | inr _ => retry_loop fuel' f (Clamp (i64_wrap (sleepTime * 2)) minSleep maxSleep) minSleep maxSleep
      end
  end.
Definition RetrySupplierWithBackoff {A} (fuel : nat) (f : Prog (A + JoinError)) (minSleep maxSleep : Z) : Prog (A + JoinError) :=
  retry_loop fuel f 0 minSleep maxSleep.
Definition RetryWithBackoff (fuel : nat) (f : Prog (option JoinError)) (minSleep maxSleep : Z) : Prog (option JoinError) :=
  r ← RetrySupplierWithBackoff fuel (e ← f; mret (match e with None => inl tt | Some e => inr e end)) minSleep maxSleep;
  mret (match r with inl _ => None | inr e => Some e end).

(** ** host/proto/peerdb.proto *)
Record PeerEntry := { join_ts : Z; last_update_ts : Z; addr : bytes; raft_member : bool; leader : bool }.

(** protojson. *)
Class PeerJson := { MarshalEntry : PeerEntry -> option bytes; UnmarshalEntry : bytes -> option PeerEntry }.

(** ** host/peer/peerdb/peerdb.go *)
Record RedisConfig := { Name : bytes; MinSleepDuration : Z; MaxSleepDuration : Z }.
Record PeerDB := { cfg : RedisConfig; peersKeyPrefix : bytes; createRaftKeyName : bytes }.
Definition PeerDB_New (c : RedisConfig) : PeerDB :=
  {| cfg := c; peersKeyPrefix := Name c ++ str "::" ++ str "peers" ++ str "::"; createRaftKeyName := Name c ++ str "::" ++ str "create" |}.

Definition peerKey (p : PeerDB) (peer : PeerID) : bytes := peersKeyPrefix p ++ format_hex peer.

Definition HasPrefix (s prefix : bytes) : bool := bool_decide (take (List.length prefix) s = prefix).
Definition peerFromKey (p : PeerDB) (key : bytes) : PeerID + JoinError :=
  if negb (HasPrefix key (peersKeyPrefix p)) then inr ErrKey else
  match DecodeString (drop (List.length (peersKeyPrefix p)) key) with
  | None => inr ErrKey
  | Some bs => match PeerID_Make bs with inl id => inl id | inr _ => inr ErrKey end
  end.

(** [betterThan]: whether [e1] is the better candidate. *)
Definition betterThan (e1 e2 : PeerEntry) : bool :=
  if negb (Bool.eqb (leader e1) (leader e2)) then negb (leader e1) else join_ts e2 <? join_ts e1.

(** [sort.Slice], as an insertion sort.  The library's sort may put equals in
    any order; so may the range over a map that gives its argument its order
    ([any_sort_picks]). *)
Section sort.
Context {A : Type} (less : A -> A -> bool).
Fixpoint insert_sorted (x : A) (l : list A) : list A :=
  match l with
  | [] => [x]
  | y :: l' => if less y x then y :: insert_sorted x l' else x :: l
  end.
Definition sort_slice (l : list A) : list A := foldr insert_sorted [] l.
End sort.

(** The loop over the peers, and the first one after sorting. *)
Definition eligible (me : PeerID) (localPeerAddr : bytes) (kv : PeerID * PeerEntry) : bool :=
  negb (bool_decide (kv.1 = me) || bool_decide (addr kv.2 = localPeerAddr)) && raft_member kv.2.
Definition pick (me : PeerID) (localPeerAddr : bytes) (peers : list (PeerID * PeerEntry)) : option PeerID :=
  match sort_slice (fun a b => betterThan a.2 b.2) (List.filter (eligible me localPeerAddr) peers) with
  | [] => None
  | best :: _ => Some best.1
  end.

Section peerdb.
Context {PJ : PeerJson} (p : PeerDB).

Definition Lookup (peer : PeerID) : Prog (option bytes + JoinError) :=
  r ← redis (Get (peerKey p peer));
  mret (match r with
        | inr RNil => inl None
        | _ => let bs := match r with inl bs => bs | inr _ => [] end in
               match UnmarshalEntry bs with None => inr ErrJson | Some e => inl (Some (addr e)) end
        end).

Definition insert_attempt (me : PeerID) (a : bytes) (isRaftMember isLeader : bool) (ttl : Z) : Prog (option JoinError) :=
  currentTime ← call Now;
  let m := {| addr := a; last_update_ts := currentTime; raft_member := isRaftMember; leader := isLeader;
              join_ts := if isRaftMember then currentTime else 0 |} in
  match MarshalEntry m with
  | None => mret (Some ErrJson)
  | Some bs =>
      r ← redis (Set_ (peerKey p me) bs ttl);
      mret (match r with Some e => Some (ErrRedis e) | None => None end)
  end.
Definition insert (fuel : nat) (me : PeerID) (a : bytes) (isRaftMember isLeader : bool) (ttl : Z) : Prog (option JoinError) :=
  RetryWithBackoff fuel (insert_attempt me a isRaftMember isLeader ttl) (MinSleepDuration (cfg p)) (MaxSleepDuration (cfg p)).
Definition Insert (fuel : nat) (me : PeerID) (a : bytes) (ttl : Z) : Prog (option JoinError) := insert fuel me a false false ttl.
Definition JoinedRaft (fuel : nat) (me : PeerID) (isLeader : bool) (a : bytes) (ttl : Z) : Prog (option JoinError) :=
  insert fuel me a true isLeader ttl.

(** [ForEachShard]; the callbacks run one at a time, and one that fails makes
    the call fail. *)
Fixpoint shard_keys (shards : list nat) : Prog (list (list bytes) + JoinError) :=
  match shards with
  | [] => mret (inl [])
  | s :: shards' =>
      r ← redis (Keys s (peersKeyPrefix p));
      match r with
      | inr e => mret (inr (ErrRedis e))
      | inl keys => rest ← shard_keys shards'; mret (match rest with inl r => inl (keys :: r) | inr e => inr e end)
      end
  end.
Fixpoint fetch_keys (keys : list bytes) (ret : gmap PeerID PeerEntry) : Prog (gmap PeerID PeerEntry + JoinError) :=
  match keys with
  | [] => mret (inl ret)
  | key :: keys' =>
      match peerFromKey p key with
      | inr e => mret (inr e)
      | inl peerID =>
          v ← redis (Get key);
          match v with
          | inr RNil => fetch_keys keys' ret
          | inr e => mret (inr (ErrRedis e))
          | inl v => match UnmarshalEntry v with None => mret (inr ErrJson) | Some e => fetch_keys keys' (<[peerID := e]> ret) end
          end
      end
  end.
Definition List_ : Prog (gmap PeerID PeerEntry + JoinError) :=
  shards ← redis Shards;
  match shards with
  | inr e => mret (inr (ErrRedis e))
  | inl shards =>
      shardResults ← shard_keys shards;
      match shardResults with inr e => mret (inr e) | inl results => fetch_keys (mjoin results) ∅ end
  end.

Definition acquireCreationLock (me : PeerID) : Prog (option JoinError) :=
  got ← redis (SetNX (createRaftKeyName p) me);
  mret (match got with inr e => Some (ErrRedis e) | inl false => Some ErrLockHeld | inl true => None end).

Definition find_attempt (me : PeerID) (localPeerAddr : bytes) : Prog (PeerID + JoinError) :=
  peers ← List_;
  match peers with
  | inr e => mret (inr e)
  | inl peers =>
      order ← call (Range (size peers));
      match pick me localPeerAddr (shuffle order (map_to_list peers)) with
      | None =>
          err ← acquireCreationLock me;
          mret (match err with Some _ => inr ErrNoLock | None => inl me end)
      | Some best => mret (inl best)
      end
  end.
Definition FindRaftMember (fuel : nat) (me : PeerID) (localPeerAddr : bytes) : Prog (PeerID + JoinError) :=
  RetrySupplierWithBackoff fuel (find_attempt me localPeerAddr) (MinSleepDuration (cfg p)) (MaxSleepDuration (cfg p)).

(** ** host/raftmanager/raftmanager.go *)
Record RaftManager := { me_ : PeerID; localPeerAddr_ : bytes; isMember : bool }.
Definition RaftManager_New (me : PeerID) (peerAddr : bytes) : RaftManager := {| me_ := me; localPeerAddr_ := peerAddr; isMember := false |}.

Definition sendToEnclave (req : HostToEnclaveRequestInner) : Prog (option JoinError) :=
  reply ← call (Enclave req);
  mret (match reply with
        | EErr => Some ErrSend
        | ENil => Some ErrNilReply
        | EResp (oStatus e) => if negb (is_ok e) then Some (ErrStatus e) else None
        | EResp _ => Some ErrUnexpected
        end).
Definition createRaft : Prog (option JoinError) := sendToEnclave (hCreateNewRaftGroup true).
Definition joinExistingRaftPeer (peer : PeerID) : Prog (option JoinError) := sendToEnclave (hJoinRaft peer).
Definition refreshAttestation : Prog (option JoinError) := sendToEnclave (hRefreshAttestation false).

Definition CreateOrJoin (fuel : nat) (r : RaftManager) : Prog (RaftManager * option JoinError) :=
  raftPeer ← FindRaftMember fuel (me_ r) (localPeerAddr_ r);
  match raftPeer with
  | inr _ => mret (r, Some ErrFetch)
  | inl raftPeer =>
      err ← (if bool_decide (raftPeer = me_ r) then createRaft else joinExistingRaftPeer raftPeer);
      match err with
      | Some _ => mret (r, err)
      | None =>
          err ← refreshAttestation;
          match err with
          | Some _ => mret (r, err)
          | None => mret ({| r with isMember := true |}, None)
          end
      end
  end.

(** Whether the enclave thinks that it leads.  A [nil] response, which the
    dispatcher does not give, would end the process: [ErrNilReply]. *)
Definition enclaveJoinInfo : Prog (bool + JoinError) :=
  resp ← call (Enclave (hGetEnclaveStatus true));
  mret (match resp with
        | EErr => inr ErrSend
        | ENil => inr ErrNilReply
        | EResp (oStatus e) => if negb (is_ok e) then inr (ErrStatus e) else inr ErrUnexpected
        | EResp (oGetEnclaveStatusReply s) =>
            if negb (bool_decide (ers_raft_state s = RAFTSTATE_LOADED_PART_OF_GROUP)) then inr ErrNotMember
            else inl (existsb (fun peer => eps_me peer && eps_is_leader peer) (ers_peers s))
        | EResp _ => inr ErrUnexpected
        end).

(** The loop of [RunRefresher]: [fuel] ticks. *)
Fixpoint refresher_loop (fuel : nat) (refresh : Z) (markLive : bool -> Prog (option JoinError)) : Prog (option JoinError) :=
  match fuel with
  | O => mret (Some ErrRunning)
  | S fuel' =>
      cancelled ← call (Wait refresh);
      if cancelled : bool then mret (Some ErrContext) else
      info ← enclaveJoinInfo;
      match info with
      | inr ErrNilReply => mret (Some ErrNilReply)
      | inr _ => refresher_loop fuel' refresh markLive
      | inl isLeader => markLive isLeader;; refresher_loop fuel' refresh markLive
      end
  end.
Definition RunRefresher (fuel : nat) (refresh : Z) (r : RaftManager) (markLive : bool -> Prog (option JoinError)) : Prog (option JoinError) :=
  if negb (isMember r) then mret (Some ErrNotMember) else
  err ← markLive false;
  match err with Some e => mret (Some e) | None => refresher_loop fuel refresh markLive end.

(** ** Startup (host/service/service.go): publish the address, create or join
    a group, then go on publishing. *)
Definition join_main (fuel : nat) (nodeID : PeerID) (peerAddr : bytes) (initialTTL recurringTTL refresh : Z) : Prog (option JoinError) :=
  err ← Insert fuel nodeID peerAddr initialTTL;
  match err with
  | Some e => mret (Some e)
  | None =>
      '(r, err) ← CreateOrJoin fuel (RaftManager_New nodeID peerAddr);
      match err with
      | Some e => mret (Some e)
      | None => RunRefresher fuel refresh r (fun isLeader => JoinedRaft fuel nodeID isLeader peerAddr recurringTTL)
      end
  end.
End peerdb.

(** * Properties of finding, creating and joining a group

    Keys and their parsing, the back-off of retries, the candidate that is
    picked, and that the creation lock lets one node create a group. *)

(** ** Retries *)

(** The sleep before the [n]-th attempt. *)
Fixpoint sleep (n : nat) (minSleep maxSleep : Z) : Z :=
  match n with O => 0 | S n' => Clamp (i64_wrap (sleep n' minSleep maxSleep * 2)) minSleep maxSleep end.

Lemma Clamp_spec v lo hi : lo <= hi -> Clamp v lo hi = Z.max lo (Z.min hi v).
Proof. unfold Clamp, Max, Min. intros. repeat case_match; zbool; lia. Qed.
Lemma i64_wrap_small z : - 2 ^ 63 <= z < 2 ^ 63 -> i64_wrap z = z.
Proof. intros Hz. unfold i64_wrap. rewrite Z.mod_small; lia. Qed.

(** Doubling from the least to the greatest, without overflow. *)
Lemma sleep_doubles n lo hi : 0 < lo <= hi -> hi < 2 ^ 62 -> sleep (S n) lo hi = Z.min hi (lo * 2 ^ Z.of_nat n).
Proof.
  intros Hlo Hhi. induction n as [|n IH].
  { cbn [sleep]. rewrite Clamp_spec, i64_wrap_small by lia. change (2 ^ Z.of_nat 0) with 1. lia. }
  change (sleep (S (S n)) lo hi) with (Clamp (i64_wrap (sleep (S n) lo hi * 2)) lo hi). rewrite IH, i64_wrap_small, Clamp_spec.
  - rewrite Nat2Z.inj_succ, Z.pow_succ_r by lia. pose proof (Z.pow_pos_nonneg 2 (Z.of_nat n)). nia.
  - lia.
  - pose proof (Z.pow_pos_nonneg 2 (Z.of_nat n)). nia.
Qed.

(** ** Keys *)
Lemma HasPrefix_app a b : HasPrefix (a ++ b) a = true.
Proof. apply bool_decide_eq_true. by rewrite take_app_length. Qed.

Lemma peerFromKey_peerKey p id : List.length id = 32%nat -> bytes_ok id -> peerFromKey p (peerKey p id) = inl id.
Proof.
  intros Hl Hb. unfold peerFromKey, peerKey. rewrite HasPrefix_app, drop_app_length. cbn [negb].
  rewrite DecodeString_format by done. unfold PeerID_Make, Zlen. by rewrite Hl.
Qed.

Lemma keys_apart c me : peerKey (PeerDB_New c) me <> createRaftKeyName (PeerDB_New c).
Proof.
  unfold peerKey, PeerDB_New. cbn [peersKeyPrefix createRaftKeyName]. rewrite <-(assoc_L (++)). intros Heq.
  apply app_inv_head in Heq. discriminate Heq.
Qed.

(** ** The candidate *)
Section best.
Context {A : Type} (less : A -> A -> bool).
(** One pass over the list. *)
Definition best (l : list A) : option A :=
  foldr (fun x acc => match acc with None => Some x | Some y => Some (if less y x then y else x) end) None l.

Lemma sort_slice_best l : head (sort_slice less l) = best l.
Proof.
  unfold sort_slice, best. induction l as [|x l IH]; [done|]. cbn [foldr]. rewrite <-IH.
  destruct (foldr (insert_sorted less) [] l) as [|y l']; [done|]. cbn. by destruct (less y x).
Qed.
Lemma best_elem l x : best l = Some x -> x ∈ l.
Proof.
  revert x. induction l as [|a l IH]; intros x; [done|]. cbn. fold (best l). destruct (best l) as [y|].
  - intros [= <-]. destruct (less y a); [right; by apply IH|by left].
  - intros [= ->]. by left.
Qed.
Lemma best_None l : best l = None <-> l = [].
Proof. split; [|by intros ->]. destruct l as [|a l]; [done|]. cbn. by case_match. Qed.

(** With an order whose complement is transitive, nothing is better. *)
Lemma best_max l x : (forall a, less a a = false) -> (forall a b c, less a b = false -> less b c = false -> less a c = false) ->
  (forall a b, less a b = true -> less b a = false) -> best l = Some x -> forall y, y ∈ l -> less y x = false.
Proof.
  intros Hi Ht Ha. revert x. induction l as [|a l IH]; intros x Hb y Hy; [by apply elem_of_nil in Hy|].
  cbn in Hb. fold (best l) in Hb. destruct (best l) as [z|] eqn:E.
  - injection Hb as <-. apply elem_of_cons in Hy as [->|Hy].
    + destruct (less z a) eqn:Ez; auto.
    + destruct (less z a) eqn:Ez; [by apply IH|]. apply (Ht y z a); auto.
  - injection Hb as <-. apply best_None in E as ->. apply elem_of_cons in Hy as [->|Hy]; [done|by apply elem_of_nil in Hy].
Qed.
End best.

Lemma betterThan_irrefl e : betterThan e e = false.
Proof. unfold betterThan. rewrite eqb_reflx. cbn. apply Z.ltb_irrefl. Qed.
Lemma betterThan_asym a b : betterThan a b = true -> betterThan b a = false.
Proof. unfold betterThan. destruct (leader a), (leader b); cbn; intros H; try done; zbool; apply Z.ltb_ge; lia. Qed.
Lemma betterThan_negtrans a b c : betterThan a b = false -> betterThan b c = false -> betterThan a c = false.
Proof. unfold betterThan. destruct (leader a), (leader b), (leader c); cbn; intros H1 H2; try done; zbool; apply Z.ltb_ge; lia. Qed.

Definition better (a b : PeerID * PeerEntry) : bool := betterThan a.2 b.2.

(** The candidate is the best of the eligible peers. *)
Lemma pick_is_best me a peers : pick me a peers = fst <$> best better (List.filter (eligible me a) peers).
Proof. unfold pick. rewrite <-sort_slice_best. unfold better. by destruct (sort_slice _ _). Qed.
Lemma eligible_inv me a k e : eligible me a (k, e) = true -> k <> me /\ addr e <> a /\ raft_member e = true.
Proof. unfold eligible. cbn. intros. by zbool. Qed.
Lemma best_eligible me a peers k e : best better (List.filter (eligible me a) peers) = Some (k, e) -> (k, e) ∈ peers /\ eligible me a (k, e) = true.
Proof. intros Hb%best_elem. apply list_elem_of_In, filter_In in Hb as [Hin He]. split; [by apply list_elem_of_In|done]. Qed.

Lemma filter_perm {A} (f : A -> bool) l l' : l ≡ₚ l' -> List.filter f l ≡ₚ List.filter f l'.
Proof. induction 1; cbn; repeat case_match; eauto using perm_skip, perm_swap, perm_trans. Qed.

(** Whatever order a sort gives to equals, its first is the pick for some
    order of the peers. *)
Lemma any_sort_picks me a peers k e rest :
  (k, e) :: rest ≡ₚ List.filter (eligible me a) peers -> (forall x, x ∈ rest -> better x (k, e) = false) ->
  exists peers', peers' ≡ₚ peers /\ pick me a peers' = Some k.
Proof.
  intros Hp Hbest. assert ((k, e) ∈ List.filter (eligible me a) peers) as Hin by (rewrite <-Hp; by left).
  apply list_elem_of_In, filter_In in Hin as [Hin He]. apply list_elem_of_In, elem_of_Permutation in Hin as [others Ho].
  exists ((k, e) :: others). split; [done|]. rewrite pick_is_best. cbn [List.filter]. rewrite He. cbn [best foldr].
  fold (best better (List.filter (eligible me a) others)).
  destruct (best better (List.filter (eligible me a) others)) as [y|] eqn:Eb; [|done].
  assert (List.filter (eligible me a) others ≡ₚ rest) as Hr.
  { apply (Permutation_cons_inv (a := (k, e))). rewrite Hp. rewrite (filter_perm (eligible me a) _ _ Ho). cbn [List.filter]. by rewrite He. }
  rewrite (Hbest y); [done|]. rewrite <-Hr. by apply best_elem in Eb.
Qed.

(** C34: Which member a starting node asks to join: sorting the eligible
    peers with [betterThan] and taking the first is the same as one pass over
    them for the best one; there is a result exactly when a peer is eligible,
    namely a published member of the group with another identity and another
    address, and no eligible peer is better than it: none that follows when
    it leads, and none that joined later otherwise.  Any other sort, which may
    order equals differently, puts first what this one does for some order of
    the peers. *)
Theorem pick_best me a peers :
  let candidates := List.filter (eligible me a) peers in
  pick me a peers = fst <$> best better candidates /\
  (pick me a peers = None <-> candidates = []) /\
  (forall k e rest, (k, e) :: rest ≡ₚ candidates -> (forall x, x ∈ rest -> better x (k, e) = false) ->
     exists peers', peers' ≡ₚ peers /\ pick me a peers' = Some k) /\
  forall k, pick me a peers = Some k ->
    k <> me /\ exists e, (k, e) ∈ peers /\ raft_member e = true /\ addr e <> a /\
      forall k' e', (k', e') ∈ peers -> eligible me a (k', e') = true ->
        betterThan e' e = false /\ (leader e = true -> leader e' = true) /\ (leader e = leader e' -> join_ts e' <= join_ts e).
Proof.
  intros candidates.
  unfold candidates. rewrite pick_is_best. split; [done|]. split; [rewrite fmap_None; apply best_None|].
  split; [intros k e rest; apply any_sort_picks|]. intros k Hk.
  apply fmap_Some in Hk as ([k0 e] & Hb & ->). pose proof (best_eligible _ _ _ _ _ Hb) as [Hin (Hm & Ha & Hr)%eligible_inv].
  split; [done|]. exists e. split_and!; [done..|].
  intros k' e' Hk' He'. assert (betterThan e' e = false) as Hn.
  { refine (best_max better candidates (k0, e) (fun a => betterThan_irrefl a.2) (fun a b c => betterThan_negtrans a.2 b.2 c.2)
      (fun a b => betterThan_asym a.2 b.2) Hb (k', e') _). apply list_elem_of_In, filter_In. split; [by apply list_elem_of_In|done]. }
  split; [done|]. unfold betterThan in Hn. destruct (leader e), (leader e'); cbn in Hn; split; try done; intros; zbool; lia.
Qed.

(** ** The creation lock *)
Section creation.
Context {PJ : PeerJson} (c : RedisConfig).
Let p := PeerDB_New c.

Definition creates (req : HostToEnclaveRequestInner) : bool := match req with hCreateNewRaftGroup _ => true | _ => false end.
Notation ok := (spends (createRaftKeyName p) creates).

(** A part that neither takes the lock nor creates. *)
Definition quiet {A} (b : nat) (q : Prog A) : Prop := ok b q (fun b' _ => b' = b).

Lemma quiet_then {A B} b (q : Prog A) (f : A -> Prog B) Q : quiet b q -> (forall a, ok b (f a) Q) -> ok b (q ≫= f) Q.
Proof. intros Hq Hf. eapply spends_bind; [exact Hq|]. intros ? a ->. apply Hf. Qed.

(** Attempts that fail leave the rights as they are. *)
Lemma retry_ok {A} n fuel (f : Prog (A + JoinError)) s lo hi (Q : nat -> A -> Prop) :
  ok n f (fun b r => match r with inl a => Q b a | inr _ => b = n end) ->
  ok n (retry_loop fuel f s lo hi) (fun b r => match r with inl a => Q b a | inr _ => b = n end).
Proof.
  intros Hf. revert s. induction fuel as [|fuel IH]; intros s; [done|]. intros cancelled. cbn. destruct cancelled; [done|].
  eapply spends_bind; [exact Hf|]. intros b [a|e]; [done|]. intros ->. apply IH.
Qed.

Lemma insert_ok n fuel me a member lead ttl : quiet n (insert p fuel me a member lead ttl).
Proof.
  unfold quiet, insert, RetryWithBackoff. eapply spends_bind with (Q := fun b r => b = n).
  - refine (spends_mono _ _ _ _ (fun b r => match r with inl _ => b = n | inr _ => b = n end) _ _ (retry_ok _ _ _ _ _ _ (fun b _ => b = n) _)).
    { by intros b []. }
    intros t. cbn. destruct (MarshalEntry _); cbn; [|done]. split; [apply keys_apart|]. intros [e|]; done.
  - intros b r ->. done.
Qed.

Lemma shard_keys_quiet shards : quiet 0 (shard_keys p shards).
Proof.
  induction shards as [|s shards IH]; [done|]. intros [keys|e]; cbn; [|done].
  eapply quiet_then; [exact IH|]. done.
Qed.
Lemma fetch_keys_quiet keys ret : quiet 0 (fetch_keys p keys ret).
Proof.
  revert ret. induction keys as [|key keys IH]; intros ret; [done|]. cbn [fetch_keys]. destruct (peerFromKey p key); [|done].
  intros [v|[]]; cbn; [|apply IH|done]. destruct (UnmarshalEntry v); [apply IH|done].
Qed.
Lemma List_quiet : quiet 0 (List_ p).
Proof.
  intros [shards|e]; cbn; [|done]. eapply quiet_then; [apply shard_keys_quiet|]. intros [results|e]; [apply fetch_keys_quiet|done].
Qed.

(** A node that is told to create has the right to. *)
Lemma FindRaftMember_ok fuel me a :
  ok 0 (FindRaftMember p fuel me a) (fun b r => match r with inl k => k = me -> b = 1%nat | inr _ => b = 0%nat end).
Proof.
  apply retry_ok. unfold find_attempt. eapply quiet_then; [apply List_quiet|]. intros [peers|e]; [|done].
  intros order. cbn. destruct (pick _ _ _) as [k|] eqn:Ep; cbn.
  - intros ->. rewrite pick_is_best in Ep. apply fmap_Some in Ep as ([k e] & Hb & ->). by apply best_eligible in Hb as [_ [[] _]%eligible_inv].
  - split; [done|]. intros [[]|e]; cbn; done.
Qed.

Lemma sendToEnclave_quiet b req : creates req = false -> quiet b (sendToEnclave req).
Proof. intros Hc. unfold quiet. cbn. rewrite Hc. done. Qed.

Lemma RunRefresher_ok n fuel fuel' refresh r me a ttl :
  ok n (RunRefresher fuel refresh r (fun isLeader => JoinedRaft p fuel' me isLeader a ttl)) (fun _ _ => True).
Proof.
  unfold RunRefresher. destruct (isMember r); [|done]. cbn [negb]. eapply quiet_then; [apply insert_ok|]. intros [e|]; [done|].
  induction fuel as [|fuel IH]; [done|]. intros cancelled. cbn. destruct cancelled; [done|]. intros resp. cbn.
  repeat case_match; try done; try apply IH. eapply quiet_then; [apply insert_ok|]. intros _. apply IH.
Qed.

Lemma join_main_ok fuel me a t1 t2 t3 : ok 0 (join_main p fuel me a t1 t2 t3) (fun _ _ => True).
Proof.
  unfold join_main. eapply quiet_then; [apply insert_ok|]. intros [e|]; [done|].
  eapply spends_bind with (Q := fun _ _ => True); [|].
  { unfold CreateOrJoin. eapply spends_bind; [apply FindRaftMember_ok|]. intros b [k|e] Hb; [|done].
    assert (forall r b, ok b (refreshAttestation ≫= (fun err => match err with Some _ => mret (r, err) | None =>
      mret ({| r with isMember := true |}, None) end)) (fun _ _ => True)) as Hr.
    { intros r b'. eapply quiet_then; [by apply sendToEnclave_quiet|]. by intros []. }
    cbn [me_ RaftManager_New]. case_bool_decide as Hk.
    - specialize (Hb Hk) as ->. eapply spends_bind with (Q := fun b _ => b = 0%nat); [by exists 0%nat|].
      intros ? [e|] ->; [done|apply Hr].
    - eapply quiet_then; [by apply sendToEnclave_quiet|]. intros [e|]; [done|apply Hr]. }
  intros b [r [e|]] _; [done|]. cbn.
  apply RunRefresher_ok.
Qed.
End creation.

(** C13: However many nodes start, stop and interleave their commands to
    Redis, with whatever replies get lost, candidates they see and answers
    their enclaves give, at most one of the enclaves of a deployment is ever
    told to create a Raft group: a node does so only after it got the creation
    lock, which has no expiry. *)
Theorem one_group_created {PJ : PeerJson} {RD : Redis} {RL : RedisLaws} (name : bytes) (evs : list (NodeEvent (option JoinError))) :
  (forall q, EvStart q ∈ evs -> exists c fuel me a t1 t2 t3, Name c = name /\ q = join_main (PeerDB_New c) fuel me a t1 t2 t3) ->
  (length (List.filter (fun r => creates r.2) (requests (w_run w_init evs))) <= 1)%nat.
Proof.
  intros Hev. apply (lock_once (name ++ str "::" ++ str "create") creates evs). intros q Hq.
  destruct (Hev q Hq) as (c & fuel & me & a & t1 & t2 & t3 & <- & ->). apply (join_main_ok c).
Qed.

(** ** An instance of Redis, and two nodes *)
Module PeerDbExample.
Inductive NetFault := NoFault | LostRequest | LostReply.
#[export] Instance bytes_countable : Countable bytes := list_countable.

Definition live (t : Z) (s : gmap bytes (bytes * option Z)) (k : bytes) : option bytes :=
  match s !! k with
  | Some (v, None) => Some v
  | Some (v, Some e) => if t <? e then Some v else None
  | None => None
  end.
Definition perform (t : Z) (c : RedisCmd) (s : gmap bytes (bytes * option Z)) : gmap bytes (bytes * option Z) * redis_reply c :=
  match c with
  | Set_ k v ttl => (<[k := (v, if ttl =? 0 then None else Some (t + ttl))]> s, None)
  | SetNX k v => match live t s k with Some _ => (s, inl false) | None => (<[k := (v, None)]> s, inl true) end
  | Get k => (s, match live t s k with Some v => inl v | None => inr RNil end)
  | Shards => (s, inl [0%nat])
  | Keys _ prefix => (s, inl (List.filter (fun k => HasPrefix k prefix && bool_decide (is_Some (live t s k))) (map_to_list s).*1))
  end.
Definition failed (c : RedisCmd) : redis_reply c :=
  match c with Set_ _ _ _ => Some RFail | SetNX _ _ => inr RFail | Get _ => inr RFail | Shards => inr RFail | Keys _ _ => inr RFail end.

#[export] Instance MapRedis : Redis := {|
  rstore := gmap bytes (bytes * option Z); rempty := ∅; fault := NetFault;
  r_exec := fun f t c s => match f with
    | NoFault => perform t c s
    | LostRequest => (s, failed c)
    | LostReply => ((perform t c s).1, failed c)
    end |}.

Definition map_persists (s : gmap bytes (bytes * option Z)) (k : bytes) : Prop := exists v, s !! k = Some (v, None).
Lemma perform_persists t c s k : map_persists s k -> (forall v ttl, c <> Set_ k v ttl) -> map_persists (perform t c s).1 k.
Proof.
  intros [v Hv] Hc. destruct c as [k' v' ttl|k' v'|k'| |sh pre]; cbn; try (by exists v).
  - exists v. rewrite lookup_insert_ne; [done|]. intros ->. by apply (Hc v' ttl).
  - destruct (live t s k') eqn:E; [by exists v|]. exists v. cbn. rewrite lookup_insert_ne; [done|]. intros ->. unfold live in E. by rewrite Hv in E.
Qed.
#[export] Instance MapRedis_laws : RedisLaws.
Proof.
  refine {| persists := map_persists |}.
  - intros [] t s k v; cbn; try done. destruct (live t s k) eqn:E; cbn; [done|]. intros _. split.
    + intros [w Hw]. unfold live in E. by rewrite Hw in E.
    + exists v. by rewrite lookup_insert_eq.
  - intros [] t s c k Hp Hc; cbn; try done; by apply perform_persists.
Defined.

#[export] Instance ToyJson : PeerJson := {|
  MarshalEntry := fun e => Some (join_ts e :: last_update_ts e :: Z.b2z (raft_member e) :: Z.b2z (leader e) :: addr e);
  UnmarshalEntry := fun b => match b with
    | j :: u :: m :: l :: a => Some {| join_ts := j; last_update_ts := u; addr := a; raft_member := m =? 1; leader := l =? 1 |}
    | _ => None end |}.

Definition config : RedisConfig := {| Name := str "svr"; MinSleepDuration := 10; MaxSleepDuration := 100 |}.
Definition node (n : Z) : Prog (option JoinError) := join_main (PeerDB_New config) 3 (repeat n 32) (str "10.0.0." ++ [48 + n]) 60 60 5.
Definition choice (f : NetFault) (t : Z) (e : EnclaveReply) : Choice :=
  {| ch_fault := f; ch_time := t; ch_cancelled := false; ch_order := [1; 0]%nat; ch_enclave := e |}.
Definition ok_step (i : nat) (t : Z) : NodeEvent (option JoinError) := EvStep i (choice NoFault t (EResp (oStatus OK))).

(** The first node creates a group, which its refresher publishes; a request
    of the second is lost before it finds the first. *)
Definition schedule : list (NodeEvent (option JoinError)) :=
  [EvStart (node 1); EvStart (node 2)] ++ replicate 14 (ok_step 0 100) ++
  replicate 4 (ok_step 1 101) ++ [EvStep 1 (choice LostRequest 101 EErr)] ++ replicate 10 (ok_step 1 102).
End PeerDbExample.
Import PeerDbExample.

Lemma one_group_created_witness :
  (requests (w_run w_init schedule)).*1 = [0; 0; 1; 1]%nat /\
  (List.filter (fun r => creates r.2) (requests (w_run w_init schedule))).*1 = [0%nat] /\
  (length (List.filter (fun r => creates r.2) (requests (w_run w_init schedule))) <= 1)%nat.
Proof.
  split; [vm_compute; reflexivity|]. split; [vm_compute; reflexivity|].
  apply (one_group_created (str "svr")). intros q Hq. unfold schedule in Hq.
  repeat (first [apply elem_of_cons in Hq as [Hq|Hq]|apply elem_of_app in Hq as [Hq|Hq]]);
    try (by apply elem_of_nil in Hq); try (by apply elem_of_replicate in Hq as [? _]); try done;
    injection Hq as ->; exists config; do 6 eexists; split; reflexivity.
Defined.
