(* ===== verification/Dispatch.v ===== *)
(** * Between host and enclave (host/dispatch/dispatcher.go, host/util/txid.go)

    Callers hand a message and a reply channel to workers, which call into the
    enclave; what comes out of the enclave goes to the caller that waits for
    it or to the peers.  Channels are cells of a store: closing a closed
    channel or sending on one panics, and sending on a full one blocks.  The
    goroutine that takes the enclave's messages may itself become a caller:
    the peer sender resets a peer it cannot reach, and waits for it. *)
From stdpp Require Import prelude gmap.
From S2P Require Import Prelude Errors Containers RaftTypes PeerId Minimums GroupClock Msgs.

(** ** [TxGenerator] *)
Record TxGenerator := { txcounter : Z }.
Definition NextID (t : TxGenerator) : TxGenerator * Z :=
  let n := u64 (txcounter t + 1) in ({| txcounter := n |}, n).

(** ** Channels with room for one reply *)
Record Chan := { reply : option EnclaveMessage; closed : bool }.
Definition Chan_new : Chan := {| reply := None; closed := false |}.

Record toEnclave := { message : UntrustedMessage; recv : nat }.

(** [sent]: all messages given to [Send], the [c]-th with channel [c]; [tx]:
    offered on the unbuffered channel and not yet taken; [sending]: in a
    worker's call of [SendMessage]; [to_peers]: queued for the peers;
    [workers]: the goroutines of [forwardToEnclaveLoop]; [forwarder]: the
    channel on which [forwardToHost] waits, in [ResetPeer]. *)
Record Dispatcher := {
  txGen : TxGenerator;
  chans : gmap nat Chan;
  sent : list UntrustedMessage;
  tx : list toEnclave;
  sending : list toEnclave;
  receivers : gmap Z nat;
  to_peers : list PeerMessage;
  workers : nat;
  forwarder : option nat }.
Definition New (EnclaveConcurrency : nat) (t : TxGenerator) : Dispatcher :=
  {| txGen := t; chans := ∅; sent := []; tx := []; sending := []; receivers := ∅; to_peers := [];
     workers := EnclaveConcurrency - 1; forwarder := None |}.

Definition setReceiver (d : Dispatcher) (id : Z) (c : nat) : Dispatcher := {| d with receivers := <[id := c]> (receivers d) |}.
Definition deleteReceiver (d : Dispatcher) (id : Z) : Dispatcher * option nat :=
  ({| d with receivers := delete id (receivers d) |}, receivers d !! id).

Definition close (d : Dispatcher) (c : nat) : option Dispatcher :=
  match chans d !! c with
  | Some ch => if closed ch then None else Some {| d with chans := <[c := {| ch with closed := true |}]> (chans d) |}
  | None => None
  end.
Definition send_chan (d : Dispatcher) (c : nat) (m : EnclaveMessage) : option Dispatcher :=
  match chans d !! c with
  | Some ch =>
      if closed ch then None else
      match reply ch with Some _ => None | None => Some {| d with chans := <[c := {| ch with reply := Some m |}]> (chans d) |} end
  | None => None
  end.

(** [Send], up to where it waits for the reply. *)
Definition Send (d : Dispatcher) (p : UntrustedMessage) : Dispatcher :=
  let c := length (sent d) in
  {| d with sent := sent d ++ [p]; chans := <[c := Chan_new]> (chans d); tx := tx d ++ [{| message := p; recv := c |}] |}.

(** The request that [SendTransaction] sends. *)
Definition SendTransaction (d : Dispatcher) (req : HostToEnclaveRequest) : option Dispatcher :=
  if negb (h2e_request_id req =? 0) then None else
  let '(t, id) := NextID (txGen d) in
  Some (Send {| d with txGen := t |} (uH2ERequest {| req with h2e_request_id := id |})).

(** [forwardToEnclave], before and after the call of [SendMessage]. *)
Definition forwardToEnclave_begin (d : Dispatcher) (t : toEnclave) : Dispatcher :=
  match message t with uH2ERequest r => setReceiver d (h2e_request_id r) (recv t) | _ => d end.
Definition forwardToEnclave_end (d : Dispatcher) (t : toEnclave) (ok : bool) : option Dispatcher :=
  match message t with
  | uH2ERequest r =>
      if ok then Some d else
      let '(d, c) := deleteReceiver d (h2e_request_id r) in
      match c with Some c => close d c | None => Some d end
  | _ => close d (recv t)
  end.

(** What the peer sender does with a message: it queues it, refuses it, or
    asks for the peer to be reset and then refuses it. *)
Inductive PeerSent := psQueued | psError | psReset (id : PeerID).

(** [ResetPeer], up to where it waits. *)
Definition ResetPeer (d : Dispatcher) (id : PeerID) : Dispatcher := Send d (uResetPeer id).

(** Whether there was no error: a response without a request, or a peer that
    could not be reached. *)
Definition forwardToHost (d : Dispatcher) (m : EnclaveMessage) (res : PeerSent) : option (Dispatcher * bool) :=
  match m with
  | mH2EResponse id _ =>
      let '(d, c) := deleteReceiver d id in
      match c with
      | None => Some (d, false)
      | Some c => match send_chan d c m with None => None | Some d => option_map (fun d => (d, true)) (close d c) end
      end
  | mPeerMessage pm =>
      match res with
      | psQueued => Some ({| d with to_peers := to_peers d ++ [pm] |}, true)
      | psError => Some (d, false)
      | psReset id => Some ({| (ResetPeer d id) with forwarder := Some (length (sent d)) |}, false)
      end
  end.

(** ** Interleavings of callers, workers and the enclave *)

(** A worker of [forwardToEnclaveLoop] takes the message of a caller. *)
Definition forwardToEnclaveLoop_take (d : Dispatcher) (i : nat) : Dispatcher :=
  if negb (length (sending d) <? workers d)%nat then d else
  match tx d !! i with
  | None => d
  | Some t => forwardToEnclave_begin {| d with tx := list_delete i (tx d); sending := sending d ++ [t] |} t
  end.

(** [forwardToHostLoop] is still in the last call of [forwardToHost]. *)
Definition forwarder_waits (d : Dispatcher) : bool :=
  match forwarder d with
  | Some c => match chans d !! c with Some ch => negb (closed ch) | None => false end
  | None => false
  end.
Definition forwardToHostLoop_turn (d : Dispatcher) (m : EnclaveMessage) (res : PeerSent) : option Dispatcher :=
  if forwarder_waits d then Some d else option_map fst (forwardToHost {| d with forwarder := None |} m res).

(** An event that is not possible changes nothing; [None] is a panic, or a
    reply on a channel that is full. *)
Inductive Event :=
  | EvSend (p : UntrustedMessage)
  | EvTransaction (req : HostToEnclaveRequest)
  | EvTake (i : nat)
  | EvSent (i : nat) (ok : bool)
  | EvEnclave (m : EnclaveMessage) (res : PeerSent).

Definition d_step (d : Dispatcher) (ev : Event) : option Dispatcher :=
  match ev with
  | EvSend p => Some (Send d p)
  | EvTransaction req => Some (default d (SendTransaction d req))
  | EvTake i => Some (forwardToEnclaveLoop_take d i)
  | EvSent i ok =>
      match sending d !! i with
      | None => Some d
      | Some t => forwardToEnclave_end {| d with sending := list_delete i (sending d) |} t ok
      end
  | EvEnclave m res => forwardToHostLoop_turn d m res
  end.
Fixpoint d_run (d : Dispatcher) (evs : list Event) : option Dispatcher :=
  match evs with [] => Some d | ev :: evs' => match d_step d ev with None => None | Some d' => d_run d' evs' end end.

(** ** Invariant *)
Definition request_of (p : UntrustedMessage) : option Z := match p with uH2ERequest r => Some (h2e_request_id r) | _ => None end.

(** A reply answers the request of its channel, which is then closed. *)
Definition reply_ok (d : Dispatcher) (c : nat) (ch : Chan) : Prop :=
  forall m, reply ch = Some m -> closed ch = true /\ exists p id x, sent d !! c = Some p /\ request_of p = Some id /\ m = mH2EResponse id x.
Definition is_open (d : Dispatcher) (c : nat) : Prop := chans d !! c = Some Chan_new.

Record inv (d : Dispatcher) : Prop := {
  inv_sent : forall t, t ∈ tx d ++ sending d -> sent d !! recv t = Some (message t);
  inv_nodup : NoDup (recv <$> tx d ++ sending d);
  inv_chans : forall c, is_Some (chans d !! c) -> (c < length (sent d))%nat;
  inv_tx : forall t, t ∈ tx d -> is_open d (recv t);
  inv_sending : forall t, t ∈ sending d -> request_of (message t) = None -> is_open d (recv t);
  inv_receivers : forall id c, receivers d !! id = Some c ->
    is_open d c /\ (c ∉ recv <$> tx d) /\ exists p, sent d !! c = Some p /\ request_of p = Some id;
  inv_reply : forall c ch, chans d !! c = Some ch -> reply_ok d c ch }.

Lemma New_inv n t : inv (New n t).
Proof.
  split; cbn; [intros t' H; by apply elem_of_nil in H|constructor|intros c [? H]; by rewrite lookup_empty in H|
    intros t' H; by apply elem_of_nil in H|intros t' H; by apply elem_of_nil in H|..];
    intros ? ? H; by rewrite lookup_empty in H.
Qed.

Lemma Send_inv d p : inv d -> inv (Send d p).
Proof.
  intros [H1 H2 H3 H4 H5 H6 H7].
  assert (chans d !! length (sent d) = None) as Hf.
  { destruct (chans d !! length (sent d)) eqn:E; [|done]. specialize (H3 (length (sent d)) ltac:(eauto)). lia. }
  assert (forall c q, sent d !! c = Some q -> (sent d ++ [p]) !! c = Some q) as Hs by (intros; by apply lookup_app_l_Some).
  assert (forall c, is_open d c -> is_open (Send d p) c) as Ho.
  { unfold is_open. cbn. intros c Hc. rewrite lookup_insert_ne; [done|]. intros <-. congruence. }
  assert (forall c, is_open d c -> (c < length (sent d))%nat) as Hlt by (intros c Hc; apply H3; rewrite Hc; eauto).
  split; cbn.
  - intros t Ht. rewrite <-(assoc_L (++)), !elem_of_app, list_elem_of_singleton in Ht. destruct Ht as [Ht|[->|Ht]].
    + apply Hs, H1, elem_of_app. by left.
    + cbn. rewrite lookup_app_r, Nat.sub_diag by done. done.
    + apply Hs, H1, elem_of_app. by right.
  - assert (length (sent d) ∉ recv <$> tx d ++ sending d) as Hn.
    { intros (t & Ht & Hin)%list_elem_of_fmap. apply H1, lookup_lt_Some in Hin. lia. }
    rewrite <-(assoc_L (++)), (Permutation_app_comm [_]), (assoc_L (++)), fmap_app. apply NoDup_app. split; [done|].
    split; [|apply NoDup_singleton]. intros c Hc ->%list_elem_of_singleton. done.
  - intros c Hc. rewrite length_app. cbn. destruct (decide (c = length (sent d))) as [->|]; [lia|].
    rewrite lookup_insert_ne in Hc by done. apply H3 in Hc. lia.
  - intros t Ht. rewrite elem_of_app, list_elem_of_singleton in Ht. destruct Ht as [Ht| ->]; [by apply Ho, H4|].
    unfold is_open. cbn. by rewrite lookup_insert_eq.
  - intros t Ht Hr. by apply Ho, H5.
  - intros id c Hc. apply H6 in Hc as (Hop & Hn & q & Hq & Hid). split; [by apply Ho|]. split; [|by eauto].
    rewrite fmap_app, not_elem_of_app. split; [done|]. intros ->%list_elem_of_singleton. apply Hlt in Hop. cbn in Hop. lia.
  - intros c ch Hc m Hm. destruct (decide (c = length (sent d))) as [->|].
    { rewrite lookup_insert_eq in Hc. by simplify_eq. }
    rewrite lookup_insert_ne in Hc by done. destruct (H7 c ch Hc m Hm) as (Hcl & q & id & x & Hq & Hr & ->). eauto 10.
Qed.

(** A channel that nobody else will close gets its last state. *)
Lemma finish_inv d c ch : inv d -> is_open d c -> reply_ok d c ch -> c ∉ recv <$> tx d ->
  (forall t, t ∈ sending d -> request_of (message t) = None -> recv t <> c) -> (forall id, receivers d !! id <> Some c) ->
  inv {| d with chans := <[c := ch]> (chans d) |}.
Proof.
  intros [H1 H2 H3 H4 H5 H6 H7] Hop Hrep Hntx Hns Hnr.
  assert (forall c', c' <> c -> is_open d c' -> is_open {| d with chans := <[c := ch]> (chans d) |} c') as Ho.
  { unfold is_open. cbn. intros c' Hc Hc'. by rewrite lookup_insert_ne by congruence. }
  split; cbn; try done.
  - intros c' Hc'. apply H3. destruct (decide (c' = c)) as [->|]; [rewrite Hop; eauto|]. by rewrite lookup_insert_ne in Hc' by congruence.
  - intros t Ht. apply Ho; [|by apply H4]. intros <-. apply Hntx. by apply list_elem_of_fmap_2.
  - intros t Ht Hr. apply Ho; [by apply Hns|by apply H5].
  - intros id c' Hc'. destruct (H6 id c' Hc') as (? & ? & ?). split; [|done]. apply Ho; [|done]. intros ->. by apply (Hnr id).
  - intros c' ch' Hc'. destruct (decide (c' = c)) as [->|]; [rewrite lookup_insert_eq in Hc'; by simplify_eq|].
    rewrite lookup_insert_ne in Hc' by congruence. by apply H7.
Qed.

Lemma shrink_inv d txs ss : inv d -> txs ⊆+ tx d -> ss ⊆+ sending d -> inv {| d with tx := txs; sending := ss |}.
Proof.
  intros [H1 H2 H3 H4 H5 H6 H7] Ht Hs.
  assert (forall t, t ∈ txs -> t ∈ tx d) as Ht' by (intros t Hin; by eapply elem_of_submseteq).
  assert (forall t, t ∈ ss -> t ∈ sending d) as Hs' by (intros t Hin; by eapply elem_of_submseteq).
  split; cbn; try done.
  - intros t Hin. apply H1. rewrite elem_of_app in *. naive_solver.
  - destruct (submseteq_Permutation _ _ (submseteq_app _ _ _ _ Ht Hs)) as [k Hk]. rewrite Hk, fmap_app in H2. by apply NoDup_app in H2 as [? _].
  - intros t Hin. by apply H4, Ht'.
  - intros t Hin Hr. apply H5; auto.
  - intros id c Hc. destruct (H6 id c Hc) as (? & Hn & ?). split; [done|]. split; [|done].
    intros (t & -> & Hin)%list_elem_of_fmap. apply Hn, list_elem_of_fmap_2. auto.
Qed.

Lemma delete_receiver_inv d id : inv d -> inv {| d with receivers := delete id (receivers d) |}.
Proof. intros [H1 H2 H3 H4 H5 H6 H7]. split; cbn; try done. intros id' c [_ Hc]%lookup_delete_Some. by apply H6. Qed.

(** The channel of a request whose entry was deleted can be finished. *)
Lemma finish_receiver_inv d id c ch : inv d -> receivers d !! id = Some c -> reply_ok d c ch ->
  inv {| d with receivers := delete id (receivers d); chans := <[c := ch]> (chans d) |}.
Proof.
  intros Hi Hc Hrep. destruct (inv_receivers d Hi id c Hc) as (Hop & Hn & p & Hp & Hid).
  refine (finish_inv {| d with receivers := delete id (receivers d) |} c ch _ _ _ _ _ _); cbn; try done.
  - by apply delete_receiver_inv.
  - intros t Ht Hr <-. rewrite (inv_sent d Hi t) in Hp by (apply elem_of_app; by right). by simplify_eq.
  - intros id' [Hne Hc']%lookup_delete_Some. destruct (inv_receivers d Hi id' c Hc') as (_ & _ & p' & Hp' & Hid'). congruence.
Qed.

Lemma take_inv d i t : inv d -> tx d !! i = Some t ->
  inv (forwardToEnclave_begin {| d with tx := list_delete i (tx d); sending := sending d ++ [t] |} t).
Proof.
  intros Hi Ht. pose proof (delete_Permutation _ _ _ Ht) as Hp.
  pose proof Hi as [H1 H2 H3 H4 H5 H6 H7].
  set (d1 := {| d with tx := list_delete i (tx d); sending := sending d ++ [t] |}).
  assert (tx d ++ sending d ≡ₚ tx d1 ++ sending d1) as Hall.
  { cbn. rewrite Hp at 1. rewrite (Permutation_app_comm (sending d) [t]). cbn. by rewrite Permutation_middle. }
  assert (forall u, u ∈ tx d1 -> u ∈ tx d) as Hin by (intros u Hu; rewrite Hp; by right).
  assert (t ∈ tx d) as Htx by (by eapply list_elem_of_lookup_2).
  assert (NoDup (recv <$> tx d1 ++ sending d1)) as Hnd by (by rewrite <-Hall).
  assert (recv t ∉ recv <$> tx d1) as Hnt.
  { intros Hr. rewrite fmap_app in Hnd. apply NoDup_app in Hnd as (_ & Hd & _). apply (Hd _ Hr).
    apply list_elem_of_fmap_2. apply elem_of_app. right. by apply list_elem_of_singleton. }
  assert (inv d1) as Hi1.
  { split; try done.
    - intros u Hu. apply H1. by rewrite Hall.
    - intros u Hu. by apply H4, Hin.
    - intros u Hu Hr. cbn in Hu. apply elem_of_app in Hu as [Hu| ->%list_elem_of_singleton]; [by apply H5|by apply H4].
    - intros id c Hc. destruct (H6 id c Hc) as (? & Hn & ?). split; [done|]. split; [|done].
      intros (u & -> & Hu)%list_elem_of_fmap. apply Hn, list_elem_of_fmap_2. by apply Hin. }
  unfold forwardToEnclave_begin. destruct (message t) as [| | |r|] eqn:Em; try done.
  destruct Hi1 as [K1 K2 K3 K4 K5 K6 K7]. split; try done. intros id c Hc. cbn in Hc.
  destruct (decide (id = h2e_request_id r)) as [->|]; [|rewrite lookup_insert_ne in Hc by done; by apply K6].
  rewrite lookup_insert_eq in Hc. injection Hc as <-. split; [by apply H4|]. split; [done|].
  exists (message t). split; [apply H1, elem_of_app; by left|]. by rewrite Em.
Qed.

Lemma sent_inv d i t ok : inv d -> sending d !! i = Some t ->
  exists d', forwardToEnclave_end {| d with sending := list_delete i (sending d) |} t ok = Some d' /\ inv d'.
Proof.
  intros Hi Ht. pose proof (delete_Permutation _ _ _ Ht) as Hp.
  set (d1 := {| d with sending := list_delete i (sending d) |}).
  assert (inv d1) as Hi1 by (refine (shrink_inv d (tx d) _ Hi _ _); [done|apply sublist_submseteq, sublist_delete]).
  assert (t ∈ sending d) as Hin by (by eapply list_elem_of_lookup_2).
  assert (t ∈ tx d ++ sending d) as Hall by (apply elem_of_app; by right).
  unfold forwardToEnclave_end. destruct (request_of (message t)) as [id|] eqn:Er.
  - destruct (message t) as [| | |r|]; try done. injection Er as <-. destruct ok; [by exists d1|].
    unfold deleteReceiver, close. cbn. destruct (receivers d !! h2e_request_id r) as [c|] eqn:Ec.
    2:{ eexists. split; [done|]. exact (delete_receiver_inv d1 (h2e_request_id r) Hi1). }
    destruct (inv_receivers d Hi _ _ Ec) as (Hop & _). unfold is_open in Hop. rewrite Hop. cbn. eexists. split; [done|].
    refine (finish_receiver_inv d1 (h2e_request_id r) c _ Hi1 Ec _). by intros m.
  - assert (close d1 (recv t) = Some {| d1 with chans := <[recv t := {| Chan_new with closed := true |}]> (chans d1) |}) as Hcl.
    { unfold close. cbn. pose proof (inv_sending d Hi t Hin Er) as Hop. unfold is_open in Hop. by rewrite Hop. }
    exists {| d1 with chans := <[recv t := {| Chan_new with closed := true |}]> (chans d1) |}.
    split; [by destruct (message t)|].
    pose proof (inv_nodup d Hi) as Hnd. rewrite Hp, fmap_app in Hnd. apply NoDup_app in Hnd as (_ & Hd & Hnd). cbn in Hnd. apply NoDup_cons in Hnd as [Hnd _].
    refine (finish_inv d1 (recv t) _ Hi1 _ _ _ _ _).
    + exact (inv_sending d Hi t Hin Er).
    + by intros m.
    + intros Hr. apply (Hd _ Hr). cbn. by left.
    + intros u Hu _ Heq. apply Hnd. rewrite <-Heq. by apply list_elem_of_fmap_2.
    + intros id Hc. destruct (inv_receivers d Hi id _ Hc) as (_ & _ & p & Hs & Hid).
      rewrite (inv_sent d Hi t Hall) in Hs. by simplify_eq.
Qed.

Lemma forwarder_inv d f : inv d -> inv {| d with forwarder := f |}.
Proof. by intros []. Qed.

Lemma enclave_inv d m res : inv d -> exists d' ok, forwardToHost d m res = Some (d', ok) /\ inv d'.
Proof.
  intros Hi. destruct m as [pm|id x]; cbn.
  { destruct res as [| |id]; eexists _, _; (split; [done|]); [by destruct Hi|done|].
    apply (forwarder_inv (Send d (uResetPeer id))). by apply Send_inv. }
  unfold deleteReceiver, send_chan, close. destruct (receivers d !! id) as [c|] eqn:Ec.
  2:{ eexists _, _. split; [done|]. by apply delete_receiver_inv. }
  destruct (inv_receivers d Hi id c Ec) as (Hop & _ & p & Hp & Hid). unfold is_open in Hop. cbn. rewrite Hop. cbn.
  rewrite lookup_insert_eq. cbn. eexists _, _. split; [done|]. rewrite insert_insert_eq.
  refine (finish_receiver_inv d id c {| reply := Some (mH2EResponse id x); closed := true |} Hi Ec _).
  intros m [= <-]. split; [done|]. eauto 10.
Qed.

Lemma loop_take_inv d i : inv d -> inv (forwardToEnclaveLoop_take d i).
Proof.
  intros Hi. unfold forwardToEnclaveLoop_take. destruct (negb _); [done|].
  destruct (tx d !! i) as [t|] eqn:Et; [|done]. by apply take_inv.
Qed.

Lemma step_inv d ev : inv d -> exists d', d_step d ev = Some d' /\ inv d'.
Proof.
  intros Hi. destruct ev as [p|req|i|i ok|m res]; cbn [d_step].
  - eexists. split; [done|]. by apply Send_inv.
  - eexists. split; [done|]. unfold SendTransaction. case_match; [done|]. cbn. apply Send_inv. by destruct Hi.
  - eexists. split; [done|]. by apply loop_take_inv.
  - destruct (sending d !! i) as [t|] eqn:Et; [|by exists d]. by apply sent_inv.
  - unfold forwardToHostLoop_turn. destruct (forwarder_waits d); [by exists d|].
    destruct (enclave_inv {| d with forwarder := None |} m res (forwarder_inv d None Hi)) as (d' & ok & -> & Hi'). by exists d'.
Qed.
Lemma run_inv d evs : inv d -> exists d', d_run d evs = Some d' /\ inv d'.
Proof.
  revert d. induction evs as [|ev evs IH]; intros d Hi; cbn; [by exists d|]. destruct (step_inv d ev Hi) as (d' & -> & Hi'). by apply IH.
Qed.

(** ** Nobody who expects no reply waits for ever

    [waiting]: a caller that expects no reply and has not got its answer is at
    the channel or in a worker's call. *)
Record inv_workers (d : Dispatcher) : Prop := {
  iw_workers : (length (sending d) <= workers d)%nat;
  iw_waiting : forall c p, sent d !! c = Some p -> request_of p = None -> is_open d c ->
    exists t, t ∈ tx d ++ sending d /\ recv t = c;
  iw_forwarder : forall c, forwarder d = Some c -> exists p, sent d !! c = Some p /\ request_of p = None }.

Lemma New_workers n t : inv_workers (New n t).
Proof. split; cbn; [lia|intros c p Hp; by rewrite lookup_nil in Hp|done]. Qed.

Lemma Send_workers d p : inv d -> inv_workers d -> inv_workers (Send d p).
Proof.
  intros Hi [W1 W2 W3]. split; cbn; [done| |].
  - intros c q Hq Hr Ho. destruct (decide (c = length (sent d))) as [->|Hne].
    + exists {| message := p; recv := length (sent d) |}. split; [|done]. set_solver.
    + apply lookup_app_Some in Hq as [Hq|[Hle Hq]]; [|apply list_lookup_singleton_Some in Hq as [? _]; lia].
      unfold is_open in Ho. cbn in Ho. rewrite lookup_insert_ne in Ho by done.
      destruct (W2 c q Hq Hr Ho) as (t & Ht & Hc). exists t. split; [set_solver|done].
  - intros c Hc. destruct (W3 c Hc) as (q & Hq & Hr). exists q. split; [by apply lookup_app_l_Some|done].
Qed.

(** A step that sends and takes nothing, and closes what leaves a worker. *)
Lemma workers_keep d d' : inv_workers d -> sent d' = sent d -> workers d' = workers d -> tx d' = tx d ->
  (forwarder d' = forwarder d \/ forwarder d' = None) -> (length (sending d') <= length (sending d))%nat ->
  (forall c, is_open d' c -> is_open d c) ->
  (forall t, t ∈ sending d -> request_of (message t) = None -> is_open d' (recv t) -> t ∈ sending d') ->
  inv d -> inv_workers d'.
Proof.
  intros [W1 W2 W3] Hs Hw Ht Hf Hl Ho Hk Hi. split; rewrite ?Hs, ?Hw, ?Ht; [lia| |].
  - intros c p Hp Hr Hop. destruct (W2 c p Hp Hr (Ho c Hop)) as (t & Hin & <-). exists t. split; [|done].
    apply elem_of_app in Hin as [Hin|Hin]; apply elem_of_app; [by left|right]. apply Hk; [done| |done].
    rewrite (inv_sent d Hi t) in Hp by (apply elem_of_app; by right). congruence.
  - intros c Hc. apply W3. destruct Hf as [<-|E]; [done|congruence].
Qed.

Lemma take_workers d i : inv_workers d -> inv_workers (forwardToEnclaveLoop_take d i).
Proof.
  intros [W1 W2 W3]. unfold forwardToEnclaveLoop_take. destruct (_ <? _)%nat eqn:El; cbn; [|done]. apply Nat.ltb_lt in El.
  destruct (tx d !! i) as [t|] eqn:Et; [|done]. pose proof (delete_Permutation _ _ _ Et) as Hp.
  assert (inv_workers {| d with tx := list_delete i (tx d); sending := sending d ++ [t] |}) as H.
  { split; cbn; [rewrite length_app; cbn; lia| |done]. intros c p Hs Hr Ho. destruct (W2 c p Hs Hr Ho) as (t' & Hin & Hc).
    exists t'. split; [|done]. rewrite Hp in Hin. set_solver. }
  unfold forwardToEnclave_begin. destruct (message t); try done. by destruct H.
Qed.

Lemma close_shape d c d' : close d c = Some d' -> exists ch, d' = {| d with chans := <[c := {| ch with closed := true |}]> (chans d) |}.
Proof. unfold close. intros H. destruct (chans d !! c) as [ch|]; [|done]. destruct (closed ch); [done|]. injection H as <-. by exists ch. Qed.

Lemma closed_not_open d d' c ch c' :
  d' = {| d with chans := <[c := {| ch with closed := true |}]> (chans d) |} -> is_open d' c' -> is_open d c' /\ c' <> c.
Proof.
  intros -> Ho. unfold is_open in *. cbn in Ho. destruct (decide (c' = c)) as [->|]; [by rewrite lookup_insert_eq in Ho|].
  by rewrite lookup_insert_ne in Ho.
Qed.

Lemma sent_workers d i t ok d' : inv d -> inv_workers d -> sending d !! i = Some t ->
  forwardToEnclave_end {| d with sending := list_delete i (sending d) |} t ok = Some d' -> inv_workers d'.
Proof.
  intros Hi Hw Ht Hd. pose proof (delete_Permutation _ _ _ Ht) as Hp.
  assert (Hlen : (length (list_delete i (sending d)) <= length (sending d))%nat) by (pose proof (Permutation_length Hp) as E; cbn in E; unfold delete in E; lia).
  assert (Hrest : forall u, u ∈ sending d -> u <> t -> u ∈ list_delete i (sending d)).
  { intros u Hu Hne. rewrite Hp in Hu. apply elem_of_cons in Hu as [?|?]; done. }
  unfold forwardToEnclave_end in Hd. destruct (request_of (message t)) as [id|] eqn:Er.
  - destruct (message t) as [| | |r|] eqn:Em; try done. destruct ok.
    { injection Hd as <-. apply (workers_keep d); try done; [by left|]. intros u Hu Hr _. apply Hrest; [done|]. intros ->. by rewrite Em in Hr. }
    unfold deleteReceiver in Hd. cbn in Hd. destruct (receivers d !! h2e_request_id r) as [c|].
    + apply close_shape in Hd as [ch Hd]. pose proof (fun c' => closed_not_open _ _ _ _ c' Hd) as Ho. subst d'.
      apply (workers_keep d); try done; [by left|intros c' Hc'; by apply (Ho c')|].
      intros u Hu Hr _. apply Hrest; [done|]. intros ->. by rewrite Em in Hr.
    + injection Hd as <-. apply (workers_keep d); try done; [by left|]. intros u Hu Hr _. apply Hrest; [done|]. intros ->. by rewrite Em in Hr.
  - assert (close {| d with sending := list_delete i (sending d) |} (recv t) = Some d') as Hc by (by destruct (message t)).
    apply close_shape in Hc as [ch Hc]. pose proof (fun c' => closed_not_open _ _ _ _ c' Hc) as Ho. subst d'.
    apply (workers_keep d); try done; [by left|intros c' Hc'; by apply (Ho c')|].
    intros u Hu Hr Hou. apply Hrest; [done|]. intros ->. destruct (Ho _ Hou) as [_ Hne]. done.
Qed.

Lemma forwarder_workers d : inv_workers d -> inv_workers {| d with forwarder := None |}.
Proof. intros []. by split. Qed.

Lemma host_workers d m res d' ok : inv d -> inv_workers d -> forwardToHost d m res = Some (d', ok) -> inv_workers d'.
Proof.
  intros Hi Hw. destruct m as [pm|id x]; cbn.
  { destruct res as [| |id]; intros [= <- _]; [by destruct Hw|done|].
    destruct (Send_workers d (uResetPeer id) Hi Hw) as [W1 W2 _]. split; [exact W1|exact W2|].
    cbn. intros c [= <-]. exists (uResetPeer id). rewrite lookup_app_r, Nat.sub_diag by done. done. }
  unfold deleteReceiver. destruct (receivers d !! id) as [c|] eqn:Ec.
  2:{ intros [= <- _]. apply (workers_keep d); try done. by left. }
  destruct (inv_receivers d Hi id c Ec) as (Hop & _). unfold is_open in Hop. unfold send_chan, close. cbn. rewrite Hop. cbn.
  rewrite lookup_insert_eq. cbn. intros [= <- _]. apply (workers_keep d); try done; [by left|].
  intros c'. unfold is_open. cbn. rewrite insert_insert_eq. destruct (decide (c' = c)) as [->|]; [by rewrite lookup_insert_eq|by rewrite lookup_insert_ne].
Qed.

Lemma step_workers d ev d' : inv d -> inv_workers d -> d_step d ev = Some d' -> inv_workers d'.
Proof.
  intros Hi Hw Hd. destruct ev as [p|req|i|i ok|m res]; cbn [d_step] in Hd.
  - injection Hd as <-. by apply Send_workers.
  - injection Hd as <-. unfold SendTransaction. case_match; [done|]. cbn. apply Send_workers; [by destruct Hi|by destruct Hw].
  - injection Hd as <-. by apply take_workers.
  - destruct (sending d !! i) as [t|] eqn:Et; [|by injection Hd as <-]. by eapply sent_workers.
  - unfold forwardToHostLoop_turn in Hd. destruct (forwarder_waits d); [by injection Hd as <-|].
    destruct (forwardToHost _ m res) as [[d1 ok]|] eqn:E; [|done]. injection Hd as <-.
    by apply (host_workers {| d with forwarder := None |} m res d1 ok); [apply forwarder_inv|apply forwarder_workers|].
Qed.
Lemma run_workers d evs d' : inv d -> inv_workers d -> d_run d evs = Some d' -> inv_workers d'.
Proof.
  revert d. induction evs as [|ev evs IH]; intros d Hi Hw Hd; cbn in Hd; [by simplify_eq|].
  destruct (step_inv d ev Hi) as (d1 & E1 & Hi1). rewrite E1 in Hd.
  exact (IH d1 Hi1 (step_workers _ _ _ Hi Hw E1) Hd).
Qed.

(** Workers take messages and their calls return. *)
Definition by_workers (ev : Event) : Prop := match ev with EvTake _ | EvSent _ _ => True | _ => False end.
Definition is_closed (d : Dispatcher) (c : nat) : Prop := exists ch, chans d !! c = Some ch /\ closed ch = true.

Lemma sent_closes d i t d' : sending d !! i = Some t -> request_of (message t) = None ->
  d_step d (EvSent i true) = Some d' -> is_closed d' (recv t).
Proof.
  intros Ht Hr. cbn [d_step]. rewrite Ht. unfold forwardToEnclave_end.
  assert (forall o, (match message t with uH2ERequest _ => o | _ => close {| d with sending := list_delete i (sending d) |} (recv t) end) =
    close {| d with sending := list_delete i (sending d) |} (recv t)) as E by (intros o; by destruct (message t)).
  intros Hd. assert (close {| d with sending := list_delete i (sending d) |} (recv t) = Some d') as Hc by (by destruct (message t)).
  apply close_shape in Hc as [ch ->]. eexists. cbn. rewrite lookup_insert_eq. done.
Qed.

(** A message in a worker's call is answered when the call returns. *)
Lemma sending_freed d t : inv d -> t ∈ sending d -> request_of (message t) = None ->
  exists i d', d_step d (EvSent i true) = Some d' /\ is_closed d' (recv t).
Proof.
  intros Hi [i Ht]%list_elem_of_lookup_1 Hr. destruct (step_inv d (EvSent i true) Hi) as (d' & Hd & _).
  exists i, d'. split; [done|]. by eapply sent_closes.
Qed.

(** With a free worker, a message at the channel too. *)
Lemma tx_freed d t : inv d -> (length (sending d) < workers d)%nat -> t ∈ tx d -> request_of (message t) = None ->
  exists evs d', Forall by_workers evs /\ d_run d evs = Some d' /\ is_closed d' (recv t).
Proof.
  intros Hi Hl [i Ht]%list_elem_of_lookup_1 Hr. pose proof (loop_take_inv d i Hi) as Hi1.
  assert (t ∈ sending (forwardToEnclaveLoop_take d i)) as Hin.
  { unfold forwardToEnclaveLoop_take. rewrite (proj2 (Nat.ltb_lt _ _) Hl), Ht. cbn. unfold forwardToEnclave_begin.
    destruct (message t); cbn; set_solver. }
  destruct (sending_freed _ t Hi1 Hin Hr) as (j & d' & Hd & Hc). exists [EvTake i; EvSent j true], d'.
  split; [repeat constructor|]. split; [|done]. cbn [d_run]. change (d_step d (EvTake i)) with (Some (forwardToEnclaveLoop_take d i)).
  cbv beta iota. by rewrite Hd.
Qed.

Lemma caller_freed d c p : inv d -> inv_workers d -> (0 < workers d)%nat -> sent d !! c = Some p -> request_of p = None -> is_open d c ->
  exists evs d', Forall by_workers evs /\ d_run d evs = Some d' /\ is_closed d' c.
Proof.
  intros Hi Hw H0 Hp Hr Ho. destruct (iw_waiting d Hw c p Hp Hr Ho) as (t & Hin & <-).
  assert (Hm : request_of (message t) = None) by (rewrite (inv_sent d Hi t Hin) in Hp; congruence).
  apply elem_of_app in Hin as [Hin|Hin].
  2:{ destruct (sending_freed d t Hi Hin Hm) as (i & d' & Hd & Hc). exists [EvSent i true], d'. cbn [d_run]. rewrite Hd. split_and!; [repeat constructor|done|done]. }
  destruct (decide (length (sending d) < workers d)%nat) as [Hl|Hl]; [by apply tx_freed|].
  destruct (sending d) as [|t0 rest] eqn:Es; [cbn in Hl; lia|].
  destruct (step_inv d (EvSent 0 true) Hi) as (d1 & Hd & Hi1). pose proof (step_workers _ _ _ Hi Hw Hd) as Hw1.
  assert (tx d1 = tx d /\ workers d1 = workers d /\ sending d1 = rest) as (E1 & E2 & E3).
  { clear -Hd Es. cbn [d_step] in Hd. rewrite Es in Hd. cbn in Hd. unfold forwardToEnclave_end in Hd.
    destruct (message t0); try (apply close_shape in Hd as [ch ->]; done). by injection Hd as <-. }
  destruct (tx_freed d1 t Hi1) as (evs & d' & He & Hrun & Hc); [rewrite E2, E3; destruct Hw as [W1 _ _]; rewrite Es in W1; cbn in W1; lia|by rewrite E1|done|].
  exists (EvSent 0 true :: evs), d'. split; [by constructor|]. split; [|done]. cbn [d_run]. by rewrite Hd.
Qed.

Lemma close_frame d c d' : close d c = Some d' -> workers d' = workers d /\ forwarder d' = forwarder d.
Proof. intros [ch ->]%close_shape. done. Qed.

Lemma step_frame d ev d' : d_step d ev = Some d' -> workers d' = workers d /\ (by_workers ev -> forwarder d' = forwarder d).
Proof.
  intros Hd. destruct ev as [p|req|i|i ok|m res]; cbn [d_step] in Hd.
  - by injection Hd as <-.
  - injection Hd as <-. unfold SendTransaction. by case_match.
  - injection Hd as <-. unfold forwardToEnclaveLoop_take, forwardToEnclave_begin. by repeat case_match.
  - destruct (sending d !! i) as [t|]; [|by injection Hd as <-]. unfold forwardToEnclave_end, deleteReceiver in Hd.
    repeat case_match; try (apply close_frame in Hd as [E1 E2]; rewrite E1, E2; done); by simplify_eq.
  - unfold forwardToHostLoop_turn in Hd. destruct (forwarder_waits d); [by injection Hd as <-|]. split; [|done].
    destruct m as [pm|id x]; cbn in Hd; [by destruct res; injection Hd as <-|].
    unfold deleteReceiver in Hd. cbn in Hd. destruct (receivers d !! id) as [c|]; [|by injection Hd as <-].
    unfold send_chan in Hd. cbn in Hd. destruct (chans d !! c) as [ch|]; [|done]. destruct (closed ch); [done|]. destruct (reply ch); [done|].
    destruct (close _ c) as [d1|] eqn:E; [|done]. cbn in Hd. injection Hd as <-. by apply close_frame in E as [E _].
Qed.
Lemma run_workers_count d evs d' : d_run d evs = Some d' -> workers d' = workers d.
Proof.
  revert d. induction evs as [|ev evs IH]; intros d Hd; cbn in Hd; [by simplify_eq|].
  destruct (d_step d ev) as [d1|] eqn:E; [|done]. rewrite (IH d1 Hd). by apply step_frame in E as [? _].
Qed.
Lemma by_workers_forwarder d evs d' : Forall by_workers evs -> d_run d evs = Some d' -> forwarder d' = forwarder d.
Proof.
  intros He. revert d. induction He as [|ev evs Hev _ IH]; intros d Hd; cbn in Hd; [by simplify_eq|].
  destruct (d_step d ev) as [d1|] eqn:E; [|done]. rewrite (IH d1 Hd). apply step_frame in E as [_ E]. auto.
Qed.


(** ** With request numbers of the generator, responses arrive *)
Record inv_unique (d : Dispatcher) : Prop := {
  ids_range : forall c p id, sent d !! c = Some p -> request_of p = Some id -> 1 <= id <= txcounter (txGen d);
  ids_inj : forall c1 c2 p1 p2 id, sent d !! c1 = Some p1 -> sent d !! c2 = Some p2 ->
    request_of p1 = Some id -> request_of p2 = Some id -> c1 = c2;
  registered : forall c p id, sent d !! c = Some p -> request_of p = Some id -> is_open d c -> c ∉ recv <$> tx d ->
    receivers d !! id = Some c }.

Lemma Send_unique d p t : inv d -> inv_unique d -> txcounter (txGen d) <= txcounter t ->
  (forall id, request_of p = Some id -> txcounter (txGen d) < id <= txcounter t /\ 1 <= id) ->
  inv_unique (Send {| d with txGen := t |} p).
Proof.
  intros Hi [H1 H2 H3] Ht Hp.
  assert (forall c q, (sent d ++ [p]) !! c = Some q -> sent d !! c = Some q \/ c = length (sent d) /\ q = p) as Hs.
  { intros c q [Hq|[Hle Hq]]%lookup_app_Some; [by left|right]. apply list_lookup_singleton_Some in Hq as [? ?]. split; [lia|done]. }
  split; cbn.
  - intros c q id [Hq|[-> ->]]%Hs Hid; [specialize (H1 _ _ _ Hq Hid); lia|specialize (Hp _ Hid); lia].
  - intros c1 c2 p1 p2 id [Hq1|[-> ->]]%Hs [Hq2|[-> ->]]%Hs Hi1 Hi2; [by eapply H2| | |done].
    + specialize (H1 _ _ _ Hq1 Hi1). specialize (Hp _ Hi2). lia.
    + specialize (H1 _ _ _ Hq2 Hi2). specialize (Hp _ Hi1). lia.
  - intros c q id Hq Hid Hop Hn. rewrite fmap_app, not_elem_of_app in Hn. destruct Hn as [Hn Hn']. cbn in Hn'.
    rewrite list_elem_of_singleton in Hn'. apply Hs in Hq as [Hq|[-> _]]; [|done].
    eapply H3; try done. unfold is_open in *. cbn in Hop. by rewrite lookup_insert_ne in Hop by congruence.
Qed.

(** A step that sends nothing, takes nothing, and closes the channels whose entries it deletes. *)
Lemma unique_keep d d' : inv_unique d -> sent d' = sent d -> txGen d' = txGen d -> tx d' = tx d ->
  (forall c, is_open d' c -> is_open d c) ->
  (forall id c, receivers d !! id = Some c -> is_open d' c -> receivers d' !! id = Some c) -> inv_unique d'.
Proof.
  intros [H1 H2 H3] Hs Hg Ht Ho Hr. split; rewrite ?Hs, ?Hg, ?Ht; try done.
  intros c p id Hp Hid Hop Hn. apply Hr; [|done]. eapply H3; eauto.
Qed.

Lemma close_open d c d' : close d c = Some d' -> forall c', is_open d' c' -> is_open d c' /\ c' <> c.
Proof.
  unfold close, is_open. intros Hc c' Ho. destruct (chans d !! c) as [ch|]; [|done]. destruct (closed ch); [done|].
  simplify_eq. cbn in Ho. destruct (decide (c' = c)) as [->|]; [by rewrite lookup_insert_eq in Ho|]. by rewrite lookup_insert_ne in Ho.
Qed.
Lemma close_rest d c d' : close d c = Some d' -> sent d' = sent d /\ txGen d' = txGen d /\ tx d' = tx d /\ receivers d' = receivers d.
Proof. unfold close. intros Hc. repeat case_match; by simplify_eq. Qed.

Lemma close_unique d c d' id0 : inv_unique d -> close {| d with receivers := delete id0 (receivers d) |} c = Some d' ->
  (receivers d !! id0 = Some c) -> inv_unique d'.
Proof.
  intros Hu Hc Hr. destruct (close_rest _ _ _ Hc) as (Hs & Hg & Ht & Hrec). eapply (unique_keep d); try done.
  - intros c' Ho. by apply (close_open _ _ _ Hc) in Ho as [? _].
  - intros id c' Hid Ho. apply (close_open _ _ _ Hc) in Ho as [_ Hne]. rewrite Hrec. cbn.
    rewrite lookup_delete_ne; [done|]. intros ->. congruence.
Qed.

Lemma take_unique d i t : inv d -> inv_unique d -> tx d !! i = Some t ->
  inv_unique (forwardToEnclave_begin {| d with tx := list_delete i (tx d); sending := sending d ++ [t] |} t).
Proof.
  intros Hi [H1 H2 H3] Ht. pose proof (delete_Permutation _ _ _ Ht) as Hp.
  assert (sent d !! recv t = Some (message t)) as Hst.
  { apply (inv_sent d Hi), elem_of_app. left. by eapply list_elem_of_lookup_2. }
  assert (forall c, c ∉ recv <$> list_delete i (tx d) -> c <> recv t -> c ∉ recv <$> tx d) as Hn.
  { intros c Hc Hne. rewrite Hp. cbn. rewrite not_elem_of_cons. done. }
  unfold forwardToEnclave_begin. destruct (message t) as [| | |r|] eqn:Em; split; cbn; try done.
  all: intros c p id Hp' Hid Hop Hc; destruct (decide (c = recv t)) as [->|Hne]; [rewrite Hst in Hp'; simplify_eq|].
  all: try (cbn in Hid; discriminate Hid).
  all: try (eapply H3; try done; by apply Hn).
  - cbn in Hid. injection Hid as <-. by rewrite lookup_insert_eq.
  - assert (receivers d !! id = Some c) as Hr by (eapply H3; try done; by apply Hn).
    rewrite lookup_insert_ne; [done|]. intros Heq. apply Hne. eapply (H2 c (recv t)); try done. cbn. by rewrite Heq.
Qed.

Lemma host_unique d m res d' ok : inv d -> inv_unique d -> 0 <= txcounter (txGen d) < 2 ^ 64 - 1 -> forwardToHost d m res = Some (d', ok) ->
  inv_unique d' /\ txcounter (txGen d) <= txcounter (txGen d') <= txcounter (txGen d) + 1.
Proof.
  intros Hi Hu Hg Hd. destruct m as [pm|id x]; cbn in Hd.
  { destruct res as [| |id]; injection Hd as <- _; [split; [by destruct Hu|cbn; lia]|split; [done|lia]|]. split; [|cbn; lia].
    assert (inv_unique (Send d (uResetPeer id))) as [U1 U2 U3]; [|by split].
    refine (Send_unique d (uResetPeer id) (txGen d) Hi Hu _ _); [lia|]. by cbn. }
  unfold deleteReceiver in Hd. destruct (receivers d !! id) as [c|] eqn:Ec; cbn in Hd.
  2:{ injection Hd as <- _. split; [|cbn; lia]. apply (unique_keep _ _ Hu); try done. intros id' c Hid _. cbn. rewrite lookup_delete_ne by congruence. done. }
  destruct (inv_receivers d Hi id c Ec) as (Hop & _). unfold is_open in Hop. unfold send_chan, close in Hd. cbn in Hd.
  rewrite Hop in Hd. cbn in Hd. rewrite lookup_insert_eq in Hd. cbn in Hd. injection Hd as <- _. split; [|cbn; lia].
  rewrite insert_insert_eq. eapply (unique_keep _ _ Hu); try done; unfold is_open; cbn.
  - intros c'. destruct (decide (c' = c)) as [->|]; [by rewrite lookup_insert_eq|by rewrite lookup_insert_ne].
  - intros id' c' Hid'. destruct (decide (c' = c)) as [->|]; [by rewrite lookup_insert_eq|]. intros _. rewrite lookup_delete_ne by congruence. done.
Qed.

(** Requests come from [SendTransaction] only. *)
Definition event_ok (ev : Event) : Prop := match ev with EvSend p => request_of p = None | _ => True end.

Lemma step_unique d ev d' : inv d -> inv_unique d -> event_ok ev -> 0 <= txcounter (txGen d) < 2 ^ 64 - 1 -> d_step d ev = Some d' ->
  inv_unique d' /\ txcounter (txGen d) <= txcounter (txGen d') <= txcounter (txGen d) + 1.
Proof.
  intros Hi Hu Hev Hg Hd. destruct ev as [p|req|i|i ok|m res]; cbn [d_step] in Hd.
  - injection Hd as <-. cbn in Hev. split; [|cbn; lia]. refine (Send_unique d p (txGen d) Hi Hu _ _); [lia|]. by rewrite Hev.
  - injection Hd as <-. unfold SendTransaction. case_match; cbn; [split; [done|lia]|]. rewrite u64_small by (unfold is_u64; lia).
    split; [|lia]. refine (Send_unique d _ {| txcounter := txcounter (txGen d) + 1 |} Hi Hu _ _); cbn; [lia|]. intros id [= <-]. lia.
  - injection Hd as <-. unfold forwardToEnclaveLoop_take. destruct (negb _); [split; [done|lia]|].
    destruct (tx d !! i) as [t|] eqn:Et; [|split; [done|lia]].
    split; [by apply take_unique|]. unfold forwardToEnclave_begin. case_match; cbn; lia.
  - destruct (sending d !! i) as [t|] eqn:Et; simplify_eq; [|split; [done|lia]].
    assert (inv_unique {| d with sending := list_delete i (sending d) |}) as Hu' by (by destruct Hu).
    unfold forwardToEnclave_end in Hd. destruct (message t) as [| | |r|] eqn:Em.
    1,2,3,5: destruct (close_rest _ _ _ Hd) as (Hs & Hgen & Ht & Hr); split; [|by rewrite Hgen; cbn; lia];
      apply (unique_keep _ _ Hu' Hs Hgen Ht); [intros c Ho; by apply (close_open _ _ _ Hd) in Ho as [? _]|intros id c Hid _; by rewrite Hr].
    destruct ok; [injection Hd as <-; split; [done|cbn; lia]|]. unfold deleteReceiver in Hd. cbn in Hd.
    destruct (receivers d !! h2e_request_id r) as [c|] eqn:Ec.
    + destruct (close_rest _ _ _ Hd) as (_ & Hgen & _). split; [|rewrite Hgen; cbn; lia]. eapply close_unique; [exact Hu'|exact Hd|exact Ec].
    + injection Hd as <-. split; [|cbn; lia]. apply (unique_keep _ _ Hu); try done. intros id c Hid _. cbn. rewrite lookup_delete_ne by congruence. done.
  - unfold forwardToHostLoop_turn in Hd. destruct (forwarder_waits d); [injection Hd as <-; split; [done|lia]|].
    destruct (forwardToHost _ m res) as [[d1 ok]|] eqn:E; [|done]. injection Hd as <-.
    apply (host_unique {| d with forwarder := None |} m res d1 ok (forwarder_inv d None Hi)); [by destruct Hu|done|done].
Qed.

Lemma run_unique d evs d' : inv d -> inv_unique d -> Forall event_ok evs -> 0 <= txcounter (txGen d) ->
  txcounter (txGen d) + Zlen evs < 2 ^ 64 -> d_run d evs = Some d' -> inv_unique d'.
Proof.
  revert d. induction evs as [|ev evs IH]; intros d Hi Hu Hev H0 Hl Hd; cbn in Hd; [by simplify_eq|].
  apply Forall_cons in Hev as [Hev Hevs]. unfold Zlen in *. cbn [length] in Hl.
  destruct (step_inv d ev Hi) as (d1 & E1 & Hi1). rewrite E1 in Hd.
  destruct (step_unique d ev d1 Hi Hu Hev ltac:(lia) E1) as [Hu1 Hg]. apply (IH d1); try done; lia.
Qed.

(** C32: With the numbers of the generator, requests have different numbers for
    fewer than 2^64 of them, and the response to a request that a worker took
    and that did not fail always reaches the caller of that very request when
    it is forwarded, whatever else is under way. *)
Theorem dispatcher_delivers n evs d : Forall event_ok evs -> Zlen evs < 2 ^ 64 -> d_run (New n {| txcounter := 0 |}) evs = Some d ->
  (forall c1 c2 p1 p2 id, sent d !! c1 = Some p1 -> sent d !! c2 = Some p2 ->
     request_of p1 = Some id -> request_of p2 = Some id -> c1 = c2) /\
  forall c p id x res, sent d !! c = Some p -> request_of p = Some id -> is_open d c -> (c ∉ recv <$> tx d) ->
    exists d', forwardToHost d (mH2EResponse id x) res = Some (d', true) /\
      chans d' !! c = Some {| reply := Some (mH2EResponse id x); closed := true |}.
Proof.
  intros Hev Hl Hd. destruct (run_inv _ evs (New_inv n {| txcounter := 0 |})) as (d1 & E & Hi). rewrite Hd in E. injection E as <-.
  assert (inv_unique d) as Hu.
  { apply (run_unique (New n {| txcounter := 0 |}) evs d); try done; try apply New_inv. all: split; cbn; intros *; by rewrite ?lookup_nil. }
  split; [apply (ids_inj d Hu)|]. intros c p id x res Hp Hid Hop Hn. pose proof (registered d Hu c p id Hp Hid Hop Hn) as Hr.
  cbn. unfold deleteReceiver, send_chan, close. rewrite Hr. unfold is_open in Hop. cbn. rewrite Hop. cbn. rewrite lookup_insert_eq. cbn.
  eexists. split; [done|]. cbn. by rewrite insert_insert_eq, lookup_insert_eq.
Qed.

Definition ex_events : list Event :=
  [EvTransaction {| h2e_request_id := 0; h2e_inner := hGetEnclaveStatus true |}; EvSend (uTimerTick 5); EvTake 0; EvTake 0].

Lemma dispatcher_delivers_witness :
  exists d d', d_run (New 3 {| txcounter := 0 |}) ex_events = Some d /\
    forwardToHost d (mH2EResponse 1 (oStatus OK)) psError = Some (d', true) /\
    chans d' !! 0%nat = Some {| reply := Some (mH2EResponse 1 (oStatus OK)); closed := true |}.
Proof.
  eexists. edestruct (dispatcher_delivers 3 ex_events) as [_ H]; [repeat constructor|reflexivity|reflexivity|].
  destruct (H 0%nat (uH2ERequest {| h2e_request_id := 1; h2e_inner := hGetEnclaveStatus true |}) 1 (oStatus OK) psError) as (d' & H1 & H2);
    [reflexivity|reflexivity|reflexivity|apply not_elem_of_nil|].
  exists d'. split; [reflexivity|]. exact (conj H1 H2).
Defined.

(** The one worker is in a call and the forwarder resets a peer: it waits for
    the worker, and takes no message of the enclave meanwhile, not even the
    response to the request of that call. *)
Definition ex_stuck : list Event :=
  [EvTransaction {| h2e_request_id := 0; h2e_inner := hGetEnclaveStatus true |}; EvTake 0;
   EvEnclave (mPeerMessage {| pm_peer_id := [2]; pm_inner := pData [1] |}) (psReset [2]); EvTake 0;
   EvEnclave (mH2EResponse 1 (oStatus OK)) psQueued].
Definition ex_view (d : Dispatcher) := (forwarder_waits d, length (tx d), length (sending d), option_map closed (chans d !! 0%nat)).
Lemma forwarder_stuck : option_map ex_view (d_run (New 2 {| txcounter := 0 |}) ex_stuck) = Some (true, 1, 1, Some false)%nat /\
  option_map ex_view (d_run (New 2 {| txcounter := 0 |}) (ex_stuck ++ [EvSent 0 true; EvTake 0; EvSent 0 true])) = Some (false, 0, 0, Some false)%nat.
Proof. split; vm_compute; reflexivity. Qed.
