(* ===== verification/SocketWrap.v ===== *)
(** * Messages over a socket (enclave/socketwrap/socket.h, socket.cc, enclave/queue/queue.h)

    Every message is preceded by its size.  Writers append messages to one of
    two buffers, while a thread sends the other one; readers take messages
    out of what arrives.  The kernel's answers to [recv] and [send] are
    arguments: any number of bytes at a time, interruptions and failures.  The
    code, then its properties. *)
From stdpp Require Import prelude list.
From S2P Require Import Prelude Errors Containers Util.

Definition INT32_MAX : Z := 2 ^ 31 - 1.
Definition frame (ser : bytes) : bytes := BigEndian32Bytes (Zlen ser) ++ ser.

(** ** Reading *)

(** What [recv] does: gives up to [k] bytes (none at the end of the stream),
    is interrupted, or fails. *)
Inductive RecvResult := Got (k : nat) | RIntr | RFailed.

(** [None] is a call that waits for more to arrive. *)
Fixpoint ReadAll (rs : list RecvResult) (stream : bytes) (eof : bool) (size : nat) : option (bytes * bytes * list RecvResult * Error) :=
  match size with
  | O => Some ([], stream, rs, OK)
  | S _ =>
      match rs with
      | [] => None
      | RIntr :: rs' => ReadAll rs' stream eof size
      | RFailed :: rs' => Some ([], stream, rs', Socket_Read)
      | Got k :: rs' =>
          match stream with
          | [] => if eof then Some ([], [], rs', Socket_ReadEOF) else None
          | _ :: _ =>
              let got := Nat.max 1 (Nat.min k (Nat.min size (length stream))) in
              match ReadAll rs' (drop got stream) eof (size - got) with
              | Some (b, rest, rs'', e) => Some (take got stream ++ b, rest, rs'', e)
              | None => None
              end
          end
      end
  end.

Section read.
Context {M : Type} (ParseFromArray : bytes -> option M).

(** The message, the buffer and what is left of the stream. *)
Definition ReadPB (rs : list RecvResult) (stream : bytes) (eof : bool) (read_buf : bytes) :
    option (option M * bytes * bytes * list RecvResult * Error) :=
  '(uint32_buf, stream, rs, err) ← ReadAll rs stream eof 4;
  if negb (is_ok err) then Some (None, read_buf, stream, rs, err) else
  let to_read := BigEndian32FromBytes uint32_buf in
  if INT32_MAX <? to_read then Some (None, read_buf, stream, rs, Socket_ReadTooBig) else
  let n := Z.to_nat to_read in
  let read_buf := read_buf ++ replicate (n - length read_buf) 0 in
  '(b, stream, rs, err) ← ReadAll rs stream eof n;
  if negb (is_ok err) then Some (None, read_buf, stream, rs, err) else
  let read_buf := b ++ drop n read_buf in
  match ParseFromArray (take n read_buf) with
  | None => Some (None, read_buf, stream, rs, Socket_ParseIncoming)
  | Some pb => Some (Some pb, read_buf, stream, rs, OK)
  end.

(** Calls of [ReadPB] one after the other, until one waits or fails. *)
Fixpoint read_msgs (calls : nat) (rs : list RecvResult) (stream : bytes) (eof : bool) (read_buf : bytes) : list M * option Error :=
  match calls with
  | O => ([], None)
  | S calls' =>
      match ReadPB rs stream eof read_buf with
      | None => ([], None)
      | Some (Some pb, buf, rest, rs', _) => let '(ms, e) := read_msgs calls' rs' rest eof buf in (pb :: ms, e)
      | Some (None, _, _, _, e) => ([], Some e)
      end
  end.
End read.

(** ** [WriteQueue] *)
Record WriteQueue := { buffers_ : bytes * bytes; current_buffer_ : bool; done_ : bool; in_use_ : bool; writes_ : Z }.
Definition WriteQueue_new : WriteQueue := {| buffers_ := ([], []); current_buffer_ := true; done_ := false; in_use_ := false; writes_ := 0 |}.
Definition buffer (q : WriteQueue) (i : bool) : bytes := if i then (buffers_ q).2 else (buffers_ q).1.
Definition set_buffer (q : WriteQueue) (i : bool) (b : bytes) : WriteQueue :=
  {| q with buffers_ := if i then ((buffers_ q).1, b) else (b, (buffers_ q).2) |}.
Definition OtherBuffer (i : bool) : bool := negb i.

(** Of a message that serialises as [ser]. *)
Definition WritePB (q : WriteQueue) (initialized : bool) (ser : bytes) : WriteQueue * Error :=
  if negb initialized then (q, Socket_WriteNotInitialized) else
  let size := Zlen ser in
  if INT32_MAX <? size then (q, Socket_WriteTooBig) else
  let i := current_buffer_ q in
  (set_buffer q i (buffer q i ++ BigEndian32Bytes size ++ ser), OK).

Definition KillThread (q : WriteQueue) : WriteQueue := {| q with done_ := true |}.

(** What [FlushIfAble] waits for, and when it stops waiting. *)
Definition flush_target (q : WriteQueue) : Z :=
  let nonempty i := negb (Zlen (buffer q i) =? 0) in
  let w := writes_ q in
  let w := if nonempty (current_buffer_ q) then u64 (w + 1) else w in
  if nonempty (OtherBuffer (current_buffer_ q)) then u64 (w + 1) else w.
Definition flushed (q : WriteQueue) (target : Z) : bool := target <=? writes_ q.

(** *** [WriteThread] *)
Inductive SendResult := Sent (k : nat) | SIntr | SFailed.

(** Where the thread is: before taking a buffer, in [WriteAll] of the buffer
    [i] from [off], before clearing it, or out of the function. *)
Inductive Thread := TTop | TWriting (i : bool) (off : nat) | TWritten (i : bool) | TReturned (e : Error).

(** One turn of [WriteAll] of the rest of the buffer.  [sent]: what the kernel
    took. *)
Definition WriteAll_turn (q : WriteQueue) (i : bool) (off : nat) (sent : bytes) (r : SendResult) : WriteQueue * Thread * bytes :=
  let rest := drop off (buffer q i) in
  match rest with
  | [] => (q, TWritten i, sent)
  | _ :: _ =>
      match r with
      | SIntr => (q, TWriting i off, sent)
      | SFailed => (q, TReturned Socket_Write, sent)
      | Sent k => let n := Nat.min k (length rest) in (q, TWriting i (off + n), sent ++ take n rest)
      end
  end.

(** [None] is a failed [CHECK]. *)
Definition thread_turn (q : WriteQueue) (t : Thread) (sent : bytes) (r : SendResult) : option (WriteQueue * Thread * bytes) :=
  match t with
  | TTop =>
      let i := current_buffer_ q in
      if Zlen (buffer q i) =? 0 then
        if done_ q then CHECK (in_use_ q) (Some ({| q with in_use_ := false |}, TReturned OK, sent)) else Some (q, TTop, sent)
      else
        let j := OtherBuffer i in
        CHECK (Zlen (buffer q j) =? 0) (CHECK (0 <? Zlen (buffer q i)) (CHECK (negb (Bool.eqb i j))
          (Some ({| q with current_buffer_ := j |}, TWriting i 0, sent))))
  | TWriting i off => Some (WriteAll_turn q i off sent r)
  | TWritten i => let q := set_buffer q i [] in Some ({| q with writes_ := u64 (writes_ q + 1) |}, TTop, sent)
  | TReturned _ => Some (q, t, sent)
  end.

(** *** Writers and the thread, interleaved

    [written]: the messages that [WritePB] accepted. *)
Record Link := { wq : WriteQueue; thread : Thread; sent_ : bytes; written : list bytes }.
(** [WriteThread] has been called. *)
Definition Link_new : Link := let q := WriteQueue_new in {| wq := {| q with in_use_ := true |}; thread := TTop; sent_ := []; written := [] |}.

Inductive LinkEvent := EvWritePB (initialized : bool) (ser : bytes) | EvThread (r : SendResult) | EvKill.

Definition l_step (l : Link) (ev : LinkEvent) : option Link :=
  match ev with
  | EvWritePB initialized ser =>
      let '(q, e) := WritePB (wq l) initialized ser in
      Some {| l with wq := q; written := if is_ok e then written l ++ [ser] else written l |}
  | EvThread r =>
      match thread_turn (wq l) (thread l) (sent_ l) r with
      | Some (q, t, s) => Some {| l with wq := q; thread := t; sent_ := s |}
      | None => None
      end
  | EvKill => Some {| l with wq := KillThread (wq l) |}
  end.
Fixpoint l_run (l : Link) (evs : list LinkEvent) : option Link :=
  match evs with [] => Some l | ev :: evs' => l' ← l_step l ev; l_run l' evs' end.

(** ** [Queue]

    [popped_] is not initialised by the constructor: [p0] is what is there. *)
Section queue.
Context {T : Type}.
Record Queue := { d_ : list T; max_size_ : Z; popped_ : Z }.
Definition Queue_new (max_size p0 : Z) : Queue := {| d_ := []; max_size_ := max_size; popped_ := p0 |}.
(** [None] waits. *)
Definition Push (q : Queue) (val : T) : option Queue :=
  if Zlen (d_ q) <? max_size_ q then Some {| q with d_ := d_ q ++ [val] |} else None.
Definition Pop (q : Queue) : option (Queue * T) :=
  match d_ q with [] => None | x :: d => Some ({| q with d_ := d; popped_ := u64 (popped_ q + 1) |}, x) end.
Definition Flush_target (q : Queue) : Z := u64 (popped_ q + Zlen (d_ q)).
Definition Flush_done (q : Queue) (wait_for : Z) : bool := wait_for <=? popped_ q.
End queue.
Arguments Queue T : clear implicits.

(** * Properties of the socket between host and enclave

    The two buffers are one stream in the order of the writes, which a reader
    cuts into the same messages however the kernel splits it. *)

(** ** Buffers *)
Arguments buffer : simpl never.
Arguments set_buffer : simpl never.
Arguments frame : simpl never.
Lemma buffer_set q i b : buffer (set_buffer q i b) i = b.
Proof. by destruct i. Qed.
Lemma buffer_set_other q i b : buffer (set_buffer q i b) (negb i) = buffer q (negb i).
Proof. by destruct i. Qed.
Lemma current_set q i b : current_buffer_ (set_buffer q i b) = current_buffer_ q.
Proof. done. Qed.
Lemma buffer_writes q w i : buffer {| q with writes_ := w |} i = buffer q i.
Proof. done. Qed.

Definition stream_of (ms : list bytes) : bytes := ms ≫= frame.
Lemma stream_of_app ms ms' : stream_of (ms ++ ms') = stream_of ms ++ stream_of ms'.
Proof. apply bind_app. Qed.

Arguments stream_of : simpl never.

(** What the thread has taken and not yet sent. *)
Definition taken (l : Link) : bytes :=
  match thread l with TWriting i off => drop off (buffer (wq l) i) | _ => [] end.

(** The other buffer is the thread's, and empty when the thread has none. *)
Definition other_ok (l : Link) : Prop :=
  match thread l with
  | TTop => buffer (wq l) (negb (current_buffer_ (wq l))) = []
  | TWriting i off => i = negb (current_buffer_ (wq l)) /\ buffer (wq l) i <> []
  | TWritten i => i = negb (current_buffer_ (wq l)) /\ buffer (wq l) i <> []
  | TReturned OK => buffer (wq l) (negb (current_buffer_ (wq l))) = []
  | TReturned _ => buffer (wq l) (negb (current_buffer_ (wq l))) <> []
  end.

Record link_inv (l : Link) : Prop := {
  li_other : other_ok l;
  li_in_use : (forall e, thread l <> TReturned e) -> in_use_ (wq l) = true;
  li_stream : thread l <> TReturned Socket_Write ->
    sent_ l ++ taken l ++ buffer (wq l) (current_buffer_ (wq l)) = stream_of (written l);
  li_prefix : sent_ l `prefix_of` stream_of (written l);
  li_sizes : Forall (fun ser => Zlen ser <= INT32_MAX) (written l) }.

Lemma Link_new_inv : link_inv Link_new.
Proof. by split. Qed.

Lemma WritePB_cases q ini ser : let '(q', e) := WritePB q ini ser in
  (e = OK /\ Zlen ser <= INT32_MAX /\ q' = set_buffer q (current_buffer_ q) (buffer q (current_buffer_ q) ++ frame ser)) \/
  (is_ok e = false /\ q' = q).
Proof.
  unfold WritePB. destruct ini; cbn [negb]; [|by right]. destruct (INT32_MAX <? Zlen ser) eqn:E; [by right|]. zbool. by left.
Qed.

Lemma taken_set l ser : other_ok l -> forall w, let q := wq l in
  taken {| l with wq := set_buffer q (current_buffer_ q) (buffer q (current_buffer_ q) ++ ser); written := w |} = taken l.
Proof.
  unfold other_ok, taken. cbn. destruct (thread l) as [|i off|i|e]; intros Ho w; try done. destruct Ho as [-> Ho].
  by rewrite buffer_set_other.
Qed.

Lemma l_step_write_inv l ini ser l' : link_inv l -> l_step l (EvWritePB ini ser) = Some l' -> link_inv l'.
Proof.
  intros Hi. cbn. pose proof (WritePB_cases (wq l) ini ser) as Hw. destruct (WritePB (wq l) ini ser) as [q' e].
  destruct Hw as [(-> & Hsz & ->)|[He ->]]; intros [= <-]; last first.
  { rewrite He. by destruct l, Hi. }
  destruct Hi as [Ho Hu Hs Hp Hz]. split; cbn.
  - unfold other_ok in *. cbn. destruct (thread l); rewrite ?current_set, ?buffer_set_other; try done;
      destruct Ho as [-> Ho]; by rewrite buffer_set_other.
  - done.
  - intros Ht. rewrite (taken_set l (frame ser) Ho), current_set, buffer_set, stream_of_app, <-Hs by done.
    unfold stream_of. cbn [mbind list_bind]. by rewrite app_nil_r, <-!(assoc_L (++)).
  - rewrite stream_of_app. by apply prefix_app_r.
  - apply Forall_app. auto.
Qed.

(** A turn of the thread never fails a [CHECK]. *)
Lemma l_step_thread_inv l r : link_inv l -> exists l', l_step l (EvThread r) = Some l' /\ link_inv l'.
Proof.
  intros [Ho Hu Hs Hp Hz]. destruct l as [q t s w]. cbn [wq thread sent_ written] in *. unfold l_step, thread_turn, WriteAll_turn. cbn [wq thread sent_ written].
  unfold other_ok in Ho. cbn [thread wq] in Ho. destruct t as [|i off|i|e].
  - specialize (Hs ltac:(done)). cbn in Hs. destruct (Zlen (buffer q (current_buffer_ q)) =? 0) eqn:E; zbool.
    + destruct (done_ q).
      * rewrite Hu by done. cbn. eexists. split; [done|]. split; cbn; try done; try (intros; by apply Hu). intros Hr. by destruct (Hr OK).
      * eexists. split; [done|]. by split.
    + rewrite (proj2 (Z.eqb_eq _ _)) by (unfold OtherBuffer; by rewrite Ho). cbn [CHECK].
      rewrite (proj2 (Z.ltb_lt _ _)) by (pose proof (Zlen_nonneg (buffer q (current_buffer_ q))); lia). cbn [CHECK].
      rewrite (proj2 (negb_true_iff _)) by (by destruct (current_buffer_ q)). cbn [CHECK]. eexists. split; [done|].
      split; cbn; try done; try (intros; by apply Hu).
      * unfold OtherBuffer. rewrite negb_involutive. split; [done|]. intros Hn. apply E. change (buffer q (current_buffer_ q) = []) in Hn. by rewrite Hn.
      * intros _. change (s ++ buffer q (current_buffer_ q) ++ buffer q (negb (current_buffer_ q)) = stream_of w). by rewrite Ho, app_nil_r.
  - destruct Ho as [-> Hne]. specialize (Hs ltac:(done)). unfold taken in Hs. cbn [thread wq] in Hs.
    destruct (drop off (buffer q (negb (current_buffer_ q)))) as [|x rest] eqn:Ed.
    + eexists. split; [done|]. split; cbn; try done; intros; by apply Hu.
    + rewrite <-Ed in *. destruct r as [k| |].
      * eexists. split; [done|].
        assert ((s ++ take (Nat.min k (length (drop off (buffer q (negb (current_buffer_ q)))))) (drop off (buffer q (negb (current_buffer_ q))))) ++
          drop (off + Nat.min k (length (drop off (buffer q (negb (current_buffer_ q)))))) (buffer q (negb (current_buffer_ q))) ++ buffer q (current_buffer_ q) =
          stream_of w) as Heq.
        { rewrite <-drop_drop, <-(assoc_L (++)), (assoc_L (++) (take _ _)), take_drop. done. }
        split; cbn; [done|intros; by apply Hu|intros _; exact Heq|rewrite <-Heq; by apply prefix_app_r|done].
      * eexists. split; [done|]. by split.
      * eexists. split; [done|]. split; cbn; try done; intros; by apply Hu.
  - destruct Ho as [-> Hne]. eexists. split; [done|]. split; cbn; try done; try (intros; by apply Hu).
    + unfold other_ok. cbn. rewrite current_set. apply buffer_set.
    + intros _. specialize (Hs ltac:(done)). cbn in Hs. rewrite <-Hs. f_equal. cbn.
      change (current_buffer_ (set_buffer q (negb (current_buffer_ q)) [])) with (current_buffer_ q). by destruct (current_buffer_ q).
  - eexists. split; [done|]. split; cbn; try done; intros; by apply Hu.
Qed.

Lemma l_step_inv l ev : link_inv l -> exists l', l_step l ev = Some l' /\ link_inv l'.
Proof.
  intros Hi. destruct ev as [ini ser|r|].
  - destruct (l_step l (EvWritePB ini ser)) as [l'|] eqn:E; [eauto using l_step_write_inv|].
    cbn in E. by destruct (WritePB (wq l) ini ser).
  - by apply l_step_thread_inv.
  - eexists. split; [done|]. by destruct Hi.
Qed.
Lemma l_run_inv evs : forall l, link_inv l -> exists l', l_run l evs = Some l' /\ link_inv l'.
Proof.
  induction evs as [|ev evs IH]; intros l Hi; [by eauto|]. destruct (l_step_inv l ev Hi) as (l1 & E & H1).
  cbn. rewrite E. by apply IH.
Qed.

(** ** Reading *)
Lemma BigEndian32_value bs : length bs = 4%nat -> bytes_ok bs -> BigEndian32FromBytes bs = be_value bs.
Proof.
  intros Hl Hok. do 4 (destruct bs as [|? bs]; [done|]). destruct bs; [|done].
  repeat (apply Forall_cons in Hok as [? Hok]). unfold BigEndian32FromBytes, byte_at. simpl nth.
  change (8 * 3) with (8 * 2 + 8). rewrite lor_byte by (done || lia).
  change (8 * 2) with (8 * 1 + 8). rewrite lor_byte by (done || lia).
  change (8 * 1) with (8 * 0 + 8). rewrite lor_byte by (done || lia).
  rewrite Z.shiftl_0_r. unfold be_value. simpl. lia.
Qed.
Lemma BigEndian32_roundtrip v : is_u32 v -> BigEndian32FromBytes (BigEndian32Bytes v) = v.
Proof.
  intros Hv. rewrite BigEndian32_value; [|done|repeat (constructor; [apply u8_range|]); constructor].
  unfold be_value, BigEndian32Bytes. cbn [foldl]. rewrite !shiftr_byte by lia.
  assert (H0 : 0 * 256 + (v / 2 ^ (8 * 3)) mod 256 = v / 2 ^ (8 * 3)).
  { rewrite Z.mod_small; [lia|]. split; [apply Z.div_pos; ulia|]. apply Z.div_lt_upper_bound; ulia. }
  rewrite H0. change (8 * 3) with (8 * 2 + 8). rewrite be_step by lia.
  change (8 * 2) with (8 * 1 + 8). rewrite be_step by lia.
  change (8 * 1) with (8 * 0 + 8). rewrite be_step by lia. by rewrite Z.div_1_r.
Qed.

Definition gots (rs : list RecvResult) : nat := length (List.filter (fun r => match r with Got _ => true | _ => false end) rs).

(** Without failures a read waits or gives the next bytes. *)
Lemma ReadAll_spec rs s size : RFailed ∉ rs ->
  (ReadAll rs s false size = None /\ ((gots rs < size)%nat \/ (length s < size)%nat)) \/
  ((size <= length s)%nat /\ exists rs', ReadAll rs s false size = Some (take size s, drop size s, rs', OK) /\ (RFailed ∉ rs') /\ (gots rs <= gots rs' + size)%nat).
Proof.
  revert s size. induction rs as [|r rs IH]; intros s [|size] Hf.
  - right. split; [lia|]. exists []. split; [done|]. split; [done|]. lia.
  - left. split; [done|]. left. cbn. lia.
  - right. split; [lia|]. eexists. split; [done|]. split; [done|]. lia.
  - rewrite not_elem_of_cons in Hf. destruct Hf as [Hr Hf]. destruct r as [k| |]; [|by apply IH|done]. cbn [ReadAll].
    destruct s as [|x s']; [left; split; [done|]; right; cbn; lia|]. set (s := x :: s').
    set (got := Nat.max 1 (Nat.min k (Nat.min (S size) (length s)))).
    assert (1 <= got <= length s /\ got <= S size)%nat as Hgot by (unfold got; cbn; lia).
    destruct (IH (drop got s) (S size - got)%nat Hf) as [[-> Hw]|(Hl & rs' & -> & Hf' & Hg)].
    + left. split; [done|]. rewrite length_drop in Hw. change (gots (Got k :: rs)) with (S (gots rs)). lia.
    + rewrite length_drop in Hl. right. split; [lia|]. exists rs'. split; [|split; [done|change (gots (Got k :: rs)) with (S (gots rs)); lia]].
      do 4 f_equal.
      * replace (S size) with (got + (S size - got))%nat at 2 by lia. by rewrite take_take_drop.
      * rewrite drop_drop. f_equal. lia.
Qed.

Section delivery.
Context {M : Type} (parse : bytes -> option M).

(** What a message needs to be read. *)
Definition readable (ser : bytes) : Prop := Zlen ser <= INT32_MAX /\ is_Some (parse ser).

Lemma prefix_app_cut (a b s : bytes) : s `prefix_of` (a ++ b) -> (length a <= length s)%nat -> exists s', s = a ++ s' /\ s' `prefix_of` b.
Proof.
  intros [k Hk] Hl. exists (drop (length a) s).
  assert (take (length a) s = a) as Ht.
  { apply (f_equal (take (length a))) in Hk. rewrite take_app_length, take_app_le in Hk by done. done. }
  split; [by rewrite <-Ht at 1; rewrite take_drop|]. exists k.
  apply (f_equal (drop (length a))) in Hk. rewrite drop_app_length, drop_app_le in Hk by done. done.
Qed.
Lemma frame_length ser : length (frame ser) = (4 + length ser)%nat.
Proof. unfold frame. by rewrite length_app. Qed.

(** On what is there of a stream whose first message is [ser], a call waits,
    or gives that message and leaves the rest. *)
Lemma ReadPB_spec rs s ser next buf : readable ser -> RFailed ∉ rs -> s `prefix_of` (frame ser ++ next) ->
  (ReadPB parse rs s false buf = None /\ ((gots rs < length (frame ser))%nat \/ (length s < length (frame ser))%nat)) \/
  (exists pb buf' s' rs', ReadPB parse rs s false buf = Some (Some pb, buf', s', rs', OK) /\ parse ser = Some pb /\
     s = frame ser ++ s' /\ s' `prefix_of` next /\ (RFailed ∉ rs') /\ (gots rs <= gots rs' + length (frame ser))%nat).
Proof.
  intros [Hsz [pb Hpb]] Hf Hpre. rewrite frame_length. unfold ReadPB.
  destruct (ReadAll_spec rs s 4 Hf) as [[-> Hw]|(Hl & rs1 & -> & Hf1 & Hg1)]; [left; split; [done|lia]|].
  cbn [mbind option_bind is_ok negb].
  destruct (prefix_app_cut (BigEndian32Bytes (Zlen ser)) (ser ++ next) s) as (s1 & -> & Hp1); [by rewrite (assoc_L (++))|done|].
  rewrite (take_app_length' _ _ 4), (drop_app_length' _ _ 4) by done.
  rewrite BigEndian32_roundtrip by (pose proof (Zlen_nonneg ser); unfold INT32_MAX in Hsz; ulia).
  rewrite (proj2 (Z.ltb_ge _ _)) by done. unfold Zlen. rewrite Nat2Z.id.
  destruct (ReadAll_spec rs1 s1 (length ser) Hf1) as [[-> Hw]|(Hl2 & rs2 & -> & Hf2 & Hg2)].
  { left. split; [done|]. rewrite length_app. unfold BigEndian32Bytes. cbn [length]. lia. }
  cbn [mbind option_bind is_ok negb]. destruct (prefix_app_cut ser next s1 Hp1 Hl2) as (s2 & -> & Hp2).
  rewrite take_app_length, drop_app_length, take_app_length, Hpb. right. do 4 eexists. split; [done|]. split; [done|].
  split; [unfold frame; by rewrite <-(assoc_L (++))|]. split; [done|]. split; [done|]. lia.
Qed.

(** Reading what is there of a stream gives its first messages, and all that
    are there when [recv] goes on giving. *)
Lemma read_msgs_spec n : forall rs s ms buf, Forall readable ms -> RFailed ∉ rs -> s `prefix_of` stream_of ms ->
  exists got, read_msgs parse n rs s false buf = (got, None) /\ Some <$> got = parse <$> take (length got) ms /\
    ((length s <= gots rs)%nat -> forall k, (k <= n)%nat -> (k <= length ms)%nat -> stream_of (take k ms) `prefix_of` s -> (k <= length got)%nat).
Proof.
  induction n as [|n IH]; intros rs s ms buf Hm Hf Hp; cbn [read_msgs].
  { exists []. split; [done|]. split; [done|]. cbn. lia. }
  destruct ms as [|ser ms].
  { apply prefix_nil_inv in Hp as ->. exists [].
    assert (ReadPB parse rs [] false buf = None) as ->; [|split; [done|]; split; [done|]; cbn; lia].
    unfold ReadPB. destruct (ReadAll_spec rs [] 4 Hf) as [[-> _]|[Hl _]]; [done|cbn in Hl; lia]. }
  apply Forall_cons in Hm as [Hr Hm]. change (stream_of (ser :: ms)) with (frame ser ++ stream_of ms) in Hp.
  destruct (ReadPB_spec rs s ser (stream_of ms) buf Hr Hf Hp) as [[-> Hw]|(pb & buf' & s' & rs' & -> & Hpb & -> & Hp' & Hf' & Hg)].
  - exists []. split; [done|]. split; [done|]. intros Hgs k Hk Hk' Hpre. destruct k as [|k]; [lia|]. exfalso.
    change (stream_of (take (S k) (ser :: ms))) with (frame ser ++ stream_of (take k ms)) in Hpre.
    apply prefix_length in Hpre. rewrite length_app in Hpre. lia.
  - destruct (IH rs' s' ms buf' Hm Hf' Hp') as (got & -> & Heq & Hall). exists (pb :: got). split; [done|].
    split; [cbn; by rewrite Heq, Hpb|]. rewrite length_app. intros Hgs k Hk Hk' Hpre. destruct k as [|k]; [lia|]. cbn in Hk' |- *.
    apply le_n_S, Hall; [lia|lia|lia|]. by apply prefix_app_inv in Hpre.
Qed.
End delivery.

Lemma l_run_written evs : forall l l', l_run l evs = Some l' ->
  forall ser, ser ∈ written l' -> ser ∈ written l \/ exists ini, EvWritePB ini ser ∈ evs.
Proof.
  induction evs as [|ev evs IH]; intros l l' Hr ser Hs; cbn in Hr; [simplify_eq; by left|].
  destruct (l_step l ev) as [l1|] eqn:E; cbn in Hr; [|done]. destruct (IH l1 l' Hr ser Hs) as [H1|[ini H1]]; [|right; exists ini; by right].
  destruct ev as [ini ser'|r|]; cbn in E.
  - destruct (WritePB (wq l) ini ser') as [q e]. injection E as <-. cbn in H1. destruct (is_ok e); [|by left].
    apply elem_of_app in H1 as [?| ->%list_elem_of_singleton]; [by left|]. right. exists ini. by left.
  - repeat case_match; simplify_eq. by left.
  - simplify_eq. by left.
Qed.

(** C31: The socket between enclave and host keeps messages: however calls of
    [WritePB] and the turns of the writing thread interleave, and however much
    the kernel takes at a time, no [CHECK] of the double buffer fails; a reader
    of what was sent, in whatever pieces it arrives, gets a beginning of the
    messages that [WritePB] accepted, unchanged and in order, and waits after
    them; it gets all of them once the buffers are empty and [recv] has given
    enough. *)
Theorem socket_keeps_messages {M} (parse : bytes -> option M) evs :
  (forall ini ser, EvWritePB ini ser ∈ evs -> is_Some (parse ser)) ->
  exists l, l_run Link_new evs = Some l /\ forall n rs, RFailed ∉ rs ->
    exists got, read_msgs parse n rs (sent_ l) false [] = (got, None) /\ Some <$> got = parse <$> take (length got) (written l) /\
      (thread l = TTop -> buffer (wq l) (current_buffer_ (wq l)) = [] -> (length (sent_ l) <= gots rs)%nat -> (length (written l) <= n)%nat ->
       Some <$> got = parse <$> written l).
Proof.
  intros Hp. destruct (l_run_inv evs Link_new Link_new_inv) as (l & Hr & Hi). exists l. split; [done|]. intros n rs Hf.
  assert (Forall (readable parse) (written l)) as Hm.
  { apply Forall_forall. intros ser Hs. pose proof (li_sizes l Hi) as Hz. rewrite Forall_forall in Hz. split; [by apply Hz|].
    destruct (l_run_written evs _ _ Hr ser Hs) as [H|[ini H]]; [by apply elem_of_nil in H|by eapply Hp]. }
  destruct (read_msgs_spec parse n rs (sent_ l) (written l) [] Hm Hf (li_prefix l Hi)) as (got & -> & Heq & Hall).
  exists got. split; [done|]. split; [done|]. intros Ht Hb Hg Hn. rewrite Heq. f_equal. apply take_ge.
  apply (Hall Hg (length (written l)) Hn); [done|]. rewrite firstn_all, <-(li_stream l Hi) by congruence. unfold taken. by rewrite Ht, Hb, app_nil_r.
Qed.

Lemma socket_keeps_messages_witness :
  exists l, l_run Link_new [EvWritePB true [7; 8]; EvThread SIntr; EvThread (Sent 3); EvWritePB true [9]; EvThread (Sent 9); EvThread SIntr; EvThread SIntr] = Some l /\
    written l = [[7; 8]; [9]] /\ exists got, read_msgs Some 5 [Got 1; RIntr; Got 9; Got 9] (sent_ l) false [] = (got, None) /\ got = [[7; 8]].
Proof.
  destruct (socket_keeps_messages (Some (A := bytes)) [EvWritePB true [7; 8]; EvThread SIntr; EvThread (Sent 3); EvWritePB true [9]; EvThread (Sent 9); EvThread SIntr; EvThread SIntr])
    as (l & Hl & Hread); [intros; eauto|].
  exists l. split; [done|]. vm_compute in Hl. injection Hl as <-. split; [reflexivity|].
  destruct (Hread 5%nat [Got 1; RIntr; Got 9; Got 9]) as (got & Hg & _); [set_solver|]. exists got. split; [done|]. vm_compute in Hg. by injection Hg as <-.
Defined.

(** ** [FlushIfAble] *)
Definition other (l : Link) : bytes := buffer (wq l) (negb (current_buffer_ (wq l))).
Definition current (l : Link) : bytes := buffer (wq l) (current_buffer_ (wq l)).

(** How many more times a buffer has to be written until the first [n] bytes
    of the stream are sent. *)
Definition pending (n : nat) (l : Link) : Z :=
  if decide (n <= length (stream_of (written l)) - length (current l))%nat then (if decide (n <= length (sent_ l))%nat then 0 else 1)
  else if decide (other l = []) then 1 else 2.

Lemma stream_length l : link_inv l -> thread l <> TReturned Socket_Write ->
  length (stream_of (written l)) = (length (sent_ l) + length (taken l) + length (current l))%nat.
Proof. intros Hi Ht. rewrite <-(li_stream l Hi Ht), !length_app. unfold current. lia. Qed.

Lemma written_write_pending n l ini ser l' : link_inv l -> l_step l (EvWritePB ini ser) = Some l' ->
  pending n l' = pending n l /\ writes_ (wq l') = writes_ (wq l).
Proof.
  intros Hi. cbn. pose proof (WritePB_cases (wq l) ini ser) as Hw. destruct (WritePB (wq l) ini ser) as [q' e].
  destruct Hw as [(-> & Hsz & ->)|[He ->]]; intros [= <-]; [|rewrite He; by destruct l].
  split; [|done]. unfold pending, current, other. cbn [wq sent_ written is_ok]. rewrite current_set, buffer_set, buffer_set_other.
  rewrite stream_of_app, !length_app. change (stream_of [ser]) with (frame ser ++ []). rewrite app_nil_r.
  replace (length (stream_of (written l)) + length (frame ser) - (length (buffer (wq l) (current_buffer_ (wq l))) + length (frame ser)))%nat
    with (length (stream_of (written l)) - length (buffer (wq l) (current_buffer_ (wq l))))%nat by lia. done.
Qed.

(** Only clearing a written buffer counts, and it takes one off what is
    pending. *)
Lemma thread_pending n l r l' : link_inv l -> (n <= length (stream_of (written l)))%nat -> l_step l (EvThread r) = Some l' ->
  (pending n l' <= pending n l /\ writes_ (wq l') = writes_ (wq l)) \/
  (pending n l' <= Z.max 0 (pending n l - 1) /\ writes_ (wq l') = u64 (writes_ (wq l) + 1)).
Proof.
  intros Hi Hn Hs. pose proof Hi as [Ho Hu _ _ _]. pose proof (stream_length l Hi) as Hlen.
  destruct l as [q t s w]. unfold l_step, thread_turn, WriteAll_turn in Hs. unfold other_ok in Ho. unfold taken in Hlen. cbn [wq thread sent_ written] in *.
  destruct t as [|i off|i|e].
  - destruct (Zlen (buffer q (current_buffer_ q)) =? 0) eqn:E; zbool.
    + destruct (done_ q); [destruct (in_use_ q)|]; cbn in Hs; simplify_eq; left; by split.
    + destruct (CHECK _ _) as [[[q' t'] s']|] eqn:Ec; [|done]. repeat (apply CHECK_Some in Ec as [_ Ec]). simplify_eq. left. split; [|done].
      specialize (Hlen ltac:(done)). unfold pending, current, other in *. cbn [wq sent_ written current_buffer_] in *.
      unfold OtherBuffer. rewrite negb_involutive.
      change (buffer {| q with current_buffer_ := negb (current_buffer_ q) |}) with (buffer q). rewrite Ho. cbn [length].
      repeat case_decide; try lia; try done.
  - destruct (drop off (buffer q i)) as [|x rest] eqn:Ed; [simplify_eq; left; by split|]. rewrite <-Ed in *.
    destruct r as [k| |]; simplify_eq; left; (split; [|done]); unfold pending, current, other; cbn [wq sent_ written]; try lia.
    rewrite length_app. repeat case_decide; try lia.
  - destruct Ho as [-> Hne]. simplify_eq. right. split; [|done]. specialize (Hlen ltac:(done)).
    unfold pending, current, other in *. cbn [wq sent_ written current_buffer_] in *.
    rewrite !buffer_writes, !current_set, buffer_set. cbn [length] in Hlen.
    assert (buffer (set_buffer q (negb (current_buffer_ q)) []) (current_buffer_ q) = buffer q (current_buffer_ q)) as -> by (by destruct (current_buffer_ q)).
    repeat case_decide; try lia; done.
  - simplify_eq. left. by split.
Qed.

Lemma step_pending n l ev l' : link_inv l -> (n <= length (stream_of (written l)))%nat -> is_u64 (writes_ (wq l) + 1) -> 0 <= writes_ (wq l) -> l_step l ev = Some l' ->
  link_inv l' /\ (n <= length (stream_of (written l')))%nat /\ writes_ (wq l) <= writes_ (wq l') <= writes_ (wq l) + 1 /\
  pending n l' <= Z.max 0 (pending n l - (writes_ (wq l') - writes_ (wq l))).
Proof.
  intros Hi Hn Hu H0 Hs. destruct (l_step_inv l ev Hi) as (l1 & E & H1). rewrite Hs in E. injection E as <-. split; [done|].
  assert (0 <= pending n l) as Hp by (unfold pending; repeat case_decide; lia).
  destruct ev as [ini ser|r|].
  - destruct (written_write_pending n l ini ser l' Hi Hs) as [-> ->]. split; [|lia].
    cbn in Hs. destruct (WritePB (wq l) ini ser) as [q e]. simplify_eq. cbn. destruct (is_ok e); [|done]. rewrite stream_of_app, length_app. lia.
  - assert (written l' = written l) as -> by (cbn in Hs; repeat case_match; by simplify_eq). split; [done|].
    destruct (thread_pending n l r l' Hi Hn Hs) as [[Hle ->]|[Hle ->]]; [lia|]. rewrite u64_small by done. lia.
  - cbn in Hs. simplify_eq. cbn. split; [done|]. split; [lia|]. unfold pending, current, other in *. cbn in *.
    change (buffer (KillThread (wq l))) with (buffer (wq l)). lia.
Qed.

Lemma run_pending n evs : forall l l', link_inv l -> (n <= length (stream_of (written l)))%nat -> 0 <= writes_ (wq l) ->
  is_u64 (writes_ (wq l) + Z.of_nat (length evs)) -> l_run l evs = Some l' ->
  link_inv l' /\ writes_ (wq l) <= writes_ (wq l') <= writes_ (wq l) + Z.of_nat (length evs) /\
  pending n l' <= Z.max 0 (pending n l - (writes_ (wq l') - writes_ (wq l))).
Proof.
  induction evs as [|ev evs IH]; intros l l' Hi Hn H0 Hu Hr; cbn in Hr.
  { simplify_eq. split; [done|]. cbn. split; [lia|]. unfold pending. repeat case_decide; lia. }
  destruct (l_step l ev) as [l1|] eqn:E; cbn in Hr; [|done]. cbn [length] in *.
  destruct (step_pending n l ev l1 Hi Hn ltac:(ulia) H0 E) as (H1 & Hn1 & Hw1 & Hp1).
  destruct (IH l1 l' H1 Hn1 ltac:(lia) ltac:(ulia) Hr) as (H2 & Hw2 & Hp2). split; [done|]. split; lia.
Qed.

Lemma flush_target_pending l : link_inv l -> 0 <= writes_ (wq l) < 2 ^ 64 - 2 ->
  pending (length (stream_of (written l))) l <= flush_target (wq l) - writes_ (wq l).
Proof.
  intros Hi Hw. unfold flush_target, pending. fold (current l). unfold OtherBuffer. fold (other l).
  destruct (Zlen (current l) =? 0) eqn:Ec; destruct (Zlen (other l) =? 0) eqn:Eo; zbool; rewrite Zlen_zero in *; cbn [negb];
    rewrite ?(u64_small (writes_ (wq l) + 1)) by ulia; rewrite ?u64_small by ulia; rewrite ?Ec, ?Eo; cbn [length]; repeat case_decide; try lia; try done.
  assert (thread l <> TReturned Socket_Write) as Ht.
  { intros Ht. pose proof (li_other l Hi) as Ho. unfold other_ok in Ho. by rewrite Ht in Ho. }
  pose proof (stream_length l Hi Ht) as Hlen. rewrite Ec in Hlen. assert (taken l = []) as Hk; [|rewrite Hk in Hlen; cbn in Hlen; lia].
  pose proof (li_other l Hi) as Ho. unfold other_ok in Ho. unfold taken. destruct (thread l) as [|i off|i|e]; try done.
  destruct Ho as [-> Ho]. by destruct Ho.
Qed.

Lemma l_run_extends evs : forall l l', l_run l evs = Some l' -> exists more, written l' = written l ++ more.
Proof.
  induction evs as [|ev evs IH]; intros l l' Hr; cbn in Hr; [simplify_eq; exists []; by rewrite app_nil_r|].
  destruct (l_step l ev) as [l1|] eqn:E; cbn in Hr; [|done]. destruct (IH l1 l' Hr) as [more ->].
  destruct ev as [ini ser|r|]; cbn in E; repeat case_match; simplify_eq; cbn; eauto. eexists. by rewrite <-(assoc_L (++)).
Qed.

(** [FlushIfAble] waits long enough: when it finds its condition true,
    every message that [WritePB] had accepted before it was called has been
    given to the kernel, whatever writers and the writing thread did in between
    (for fewer than 2^64 turns). *)
Theorem flush_waits_for_all evs1 evs2 l1 l2 :
  l_run Link_new evs1 = Some l1 -> l_run l1 evs2 = Some l2 -> Z.of_nat (length evs1 + length evs2) < 2 ^ 64 - 2 ->
  flushed (wq l2) (flush_target (wq l1)) = true -> stream_of (written l1) `prefix_of` sent_ l2.
Proof.
  intros H1 H2 Hlen Hfl.
  destruct (run_pending 0 evs1 Link_new l1 Link_new_inv) as (Hi1 & Hw1 & _); [cbn; lia|cbn; lia|cbn; ulia|done|]. change (writes_ (wq Link_new)) with 0 in Hw1.
  destruct (run_pending (length (stream_of (written l1))) evs2 l1 l2 Hi1) as (Hi2 & Hw2 & Hp); [lia|lia|ulia|done|].
  assert (pending (length (stream_of (written l1))) l1 <= flush_target (wq l1) - writes_ (wq l1)) as Hneed.
  { apply flush_target_pending; [done|ulia]. }
  unfold flushed in Hfl. zbool. assert (pending (length (stream_of (written l1))) l2 <= 0) as H0 by lia.
  assert (length (stream_of (written l1)) <= length (sent_ l2))%nat as Hle by (unfold pending in H0; repeat case_decide; lia).
  pose proof (li_prefix l2 Hi2) as Hpre. destruct (l_run_extends evs2 l1 l2 H2) as [more Hm]. rewrite Hm, stream_of_app in Hpre.
  destruct (prefix_app_cut _ _ _ Hpre Hle) as (s' & -> & _). by apply prefix_app_r.
Qed.

Lemma flush_waits_for_all_witness :
  exists l1 l2, l_run Link_new [EvWritePB true [7]; EvThread SIntr; EvWritePB true [8]] = Some l1 /\
    l_run l1 (replicate 8 (EvThread (Sent 2)) ++ [EvWritePB true [9]] ++ replicate 4 (EvThread (Sent 3))) = Some l2 /\
    flush_target (wq l1) = 2 /\ stream_of (written l1) `prefix_of` sent_ l2.
Proof.
  eexists. eexists. split; [vm_compute; reflexivity|]. split; [vm_compute; reflexivity|]. split; [reflexivity|].
  eapply (flush_waits_for_all [EvWritePB true [7]; EvThread SIntr; EvWritePB true [8]]
    (replicate 8 (EvThread (Sent 2)) ++ [EvWritePB true [9]] ++ replicate 4 (EvThread (Sent 3)))); [vm_compute; reflexivity..|].
  vm_compute. reflexivity.
Defined.

(** ** [Queue] *)

(** Values come out in the order in which they went in. *)
Lemma Pop_Push {T} (q q' : Queue T) x : Push q x = Some q' ->
  forall q1 y, Pop q' = Some (q1, y) -> d_ q ++ [x] = y :: d_ q1.
Proof.
  unfold Push, Pop. intros Hp q1 y Hy. destruct (Zlen (d_ q) <? max_size_ q); [|done]. injection Hp as <-. cbn in Hy.
  destruct (d_ q); cbn in Hy; by simplify_eq/=.
Qed.

(** [Flush] of a queue that holds a value returns at once when [popped_]
    happens to start near the greatest value. *)
Lemma Flush_uninitialised {T} (x : T) q : Push (Queue_new 10 (2 ^ 64 - 1)) x = Some q -> d_ q = [x] /\ Flush_done q (Flush_target q) = true.
Proof. intros [= <-]. split; reflexivity. Qed.
