(* ===== verification/EnclaveCalls.v ===== *)
(** * Calling the enclave (enclave/socketmain/socketmain.cc,
    enclave/ecalls/ecalls.cc, host/enclave/socket.go, host/enclave/sgx.go)

    A host gives messages to its enclave over a socket, with a number for
    every call, or by calling into it.  In the enclave, threads take messages,
    hand them to the core and answer with the core's status.  The code, then
    its properties. *)
From Stdlib Require Import Strings.String.
From stdpp Require Import prelude gmap.
From S2P Require Import Prelude Errors Containers RaftTypes PeerId Merkle MerkleProofs MerkleProps Raft RaftExamples ClientTypes Db Db2 Db2Spec Minimums GroupClock Database Db2Database Noise Msgs Client Peers CoreState Core CoreHost CoreExamples HostWire Attest.

(** ** socketmain.proto *)
Inductive InboundMessage := InInit (config : InitConfig) | InMsg (id : Z) (data : bytes) | InNOT_SET.
Inductive OutboundMessage :=
  | OutInit (peer_id : bytes)
  | OutMsg (id : Z) (status : Error)
  | OutOut (out : bytes)
  | OutLog (level : Z) (log : bytes)
  | OutNOT_SET.

(** ** The core, as the process sees it *)
Class Served (C : Type) := {
  core_Create : InitConfig -> option (option C * Error);
  core_Receive : UntrustedMessage -> C -> option (C * list EnclaveMessage * Error);
  core_ID : C -> bytes;
  (** protobuf *)
  SerializeUntrusted : UntrustedMessage -> option bytes;
  ParseUntrusted : bytes -> option UntrustedMessage;
  SerializeEnclave : EnclaveMessage -> option bytes;
  ParseEnclave : bytes -> option EnclaveMessage }.
Class ServedLaws (C : Type) `{Served C} := {
  parse_untrusted : forall m b, SerializeUntrusted m = Some b -> ParseUntrusted b = Some m;
  parse_enclave : forall m b, SerializeEnclave m = Some b -> ParseEnclave b = Some m }.

(** ** socketmain.cc *)

(** *** [AcceptSocket] *)
Inductive SockType := AF_INET | AF_VSOCK | AF_OTHER.
(** [accept4] gives a descriptor or sets [errno]; [recv] of one byte. *)
Inductive AcceptResult := Accepted | AcceptEINTR | AcceptECONNABORTED | AcceptFailed.
Inductive HelloResult := HelloEof | HelloByte (b : Z) | HelloFailed.

(** The loop; [None] is still accepting.  [recv] on the descriptor -1 fails. *)
Fixpoint accept_loop (turns : list (AcceptResult * HelloResult)) : option Error :=
  match turns with
  | [] => None
  | (a, h) :: turns' =>
      match a with
      | AcceptFailed => Some SocketMain_SocketAccept
      | _ =>
          let got := match a with Accepted => h | _ => HelloFailed end in
          match got with
          | HelloEof => accept_loop turns'
          | HelloFailed => Some SocketMain_SocketAccept
          | HelloByte b => if negb (b =? 78) then Some SocketMain_SocketAccept else Some OK
          end
      end
  end.
(** With the results of [socket], [bind], [listen] and the calls of [setsockopt]. *)
Definition AcceptSocket (sock_type : SockType) (created bound listening : bool) (options : list bool)
    (turns : list (AcceptResult * HelloResult)) : option Error :=
  if negb created then Some SocketMain_SocketCreation else
  match sock_type with
  | AF_OTHER => Some SocketMain_UnsupportedSockType
  | _ =>
      if negb bound then Some SocketMain_SocketBind else
      if negb listening then Some SocketMain_SocketListen else
      err ← accept_loop turns;
      if negb (is_ok err) then Some err else
      match sock_type with AF_INET => if forallb id options then Some OK else Some SocketMain_SocketSetOpt | _ => Some OK end
  end.

Section enclave.
Context {C : Type} {SV : Served C}.

(** *** [sender::Send] and [SendMessage] of env/socket/socket.cc: [CHECK]s
    that the message serialises. *)
Definition Send (m : EnclaveMessage) : option OutboundMessage := b ← SerializeEnclave m; Some (OutOut b).

(** *** [InitCore], of the first message: the core and what it sends. *)
Definition InitCore (pb : InboundMessage) : option (option C * list OutboundMessage * Error) :=
  match pb with
  | InInit init =>
      '(core_ptr, err) ← core_Create init;
      if is_ok err then
        c ← core_ptr;
        Some (Some c, [OutInit (core_ID c)], OK)
      else Some (core_ptr, [], err)
  | _ => Some (None, [], SocketMain_InboundNotInit)
  end.

(** *** A turn of [RunServerThread]: on a message that was read, and when the
    core has returned. *)
Definition RunServerThread_read (i : InboundMessage) : (Z * UntrustedMessage) + Error :=
  match i with
  | InMsg id data =>
      match ParseUntrusted data with
      | None => inr SocketMain_InboundMessageParse
      | Some msg => inl (id, msg)
      end
  | _ => inr SocketMain_InboundNotMessage
  end.
Definition RunServerThread_reply (id : Z) (status : Error) : OutboundMessage := OutMsg id status.

(** ** ecalls.cc *)
Inductive GlobalCoreState := UNINITIATED | INITIATING | INITIATED.
#[export] Instance GlobalCoreState_eq_dec : EqDecision GlobalCoreState.
Proof. solve_decision. Defined.
Record Globals := { global_core_state : GlobalCoreState; global_core : option C }.
Definition Globals_init : Globals := {| global_core_state := UNINITIATED; global_core := None |}.

(** [svr2_init], up to the compare-and-exchange and from there, where the
    configuration may not parse and the core may not be made. *)
Definition svr2_init_begin (g : Globals) : Globals * option Error :=
  if bool_decide (global_core_state g = UNINITIATED) then ({| g with global_core_state := INITIATING |}, None)
  else (g, Some Core_ReInit).
Definition svr2_init_end (g : Globals) (config : option InitConfig) : option (Globals * bytes * Error) :=
  match config with
  | None => Some ({| g with global_core_state := UNINITIATED |}, [], Core_ConfigProtobufParse)
  | Some config_pb =>
      '(core, err) ← core_Create config_pb;
      if negb (is_ok err) then Some ({| g with global_core_state := UNINITIATED |}, [], err) else
      core ← core;
      Some ({| global_core_state := INITIATED; global_core := Some core |}, core_ID core, OK)
  end.
(** A null core is dereferenced: [None]. *)
Definition svr2_input_message (g : Globals) (msg : bytes) : option (Globals * list EnclaveMessage * Error) :=
  if negb (bool_decide (global_core_state g = INITIATED)) then Some (g, [], Core_NoInit) else
  match ParseUntrusted msg with
  | None => Some (g, [], Core_ReceiveProtobufParse)
  | Some m =>
      core ← global_core g;
      '(core, out, err) ← core_Receive m core;
      Some ({| g with global_core := Some core |}, out, err)
  end.

(** Calls from several threads: [initiating] counts those between the two
    halves of [svr2_init]. *)
Inductive EcallEvent := EvInitBegin | EvInitEnd (config : option InitConfig) | EvInput (msg : bytes).
Record Ecalls := { globals : Globals; initiating : nat }.
Definition e_step (s : Ecalls) (ev : EcallEvent) : option Ecalls :=
  match ev with
  | EvInitBegin =>
      let '(g, e) := svr2_init_begin (globals s) in
      Some {| globals := g; initiating := match e with None => S (initiating s) | Some _ => initiating s end |}
  | EvInitEnd config =>
      match initiating s with
      | O => Some s
      | S n => '(g, _, _) ← svr2_init_end (globals s) config; Some {| globals := g; initiating := n |}
      end
  | EvInput msg => '(g, _, _) ← svr2_input_message (globals s) msg; Some {| s with globals := g |}
  end.
Fixpoint e_run (s : Ecalls) (evs : list EcallEvent) : option Ecalls :=
  match evs with [] => Some s | ev :: evs' => s' ← e_step s ev; e_run s' evs' end.
End enclave.
Arguments Globals C : clear implicits.
Arguments Ecalls C : clear implicits.

(** ** host/enclave/socket.go *)

(** [calls]: the channel of every call that waits, by its number; channels
    are numbered in the order of the calls of [SendMessage], and [results]
    holds what was sent on them; [c]: messages for the dispatcher. *)
Record Socket := { msgIDGen : Z; calls : gmap Z nat; made : nat; results : gmap nat Error; c_ : list EnclaveMessage; sock_closed : bool; reading : bool }.
Definition NewSocket_state : Socket := {| msgIDGen := 0; calls := ∅; made := 0; results := ∅; c_ := []; sock_closed := false; reading := true |}.

(** The part of [NewSocket] that reads until the enclave says who it is. *)
Fixpoint NewSocket_loop (received : list OutboundMessage) : option (PeerID + unit) :=
  match received with
  | [] => None
  | OutInit peer_id :: _ => Some (match PeerID_Make peer_id with inl pid => inl pid | inr _ => inr tt end)
  | OutLog _ _ :: received' => NewSocket_loop received'
  | _ :: _ => Some (inr tt)
  end.

Definition Close (n : Socket) : Socket := {| n with sock_closed := true |}.

(** [false] is an error. *)
Definition receivedResponse (n : Socket) (id : Z) (status : Error) : Socket * bool :=
  match calls n !! id with
  | None => (n, false)
  | Some ch => ({| n with calls := delete id (calls n); results := <[ch := status]> (results n) |}, true)
  end.
Definition readNextOutput `{Served C} (n : Socket) (out : OutboundMessage) : Socket * bool :=
  match out with
  | OutInit _ => (n, false)
  | OutMsg id status => receivedResponse n id status
  | OutOut b => match ParseEnclave b with None => (n, false) | Some emsg => ({| n with c_ := c_ n ++ [emsg] |}, true) end
  | OutLog _ _ => (n, true)
  | OutNOT_SET => (n, false)
  end.
(** A turn of [readOutputs]. *)
Definition readOutputs_turn `{Served C} (n : Socket) (out : OutboundMessage) : Socket :=
  let '(n, ok) := readNextOutput n out in
  if ok : bool then n else {| n with sock_closed := true; reading := false |}.

(** [SendMessage], up to where it waits for [done]; [sent] is whether the
    write succeeds. *)
Definition SendMessage_begin `{Served C} (n : Socket) (m : UntrustedMessage) (sent : bool) : Socket * option InboundMessage :=
  match SerializeUntrusted m with
  | None => (n, None)
  | Some buf =>
      let id := u64 (msgIDGen n + 1) in
      let n := {| n with msgIDGen := id; calls := <[id := made n]> (calls n); made := S (made n) |} in
      if sent && negb (sock_closed n) then (n, Some (InMsg id buf))
      else ({| n with calls := delete id (calls n); sock_closed := true |}, None)
  end.

(** ** host/enclave/sgx.go

    The lock is not reentrant: [None] is a goroutine that waits for a lock
    that it holds. *)
Inductive SgxError := SgxAlready | SgxMarshal | OpenEnclaveError (code : Z) | ReturnedError (code : Z) | SgxSignal.
Record SGX := { ptr : bool; locked : bool; outputs_open : bool; sgx_pid : PeerID }.
Definition Lock (s : SGX) : option SGX := if locked s then None else Some {| s with locked := true |}.
Definition Unlock (s : SGX) : SGX := {| s with locked := false |}.
Definition SGX_Close (s : SGX) : option SGX :=
  s ← Lock s;
  Some (Unlock {| s with ptr := false; outputs_open := false |}).

(** [Init], with the results of marshalling, of creating the enclave, of
    [svr2_init] (the call's, the returned error and the id) and of resetting
    the signals. *)
Definition SGX_Init (s : SGX) (marshals : bool) (created : Z) (init_call init_ret : Z) (pid : PeerID) (signals : bool) : option (SGX * option SgxError) :=
  s ← Lock s;
  if ptr s then Some (Unlock s, Some SgxAlready) else
  if negb marshals then Some (Unlock s, Some SgxMarshal) else
  let s := {| s with outputs_open := true |} in
  if negb (created =? 0) then Some (Unlock s, Some (OpenEnclaveError created)) else
  let s := {| s with ptr := true |} in
  let fail e := s ← SGX_Close s; Some (Unlock s, Some e) in   (* the deferred functions *)
  if negb (init_call =? 0) then fail (OpenEnclaveError init_call) else
  if negb (init_ret =? 0) then fail (ReturnedError init_ret) else
  let s := {| s with sgx_pid := pid |} in
  if negb signals then (s ← SGX_Close s; Some (Unlock s, Some SgxSignal)) else
  Some (Unlock s, None).

(** ** Host and enclave over the socket

    [sent_msgs]: the messages of the calls of [SendMessage]; [received]: what
    the core was given and returned, in order; [busy]: messages in threads
    before the core took them, [replying]: after; [to_enclave] and [to_host]:
    the two directions of the socket; [outputs]: what the core sent, and
    [dispatched] what the dispatcher took; [died]: a thread's fatal error. *)
Section system.
Context {C : Type} {SV : Served C}.

Record System := {
  host : Socket; core : C; sent_msgs : list UntrustedMessage; received : list (Z * UntrustedMessage * Error);
  to_enclave : list InboundMessage; busy : list (Z * UntrustedMessage); replying : list (Z * Error);
  to_host : list OutboundMessage; outputs : list EnclaveMessage; dispatched : list EnclaveMessage; died : bool }.
Definition System_new (c : C) : System :=
  {| host := NewSocket_state; core := c; sent_msgs := []; received := []; to_enclave := []; busy := []; replying := []; to_host := []; outputs := []; dispatched := []; died := false |}.

(** The enclave has 32 threads, and the host's channel room for 100
    messages. *)
Inductive SysEvent :=
  | EvSendMessage (m : UntrustedMessage)
  | EvThreadRead
  | EvCoreReceive (i : nat)
  | EvThreadReply (i : nat)
  | EvEnclaveLog (level : Z) (log : bytes)
  | EvHostRead
  | EvDispatch.

Definition sys_step (s : System) (ev : SysEvent) : option System :=
  match ev with
  | EvSendMessage m =>
      match SerializeUntrusted m with
      | None => Some s
      | Some _ =>
          let '(h, i) := SendMessage_begin (host s) m true in
          Some {| s with host := h; sent_msgs := sent_msgs s ++ [m]; to_enclave := to_enclave s ++ option_list i |}
      end
  | EvThreadRead =>
      match to_enclave s with
      | i :: rest =>
          if 32 <=? Zlen (busy s) + Zlen (replying s) then Some s else
          match RunServerThread_read i with
          | inl call => Some {| s with to_enclave := rest; busy := busy s ++ [call] |}
          | inr _ => Some {| s with to_enclave := rest; died := true |}
          end
      | [] => Some s
      end
  | EvCoreReceive i =>
      match busy s !! i with
      | Some (id, m) =>
          '(c, out, status) ← core_Receive m (core s);
          msgs ← mapM Send out;
          Some {| s with core := c; busy := list_delete i (busy s); replying := replying s ++ [(id, status)];
                  received := received s ++ [(id, m, status)]; outputs := outputs s ++ out;
                  to_host := to_host s ++ msgs |}
      | None => Some s
      end
  | EvThreadReply i =>
      match replying s !! i with
      | Some (id, status) => Some {| s with replying := list_delete i (replying s); to_host := to_host s ++ [RunServerThread_reply id status] |}
      | None => Some s
      end
  | EvEnclaveLog level log => Some {| s with to_host := to_host s ++ [OutLog level log] |}
  | EvHostRead =>
      match to_host s with
      | out :: rest =>
          if negb (reading (host s)) || (match out with OutOut _ => 100 <=? Zlen (c_ (host s)) | _ => false end) then Some s else
          Some {| s with host := readOutputs_turn (host s) out; to_host := rest |}
      | [] => Some s
      end
  | EvDispatch => let h := host s in Some {| s with host := {| h with c_ := tail (c_ h) |}; dispatched := dispatched s ++ option_list (head (c_ h)) |}
  end.
Fixpoint sys_run (s : System) (evs : list SysEvent) : option System :=
  match evs with [] => Some s | ev :: evs' => s' ← sys_step s ev; sys_run s' evs' end.
End system.
Arguments System C : clear implicits.

(** * Properties of the calls into the enclave

    Every call of [SendMessage] is answered by what the core said to its
    message; the entry points keep the core; two error paths of the start. *)

Section system.
Context {C : Type} {SV : Served C} {SL : ServedLaws C}.
Implicit Types (s : System C) (n : Socket).

Definition in_id (i : InboundMessage) : option Z := match i with InMsg id _ => Some id | _ => None end.
Definition out_id (o : OutboundMessage) : option Z := match o with OutMsg id _ => Some id | _ => None end.
Definition out_msg (o : OutboundMessage) : option EnclaveMessage := match o with OutOut b => ParseEnclave b | _ => None end.

(** The number of a call, with its message. *)
Definition call_of s (id : Z) (m : UntrustedMessage) : Prop := exists k, id = Z.of_nat k + 1 /\ sent_msgs s !! k = Some m.

(** Numbers of calls before and after the core. *)
Definition before s : list Z := omap in_id (to_enclave s) ++ (busy s).*1.
Definition after s : list Z := (replying s).*1 ++ omap out_id (to_host s).

Definition inbound_ok s (i : InboundMessage) : Prop :=
  match i with InMsg id data => exists m, call_of s id m /\ SerializeUntrusted m = Some data | _ => False end.
Definition outbound_ok s (o : OutboundMessage) : Prop :=
  match o with
  | OutMsg id e => exists m, (id, m, e) ∈ received s
  | OutOut b => exists m, SerializeEnclave m = Some b
  | OutLog _ _ => True
  | _ => False
  end.

Record sys_inv s : Prop := {
  si_made : made (host s) = length (sent_msgs s);
  si_gen : msgIDGen (host s) = Z.of_nat (length (sent_msgs s));
  si_alive : died s = false /\ reading (host s) = true /\ sock_closed (host s) = false;
  si_once : NoDup (before s ++ (received s).*1.*1);
  si_flight : NoDup (before s ++ after s);
  si_calls : forall id, id ∈ before s ++ after s <-> is_Some (calls (host s) !! id);
  si_call : forall id k, calls (host s) !! id = Some k -> id = Z.of_nat k + 1 /\ (k < length (sent_msgs s))%nat;
  si_waiting : forall k, (k < length (sent_msgs s))%nat -> results (host s) !! k = None -> is_Some (calls (host s) !! (Z.of_nat k + 1));
  si_in : Forall (inbound_ok s) (to_enclave s);
  si_busy : Forall (fun b => call_of s b.1 b.2) (busy s);
  si_replying : Forall (fun r => exists m, (r.1, m, r.2) ∈ received s) (replying s);
  si_out : Forall (outbound_ok s) (to_host s);
  si_received : Forall (fun r => call_of s r.1.1 r.1.2) (received s);
  si_results : forall k e, results (host s) !! k = Some e -> exists m, (Z.of_nat k + 1, m, e) ∈ received s;
  si_outputs : dispatched s ++ c_ (host s) ++ omap out_msg (to_host s) = outputs s }.

Lemma System_new_inv c : sys_inv (System_new c).
Proof.
  split; cbn; try done; try (intros; lia); try constructor; try done; unfold before, after; cbn.
  - intros H. by apply elem_of_nil in H.
  - intros [? H]. by rewrite lookup_empty in H.
Qed.

Lemma call_of_lt s id m : call_of s id m -> 0 < id <= Z.of_nat (length (sent_msgs s)).
Proof. intros (k & -> & Hk). apply lookup_lt_Some in Hk. lia. Qed.

(** Numbers in use are those of earlier calls. *)
Lemma flight_lt s id : sys_inv s -> id ∈ before s ++ after s -> id <= Z.of_nat (length (sent_msgs s)).
Proof. intros Hi Hin. apply (si_calls s Hi) in Hin as [k Hk]. apply (si_call s Hi) in Hk as [-> ?]. lia. Qed.
Lemma received_lt s id : sys_inv s -> id ∈ (received s).*1.*1 -> id <= Z.of_nat (length (sent_msgs s)).
Proof.
  intros Hi Hin. apply list_elem_of_fmap in Hin as ([id' m] & -> & Hin). apply list_elem_of_fmap in Hin as ([[id'' m'] e] & [= -> ->] & Hin).
  pose proof (si_received s Hi) as Hr. rewrite Forall_forall in Hr. apply Hr, call_of_lt in Hin. cbn in *. lia.
Qed.

Lemma sys_send_inv s m s' : sys_inv s -> Z.of_nat (length (sent_msgs s)) + 1 < 2 ^ 64 -> sys_step s (EvSendMessage m) = Some s' -> sys_inv s'.
Proof.
  intros Hi Hlt Hs. cbn in Hs. destruct (SerializeUntrusted m) as [buf|] eqn:Em; [|by simplify_eq].
  unfold SendMessage_begin in Hs. rewrite Em in Hs. destruct (si_alive s Hi) as (Hd & Hr & Hcl). cbn [sock_closed] in Hs. rewrite Hcl in Hs. cbn in Hs.
  injection Hs as <-. rewrite (si_gen s Hi), (si_made s Hi), u64_small by ulia. set (id := Z.of_nat (length (sent_msgs s)) + 1).
  assert (id ∉ before s ++ after s) as Hf by (intros H%(flight_lt s _ Hi); unfold id in H; lia).
  assert (id ∉ (received s).*1.*1) as Hf' by (intros H%(received_lt s _ Hi); unfold id in H; lia).
  assert (forall id' m', call_of s id' m' -> forall s', sent_msgs s' = sent_msgs s ++ [m] -> call_of s' id' m') as Hmono.
  { intros id' m' (k & -> & Hk) s' E. exists k. split; [done|]. rewrite E. by apply lookup_app_l_Some. }
  set (s1 := {| s with host := _; sent_msgs := _; to_enclave := _ |}).
  assert (sent_msgs s1 = sent_msgs s ++ [m]) as Hsm by done.
  assert (before s1 ≡ₚ id :: before s) as Hb.
  { unfold before, s1. cbn [to_enclave busy]. rewrite omap_app. cbn. rewrite <-(assoc_L (++)). cbn. by rewrite Permutation_middle. }
  assert (after s1 = after s) as Ha by done. assert (received s1 = received s) as Hrc by done.
  split; rewrite ?Hb, ?Ha, ?Hrc, ?Hsm, ?length_app; cbn [length].
  - cbn. lia.
  - unfold id. cbn. lia.
  - done.
  - cbn. constructor; [|apply (si_once s Hi)]. rewrite elem_of_app. intros [H|H]; [|done]. apply Hf, elem_of_app. by left.
  - cbn. constructor; [done|apply (si_flight s Hi)].
  - intros id'. rewrite Hb. cbn -[id]. rewrite elem_of_cons, (si_calls s Hi). split.
    + intros [->|Hc]; [by rewrite lookup_insert_eq; eauto|]. destruct (decide (id = id')) as [<-|]; [rewrite lookup_insert_eq; eauto|by rewrite lookup_insert_ne].
    + destruct (decide (id = id')) as [<-|]; [by left|]. rewrite lookup_insert_ne by done. by right.
  - intros id' k. cbn -[id]. destruct (decide (id = id')) as [<-|].
    + rewrite lookup_insert_eq. intros [= <-]. unfold id. split; lia.
    + rewrite lookup_insert_ne by done. intros [-> ?]%(si_call s Hi). split; lia.
  - intros k Hk Hn. cbn -[id] in *. destruct (decide (id = Z.of_nat k + 1)) as [<-|Hne]; [rewrite lookup_insert_eq; eauto|].
    rewrite lookup_insert_ne by done. apply (si_waiting s Hi); [unfold id in Hne; lia|done].
  - cbn. apply Forall_app. split; [|constructor; [|done]].
    + eapply Forall_impl; [apply (si_in s Hi)|]. intros [] Hx; cbn in *; try done. destruct Hx as (m' & ? & ?). eauto.
    + exists m. split; [|done]. exists (length (sent_msgs s)). split; [done|]. rewrite Hsm. by rewrite lookup_app_r, Nat.sub_diag.
  - eapply Forall_impl; [apply (si_busy s Hi)|]. intros [? ?] Hx. by eapply Hmono.
  - apply (si_replying s Hi).
  - eapply Forall_impl; [apply (si_out s Hi)|]. by intros [].
  - eapply Forall_impl; [apply (si_received s Hi)|]. intros [[? ?] ?] Hx. by eapply Hmono.
  - apply (si_results s Hi).
  - apply (si_outputs s Hi).
Qed.

Lemma read_inv s s' : sys_inv s -> sys_step s EvThreadRead = Some s' -> sys_inv s'.
Proof.
  intros Hi Hs. pose proof Hi as [H1 H2 H3 H4 H5 H6 H7 H8 H9 H10 H11 H12 H13 H14 H15]. cbn in Hs.
  destruct (to_enclave s) as [|i rest] eqn:Et; [by simplify_eq|]. destruct (32 <=? _); [by simplify_eq|].
  apply Forall_cons in H9 as [Hin Hrest]. destruct i as [|id data|]; try done. destruct Hin as (m & Hc & Hm).
  unfold RunServerThread_read in Hs. rewrite (parse_untrusted m data Hm) in Hs. injection Hs as <-.
  set (s1 := {| s with to_enclave := rest; busy := busy s ++ [(id, m)] |}).
  assert (before s1 ≡ₚ before s) as Hb.
  { unfold before, s1. cbn [to_enclave busy]. rewrite Et. cbn. rewrite fmap_app. cbn. rewrite (assoc_L (++)). by rewrite <-Permutation_cons_append. }
  split; try done; rewrite ?Hb; try done.
  - intros id'. change (calls (host s1)) with (calls (host s)). rewrite <-H6. change (after s1) with (after s). by rewrite Hb.
  - cbn. apply Forall_app. split; [done|]. constructor; [done|constructor].
Qed.

(** What the core sent, as messages to the host. *)
Lemma sent_msgs_ok (out : list EnclaveMessage) msgs : mapM Send out = Some msgs ->
  omap out_id msgs = [] /\ omap out_msg msgs = out /\ Forall (fun o => exists b m, o = OutOut b /\ SerializeEnclave m = Some b) msgs.
Proof.
  revert msgs. induction out as [|o out IH]; intros msgs Hm; [injection Hm as <-; split; [done|]; split; [done|constructor]|].
  change (mapM Send (o :: out)) with (x ← Send o; k ← mapM Send out; Some (x :: k)) in Hm.
  apply bind_Some in Hm as (x & Hx & (rest & Hrest & [= <-])%bind_Some). apply bind_Some in Hx as (b & Eb & [= <-]).
  destruct (IH rest Hrest) as (H1 & H2 & H3). cbn. rewrite (parse_enclave o b Eb). split; [done|]. split; [by f_equal|].
  constructor; [eauto|done].
Qed.

Lemma receive_inv s i s' : sys_inv s -> sys_step s (EvCoreReceive i) = Some s' -> sys_inv s'.
Proof.
  intros Hi Hs. pose proof Hi as [H1 H2 H3 H4 H5 H6 H7 H8 H9 H10 H11 H12 H13 H14 H15]. cbn in Hs.
  destruct (busy s !! i) as [[id m]|] eqn:Eb; [|by simplify_eq]. destruct (core_Receive m (core s)) as [[[c out] status]|]; cbn in Hs; [|done].
  destruct (mapM Send out) as [msgs|] eqn:Emsgs; cbn in Hs; [|done]. destruct (sent_msgs_ok out msgs Emsgs) as (Ho1 & Ho2 & Ho3).
  injection Hs as <-. pose proof (delete_Permutation _ _ _ Eb) as Hp. pose proof (fmap_Permutation fst _ _ Hp) as Hpf. cbn in Hpf.
  set (s1 := {| s with core := c; busy := _; replying := _; received := _; outputs := _; to_host := _ |}).
  assert (before s ≡ₚ id :: before s1) as Hb.
  { unfold before, s1. cbn [to_enclave busy]. rewrite Hpf. by rewrite Permutation_middle. }
  assert (after s1 ≡ₚ id :: after s) as Ha.
  { unfold after, s1. cbn [replying to_host]. rewrite fmap_app, omap_app, Ho1, app_nil_r. cbn. rewrite <-(assoc_L (++)). cbn. by rewrite Permutation_middle. }
  assert (before s ++ after s ≡ₚ before s1 ++ after s1) as Hall by (rewrite Hb, Ha; cbn; by rewrite Permutation_middle).
  assert (forall r, r ∈ received s -> r ∈ received s1) as Hmono by (intros r Hr; apply elem_of_app; by left).
  rewrite Forall_forall in H10. pose proof (H10 _ (list_elem_of_lookup_2 _ _ _ Eb)) as Hc. cbn in Hc.
  split; try done.
  - cbn [received s1]. rewrite !fmap_app. cbn. rewrite Hb in H4. cbn in H4. rewrite (assoc_L (++)), <-Permutation_cons_append. done.
  - by rewrite <-Hall.
  - intros id'. change (calls (host s1)) with (calls (host s)). rewrite <-H6. by rewrite Hall.
  - apply Forall_forall. intros b Hin. apply H10. rewrite Hp. by right.
  - cbn. apply Forall_app. split.
    + eapply Forall_impl; [exact H11|]. intros r [m' Hm']. exists m'. by apply Hmono.
    + constructor; [|constructor]. exists m. cbn. apply elem_of_app. right. by apply list_elem_of_singleton.
  - cbn. apply Forall_app. split.
    + eapply Forall_impl; [exact H12|]. intros [] Hx; try done. destruct Hx as [m' Hm']. exists m'. by apply Hmono.
    + eapply Forall_impl; [exact Ho3|]. intros o (b & m' & -> & Hb'). cbn. eauto.
  - cbn. apply Forall_app. split; [done|]. by constructor.
  - intros k e He. destruct (H14 k e He) as [m' Hm']. exists m'. by apply Hmono.
  - cbn. rewrite omap_app, Ho2, !(assoc_L (++)), <-(assoc_L (++) (dispatched s)). by rewrite H15.
Qed.

Lemma reply_inv s i s' : sys_inv s -> sys_step s (EvThreadReply i) = Some s' -> sys_inv s'.
Proof.
  intros Hi Hs. pose proof Hi as [H1 H2 H3 H4 H5 H6 H7 H8 H9 H10 H11 H12 H13 H14 H15]. cbn in Hs.
  destruct (replying s !! i) as [[id status]|] eqn:Eb; [|by simplify_eq]. injection Hs as <-. pose proof (delete_Permutation _ _ _ Eb) as Hp. pose proof (fmap_Permutation fst _ _ Hp) as Hpf. cbn in Hpf.
  set (s1 := {| s with replying := _; to_host := _ |}).
  assert (after s1 ≡ₚ after s) as Ha.
  { unfold after, s1. cbn [replying to_host]. rewrite omap_app, Hpf. cbn. by rewrite (assoc_L (++)), <-Permutation_cons_append. }
  rewrite Forall_forall in H11. pose proof (H11 _ (list_elem_of_lookup_2 _ _ _ Eb)) as Hc. cbn in Hc.
  split; try done; change (before s1) with (before s); try (by rewrite Ha).
  - intros id'. change (calls (host s1)) with (calls (host s)). rewrite <-H6. by rewrite Ha.
  - apply Forall_forall. intros b Hin. apply H11. rewrite Hp. by right.
  - cbn. apply Forall_app. split; [done|]. by constructor.
  - cbn. rewrite omap_app. cbn. by rewrite app_nil_r.
Qed.

Lemma host_read_inv s s' : sys_inv s -> sys_step s EvHostRead = Some s' -> sys_inv s'.
Proof.
  intros Hi Hs. pose proof Hi as [H1 H2 H3 H4 H5 H6 H7 H8 H9 H10 H11 H12 H13 H14 H15]. cbn in Hs.
  destruct (to_host s) as [|o rest] eqn:Et; [by simplify_eq|]. destruct H3 as (Hd & Hr & Hcl). rewrite Hr in Hs. cbn [negb orb] in Hs.
  destruct (match o with OutOut _ => _ | _ => _ end); [by simplify_eq|]. injection Hs as <-. apply Forall_cons in H12 as [Ho Hrest].
  unfold readOutputs_turn, readNextOutput. destruct o as [|id e|b|level log|]; try done.
  - (* the answer to a call *)
    destruct Ho as [m Hm].
    assert (id ∈ after s) as Hin by (unfold after; rewrite Et; cbn; apply elem_of_app; right; by left).
    destruct (proj1 (H6 id)) as [k Hk]; [apply elem_of_app; by right|]. unfold receivedResponse. rewrite Hk.
    destruct (H7 id k Hk) as [-> Hlt]. set (s1 := {| s with host := _; to_host := _ |}).
    assert (after s ≡ₚ (Z.of_nat k + 1) :: after s1) as Ha by (unfold after, s1; cbn [replying to_host]; rewrite Et; cbn; by rewrite Permutation_middle).
    assert (before s ++ after s ≡ₚ (Z.of_nat k + 1) :: before s1 ++ after s1) as Hall by (rewrite Ha; change (before s1) with (before s); by rewrite Permutation_middle).
    rewrite Hall in H5. apply NoDup_cons in H5 as [Hn H5].
    split; try done; cbn.
    + intros id'. change (id' ∈ before s1 ++ after s1 <-> is_Some (delete (Z.of_nat k + 1) (calls (host s)) !! id')).
      destruct (decide (id' = Z.of_nat k + 1)) as [->|Hne].
      { rewrite lookup_delete_eq. split; [done|by intros []]. }
      rewrite lookup_delete_ne by done. rewrite <-H6, Hall, elem_of_cons. naive_solver.
    + intros id' k' [_ Hk']%lookup_delete_Some. by apply H7.
    + intros k' Hk' Hn'. destruct (decide (k' = k)) as [->|Hne]; [by rewrite lookup_insert_eq in Hn'|].
      rewrite lookup_insert_ne in Hn' by done. rewrite lookup_delete_ne by lia. by apply H8.
    + intros k' e'. destruct (decide (k' = k)) as [->|Hne]; [rewrite lookup_insert_eq; intros [= <-]; eauto|].
      rewrite lookup_insert_ne by done. apply H14.
  - (* a message for the dispatcher *)
    destruct Ho as [m Hm]. rewrite (parse_enclave m b Hm).
    set (s1 := {| s with host := _; to_host := _ |}). assert (after s1 = after s) as Ha by (unfold after; rewrite Et; done).
    split; try done; rewrite ?Ha; try done. cbn. rewrite <-H15, <-(assoc_L (++) (c_ (host s))). cbn. by rewrite (parse_enclave m b Hm).
  - set (s1 := {| s with host := _; to_host := _ |}). assert (after s1 = after s) as Ha by (unfold after; rewrite Et; done).
    split; try done; rewrite ?Ha; done.
Qed.

Lemma sys_step_inv s ev s' : sys_inv s -> Z.of_nat (length (sent_msgs s)) + 1 < 2 ^ 64 -> sys_step s ev = Some s' ->
  sys_inv s' /\ (length (sent_msgs s') <= length (sent_msgs s) + 1)%nat.
Proof.
  intros Hi Hlt Hs. split.
  - destruct ev; eauto using sys_send_inv, read_inv, receive_inv, reply_inv, host_read_inv.
    + cbn in Hs. injection Hs as <-. destruct Hi as [H1 H2 H3 H4 H5 H6 H7 H8 H9 H10 H11 H12 H13 H14 H15].
      set (s1 := {| s with to_host := _ |}).
      assert (after s1 = after s) as Ha by (unfold after, s1; cbn; by rewrite omap_app, app_nil_r).
      split; try done; rewrite ?Ha; try done; cbn; [apply Forall_app; split; [done|by constructor]|by rewrite omap_app, app_nil_r].
    + cbn in Hs. injection Hs as <-. destruct Hi as [H1 H2 H3 H4 H5 H6 H7 H8 H9 H10 H11 H12 H13 H14 H15]. split; try done.
      cbn. rewrite <-H15. destruct (c_ (host s)) as [|x l]; cbn; by rewrite ?app_nil_r, <-?(assoc_L (++)).
  - destruct ev; cbn in Hs; repeat case_match; simplify_eq/=; try lia; rewrite ?length_app; cbn; try lia.
    all: match goal with H : _ ≫= _ = Some _ |- _ => destruct (core_Receive _ _) as [[[]]|]; cbn in H; [|done]; destruct (mapM _ _); cbn in H; simplify_eq/=; lia end.
Qed.

Lemma sys_run_inv evs : forall s s', sys_inv s -> Z.of_nat (length (sent_msgs s)) + Z.of_nat (length evs) < 2 ^ 64 -> sys_run s evs = Some s' -> sys_inv s'.
Proof.
  induction evs as [|ev evs IH]; intros s s' Hi Hlt Hr; cbn in Hr; [by simplify_eq|].
  destruct (sys_step s ev) as [s1|] eqn:E; cbn in Hr; [|done]. cbn [length] in Hlt.
  destruct (sys_step_inv s ev s1 Hi) as [H1 Hl]; [lia|done|]. eapply (IH s1); [done| |done]. lia.
Qed.

(** Nothing but the core makes a step fail: if the core returns and what it
    sends can be serialised, every sequence of events runs. *)
Lemma sys_run_returns (core_returns : forall m c, exists c' out e, core_Receive m c = Some (c', out, e) /\ Forall (fun x => is_Some (SerializeEnclave x)) out)
  evs : forall s, is_Some (sys_run s evs).
Proof.
  induction evs as [|ev evs IH]; intros s; cbn; [eauto|].
  enough (exists s', sys_step s ev = Some s') as [s' ->] by apply IH.
  destruct ev; cbn; repeat (case_match; cbn); try by eexists.
  match goal with |- context [core_Receive ?m ?c] => destruct (core_returns m c) as (c' & out & e & -> & Hout) end.
  cbn. enough (is_Some (mapM Send out)) as [msgs ->] by (cbn; eauto).
  apply mapM_is_Some. eapply Forall_impl; [exact Hout|]. intros x [b Hb].
  exists (OutOut b). apply bind_Some. eauto.
Qed.
End system.

(** C20: Calls over the socket are answered by the core: however callers, the
    threads of the enclave and the reader of its outputs interleave, a call of
    [SendMessage] returns the status with which [Core::Receive] answered its
    own message, which the core got once; no thread and no reader stops with
    an error; what the core sends reaches the dispatcher in order and
    completely; and when nothing is under way every call has returned (for
    fewer than 2^64 calls; [sys_run] fails only if the core aborts, see
    [sys_run_returns]). *)
Theorem socket_calls_answered {C} {SV : Served C} {SL : ServedLaws C} (c : C) evs s :
  sys_run (System_new c) evs = Some s -> Z.of_nat (length evs) < 2 ^ 64 ->
  died s = false /\ reading (host s) = true /\ NoDup (received s).*1.*1 /\
  (forall k e, results (host s) !! k = Some e -> exists m, sent_msgs s !! k = Some m /\ (Z.of_nat k + 1, m, e) ∈ received s) /\
  dispatched s ++ c_ (host s) `prefix_of` outputs s /\
  (to_enclave s = [] -> busy s = [] -> replying s = [] -> to_host s = [] ->
   dispatched s ++ c_ (host s) = outputs s /\ forall k, (k < length (sent_msgs s))%nat -> is_Some (results (host s) !! k)).
Proof.
  intros Hr Hlt. pose proof (sys_run_inv evs _ _ (System_new_inv c) Hlt Hr) as Hi. destruct (si_alive s Hi) as (Hd & Hre & _).
  split; [done|]. split; [done|]. split; [by pose proof (si_once s Hi) as (_ & _ & ?)%NoDup_app|]. split.
  - intros k e He. destruct (si_results s Hi k e He) as [m Hm]. exists m. split; [|done].
    pose proof (si_received s Hi) as Hrc. rewrite Forall_forall in Hrc. destruct (Hrc _ Hm) as (k' & Hk & Hs). cbn in *. by replace k with k' by lia.
  - split; [eexists; by rewrite <-(si_outputs s Hi), (assoc_L (++))|].
    intros E1 E2 E3 E4. split; [by rewrite <-(si_outputs s Hi), E4, app_nil_r|]. intros k Hk.
    destruct (results (host s) !! k) as [e|] eqn:Ek; [eauto|]. exfalso. pose proof (si_waiting s Hi k Hk Ek) as Hw.
    apply (si_calls s Hi) in Hw. unfold before, after in Hw. rewrite E1, E2, E3, E4 in Hw. by apply elem_of_nil in Hw.
Qed.

(** ** The model of the core behind the socket *)
Section core_served.
Context {T L D : Type} {MO : MerkleOps T L} {RP : RaftPlatform} {DB : Database T D} {NP : NoisePlatform} {MP : MsgPlatform} {EV : Env}.
Context (tree : T) (ser_u : UntrustedMessage -> option bytes) (parse_u : bytes -> option UntrustedMessage)
  (ser_e : EnclaveMessage -> option bytes) (parse_e : bytes -> option EnclaveMessage).

Definition Core_Served : Served (Core T L D) := {|
  core_Create := Core_Create tree;
  core_Receive := fun m c => '(c', e) ← Core_Receive m c; Some (c', drop (List.length (CoreState.sent c)) (CoreState.sent c'), e);
  core_ID := fun c => ID (peer_manager_ c);
  SerializeUntrusted := ser_u; ParseUntrusted := parse_u; SerializeEnclave := ser_e; ParseEnclave := parse_e |}.
End core_served.

Module EnclaveCallsExample.
Definition ser_u (m : UntrustedMessage) : option bytes :=
  match m with
  | uTimerTick secs => Some [0; secs]
  | uH2ERequest {| h2e_request_id := id; h2e_inner := hCreateNewRaftGroup true |} => Some [1; id]
  | _ => None
  end.
Definition parse_u (b : bytes) : option UntrustedMessage :=
  match b with
  | [0; secs] => Some (uTimerTick secs)
  | [1; id] => Some (uH2ERequest {| h2e_request_id := id; h2e_inner := hCreateNewRaftGroup true |})
  | _ => None
  end.
Definition ser_e (m : EnclaveMessage) : option bytes := match m with mH2EResponse id (oStatus e) => Some [id; error_code e] | _ => None end.
Definition parse_e (b : bytes) : option EnclaveMessage :=
  match b with [id; e] => option_map (fun e => mH2EResponse id (oStatus e)) (error_of_code e) | _ => None end.

#[export] Instance served : Served (Core Tree nat (list (BackupID * Row nat))) := Core_Served Tree_new ser_u parse_u ser_e parse_e.
#[export] Instance served_laws : ServedLaws (Core Tree nat (list (BackupID * Row nat))).
Proof.
  split.
  - intros m b. destruct m as [|secs| |[id inner]|]; cbn; try done; [by intros [= <-]|]. destruct inner; cbn; try done. case_match; [|done]. by intros [= <-].
  - intros m b. destruct m as [|id inner]; cbn; [done|]. destruct inner; cbn; try done. intros [= <-]. cbn. by rewrite error_of_code_code.
Defined.

(** Two calls; the answer to the second comes first. *)
Definition events : list SysEvent :=
  [EvSendMessage (uH2ERequest {| h2e_request_id := 5; h2e_inner := hCreateNewRaftGroup true |}); EvSendMessage (uTimerTick 1001);
   EvThreadRead; EvThreadRead; EvCoreReceive 0; EvCoreReceive 0; EvThreadReply 1; EvHostRead; EvHostRead; EvThreadReply 0; EvHostRead; EvDispatch].
Definition answers (o : option (System (Core Tree nat (list (BackupID * Row nat))))) : option (option Error * option Error * list EnclaveMessage) :=
  option_map (fun s => (results (host s) !! 0%nat, results (host s) !! 1%nat, dispatched s)) o.
End EnclaveCallsExample.
Import EnclaveCallsExample.

Lemma socket_calls_answered_witness :
  exists c s, ex_new = Some c /\ sys_run (System_new c) events = Some s /\
    (results (host s) !! 0%nat, results (host s) !! 1%nat, dispatched s) = (Some OK, Some OK, [mH2EResponse 5 (oStatus OK)]) /\
    dispatched s ++ c_ (host s) = outputs s.
Proof.
  destruct (present ex_new) as [c E]; [vm_compute; reflexivity|].
  destruct (present (c ← ex_new; sys_run (System_new c) events)) as [s Es]; [vm_compute; reflexivity|].
  assert ((results (host s) !! 0%nat, results (host s) !! 1%nat, dispatched s) = (Some OK, Some OK, [mH2EResponse 5 (oStatus OK)])) as Ha
    by (ex_eval).
  assert ((to_enclave s, busy s, replying s, to_host s) = ([], [], [], [])) as Hq by (ex_eval). injection Hq as E1 E2 E3 E4.
  exists c, s. split; [exact E|]. rewrite E in Es. cbn [mbind option_bind] in Es. split; [exact Es|]. split; [exact Ha|].
  destruct (socket_calls_answered c events s Es) as (_ & _ & _ & _ & _ & Hend); [vm_compute; reflexivity|].
  exact (proj1 (Hend E1 E2 E3 E4)).
Defined.

(** ** ecalls.cc *)
Section ecalls.
Context {C : Type} {SV : Served C}.

(** There is a core when calls are let in, and one call at most makes it. *)
Definition ecalls_inv (s : Ecalls C) : Prop :=
  (global_core_state (globals s) = INITIATED -> is_Some (global_core (globals s))) /\
  (initiating s = if bool_decide (global_core_state (globals s) = INITIATING) then 1%nat else 0%nat).

Lemma e_step_inv s ev s' : ecalls_inv s -> e_step s ev = Some s' ->
  ecalls_inv s' /\ (global_core_state (globals s) = INITIATED -> global_core_state (globals s') = INITIATED).
Proof.
  intros [Hc Hn] Hs. destruct s as [[st gc] n]. unfold ecalls_inv. cbn in *. destruct ev as [|config|msg]; cbn in Hs.
  - unfold svr2_init_begin in Hs. destruct st; cbn in *; injection Hs as <-; cbn; subst n; split_and!; auto; done.
  - destruct n as [|n]; [injection Hs as <-; cbn; done|]. case_bool_decide as E; [|done]. cbn in E. injection Hn as ->. subst st.
    unfold svr2_init_end in Hs. destruct config as [config|]; cbn in Hs; [|by injection Hs as <-].
    destruct (core_Create config) as [[[c|] err]|]; cbn in Hs; try done; destruct (is_ok err); cbn in Hs; try done; injection Hs as <-; cbn; split_and!; eauto; done.
  - unfold svr2_input_message in Hs. cbn in Hs. case_bool_decide as E; cbn in Hs; [|injection Hs as <-; cbn; done].
    destruct (ParseUntrusted msg) as [m|]; cbn in Hs; [|by injection Hs as <-]. destruct gc as [c|]; cbn in Hs; [|done].
    destruct (core_Receive m c) as [[[c' out] err]|]; cbn in Hs; [|done]. injection Hs as <-. cbn. split_and!; eauto.
Qed.

(** A core that is there stays; a message reaches a core that is there. *)
Lemma ecalls_keep_core evs : forall s s', ecalls_inv s -> e_run s evs = Some s' ->
  ecalls_inv s' /\ (global_core_state (globals s) = INITIATED -> global_core_state (globals s') = INITIATED).
Proof.
  induction evs as [|ev evs IH]; intros s s' Hi Hr; cbn in Hr; [by simplify_eq|].
  destruct (e_step s ev) as [s1|] eqn:E; cbn in Hr; [|done]. destruct (e_step_inv s ev s1 Hi E) as [H1 Hk].
  destruct (IH s1 s' H1 Hr). auto.
Qed.
End ecalls.

(** ** Starting *)

(** An interrupted [accept4] ends [AcceptSocket], which means to go on. *)
Lemma accept_interrupted a h turns : a = AcceptEINTR \/ a = AcceptECONNABORTED -> accept_loop ((a, h) :: turns) = Some SocketMain_SocketAccept.
Proof. by intros [-> | ->]. Qed.

(** When [svr2_init] fails, [Init] waits for its own lock. *)
Lemma sgx_init_error_blocks s created init_call init_ret pid signals :
  ptr s = false -> created = 0 -> init_call <> 0 \/ init_ret <> 0 \/ signals = false ->
  SGX_Init s true created init_call init_ret pid signals = None.
Proof.
  intros Hp -> Hf. unfold SGX_Init, Lock. destruct (locked s) eqn:El; [done|]. cbn [mbind option_bind ptr]. rewrite Hp. cbn.
  destruct (init_call =? 0) eqn:E1; cbn; [|done]. destruct (init_ret =? 0) eqn:E2; cbn; [|done]. zbool.
  destruct Hf as [?|[?| ->]]; done.
Qed.
