(* ===== verification/Environments.v ===== *)
(** * The platforms of the enclave (enclave/env)

    What an enclave asks of its platform: evidence for its data, whether to
    accept the evidence of another enclave, and random bytes.  Nitro
    (nsm/nsm.cc), Azure and Google Cloud with SEV-SNP (azuresnp/azuresnp.cc,
    gcpsnp/gcpsnp.cc with host/cmd/svr3gcp/main.go) and SGX (sgx/sgx.cc with
    attestation/oe/attestation.cc); simulated enclaves and those of tests.
    Hardware, TPM tools and Open Enclave are parameters. *)
From Stdlib Require Import Strings.String.
From stdpp Require Import prelude gmap.
From S2P Require Import Prelude Errors Containers Util Base64 RaftTypes PeerId Minimums GroupClock Msgs Attest Sev Tpm2 Tpm2Snp Nitro.

(** [starts_with]. *)
Definition has_prefix (s prefix : bytes) : bool := bool_decide (take (List.length prefix) s = prefix).

(** protobuf of attestation.proto, tpm2snp.proto, enclaveconfig.proto and
    minimums.proto. *)
Class AttestPlatform := {
  SerializeData : AttestationData -> option bytes;
  ParseData : bytes -> option AttestationData;
  SerializeEvidence : ASNPEvidence -> option bytes;
  ParseEvidence : bytes -> option ASNPEvidence;
  SerializeEndorsements : ASNPEndorsements -> option bytes;
  ParseEndorsements : bytes -> option ASNPEndorsements;
  SerializeGroupConfig : option RaftGroupConfig -> option bytes;
  SerializeLimits : Minimums.MinimumLimits -> option bytes }.
Class AttestPlatformLaws `{AttestPlatform} := {
  parse_data : forall d b, SerializeData d = Some b -> ParseData b = Some d;
  parse_evidence : forall d b, SerializeEvidence d = Some b -> ParseEvidence b = Some d;
  parse_endorsements : forall d b, SerializeEndorsements d = Some b -> ParseEndorsements b = Some d }.

(** ** socket/socket.cc *)
Section simulated.
Context {AP : AttestPlatform}.

Definition SIMULATED_REPORT_PREFIX : bytes := str "SEV_SIMULATED_REPORT:".

(** [SerializeAsString] is empty when it fails. *)
Definition SimulatedEvidence (data : AttestationData) : Attestation * Error :=
  ({| evidence := SIMULATED_REPORT_PREFIX ++ default [] (SerializeData data); endorsements := [] |}, OK).
Definition SimulatedAttest (now : UnixSecs) (a : Attestation) : AttestationData * Error :=
  if negb (has_prefix (evidence a) SIMULATED_REPORT_PREFIX) then (AttestationData_default, Env_AttestationFailure) else
  match ParseData (drop (List.length SIMULATED_REPORT_PREFIX) (evidence a)) with
  | None => (AttestationData_default, Env_AttestationFailure)
  | Some out => (out, OK)
  end.
End simulated.

(** [RandomBytes] with [getrandom], which gives some bytes or fails, and with
    [rdrand], which gives 64 bits or fails; [None] asks for more. *)
Fixpoint getrandom_loop (rs : list (option bytes)) (size : nat) : option (bytes * Error) :=
  match size with
  | O => Some ([], OK)
  | S _ =>
      match rs with
      | [] => None
      | None :: _ => Some ([], Env_RandomBytes)
      | Some got :: rs' =>
          '(rest, e) ← getrandom_loop rs' (size - List.length (take size got));
          Some (take size got ++ rest, e)
      end
  end.
Fixpoint rdrand_loop (rs : list (option Z)) (size : nat) : option (bytes * Error) :=
  match size with
  | O => Some ([], OK)
  | S _ =>
      match rs with
      | [] => None
      | None :: _ => Some ([], Env_RandomBytes)
      | Some r :: rs' =>
          '(rest, e) ← rdrand_loop rs' (size - 8);
          Some (take size (BigEndian64Bytes r) ++ rest, e)
      end
  end.

(** ** nsm/nsm.cc *)

(** [RandomBytes] when simulated: the buffer, which every [getrandom] fills
    from its start, and the [size_t]s [size] and [got], where a failure is
    the greatest value. *)
Fixpoint nsm_simulated_random (rs : list (option bytes)) (buf : bytes) (size : Z) : option (bytes * Error) :=
  if size =? 0 then Some (buf, OK) else
  match rs with
  | [] => None
  | r :: rs' =>
      let got := match r with None => MAX64 | Some b => Zlen b end in
      let buf := match r with None => buf | Some b => b ++ drop (List.length b) buf end in
      if got <=? 0 then Some (buf, Env_RandomBytes) else nsm_simulated_random rs' buf (size ⊖ got)
  end.
(** Otherwise [nsm_get_random] gives up to [size] bytes. *)
Definition nsm_random (rs : list (option bytes)) (size : nat) : option (bytes * Error) := getrandom_loop rs size.

Section nsm.
Context {AP : AttestPlatform} {CB : Cbor} {CR : Crypto}.
(** [nsm_get_attestation_doc]. *)
Context (nsm_doc : bytes -> option bytes).

Definition nsm_Evidence (simulated : bool) (data : AttestationData) : Attestation * Error :=
  if simulated then SimulatedEvidence data else
  let out := {| evidence := replicate (Z.to_nat 102400) 0; endorsements := [] |} in
  match SerializeData data with
  | None => (out, Env_SerializeCustomClaims)
  | Some data_serialized =>
      match nsm_doc data_serialized with
      | None => (out, Env_AttestationFailure)
      | Some doc => ({| evidence := doc; endorsements := [] |}, OK)
      end
  end.
Definition nsm_Attest (roots : list X509) (simulated : bool) (pcrs : gmap Z bytes) (now : UnixSecs) (a : Attestation) : option (AttestationData * Error) :=
  if simulated then Some (SimulatedAttest now a) else Nsm_Attest roots ParseData pcrs now (evidence a).

(** [Init]: the PCRs of a document of our own, or an abort. *)
Definition nsm_Init (simulated : bool) : option (gmap Z bytes) :=
  if simulated then Some ∅ else
  let '(att, err) := nsm_Evidence simulated {| att_public_key := replicate 32 0; att_group_config := None; att_minimum_limits := []; att_minimum_values := [] |} in
  CHECK (is_ok err)
    match CoseSign1_ParseFromBytes (evidence att) with
    | inr _ => None
    | inl cose =>
        match AttestationDoc_ParseFromBytes (payload cose) with
        | Some (inl doc) => Some (doc_pcrs doc)
        | _ => None
        end
    end.
End nsm.

(** ** SEV-SNP *)

(** [MergeFrom]: a field that is not empty is taken over. *)
Definition merge_bytes (a b : bytes) : bytes := match b with [] => a | _ => b end.
Definition Evidence_MergeFrom (a b : ASNPEvidence) : ASNPEvidence := {|
  attestation_data := merge_bytes (attestation_data a) (attestation_data b); pcrs := merge_bytes (pcrs a) (pcrs b);
  msg := merge_bytes (msg a) (msg b); sig := merge_bytes (sig a) (sig b); snp_report := merge_bytes (snp_report a) (snp_report b);
  runtime_data := merge_bytes (runtime_data a) (runtime_data b); akcert_der := merge_bytes (akcert_der a) (akcert_der b) |}.
Definition ASNPEvidence_default : ASNPEvidence :=
  {| attestation_data := []; pcrs := []; msg := []; sig := []; snp_report := []; runtime_data := []; akcert_der := [] |}.
Definition ASNPEndorsements_default : ASNPEndorsements := {| intermediate_der := []; asnp_vcek_der := []; asnp_ask_der := [] |}.

(** The state after [Init]. *)
Record SnpEnvironment := { snp_simulated : bool; base_evidence_ : ASNPEvidence; base_endorsements_ : ASNPEndorsements; local_pcrs_ : PCRs }.

Section snp.
Context {AP : AttestPlatform} {CR : Crypto} {SL : SevLayout} {JP : JsonPlatform}.
Context (sev_roots : list X509).

(** The attestation data are parsed, and the evidence verified. *)
Definition snp_Attest (roots_of_trust : list X509) (env : SnpEnvironment) (now : UnixSecs) (a : Attestation) : option (AttestationData * Error) :=
  if snp_simulated env then Some (SimulatedAttest now a) else
  let out := AttestationData_default in
  match ParseEvidence (evidence a) with
  | None => Some (out, Env_ParseEvidence)
  | Some ev =>
      match ParseEndorsements (endorsements a) with
      | None => Some (out, Env_ParseEndorsements)
      | Some en => CompleteVerification sev_roots ParseData ev en now roots_of_trust (local_pcrs_ env)
      end
  end.

(** *** azuresnp/azuresnp.cc.  The command [tpm2_quote] of a nonce gives the
    files msg, sig and pcrs; [tmpdir_err] is that of the temporary
    directory. *)
Context (tpm2_quote : bytes -> option (bytes * bytes * bytes)) (tmpdir_err : Error).

Definition CurrentEvidence (base : ASNPEvidence) (data : AttestationData) : ASNPEvidence * Error :=
  let serialized := default [] (SerializeData data) in
  let attestation_data_sha256 := sha256 serialized in
  if negb (is_ok tmpdir_err) then (ASNPEvidence_default, tmpdir_err) else
  match tpm2_quote attestation_data_sha256 with
  | None => (ASNPEvidence_default, Env_GetEvidence)
  | Some (m, s, p) =>
      let ev := Evidence_MergeFrom ASNPEvidence_default base in
      ({| ev with attestation_data := serialized; pcrs := p; msg := m; sig := s |}, OK)
  end.
Definition azure_Evidence (env : SnpEnvironment) (data : AttestationData) : Attestation * Error :=
  if snp_simulated env then SimulatedEvidence data else
  let out := Attestation_default in
  let '(ev, err) := CurrentEvidence (base_evidence_ env) data in
  if negb (is_ok err) then (out, err) else
  match SerializeEvidence ev with
  | None => (out, Env_GetEvidence)
  | Some e =>
      match SerializeEndorsements (base_endorsements_ env) with
      | None => ({| out with evidence := e |}, Env_GetEvidence)
      | Some n => ({| evidence := e; endorsements := n |}, OK)
      end
  end.

(** The files that the commands of [Init] leave. *)
Record AzureFiles := { azure_report : bytes; az_akcert : bytes; az_intermediate : bytes; az_vcek : bytes; az_ask : bytes }.
(** [Init]; [None] is a fatal error.  [files]: whether the commands ran. *)
Definition azure_Init (roots : list X509) (simulated : bool) (files : option AzureFiles) (now : UnixSecs) : option SnpEnvironment :=
  let env := {| snp_simulated := simulated; base_evidence_ := ASNPEvidence_default; base_endorsements_ := ASNPEndorsements_default; local_pcrs_ := [] |} in
  if simulated then Some env else
  if negb (is_ok tmpdir_err) then None else
  f ← files;
  let '(report, err6) := SNPReportBufferFromAzureBuffer (azure_report f) in
  if negb (is_ok err6) then None else
  let '(runtime, err7) := RuntimeDataBufferFromAzureBuffer (azure_report f) in
  if negb (is_ok err7) then None else
  let base := ASNPEvidence_default in
  let base := {| base with snp_report := report; runtime_data := runtime; akcert_der := az_akcert f |} in
  let endo := {| intermediate_der := az_intermediate f; asnp_vcek_der := az_vcek f; asnp_ask_der := az_ask f |} in
  let '(tmp, err) := CurrentEvidence base AttestationData_default in
  if negb (is_ok err) then None else
  let '(ps, err) := PCRsFromString (pcrs tmp) [] in
  if negb (is_ok err) then None else
  let env := {| snp_simulated := false; base_evidence_ := base; base_endorsements_ := endo; local_pcrs_ := ps |} in
  let '(a, err) := azure_Evidence env AttestationData_default in
  if negb (is_ok err) then None else
  '(_, err) ← snp_Attest roots env now a;
  if negb (is_ok err) then None else Some env.

(** *** host/cmd/svr3gcp/main.go: the TPM's quote with its 24 PCRs and its
    certificate, and the certificate of the issuer. *)
Class GcpTpm := {
  gceAK_Quote : bytes -> option (bytes * bytes * list bytes);
  gceAK_Cert : option bytes;
  cert_matches_key : bool;
  issuer_der : option bytes }.
Context {GT : GcpTpm}.

(** [Run]: what it writes as evidence, and as endorsements when asked to. *)
Definition svr3gcp_Run (nonce : bytes) (want_endorsements : bool) : option (ASNPEvidence * ASNPEndorsements) :=
  if negb (Zlen nonce =? 32) then None else
  '(m, s, ps) ← gceAK_Quote nonce;
  cert ← gceAK_Cert;
  if negb cert_matches_key then None else
  let ev := {| attestation_data := []; pcrs := concat (take 24 ps); msg := m; sig := s; snp_report := []; runtime_data := []; akcert_der := cert |} in
  if negb want_endorsements then Some (ev, ASNPEndorsements_default) else
  issuer ← issuer_der;
  Some (ev, {| intermediate_der := issuer; asnp_vcek_der := []; asnp_ask_der := [] |}).

(** *** gcpsnp/gcpsnp.cc: [GcpEvidenceAndEndorsements] runs the command and
    parses the files that it wrote. *)
Definition GcpEvidenceAndEndorsements (nonce : bytes) (want_endorsements : bool) : ASNPEvidence * ASNPEndorsements * Error :=
  let none := (ASNPEvidence_default, ASNPEndorsements_default) in
  if negb (is_ok tmpdir_err) then (none, tmpdir_err) else
  match svr3gcp_Run nonce want_endorsements with
  | None => (none, General_Unimplemented)
  | Some (ev, en) => (ev, en, OK)
  end.
Definition gcp_Evidence (env : SnpEnvironment) (data : AttestationData) : Attestation * Error :=
  if snp_simulated env then SimulatedEvidence data else
  let out := Attestation_default in
  match SerializeData data with
  | None => (out, General_Unimplemented)
  | Some serialized =>
      let hash := sha256 serialized in
      let '(current_evidence, _, err) := GcpEvidenceAndEndorsements hash false in
      if negb (is_ok err) then (out, err) else
      let merged := Evidence_MergeFrom (Evidence_MergeFrom ASNPEvidence_default (base_evidence_ env)) current_evidence in
      match SerializeEvidence merged with
      | None => (out, General_Unimplemented)
      | Some e =>
          match SerializeEndorsements (base_endorsements_ env) with
          | None => ({| out with evidence := e |}, General_Unimplemented)
          | Some n => ({| evidence := e; endorsements := n |}, OK)
          end
      end
  end.

(** The device's answer to a report request with 64 bytes of user data;
    [None] is no device. *)
Record SnpIoctl := { io_ret : Z; fw_error : Z; vmm_error : Z; io_status : Z; report_size : Z; io_report : bytes; io_certs : bytes }.
Context (sev_device : bytes -> option SnpIoctl).
Definition SnpReport (nonce : bytes) : option (bytes * SevSnpEndorsements * Error) :=
  let none := {| vcek_der := []; ask_der := []; ark_der := []; vlek_der := []; crl := [] |} in
  r ← sev_device (nonce ++ replicate (64 - List.length nonce) 0);
  if io_ret r <? 0 then Some ([], none, Sev_ReportIOCTLFailure)
  else if negb (fw_error r =? 0) || negb (vmm_error r =? 0) || negb (io_status r =? 0) then Some ([], none, Sev_FirmwareError)
  else if negb (Z.of_nat sizeof_report =? report_size r) then Some ([], none, Sev_ReportSizeMismatch)
  else
    '(e, err) ← CertificatesToEndorsements (io_certs r) none;
    if negb (is_ok err) then Some ([], e, err) else Some (take sizeof_report (io_report r), e, OK).
(** [Init]; the nonce of the first evidence is not initialised. *)
Definition gcp_Init (roots : list X509) (simulated : bool) (nonce : bytes) (now : UnixSecs) : option SnpEnvironment :=
  let env := {| snp_simulated := simulated; base_evidence_ := ASNPEvidence_default; base_endorsements_ := ASNPEndorsements_default; local_pcrs_ := [] |} in
  if simulated then Some env else
  let '(ev, en, err) := GcpEvidenceAndEndorsements nonce true in
  if negb (is_ok err) then None else
  akcert ← parse_x509 (akcert_der ev);
  let '(azure_runtime_data, azrerr) := AzureRuntimeDataFromCert akcert in
  if negb (is_ok azrerr) then None else
  let runtime_hash := sha256 azure_runtime_data in
  '(report, sev_endorsements, err) ← SnpReport runtime_hash;
  if negb (is_ok err) then None else
  let base := {| ev with runtime_data := azure_runtime_data; snp_report := report |} in
  let endo := {| en with asnp_vcek_der := vcek_der sev_endorsements; asnp_ask_der := ask_der sev_endorsements |} in
  let '(ps, err) := PCRsFromString (pcrs base) [] in
  if negb (is_ok err) then None else
  let env := {| snp_simulated := false; base_evidence_ := base; base_endorsements_ := endo; local_pcrs_ := ps |} in
  let '(a, err) := gcp_Evidence env AttestationData_default in
  if negb (is_ok err) then None else
  '(_, err) ← snp_Attest roots env now a;
  if negb (is_ok err) then None else Some env.
End snp.

(** ** attestation/oe/attestation.cc and sgx/sgx.cc

    Claims of Open Enclave have a name and a value. *)
Notation oe_claim := (bytes * bytes)%type.
Record oe_datetime := { year : Z; month : Z; day : Z; hours : Z; minutes : Z; seconds : Z }.
Class OpenEnclave := {
  (** With the time of the endorsements as a policy, or without. *)
  oe_verify_evidence : bytes -> bytes -> option oe_datetime -> option (list oe_claim);
  oe_serialize_custom_claims : list oe_claim -> option bytes;
  oe_deserialize_custom_claims : bytes -> option (list oe_claim);
  oe_get_evidence : bytes -> option (bytes * bytes);
  OE_CLAIM_UNIQUE_ID : bytes;
  OE_CLAIM_CUSTOM_CLAIMS_BUFFER : bytes }.

Section sgx.
Context {AP : AttestPlatform} {OE : OpenEnclave}.

Definition FindClaim (claims : list oe_claim) (name : bytes) : option oe_claim := List.find (fun c => bool_decide (c.1 = name)) claims.

(** [None] reads the first of no custom claims. *)
Definition ReadKeyFromVerifiedClaims (claims : list oe_claim) : option (bytes * Error) :=
  match FindClaim claims OE_CLAIM_CUSTOM_CLAIMS_BUFFER with
  | None => Some ([], Env_CustomClaimsMissing)
  | Some claim =>
      match oe_deserialize_custom_claims claim.2 with
      | None => Some ([], Env_CustomClaimsDeserialize)
      | Some [] => None
      | Some (first :: _) =>
          if negb (bool_decide (first.1 = str "pk")) then Some ([], Env_AttestationPubkeyMissing)
          else if negb (Zlen first.2 =? 32) then Some ([], Env_AttestationPubkeyInvalidSize)
          else Some (first.2, OK)
      end
  end.
(** [CHECK]s that the evidence verifies. *)
Definition VerifyAndReadClaims (ev en : bytes) : option (list oe_claim) := oe_verify_evidence ev en None.

(** [gmtime_r], by the days since the first of March of the year 0. *)
Definition SecsToOEDatetime (secs : Z) : oe_datetime :=
  let z := secs / 86400 + 719468 in
  let era := z / 146097 in
  let doe := z - era * 146097 in
  let yoe := (doe - doe / 1460 + doe / 36524 - doe / 146096) / 365 in
  let doy := doe - (365 * yoe + yoe / 4 - yoe / 100) in
  let mp := (5 * doy + 2) / 153 in
  let m := if mp <? 10 then mp + 3 else mp - 9 in
  let s := secs mod 86400 in
  {| year := yoe + era * 400 + (if m <=? 2 then 1 else 0); month := m; day := doy - (153 * mp + 2) / 5 + 1;
     hours := s / 3600; minutes := s mod 3600 / 60; seconds := s mod 60 |}.

Definition unattested_evidence_prefix : bytes := str "UNATTESTED EVIDENCE:".

Definition sgx_Evidence (simulated : bool) (a : AttestationData) : Attestation * Error :=
  let out := Attestation_default in
  if simulated then ({| out with evidence := unattested_evidence_prefix ++ default [] (SerializeData a) |}, OK) else
  match SerializeGroupConfig (att_group_config a) with
  | None => (out, Env_SerializeConfigForEvidence)
  | Some serialized_config =>
      match SerializeLimits (att_minimum_limits a) with
      | None => (out, Env_SerializeMinimumsForEvidence)
      | Some serialized_minimums =>
          let custom_claims := [(str "pk", att_public_key a); (str "config", serialized_config); (str "minimum_limits", serialized_minimums)] in
          match oe_serialize_custom_claims custom_claims with
          | None => (out, Env_SerializeCustomClaims)
          | Some buffer =>
              match oe_get_evidence buffer with
              | None => (out, Env_GetEvidence)
              | Some (e, n) => ({| evidence := e; endorsements := n |}, OK)
              end
          end
      end
  end.

Definition ValidateStandardClaims (expected_mrenclave : bytes) (claims : list oe_claim) : Error :=
  match FindClaim claims OE_CLAIM_UNIQUE_ID with
  | None => Env_MissingMRENCLAVE
  | Some claim => if negb (ct_equals claim.2 expected_mrenclave) then Env_WrongMRENCLAVE else OK
  end.

Definition sgx_Attest (simulated : bool) (expected_mrenclave : bytes) (now : UnixSecs) (a : Attestation) : option (AttestationData * Error) :=
  let out := AttestationData_default in
  if simulated then
    if negb (has_prefix (evidence a) unattested_evidence_prefix) then Some (out, Env_AttestationFailure) else
    match ParseData (drop (List.length unattested_evidence_prefix) (evidence a)) with
    | None => Some (out, Env_AttestationFailure)
    | Some d => Some (d, OK)
    end
  else
    match oe_verify_evidence (evidence a) (endorsements a) (Some (SecsToOEDatetime now)) with
    | None => Some (out, Env_AttestationFailure)
    | Some claims =>
        let err := ValidateStandardClaims expected_mrenclave claims in
        if negb (is_ok err) then Some (out, err) else
        '(key, err) ← ReadKeyFromVerifiedClaims claims;
        Some ({| out with att_public_key := if is_ok err then key else replicate 32 0 |}, err)
    end.

(** [GetMRENCLAVE], of evidence of our own. *)
Definition GetMRENCLAVE (simulated : bool) : option (bytes * Error) :=
  let '(a, err) := sgx_Evidence simulated {| att_public_key := replicate 32 0; att_group_config := None; att_minimum_limits := []; att_minimum_values := [] |} in
  if negb (is_ok err) then Some ([], err) else
  claims ← VerifyAndReadClaims (evidence a) (endorsements a);
  match FindClaim claims OE_CLAIM_UNIQUE_ID with
  | None => Some ([], Env_AttestationFailure)
  | Some claim => Some (claim.2, OK)
  end.
End sgx.
