(* ===== verification/EnvProps.v ===== *)
(** * Properties of the platforms

    Random bytes, evidence that is accepted, and evidence that never is; on
    every platform, a connected peer has shown what the platform asks for. *)
From Stdlib Require Import Strings.String.
From stdpp Require Import prelude gmap.
From S2P Require Import Prelude Errors Containers Util Base64 RaftTypes PeerId Minimums GroupClock Msgs Attest Sev Tpm2 Tpm2Snp AttestProps Nitro Environments.
From S2P Require Import Noise Peers PeersInv PeersProps CoreExamples.

(** ** Random bytes *)
Lemma getrandom_loop_size rs size b : getrandom_loop rs size = Some (b, OK) -> length b = size.
Proof.
  revert size b. induction rs as [|r rs IH]; intros [|size] b; cbn [getrandom_loop]; try done; try (by intros [= <-]).
  destruct r as [got|]; [|done]. set (g := take (S size) got). intros Hb.
  destruct (getrandom_loop rs (S size - length g)) as [[rest e]|] eqn:E; [|done]. cbn in Hb. injection Hb as <- ->.
  apply IH in E. rewrite length_app, E. unfold g. rewrite length_take. lia.
Qed.
Lemma rdrand_loop_size rs size b : rdrand_loop rs size = Some (b, OK) -> length b = size.
Proof.
  revert size b. induction rs as [|r rs IH]; intros [|size] b; cbn [rdrand_loop]; try done; try (by intros [= <-]).
  destruct r as [r|]; [|done]. set (g := take (S size) (BigEndian64Bytes r)).
  assert (Hg : length g = (S size `min` 8)%nat) by (unfold g; rewrite length_take; reflexivity). clearbody g. intros Hb.
  destruct (rdrand_loop rs (S size - 8)) as [[rest e]|] eqn:E; [|done]. cbn [mbind option_bind] in Hb. injection Hb as <- ->.
  apply IH in E. rewrite length_app, E, Hg. lia.
Qed.

(** A short [getrandom] leaves the end of the buffer as it was, and a failed
    one is not noticed. *)
Lemma nsm_simulated_random_short : nsm_simulated_random [Some [1; 2]; Some [3; 4]] [0; 0; 0; 0] 4 = Some ([3; 4; 0; 0], OK).
Proof. reflexivity. Qed.
Lemma nsm_simulated_random_failure rs buf size : 0 < size < MAX64 ->
  nsm_simulated_random (None :: rs) buf size = nsm_simulated_random rs buf (size + 1).
Proof.
  intros Hs. cbn [nsm_simulated_random]. rewrite (proj2 (Z.eqb_neq _ _)) by lia. change (MAX64 <=? 0) with false. cbv iota.
  f_equal. unfold MAX64 in *. unfold u64. replace (size - (2 ^ 64 - 1)) with (size + 1 + -1 * 2 ^ 64) by lia. rewrite Z.mod_add by lia.
  apply Z.mod_small. lia.
Qed.

(** ** Simulated enclaves accept what simulated enclaves make. *)
Lemma simulated_roundtrip `{AttestPlatformLaws} data b now : SerializeData data = Some b ->
  SimulatedAttest now (SimulatedEvidence data).1 = (data, OK).
Proof.
  intros Hs. unfold SimulatedAttest, SimulatedEvidence. cbn [fst evidence]. rewrite Hs. 
  unfold has_prefix. rewrite take_app_length, bool_decide_eq_true_2 by done. cbn [negb]. change (default [] (Some b)) with b.
  by unfold id; rewrite drop_app_length, (parse_data data b Hs).
Qed.

(** ** SEV-SNP *)
Section snp.
Context {AP : AttestPlatform} {APL : AttestPlatformLaws} {CR : Crypto} {SL : SevLayout} {LW : SevLaws} {JP : JsonPlatform}.
Context (sha256_size : forall bs, length (sha256 bs) = 32%nat) (sev_roots : list X509).

Lemma snp_Attest_spec roots env now a data : snp_simulated env = false -> snp_Attest sev_roots roots env now a = Some (data, OK) ->
  exists ev en akcert ps, ParseEvidence (evidence a) = Some ev /\ ParseEndorsements (endorsements a) = Some en /\
    parse_x509 (akcert_der ev) = Some akcert /\ ak_trusted sev_roots roots ev en now akcert /\
    quoted akcert ev (sha256 (attestation_data ev)) ps /\
    (forall i, i ∈ checked_pcrs -> nth i (local_pcrs_ env) [] = nth i ps []) /\
    ParseData (attestation_data ev) = Some data.
Proof.
  intros Hs. unfold snp_Attest. rewrite Hs. destruct (ParseEvidence (evidence a)) as [ev|]; [|done].
  destruct (ParseEndorsements (endorsements a)) as [en|]; [|done].
  intros (akcert & ps & ?)%(CompleteVerification_spec sha256_size). exists ev, en, akcert, ps. naive_solver.
Qed.

(** On Azure, what is accepted is what was attested. *)
Lemma azure_attests_data quote tmpdir_err roots env env' now data b a data' :
  snp_simulated env = false -> snp_simulated env' = false -> SerializeData data = Some b ->
  azure_Evidence quote tmpdir_err env data = (a, OK) -> snp_Attest sev_roots roots env' now a = Some (data', OK) -> data' = data.
Proof.
  intros Hs Hs' Hb He Ha. apply snp_Attest_spec in Ha as (ev & en & akcert & ps & H1 & _ & _ & _ & _ & _ & H2); [|done].
  unfold azure_Evidence in He. rewrite Hs in He. destruct (CurrentEvidence _ _ _ _) as [ev' err] eqn:Ec.
  destruct (is_ok err) eqn:E1; cbn [negb] in He; [|by simplify_eq]. destruct (SerializeEvidence ev') as [e|] eqn:Es; [|done].
  destruct (SerializeEndorsements _) as [n|]; [|done]. injection He as <-. cbn in H1. rewrite (parse_evidence _ _ Es) in H1. simplify_eq.
  unfold CurrentEvidence in Ec. rewrite Hb in Ec. destruct (is_ok tmpdir_err) eqn:E2; cbn [negb] in Ec; [|injection Ec as <- <-; congruence].
  destruct (quote _) as [[[m s] p]|]; [|by injection Ec as <- <-]. injection Ec as <- <-. cbn in H2.
  rewrite (parse_data data b Hb) in H2. congruence.
Qed.

Context {GT : GcpTpm}.
(** A TPM puts the nonce it is given into the quote. *)
Context (quote_nonce : forall n m s ps, gceAK_Quote n = Some (m, s, ps) -> length n = 32%nat -> read_at m 44 32 = Some n).

Lemma gcp_evidence_data tmpdir_err env data b a : snp_simulated env = false -> attestation_data (base_evidence_ env) = [] ->
  SerializeData data = Some b -> gcp_Evidence tmpdir_err env data = (a, OK) ->
  exists ev, ParseEvidence (evidence a) = Some ev /\ attestation_data ev = [] /\ read_at (msg ev) 44 32 = Some (sha256 b).
Proof.
  intros Hs Hbase Hb He. unfold gcp_Evidence in He. rewrite Hs, Hb in He.
  unfold GcpEvidenceAndEndorsements in He. destruct (is_ok tmpdir_err) eqn:E1; cbn [negb] in He; 
    [|cbv zeta beta iota in He; rewrite E1 in He; cbn [negb] in He; injection He as _ ->; discriminate E1].
  destruct (svr3gcp_Run (sha256 b) false) as [[ev en]|] eqn:Er; [|done]. cbn [is_ok negb] in He.
  destruct (SerializeEvidence _) as [e|] eqn:Es; [|done]. destruct (SerializeEndorsements _) as [n|]; [|done]. injection He as <-.
  eexists. split; [by apply parse_evidence|]. unfold svr3gcp_Run in Er. destruct (Zlen (sha256 b) =? 32); [|done]. cbn [negb] in Er.
  destruct (gceAK_Quote (sha256 b)) as [[[m s] ps]|] eqn:Eq; [|done]. cbn [mbind option_bind] in Er.
  destruct gceAK_Cert as [cert|]; [|done]. cbn [mbind option_bind] in Er. destruct cert_matches_key; [|done]. cbn [negb] in Er. injection Er as <- <-.
  cbn. rewrite Hbase. split; [done|]. apply quote_nonce in Eq; [|done]. by destruct m as [|x m].
Qed.

(** The base evidence of [Init] carries no attestation data. *)
Lemma gcp_Init_base tmpdir_err device roots nonce now env : gcp_Init sev_roots tmpdir_err device roots false nonce now = Some env ->
  snp_simulated env = false /\ attestation_data (base_evidence_ env) = [].
Proof.
  unfold gcp_Init, GcpEvidenceAndEndorsements. cbv zeta.
  destruct (is_ok tmpdir_err) eqn:E1; cbn [negb]; [|cbv zeta beta iota; by rewrite E1].
  destruct (svr3gcp_Run nonce true) as [[ev en]|] eqn:Er; [|done]. cbn [is_ok negb].
  destruct (parse_x509 (akcert_der ev)) as [akcert|]; [|done]. cbn [mbind option_bind].
  destruct (AzureRuntimeDataFromCert akcert) as [rt err]. destruct (is_ok err); [|done]. cbn [negb].
  destruct (SnpReport device (sha256 rt)) as [[[rep se] err2]|]; [|done]. cbn [mbind option_bind]. destruct (is_ok err2); [|done]. cbn [negb].
  destruct (PCRsFromString _ _) as [ps err3]. destruct (is_ok err3); [|done]. cbn [negb].
  destruct (gcp_Evidence _ _ _) as [a err4]. destruct (is_ok err4); [|done]. cbn [negb].
  destruct (snp_Attest _ _ _ _ _) as [[d err5]|]; [|done]. cbn [mbind option_bind]. destruct (is_ok err5); [|done]. intros [= <-].
  split; [done|]. cbn. unfold svr3gcp_Run in Er. destruct (negb _); [done|].
  destruct (gceAK_Quote nonce) as [[[m s] p]|]; [|done]. cbn [mbind option_bind] in Er. destruct gceAK_Cert; [|done].
  cbn [mbind option_bind] in Er. destruct (negb cert_matches_key); [done|]. cbn [negb] in Er.
  destruct issuer_der; [|done]. by injection Er as <- <-.
Qed.

(** C35: On Google Cloud an enclave that started, and so accepted evidence of
    its own, makes evidence that no enclave accepts as soon as the data it
    attests is not empty: the quote is of the digest of the data, but the
    data itself is left out of the evidence. *)
Theorem gcp_evidence_rejected tmpdir_err device roots nonce now env data b a roots' env' now' :
  gcp_Init sev_roots tmpdir_err device roots false nonce now = Some env ->
  SerializeData data = Some b -> sha256 b <> sha256 [] ->
  gcp_Evidence tmpdir_err env data = (a, OK) -> snp_simulated env' = false ->
  forall r, snp_Attest sev_roots roots' env' now' a = Some r -> r.2 <> OK.
Proof.
  intros [Hs Hbase]%gcp_Init_base Hb Hne He Hs' [data' e] Ha Hok. cbn in Hok. subst e.
  apply snp_Attest_spec in Ha as (ev & en & akcert & ps & H1 & _ & _ & _ & Hq & _); [|done].
  destruct (gcp_evidence_data tmpdir_err env data b a Hs Hbase Hb He) as (ev' & H1' & H2 & H3).
  rewrite H1 in H1'. injection H1' as <-. destruct Hq as (_ & _ & _ & _ & _ & _ & _ & _ & _ & Hn & _).
  rewrite H2, H3 in Hn. by injection Hn.
Qed.
End snp.

(** ** SGX *)
Section sgx.
Context {AP : AttestPlatform} {OE : OpenEnclave}.

(** Evidence that Open Enclave verified at a time, of an enclave with this
    MRENCLAVE whose first custom claim is a key. *)
Definition sgx_verified (mrenclave : bytes) (now : UnixSecs) (a : Attestation) (key : bytes) : Prop :=
  exists claims uid buffer rest,
    oe_verify_evidence (evidence a) (endorsements a) (Some (SecsToOEDatetime now)) = Some claims /\
    FindClaim claims OE_CLAIM_UNIQUE_ID = Some uid /\ uid.2 = mrenclave /\
    FindClaim claims OE_CLAIM_CUSTOM_CLAIMS_BUFFER = Some buffer /\
    oe_deserialize_custom_claims buffer.2 = Some ((str "pk", key) :: rest) /\ Zlen key = 32.

Lemma sgx_Attest_spec mrenclave now a data : sgx_Attest false mrenclave now a = Some (data, OK) ->
  sgx_verified mrenclave now a (att_public_key data) /\
  data = {| att_public_key := att_public_key data; att_group_config := None; att_minimum_limits := []; att_minimum_values := [] |}.
Proof.
  unfold sgx_Attest, sgx_verified. cbv zeta.
  destruct (oe_verify_evidence _ _ _) as [claims|]; [|done]. unfold ValidateStandardClaims, ReadKeyFromVerifiedClaims.
  destruct (FindClaim claims OE_CLAIM_UNIQUE_ID) as [uid|] eqn:E1; [|done]. rewrite ct_equals_eq.
  case_bool_decide as Hu; cbn [negb]; [|done]. cbn [is_ok negb].
  destruct (FindClaim claims OE_CLAIM_CUSTOM_CLAIMS_BUFFER) as [buffer|] eqn:E2; [|done].
  destruct (oe_deserialize_custom_claims buffer.2) as [[|[n k] rest]|] eqn:E3; [done| |done]. cbn [fst snd].
  case_bool_decide as Hn; cbn [negb]; [|done]. destruct (Zlen k =? 32) eqn:E4; cbn [negb]; [|done].
  cbn [mbind option_bind is_ok]. intros [= <-]. zbool. subst n. split; [|done]. exists claims, uid, buffer, rest. naive_solver.
Qed.

(** Open Enclave: the claims of genuine evidence carry the identity of the
    enclave, and the buffer it was asked for. *)
Class OpenEnclaveLaws := {
  own_mrenclave : bytes;
  claims_kept : forall cs b, oe_serialize_custom_claims cs = Some b -> oe_deserialize_custom_claims b = Some cs;
  evidence_verifies : forall b e n t, oe_get_evidence b = Some (e, n) -> exists claims u, oe_verify_evidence e n t = Some claims /\
    FindClaim claims OE_CLAIM_UNIQUE_ID = Some (u, own_mrenclave) /\
    exists c, FindClaim claims OE_CLAIM_CUSTOM_CLAIMS_BUFFER = Some (c, b) }.

(** What an enclave attests, an enclave of the same measurement accepts; of
    the data it is handed the key only. *)
Lemma sgx_roundtrip `{OpenEnclaveLaws} data a now : sgx_Evidence false data = (a, OK) -> Zlen (att_public_key data) = 32 ->
  sgx_Attest false own_mrenclave now a =
    Some ({| att_public_key := att_public_key data; att_group_config := None; att_minimum_limits := []; att_minimum_values := [] |}, OK).
Proof.
  unfold sgx_Evidence. cbv zeta. destruct (SerializeGroupConfig _) as [cfg|]; [|done]. destruct (SerializeLimits _) as [lim|]; [|done].
  destruct (oe_serialize_custom_claims _) as [buf|] eqn:E1; [|done]. destruct (oe_get_evidence buf) as [[e n]|] eqn:E2; [|done].
  intros [= <-] Hk. destruct (evidence_verifies buf e n (Some (SecsToOEDatetime now)) E2) as (claims & u & H1 & H2 & c & H3).
  unfold sgx_Attest, ValidateStandardClaims, ReadKeyFromVerifiedClaims. cbn [evidence endorsements]. rewrite H1, H2, H3.
  cbn [fst snd]. rewrite ct_equals_eq, bool_decide_eq_true_2 by done. cbn [negb is_ok]. rewrite (claims_kept _ _ E1). cbn [fst snd].
  rewrite bool_decide_eq_true_2 by done. cbn [negb]. rewrite (proj2 (Z.eqb_eq _ _) Hk). done.
Qed.
(** [GetMRENCLAVE] is what [Attest] is then given. *)
Lemma GetMRENCLAVE_own `{OpenEnclaveLaws} m : GetMRENCLAVE false = Some (m, OK) -> m = own_mrenclave.
Proof.
  unfold GetMRENCLAVE, VerifyAndReadClaims. destruct (sgx_Evidence false _) as [a err] eqn:Ee. destruct (is_ok err) eqn:Eo; cbn [negb]; [|by intros [= _ ->]].
  apply is_ok_spec in Eo as ->. revert Ee. unfold sgx_Evidence. cbv zeta. destruct (SerializeGroupConfig _) as [cfg|]; [|done].
  destruct (SerializeLimits _) as [lim|]; [|done]. destruct (oe_serialize_custom_claims _) as [buf|]; [|done].
  destruct (oe_get_evidence buf) as [[e n]|] eqn:E2; [|done]. intros [= <-].
  destruct (evidence_verifies buf e n None E2) as (claims & u & H1 & H2 & _). cbn [evidence endorsements]. rewrite H1. cbn [mbind option_bind].
  rewrite H2. by intros [= <-].
Qed.
End sgx.

(** ** The platforms behind the peer manager *)
Section platforms.
Context {AP : AttestPlatform} {CB : Cbor} {CR : Crypto} {SL : SevLayout} {LW : SevLaws} {JP : JsonPlatform} {OE : OpenEnclave}.
Context (sha256_size : forall bs, length (sha256 bs) = 32%nat) (sev_roots : list X509).

(** An enclave that is not simulated, with what [Init] left. *)
Inductive Platform :=
  | OnNitro (roots : list X509) (pcrs : gmap Z bytes)
  | OnSnp (roots : list X509) (env : SnpEnvironment)
  | OnSgx (mrenclave : bytes).
Definition real (pl : Platform) : Prop := match pl with OnSnp _ env => snp_simulated env = false | _ => True end.

Definition platform_Attest (pl : Platform) (now : UnixSecs) (a : Attestation) : option (AttestationData * Error) :=
  match pl with
  | OnNitro roots pcrs => nsm_Attest roots false pcrs now a
  | OnSnp roots env => snp_Attest sev_roots roots env now a
  | OnSgx mrenclave => sgx_Attest false mrenclave now a
  end.

(** What the platform's hardware vouches for. *)
Definition genuine (pl : Platform) (now : UnixSecs) (a : Attestation) (data : AttestationData) : Prop :=
  match pl with
  | OnNitro roots pcrs => exists cose doc, CoseSign1_ParseFromBytes (evidence a) = inl cose /\
      AttestationDoc_ParseFromBytes (payload cose) = Some (inl doc) /\ nitro_signed roots doc cose now /\
      (forall i, i ∈ [0; 1; 2] -> exists v, pcrs !! i = Some v /\ doc_pcrs doc !! i = Some v) /\
      ParseData (user_data doc) = Some data
  | OnSnp roots env => exists ev en akcert ps, ParseEvidence (evidence a) = Some ev /\ ParseEndorsements (endorsements a) = Some en /\
      parse_x509 (akcert_der ev) = Some akcert /\ ak_trusted sev_roots roots ev en now akcert /\
      quoted akcert ev (sha256 (attestation_data ev)) ps /\
      (forall i, i ∈ checked_pcrs -> nth i (local_pcrs_ env) [] = nth i ps []) /\ ParseData (attestation_data ev) = Some data
  | OnSgx mrenclave => sgx_verified mrenclave now a (att_public_key data)
  end.

Lemma platform_Attest_genuine pl now a data : real pl -> platform_Attest pl now a = Some (data, OK) -> genuine pl now a data.
Proof.
  destruct pl as [roots pcrs|roots env|mrenclave]; cbn; intros Hr Ha.
  - unfold nsm_Attest in Ha. apply Nsm_Attest_spec in Ha as (cose & doc & ?). exists cose, doc. naive_solver.
  - by apply snp_Attest_spec.
  - by apply sgx_Attest_spec in Ha as [? _].
Qed.

(** The platform as the rest of the enclave sees it. *)
Context (get_evidence : nat -> AttestationData -> Attestation * Error) (random_bytes : nat -> nat -> bytes * Error).
Definition platform_Env (pl : Platform) : Env := {|
  env_Evidence := get_evidence;
  env_Attest := platform_Attest pl;
  env_RandomBytes := random_bytes |}.

(** A connection with keys was made on genuine evidence. *)
Definition genuine_peer (pl : Platform) (id : PeerID) (p : Peer) : Prop :=
  exists a data, genuine pl (last_attestation_ p) a data /\ attests id data /\ peer_minimums_ p = att_minimum_values data.
Lemma attested_genuine pl id p : real pl -> peer_id_ p = id -> attested (EV := platform_Env pl) p -> genuine_peer pl id p.
Proof.
  intros Hr <- (a & data & Ha & Hid & Hmin). exists a, data. split_and!; [|done|done]. by apply platform_Attest_genuine.
Qed.

Definition on_nitro (pl : Platform) : bool := match pl with OnNitro _ _ => true | _ => false end.
Lemma nitro_returns {CBL : CborLaws} pl now a : on_nitro pl = true -> platform_Attest pl now a <> None.
Proof.
  destruct pl as [roots pcrs| |]; try done. intros _. cbn. unfold nsm_Attest.
  destruct (nitro_attest_returns roots ParseData pcrs now (evidence a)) as [[r ->] _]. done.
Qed.

(** C11: On Nitro, SEV-SNP and SGX, whatever the host passes on, a peer that is
    connected has shown, at the recorded time, evidence that the hardware
    vouches for: signed under the platform's roots, of an enclave with the
    same measurements as ours, and naming the peer's ID as its public key; a
    message is passed on to the enclave only from such a peer.  The peer
    manager runs to the end, or to a message that brings evidence on which the
    platform's own check ends the process; on Nitro there is no such evidence. *)
Theorem genuine_peers {NP : NoisePlatform} {NL : NoiseLaws} {MP : MsgPlatform} {CBL : CborLaws} pl m0 evs :
  let EV := platform_Env pl in real pl ->
  PeerManager_Init PeerManager_new = (m0, OK) -> Forall pm_event_ok evs ->
  match pm_run m0 evs with
  | Some m =>
      (forall id p, map_find (peers_ m) id = Some p -> connected p -> genuine_peer pl id p) /\
      (forall limits msg m' from x, pm_handle m (pmRecv limits msg) = Some (m', Some (from, x)) ->
         exists p, map_find (peers_ m') from = Some p /\ genuine_peer pl from p)
  | None => on_nitro pl = false /\
      exists before limits msg after m a, evs = before ++ pmRecv limits msg :: after /\ pm_run m0 before = Some m /\
        brings (peer_rx m msg) msg a /\ platform_Attest pl (time_ m) a = None
  end.
Proof.
  intros EV Hr H0 Hevs. pose proof (pm_run_ok evs m0 (Init_ok _ H0) Hevs) as Hm. destruct (pm_run m0 evs) as [m|].
  - split.
    + intros id p Hf Hc. destruct (find_ok _ _ _ Hm Hf) as [Hid _ Hk]. apply attested_genuine; [done..|]. apply Hk.
      revert Hc. unfold connected, InternalCurrentState. by repeat case_match; eauto.
    + intros limits msg m' from x Hh. pose proof (pm_handle_ok m (pmRecv limits msg) Hm I) as Hok. rewrite Hh in Hok.
      destruct Hok as [Hm' Hp]. destruct (Hp _ _ eq_refl) as (p & Hf & Hk).
      destruct (find_ok _ _ _ Hm' Hf) as [Hid _ Ha]. exists p. split; [done|]. by apply attested_genuine; auto.
  - destruct Hm as (before & ev & after & m & -> & Hrun & Hf). destruct ev as [| | | |limits msg| | |]; try done.
    destruct Hf as (a & Hb & Ha). split.
    + destruct (on_nitro pl) eqn:En; [|done]. by destruct (nitro_returns pl (time_ m) a En).
    + exists before, limits, msg, after, m, a. exact (conj eq_refl (conj Hrun (conj Hb Ha))).
Qed.
End platforms.

(** ** Examples *)
Module EnvExample.
Import SnpExample.
(** Data that is a key only; a message is its fields, each after its length. *)
Definition enc_data (d : AttestationData) : option bytes :=
  match d with
  | {| att_public_key := k; att_group_config := None; att_minimum_limits := []; att_minimum_values := [] |} => Some k
  | _ => None
  end.
Definition enc_fields (fs : list bytes) : bytes := concat (map (fun f => Zlen f :: f) fs).
Fixpoint dec_fields (n : nat) (bs : bytes) : list bytes :=
  match n, bs with
  | S n', len :: r => take (Z.to_nat len) r :: dec_fields n' (drop (Z.to_nat len) r)
  | _, _ => []
  end.
Lemma dec_enc_fields fs : dec_fields (length fs) (enc_fields fs) = fs.
Proof.
  induction fs as [|f fs IH]; [done|]. unfold enc_fields in *. cbn [map concat length dec_fields]. rewrite <- app_comm_cons.
  unfold Zlen. rewrite !Nat2Z.id, take_app_length, drop_app_length. f_equal. exact IH.
Qed.

#[export] Instance ToyAttest : AttestPlatform := {|
  SerializeData := enc_data;
  ParseData := SnpExample.parse;
  SerializeEvidence := fun e => Some (enc_fields [attestation_data e; pcrs e; msg e; sig e; snp_report e; runtime_data e; akcert_der e]);
  ParseEvidence := fun bs =>
    match dec_fields 7 bs with
    | [a; p; m; s; r; t; k] => Some {| attestation_data := a; pcrs := p; msg := m; sig := s; snp_report := r; runtime_data := t; akcert_der := k |}
    | _ => None
    end;
  SerializeEndorsements := fun e => Some (enc_fields [intermediate_der e; asnp_vcek_der e; asnp_ask_der e]);
  ParseEndorsements := fun bs =>
    match dec_fields 3 bs with
    | [i; v; k] => Some {| intermediate_der := i; asnp_vcek_der := v; asnp_ask_der := k |}
    | _ => None
    end;
  SerializeGroupConfig := fun _ => Some [];
  SerializeLimits := fun _ => Some [] |}.
#[export] Instance ToyAttestLaws : AttestPlatformLaws.
Proof.
  split.
  - intros [k [] [] []] b; cbn; try done. by intros [= <-].
  - intros [a p m s r t k] b [= <-]. cbn [ParseEvidence ToyAttest]. pose proof (dec_enc_fields [a; p; m; s; r; t; k]) as H. cbn [length attestation_data pcrs msg sig snp_report runtime_data akcert_der] in H |- *. by rewrite H.
  - intros [i v k] b [= <-]. cbn [ParseEndorsements ToyAttest]. pose proof (dec_enc_fields [i; v; k]) as H. cbn [length intermediate_der asnp_vcek_der asnp_ask_der] in H |- *. by rewrite H.
Qed.

(** A TPM with registers that are zero. *)
Definition toy_quote (n : bytes) : bytes :=
  [255; 84; 67; 71; 128; 24; 0; 34; 0; 11] ++ replicate 32 0 ++ [0; 32] ++ n ++ replicate 25 0 ++
  [0; 0; 0; 1; 0; 11; 3; 255; 255; 255; 0; 32] ++ replicate 32 0.
#[export] Instance ToyTpm : GcpTpm := {|
  gceAK_Quote := fun n => Some (toy_quote n, [0; 20; 0; 11; 1; 0] ++ toy_digest 32 (toy_quote n) ++ replicate 224 0, replicate 24 (replicate 32 0));
  gceAK_Cert := Some [5; 5; 5]; cert_matches_key := true; issuer_der := Some [9] |}.
Lemma toy_quote_nonce n m s ps : gceAK_Quote n = Some (m, s, ps) -> length n = 32%nat -> read_at m 44 32 = Some n.
Proof.
  cbn -[toy_quote]. intros [= <- _ _] Hn. do 32 (destruct n as [|? n]; [discriminate|]). destruct n; [|discriminate]. reflexivity.
Qed.

(** A device that reports the user data it is given. *)
Definition device (user_data : bytes) : option SnpIoctl := Some {|
  io_ret := 0; fw_error := 0; vmm_error := 0; io_status := 0; report_size := 192;
  io_report := replicate 48 1 ++ replicate 32 2 ++ user_data ++ replicate 48 1;
  io_certs := UUID_VCEK ++ [72; 0; 0; 0; 1; 0; 0; 0] ++ UUID_ASK ++ [73; 0; 0; 0; 1; 0; 0; 0] ++ replicate 24 0 ++ [6; 9] |}.
Definition started : option SnpEnvironment := gcp_Init roots OK device roots false (replicate 32 7) 100.
Definition data : AttestationData := {| att_public_key := replicate 32 42; att_group_config := None; att_minimum_limits := []; att_minimum_values := [] |}.

(** Claims as a list of fields: evidence is the buffer of custom claims. *)
#[export] Instance ToyOE : OpenEnclave := {|
  oe_verify_evidence := fun e _ _ => Some [(str "unique_id", [8; 8]); (str "custom", e)];
  oe_serialize_custom_claims := fun cs => Some (enc_fields (concat (map (fun c => [c.1; c.2]) cs)));
  oe_deserialize_custom_claims := fun bs => match dec_fields (length bs) bs with [a; b; c; d; e; f] => Some [(a, b); (c, d); (e, f)] | _ => None end;
  oe_get_evidence := fun b => Some (b, []);
  OE_CLAIM_UNIQUE_ID := str "unique_id"; OE_CLAIM_CUSTOM_CLAIMS_BUFFER := str "custom" |}.
End EnvExample.
Import SnpExample EnvExample.

Lemma gcp_evidence_rejected_witness :
  exists env a, started = Some env /\ gcp_Evidence OK env EnvExample.data = (a, OK) /\
    forall r, snp_Attest SnpExample.roots SnpExample.roots env 100 a = Some r -> r.2 <> OK.
Proof.
  destruct started as [env|] eqn:Es; [|vm_compute in Es; discriminate Es].
  destruct (gcp_Evidence OK env EnvExample.data) as [a err] eqn:Ea.
  assert (Hr : option_map (fun e => (gcp_Evidence OK e EnvExample.data).2) started = Some OK /\ option_map snp_simulated started = Some false)
    by (split; vm_compute; reflexivity).
  rewrite Es in Hr. destruct Hr as [Hr Hs]. cbn [option_map] in Hr, Hs. rewrite Ea in Hr. injection Hr as ->. injection Hs as Hs.
  exists env, a. split; [reflexivity|]. split; [exact Ea|].
  refine (gcp_evidence_rejected toy_sha256_size SnpExample.roots toy_quote_nonce OK device SnpExample.roots (replicate 32 7) 100 env
    EnvExample.data (replicate 32 42) a SnpExample.roots env 100 Es eq_refl _ Ea Hs).
  vm_compute. discriminate.
Defined.

(** An SGX enclave, accepted by one of the same measurement. *)
Lemma sgx_example : exists a, sgx_Evidence false EnvExample.data = (a, OK) /\ GetMRENCLAVE false = Some ([8; 8], OK) /\
  sgx_Attest false [8; 8] 100 a = Some (EnvExample.data, OK) /\ sgx_Attest false [8; 9] 100 a = Some (AttestationData_default, Env_WrongMRENCLAVE).
Proof. eexists. vm_compute. repeat split. Qed.

(** A peer that shows the document of the Nitro example. *)
Module GenuineExample.
#[export] Instance nitro_msgs : MsgPlatform := {|
  SerializeE2E := toy_e2e; ParseE2E := toy_parse_e2e;
  SerializeConnect := fun c => Some (conn_handshake c);
  ParseConnect := fun s => Some {| conn_attestation := {| evidence := NitroExample.evidence; endorsements := [] |}; conn_handshake := s |};
  SerializeEntry := fun _ => None;
  ParseEntry := fun _ => None;
  SerializeDb := fun _ => Some []; ParseDb := fun m _ => Some m; push_ByteSizeLong := toy_push_size |}.
(** Its user data stand for the peer's ID. *)
Definition NitroAttest : AttestPlatform := {|
  SerializeData := fun _ => Some [];
  ParseData := fun _ => Some {| att_public_key := ex_id; att_group_config := None; att_minimum_limits := []; att_minimum_values := [] |};
  SerializeEvidence := fun _ => None; ParseEvidence := fun _ => None;
  SerializeEndorsements := fun _ => None; ParseEndorsements := fun _ => None;
  SerializeGroupConfig := fun _ => None; SerializeLimits := fun _ => None |}.
Definition nitro : Platform := OnNitro NitroExample.roots NitroExample.local_pcrs.
Definition nitro_Env : Env := platform_Env (AP := NitroAttest) (CB := IterCbor) SnpExample.roots
  (fun _ _ => (Attestation_default, OK)) (fun n len => (replicate len (Z.of_nat n + 1), OK)) nitro.
Definition manager : PeerManager := (PeerManager_Init (EV := nitro_Env) PeerManager_new).1.
Definition connecting : list PmEvent :=
  [pmTime 5000 100; pmConnect ex_id; pmRecv [] {| pm_peer_id := ex_id; pm_inner := pSynack [1] |}].
End GenuineExample.
Import GenuineExample.

Lemma genuine_peers_witness :
  exists m p, pm_run (MP := nitro_msgs) (EV := nitro_Env) manager connecting = Some m /\ map_find (peers_ m) ex_id = Some p /\
    last_attestation_ p = 5000 /\ genuine_peer (AP := NitroAttest) (CB := IterCbor) SnpExample.roots nitro ex_id p.
Proof.
  pose proof (genuine_peers (AP := NitroAttest) (CB := IterCbor) (CBL := IterCborLaws) (MP := nitro_msgs) toy_sha256_size SnpExample.roots (fun _ _ => (Attestation_default, OK))
    (fun n len => (replicate len (Z.of_nat n + 1), OK)) nitro manager connecting I eq_refl ltac:(repeat constructor)) as H.
  fold nitro_Env in H.
  assert (E : option_map (fun m => option_map (fun p => (InternalCurrentState p, last_attestation_ p)) (map_find (peers_ m) ex_id))
    (pm_run (MP := nitro_msgs) (EV := nitro_Env) manager connecting) = Some (Some (PEER_CONNECTED, 5000))) by (vm_compute; reflexivity).
  destruct (pm_run (MP := nitro_msgs) (EV := nitro_Env) manager connecting) as [m|]; [|discriminate E].
  destruct H as [Hc _]. cbn [option_map] in E. destruct (map_find (peers_ m) ex_id) as [p|] eqn:Ef; [|discriminate E].
  injection E as E1 E2. exists m, p. split; [reflexivity|]. split; [exact Ef|]. split; [exact E2|exact (Hc ex_id p Ef E1)].
Defined.
