(* ===== verification/Web.v ===== *)
(** * The host's web interface (host/web/handlers, host/web/middleware,
      host/rate, host/health)

    HTTP handlers that check credentials and rates and shunt messages between
    clients and the enclave.  A handler is a tree of commands, with a
    continuation for every answer of the network, the limiter and the
    dispatcher. *)
From Stdlib Require Import Strings.String.
From stdpp Require Import prelude gmap.
From S2P Require Import Prelude Errors Containers Util RaftTypes PeerId Minimums GroupClock Msgs Attest HostAuth HostProg PeerDb.

(** ** Commands *)

(** A [websocket.CloseError] with its code, or another error. *)
Inductive WsError := WsClose (code : Z) | WsOther.
(** What [redis_rate]'s [Allow] returns. *)
Inductive AllowResult := AllowRes (allowed retry_after : Z) | AllowCanceled | AllowFailed.

Inductive WebCmd :=
  | Transaction (req : HostToEnclaveRequest)            (* SendTransaction; None is an error *)
  | Upgrade                                             (* or the status that the upgrader answers *)
  | WriteBinary (data : bytes)
  | WriteClose (code : Z) (text : option Error)
  | ReadMessage                                         (* the bytes, nil or an error *)
  | Allow (key : bytes)
  | SetHostLevel (level : Z)
  | WriteHeader (status : Z)
  | Write (data : bytes).
Definition web_reply (c : WebCmd) : Type :=
  match c with
  | Transaction _ => option HostToEnclaveResponseInner
  | Upgrade => option Z
  | WriteBinary _ => bool
  | WriteClose _ _ => bool
  | ReadMessage => option bytes + WsError
  | Allow _ => AllowResult
  | SetHostLevel _ => unit
  | WriteHeader _ => unit
  | Write _ => bool
  end.
Inductive Web (A : Type) :=
  | WRet (a : A)
  | WDo (c : WebCmd) (k : web_reply c -> Web A).
Arguments WRet {A} a.
Arguments WDo {A} c k.
Fixpoint web_bind {A B} (f : A -> Web B) (p : Web A) : Web B :=
  match p with WRet a => f a | WDo c k => WDo c (fun r => web_bind f (k r)) end.
#[export] Instance Web_ret : MRet Web := fun A a => WRet a.
#[export] Instance Web_bind : MBind Web := fun A B f p => web_bind f p.
Definition web (c : WebCmd) : Web (web_reply c) := WDo c WRet.

(** ** [http.Request] and responses *)
Record Request := {
  r_Method : bytes;
  r_Path : bytes;
  BasicAuth : option (bytes * bytes);
  mediaType : option bytes;               (* of Content-Type, when it parses *)
  r_Body : option bytes;                  (* [None]: reading it fails *)
  PostForm : option (list (bytes * bytes)) }. (* [None]: it does not parse *)
(** Without credentials user and password are empty. *)
Definition user_of (r : Request) : bytes := default [] (fst <$> BasicAuth r).
Definition pass_of (r : Request) : bytes := default [] (snd <$> BasicAuth r).

Definition StatusOK : Z := 200.
Definition StatusBadRequest : Z := 400.
Definition StatusUnauthorized : Z := 401.
Definition StatusNotFound : Z := 404.
Definition StatusMethodNotAllowed : Z := 405.
Definition StatusTooManyRequests : Z := 429.
Definition StatusInternalServerError : Z := 500.
(** [http.Error] and [http.NotFound] write a header and a text. *)
Definition http_Error (status : Z) : Web unit := _ ← web (WriteHeader status); _ ← web (Write []); mret tt.

Definition untagged (inner : HostToEnclaveRequestInner) : HostToEnclaveRequest := {| h2e_request_id := 0; h2e_inner := inner |}.

(** ** handlers.go *)

(** Errors of the handlers: of the enclave, a closed websocket, or others. *)
Inductive HandlerErr := HEnclave (e : Error) | HClosed (code : Z) | HOther.

Definition responseErr (r : HostToEnclaveResponseInner) : option HandlerErr :=
  match r with oStatus e => if is_ok e then None else Some (HEnclave e) | _ => None end.

(** ** websocket.go *)
Definition maxReadLimit : Z := 1024 * 128.
Definition WSNormal : Z := 1000.
Definition WSBadArgs : Z := 4003.
Definition WSInternalError : Z := 4013.
Definition WSUnavailable : Z := 4014.

Definition closeMessage (err : option HandlerErr) : Z * option Error :=
  match err with
  | None => (WSNormal, None)
  | Some (HEnclave e) =>
      (match e with
       | DB2_ClientDataSize | DB2_ClientPinSize | DB2_ClientTriesTooHigh | DB2_ClientTriesZero => WSBadArgs
       | Client_EncryptSerialize | Client_TransactionInvalid | Client_CopyDHState | Client_AlreadyClosed => WSInternalError
       | Client_TransactionCancelled | Core_LeaderUnknown => WSUnavailable
       | _ => if (error_code Client_NS <? error_code e) && (error_code e <? error_code Client_NS + 100) then WSBadArgs else WSInternalError
       end, Some e)
  | Some _ => (WSInternalError, None)
  end.

Section websocket.
(** Of [HandshakeStart]; [None] is an error. *)
Context (MarshalHandshake : ClientHandshakeStart -> option bytes).

(** The loop of [handleClientWebsocket]: at most [n] messages of the client;
    [None] when there were more. *)
Fixpoint shunt_loop (n : nat) (clientID : Z) : Web (option (option HandlerErr)) :=
  match n with
  | O => mret None
  | S n' =>
      r ← web ReadMessage;
      match r with
      | inr (WsClose code) => mret (Some (Some (HClosed code)))
      | inr WsOther => mret (Some (Some HOther))
      | inl None => mret (Some None)
      | inl (Some bs) =>
          reply ← web (Transaction (untagged (hExistingClient clientID bs)));
          match reply with
          | None => mret (Some (Some HOther))
          | Some reply =>
              match responseErr reply with
              | Some e => mret (Some (Some e))
              | None =>
                  match reply with
                  | oExistingClientReply data fin =>
                      ok ← (if 0 <? Zlen data then web (WriteBinary data) else mret true);
                      if negb ok then mret (Some (Some HOther)) else
                      if (fin : bool) then mret (Some None) else shunt_loop n' clientID
                  | _ => mret (Some (Some HOther))
                  end
              end
          end
      end
  end.

(** [defer] sends [CloseClient] on every return once there is a client. *)
Definition handleClientWebsocket (n : nat) (authID : bytes) : Web (option (option HandlerErr)) :=
  response ← web (Transaction (untagged (hNewClient authID)));
  match response with
  | Some (oNewClientReply clientID handshake_start) =>
      err ← match MarshalHandshake handshake_start with
            | None => mret (Some (Some HOther))
            | Some bs =>
                ok ← web (WriteBinary bs);
                if negb ok then mret (Some (Some HOther)) else shunt_loop n clientID
            end;
      match err with
      | None => mret None
      | Some e => _ ← web (Transaction (untagged (hCloseClient clientID))); mret (Some e)
      end
  | _ => mret (Some (Some HOther))
  end.

Definition websocketHandler (n : nat) (r : Request) : Web (option unit) :=
  match DecodeString (user_of r) with
  | None => _ ← http_Error StatusBadRequest; mret (Some tt)
  | Some authID =>
      if negb (Zlen authID =? 16) then _ ← http_Error StatusBadRequest; mret (Some tt) else
      up ← web Upgrade;
      match up with
      | Some _ => mret (Some tt)
      | None =>
          err ← handleClientWebsocket n authID;
          match err with
          | None => mret None
          | Some (Some (HClosed _)) => mret (Some tt)
          | Some err => let '(code, text) := closeMessage err in _ ← web (WriteClose code text); mret (Some tt)
          end
      end
  end.
End websocket.

(** ** delete_backup.go *)
Section delete.
(** The protobuf of [Request{Delete: DeleteRequest{}}]. *)
Context (marshalled_delete : option bytes).
Definition deleteBackupHandler (r : Request) : Web unit :=
  if negb (bool_decide (r_Method r = str "DELETE")) then http_Error StatusMethodNotAllowed else
  match DecodeString (user_of r) with
  | None => http_Error StatusBadRequest
  | Some authID =>
      if negb (Zlen authID =? 16) then http_Error StatusBadRequest else
      match marshalled_delete with
      | None => http_Error StatusInternalServerError
      | Some marshalled =>
          resp ← web (Transaction (untagged (hDatabaseRequest authID marshalled)));
          match resp with
          | None => http_Error StatusInternalServerError
          | Some resp =>
              match responseErr resp with
              | Some _ => http_Error StatusInternalServerError
              | None => _ ← web (WriteHeader StatusOK); mret tt
              end
          end
      end
  end.
End delete.

(** ** control.go *)
Section control.
Context (UnmarshalRequest : bytes -> option HostToEnclaveRequest) (MarshalResponse : HostToEnclaveResponseInner -> option bytes).
Definition controlHandler (r : Request) : Web unit :=
  if negb (bool_decide (r_Method r = str "PUT")) then http_Error StatusNotFound else
  if negb (bool_decide (mediaType r = Some (str "application/json"))) then http_Error StatusBadRequest else
  match r_Body r with
  | None => http_Error StatusInternalServerError
  | Some body =>
      match UnmarshalRequest body with
      | None => http_Error StatusBadRequest
      | Some req =>
          let req := if negb (h2e_request_id req =? 0) then {| req with h2e_request_id := 0 |} else req in
          resp ← web (Transaction req);
          match resp with
          | None => http_Error StatusInternalServerError
          | Some resp =>
              match responseErr resp with
              | Some _ => http_Error StatusInternalServerError
              | None =>
                  match MarshalResponse resp with
                  | None => http_Error StatusInternalServerError
                  | Some out => _ ← web (Write out); mret tt
                  end
              end
          end
      end
  end.
End control.

(** [NewPeers]: the entries of the peer database, in the order of a range over
    a map. *)
Section peers.
Context {PJ : PeerJson} (MarshalPeers : list (PeerID * PeerEntry) -> option bytes).
Definition NewPeers (p : PeerDB) : Prog (Z * bytes) :=
  peers ← List_ p;
  match peers with
  | inr _ => mret (StatusInternalServerError, [])
  | inl peers =>
      order ← call (Range (size peers));
      mret (match MarshalPeers (shuffle order (map_to_list peers)) with
            | None => (StatusInternalServerError, [])
            | Some out => (StatusOK, out)
            end)
  end.
End peers.

(** ** set_log_level.go *)

(** [strings.ToUpper], as far as its result is ASCII: besides a to z, a
    dotless i (U+0131) and a long s (U+017F) have ASCII capitals. *)
Fixpoint ToUpper (s : bytes) : bytes :=
  match s with
  | [] => []
  | c :: s1 =>
      match s1 with
      | d :: s2 =>
          if (c =? 196) && (d =? 177) then 73 :: ToUpper s2
          else if (c =? 197) && (d =? 191) then 83 :: ToUpper s2
          else (if (97 <=? c) && (c <=? 122) then c - 32 else c) :: ToUpper s1
      | [] => [if (97 <=? c) && (c <=? 122) then c - 32 else c]
      end
  end.
(** [strings.TrimSpace]: the white space of Unicode, in UTF-8. *)
Definition white_space : list bytes :=
  [[9]; [10]; [11]; [12]; [13]; [32]; [194; 133]; [194; 160]; [225; 154; 128]; [226; 128; 128]; [226; 128; 129]; [226; 128; 130];
   [226; 128; 131]; [226; 128; 132]; [226; 128; 133]; [226; 128; 134]; [226; 128; 135]; [226; 128; 136]; [226; 128; 137];
   [226; 128; 138]; [226; 128; 168]; [226; 128; 169]; [226; 128; 175]; [226; 129; 159]; [227; 128; 128]].
Fixpoint trim_left (fuel : nat) (spaces : list bytes) (s : bytes) : bytes :=
  match fuel with
  | O => s
  | S fuel' =>
      match List.find (fun w => bool_decide (take (List.length w) s = w)) spaces with
      | Some w => trim_left fuel' spaces (drop (List.length w) s)
      | None => s
      end
  end.
Definition TrimSpace (s : bytes) : bytes :=
  let s := trim_left (List.length s) white_space s in
  rev (trim_left (List.length s) (map (@rev Z) white_space) (rev s)).

Definition zap_DebugLevel : Z := -1.
Definition zap_InfoLevel : Z := 0.
Definition zap_WarnLevel : Z := 1.
Definition zap_ErrorLevel : Z := 2.

(** The first value of "level", or nothing; levels of the host and of the
    enclave. *)
Definition parseLogLevel (values : list (bytes * bytes)) : option (Z * Z) :=
  let level := default [] (snd <$> List.find (fun kv => bool_decide (kv.1 = str "level")) values) in
  if bool_decide (level = []) then None else
  let l := TrimSpace (ToUpper level) in
  if bool_decide (l = str "FATAL") then Some (zap_ErrorLevel, 1)
  else if bool_decide (l = str "ERROR") then Some (zap_ErrorLevel, 2)
  else if bool_decide (l = str "WARNING") then Some (zap_WarnLevel, 3)
  else if bool_decide (l = str "INFO") then Some (zap_InfoLevel, 4)
  else if bool_decide (l = str "DEBUG") then Some (zap_DebugLevel, 5)
  else if bool_decide (l = str "VERBOSE") then Some (zap_DebugLevel, 6)
  else if bool_decide (l = str "MAX") then Some (zap_DebugLevel, 7)
  else None.

Definition setLogLevelHandler (r : Request) : Web unit :=
  if negb (bool_decide (r_Method r = str "POST")) then http_Error StatusNotFound else
  match PostForm r with
  | None => http_Error StatusBadRequest
  | Some form =>
      match parseLogLevel form with
      | None => http_Error StatusBadRequest
      | Some (hostLevel, enclaveLevel) =>
          _ ← web (SetHostLevel hostLevel);
          resp ← web (Transaction (untagged (hSetLogLevel enclaveLevel)));
          match resp with
          | None => http_Error StatusInternalServerError
          | Some resp =>
              match responseErr resp with
              | Some _ => http_Error StatusInternalServerError
              | None => _ ← web (WriteHeader StatusOK); mret tt
              end
          end
      end
  end.

(** ** rate.go: the limiters *)
Inductive LimitErr := ErrLimitExceeded (retryAfter : Z) | ErrCanceled | ErrLimiter.
Record RateLimiter := { skip_limiting : bool; limit_prefix : bytes }.
Definition NewConfiguredLimiter (SkipLimiting : bool) (redisName : bytes) : RateLimiter :=
  {| skip_limiting := SkipLimiting; limit_prefix := redisName ++ str "::leaky_bucket" |}.
Definition redisKey (l : RateLimiter) (userKey : bytes) : bytes := limit_prefix l ++ str "::" ++ userKey.
Definition Limit (l : RateLimiter) (key : bytes) : Web (option LimitErr) :=
  if skip_limiting l then mret None else
  res ← web (Allow (redisKey l key));
  mret (match res with
        | AllowCanceled => Some ErrCanceled
        | AllowFailed => Some ErrLimiter
        | AllowRes allowed retry_after => if allowed <=? 0 then Some (ErrLimitExceeded retry_after) else None
        end).

(** ** middleware *)
Section middleware.
Context (hmac : bytes -> bytes -> bytes).

Definition AuthCheck {A} (a : auth) (refused : A) (inner : Request -> Web A) (r : Request) : Web A :=
  match Check_ hmac a (user_of r) (pass_of r) with
  | Some _ => _ ← web (WriteHeader StatusUnauthorized); mret refused
  | None => inner r
  end.

(** A limiter that cannot be reached lets requests through. *)
Definition RateLimit {A} (l : RateLimiter) (refused : A) (inner : Request -> Web A) (r : Request) : Web A :=
  err ← Limit l (user_of r);
  match err with
  | Some (ErrLimitExceeded _) => _ ← web (WriteHeader StatusTooManyRequests); mret refused
  | Some ErrCanceled => _ ← web (WriteHeader 499); mret refused
  | Some ErrLimiter | None => inner r
  end.
End middleware.

(** [Instrument]: the status that a handler answered, when it answered. *)
Record writerWrapper := { statusCode : Z; recorded : bool }.
Definition writerWrapper_new : writerWrapper := {| statusCode := 0; recorded := false |}.
Definition ww_Write (ww : writerWrapper) : writerWrapper :=
  if recorded ww then ww else {| statusCode := StatusOK; recorded := true |}.
Definition ww_WriteHeader (ww : writerWrapper) (status : Z) : writerWrapper := {| statusCode := status; recorded := true |}.
Definition ww_Hijack (ww : writerWrapper) : writerWrapper :=
  if recorded ww then ww else {| statusCode := 101; recorded := true |}.
(** The upgrader answers an error by itself, or takes the connection over. *)
Definition ww_observe (ww : writerWrapper) (c : WebCmd) : web_reply c -> writerWrapper :=
  match c with
  | WriteHeader status => fun _ => ww_WriteHeader ww status
  | Write _ => fun _ => ww_Write ww
  | Upgrade => fun r => match r with None => ww_Hijack ww | Some status => ww_WriteHeader ww status end
  | _ => fun _ => ww
  end.
Fixpoint instrumented {A} (ww : writerWrapper) (p : Web A) : Web (A * writerWrapper) :=
  match p with WRet a => WRet (a, ww) | WDo c k => WDo c (fun r => instrumented (ww_observe ww c r) (k r)) end.
(** With the status of the counter, if it is incremented. *)
Definition Instrument {A} (inner : Request -> Web A) (r : Request) : Web (A * option Z) :=
  '(a, ww) ← instrumented writerWrapper_new (inner r);
  mret (a, if recorded ww then Some (statusCode ww) else None).

(** ** The client's endpoints (host/service/service.go) *)
Section endpoints.
Context (hmac : bytes -> bytes -> bytes) (MarshalHandshake : ClientHandshakeStart -> option bytes) (marshalled_delete : option bytes).
Definition clientMux (EnclaveID : bytes) (a : auth) (l : RateLimiter) (n : nat) (r : Request) : Web (option unit * option Z) :=
  if bool_decide (r_Path r = str "/v1/" ++ EnclaveID) then
    Instrument (AuthCheck hmac a (Some tt) (RateLimit l (Some tt) (websocketHandler MarshalHandshake n))) r
  else if bool_decide (r_Path r = str "/v1/delete") then
    Instrument (AuthCheck hmac a (Some tt) (RateLimit l (Some tt) (fun r => _ ← deleteBackupHandler marshalled_delete r; mret (Some tt)))) r
  else _ ← http_Error StatusNotFound; mret (Some tt, None).
End endpoints.

(** ** health.go *)
Record Health := { h_err : option bytes }.
Definition Health_New (initial : option bytes) : Health := {| h_err := initial |}.
Definition Health_Set (h : Health) (err : option bytes) : Health := {| h_err := err |}.
Definition Health_ServeHTTP (h : Health) : Web unit :=
  match h_err h with
  | None => _ ← web (Write (str "ok")); mret tt
  | Some e => _ ← web (WriteHeader StatusInternalServerError); _ ← web (Write (str "error: " ++ e)); mret tt
  end.
