(* ===== verification/WebProps.v ===== *)
(** * Properties of the web interface

    What a handler may do is judged command by command, knowing what went
    before ([wp]): requests that reach the enclave carry the identifier of a
    valid credential, and a session shunts its client's messages only. *)
From Stdlib Require Import Strings.String.
From stdpp Require Import prelude gmap.
From S2P Require Import Prelude Errors Containers Util RaftTypes PeerId Minimums GroupClock Msgs Attest HostAuth HostProg PeerDb Web.

(** ** Runs *)
Definition Ev : Type := { c : WebCmd & web_reply c }.
Definition ev (c : WebCmd) (r : web_reply c) : Ev := existT c r.

(** What a handler does, and what remains of it. *)
Inductive reaches {A} : Web A -> list Ev -> Web A -> Prop :=
  | reaches_nil p : reaches p [] p
  | reaches_do c k r evs q : reaches (k r) evs q -> reaches (WDo c k) (ev c r :: evs) q.

(** The run with the answers of an environment. *)
Fixpoint drive {A} (o : nat -> forall c, web_reply c) (i : nat) (p : Web A) : list Ev * A :=
  match p with
  | WRet a => ([], a)
  | WDo c k => let r := o i c in let '(evs, a) := drive o (S i) (k r) in (ev c r :: evs, a)
  end.
Lemma drive_reaches {A} o i (p : Web A) : reaches p (drive o i p).1 (WRet (drive o i p).2).
Proof.
  revert i. induction p as [a|c k IH]; intros i; cbn; [apply reaches_nil|].
  specialize (IH (o i c) (S i)). destruct (drive o (S i) (k (o i c))) as [evs a]. by apply reaches_do.
Qed.

(** Every command is allowed after what went before, and what is returned
    meets the postcondition. *)
Fixpoint wp {A} (P : list Ev -> WebCmd -> Prop) (p : Web A) (past : list Ev) (Q : list Ev -> A -> Prop) : Prop :=
  match p with
  | WRet a => Q past a
  | WDo c k => P past c /\ forall r, wp P (k r) (past ++ [ev c r]) Q
  end.

Section wp.
Context (P : list Ev -> WebCmd -> Prop).
Lemma web_wp_bind {A B} (p : Web A) (f : A -> Web B) past Q :
  wp P p past (fun past' a => wp P (f a) past' Q) -> wp P (p ≫= f) past Q.
Proof.
  revert past. induction p as [a|c k IH]; intros past; [done|]. cbn. intros [Hc Hk]. split; [done|].
  intros r. by apply IH.
Qed.
Lemma web_wp_mono {A} (p : Web A) past (Q Q' : list Ev -> A -> Prop) :
  (forall past' a, Q past' a -> Q' past' a) -> wp P p past Q -> wp P p past Q'.
Proof. intros HQ. revert past. induction p as [a|c k IH]; intros past; cbn; [auto|]. intros [Hc Hk]. split; [done|]. intros r. by apply IH. Qed.

Lemma wp_sound {A} (p : Web A) past Q evs q : wp P p past Q -> reaches p evs q ->
  (forall pre c r post, evs = pre ++ ev c r :: post -> P (past ++ pre) c) /\ wp P q (past ++ evs) Q.
Proof.
  intros Hw Hr. revert past Hw. induction Hr as [p|c k r evs q Hr IH]; intros past Hw.
  - rewrite app_nil_r. split; [|done]. intros [|? pre] c r post H; discriminate H.
  - destruct Hw as [Hc Hk]. destruct (IH _ (Hk r)) as [H1 H2]. rewrite <- app_assoc in H2. split; [|done].
    intros [|e pre] c' r' post [= E1 E2].
    + rewrite app_nil_r. congruence.
    + specialize (H1 _ _ _ _ E2). rewrite <- app_assoc in H1. cbn in H1. by rewrite <-E1.
Qed.
End wp.

(** ** What a run asked of the enclave, read and wrote *)
Definition transactions (evs : list Ev) : list HostToEnclaveRequest :=
  omap (fun e : Ev => match projT1 e with Transaction req => Some req | _ => None end) evs.
Definition messages_read (evs : list Ev) : list bytes :=
  omap (fun e : Ev => match e with existT ReadMessage (inl (Some bs)) => Some bs | _ => None end) evs.
Definition messages_written (evs : list Ev) : list bytes :=
  omap (fun e : Ev => match projT1 e with WriteBinary d => Some d | _ => None end) evs.
(** The data of the enclave's replies to messages. *)
Definition replies (evs : list Ev) : list bytes :=
  omap (fun e : Ev =>
    match e with
    | existT (Transaction {| h2e_inner := hExistingClient _ _ |}) (Some (oExistingClientReply d _)) => if 0 <? Zlen d then Some d else None
    | _ => None
    end) evs.

Section session.
Context (MarshalHandshake : ClientHandshakeStart -> option bytes).

(** The state of a session with a client, between two messages. *)
Definition opened (authID : bytes) (clientID : Z) (start : ClientHandshakeStart) (evs : list Ev) : Prop :=
  head evs = Some (ev (Transaction (untagged (hNewClient authID))) (Some (oNewClientReply clientID start))).
Record shunted (authID : bytes) (clientID : Z) (hs : bytes) (evs : list Ev) : Prop := {
  sh_open : exists start, opened authID clientID start evs /\ MarshalHandshake start = Some hs;
  sh_asked : transactions evs = untagged (hNewClient authID) :: (untagged ∘ hExistingClient clientID <$> messages_read evs);
  sh_wrote : messages_written evs = hs :: replies evs }.

Lemma transactions_app a b : transactions (a ++ b) = transactions a ++ transactions b.
Proof. apply omap_app. Qed.
Lemma messages_read_app a b : messages_read (a ++ b) = messages_read a ++ messages_read b.
Proof. apply omap_app. Qed.
Lemma messages_written_app a b : messages_written (a ++ b) = messages_written a ++ messages_written b.
Proof. apply omap_app. Qed.
Lemma replies_app a b : replies (a ++ b) = replies a ++ replies b.
Proof. apply omap_app. Qed.

Definition any : list Ev -> WebCmd -> Prop := fun _ _ => True.

Lemma opened_app authID c start evs evs' : opened authID c start evs -> opened authID c start (evs ++ evs').
Proof. unfold opened. by destruct evs. Qed.

(** What adds a message, its request, its reply and what is written of it. *)
Lemma shunted_step authID clientID hs evs new : shunted authID clientID hs evs ->
  transactions new = (untagged ∘ hExistingClient clientID <$> messages_read new) -> messages_written new = replies new ->
  shunted authID clientID hs (evs ++ new).
Proof.
  intros [(st & Ho & Hm) H1 H2] N1 N2. split.
  - exists st. split; [by apply opened_app|done].
  - by rewrite transactions_app, messages_read_app, fmap_app, H1, N1.
  - by rewrite messages_written_app, replies_app, H2, N2.
Qed.

Lemma shunt_loop_spec n authID clientID hs past : shunted authID clientID hs past ->
  wp any (shunt_loop n clientID) past (fun past' _ => shunted authID clientID hs past').
Proof.
  revert past. induction n as [|n IH]; intros past Hs; [done|]. cbn [shunt_loop]. apply web_wp_bind. cbn [wp web]. split; [done|].
  intros [[bs|]|[code|]]; cbn [wp mret Web_ret]; try (by apply shunted_step).
  apply web_wp_bind. cbn [wp web]. split; [done|]. intros reply. rewrite <- app_assoc.
  destruct reply as [[e|s|c st|d fin| |h]|]; cbn [responseErr wp mret Web_ret]; try (by apply shunted_step).
  - destruct (is_ok e); by apply shunted_step.
  - apply web_wp_bind. destruct (0 <? Zlen d) eqn:Ed; cbn [wp web mret Web_ret].
    + split; [done|]. intros ok. rewrite <- app_assoc.
      assert (shunted authID clientID hs (past ++ ([ev ReadMessage (inl (Some bs))] ++
        [ev (Transaction (untagged (hExistingClient clientID bs))) (Some (oExistingClientReply d fin))]) ++ [ev (WriteBinary d) ok])) as Hs'.
      { apply shunted_step; [done..|]. unfold replies. cbn. by rewrite Ed. }
      destruct ok, fin; cbn [negb wp mret Web_ret]; auto.
    + assert (shunted authID clientID hs (past ++ [ev ReadMessage (inl (Some bs))] ++
        [ev (Transaction (untagged (hExistingClient clientID bs))) (Some (oExistingClientReply d fin))])) as Hs'.
      { apply shunted_step; [done..|]. unfold replies. cbn. by rewrite Ed. }
      destruct fin; cbn [negb wp mret Web_ret]; auto.
Qed.

(** The requests and messages of a session that returned [r]. *)
Definition session (authID : bytes) (evs : list Ev) (r : option (option HandlerErr)) : Prop :=
  transactions evs = [untagged (hNewClient authID)] /\ messages_read evs = [] /\ messages_written evs = [] \/
  exists clientID start, opened authID clientID start evs /\
    transactions evs = untagged (hNewClient authID) :: (untagged ∘ hExistingClient clientID <$> messages_read evs) ++
                       (if r is Some _ then [untagged (hCloseClient clientID)] else []) /\
    messages_written evs = match MarshalHandshake start with None => [] | Some hs => hs :: replies evs end.

Lemma session_running authID clientID hs evs : shunted authID clientID hs evs -> session authID evs None.
Proof.
  intros [(st & Ho & Hm) H1 H2]. right. exists clientID, st. split; [done|]. rewrite app_nil_r, Hm. done.
Qed.
Lemma session_closed authID clientID hs evs r e : shunted authID clientID hs evs ->
  session authID (evs ++ [ev (Transaction (untagged (hCloseClient clientID))) r]) (Some e).
Proof.
  intros [(st & Ho & Hm) H1 H2]. right. exists clientID, st. split; [by apply opened_app|].
  rewrite Hm, transactions_app, messages_read_app, messages_written_app, replies_app, H1, H2. cbn. by rewrite !app_nil_r.
Qed.

End session.

(** ** Who may ask the enclave what *)
Section requests.
Context (hmac : bytes -> bytes -> bytes) (hmac_bytes : forall k m, bytes_ok (hmac k m)).
Context (MarshalHandshake : ClientHandshakeStart -> option bytes) (marshalled_delete : option bytes).
Implicit Types (l : RateLimiter) (r : Request) (past : list Ev).

(** A client that the enclave made for this user, in this session. *)
Definition client_of (authID : bytes) past (clientID : Z) : Prop :=
  exists start, ev (Transaction (untagged (hNewClient authID))) (Some (oNewClientReply clientID start)) ∈ past.
Definition may_ask (authID : bytes) past (req : HostToEnclaveRequest) : Prop :=
  h2e_request_id req = 0 /\
  match h2e_inner req with
  | hNewClient id => id = authID
  | hDatabaseRequest id m => id = authID /\ marshalled_delete = Some m
  | hExistingClient c d => client_of authID past c /\ ev ReadMessage (inl (Some d)) ∈ past
  | hCloseClient c => client_of authID past c
  | _ => False
  end.
(** The limiter allowed the request, or could not be asked. *)
Definition let_through l r past : Prop :=
  skip_limiting l = true \/ exists res, ev (Allow (redisKey l (user_of r))) res ∈ past /\
    (res = AllowFailed \/ exists allowed retry, res = AllowRes allowed retry /\ 0 < allowed).
Definition user_may (a : auth) l r past (c : WebCmd) : Prop :=
  match c with
  | Transaction req => Check_ hmac a (user_of r) (pass_of r) = None /\ let_through l r past /\
      exists authID, DecodeString (user_of r) = Some authID /\ Zlen authID = 16 /\ may_ask authID past req
  | _ => True
  end.

(** A user that was checked and let through. *)
Record passed (a : auth) l r (authID : bytes) past : Prop := {
  ps_check : Check_ hmac a (user_of r) (pass_of r) = None;
  ps_limit : let_through l r past;
  ps_id : DecodeString (user_of r) = Some authID;
  ps_size : Zlen authID = 16 }.
Lemma let_through_app l r past new : let_through l r past -> let_through l r (past ++ new).
Proof. intros [|(res & Hin & ?)]; [by left|]. right. exists res. split; [|done]. apply elem_of_app. by left. Qed.
Lemma client_of_app authID past c new : client_of authID past c -> client_of authID (past ++ new) c.
Proof. intros [st Hin]. exists st. apply elem_of_app. by left. Qed.
Lemma passed_app a l r authID past new : passed a l r authID past -> passed a l r authID (past ++ new).
Proof. intros []. split; [done| |done..]. by apply let_through_app. Qed.
Lemma passed_may a l r authID past req : passed a l r authID past -> may_ask authID past req -> user_may a l r past (Transaction req).
Proof. intros [] Hm. cbn. eauto 10. Qed.

Definition anything {A} : list Ev -> A -> Prop := fun _ _ => True.
Ltac wstep := apply web_wp_bind; cbn [wp web mret Web_ret]; split; [try exact I|]; try intros ?.

Lemma http_Error_wp a l r past (status : Z) (Q : list Ev -> unit -> Prop) : (forall past', Q past' tt) -> wp (user_may a l r) (http_Error status) past Q.
Proof. intros HQ. unfold http_Error. wstep. wstep. apply HQ. Qed.

Lemma shunt_loop_may a l r authID n c past : passed a l r authID past -> client_of authID past c ->
  wp (user_may a l r) (shunt_loop n c) past (fun past' _ => passed a l r authID past' /\ client_of authID past' c).
Proof.
  revert past. induction n as [|n IH]; intros past Hp Hc; [done|]. cbn [shunt_loop]. wstep.
  rename r0 into m. set (past1 := past ++ _). assert (passed a l r authID past1 /\ client_of authID past1 c) as [Hp1 Hc1]
    by eauto using passed_app, client_of_app.
  destruct m as [[bs|]|[code|]]; try done. apply web_wp_bind. cbn [wp web]. split.
  { apply (passed_may a l r authID); [done|]. split; [done|]. split; [done|]. apply elem_of_app. right. by apply list_elem_of_singleton. }
  intros reply. set (past2 := past1 ++ _). assert (passed a l r authID past2 /\ client_of authID past2 c) as [Hp2 Hc2]
    by eauto using passed_app, client_of_app. clearbody past2. clear past1 Hp1 Hc1.
  destruct reply as [[e|s|c' st|d fin| |h]|]; try done.
  - cbn [responseErr]. by destruct (is_ok e).
  - cbn [responseErr]. apply web_wp_bind. destruct (0 <? Zlen d); cbn [wp web mret Web_ret].
    + split; [exact I|]. intros ok. assert (forall e, passed a l r authID (past2 ++ e) /\ client_of authID (past2 ++ e) c) as Hx
        by eauto using passed_app, client_of_app. destruct ok; [|apply Hx]. destruct fin; [apply Hx|]. apply IH; apply Hx.
    + by destruct fin; [|apply IH].
Qed.

Lemma handleClientWebsocket_may a l r authID n past : passed a l r authID past ->
  wp (user_may a l r) (handleClientWebsocket MarshalHandshake n authID) past anything.
Proof.
  intros Hp. unfold handleClientWebsocket. apply web_wp_bind. cbn [wp web]. split; [by apply (passed_may a l r authID)|].
  intros response. set (past1 := past ++ _). assert (passed a l r authID past1) as Hp1 by eauto using passed_app.
  destruct response as [[e|s|c st|d fin| |h]|]; try exact I.
  assert (client_of authID past1 c) as Hc. { exists st. apply elem_of_app. right. by apply list_elem_of_singleton. }
  clearbody past1. apply web_wp_bind.
  apply (web_wp_mono _ _ _ (fun past' _ => passed a l r authID past' /\ client_of authID past' c)).
  - intros past2 [e|] [Hp2 Hc2]; [|exact I]. apply web_wp_bind. cbn [wp web]. split; [by apply (passed_may a l r authID)|]. done.
  - destruct (MarshalHandshake st) as [bs|]; [|done]. wstep. assert (forall e, passed a l r authID (past1 ++ e) /\ client_of authID (past1 ++ e) c) as Hx
      by eauto using passed_app, client_of_app. destruct r0; [|apply Hx]. apply shunt_loop_may; apply Hx.
Qed.

Lemma websocketHandler_may a l r n past : Check_ hmac a (user_of r) (pass_of r) = None -> let_through l r past ->
  wp (user_may a l r) (websocketHandler MarshalHandshake n r) past anything.
Proof.
  intros Hc Hl. unfold websocketHandler.
  destruct (DecodeString (user_of r)) as [authID|] eqn:Ed; [|by apply web_wp_bind, http_Error_wp].
  destruct (Zlen authID =? 16) eqn:Es; cbn [negb]; [|by apply web_wp_bind, http_Error_wp]. zbool.
  wstep. destruct r0 as [status|]; [exact I|]. apply web_wp_bind. eapply web_wp_mono; [|apply (handleClientWebsocket_may a l r authID)].
  - intros past' [[[e|code|]|]|] _; try exact I; cbv iota beta zeta; try (destruct (closeMessage _)); by wstep.
  - split; [done| |done..]. by apply let_through_app.
Qed.
Lemma deleteBackupHandler_may a l r past : Check_ hmac a (user_of r) (pass_of r) = None -> let_through l r past ->
  wp (user_may a l r) (deleteBackupHandler marshalled_delete r) past anything.
Proof.
  intros Hc Hl. unfold deleteBackupHandler. destruct (negb _); [by apply http_Error_wp|].
  destruct (DecodeString (user_of r)) as [authID|] eqn:Ed; [|by apply http_Error_wp].
  destruct (Zlen authID =? 16) eqn:Es; cbn [negb]; [|by apply http_Error_wp]. zbool.
  destruct marshalled_delete as [m|] eqn:Em; [|by apply http_Error_wp]. apply web_wp_bind. cbn [wp web]. split.
  - cbn. split; [done|]. split; [done|]. exists authID. split_and!; [done..|]. split; [done|]. cbn. done.
  - intros resp. destruct resp as [resp|]; [|by apply http_Error_wp]. destruct (responseErr resp); [by apply http_Error_wp|]. by wstep.
Qed.

Lemma middleware_may {A} a l r (refused : A) inner past :
  (forall past', Check_ hmac a (user_of r) (pass_of r) = None -> let_through l r past' -> wp (user_may a l r) (inner r) past' anything) ->
  wp (user_may a l r) (AuthCheck hmac a refused (RateLimit l refused inner) r) past anything.
Proof.
  intros Hi. unfold AuthCheck. destruct (Check_ hmac a (user_of r) (pass_of r)) eqn:Hc; [by wstep|].
  unfold RateLimit, Limit. destruct (skip_limiting l) eqn:Hs; [apply Hi; [done|by left]|].
  apply web_wp_bind. wstep. assert (forall res, (res = AllowFailed \/ exists n t, res = AllowRes n t /\ 0 < n) ->
    let_through l r (past ++ [ev (Allow (redisKey l (user_of r))) res])) as Hl.
  { intros res Hres. right. exists res. split; [|done]. apply elem_of_app. right. by apply list_elem_of_singleton. }
  destruct r0 as [n t| |]; cbn [wp]; [|by wstep|apply Hi; auto].
  destruct (n <=? 0) eqn:En; cbn; zbool; [done|]. apply Hi; [done|]. apply Hl. right. eauto with lia.
Qed.

(** Observing the status does not change what a handler does. *)
Lemma instrumented_may {A} (P : list Ev -> WebCmd -> Prop) (p : Web A) ww past : wp P p past anything -> wp P (instrumented ww p) past anything.
Proof.
  revert ww past. induction p as [x|c k IH]; intros ww past; [done|]. cbn. intros [Hc Hk]. split; [done|]. intros r. by apply IH.
Qed.
Lemma Instrument_may {A} (P : list Ev -> WebCmd -> Prop) (inner : Request -> Web A) r past : wp P (inner r) past anything ->
  wp P (Instrument inner r) past anything.
Proof. intros Hi. unfold Instrument. apply web_wp_bind. eapply web_wp_mono; [|by apply instrumented_may]. by intros past' [x ww] _. Qed.

Lemma clientMux_may EnclaveID a l n r : wp (user_may a l r) (clientMux hmac MarshalHandshake marshalled_delete EnclaveID a l n r) [] anything.
Proof.
  unfold clientMux. destruct (bool_decide (r_Path r = _)).
  { apply Instrument_may, middleware_may. intros past' Hc Hl. by apply websocketHandler_may. }
  destruct (bool_decide (r_Path r = _)); [|by apply web_wp_bind, http_Error_wp].
  apply Instrument_may, middleware_may. intros past' Hc Hl. apply web_wp_bind. eapply web_wp_mono; [|by apply deleteBackupHandler_may]. done.
Qed.

(** C12: A request of a client reaches the enclave only with a password whose
    time is within the expiration of thirty days and whose signature is the
    truncated HMAC, under the host's secret, of the user's name and that time;
    and only once the rate limiter let it through or could not be asked.  The
    name is the identifier, of 16 bytes, that the request carries: it creates a
    client for it, deletes its backup, or passes a message the client sent to,
    or closes, a client that the enclave made for it in this session.  If the
    password is one that was issued, it was issued to this user, or the two
    names have the same truncated HMAC. *)
Theorem client_requests_authenticated EnclaveID key now l n r evs q :
  let a := HostAuth.New key now in
  reaches (clientMux hmac MarshalHandshake marshalled_delete EnclaveID a l n r) evs q ->
  forall pre req rep post, evs = pre ++ ev (Transaction req) rep :: post ->
    let_through l r pre /\
    (exists ts authID, parsePass (pass_of r) = inl (ts, take 10 (hmac key (mac_input (user_of r) ts))) /\
       - (Second * authenticationTokenMaxAgeSeconds) <= now - ts * Second <= Second * authenticationTokenMaxAgeSeconds /\
       DecodeString (user_of r) = Some authID /\ Zlen authID = 16 /\ may_ask authID pre req) /\
    (forall issuer issued_to, is_int64 (clock issuer / Second) -> secret issuer = key -> pass_of r = PassFor hmac issuer issued_to ->
       user_of r = issued_to \/ same_mac hmac key (clock issuer / Second) issued_to (user_of r)).
Proof.
  intros a Hr pre req rep post Hevs.
  destruct (wp_sound _ _ [] anything evs q (clientMux_may EnclaveID a l n r) Hr) as [Hall _].
  destruct (Hall _ _ _ _ Hevs) as (Hc & Hl & authID & Hd & Hn & Hm).
  assert (0 <= expiration a < 2 ^ 63 - 1) as He by (vm_compute; split; [discriminate|reflexivity]).
  split; [done|]. split.
  - destruct (proj1 (Check_accepts hmac a _ _ He) Hc) as (ts & sig & Hp & Hw & ->). exists ts, authID. done.
  - intros issuer issued_to Ht <- Hpass. rewrite Hpass in Hc.
    by destruct (credential_binds_user hmac hmac_bytes issuer a issued_to (user_of r) Ht eq_refl He Hc) as [_ ?].
Qed.
End requests.

(** ** Close codes and log levels *)

(** Clients are told to retry for two errors only, and to mend their request
    for four errors of the database and for those of the client's range that
    are not the enclave's fault. *)
Lemma closeMessage_retry err : (closeMessage err).1 = WSUnavailable <->
  err = Some (HEnclave Client_TransactionCancelled) \/ err = Some (HEnclave Core_LeaderUnknown).
Proof.
  split; [|by intros [-> | ->]]. destruct err as [[e|code|]|]; try done.
  destruct e; cbn; try done; auto.
Qed.
(** Of the third version's errors in a client's arguments no client is told. *)
Lemma closeMessage_arguments : map (fun e => (closeMessage (Some (HEnclave e))).1)
    [DB2_ClientPinSize; DB2_ClientDataSize; DB2_ClientRequestCase; DB3_MaxTriesOutOfRange; DB3_BlindedElementSize; DB3_ToplevelRequestType] =
  [WSBadArgs; WSBadArgs; WSInternalError; WSInternalError; WSInternalError; WSInternalError].
Proof. reflexivity. Qed.

(** The level that the enclave refuses is accepted; case and space do not
    matter. *)
Lemma parseLogLevel_examples :
  parseLogLevel [(str "level", str "max")] = Some (zap_DebugLevel, 7) /\
  parseLogLevel [(str "x", str "info"); (str "level", str " Info" ++ [194; 160])] = Some (zap_InfoLevel, 4) /\
  parseLogLevel [(str "level", [])] = None /\ parseLogLevel [] = None.
Proof. vm_compute. repeat split. Qed.

(** The host's level is set before the enclave is asked, and stays set when
    the enclave refuses. *)
Lemma log_level_kept_on_error r form h e : r_Method r = str "POST" -> PostForm r = Some form -> parseLogLevel form = Some (h, e) ->
  reaches (setLogLevelHandler r)
    [ev (SetHostLevel h) tt; ev (Transaction (untagged (hSetLogLevel e))) (Some (oStatus Core_InvalidLogLevel));
     ev (WriteHeader StatusInternalServerError) tt; ev (Write []) true] (WRet tt).
Proof.
  intros Hm Hf Hl. unfold setLogLevelHandler. rewrite Hm, bool_decide_eq_true_2, Hf, Hl by done. cbn [negb].
  cbn. repeat (eapply reaches_do; cbn). apply reaches_nil.
Qed.

(** ** Examples *)
Module WebExample.
Definition marshal (h : ClientHandshakeStart) : option bytes := Some (hs_evidence h).
Definition user : bytes := format_hex (replicate 16 171).
Definition request (path : bytes) : Request := {|
  r_Method := str "GET"; r_Path := path; BasicAuth := Some (user, PassFor toy_hmac (example_auth 10000) user);
  mediaType := None; r_Body := None; PostForm := None |}.
Definition limiter : RateLimiter := NewConfiguredLimiter false (str "svr2").
(** The client sends a message and then another, and closes; the second reply
    is empty. *)
Definition answers (i : nat) (c : WebCmd) : web_reply c :=
  match c with
  | Transaction req =>
      match h2e_inner req with
      | hNewClient _ => Some (oNewClientReply 7 {| test_only_pubkey := []; hs_evidence := [1]; hs_endorsement := [] |})
      | hExistingClient _ d => Some (oExistingClientReply (if bool_decide (d = [4]) then [] else [3]) false)
      | _ => Some (oStatus OK)
      end
  | Upgrade => None
  | WriteBinary _ | WriteClose _ _ | Write _ => true
  | ReadMessage => match i with 4%nat => inl (Some [2]) | 7%nat => inl (Some [4]) | _ => inr (WsClose 1000) end
  | Allow _ => AllowRes 1 0
  | SetHostLevel _ | WriteHeader _ => tt
  end.
Definition visit : list Ev * (option unit * option Z) :=
  drive answers 0 (clientMux toy_hmac marshal None (str "enc") (example_auth 90000) limiter 5 (request (str "/v1/enc"))).
Definition shunting : list Ev * option (option HandlerErr) := drive answers 2 (handleClientWebsocket marshal 5 (replicate 16 171)).
End WebExample.
Import WebExample.


Lemma client_requests_authenticated_witness :
  visit.2 = (Some tt, Some 101) /\
  let_through limiter (request (str "/v1/enc")) (take 8 visit.1) /\
  (exists ts authID, parsePass (pass_of (request (str "/v1/enc"))) = inl (ts, take 10 (toy_hmac [7] (mac_input user ts))) /\ ts = 10000 /\
     DecodeString user = Some authID /\ may_ask None authID (take 8 visit.1) (untagged (hExistingClient 7 [4]))).
Proof.
  split; [vm_compute; reflexivity|].
  destruct (client_requests_authenticated toy_hmac toy_hmac_bytes marshal None (str "enc") [7] (90000 * Second) limiter 5
    (request (str "/v1/enc")) visit.1 (WRet visit.2) (drive_reaches answers 0 _)
    (take 8 visit.1) (untagged (hExistingClient 7 [4])) (Some (oExistingClientReply [] false)) (drop 9 visit.1)) as (H1 & (ts & authID & H2 & _ & H3 & _ & H4) & _).
  - vm_compute. reflexivity.
  - split; [exact H1|]. exists ts, authID. split; [exact H2|]. split; [|split; [exact H3|exact H4]].
    vm_compute in H2. injection H2 as H2. symmetry. exact H2.
Defined.
