(* ===== verification/Metrics.v ===== *)
(** * Metrics (enclave/metrics/metrics.cc, host/dispatch/metrics.go)

    The enclave counts; the host polls the counters and passes on by how much
    each grew since the last poll. *)
From Stdlib Require Import Strings.String.
From stdpp Require Import prelude gmap.
From S2P Require Import Prelude Errors Containers Util RaftTypes PeerId Minimums GroupClock Msgs Attest HostAuth HostWire.

(** ** metrics.proto *)
Record U64PB := { m_name : bytes; m_v : Z; m_tags : gmap bytes bytes }.
Record MetricsPB := { pb_gauges : list U64PB; pb_counters : list U64PB }.

(** ** The enclave: 64-bit atomics *)
Record Counter := { ctr_v : Z; ctr_name : bytes; ctr_tags : gmap bytes bytes }.
Definition IncrementBy (c : Counter) (v : Z) : Counter := {| c with ctr_v := ctr_v c ⊕ v |}.
Definition Increment (c : Counter) : Counter := IncrementBy c 1.
Definition Decrement (c : Counter) : Counter := IncrementBy c (u64 (-1)).
Definition Counter_AddToMetrics (c : Counter) : U64PB := {| m_name := ctr_name c; m_v := ctr_v c; m_tags := ctr_tags c |}.

Record Gauge := { gauge_v : Z; gauge_name : bytes }.
Definition Gauge_new (name : bytes) : Gauge := {| gauge_v := MAX64; gauge_name := name |}.
Definition Gauge_Set (g : Gauge) (v : Z) : Gauge := {| g with gauge_v := v |}.
Definition Gauge_Clear (g : Gauge) : Gauge := {| g with gauge_v := MAX64 |}.
Definition Gauge_AddToMetrics (g : Gauge) : list U64PB :=
  if gauge_v g =? MAX64 then [] else [{| m_name := gauge_name g; m_v := gauge_v g; m_tags := ∅ |}].

(** [recorded_errors], with the names of the errors. *)
Record EnclaveMetrics := { recorded_errors : list (bytes * Z); all_counters : list Counter; all_gauges : list Gauge }.
Definition RecordError (m : EnclaveMetrics) (i : nat) : EnclaveMetrics :=
  {| m with recorded_errors := alter (fun e => (e.1, e.2 ⊕ 1)) i (recorded_errors m) |}.
Definition AllAsPB (m : EnclaveMetrics) : MetricsPB := {|
  pb_counters :=
    omap (fun e : bytes * Z => if 0 <? e.2 then Some {| m_name := str "errors"; m_v := e.2; m_tags := {[str "error" := e.1]} |} else None)
      (recorded_errors m) ++ map Counter_AddToMetrics (all_counters m);
  pb_gauges := mjoin (Gauge_AddToMetrics <$> all_gauges m) |}.
Definition ClearAllForTest (m : EnclaveMetrics) : EnclaveMetrics := {|
  recorded_errors := map (fun e => (e.1, 0)) (recorded_errors m);
  all_counters := map (fun c => {| c with ctr_v := 0 |}) (all_counters m);
  all_gauges := all_gauges m |}.

(** ** The host

    What is written, before it is rounded to a [float32]. *)
Notation Label := (bytes * bytes)%type.
Inductive MetricWrite :=
  | SetGauge (name : list bytes) (v : Z) (labels : list Label)
  | IncrCounter (name : list bytes) (v : Z) (labels : list Label).

Record metricsUpdater := { upd_counters : gmap bytes (list U64PB); baseLabels : list Label }.
Definition newMetricsUpdater : metricsUpdater := {| upd_counters := ∅; baseLabels := [] |}.

Definition findPrevCounter (m : metricsUpdater) (c : U64PB) : option U64PB :=
  match upd_counters m !! m_name c with
  | None => None
  | Some prev => List.find (fun p => bool_decide (m_tags p = m_tags c)) prev
  end.
(** The tags in some order: that of a range over a map. *)
Definition toLabels (m : metricsUpdater) (x : U64PB) : list Label := baseLabels m ++ map_to_list (m_tags x).

Definition counter_write (m : metricsUpdater) (c : U64PB) : MetricWrite :=
  IncrCounter [m_name c] (match findPrevCounter m c with None => m_v c | Some prev => int64 (m_v c ⊖ m_v prev) end) (toLabels m c).
Definition updateMetrics (m : metricsUpdater) (pb : MetricsPB) : metricsUpdater * list MetricWrite :=
  let writes := map (fun g => SetGauge [m_name g] (m_v g) (toLabels m g)) (pb_gauges pb) ++ map (counter_write m) (pb_counters pb) in
  let emptied := (fun _ => []) <$> upd_counters m in
  let counters := fold_left (fun cs c => <[m_name c := default [] (cs !! m_name c) ++ [c]]> cs) (pb_counters pb) emptied in
  ({| m with upd_counters := counters |}, writes).

Definition raftStatus (s : EnclavePeerStatus) : bytes :=
  if eps_is_leader s then str "leader" else if eps_is_voting s then str "voter" else if eps_in_raft s then str "nonvoter" else str "nonmember".
(** [PeerID.String]. *)
Definition peer_string (p : PeerID) : bytes := format_hex (take 4 p).
Definition state_number (s : PeerState) : Z := match s with PEER_DISCONNECTED => 0 | PEER_CONNECTING => 1 | PEER_CONNECTED => 2 end.

Definition my_labels (p : EnclavePeerStatus) : list Label :=
  (str "raft", raftStatus p) :: match PeerID_Make (eps_peer_id p) with inl id => [(str "myid", peer_string id)] | inr _ => [] end.
Definition peer_gauges (base : list Label) (p : EnclavePeerStatus) : list MetricWrite :=
  match PeerID_Make (eps_peer_id p) with
  | inr _ => []
  | inl id =>
      if eps_me p then [] else
      let lbls := base ++ [(str "peerid", peer_string id)] in
      let st := default {| cst_state := PEER_DISCONNECTED; cst_last_attestation_unix_secs := 0 |} (eps_connection_status p) in
      SetGauge [str "peer"; str "state"] (state_number (cst_state st)) lbls ::
      if eps_in_raft p then
        SetGauge [str "peer"; str "last_attestation_unix_secs"] (cst_last_attestation_unix_secs st) lbls ::
        match eps_replication_status p with
        | None => []
        | Some (next_index, match_index, inflight, _) =>
            [SetGauge [str "peer"; str "next_idx"] next_index lbls;
             SetGauge [str "peer"; str "match_idx"] match_index lbls;
             SetGauge [str "peer"; str "inflight_idx"] (default 0 inflight) lbls]
        end
      else []
  end.
Definition updateStatus (m : metricsUpdater) (s : EnclaveReplicaStatus) : metricsUpdater * list MetricWrite :=
  let m := match List.find eps_me (ers_peers s) with Some p => {| m with baseLabels := my_labels p |} | None => m end in
  (m, ers_peers s ≫= peer_gauges (baseLabels m)).

(** ** The increments add up *)
Definition same_counter (c p : U64PB) : bool := bool_decide (m_name p = m_name c) && bool_decide (m_tags p = m_tags c).
Definition value_in (pb : MetricsPB) (c : U64PB) : option Z := m_v <$> List.find (same_counter c) (pb_counters pb).
(** By how much the counter grows with a poll. *)
Definition increment (m : metricsUpdater) (pb : MetricsPB) (c : U64PB) : Z :=
  match List.find (same_counter c) (pb_counters pb) with
  | None => 0
  | Some p => match counter_write m p with IncrCounter _ v _ => v | SetGauge _ _ _ => 0 end
  end.
Fixpoint total (m : metricsUpdater) (pbs : list MetricsPB) (c : U64PB) : Z :=
  match pbs with [] => 0 | pb :: pbs' => increment m pb c + total (updateMetrics m pb).1 pbs' c end.

Lemma find_ext_bool {A} (f g : A -> bool) l : (forall x, f x = g x) -> List.find f l = List.find g l.
Proof. intros H. induction l as [|x l IH]; cbn; [done|]. by rewrite H, IH. Qed.
Lemma find_filter {A} (f g : A -> bool) l : List.find f (List.filter g l) = List.find (fun x => g x && f x) l.
Proof. induction l as [|x l IH]; cbn; [done|]. destruct (g x); cbn; by rewrite IH. Qed.

Lemma counters_after (cs : gmap bytes (list U64PB)) l n : default [] (fold_left (fun cs c => <[m_name c := default [] (cs !! m_name c) ++ [c]]> cs) l cs !! n) =
  default [] (cs !! n) ++ List.filter (fun p => bool_decide (m_name p = n)) l.
Proof.
  revert cs. induction l as [|c l IH]; intros cs; cbn [fold_left List.filter]; [by rewrite app_nil_r|]. rewrite IH.
  destruct (decide (m_name c = n)) as [<-|Hne].
  - rewrite lookup_insert_eq, bool_decide_eq_true_2 by done. symmetry. apply (app_assoc _ [c]).
  - by rewrite lookup_insert_ne, bool_decide_eq_false_2 by done.
Qed.
(** What is remembered is the last poll. *)
Lemma findPrevCounter_last m pb c : findPrevCounter (updateMetrics m pb).1 c = List.find (same_counter c) (pb_counters pb).
Proof.
  unfold findPrevCounter, updateMetrics. cbn [fst upd_counters].
  pose proof (counters_after ((fun _ => []) <$> upd_counters m) (pb_counters pb) (m_name c)) as Hd.
  replace (default [] (((fun _ : list U64PB => []) <$> upd_counters m) !! m_name c)) with (@nil U64PB) in Hd
    by (rewrite lookup_fmap; by destruct (upd_counters m !! m_name c)).
  destruct (fold_left _ _ _ !! m_name c) as [prev|]; cbn in Hd.
  - rewrite Hd, find_filter. by apply find_ext_bool.
  - transitivity (List.find (fun p => bool_decide (m_tags p = m_tags c)) (List.filter (fun p => bool_decide (m_name p = m_name c)) (pb_counters pb)));
      [by rewrite <- Hd|]. rewrite find_filter. by apply find_ext_bool.
Qed.

(** A counter that, once there, stays and does not fall. *)
Fixpoint steady (before : option Z) (vs : list (option Z)) : Prop :=
  match vs with
  | [] => True
  | v :: vs' => (match before, v with Some a, Some b => a <= b | Some _, None => False | None, _ => True end) /\
                (forall x, v = Some x -> 0 <= x < 2 ^ 63) /\ steady v vs'
  end.

Lemma same_counter_refl c p : same_counter c p = true -> forall x, same_counter p x = same_counter c x.
Proof. unfold same_counter. intros [H1 H2]%andb_true_iff x. apply bool_decide_eq_true in H1, H2. by rewrite H1, H2. Qed.

(** The increments that the host passes on for a counter add up to the value
    of the last poll. *)
Theorem increments_add_up m pbs c : findPrevCounter m c = None -> steady None ((fun pb => value_in pb c) <$> pbs) ->
  total m pbs c = default 0 (mjoin (last ((fun pb => value_in pb c) <$> pbs))).
Proof.
  assert (forall o pbs m, m_v <$> findPrevCounter m c = o -> (forall x, o = Some x -> 0 <= x < 2 ^ 63) -> steady o ((fun pb => value_in pb c) <$> pbs) ->
    default 0 o + total m pbs c = default 0 (mjoin (last (o :: ((fun pb => value_in pb c) <$> pbs))))) as H.
  { clear m pbs. intros o pbs. revert o. induction pbs as [|pb pbs IH]; intros o m Ho Hb Hs; cbn [total]; [destruct o; cbn; lia|].
    destruct Hs as (H1 & H2 & H3). specialize (IH (value_in pb c) (updateMetrics m pb).1 ltac:(by rewrite findPrevCounter_last) H2 H3).
    rewrite fmap_cons. rewrite last_cons_cons. rewrite <- IH.
    enough (default 0 o + increment m pb c = default 0 (value_in pb c)) by lia. unfold increment, value_in in *.
    destruct (List.find (same_counter c) (pb_counters pb)) as [p|] eqn:Ef; cbn in *; [|by destruct o].
    apply List.find_some in Ef as [_ Ef]. assert (findPrevCounter m p = findPrevCounter m c) as Ep.
    { unfold findPrevCounter. apply andb_true_iff in Ef as [E1 E2]. apply bool_decide_eq_true in E1, E2. by rewrite E1, E2. }
    rewrite Ep. destruct (findPrevCounter m c) as [q|]; cbn in Ho; subst o; cbn; [|lia].
    specialize (Hb _ eq_refl). specialize (H2 _ eq_refl). unfold int64.
    rewrite !(u64_small (m_v p - m_v q)) by (unfold is_u64; lia). rewrite (proj2 (Z.ltb_lt _ _)) by lia. lia. }
  intros Hn Hs. specialize (H None pbs m). rewrite Hn in H. specialize (H eq_refl ltac:(done) Hs). cbn [default] in H.
  destruct pbs as [|pb pbs]; [done|]. rewrite fmap_cons in *. rewrite last_cons_cons in H. lia.
Qed.

(** Gauges are not cleared. *)
Lemma gauges_not_cleared m : all_gauges (ClearAllForTest m) = all_gauges m.
Proof. done. Qed.
