(* ===== verification/HostLoops.v ===== *)
(** * The host's loops and configuration (host/dispatch/dispatcher.go,
      host/service/service.go, host/config, host/util/user_agent.go)

    What the host asks its enclave at intervals, when it starts and when it
    is told to stop, and which configurations it accepts. *)
From Stdlib Require Import Strings.String.
From stdpp Require Import prelude gmap.
From S2P Require Import Prelude Errors Containers Util RaftTypes PeerId Minimums GroupClock Msgs Attest HostAuth HostWire HostProg PeerDb Web Metrics.

(** ** dispatcher.go *)
Inductive LoopError := ErrSend | ErrUnexpected.

(** Whether the attestation was refreshed; an error ends the dispatcher. *)
Definition refreshAttestation : Prog (bool + LoopError) :=
  resp ← call (Enclave (hRefreshAttestation true));
  mret (match resp with
        | EResp (oStatus e) => inl (is_ok e)
        | EErr => inr ErrSend
        | _ => inr ErrUnexpected
        end).

(** A turn of [metricLoop].  [metrics]: those that a [MetricsReply] carries. *)
Record MetricLoop := { updater : metricsUpdater; lastEnvStats : option Z }.
Definition metricLoop_turn (EnvStatsPollDuration : Z) (metrics : MetricsPB) (s : MetricLoop) : Prog (MetricLoop * list MetricWrite + LoopError) :=
  resp ← call (Enclave (hGetEnclaveStatus true));
  let status := match resp with
    | EErr => inr ErrSend
    | EResp (oGetEnclaveStatusReply st) => inl (updateStatus (updater s) st)
    | EResp (oStatus _) => inl (updater s, [])
    | _ => inr ErrUnexpected
    end in
  match status with
  | inr e => mret (inr e)
  | inl (u, writes) =>
      now ← call Now;
      let poll_env := match lastEnvStats s with None => true | Some t => t + EnvStatsPollDuration <? now end in
      last ← (if poll_env then t ← call Now; mret (Some t) else mret (lastEnvStats s));
      resp ← call (Enclave (if poll_env then hRequestMetrics true else hMetrics false));
      mret (match resp with
            | EErr => inr ErrSend
            | EResp oMetricsReply => let '(u, ws) := updateMetrics u metrics in inl ({| updater := u; lastEnvStats := last |}, writes ++ ws)
            | EResp (oStatus _) => inl ({| updater := u; lastEnvStats := last |}, writes)
            | _ => inr ErrUnexpected
            end)
  end.

(** ** service.go *)

(** After SIGTERM; [fuel] turns at most.  The loop looks at the errors of
    sending only. *)
Fixpoint shutdown_loop (fuel : nat) (sleep : Z) : Prog bool :=
  match fuel with
  | O => mret false
  | S fuel' =>
      _ ← call (Wait sleep);
      r1 ← call (Enclave (hRelinquishLeadership true));
      r2 ← call (Enclave (hRequestRemoval true));
      match r1, r2 with
      | EErr, _ | _, EErr => shutdown_loop fuel' (sleep + Second)
      | _, _ => mret true
      end
  end.

(** [None] is healthy.  A status of any kind, also OK, is an error. *)
Definition livenessCheck (timeout : Z) : Prog (option bytes) :=
  resp ← call (Enclave (hGetEnclaveStatus true));
  late ← call (Wait timeout);
  mret (if late : bool then Some (str "livenessCheck context")
        else match resp with
             | EErr => Some (str "dispatcher.SendTransaction")
             | EResp (oStatus _) => Some (str "HostToEnclaveResponse_Status")
             | _ => None
             end).
(** The first check and one for every tick, until the context is done. *)
Fixpoint liveness_ticks (ticks : nat) (timeout : Z) (live : Health) : Prog Health :=
  match ticks with
  | O => mret (Health_Set live (Some (str "livenessChecks context")))
  | S n => err ← livenessCheck timeout; liveness_ticks n timeout (Health_Set live err)
  end.
Definition livenessChecks (ticks : nat) (timeout : Z) (live : Health) : Prog Health :=
  err ← livenessCheck timeout; liveness_ticks ticks timeout (Health_Set live err).

(** ** config *)
Definition Minute : Z := 60 * Second.
Definition Millisecond : Z := 10 ^ 6.
Record RaftHostConfig := { RefreshStatusDuration : Z; RefreshAttestationDuration : Z; TickDuration : Z; MetricPollDuration : Z;
  EnvStatsPollDuration_ : Z; EnclaveConcurrency : Z }.
Record RateLimitConfig := { BucketSize : Z; LeakRateScalar : Z; LeakRateDuration : Z; SkipLimiting : bool }.
Record PeerConfig := { peer_MinSleep : Z; peer_MaxSleep : Z; AbandonDuration : Z; BufferSize : Z }.
Record RequestConfig := { WebsocketHandshakeTimeout : Z; SocketTimeout : Z }.
(** [redis_addrs]: those of the Redis configuration. *)
Record Config := {
  Raft_ : RaftHostConfig; Redis_cfg : RedisConfig; redis_addrs : list bytes; Limit_ : RateLimitConfig; Peer_ : PeerConfig; Request_ : RequestConfig;
  EnclaveID : bytes; InitialRedisPeerDBTTL : Z; RecurringRedisPeerDBTTL : Z; LocalLivenessCheckPeriod : Z; LocalLivenessCheckTimeout : Z }.

Definition err_if (b : bool) (e : bytes) : list bytes := if b then [e] else [].
Definition Raft_validate (r : RaftHostConfig) : list bytes :=
  err_if (EnclaveConcurrency r <=? 1) (str "invalid EnclaveConcurrency") ++
  err_if (TickDuration r <=? 0) (str "invalid TickDuration") ++
  err_if (RefreshAttestationDuration r <=? 0) (str "invalid RefreshAttestationDuration").
(** [strings.Split(addr, ":")] has one part more than there are colons. *)
Definition Redis_validate (addrs : list bytes) : list bytes :=
  err_if (bool_decide (addrs = [])) (str "must provide redis Addrs") ++
  (addrs ≫= fun a => err_if (negb (Nat.eqb (S (List.length (List.filter (Z.eqb 58) a))) 2)) (str "invalid redis Addr")).
Definition Limit_validate (r : RateLimitConfig) : list bytes :=
  if SkipLimiting r then [] else
  err_if (BucketSize r <? 0) (str "invalid BucketSize") ++ err_if (LeakRateScalar r <? 0) (str "invalid LeakRateDuration").
Definition Request_validate (r : RequestConfig) : list bytes :=
  err_if (WebsocketHandshakeTimeout r <=? 0) (str "Handshake timeout must be >0") ++
  err_if (SocketTimeout r <=? 0) (str "Socket timeout must be >0").
Definition Peer_validate (p : PeerConfig) : list bytes :=
  err_if (BufferSize p <? 1) (str "invalid BufferSize") ++
  err_if (peer_MaxSleep p <? peer_MinSleep p) (str "MinSleep must be less than MaxSleep").
Definition validate (c : Config) : list bytes :=
  Raft_validate (Raft_ c) ++ Redis_validate (redis_addrs c) ++ Limit_validate (Limit_ c) ++ Request_validate (Request_ c).

Definition Default (NumCPU : Z) : Config := {|
  Raft_ := {| RefreshStatusDuration := Minute; TickDuration := Second; MetricPollDuration := 10 * Second; EnvStatsPollDuration_ := 0;
              RefreshAttestationDuration := 10 * Minute; EnclaveConcurrency := PeerDb.Min NumCPU 64 |};
  Redis_cfg := {| Name := str "test"; MinSleepDuration := Second; MaxSleepDuration := 30 * Second |};
  redis_addrs := [str "localhost:6379"];
  Limit_ := {| BucketSize := 10; LeakRateScalar := 10; LeakRateDuration := Minute; SkipLimiting := false |};
  Peer_ := {| peer_MinSleep := 10 * Millisecond; peer_MaxSleep := Minute; AbandonDuration := 10 * Minute; BufferSize := 10000 |};
  Request_ := {| WebsocketHandshakeTimeout := 30 * Second; SocketTimeout := 30 * Second |};
  EnclaveID := str "enclave"; InitialRedisPeerDBTTL := 120 * Minute; RecurringRedisPeerDBTTL := 5 * Minute;
  LocalLivenessCheckPeriod := Minute; LocalLivenessCheckTimeout := Minute |}.

(** [Read]: the file with its environment variables expanded, which the
    library reads into the defaults. *)
Definition Read_config (yaml : bytes -> Config -> option Config) (expanded : option bytes) (NumCPU : Z) : option Config :=
  bs ← expanded;
  c ← yaml bs (Default NumCPU);
  if bool_decide (validate c = []) then Some c else None.

(** ** user_agent.go *)

(** A letter of the pattern, in either case; besides, a long s (U+017F) is an
    s and a Kelvin sign (U+212A) a k. *)
Definition lower (c : Z) : Z := if (65 <=? c) && (c <=? 90) then c + 32 else c.
Fixpoint match_fold (lit s : bytes) : option (bytes * bytes) :=
  match lit with
  | [] => Some ([], s)
  | l :: lit' =>
      match s with
      | c :: s1 =>
          if lower c =? l then '(m, rest) ← match_fold lit' s1; Some (c :: m, rest) else
          match s1 with
          | d :: s2 =>
              if (l =? 115) && (c =? 197) && (d =? 191) then '(m, rest) ← match_fold lit' s2; Some (c :: d :: m, rest) else
              match s2 with
              | e :: s3 =>
                  if (l =? 107) && (c =? 226) && (d =? 132) && (e =? 170)
                  then '(m, rest) ← match_fold lit' s3; Some (c :: d :: e :: m, rest) else None
              | [] => None
              end
          | [] => None
          end
      | [] => None
      end
  end.
(** [strings.ToLower], as far as its result is ASCII. *)
Fixpoint ToLower (s : bytes) : bytes :=
  match s with
  | [] => []
  | c :: s1 =>
      match s1 with
      | d :: e :: s3 => if (c =? 226) && (d =? 132) && (e =? 170) then 107 :: ToLower s3 else lower c :: ToLower s1
      | _ => lower c :: ToLower s1
      end
  end.
Fixpoint until_space (s : bytes) : bytes * bytes :=
  match s with
  | [] => ([], [])
  | c :: s' => if c =? 32 then ([], s) else let '(v, r) := until_space s' in (c :: v, r)
  end.

Record UserAgent := { Platform_ : bytes; Version_ : bytes; AdditionalSpecifiers : bytes }.
Definition parsePlatform (p : bytes) : bytes :=
  let l := ToLower p in
  if bool_decide (l = str "desktop") then str "desktop"
  else if bool_decide (l = str "ios") then str "ios"
  else if bool_decide (l = str "android") then str "android"
  else str "unexpected-parse-failure".
(** The alternatives in order; then the version, up to a space, and the rest,
    which has no newline. *)
Fixpoint match_platform (alts : list bytes) (s : bytes) : option UserAgent :=
  match alts with
  | [] => None
  | alt :: alts' =>
      let this :=
        '(p, rest) ← match_fold alt s;
        match rest with
        | 47 :: rest =>
            let '(v, r) := until_space rest in
            if bool_decide (v = []) then None else
            match r with
            | [] => Some {| Platform_ := parsePlatform p; Version_ := v; AdditionalSpecifiers := [] |}
            | _ :: sp => if bool_decide (sp = []) || bool_decide (10 ∈ sp) then None
                         else Some {| Platform_ := parsePlatform p; Version_ := v; AdditionalSpecifiers := TrimSpace sp |}
            end
        | _ => None
        end in
      match this with Some ua => Some ua | None => match_platform alts' s end
  end.
Definition ParseUserAgent (s : bytes) : option UserAgent :=
  if bool_decide (s = []) then None else
  '(_, rest) ← match_fold (str "signal-") s;
  match_platform [str "android"; str "desktop"; str "ios"] rest.

Definition Tags (ua : UserAgent) (allowedVersions : gmap bytes (gset bytes)) : list (bytes * bytes) :=
  (str "platform", Platform_ ua) ::
  (if bool_decide (Version_ ua ∈ (default ∅ (allowedVersions !! Platform_ ua) : gset bytes)) then [(str "clientVersion", Version_ ua)] else []).
Definition ParseTagsIncludeVersions (s : bytes) (allowedVersions : gmap bytes (gset bytes)) : list (bytes * bytes) :=
  match ParseUserAgent s with None => [(str "platform", str "unknown")] | Some ua => Tags ua allowedVersions end.
Definition ParseTags (s : bytes) : list (bytes * bytes) := ParseTagsIncludeVersions s ∅.

(** ** What the loops do *)

(** A run with the answers of an environment: the commands and the result. *)
Fixpoint prog_drive {A} (o : nat -> forall c, reply_of c) (i : nat) (p : Prog A) : list Cmd * A :=
  match p with Ret a => ([], a) | Do c k => let '(cs, a) := prog_drive o (S i) (k (o i c)) in (c :: cs, a) end.

(** Both requests are made, and when the enclave answers them, with whatever
    errors, there is no second turn. *)
Lemma shutdown_ignores_errors (o : nat -> forall c, reply_of c) i fuel sleep : (forall j req, exists e, o j (Enclave req) = EResp (oStatus e)) ->
  prog_drive o i (shutdown_loop (S fuel) sleep) =
    ([Wait sleep; Enclave (hRelinquishLeadership true); Enclave (hRequestRemoval true)], true).
Proof. intros Ho. cbn. destruct (Ho (S i) (hRelinquishLeadership true)) as [e1 ->]. by destruct (Ho (S (S i)) (hRequestRemoval true)) as [e2 ->]. Qed.

(** The host is live after a check only if the enclave answered with its
    status in time. *)
Lemma livenessCheck_healthy (o : nat -> forall c, reply_of c) i timeout : (prog_drive o i (livenessCheck timeout)).2 = None <->
  o (S i) (Wait timeout) = false /\ (forall e, o i (Enclave (hGetEnclaveStatus true)) <> EResp (oStatus e)) /\
  o i (Enclave (hGetEnclaveStatus true)) <> EErr.
Proof.
  cbn. destruct (o (S i) (Wait timeout)); [by split; [|intros []]|].
  destruct (o i (Enclave (hGetEnclaveStatus true))) as [[e| | | | |]| |]; cbn; split; try done; try (by intros _);
    [intros (_ & H & _); by destruct (H e)|intros (_ & _ & H); by destruct H].
Qed.

(** ** Configurations *)
Lemma Default_valid n : validate (Default n) = [] <-> 2 <= n.
Proof.
  assert (validate (Default n) = err_if (PeerDb.Min n 64 <=? 1) (str "invalid EnclaveConcurrency")) as ->.
  { unfold validate. set (rest := Redis_validate _ ++ _). assert (rest = []) as -> by (vm_compute; reflexivity).
    rewrite app_nil_r. unfold Raft_validate. set (rest' := err_if (TickDuration _ <=? 0) _ ++ _). assert (rest' = []) as -> by (vm_compute; reflexivity).
    by rewrite app_nil_r. }
  unfold PeerDb.Min, err_if. destruct (n <? 64) eqn:E1; [|zbool; split; [lia|done]].
  destruct (n <=? 1) eqn:E2; zbool; (split; [|try lia]); [intros E; discriminate E|lia|done].
Qed.
(** A buffer without room and a smallest sleep above the largest pass. *)
Lemma peer_config_unchecked : exists c, validate c = [] /\ length (Peer_validate (Peer_ c)) = 2%nat.
Proof.
  exists (let c := Default 8 in {| c with Peer_ := {| peer_MinSleep := 2; peer_MaxSleep := 1; AbandonDuration := 0; BufferSize := 0 |} |}).
  split; reflexivity.
Qed.
(** So do intervals on which a ticker cannot be made. *)
Lemma intervals_unchecked : exists c, validate c = [] /\ MetricPollDuration (Raft_ c) = 0 /\ RefreshStatusDuration (Raft_ c) = 0.
Proof.
  exists (let c := Default 8 in {| c with Raft_ := {| RefreshStatusDuration := 0; TickDuration := Second; MetricPollDuration := 0;
    EnvStatsPollDuration_ := 0; RefreshAttestationDuration := Second; EnclaveConcurrency := 8 |} |}).
  repeat split; reflexivity.
Qed.

(** ** User agents *)
Lemma ParseUserAgent_examples :
  ParseUserAgent (str "Signal-Android/6.1 Android/30") =
    Some {| Platform_ := str "android"; Version_ := str "6.1"; AdditionalSpecifiers := str "Android/30" |} /\
  ParseTags (str "signal-IOS/5") = [(str "platform", str "ios")] /\ ParseTags (str "Signal-iOS/") = [(str "platform", str "unknown")] /\
  (* a long s *)
  ParseTags (str "Signal-De" ++ [197; 191] ++ str "ktop/7") = [(str "platform", str "unexpected-parse-failure")].
Proof. vm_compute. repeat split. Qed.
(** A version is named only if it is allowed. *)
Lemma no_version_by_default s : ParseTags s = [(str "platform", str "unknown")] \/ exists p, ParseTags s = [(str "platform", p)].
Proof.
  unfold ParseTags, ParseTagsIncludeVersions, Tags. destruct (ParseUserAgent s) as [ua|]; [right|by left]. exists (Platform_ ua).
  rewrite lookup_empty. cbn [default]. by rewrite bool_decide_eq_false_2 by set_solver.
Qed.
